(* ===== verification/_CoqProject ===== *)
-Q . S2P
Prelude.v
Intervals.v
Allocator.v
Io.v
Format.v
JournalState.v
Replay.v
PartFile.v
Writer.v
Compaction.v
Effects.v
Sink.v
Str.v
Filename.v
ContentRange.v
Remote.v
Http.v
Retry.v
Completion.v
Metadata.v
Recovery.v
WriterService.v
StorageSink.v
Download.v
Footprint.v
Worker.v
Pool.v
Token.v
Ipc.v
Transport.v
Windows.v
Daemon.v
Process.v
Client.v
System.v
Shared.v
Startup.v
Identity.v
Schema.v
Store.v
Sample.v
