(* ===== verification/Prelude.v ===== *)
(** * Downpour: a verification library for the download engine

    Downpour downloads one file with several HTTP range requests at a time and keeps what it has
    across crashes.  This library models the parts of the program that decide which bytes are
    complete, who may write them, what is durable, and when a file may receive its final name.
    All paths below are under [src/crates/].

    ** The program

    - An [IntervalMap] partitions a download into pending, in-progress and complete intervals.
    - A [SegmentAllocator] owns the map and hands ranges to workers.
    - A worker fetches its range over HTTP; what the server proves about the object
      ([ContentRange], [RangeProof], validators, digests) decides whether the bytes may be used.
    - A [DurableWriter] writes blocks to the preallocated part file, synchronises it, appends one
      journal record per block, synchronises the journal, and only then completes the ranges.
    - The journal is a header and framed records with checksums; replaying it yields the longest
      intact prefix; folding that yields the blocks, the effective length and the seal;
      compaction rewrites it with merged blocks and replaces it atomically.
    - A metadata store (SQLite) keeps what the user sees and a cache of the coverage; the journal
      holds an identity snapshot of the same record.
    - Recovery reconciles part file, journal and metadata after an unclean shutdown.
    - Completion checks length, coverage and digest, seals the journal, and renames.

    ** The files, and the code each one models

    - [Prelude] (this file): results and the [?] operator, machine integers, lists, bits, an
      abstract incremental hash.  No code of its own.
    - [Intervals]: [downpour-intervals/src/lib.rs].  The record [IntervalMap] has the struct's
      fields; [grant], [split_in_progress], [complete], [abandon] are the methods, returning the
      changed map or the error; [invariants_hold] is the debug assertion.
    - [Allocator]: [downpour-engine/src/lib.rs].  [allocate], [complete_durable], [abandon].
    - [Io]: what the storage code uses of [std::io] and [std::fs].  An error has a kind; a reader
      is its remaining bytes with a schedule of short reads, interruptions and failures; [Os]
      is a class of the answers of the system calls.
    - [Format], [JournalState], [Replay], [Compaction]:
      [downpour-storage/src/journal/{format,state,replay,compaction}.rs].  The CRC-32C, the
      identity codec and BLAKE3 belong to other packages and are section variables.
    - [PartFile]: [downpour-storage/src/part_file.rs], on a file as its bytes and its reserved
      extent, with both platforms' preparation policies and the Windows write loop.
    - [Writer]: [downpour-storage/src/writer.rs].  A call is a program over four effects (write,
      data sync, append, journal sync); the classes [DurableData] and [DurableJournal] are what
      the writer is promised by its storage, and the file-backed instances discharge them.
      A run may stop after any effect: that is a crash.
    - [Str]: the operations of [str] the code uses.
    - [ContentRange], [Remote]: [downpour-types/src/{content_range,remote}.rs].
    - [Completion]: [downpour-storage/src/completion.rs], a program over its calls, each of which
      the environment answers; stopped anywhere.
    - [Metadata], [Identity], [Schema], [Store]: [downpour-storage/src/metadata.rs].  [Metadata] is
      its values: names, codes, bounds, checkpoints, CBOR heads, range evidence.  [Identity] is the
      public URLs, native paths and identity snapshots.  [Store] has the tables and their
      constraints, the statements over them, transactions, saving and loading; a [SqliteEnv] decides
      which statement fails.  [Schema] opens the database.
    - [Recovery]: [downpour-storage/src/recovery.rs], over an interface of the metadata store
      with its laws.
    - [Effects]: programs over calls the environment answers, run against any world that may
      answer them and stopped anywhere; the [wp] rules every later file reasons with, and contracts
      of calls that hold in any world ([abides]).
    - [Filename], [Sink], [Retry]: [downpour-types/src/filename.rs], [downpour-http/src/sink.rs],
      [downpour-http/src/{retry,probe}.rs].  [SinkTarget] is what a target of fetched bytes
      promises to the window in front of it.
    - [Http]: [downpour-http/src/{error,protocol,h1h2}.rs]: the probe and the ranged fetch as
      programs over the HTTP library's calls; [TransferProtocol] is all the engine knows of them.
    - [WriterService]: [downpour-engine/src/writer_service.rs]: the actor, its commands and
      replies, the channel, and the handle of one grant.
    - [StorageSink]: [downpour-engine/src/storage_sink.rs]: the sink target over writer, part file
      and completion; the disk is a directory with the data and the journal behind their names.
    - [Download]: [downpour-engine/src/download.rs]: attempts, resumption and retries over any
      [TransferProtocol] into the storage sink.
    - [Footprint]: the names a download may change, as contracts of its calls ([within],
      [calls_contract]) by which its programs abide; what abides leaves every other name as it was,
      and cannot tell a shared directory from one of its own ([like]).
    - [Worker], [Pool]: [downpour-engine/src/worker_pool.rs]: planning and one worker over its
      grant; then the pool's loop, whose tasks, channels and ticker are calls of the runtime.
    - [Ipc]: [downpour-ipc/src/{types,token,codec,session}.rs] and the stream of [transport.rs]:
      messages, token, frames, and the session.  [Serde] and [Json] are what [serde] promises.
    - [Transport]: [downpour-ipc/src/transport.rs]: what the platforms share, over the class
      [Platform]; and the Unix one: the runtime directory, the listener and the token file over a
      file system of named nodes ([fs_does]); daemons that start together are threads of one file
      system ([step]); [kept] is what no start ever breaks.
    - [Windows]: [downpour-ipc/src/transport/windows.rs], the other [Platform]: SID, descriptor,
      directory, pipe and token file over the calls of the API ([win_does]).
    - [Daemon]: [downpour-daemon/src/server.rs]: serving a connection ([conn]: its bytes and what it
      dispatched); the registry, commands and tasks as threads of one [system]; one task on the
      machine of [Download] ([place]).
    - [Process]: [downpour-daemon/src/main.rs]: where the state lives, binding, and the accept loop.
    - [Client]: [downpour-cli/src/main.rs]: [dp add] up to its exit code; the protocol is the machine
      [phase], and [talk] the conversations it allows.
    - [System]: the daemon of [Daemon] with a storage for every download: [machine] refines [system]
      ([erase]), a [ticket] says which record a thread may change, and every task runs as in
      [place], all of a call at once or one operation of its blocking thread after the other.
    - [Shared]: the same with one directory for all ([together]).  Where no two downloads claim one
      name ([apart]) its runs are runs of [System] ([mirrors]).  It joins client, connection,
      registry and storage.
    - [Startup]: [downpour-daemon/src/startup.rs] over [Recovery]; [PrivateRows] is what the store
      promises beyond it.
    - [Token]: values as integers and bytes, for the concrete codecs of the examples.
    - [Sample]: a concrete URL reader, codec and SQLite, and the witnesses of the store's theorems.

    ** What the theorems show

    - Intervals: every reachable map is canonical and refines a function from bytes to owners
      ([interval_map_refines_ownership], [reachable_invariants_hold], [reachable_canonical]);
      a complete byte was earned by its owner and stays complete
      ([completion_final_and_earned]); abandoning is exact and idempotent.
    - Allocator: the policy branch by branch, exclusive grants, and a single worker that drains
      the file within a bound.
    - Journal: encoders and decoders are exact inverses, a torn frame is always recognised as
      one, the fold means the blocks no later truncation cuts and refuses exactly the impossible
      histories, replay does not depend on how reads are split, repair is exact and idempotent,
      compaction keeps the meaning and its installation is atomic.
    - Part file: creation and reopening tell the truth and destroy nothing; a positional write is
      exact or refused.
    - Writer: after a crash anywhere, in any history, every recorded block is on disk and every
      complete byte is recorded ([crash_consistency]); a flush is all or nothing.
    - Remote facts: [Content-Range] round trips and accepted ranges are the requested ones; a
      range proof is constructed exactly from a consistent observation.
    - Completion: at any interruption the final name denotes verified bytes only
      ([named_only_when_verified]); acceptance is exactly the three checks.
    - Metadata: checkpoints are accepted exactly when valid, stored values read back exactly; no
      credential reaches what is stored; a snapshot is the record.
    - Store: saving a record and loading it is the identity, or nothing changed; the checkpoint cache
      is exact; nothing unchecked is loaded, whatever the tables hold; an unknown database is refused
      untouched.  The store discharges the interfaces [MetadataStoreLaws] and [PrivateRows] that
      [Recovery] and [Startup] are proved against, and [startup_over_sqlite] composes the three.
    - Recovery: it terminates, believes the journal only, and what a second run yields.
    - Filename: a chosen name is one safe component; quoted and encoded parameters read back.
    - Retry and HTTP: retries are bounded and spaced; a probe ends and believes only evidence;
      a fetch hands on no byte before the response is proven to be what was asked for.
    - Writer service: what it acknowledged survives a stop, and every command is exact.
    - Worker and pool: a successful worker delivered its grant durably; ownership moves only
      while no task runs; a report means a complete file.
    - Storage sink: what it reports durable is, and a name is given to verified bytes only; by
      composition of the writer's and the completion's lemmas.
    - Download: it ends within its retries, resumes only under the validator of the probe that
      started the file ([turn] is the state machine of the conversation), and a returned path
      names verified bytes.  It destroys nothing: it changes names that were free, and journals.
    - Client boundary: messages and frames read back; a connection serves a client that greeted it
      with the daemon's token, exactly, and no one else.
    - Daemon: the registry stays well formed and moves one way under any interleaving; [Completed]
      means verified; start-up reconciles every unfinished download as if it were alone.
    - Endpoint: of the daemons that start beneath one runtime root one binds at most, the token file
      is always whole and private, and a client trusts only that directory and that token; on
      Windows everything the daemon makes is under the user's descriptor, in a directory it secured.
    - Process and client: every connection is served with the installed token; [dp add] follows the
      protocol, and its success is what the daemon's handler answered ([success_story] joins both ends
      of one stream).
    - The whole program: a success of [dp add] means that the file is there, verified and sealed, and
      stays on record ([success_means_a_verified_file]); composed of [success_story], the commands'
      answers, the registry's lifecycle, [transfer_wp], and the footprints of the downloads.

    ** Bounds and fuel

    Integers are [Z] with the width written out ([u64], [checked_add64], [wadd64]).  Loops the
    kernel does not see terminate carry fuel, and each has a theorem that the fuel is enough:
    a reader is read with [reader_size] fuel, which counts its bytes and its interruptions
    ([replay_ignores_read_boundaries], [hash_loop]); hashing a block of [len] bytes takes
    [len / HASH_BUFFER_LEN + 2] reads ([block_fuel], [compaction_preserves_evidence]); the Windows
    write loop takes one turn per byte at most ([positional_write_exact]); printing a number takes
    twenty digits at most; a probe follows [max_redirects] redirects ([probe_fuel]); a download
    makes one attempt more than there are retries ([download_fuel]).  A function that could run out
    returns [None], and the properties state that it does not.  A loop that the environment may
    keep alive for ever (a response body, the pool's ticker) takes its fuel from outside and, out
    of it, makes a call that has no answer: its theorems hold at every stop, for every fuel.

    ** What is not modelled

    - The text of errors ([Display]) and tracing output.
    - The operating system, SQLite's own engine (its file, its planner; what a statement does to a
      table is modelled), hyper, rustls, tokio, the url crate, BLAKE3, SHA-2, CRC-32C
      and CBOR libraries: parameters or answers of the environment.
    - The memory of the FFI calls (handles, pointers, structure sizes), and on Windows a runtime root
      with a verbatim prefix.
    - What two downloads do to each other that lay claim to one name, both having found the final
      name free: [Shared] leaves it out by the hypothesis [apart].
    - Idealisations: a failed [COMMIT] or a dropped transaction always rolls back; the columns of
      SQLite's tables hold values of their declared type, and loading back is stated for reads that
      do not fail; symbolic links inside the runtime path are not followed; [SetFileSecurity]
      replaces a security descriptor as a whole, whose text is not interpreted.
    - Argument parsing, and code that only composes library calls, as listed in the project
      manifest.

*)

From Stdlib Require Export ZArith Lia.
From Stdlib Require Export Strings.Byte.
From stdpp Require Export base numbers option list.

#[global] Open Scope Z_scope.

(** ** Results: Rust's [Result<T, E>] *)

Inductive result (T E : Type) : Type :=
| Ok (t : T)
| Err (e : E).
Arguments Ok {T E} t.
Arguments Err {T E} e.

Declare Scope rust_scope.
Delimit Scope rust_scope with rust.
#[global] Open Scope rust_scope.

(** The [?] operator: the error leaves the function unchanged. *)
Notation "'let?' x := m 'in' k" :=
  (match m with Ok x => k | Err e => Err e end)
  (at level 10, x binder, m at level 100, k at level 200) : rust_scope.

(** [map_err], [ok_or] and [ok] of the standard library. *)
Definition map_err {T E F} (f : E → F) (r : result T E) : result T F :=
  match r with Ok t => Ok t | Err e => Err (f e) end.
Definition ok_or {T E} (o : option T) (e : E) : result T E :=
  match o with Some t => Ok t | None => Err e end.
Definition ok {T E} (r : result T E) : option T :=
  match r with Ok t => Some t | Err _ => None end.
Definition is_ok {T E} (r : result T E) : bool :=
  match r with Ok _ => true | Err _ => false end.

#[global] Instance result_eq_dec {T E} `{EqDecision T, EqDecision E} :
  EqDecision (result T E).
Proof. solve_decision. Defined.

(** ** Machine integers

    An unsigned integer of width [w] is a [Z] in [uint w].  Plain arithmetic wraps at the width
    (the release profile); [checked_*] and [saturating_*] are the standard library's. *)

Definition u64_modulus : Z := 18446744073709551616.
Definition u64_max : Z := 18446744073709551615.
Definition u32_modulus : Z := 4294967296.
Definition u32_max : Z := 4294967295.
Definition u16_modulus : Z := 65536.

Definition u64 (x : Z) : Prop := 0 ≤ x < u64_modulus.
Definition u32 (x : Z) : Prop := 0 ≤ x < u32_modulus.
Definition u16 (x : Z) : Prop := 0 ≤ x < u16_modulus.

Definition wadd64 (a b : Z) : Z := (a + b) mod u64_modulus.
Definition wsub64 (a b : Z) : Z := (a - b) mod u64_modulus.
Definition checked_add64 (a b : Z) : option Z :=
  if a + b <? u64_modulus then Some (a + b) else None.
Definition checked_sub64 (a b : Z) : option Z :=
  if b <=? a then Some (a - b) else None.
Definition checked_mul64 (a b : Z) : option Z :=
  if a * b <? u64_modulus then Some (a * b) else None.
Definition saturating_add64 (a b : Z) : Z := Z.min (a + b) u64_max.
Definition saturating_sub64 (a b : Z) : Z := Z.max (a - b) 0.
Definition checked_add32 (a b : Z) : option Z :=
  if a + b <? u32_modulus then Some (a + b) else None.
Definition saturating_add32 (a b : Z) : Z := Z.min (a + b) u32_max.

(** Half-open byte ranges, [std::ops::Range<u64>]. *)
Record Range := MkRange { r_start : Z; r_end : Z }.
#[global] Instance Range_eq_dec : EqDecision Range.
Proof. solve_decision. Defined.
Definition in_range (r : Range) (b : Z) : Prop := r_start r ≤ b < r_end r.
#[global] Instance in_range_dec r b : Decision (in_range r b).
Proof. unfold in_range. apply _. Defined.
Definition range_disjoint (r s : Range) : Prop :=
  r_end r ≤ r_start s ∨ r_end s ≤ r_start r.

(** Unfold the integer layer for [lia]. *)
Ltac unfold_int :=
  unfold u64, u32, u16, wadd64, wsub64, saturating_add64, saturating_sub64, saturating_add32,
    in_range, range_disjoint, u64_max, u32_max, u64_modulus, u32_modulus, u16_modulus in *;
  simpl in *.
Ltac ulia := unfold_int; lia.

(** Decide the boolean comparisons of the goal and the hypotheses. *)
Ltac case_bool :=
  match goal with
  | H : context [if ?b then _ else _] |- _ => destruct b eqn:?
  | |- context [if ?b then _ else _] => destruct b eqn:?
  end.
Ltac bool_to_prop :=
  repeat match goal with
  | H : (_ && _) = true |- _ => apply andb_true_iff in H as [? ?]
  | H : (_ && _) = false |- _ => apply andb_false_iff in H
  | H : (_ || _) = true |- _ => apply orb_true_iff in H
  | H : (_ || _) = false |- _ => apply orb_false_iff in H as [? ?]
  | H : negb _ = true |- _ => apply negb_true_iff in H
  | H : negb _ = false |- _ => apply negb_false_iff in H
  | H : (_ <? _) = true |- _ => apply Z.ltb_lt in H
  | H : (_ <? _) = false |- _ => apply Z.ltb_ge in H
  | H : (_ <=? _) = true |- _ => apply Z.leb_le in H
  | H : (_ <=? _) = false |- _ => apply Z.leb_gt in H
  | H : (_ =? _) = true |- _ => apply Z.eqb_eq in H
  | H : (_ =? _) = false |- _ => apply Z.eqb_neq in H
  | H : bool_decide _ = true |- _ => apply bool_decide_eq_true in H
  | H : bool_decide _ = false |- _ => apply bool_decide_eq_false in H
  end.

Lemma wadd64_small a b : 0 ≤ a + b < u64_modulus → wadd64 a b = a + b.
Proof. apply Z.mod_small. Qed.
Lemma wsub64_small a b : 0 ≤ a - b < u64_modulus → wsub64 a b = a - b.
Proof. apply Z.mod_small. Qed.
Lemma checked_add64_Some a b c :
  checked_add64 a b = Some c ↔ c = a + b ∧ a + b < u64_modulus.
Proof. unfold checked_add64. case_bool; bool_to_prop; split; intros ?; simplify_eq; destruct_and?; simplify_eq; auto with lia; lia. Qed.
Lemma checked_add64_None a b : checked_add64 a b = None ↔ u64_modulus ≤ a + b.
Proof. unfold checked_add64. case_bool; bool_to_prop; split; intros ?; simplify_eq; destruct_and?; simplify_eq; auto with lia; lia. Qed.
Lemma checked_sub64_Some a b c : checked_sub64 a b = Some c ↔ c = a - b ∧ b ≤ a.
Proof. unfold checked_sub64. case_bool; bool_to_prop; split; intros ?; simplify_eq; destruct_and?; simplify_eq; auto with lia; lia. Qed.
Lemma checked_add32_Some a b c :
  checked_add32 a b = Some c ↔ c = a + b ∧ a + b < u32_modulus.
Proof. unfold checked_add32. case_bool; bool_to_prop; split; intros ?; simplify_eq; destruct_and?; simplify_eq; auto with lia; lia. Qed.

(** ** Bytes: [u8] *)

#[global] Instance byte_eq_dec : EqDecision byte := Byte.byte_eq_dec.

Definition byte_val (b : byte) : Z := Z.of_N (Byte.to_N b).
Definition byte_of (z : Z) : byte := default x00 (Byte.of_N (Z.to_N z)).

Lemma byte_val_range b : 0 ≤ byte_val b < 256.
Proof.
  unfold byte_val. pose proof (Byte.to_N_bounded b) as H. lia.
Qed.
Lemma byte_of_val b : byte_of (byte_val b) = b.
Proof. unfold byte_of, byte_val. by rewrite N2Z.id, Byte.of_to_N. Qed.
Lemma byte_val_of z : 0 ≤ z < 256 → byte_val (byte_of z) = z.
Proof.
  intros Hz. unfold byte_of, byte_val.
  destruct (Byte.of_N (Z.to_N z)) as [b|] eqn:E; simpl.
  - apply Byte.to_of_N in E. rewrite E. lia.
  - apply Byte.of_N_None_iff in E. lia.
Qed.
Lemma byte_val_inj a b : byte_val a = byte_val b → a = b.
Proof. intros H. by rewrite <- (byte_of_val a), <- (byte_of_val b), H. Qed.

(** [^] and [|] on bytes. *)
Definition byte_xor (a b : byte) : byte := byte_of (Z.lxor (byte_val a) (byte_val b)).
Definition byte_or (a b : byte) : byte := byte_of (Z.lor (byte_val a) (byte_val b)).

Lemma byte_bitop_range (f : Z → Z → Z) a b :
  (∀ x y, 0 ≤ x → 0 ≤ y → 0 ≤ f x y) →
  (∀ x y n, 0 ≤ n → Z.testbit (f x y) n = true → Z.testbit x n = true ∨ Z.testbit y n = true) →
  0 ≤ f (byte_val a) (byte_val b) < 256.
Proof.
  intros Hnn Hbit. pose proof (byte_val_range a). pose proof (byte_val_range b).
  assert (0 ≤ f (byte_val a) (byte_val b)) by (apply Hnn; lia).
  split; [done|]. change 256 with (2 ^ 8).
  destruct (decide (f (byte_val a) (byte_val b) = 0)) as [->|Hne]; [lia|].
  apply Z.log2_lt_pow2; [lia|].
  destruct (decide (Z.log2 (f (byte_val a) (byte_val b)) < 8)) as [|Hge]; [done|exfalso].
  assert (Hb : Z.testbit (f (byte_val a) (byte_val b)) (Z.log2 (f (byte_val a) (byte_val b))) = true)
    by (apply Z.bit_log2; lia).
  assert (Hhigh : ∀ c, Z.testbit (byte_val c) (Z.log2 (f (byte_val a) (byte_val b))) = false).
  { intros c. pose proof (byte_val_range c).
    destruct (decide (byte_val c = 0)) as [->|]; [apply Z.testbit_0_l|].
    apply Z.bits_above_log2; [lia|].
    apply Z.lt_le_trans with 8; [|lia]. apply Z.log2_lt_pow2; simpl; lia. }
  apply Hbit in Hb as [Hb|Hb]; [rewrite Hhigh in Hb|rewrite Hhigh in Hb|apply Z.log2_nonneg]; done.
Qed.

Lemma byte_val_xor a b : byte_val (byte_xor a b) = Z.lxor (byte_val a) (byte_val b).
Proof.
  apply byte_val_of, byte_bitop_range.
  - intros. by apply Z.lxor_nonneg.
  - intros x y n _. rewrite Z.lxor_spec. destruct (Z.testbit x n), (Z.testbit y n); auto.
Qed.
Lemma byte_val_or a b : byte_val (byte_or a b) = Z.lor (byte_val a) (byte_val b).
Proof.
  apply byte_val_of, byte_bitop_range.
  - intros. by apply Z.lor_nonneg.
  - intros x y n _. rewrite Z.lor_spec. destruct (Z.testbit x n), (Z.testbit y n); auto.
Qed.
Lemma byte_xor_zero a b : byte_xor a b = x00 ↔ a = b.
Proof.
  split.
  - intros H. apply (f_equal byte_val) in H. rewrite byte_val_xor in H.
    apply byte_val_inj. by apply Z.lxor_eq.
  - intros ->. apply byte_val_inj. by rewrite byte_val_xor, Z.lxor_nilpotent.
Qed.
Lemma byte_or_zero a b : byte_or a b = x00 ↔ a = x00 ∧ b = x00.
Proof.
  split.
  - intros H. apply (f_equal byte_val) in H. rewrite byte_val_or in H.
    change (byte_val x00) with 0 in H. apply Z.lor_eq_0_iff in H as [Ha Hb].
    by split; apply byte_val_inj.
  - by intros [-> ->].
Qed.

(** ** Little-endian encodings: [to_le_bytes], [from_le_bytes] *)

Fixpoint to_le_bytes (n : nat) (x : Z) : list byte :=
  match n with
  | O => []
  | S n => byte_of (x mod 256) :: to_le_bytes n (x / 256)
  end.
Fixpoint from_le_bytes (bs : list byte) : Z :=
  match bs with
  | [] => 0
  | b :: bs => byte_val b + 256 * from_le_bytes bs
  end.

Lemma length_to_le_bytes n x : length (to_le_bytes n x) = n.
Proof. revert x. induction n; intros x; simpl; auto. Qed.
Lemma from_to_le_bytes n x : 0 ≤ x < 256 ^ Z.of_nat n → from_le_bytes (to_le_bytes n x) = x.
Proof.
  revert x. induction n as [|n IH]; intros x Hx; [simpl in *; lia|].
  rewrite Nat2Z.inj_succ, Z.pow_succ_r in Hx by lia. simpl.
  pose proof (Z.mod_pos_bound x 256 ltac:(lia)).
  pose proof (Z.div_mod x 256 ltac:(lia)).
  rewrite byte_val_of, IH; [lia| |lia].
  split; [apply Z.div_pos; lia|apply Z.div_lt_upper_bound; lia].
Qed.
Lemma from_le_bytes_range bs : 0 ≤ from_le_bytes bs < 256 ^ Z.of_nat (length bs).
Proof.
  induction bs as [|b bs IH]; [simpl; lia|].
  cbn [length from_le_bytes]. rewrite Nat2Z.inj_succ, Z.pow_succ_r by lia.
  pose proof (byte_val_range b). lia.
Qed.
Lemma to_from_le_bytes bs : to_le_bytes (length bs) (from_le_bytes bs) = bs.
Proof.
  induction bs as [|b bs IH]; [done|].
  cbn [length from_le_bytes to_le_bytes]. pose proof (byte_val_range b).
  replace ((byte_val b + 256 * from_le_bytes bs) mod 256) with (byte_val b)
    by (rewrite (Z.mul_comm 256), Z.mod_add, Z.mod_small; lia).
  replace ((byte_val b + 256 * from_le_bytes bs) / 256) with (from_le_bytes bs)
    by (rewrite (Z.mul_comm 256), Z.div_add, Z.div_small; lia).
  by rewrite byte_of_val, IH.
Qed.

#[global] Arguments to_le_bytes : simpl never.
#[global] Arguments from_le_bytes : simpl never.

(** ** Lists *)

Create Rewrite HintDb len.
#[export] Hint Rewrite @length_app @length_cons @length_nil @length_take @length_drop
  @length_to_le_bytes @length_replicate @length_reverse @length_fmap : len.
Ltac len := autorewrite with len; try lia.

(** [slice.get(start..end)]. *)
Definition slice_get {A} (l : list A) (start end_ : nat) : option (list A) :=
  if bool_decide (start ≤ end_ ∧ end_ ≤ length l)%nat
  then Some (take (end_ - start) (drop start l)) else None.

Lemma slice_get_Some {A} (l : list A) s e r :
  slice_get l s e = Some r ↔
  (s ≤ e ∧ e ≤ length l)%nat ∧ r = take (e - s) (drop s l).
Proof. unfold slice_get. case_bool_decide; naive_solver. Qed.
Lemma length_slice_get {A} (l : list A) s e r :
  slice_get l s e = Some r → length r = (e - s)%nat.
Proof. intros [? ->]%slice_get_Some. len. Qed.
Lemma slice_get_app_mid {A} (a b c : list A) s e :
  s = length a → e = (length a + length b)%nat →
  slice_get (a ++ b ++ c) s e = Some b.
Proof.
  intros -> ->. apply slice_get_Some. split; [len|].
  rewrite drop_app_length. rewrite take_app_length' by lia. done.
Qed.

Definition zlen {A} (l : list A) : Z := Z.of_nat (length l).

(** [Iterator::max_by]: the last of the greatest elements. *)
Definition max_by {A} (cmp : A → A → comparison) (l : list A) : option A :=
  fold_left (λ acc y,
    match acc with
    | None => Some y
    | Some x => match cmp x y with Gt => Some x | _ => Some y end
    end) l None.

(** [Ordering::then_with]. *)
Definition then_with (a b : comparison) : comparison := match a with Eq => b | _ => a end.

Section max_by.
Context {A : Type} (cmp : A → A → comparison) (R : A → A → Prop).
Context (Hgt : ∀ x y, cmp x y = Gt → R x y) (Hle : ∀ x y, cmp x y ≠ Gt → R y x).
Context `{!Reflexive R} `{!Transitive R}.

Lemma max_by_spec l :
  match max_by cmp l with
  | None => l = []
  | Some r => r ∈ l ∧ ∀ y, y ∈ l → R r y
  end.
Proof.
  unfold max_by. induction l as [|x l IH] using rev_ind; [done|].
  rewrite fold_left_app. simpl.
  destruct (fold_left _ l None) as [r|].
  - destruct IH as [Hr Hall]. destruct (cmp r x) eqn:E.
    3: { split; [by apply elem_of_app; left|].
         intros y [Hy|Hy%list_elem_of_singleton]%elem_of_app; subst; auto. }
    all: assert (HR : R x r) by (apply Hle; congruence);
      (split; [by apply elem_of_app; right; apply list_elem_of_singleton|]);
      intros y [Hy|Hy%list_elem_of_singleton]%elem_of_app; subst; [|done];
      (transitivity r; [done|by apply Hall]).
  - subst. split; [by apply list_elem_of_singleton|]. by intros y ->%list_elem_of_singleton.
Qed.
End max_by.

Lemma filter_all {A} (P : A → Prop) `{∀ x, Decision (P x)} (l : list A) :
  (∀ x, x ∈ l → P x) → filter P l = l.
Proof.
  induction l as [|x l IH]; intros HP; [done|].
  rewrite filter_cons_True by (apply HP; left). f_equal. apply IH. intros. apply HP. by right.
Qed.
Lemma filter_none {A} (P : A → Prop) `{∀ x, Decision (P x)} (l : list A) :
  (∀ x, x ∈ l → ¬ P x) → filter P l = [].
Proof.
  induction l as [|x l IH]; intros HP; [done|].
  rewrite filter_cons_False by (apply HP; left). apply IH. intros. apply HP. by right.
Qed.
Lemma filter_iff_in {A} (P Q : A → Prop) `{∀ x, Decision (P x)} `{∀ x, Decision (Q x)} (l : list A) :
  (∀ x, x ∈ l → P x ↔ Q x) → filter P l = filter Q l.
Proof.
  induction l as [|x l IH]; intros HPQ; [done|].
  assert (IH' : filter P l = filter Q l) by (apply IH; intros; apply HPQ; by right).
  destruct (decide (P x)) as [HP|HP].
  - rewrite !filter_cons_True; [by rewrite IH'| |done]. apply HPQ; [left|done].
  - rewrite !filter_cons_False; [done| |done]. intros HQ. apply HP, HPQ; [left|done].
Qed.

Lemma length_filter_sub {A} (P Q : A → Prop) `{∀ x, Decision (P x)} `{∀ x, Decision (Q x)}
    (l : list A) :
  (∀ x, P x → Q x) → (length (filter P l) ≤ length (filter Q l))%nat.
Proof.
  intros HPQ. induction l as [|x l IH]; [done|].
  destruct (decide (P x)), (decide (Q x)).
  - rewrite !filter_cons_True by done. simpl. lia.
  - naive_solver.
  - rewrite filter_cons_False, filter_cons_True by done. simpl. lia.
  - by rewrite !filter_cons_False by done.
Qed.

Lemma length_filter_lt {A} (P Q : A → Prop) `{∀ x, Decision (P x)} `{∀ x, Decision (Q x)}
    (l : list A) x :
  (∀ x, P x → Q x) → x ∈ l → Q x → ¬ P x → (length (filter P l) < length (filter Q l))%nat.
Proof.
  intros HPQ Hx HQ HnP. apply list_elem_of_split in Hx as (l1 & l2 & ->).
  rewrite !filter_app, filter_cons_False, filter_cons_True by done.
  pose proof (length_filter_sub P Q l1 HPQ). pose proof (length_filter_sub P Q l2 HPQ).
  rewrite !length_app. simpl. lia.
Qed.

(** [bytes.get(start..end)] with [usize] bounds carried as integers. *)
Definition zslice {A} (l : list A) (s e : Z) : option (list A) :=
  if (0 <=? s) && (s <=? e) && (e <=? zlen l)
  then Some (take (Z.to_nat (e - s)) (drop (Z.to_nat s) l)) else None.

Lemma zlen_nonneg {A} (l : list A) : 0 ≤ zlen l.
Proof. unfold zlen. lia. Qed.
Lemma zlen_app {A} (l1 l2 : list A) : zlen (l1 ++ l2) = zlen l1 + zlen l2.
Proof. unfold zlen. rewrite length_app. lia. Qed.
Lemma zlen_cons {A} (x : A) l : zlen (x :: l) = 1 + zlen l.
Proof. unfold zlen. simpl. lia. Qed.
Lemma zlen_nil {A} : zlen (@nil A) = 0.
Proof. done. Qed.
Lemma zlen_to_le_bytes n x : zlen (to_le_bytes n x) = Z.of_nat n.
Proof. unfold zlen. by rewrite length_to_le_bytes. Qed.
Lemma zlen_take {A} n (l : list A) : zlen (take n l) = Z.min (Z.of_nat n) (zlen l).
Proof. unfold zlen. rewrite length_take. lia. Qed.
Lemma zlen_drop {A} n (l : list A) : zlen (drop n l) = Z.max (zlen l - Z.of_nat n) 0.
Proof. unfold zlen. rewrite length_drop. lia. Qed.
Lemma zlen_replicate {A} n (x : A) : zlen (replicate n x) = Z.of_nat n.
Proof. unfold zlen. by rewrite length_replicate. Qed.

Lemma zslice_Some {A} (l : list A) s e r :
  zslice l s e = Some r ↔
  0 ≤ s ∧ s ≤ e ∧ e ≤ zlen l ∧ r = take (Z.to_nat (e - s)) (drop (Z.to_nat s) l).
Proof.
  unfold zslice. split.
  - case_bool; [|done]. bool_to_prop. intros [= <-]. done.
  - intros (? & ? & ? & ->). case_bool; [done|]. bool_to_prop.
    repeat (destruct Heqb; bool_to_prop); lia.
Qed.
Lemma zslice_None {A} (l : list A) s e :
  zslice l s e = None ↔ ¬ (0 ≤ s ∧ s ≤ e ∧ e ≤ zlen l).
Proof.
  destruct (zslice l s e) eqn:E.
  - apply zslice_Some in E. naive_solver.
  - split; [|done]. intros _ (? & ? & ?).
    assert (zslice l s e = Some (take (Z.to_nat (e - s)) (drop (Z.to_nat s) l)))
      by by apply zslice_Some. congruence.
Qed.
Lemma zslice_len {A} (l : list A) s e r : zslice l s e = Some r → zlen r = e - s.
Proof. intros (? & ? & ? & ->)%zslice_Some. rewrite zlen_take, zlen_drop. lia. Qed.
(** The slice at a known position of a concatenation. *)
Lemma zslice_mid {A} (a b c : list A) s e :
  s = zlen a → e = zlen a + zlen b → zslice (a ++ b ++ c) s e = Some b.
Proof.
  intros -> ->. apply zslice_Some. pose proof (zlen_nonneg a). pose proof (zlen_nonneg b).
  pose proof (zlen_nonneg c). rewrite !zlen_app. split_and!; [lia..|].
  replace (Z.to_nat (zlen a)) with (length a) by (unfold zlen; lia).
  rewrite drop_app_length. rewrite take_app_length'; [done|]. unfold zlen. lia.
Qed.
Lemma zslice_app_l {A} (a b : list A) s e r :
  zslice a s e = Some r → zslice (a ++ b) s e = Some r.
Proof.
  intros (? & ? & ? & ->)%zslice_Some. apply zslice_Some. pose proof (zlen_nonneg b).
  rewrite zlen_app. split_and!; [lia..|].
  unfold zlen in *. rewrite drop_app_le by lia. rewrite take_app_le; [done|].
  rewrite length_drop. lia.
Qed.

(** [buffer[offset..offset + bytes.len()].copy_from_slice(bytes)]. *)
Definition copy_from_slice {A} (buffer : list A) (offset : nat) (bytes : list A) : list A :=
  take offset buffer ++ bytes ++ drop (offset + length bytes) buffer.

Lemma copy_into_zeros {A} (z : A) p n bs :
  (length bs ≤ n)%nat →
  copy_from_slice (p ++ replicate n z) (length p) bs =
    (p ++ bs) ++ replicate (n - length bs) z.
Proof.
  intros Hn. unfold copy_from_slice. rewrite take_app_length.
  rewrite drop_app_ge by lia. rewrite drop_replicate.
  replace (n - (length p + length bs - length p))%nat with (n - length bs)%nat by lia.
  by rewrite app_assoc.
Qed.

Create Rewrite HintDb zlen.
#[export] Hint Rewrite @zlen_app @zlen_cons @zlen_nil zlen_to_le_bytes @zlen_take @zlen_drop
  @zlen_replicate : zlen.
Ltac zlen := autorewrite with zlen; try lia.

(** ** Third-party primitives

    CRC-32C ([crc] crate) and BLAKE3 ([blake3] crate) are not code of this repository.  The
    components are parametric in them; what they rely on is the shape of the result. *)
Class Checksum := {
  crc32c : list byte → Z;
  crc32c_u32 bs : u32 (crc32c bs);
}.
Class Digest := {
  blake3 : list byte → list byte;
  blake3_len bs : length (blake3 bs) = 32%nat;
}.

(** A streaming hasher ([blake3::Hasher], [sha2]'s): its digest is that of everything it was fed. *)
Record Hasher := MkHasher { hashed : list byte }.
Definition Hasher_new : Hasher := MkHasher [].
Definition update (h : Hasher) (bytes : list byte) : Hasher := MkHasher (hashed h ++ bytes).
Definition finalize `{Digest} (h : Hasher) : list byte := blake3 (hashed h).

Lemma zslice_join {A} (l : list A) a b c x y :
  zslice l a b = Some x → zslice l b c = Some y → zslice l a c = Some (x ++ y).
Proof.
  intros (? & ? & ? & ->)%zslice_Some (? & ? & ? & ->)%zslice_Some.
  apply zslice_Some. split_and!; [lia..|].
  replace (Z.to_nat (c - a)) with (Z.to_nat (b - a) + Z.to_nat (c - b))%nat by lia.
  replace (Z.to_nat b) with (Z.to_nat a + Z.to_nat (b - a))%nat by lia.
  rewrite <- drop_drop. generalize (drop (Z.to_nat a) l) as r. intros r.
  rewrite <- (take_drop (Z.to_nat (b - a)) r) at 3.
  rewrite take_app. rewrite take_take.
  rewrite Nat.min_r by lia. f_equal.
  destruct (decide (Z.to_nat (b - a) ≤ length r)%nat).
  - f_equal. rewrite length_take. lia.
  - rewrite !drop_ge by lia. by rewrite !take_nil.
Qed.
Lemma zslice_prefix {A} (l : list A) n x :
  zslice l 0 n = Some x ↔ 0 ≤ n ≤ zlen l ∧ x = take (Z.to_nat n) l.
Proof. rewrite zslice_Some, Z.sub_0_r. cbn. rewrite drop_0. naive_solver lia. Qed.

Lemma to_from_le_bytes' n bs : zlen bs = Z.of_nat n → to_le_bytes n (from_le_bytes bs) = bs.
Proof. intros H. replace n with (length bs) by (unfold zlen in H; lia). apply to_from_le_bytes. Qed.

(** Invert one [?] or one guard of a computation that succeeded. *)
Ltac inv_step H :=
  match type of H with
  | (match ?m with Ok _ => _ | Err _ => _ end) = _ => destruct m eqn:?; [|discriminate H]
  | (if ?b then _ else _) = _ => destruct b eqn:?
  end; try discriminate H.
Ltac inv_ok H := repeat inv_step H.

(** Evaluate the decisions on closed terms. *)
Ltac eval_decide :=
  repeat match goal with
  | |- context [@bool_decide ?P ?d] =>
      let v := eval vm_compute in (@bool_decide P d) in
      lazymatch v with
      | true => change (@bool_decide P d) with true
      | false => change (@bool_decide P d) with false
      end
  end; cbv beta iota.

(** ** Concrete primitives for evaluation

    CRC-32/ISCSI bit by bit, and a stand-in 32-byte digest, so that statements parametric in
    [Checksum] and [Digest] can be evaluated on concrete inputs. *)
Module Concrete.
Definition crc_bit (crc : Z) : Z :=
  if Z.testbit crc 0 then Z.lxor (Z.shiftr crc 1) 2197175160 else Z.shiftr crc 1.
Definition crc_byte (crc : Z) (b : byte) : Z :=
  Nat.iter 8 crc_bit (Z.lxor crc (byte_val b)).
Definition crc32_iscsi (bs : list byte) : Z :=
  Z.lxor (fold_left crc_byte bs u32_max) u32_max mod u32_modulus.
#[export, refine] Instance iscsi : Checksum := { crc32c := crc32_iscsi }.
Proof. intros bs. apply Z.mod_pos_bound. done. Defined.

(** The published check value of CRC-32/ISCSI over "123456789". *)
Example crc_check : crc32_iscsi [x31;x32;x33;x34;x35;x36;x37;x38;x39] = 3808858755.
Proof. vm_compute. reflexivity. Qed.

Definition sum_digest (bs : list byte) : list byte :=
  to_le_bytes 32 (fold_left (λ acc b, acc * 257 + byte_val b + 1) bs 0).
#[export, refine] Instance sum32 : Digest := { blake3 := sum_digest }.
Proof. intros bs. apply length_to_le_bytes. Defined.
End Concrete.
