(* ===== verification/Intervals.v ===== *)
(** * [downpour-intervals]: the canonical interval map (invariant I-2)

    The partition of [[0, total_length)] into non-empty intervals, and the four mutations of it.
    [Intervals.state_at] reads the map as a function from byte offsets to states; every
    operation is specified against that reading. *)

From S2P Require Import Prelude.

Module Intervals.

(** ** Data *)

Record WorkerId := WorkerId_new { WorkerId_get : Z }.
#[export] Instance WorkerId_eq_dec : EqDecision WorkerId.
Proof. solve_decision. Defined.

Inductive IntervalState :=
| Pending
| InProgress (worker : WorkerId)
| Complete.
#[export] Instance IntervalState_eq_dec : EqDecision IntervalState.
Proof. solve_decision. Defined.

Record Interval := MkInterval { start : Z; end_ : Z; state : IntervalState }.
#[export] Instance Interval_eq_dec : EqDecision Interval.
Proof. solve_decision. Defined.

(** [self.end - self.start] on [u64]. *)
Definition len (i : Interval) : Z := wsub64 (end_ i) (start i).
Definition is_empty (i : Interval) : bool := start i =? end_ i.

Inductive IntervalMapError :=
| InvalidRange (start end_ total_length : Z)
| RangeNotPending (start end_ : Z)
| RangeNotOwned (start end_ : Z) (worker : WorkerId)
| SplitPointUnavailable (at_ : Z) (source : WorkerId)
| SplitWorkerUnchanged (worker : WorkerId).
#[export] Instance IntervalMapError_eq_dec : EqDecision IntervalMapError.
Proof. solve_decision. Defined.

Record IntervalMap := MkIntervalMap { total_length : Z; intervals : list Interval }.
#[export] Instance IntervalMap_eq_dec : EqDecision IntervalMap.
Proof. solve_decision. Defined.

(** ** Operations *)

Definition new (total_length : Z) : IntervalMap :=
  MkIntervalMap total_length
    (if total_length =? 0 then [] else [MkInterval 0 total_length Pending]).

Definition validate_range (m : IntervalMap) (range : Range) : result unit IntervalMapError :=
  if (r_end range <=? r_start range) || (total_length m <? r_end range)
  then Err (InvalidRange (r_start range) (r_end range) (total_length m))
  else Ok tt.

Definition range_matches (m : IntervalMap) (range : Range)
    (predicate : IntervalState → bool) : bool :=
  forallb (λ interval, predicate (state interval))
    (List.filter (λ interval, (start interval <? r_end range) && (r_start range <? end_ interval))
       (intervals m)).

(** The last interval grows when it touches [interval] and has its state. *)
Definition push_merged (intervals : list Interval) (interval : Interval) : list Interval :=
  match last intervals with
  | Some previous =>
      if (end_ previous =? start interval) && bool_decide (state previous = state interval)
      then removelast intervals
             ++ [MkInterval (start previous) (end_ interval) (state previous)]
      else intervals ++ [interval]
  | None => intervals ++ [interval]
  end.

(** One iteration of the loop of [replace_range]. *)
Definition replace_step (range : Range) (replacement : IntervalState)
    (next : list Interval) (interval : Interval) : list Interval :=
  if (end_ interval <=? r_start range) || (r_end range <=? start interval)
  then push_merged next interval
  else
    let next :=
      if start interval <? r_start range
      then push_merged next (MkInterval (start interval) (r_start range) (state interval))
      else next in
    let next :=
      push_merged next (MkInterval (Z.max (start interval) (r_start range))
                          (Z.min (end_ interval) (r_end range)) replacement) in
    if r_end range <? end_ interval
    then push_merged next (MkInterval (r_end range) (end_ interval) (state interval))
    else next.

Definition replace_range (m : IntervalMap) (range : Range) (replacement : IntervalState)
    : IntervalMap :=
  MkIntervalMap (total_length m)
    (fold_left (replace_step range replacement) (intervals m) []).

Definition normalise (m : IntervalMap) : IntervalMap :=
  MkIntervalMap (total_length m) (fold_left push_merged (intervals m) []).

(** The loop of [invariants_hold]: cursor and previous state. *)
Fixpoint invariants_loop (cursor : Z) (previous_state : option IntervalState)
    (l : list Interval) : option Z :=
  match l with
  | [] => Some cursor
  | interval :: l =>
      if negb (start interval =? cursor) || (end_ interval <=? start interval) then None
      else if bool_decide (previous_state = Some (state interval)) then None
      else invariants_loop (end_ interval) (Some (state interval)) l
  end.

Definition invariants_hold (m : IntervalMap) : bool :=
  if total_length m =? 0 then match intervals m with [] => true | _ => false end
  else match invariants_loop 0 None (intervals m) with
       | Some cursor => cursor =? total_length m
       | None => false
       end.

Definition grant (m : IntervalMap) (range : Range) (worker : WorkerId)
    : result unit IntervalMapError * IntervalMap :=
  match validate_range m range with
  | Err e => (Err e, m)
  | Ok _ =>
      if negb (range_matches m range (λ s, bool_decide (s = Pending)))
      then (Err (RangeNotPending (r_start range) (r_end range)), m)
      else (Ok tt, replace_range m range (InProgress worker))
  end.

Definition split_in_progress (m : IntervalMap) (at_ : Z) (source recipient : WorkerId)
    : result unit IntervalMapError * IntervalMap :=
  if bool_decide (source = recipient) then (Err (SplitWorkerUnchanged source), m)
  else
    match list_find (λ i, start i < at_ ∧ at_ < end_ i ∧ state i = InProgress source)
            (intervals m) with
    | None => (Err (SplitPointUnavailable at_ source), m)
    | Some (index, original) =>
        let l := <[index := MkInterval (start original) at_ (InProgress source)]>
                   (intervals m) in
        let l := take (index + 1) l
                   ++ [MkInterval at_ (end_ original) (InProgress recipient)]
                   ++ drop (index + 1) l in
        (Ok tt, normalise (MkIntervalMap (total_length m) l))
    end.

Definition complete (m : IntervalMap) (range : Range) (worker : WorkerId)
    : result unit IntervalMapError * IntervalMap :=
  match validate_range m range with
  | Err e => (Err e, m)
  | Ok _ =>
      if negb (range_matches m range (λ s, bool_decide (s = InProgress worker)))
      then (Err (RangeNotOwned (r_start range) (r_end range) worker), m)
      else (Ok tt, replace_range m range Complete)
  end.

(** The loop of [abandon]: the bytes released and the relabelled interval. *)
Definition abandon_step (worker : WorkerId) (acc : Z * list Interval) (interval : Interval)
    : Z * list Interval :=
  let '(released, done_) := acc in
  if bool_decide (state interval = InProgress worker)
  then (wadd64 released (len interval),
        done_ ++ [MkInterval (start interval) (end_ interval) Pending])
  else (released, done_ ++ [interval]).

Definition abandon (m : IntervalMap) (worker : WorkerId) : Z * IntervalMap :=
  let '(released, l) := fold_left (abandon_step worker) (intervals m) (0, []) in
  (released, normalise (MkIntervalMap (total_length m) l)).

(** ** The byte-level reading *)

Fixpoint state_in (l : list Interval) (b : Z) : option IntervalState :=
  match l with
  | [] => None
  | i :: l => if bool_decide (start i ≤ b < end_ i) then Some (state i) else state_in l b
  end.

(** The state of byte [b]; [None] outside the file. *)
Definition state_at (m : IntervalMap) (b : Z) : option IntervalState :=
  state_in (intervals m) b.

(** [l] tiles [[c, t)] with non-empty intervals. *)
Fixpoint tiles (c : Z) (l : list Interval) (t : Z) : Prop :=
  match l with
  | [] => c = t
  | i :: l => start i = c ∧ start i < end_ i ∧ tiles (end_ i) l t
  end.

(** No two neighbours have the same state. *)
Fixpoint merged (l : list Interval) : Prop :=
  match l with
  | [] => True
  | i :: l => (match l with [] => True | j :: _ => state i ≠ state j end) ∧ merged l
  end.

(** The invariant: a canonical partition of a [u64]-sized file. *)
Definition wf (m : IntervalMap) : Prop :=
  u64 (total_length m) ∧ tiles 0 (intervals m) (total_length m) ∧ merged (intervals m).

(** ** Lemmas on tilings *)

Lemma tiles_le c l t : tiles c l t → c ≤ t.
Proof.
  revert c. induction l as [|i l IH]; intros c; simpl; [lia|].
  intros (? & ? & H). apply IH in H. lia.
Qed.

Lemma tiles_app c l1 l2 t :
  tiles c (l1 ++ l2) t ↔ ∃ m, tiles c l1 m ∧ tiles m l2 t.
Proof.
  revert c. induction l1 as [|i l1 IH]; intros c; simpl.
  - naive_solver.
  - rewrite IH. naive_solver.
Qed.

Lemma tiles_snoc c l i t :
  tiles c (l ++ [i]) t ↔ tiles c l (start i) ∧ start i < end_ i ∧ end_ i = t.
Proof. rewrite tiles_app. simpl. naive_solver. Qed.

Lemma tiles_bounds c l t i :
  tiles c l t → i ∈ l → c ≤ start i ∧ start i < end_ i ∧ end_ i ≤ t.
Proof.
  revert c. induction l as [|j l IH]; intros c Ht Hi; [by apply elem_of_nil in Hi|].
  destruct Ht as (? & ? & Ht). pose proof (tiles_le _ _ _ Ht).
  apply elem_of_cons in Hi as [->|Hi]; [lia|].
  destruct (IH _ Ht Hi) as (? & ? & ?). lia.
Qed.

Lemma merged_snoc l i :
  merged (l ++ [i]) ↔
  merged l ∧ (match last l with None => True | Some j => state j ≠ state i end).
Proof.
  induction l as [|j [|k l] IH]; [simpl; naive_solver..|].
  change ((j :: k :: l) ++ [i]) with (j :: k :: (l ++ [i])).
  change ((k :: l) ++ [i]) with (k :: (l ++ [i])) in IH.
  change (last (j :: k :: l)) with (last (k :: l)).
  cbn [merged] in *. naive_solver.
Qed.

Lemma state_in_app l1 l2 b :
  state_in (l1 ++ l2) b =
  match state_in l1 b with Some s => Some s | None => state_in l2 b end.
Proof.
  induction l1 as [|i l1 IH]; simpl; [done|]. case_bool_decide; done.
Qed.

Lemma state_in_None c l t b : tiles c l t → ¬ (c ≤ b < t) → state_in l b = None.
Proof.
  revert c. induction l as [|i l IH]; intros c Ht Hb; simpl; [done|].
  destruct Ht as (? & ? & Ht). pose proof (tiles_le _ _ _ Ht).
  rewrite bool_decide_eq_false_2 by lia. apply (IH (end_ i)); [done|lia].
Qed.

Lemma state_in_is_Some c l t b : tiles c l t → c ≤ b < t → is_Some (state_in l b).
Proof.
  revert c. induction l as [|i l IH]; intros c Ht Hb; simpl in *; [lia|].
  destruct Ht as (? & ? & Ht). case_bool_decide; [done|]. apply (IH (end_ i)); [done|lia].
Qed.

(** A byte inside a listed interval has that interval's state. *)
Lemma state_in_elem c l t i b :
  tiles c l t → i ∈ l → start i ≤ b < end_ i → state_in l b = Some (state i).
Proof.
  revert c. induction l as [|j l IH]; intros c Ht Hi Hb; [by apply elem_of_nil in Hi|].
  destruct Ht as (? & ? & Ht). simpl.
  apply elem_of_cons in Hi as [->|Hi]; [by rewrite bool_decide_eq_true_2|].
  pose proof (tiles_bounds _ _ _ _ Ht Hi).
  rewrite bool_decide_eq_false_2 by lia. by apply (IH (end_ j)).
Qed.

Lemma state_in_inv l b s :
  state_in l b = Some s → ∃ i, i ∈ l ∧ start i ≤ b < end_ i ∧ state i = s.
Proof.
  induction l as [|i l IH]; simpl; [done|]. case_bool_decide.
  - intros [= <-]. exists i. split; [left|done].
  - intros (j & ? & ?)%IH. exists j. split; [by right|done].
Qed.

(** ** [push_merged] keeps a canonical tiling and adds one run of bytes *)

Lemma last_snoc_inv (l : list Interval) x :
  last l = Some x → l = removelast l ++ [x].
Proof.
  intros H. assert (l ≠ []) by (by intros ->).
  rewrite (app_removelast_last x) at 1 by done. do 2 f_equal.
  apply last_Some in H as [l' ->]. by rewrite List.last_last.
Qed.

Lemma push_merged_spec c l i :
  tiles c l (start i) → merged l → start i < end_ i →
  tiles c (push_merged l i) (end_ i) ∧ merged (push_merged l i) ∧
  ∀ b, state_in (push_merged l i) b =
    if bool_decide (start i ≤ b < end_ i) then Some (state i) else state_in l b.
Proof.
  intros Ht Hm Hi. unfold push_merged.
  assert (Happ : ∀ b, state_in (l ++ [i]) b =
    if bool_decide (start i ≤ b < end_ i) then Some (state i) else state_in l b).
  { intros b. rewrite state_in_app. simpl. case_bool_decide.
    - by rewrite (state_in_None _ _ _ _ Ht) by lia.
    - by destruct (state_in l b). }
  destruct (last l) as [p|] eqn:Hl.
  - destruct (_ && _) eqn:E; bool_to_prop.
    + apply last_snoc_inv in Hl. remember (removelast l) as l' eqn:Hl'. clear Hl'. subst l.
      apply tiles_snoc in Ht as (Ht & Hp & _). apply merged_snoc in Hm as [Hm Hlast].
      split; [apply tiles_snoc; simpl; split_and!; [done|lia|done]|].
      split; [apply merged_snoc; simpl; split; [done|by destruct (last l')]|].
      intros b. rewrite !state_in_app. simpl.
      destruct (state_in l' b) eqn:Hb.
      * assert (start p ≤ b → False).
        { intros. by rewrite (state_in_None _ _ _ _ Ht) in Hb by lia. }
        by rewrite (bool_decide_eq_false_2 (start i ≤ b < end_ i)) by lia.
      * repeat case_bool_decide; try done; try lia; congruence.
    + split; [apply tiles_snoc; done|]. split; [|done].
      apply merged_snoc. rewrite Hl. split; [done|]. intros Heq. destruct E; bool_to_prop; [|done].
      apply last_snoc_inv in Hl. rewrite Hl in Ht. apply tiles_snoc in Ht. lia.
  - split; [apply tiles_snoc; done|]. split; [|done]. apply merged_snoc. by rewrite Hl.
Qed.

(** What [push_merged_spec] says, as a relation the loops can be chained through: [l'] extends
    [l] by the bytes [[a, b)], which read as [f]. *)
Definition extends (c : Z) (l : list Interval) (a b : Z) (f : Z → IntervalState)
    (l' : list Interval) : Prop :=
  tiles c l' b ∧ merged l' ∧
  ∀ x, state_in l' x = if bool_decide (a ≤ x < b) then Some (f x) else state_in l x.

Lemma extends_push c l a b s f :
  tiles c l a → merged l → a < b → (∀ x, a ≤ x < b → f x = s) →
  extends c l a b f (push_merged l (MkInterval a b s)).
Proof.
  intros Ht Hm Hab Hf. destruct (push_merged_spec c l (MkInterval a b s)) as (? & ? & H); auto.
  split_and!; [done..|]. intros x. rewrite H. simpl. case_bool_decide; [|done].
  by rewrite Hf.
Qed.

Lemma extends_trans c l1 l2 l3 a b d f :
  c ≤ a → a ≤ b → extends c l1 a b f l2 → extends c l2 b d f l3 → b ≤ d →
  extends c l1 a d f l3.
Proof.
  intros Hca Hab (_ & _ & H1) (? & ? & H2) Hbd. split_and!; [done..|]. intros x.
  rewrite H2, H1. repeat case_bool_decide; try done; lia.
Qed.

Lemma extends_refl c l a f : tiles c l a → merged l → extends c l a a f l.
Proof.
  intros. split_and!; [done..|]. intros x. by rewrite bool_decide_eq_false_2 by lia.
Qed.

Lemma extends_ext c l a b f g l' :
  (∀ x, a ≤ x < b → f x = g x) → extends c l a b f l' → extends c l a b g l'.
Proof.
  intros Hfg (? & ? & H). split_and!; [done..|]. intros x. rewrite H.
  case_bool_decide; [|done]. by rewrite Hfg.
Qed.

(** The state a listed byte has, for offsets known to be listed. *)
Definition label (l : list Interval) (x : Z) : IntervalState := default Pending (state_in l x).

(** Any loop whose body appends one interval's bytes, relabelled by [f], appends the whole
    list's bytes. *)
Lemma fold_extends (step : list Interval → Interval → list Interval) (f : Z → IntervalState)
    c l acc a t :
  (∀ acc i, i ∈ l → c ≤ start i → start i < end_ i → tiles c acc (start i) → merged acc →
     extends c acc (start i) (end_ i) f (step acc i)) →
  c ≤ a → tiles a l t → tiles c acc a → merged acc →
  extends c acc a t f (fold_left step l acc).
Proof.
  revert acc a. induction l as [|i l IH]; intros acc a Hstep Hca Hl Hacc Hm; simpl.
  - simpl in Hl. subst. by apply extends_refl.
  - destruct Hl as (<- & Hi & Hl). pose proof (tiles_le _ _ _ Hl).
    pose proof (Hstep acc i ltac:(left) Hca Hi Hacc Hm) as Hext.
    pose proof Hext as (Ht' & Hm' & _).
    apply (extends_trans c acc (step acc i) _ (start i) (end_ i)); [lia|lia|done| |lia].
    apply IH; [|lia|done..]. intros ? ? Hin. apply Hstep. by right.
Qed.

Lemma label_elem c l t i x :
  tiles c l t → i ∈ l → start i ≤ x < end_ i → label l x = state i.
Proof. intros Ht Hi Hx. unfold label. by rewrite (state_in_elem c l t i x). Qed.

Lemma normalise_extends l t :
  tiles 0 l t → extends 0 [] 0 t (label l) (fold_left push_merged l []).
Proof.
  intros Hl. apply (fold_extends _ _ 0 l [] 0 t); [|lia|done..].
  intros acc [s e st] Hi Hc Hlt Ht Hm. simpl in *.
  apply extends_push; [done..|]. intros x Hx.
  by apply (label_elem 0 l t (MkInterval s e st)).
Qed.

(** The relabelling [replace_range] performs. *)
Definition relabel (range : Range) (s : IntervalState) (l : list Interval) (x : Z)
    : IntervalState :=
  if bool_decide (in_range range x) then s else label l x.

Lemma replace_step_extends range s l t acc i :
  tiles 0 l t → i ∈ l → 0 ≤ start i → start i < end_ i → r_start range < r_end range →
  tiles 0 acc (start i) → merged acc →
  extends 0 acc (start i) (end_ i) (relabel range s l) (replace_step range s acc i).
Proof.
  intros Hl Hi Hc Hlt Hr Ht Hm. unfold replace_step.
  assert (Hout : ∀ x, start i ≤ x < end_ i → ¬ in_range range x → relabel range s l x = state i).
  { intros x Hx Hnin. unfold relabel. rewrite bool_decide_eq_false_2 by done.
    by apply (label_elem 0 l t). }
  assert (Hin : ∀ x, in_range range x → relabel range s l x = s).
  { intros x Hx. unfold relabel. by rewrite bool_decide_eq_true_2. }
  destruct i as [a b st]; unfold in_range in *; simpl in *.
  destruct ((b <=? r_start range) || (r_end range <=? a)) eqn:E; bool_to_prop.
  { apply extends_push; [done..|]. intros x Hx. apply Hout; [done|].
    destruct E; bool_to_prop; lia. }
  assert (H1 : extends 0 acc a (Z.max a (r_start range)) (relabel range s l)
    (if a <? r_start range then push_merged acc (MkInterval a (r_start range) st) else acc)).
  { destruct (a <? r_start range) eqn:E1; bool_to_prop.
    - rewrite Z.max_r by lia. apply extends_push; [done..|]. intros. apply Hout; lia.
    - rewrite Z.max_l by lia. by apply extends_refl. }
  remember (if a <? r_start range then _ else acc) as acc1 eqn:Hacc1. clear Hacc1.
  pose proof H1 as (Ht1 & Hm1 & _).
  assert (H2 : extends 0 acc a (Z.min b (r_end range)) (relabel range s l)
    (push_merged acc1 (MkInterval (Z.max a (r_start range)) (Z.min b (r_end range)) s))).
  { apply (extends_trans 0 acc acc1 _ a (Z.max a (r_start range))); [lia|lia|done| |lia].
    apply extends_push; [done|done|lia|]. intros. apply Hin. lia. }
  remember (push_merged acc1 _) as acc2 eqn:Hacc2. clear Hacc2.
  pose proof H2 as (Ht2 & Hm2 & _).
  destruct (r_end range <? b) eqn:E3; bool_to_prop.
  - rewrite Z.min_r in Ht2, H2 by lia.
    apply (extends_trans 0 acc acc2 _ a (r_end range)); [lia|lia|done| |lia].
    apply extends_push; [done..|]. intros. apply Hout; lia.
  - by rewrite Z.min_l in H2 by lia.
Qed.

Lemma replace_range_extends range s l t :
  tiles 0 l t → r_start range < r_end range →
  extends 0 [] 0 t (relabel range s l) (fold_left (replace_step range s) l []).
Proof.
  intros Hl Hr. apply (fold_extends _ _ 0 l [] 0 t); [|lia|done..].
  intros acc i Hi Hc Hlt Ht Hm. by apply (replace_step_extends range s l t).
Qed.

(** ** Reading the guards *)

Lemma validate_range_Ok m range :
  validate_range m range = Ok tt ↔
  r_start range < r_end range ∧ r_end range ≤ total_length m.
Proof.
  unfold validate_range. case_bool; bool_to_prop.
  - split; [done|]. intros. destruct Heqb; bool_to_prop; lia.
  - split; [lia|done].
Qed.

Lemma validate_range_Err m range e :
  validate_range m range = Err e →
  e = InvalidRange (r_start range) (r_end range) (total_length m) ∧
  ¬ (r_start range < r_end range ∧ r_end range ≤ total_length m).
Proof.
  unfold validate_range. case_bool; bool_to_prop; [|done].
  intros [= <-]. split; [done|]. destruct Heqb; bool_to_prop; lia.
Qed.

Lemma range_matches_spec m range p :
  wf m → 0 ≤ r_start range → r_start range < r_end range → r_end range ≤ total_length m →
  range_matches m range p = true ↔
  ∀ b, in_range range b → ∃ s, state_at m b = Some s ∧ p s = true.
Proof.
  intros (_ & Ht & _) H0 Hne Hle. unfold range_matches, in_range.
  rewrite forallb_forall. split.
  - intros H b Hb.
    destruct (state_in_is_Some 0 (intervals m) (total_length m) b Ht ltac:(lia)) as [s Hs].
    exists s. split; [done|]. apply state_in_inv in Hs as (i & Hi & Hbi & <-).
    apply (H i). apply filter_In. split; [by apply list_elem_of_In|].
    apply andb_true_iff. rewrite !Z.ltb_lt. lia.
  - intros H i [Hi E]%filter_In. bool_to_prop. apply list_elem_of_In in Hi.
    pose proof (tiles_bounds _ _ _ _ Ht Hi).
    destruct (H (Z.max (start i) (r_start range)) ltac:(lia)) as (s & Hs & Hp).
    unfold state_at in Hs. rewrite (state_in_elem 0 _ (total_length m) i) in Hs by (done || lia).
    by simplify_eq.
Qed.

(** ** The operations on well-formed maps *)

Lemma extends_wf t f l' :
  u64 t → extends 0 [] 0 t f l' →
  wf (MkIntervalMap t l') ∧
  ∀ b, state_at (MkIntervalMap t l') b = if bool_decide (0 ≤ b < t) then Some (f b) else None.
Proof. intros Hu (? & ? & H). by split_and!. Qed.

Lemma wf_state_at_None m b : wf m → state_at m b = None ↔ ¬ (0 ≤ b < total_length m).
Proof.
  intros (_ & Ht & _). split.
  - intros Hn Hb. destruct (state_in_is_Some _ _ _ _ Ht Hb) as [s Hs].
    unfold state_at in Hn. congruence.
  - by apply state_in_None.
Qed.

Lemma wf_state_at_label m b :
  wf m → 0 ≤ b < total_length m → state_at m b = Some (label (intervals m) b).
Proof.
  intros (_ & Ht & _) Hb. destruct (state_in_is_Some _ _ _ _ Ht Hb) as [s Hs].
  unfold state_at, label. by rewrite Hs.
Qed.

Definition valid_range (m : IntervalMap) (range : Range) : Prop :=
  r_start range < r_end range ∧ r_end range ≤ total_length m.

Lemma replace_range_spec m range s :
  wf m → 0 ≤ r_start range → valid_range m range →
  wf (replace_range m range s) ∧
  ∀ b, state_at (replace_range m range s) b =
    if bool_decide (in_range range b) then Some s else state_at m b.
Proof.
  intros Hwf H0 [Hne Hle]. pose proof Hwf as (Hu & Ht & _).
  destruct (extends_wf (total_length m) (relabel range s (intervals m))
    (fold_left (replace_step range s) (intervals m) []) Hu) as [Hwf' Hst].
  { by apply replace_range_extends. }
  split; [done|]. intros b. unfold replace_range. rewrite Hst. unfold relabel.
  destruct (decide (0 ≤ b < total_length m)) as [Hb|Hb].
  - rewrite bool_decide_eq_true_2 by done. rewrite (wf_state_at_label m b) by done.
    by case_bool_decide.
  - rewrite bool_decide_eq_false_2 by done.
    rewrite bool_decide_eq_false_2 by (unfold in_range; lia).
    symmetry. by apply wf_state_at_None.
Qed.

Lemma normalise_spec t l :
  u64 t → tiles 0 l t →
  wf (normalise (MkIntervalMap t l)) ∧
  ∀ b, state_at (normalise (MkIntervalMap t l)) b = state_in l b.
Proof.
  intros Hu Ht. destruct (extends_wf t (label l) (fold_left push_merged l []) Hu) as [Hwf Hst].
  { by apply normalise_extends. }
  split; [done|]. intros b. unfold normalise. cbn [intervals total_length]. rewrite Hst.
  destruct (decide (0 ≤ b < t)) as [Hb|Hb].
  - rewrite bool_decide_eq_true_2 by done. unfold label.
    by destruct (state_in_is_Some _ _ _ _ Ht Hb) as [s ->].
  - rewrite bool_decide_eq_false_2 by done. symmetry. by apply (state_in_None 0 _ t).
Qed.

Lemma new_wf t : u64 t → wf (new t).
Proof.
  intros Hu. unfold new, wf. cbn. split; [done|].
  destruct (t =? 0) eqn:E; bool_to_prop; [by rewrite E|].
  unfold u64 in Hu. split; [|done]. cbn. lia.
Qed.

(** The guard-and-replace shape that [grant] and [complete] share. *)
Section guarded.
Context (m : IntervalMap) (range : Range) (Hwf : wf m) (Hs : 0 ≤ r_start range).

Lemma range_matches_all s :
  valid_range m range →
  range_matches m range (λ t, bool_decide (t = s)) = true ↔
  ∀ b, in_range range b → state_at m b = Some s.
Proof.
  intros [Hne Hle]. rewrite range_matches_spec by done. split.
  - intros H b Hb. destruct (H b Hb) as (s' & Hst & E). bool_to_prop. by subst.
  - intros H b Hb. exists s. split; [by apply H|by apply bool_decide_eq_true_2].
Qed.

Lemma range_matches_some s :
  valid_range m range →
  range_matches m range (λ t, bool_decide (t = s)) = false →
  ∃ b, in_range range b ∧ state_at m b ≠ Some s.
Proof.
  intros [Hne Hle]. unfold range_matches. intros H.
  apply not_true_iff_false in H. rewrite forallb_forall in H.
  destruct (decide (Exists (λ i, state i ≠ s)
    (List.filter (λ i, (start i <? r_end range) && (r_start range <? end_ i)) (intervals m))))
    as [He|He].
  - apply Exists_exists in He as (i & Hi & Hne'). apply list_elem_of_In, filter_In in Hi as [Hi E].
    bool_to_prop. apply list_elem_of_In in Hi. pose proof Hwf as (_ & Ht & _).
    pose proof (tiles_bounds _ _ _ _ Ht Hi).
    exists (Z.max (start i) (r_start range)). unfold in_range. split; [lia|].
    unfold state_at. rewrite (state_in_elem 0 _ (total_length m) i) by (done || lia). congruence.
  - exfalso. apply H. intros i Hi. apply bool_decide_eq_true_2.
    destruct (decide (state i = s)); [done|]. exfalso. apply He, Exists_exists.
    exists i. split; [by apply list_elem_of_In|done].
Qed.
End guarded.

(** [grant] succeeds exactly when the request is a non-empty subset of the file and every
    requested byte is pending; it then changes the owner of exactly those bytes and keeps the
    partition canonical.  Each refusal leaves the map as it was and names the reason. *)
Lemma grant_spec m range w :
  wf m → u64 (r_start range) →
  match grant m range w with
  | (Ok _, m') =>
      valid_range m range ∧ (∀ b, in_range range b → state_at m b = Some Pending) ∧
      wf m' ∧ total_length m' = total_length m ∧
      ∀ b, state_at m' b =
        if bool_decide (in_range range b) then Some (InProgress w) else state_at m b
  | (Err e, m') =>
      m' = m ∧
      (¬ valid_range m range ∧
       e = InvalidRange (r_start range) (r_end range) (total_length m) ∨
       valid_range m range ∧ e = RangeNotPending (r_start range) (r_end range) ∧
       ∃ b, in_range range b ∧ state_at m b ≠ Some Pending)
  end.
Proof.
  intros Hwf [Hs _]. unfold grant. destruct (validate_range m range) as [[]|e] eqn:V.
  - apply validate_range_Ok in V. destruct (range_matches _ _ _) eqn:R; cbn [negb].
    + pose proof (proj1 (range_matches_all m range Hwf Hs Pending V) R).
      destruct (replace_range_spec m range (InProgress w)) as [? ?]; [done..|].
      by split_and!.
    + pose proof (range_matches_some m range Hwf Pending V R). split; [done|]. by right.
  - apply validate_range_Err in V as [-> Hn]. split; [done|]. by left.
Qed.

(** [complete] is only ever accepted from the owner of every byte of the range, moves exactly
    those bytes to [Complete], and reports any other claim without changing the map. *)
Lemma complete_spec m range w :
  wf m → u64 (r_start range) →
  match complete m range w with
  | (Ok _, m') =>
      valid_range m range ∧ (∀ b, in_range range b → state_at m b = Some (InProgress w)) ∧
      wf m' ∧ total_length m' = total_length m ∧
      ∀ b, state_at m' b = if bool_decide (in_range range b) then Some Complete else state_at m b
  | (Err e, m') =>
      m' = m ∧
      (¬ valid_range m range ∧
       e = InvalidRange (r_start range) (r_end range) (total_length m) ∨
       valid_range m range ∧ e = RangeNotOwned (r_start range) (r_end range) w ∧
       ∃ b, in_range range b ∧ state_at m b ≠ Some (InProgress w))
  end.
Proof.
  intros Hwf [Hs _]. unfold complete. destruct (validate_range m range) as [[]|e] eqn:V.
  - apply validate_range_Ok in V. destruct (range_matches _ _ _) eqn:R; cbn [negb].
    + pose proof (proj1 (range_matches_all m range Hwf Hs (InProgress w) V) R).
      destruct (replace_range_spec m range Complete) as [? ?]; [done..|].
      by split_and!.
    + pose proof (range_matches_some m range Hwf (InProgress w) V R). split; [done|]. by right.
  - apply validate_range_Err in V as [-> Hn]. split; [done|]. by left.
Qed.

(** ** [split_in_progress] *)

(** Runs are maximal: the byte after an interval is in another state. *)
Lemma run_end c l t i :
  tiles c l t → merged l → i ∈ l → state_in l (end_ i) ≠ Some (state i).
Proof.
  revert c. induction l as [|j l IH]; intros c Ht Hm Hi; [by apply elem_of_nil in Hi|].
  destruct Ht as (? & ? & Ht), Hm as [Hj Hm]. simpl.
  apply elem_of_cons in Hi as [->|Hi].
  - rewrite bool_decide_eq_false_2 by lia. destruct l as [|k l]; [done|].
    destruct Ht as (? & ? & Ht). simpl. rewrite bool_decide_eq_true_2 by lia. congruence.
  - pose proof (tiles_bounds _ _ _ _ Ht Hi).
    rewrite bool_decide_eq_false_2 by lia. by apply (IH (end_ j)).
Qed.

(** A byte and its neighbour in one state lie in one interval. *)
Lemma run_inside c l t b s :
  tiles c l t → merged l → state_in l (b - 1) = Some s → state_in l b = Some s →
  ∃ i, i ∈ l ∧ start i < b < end_ i ∧ state i = s.
Proof.
  intros Ht Hm H1 H2. apply state_in_inv in H1 as (i & Hi & Hb & <-).
  exists i. split_and!; [done|lia| |done].
  destruct (decide (b < end_ i)) as [|Hge]; [done|exfalso].
  replace b with (end_ i) in H2 by lia. by apply (run_end c l t i).
Qed.

Lemma split_insert_eq (l : list Interval) i x y z :
  l !! i = Some x →
  let l' := <[i := y]> l in
  take (i + 1) l' ++ [z] ++ drop (i + 1) l' = take i l ++ y :: z :: drop (S i) l.
Proof.
  intros Hx l'. subst l'. assert (i < length l)%nat by (by eapply lookup_lt_Some).
  rewrite insert_take_drop by done.
  rewrite Nat.add_1_r.
  assert (Hlen : length (take i l) = i) by len.
  rewrite take_app, drop_app, Hlen.
  rewrite take_ge by len. rewrite (drop_ge (take i l)) by len.
  replace (S i - i)%nat with 1%nat by lia. simpl. by rewrite <- app_assoc.
Qed.

(** The bytes a split at [at_] hands over: the rest of [source]'s run. *)
Definition run_from (m : IntervalMap) (at_ : Z) (s : IntervalState) (b : Z) : Prop :=
  at_ ≤ b ∧ ∀ x, at_ ≤ x ≤ b → state_at m x = Some s.

Lemma run_from_interval m i at_ b :
  wf m → i ∈ intervals m → start i ≤ at_ < end_ i →
  run_from m at_ (state i) b ↔ at_ ≤ b < end_ i.
Proof.
  intros (_ & Ht & Hm) Hi Hat. split.
  - intros [Hle Hrun]. split; [done|]. destruct (decide (b < end_ i)) as [|Hge]; [done|exfalso].
    apply (run_end _ _ _ _ Ht Hm Hi). apply Hrun. lia.
  - intros Hb. split; [lia|]. intros x Hx. apply (state_in_elem 0 _ (total_length m)); [done..|lia].
Qed.

Lemma split_tiles A i B c t at_ s r :
  tiles c (A ++ i :: B) t → start i < at_ < end_ i →
  let l' := A ++ MkInterval (start i) at_ s :: MkInterval at_ (end_ i) r :: B in
  tiles c l' t ∧
  (state i = s → ∀ b, state_in l' b =
    if bool_decide (at_ ≤ b < end_ i) then Some r else state_in (A ++ i :: B) b).
Proof.
  intros Ht Hat. apply tiles_app in Ht as (m & HA & (<- & Hi & HB)). split.
  - apply tiles_app. exists (start i). split; [done|]. cbn. intuition lia.
  - intros Hs b. rewrite !state_in_app. cbn [state_in start end_ state].
    destruct (state_in A b) eqn:E.
    + rewrite bool_decide_eq_false_2; [done|]. intros ?.
      by rewrite (state_in_None _ _ _ _ HA) in E by lia.
    + repeat case_bool_decide; try done; try lia; congruence.
Qed.

Lemma split_spec m at_ source recipient :
  wf m →
  match split_in_progress m at_ source recipient with
  | (Ok _, m') =>
      source ≠ recipient ∧
      state_at m (at_ - 1) = Some (InProgress source) ∧
      state_at m at_ = Some (InProgress source) ∧
      wf m' ∧ total_length m' = total_length m ∧
      ∀ b, state_at m' b = Some (InProgress recipient) ∧ run_from m at_ (InProgress source) b ∨
           state_at m' b = state_at m b ∧ ¬ run_from m at_ (InProgress source) b
  | (Err e, m') =>
      m' = m ∧
      (source = recipient ∧ e = SplitWorkerUnchanged source ∨
       source ≠ recipient ∧ e = SplitPointUnavailable at_ source ∧
       ¬ (state_at m (at_ - 1) = Some (InProgress source) ∧
          state_at m at_ = Some (InProgress source)))
  end.
Proof.
  intros Hwf. pose proof Hwf as (Hu & Ht & Hm). unfold split_in_progress.
  case_bool_decide as Hne; [by split; [done|left]|].
  destruct (list_find _ _) as [[index i]|] eqn:F.
  - apply list_find_Some in F as (Hl & (Hs & He & Hst) & _).
    pose proof (list_elem_of_lookup_2 _ _ _ Hl) as Hi.
    rewrite (split_insert_eq _ _ i) by done.
    pose proof (take_drop_middle _ _ _ Hl) as Hsplit. rewrite <- Hsplit in Ht.
    destruct (split_tiles _ _ _ _ _ at_ (InProgress source) (InProgress recipient) Ht)
      as [Ht' Hstate]; [lia|].
    specialize (Hstate Hst). rewrite Hsplit in Hstate, Ht.
    destruct (normalise_spec _ _ Hu Ht') as [Hwf' Hst'].
    assert (Hin : ∀ x, start i ≤ x < end_ i → state_at m x = Some (InProgress source)).
    { intros x Hx. rewrite <- Hst. by apply (state_in_elem 0 _ (total_length m)). }
    split_and!; [done|apply Hin; lia|apply Hin; lia|done|done|].
    intros b. rewrite Hst', Hstate, <- Hst.
    rewrite (run_from_interval m i) by (done || lia).
    case_bool_decide; [by left|by right].
  - apply list_find_None in F. split; [done|]. right. split_and!; [done..|].
    intros [H1 H2]. destruct (run_inside _ _ _ _ _ Ht Hm H1 H2) as (i & Hi & Hb & Hs).
    rewrite Forall_forall in F. apply (F i Hi). tauto.
Qed.

(** ** [abandon] *)

Definition release (w : WorkerId) (i : Interval) : Interval :=
  if bool_decide (state i = InProgress w) then MkInterval (start i) (end_ i) Pending else i.

(** The number of bytes of [[0, total_length)] in state [s]. *)
Definition count_state (m : IntervalMap) (s : IntervalState) : Z :=
  zlen (filter (λ b, state_at m b = Some s) (seqZ 0 (total_length m))).

(** The bytes of one interval list in state [s], as a sum of lengths. *)
Fixpoint bytes_of (s : IntervalState) (l : list Interval) : Z :=
  match l with
  | [] => 0
  | i :: l => (if bool_decide (state i = s) then end_ i - start i else 0) + bytes_of s l
  end.

Lemma bytes_of_range s c l t : tiles c l t → 0 ≤ bytes_of s l ≤ t - c.
Proof.
  revert c. induction l as [|i l IH]; intros c Ht; simpl in *; [lia|].
  destruct Ht as (? & ? & Ht). apply IH in Ht. case_bool_decide; lia.
Qed.

Lemma count_bytes_of s c l t :
  tiles c l t →
  zlen (filter (λ b, state_in l b = Some s) (seqZ c (t - c))) = bytes_of s l.
Proof.
  revert c. induction l as [|i l IH]; intros c Ht; cbn [tiles] in Ht.
  - subst. by rewrite Z.sub_diag.
  - destruct Ht as (<- & Hi & Ht). pose proof (tiles_le _ _ _ Ht).
    replace (t - start i) with ((end_ i - start i) + (t - end_ i)) by lia.
    rewrite seqZ_app, filter_app by lia. unfold zlen in *. rewrite length_app, Nat2Z.inj_add.
    cbn [bytes_of]. f_equal.
    + case_bool_decide.
      * rewrite filter_all; [rewrite length_seqZ; lia|]. intros x Hx%elem_of_seqZ. cbn.
        rewrite bool_decide_eq_true_2 by lia. congruence.
      * rewrite filter_none; [done|]. intros x Hx%elem_of_seqZ. cbn.
        rewrite bool_decide_eq_true_2 by lia. congruence.
    + replace (start i + (end_ i - start i)) with (end_ i) by lia. rewrite <- (IH (end_ i) Ht).
      do 2 f_equal. apply filter_iff_in. intros x Hx%elem_of_seqZ. cbn.
      by rewrite bool_decide_eq_false_2 by lia.
Qed.

Lemma count_state_bytes_of m s : wf m → count_state m s = bytes_of s (intervals m).
Proof.
  intros (_ & Ht & _). unfold count_state, state_at.
  rewrite <- (count_bytes_of s _ _ _ Ht). by rewrite Z.sub_0_r.
Qed.

Lemma abandon_fold w l r d c t :
  0 ≤ r → 0 ≤ c → tiles c l t → r + (t - c) < u64_modulus →
  fold_left (abandon_step w) l (r, d) =
    (r + bytes_of (InProgress w) l, d ++ map (release w) l).
Proof.
  revert r d c. induction l as [|i l IH]; intros r d c Hr Hc Ht Hb; cbn [fold_left bytes_of map].
  - by rewrite Z.add_0_r, app_nil_r.
  - destruct Ht as (<- & Hi & Ht). pose proof (tiles_le _ _ _ Ht).
    unfold abandon_step at 2, release at 1. case_bool_decide.
    + unfold len. rewrite (wsub64_small (end_ i)), wadd64_small by lia.
      rewrite (IH _ _ (end_ i)) by (done || lia). by rewrite <- app_assoc, Z.add_assoc.
    + rewrite (IH _ _ (end_ i)) by (done || lia). by rewrite <- app_assoc.
Qed.

Lemma release_tiles w c l t :
  tiles c l t →
  tiles c (map (release w) l) t ∧
  ∀ b, state_in (map (release w) l) b =
    if bool_decide (state_in l b = Some (InProgress w)) then Some Pending else state_in l b.
Proof.
  revert c. induction l as [|i l IH]; intros c Ht; cbn [map].
  - by split.
  - destruct Ht as (? & ? & Ht). destruct (IH _ Ht) as [Ht' Hst]. unfold release at 1 3.
    case_bool_decide as Hi; (split; [by split_and!|]); intros b; cbn;
      case_bool_decide as Hb; try apply Hst.
    + by rewrite Hi, bool_decide_eq_true_2.
    + rewrite bool_decide_eq_false_2 by congruence. done.
Qed.

Lemma abandon_spec m w :
  wf m →
  let '(released, m') := abandon m w in
  released = count_state m (InProgress w) ∧ wf m' ∧ total_length m' = total_length m ∧
  ∀ b, state_at m' b =
    if bool_decide (state_at m b = Some (InProgress w)) then Some Pending else state_at m b.
Proof.
  intros Hwf. pose proof Hwf as (Hu & Ht & _). unfold abandon.
  rewrite (abandon_fold w _ 0 [] 0 (total_length m)) by (done || ulia).
  destruct (release_tiles w _ _ _ Ht) as [Ht' Hst].
  destruct (normalise_spec _ _ Hu Ht') as [Hwf' Hst'].
  split_and!; [by rewrite count_state_bytes_of|done..|]. intros b. by rewrite Hst', Hst.
Qed.

(** ** Canonicity *)

Lemma tiles_head_state c l t i : tiles c (i :: l) t → state_in (i :: l) c = Some (state i).
Proof. intros (<- & ? & _). simpl. by rewrite bool_decide_eq_true_2 by lia. Qed.

Lemma canonical_lists c l1 l2 t :
  tiles c l1 t → tiles c l2 t → merged l1 → merged l2 →
  (∀ b, state_in l1 b = state_in l2 b) → l1 = l2.
Proof.
  revert c l2. induction l1 as [|i l1 IH]; intros c [|j l2] H1 H2 M1 M2 Heq; [done|..].
  - destruct H2 as (? & ? & H2). apply tiles_le in H2. simpl in H1. lia.
  - destruct H1 as (? & ? & H1). apply tiles_le in H1. simpl in H2. lia.
  - assert (Hst : state i = state j).
    { pose proof (tiles_head_state _ _ _ _ H1) as E1.
      pose proof (tiles_head_state _ _ _ _ H2) as E2. rewrite Heq in E1. congruence. }
    assert (Hend : end_ i = end_ j).
    { pose proof (run_end _ _ _ i H1 M1 ltac:(left)) as R1.
      pose proof (run_end _ _ _ j H2 M2 ltac:(left)) as R2.
      destruct H1 as (? & ? & _), H2 as (? & ? & _).
      destruct (Z.lt_trichotomy (end_ i) (end_ j)) as [Hlt|[|Hlt]]; [exfalso|done|exfalso].
      - apply R1. rewrite Heq. simpl. rewrite bool_decide_eq_true_2 by lia. congruence.
      - apply R2. rewrite <- Heq. simpl. rewrite bool_decide_eq_true_2 by lia. congruence. }
    assert (i = j) as ->.
    { destruct i, j, H1 as (? & _), H2 as (? & _). simpl in *. congruence. }
    f_equal. destruct H1 as (_ & Hj & H1), H2 as (_ & _ & H2), M1 as [_ M1], M2 as [_ M2].
    apply (IH (end_ j)); [done..|]. intros b. specialize (Heq b). simpl in Heq.
    case_bool_decide; [|done].
    by rewrite (state_in_None _ _ _ _ H1), (state_in_None _ _ _ _ H2) by lia.
Qed.

Lemma canonical_maps m1 m2 :
  wf m1 → wf m2 → total_length m1 = total_length m2 →
  (∀ b, state_at m1 b = state_at m2 b) → m1 = m2.
Proof.
  destruct m1 as [t1 l1], m2 as [t2 l2]. unfold wf, state_at. simpl.
  intros (_ & T1 & M1) (_ & T2 & M2) <- Heq. f_equal. by apply (canonical_lists 0 l1 l2 t1).
Qed.

(** ** The abstract machine the map implements

    Ownership as a function from byte offsets, and what each request does to it. *)

Inductive op :=
| OpGrant (range : Range) (worker : WorkerId)
| OpSplit (at_ : Z) (source recipient : WorkerId)
| OpComplete (range : Range) (worker : WorkerId)
| OpAbandon (worker : WorkerId).

Inductive outcome := Done | Released (bytes : Z) | Refused (e : IntervalMapError).

Definition of_result (r : result unit IntervalMapError) : outcome :=
  match r with Ok _ => Done | Err e => Refused e end.

Definition apply_op (m : IntervalMap) (o : op) : outcome * IntervalMap :=
  match o with
  | OpGrant range w => let '(r, m') := grant m range w in (of_result r, m')
  | OpSplit at_ s t => let '(r, m') := split_in_progress m at_ s t in (of_result r, m')
  | OpComplete range w => let '(r, m') := complete m range w in (of_result r, m')
  | OpAbandon w => let '(n, m') := abandon m w in (Released n, m')
  end.

(** The [u64] arguments a call can carry. *)
Definition op_args (o : op) : Prop :=
  match o with
  | OpGrant range _ | OpComplete range _ => u64 (r_start range) ∧ u64 (r_end range)
  | OpSplit at_ _ _ => u64 at_
  | OpAbandon _ => True
  end.

Section spec.
Context (t : Z) (f : Z → option IntervalState).

Definition inside (range : Range) : Prop := r_start range < r_end range ∧ r_end range ≤ t.
Definition all_in (range : Range) (s : IntervalState) : Prop :=
  ∀ b, in_range range b → f b = Some s.
(** [g] is [f] with the bytes in [P] moved to [s]. *)
Definition moved (P : Z → Prop) (s : IntervalState) (g : Z → option IntervalState) : Prop :=
  ∀ b, P b ∧ g b = Some s ∨ ¬ P b ∧ g b = f b.

Inductive spec_step : op → outcome → (Z → option IntervalState) → Prop :=
| spec_grant range w g :
    inside range → all_in range Pending → moved (in_range range) (InProgress w) g →
    spec_step (OpGrant range w) Done g
| spec_complete range w g :
    inside range → all_in range (InProgress w) → moved (in_range range) Complete g →
    spec_step (OpComplete range w) Done g
| spec_split at_ s r g :
    s ≠ r → f (at_ - 1) = Some (InProgress s) → f at_ = Some (InProgress s) →
    moved (λ b, at_ ≤ b ∧ ∀ x, at_ ≤ x ≤ b → f x = Some (InProgress s)) (InProgress r) g →
    spec_step (OpSplit at_ s r) Done g
| spec_abandon w n g :
    n = zlen (filter (λ b, f b = Some (InProgress w)) (seqZ 0 t)) →
    moved (λ b, f b = Some (InProgress w)) Pending g →
    spec_step (OpAbandon w) (Released n) g
| spec_bad_range o range w :
    o = OpGrant range w ∨ o = OpComplete range w → ¬ inside range →
    spec_step o (Refused (InvalidRange (r_start range) (r_end range) t)) f
| spec_not_pending range w :
    inside range → ¬ all_in range Pending →
    spec_step (OpGrant range w) (Refused (RangeNotPending (r_start range) (r_end range))) f
| spec_not_owned range w :
    inside range → ¬ all_in range (InProgress w) →
    spec_step (OpComplete range w)
      (Refused (RangeNotOwned (r_start range) (r_end range) w)) f
| spec_same_worker at_ s :
    spec_step (OpSplit at_ s s) (Refused (SplitWorkerUnchanged s)) f
| spec_no_split_point at_ s r :
    s ≠ r → ¬ (f (at_ - 1) = Some (InProgress s) ∧ f at_ = Some (InProgress s)) →
    spec_step (OpSplit at_ s r) (Refused (SplitPointUnavailable at_ s)) f.
End spec.

Lemma moved_if f (P : Z → Prop) `{∀ b, Decision (P b)} s g :
  (∀ b, g b = if bool_decide (P b) then Some s else f b) → moved f P s g.
Proof. intros Hg b. rewrite Hg. case_bool_decide; [by left|by right]. Qed.

Lemma apply_op_refines m o :
  wf m → op_args o →
  let '(out, m') := apply_op m o in
  wf m' ∧ total_length m' = total_length m ∧
  spec_step (total_length m) (state_at m) o out (state_at m').
Proof.
  intros Hwf Hargs. destruct o as [range w|at_ s r|range w|w]; simpl in *.
  - pose proof (grant_spec m range w Hwf (proj1 Hargs)) as H.
    destruct (grant m range w) as [[[]|e] m']; simpl.
    + destruct H as (? & ? & ? & ? & ?). split_and!; [done..|].
      constructor; [done..|]. by apply moved_if with _.
    + destruct H as [-> [[? ->]|(? & -> & b & ? & Hb)]]; (split_and!; [done..|]).
      * apply spec_bad_range with w; [by left|done].
      * constructor; [done|]. intros Hall. by apply Hb, Hall.
  - pose proof (split_spec m at_ s r Hwf) as H.
    destruct (split_in_progress m at_ s r) as [[[]|e] m']; simpl.
    + destruct H as (? & ? & ? & ? & ? & Hst). split_and!; [done..|].
      constructor; [done..|]. intros b. destruct (Hst b) as [[? ?]|[? ?]]; [by left|by right].
    + destruct H as [-> [[-> ->]|(? & -> & ?)]]; (split_and!; [done..|]); by constructor.
  - pose proof (complete_spec m range w Hwf (proj1 Hargs)) as H.
    destruct (complete m range w) as [[[]|e] m']; simpl.
    + destruct H as (? & ? & ? & ? & ?). split_and!; [done..|].
      constructor; [done..|]. by apply moved_if with _.
    + destruct H as [-> [[? ->]|(? & -> & b & ? & Hb)]]; (split_and!; [done..|]).
      * apply spec_bad_range with w; [by right|done].
      * constructor; [done|]. intros Hall. by apply Hb, Hall.
  - pose proof (abandon_spec m w Hwf) as H.
    destruct (abandon m w) as [n m'] eqn:?; simpl.
    destruct H as (-> & ? & ? & ?). split_and!; [done..|].
    constructor; [done|]. by apply moved_if with _.
Qed.

(** Maps a program can hold: created for some length, then mutated. *)
Inductive reachable (t : Z) : IntervalMap → Prop :=
| reach_new : reachable t (new t)
| reach_op m o : reachable t m → op_args o → reachable t (snd (apply_op m o)).

Lemma reachable_wf t m : u64 t → reachable t m → wf m ∧ total_length m = t.
Proof.
  intros Ht. induction 1 as [|m o _ [IH Hlen] Hargs]; [by split; [apply new_wf|]|].
  pose proof (apply_op_refines m o IH Hargs) as H. destruct (apply_op m o) as [out m'].
  destruct H as (? & ? & _). simpl. split; [done|congruence].
Qed.

(** ** The executable invariant is the invariant *)

Lemma invariants_loop_spec c p l t :
  invariants_loop c p l = Some t ↔
  tiles c l t ∧ merged l ∧ (match l with [] => True | i :: _ => p ≠ Some (state i) end).
Proof.
  revert c p. induction l as [|i l IH]; intros c p; simpl.
  - split; [intros [= ->]; done|by intros (-> & _)].
  - destruct (negb (start i =? c) || (end_ i <=? start i)) eqn:E; bool_to_prop.
    { split; [done|]. intros ((? & ? & _) & _). destruct E; bool_to_prop; lia. }
    case_bool_decide as Hp; [naive_solver|].
    rewrite IH. split.
    + intros (? & ? & Hn). split_and!; [lia|lia|done| |done|done]. destruct l; [done|congruence].
    + intros ((? & ? & ?) & (Hn & ?) & ?). split_and!; [done..|]. destruct l; [done|congruence].
Qed.

Lemma invariants_hold_wf m : u64 (total_length m) → invariants_hold m = true ↔ wf m.
Proof.
  intros Hu. unfold invariants_hold, wf. destruct (total_length m =? 0) eqn:E; bool_to_prop.
  - rewrite E in *. destruct (intervals m) as [|i l]; simpl; [tauto|]. split; [done|].
    intros (_ & (? & ? & Ht) & _). apply tiles_le in Ht. lia.
  - destruct (invariants_loop 0 None (intervals m)) as [c|] eqn:L.
    + apply invariants_loop_spec in L as (Ht & Hm & _). rewrite Z.eqb_eq. split; [by intros ->|].
      intros (_ & Ht' & _).
      clear -Ht Ht'. revert Ht Ht'. generalize 0. induction (intervals m) as [|i l IH]; simpl.
      * by intros ? -> ->.
      * intros ? (_ & _ & H1) (_ & _ & H2). by apply (IH (end_ i)).
    + split; [done|]. intros (_ & Ht & Hm). exfalso.
      assert (invariants_loop 0 None (intervals m) = Some (total_length m)); [|congruence].
      apply invariants_loop_spec. split_and!; [done..|]. by destruct (intervals m).
Qed.

(** ** Properties *)

(** C2: On every reachable map, every call of [grant], [split_in_progress], [complete] and
    [abandon] — accepted or refused — does to the bytes of the file exactly what the abstract
    ownership machine [spec_step] allows, and keeps a canonical partition of the same length.
    A refusal names its cause and changes nothing; no two workers ever own one byte, because
    ownership is a function. *)
Theorem interval_map_refines_ownership t m o :
  u64 t → reachable t m → op_args o →
  wf (snd (apply_op m o)) ∧ total_length (snd (apply_op m o)) = t ∧
  spec_step t (state_at m) o (fst (apply_op m o)) (state_at (snd (apply_op m o))).
Proof.
  intros Ht Hr Hargs. destruct (reachable_wf t m Ht Hr) as [Hwf <-].
  pose proof (apply_op_refines m o Hwf Hargs) as H. by destruct (apply_op m o).
Qed.

Example interval_map_refines_ownership_witness :
  spec_step 10 (state_at (new 10)) (OpGrant (MkRange 2 5) (WorkerId_new 1)) Done
    (state_at (snd (apply_op (new 10) (OpGrant (MkRange 2 5) (WorkerId_new 1))))).
Proof.
  apply (interval_map_refines_ownership 10 (new 10)
    (OpGrant (MkRange 2 5) (WorkerId_new 1)) ltac:(ulia) (reach_new 10) ltac:(simpl; ulia)).
Defined.

(** The [debug_assert!(self.invariants_hold())] at the end of each mutation never fires:
    the executable check holds of every reachable map. *)
Theorem reachable_invariants_hold t m :
  u64 t → reachable t m → invariants_hold m = true.
Proof.
  intros Ht Hr. destruct (reachable_wf t m Ht Hr) as [Hwf Hlen].
  apply invariants_hold_wf; [by rewrite Hlen|done].
Qed.

Example reachable_invariants_hold_witness :
  invariants_hold (snd (apply_op (new 10) (OpGrant (MkRange 2 5) (WorkerId_new 1)))) = true.
Proof.
  apply (reachable_invariants_hold 10); [ulia|]. apply reach_op; [apply reach_new|simpl; ulia].
Defined.

(** The representation is canonical: two reachable maps that give every byte the same state
    are the same list of intervals, whatever operations built them. *)
Theorem reachable_canonical t m1 m2 :
  u64 t → reachable t m1 → reachable t m2 →
  (∀ b, state_at m1 b = state_at m2 b) → m1 = m2.
Proof.
  intros Ht H1 H2. apply (reachable_wf t) in H1 as [? E1]; [|done].
  apply (reachable_wf t) in H2 as [? E2]; [|done]. apply canonical_maps; congruence.
Qed.

Example reachable_canonical_witness :
  snd (apply_op (snd (apply_op (new 10) (OpGrant (MkRange 0 5) (WorkerId_new 1))))
        (OpAbandon (WorkerId_new 1))) = new 10.
Proof.
  apply (reachable_canonical 10); [ulia|..|done].
  - apply reach_op; [apply reach_op; [apply reach_new|simpl; ulia]|done].
  - apply reach_new.
Defined.

Lemma complete_persists m o b :
  wf m → op_args o → state_at m b = Some Complete →
  state_at (snd (apply_op m o)) b = Some Complete.
Proof.
  intros Hwf Hargs Hb. pose proof (apply_op_refines m o Hwf Hargs) as H.
  destruct (apply_op m o) as [out m']. destruct H as (_ & _ & H). simpl.
  inversion H as [? ? ? ? Hall Hm|? ? ? ? Hall Hm|? ? ? ? ? ? ? Hm|? ? ? ? Hm| | | | |];
    subst; try congruence; destruct (Hm b) as [[Hin ?]|[_ ?]]; try congruence.
  - apply Hall in Hin. congruence.
  - destruct Hin as [Hle Hrun]. rewrite Hrun in Hb by lia. congruence.
Qed.

Lemma completed_by_owner m o b :
  wf m → op_args o → state_at m b ≠ Some Complete →
  state_at (snd (apply_op m o)) b = Some Complete →
  ∃ range w, o = OpComplete range w ∧ in_range range b ∧ state_at m b = Some (InProgress w).
Proof.
  intros Hwf Hargs Hb. pose proof (apply_op_refines m o Hwf Hargs) as H.
  destruct (apply_op m o) as [out m']. destruct H as (_ & _ & H). simpl. intros Hc.
  inversion H as [? ? ? ? Hall Hm|range w ? ? Hall Hm|? ? ? ? ? ? ? Hm|? ? ? ? Hm| | | | |];
    subst; try congruence; destruct (Hm b) as [[Hin ?]|[_ ?]]; try congruence.
  exists range, w. split_and!; [done..|]. by apply Hall.
Qed.

Definition run_ops (m : IntervalMap) (os : list op) : IntervalMap :=
  fold_left (λ m o, snd (apply_op m o)) os m.

Lemma run_ops_reachable t m os :
  reachable t m → Forall op_args os → reachable t (run_ops m os).
Proof.
  intros Hr Hos. revert m Hr. induction Hos as [|o os Ho _ IH]; intros m Hr; [done|].
  apply IH. by apply reach_op.
Qed.

(** Durability is final and earned.  A byte that is [Complete] stays [Complete] through any
    sequence of calls; and if a byte that was not complete is complete after a sequence, then
    somewhere in it the worker that owned that byte at that moment completed it. *)
Theorem completion_final_and_earned t m os b :
  u64 t → reachable t m → Forall op_args os →
  (state_at m b = Some Complete → state_at (run_ops m os) b = Some Complete) ∧
  (state_at m b ≠ Some Complete → state_at (run_ops m os) b = Some Complete →
   ∃ before range w after, os = before ++ OpComplete range w :: after ∧
     in_range range b ∧ state_at (run_ops m before) b = Some (InProgress w)).
Proof.
  intros Ht Hr Hos. revert m Hr. induction Hos as [|o os Ho Hos IH]; intros m Hr.
  - split; [done|]. intros. by exfalso.
  - destruct (reachable_wf t m Ht Hr) as [Hwf _].
    destruct (IH (snd (apply_op m o)) (reach_op _ _ _ Hr Ho)) as [IH1 IH2].
    split.
    + intros Hb. apply IH1. by apply complete_persists.
    + intros Hb Hc.
      destruct (decide (state_at (snd (apply_op m o)) b = Some Complete)) as [Hd|Hd].
      * destruct (completed_by_owner m o b Hwf Ho Hb Hd) as (range & w & -> & ? & ?).
        by exists [], range, w, os.
      * destruct (IH2 Hd Hc) as (before & range & w & after & -> & ? & ?).
        by exists (o :: before), range, w, after.
Qed.

Example completion_final_and_earned_witness :
  ∃ before range w after,
    [OpGrant (MkRange 0 4) (WorkerId_new 7); OpComplete (MkRange 1 3) (WorkerId_new 7)] =
      before ++ OpComplete range w :: after ∧
    in_range range 2 ∧ state_at (run_ops (new 10) before) 2 = Some (InProgress w).
Proof.
  apply (completion_final_and_earned 10 (new 10)
    [OpGrant (MkRange 0 4) (WorkerId_new 7); OpComplete (MkRange 1 3) (WorkerId_new 7)] 2);
    [ulia|apply reach_new|repeat constructor; simpl; ulia|done|reflexivity].
Defined.

(** A repeated worker-death notification is a no-op: abandoning again releases nothing and
    leaves the very same map; the first call released exactly the bytes the worker owned, and
    none of them is left with it. *)
Theorem abandon_idempotent t m w :
  u64 t → reachable t m →
  let '(released, m1) := abandon m w in
  released = count_state m (InProgress w) ∧ count_state m1 (InProgress w) = 0 ∧
  abandon m1 w = (0, m1).
Proof.
  intros Ht Hr. destruct (reachable_wf t m Ht Hr) as [Hwf _].
  pose proof (abandon_spec m w Hwf) as H1. destruct (abandon m w) as [n m1].
  destruct H1 as (-> & Hwf1 & Hlen1 & Hst1).
  assert (Hnone : ∀ b, state_at m1 b ≠ Some (InProgress w)).
  { intros b. rewrite Hst1. case_bool_decide; [done|congruence]. }
  assert (Hzero : count_state m1 (InProgress w) = 0).
  { unfold count_state. by rewrite filter_none by (intros; apply Hnone). }
  split_and!; [done..|]. pose proof (abandon_spec m1 w Hwf1) as H2.
  destruct (abandon m1 w) as [n2 m2]. destruct H2 as (-> & Hwf2 & Hlen2 & Hst2).
  f_equal; [done|]. apply canonical_maps; [done..|]. intros b.
  rewrite Hst2. by rewrite bool_decide_eq_false_2 by apply Hnone.
Qed.

Example abandon_idempotent_witness :
  let m := snd (apply_op (new 10) (OpGrant (MkRange 0 4) (WorkerId_new 7))) in
  let '(released, m1) := abandon m (WorkerId_new 7) in
  released = count_state m (InProgress (WorkerId_new 7)) ∧
  count_state m1 (InProgress (WorkerId_new 7)) = 0 ∧
  abandon m1 (WorkerId_new 7) = (0, m1).
Proof.
  apply (abandon_idempotent 10); [ulia|]. apply reach_op; [apply reach_new|simpl; ulia].
Defined.

(** A partition computed by hand: a grant, a split inside it, a durable prefix, a death. *)
Example interval_map_trace :
  run_ops (new 100) [OpGrant (MkRange 0 40) (WorkerId_new 1);
                     OpSplit 20 (WorkerId_new 1) (WorkerId_new 2);
                     OpComplete (MkRange 0 10) (WorkerId_new 1);
                     OpAbandon (WorkerId_new 1)] =
  MkIntervalMap 100 [MkInterval 0 10 Complete; MkInterval 10 20 Pending;
                     MkInterval 20 40 (InProgress (WorkerId_new 2)); MkInterval 40 100 Pending].
Proof. reflexivity. Qed.

End Intervals.
