(* ===== verification/Allocator.v ===== *)
(** * [downpour-engine/src/lib.rs]: the segment allocator

    The sole policy that hands byte ranges to workers: pending work first, otherwise half of the
    largest active grant. *)

From S2P Require Import Prelude Intervals.

Module Allocator.
Import Intervals.Intervals.

Definition DEFAULT_MIN_SPLIT_BYTES : Z := 1024 * 1024.

Record Grant := MkGrant { g_worker : WorkerId; g_range : Range }.
Record Allocation := MkAllocation { a_grant : Grant; a_shortened : option Grant }.
#[export] Instance Grant_eq_dec : EqDecision Grant.
Proof. solve_decision. Defined.

Inductive AllocatorError :=
| ZeroMinimumSplit
| WorkerAlreadyActive (worker : WorkerId)
| Interval_ (source : IntervalMapError).

Record SegmentAllocator := MkAllocator { sa_intervals : IntervalMap; sa_min_split_bytes : Z }.

Definition new (total_length min_split_bytes : Z) : result SegmentAllocator AllocatorError :=
  if min_split_bytes =? 0 then Err ZeroMinimumSplit
  else Ok (MkAllocator (Intervals.new total_length) min_split_bytes).

Definition sa_list (a : SegmentAllocator) : list Interval := intervals (sa_intervals a).

(** The comparator: longer first, then the lower offset. *)
Definition prefer (left right : Interval) : comparison :=
  then_with (len left ?= len right) (start right ?= start left).

Definition preferred_range (a : SegmentAllocator) (predicate : IntervalState → bool)
    : option Range :=
  option_map (λ i, MkRange (start i) (end_ i))
    (max_by prefer (List.filter (λ i, predicate (state i)) (sa_list a))).

Definition active (i : Interval) : option (Interval * WorkerId) :=
  match state i with InProgress worker => Some (i, worker) | _ => None end.

Definition preferred_active (a : SegmentAllocator) : option (Range * WorkerId) :=
  option_map (λ '(i, worker), (MkRange (start i) (end_ i), worker))
    (max_by (λ left right, prefer (fst left) (fst right)) (omap active (sa_list a))).

Definition is_active (a : SegmentAllocator) (worker : WorkerId) : bool :=
  existsb (λ i, match state i with
                | InProgress owner => bool_decide (owner = worker)
                | _ => false
                end) (sa_list a).

Definition allocate (a : SegmentAllocator) (worker : WorkerId)
    : result (option Allocation) AllocatorError * SegmentAllocator :=
  if is_active a worker then (Err (WorkerAlreadyActive worker), a)
  else
    match preferred_range a (λ s, bool_decide (s = Pending)) with
    | Some range =>
        match grant (sa_intervals a) range worker with
        | (Err e, m) => (Err (Interval_ e), MkAllocator m (sa_min_split_bytes a))
        | (Ok _, m) =>
            (Ok (Some (MkAllocation (MkGrant worker range) None)),
             MkAllocator m (sa_min_split_bytes a))
        end
    | None =>
        match checked_mul64 (sa_min_split_bytes a) 2 with
        | None => (Ok None, a)
        | Some required =>
            match preferred_active a with
            | None => (Ok None, a)
            | Some (range, source) =>
                if wsub64 (r_end range) (r_start range) <? required then (Ok None, a)
                else
                  let split_at :=
                    wadd64 (r_start range) (wsub64 (r_end range) (r_start range) / 2) in
                  match split_in_progress (sa_intervals a) split_at source worker with
                  | (Err e, m) => (Err (Interval_ e), MkAllocator m (sa_min_split_bytes a))
                  | (Ok _, m) =>
                      (Ok (Some (MkAllocation
                         (MkGrant worker (MkRange split_at (r_end range)))
                         (Some (MkGrant source (MkRange (r_start range) split_at))))),
                       MkAllocator m (sa_min_split_bytes a))
                  end
            end
        end
    end.

Definition complete_durable (a : SegmentAllocator) (worker : WorkerId) (range : Range)
    : result unit AllocatorError * SegmentAllocator :=
  let '(r, m) := complete (sa_intervals a) range worker in
  (map_err Interval_ r, MkAllocator m (sa_min_split_bytes a)).

Definition abandon (a : SegmentAllocator) (worker : WorkerId) : Z * SegmentAllocator :=
  let '(n, m) := Intervals.abandon (sa_intervals a) worker in
  (n, MkAllocator m (sa_min_split_bytes a)).

(** ** The policy, stated on the partition *)

Definition wf_alloc (a : SegmentAllocator) : Prop :=
  wf (sa_intervals a) ∧ 0 < sa_min_split_bytes a ∧ u64 (sa_min_split_bytes a).

Definition longer (i j : Interval) : Prop :=
  len j < len i ∨ len j = len i ∧ start i ≤ start j.

(** [i] is the preferred interval among those whose state satisfies [P]. *)
Definition preferred (a : SegmentAllocator) (P : IntervalState → Prop) (i : Interval) : Prop :=
  i ∈ sa_list a ∧ P (state i) ∧ ∀ j, j ∈ sa_list a → P (state j) → longer i j.

Lemma prefer_Gt i j : prefer i j = Gt → longer i j.
Proof.
  unfold prefer, then_with, longer.
  destruct (Z.compare_spec (len i) (len j)), (Z.compare_spec (start j) (start i)); intros;
    try discriminate; lia.
Qed.
Lemma prefer_not_Gt i j : prefer i j ≠ Gt → longer j i.
Proof.
  unfold prefer, then_with, longer.
  destruct (Z.compare_spec (len i) (len j)), (Z.compare_spec (start j) (start i));
    intros; try lia; congruence.
Qed.
#[local] Instance longer_refl : Reflexive longer.
Proof. intros i. unfold longer. lia. Qed.
#[local] Instance longer_trans : Transitive longer.
Proof. intros i j k. unfold longer. lia. Qed.
#[local] Instance longer_fst_refl : Reflexive (λ l r : Interval * WorkerId, longer (fst l) (fst r)).
Proof. intros i. apply longer_refl. Qed.
#[local] Instance longer_fst_trans : Transitive (λ l r : Interval * WorkerId, longer (fst l) (fst r)).
Proof. intros i j k. apply longer_trans. Qed.

Lemma preferred_range_spec a s :
  match preferred_range a (λ t, bool_decide (t = s)) with
  | Some range => ∃ i, preferred a (λ t, t = s) i ∧ range = MkRange (start i) (end_ i)
  | None => ∀ i, i ∈ sa_list a → state i ≠ s
  end.
Proof.
  unfold preferred_range.
  pose proof (max_by_spec prefer longer prefer_Gt prefer_not_Gt
    (List.filter (λ i, bool_decide (state i = s)) (sa_list a))) as H.
  assert (Hf : ∀ i, i ∈ List.filter (λ i, bool_decide (state i = s)) (sa_list a) ↔
    i ∈ sa_list a ∧ state i = s).
  { intros i. rewrite !list_elem_of_In, filter_In, bool_decide_eq_true. done. }
  destruct (max_by _ _) as [i|]; simpl.
  - destruct H as [[Hi Hs]%Hf Hall]. exists i. split; [|done]. split_and!; [done..|].
    intros j Hj HP. by apply Hall, Hf.
  - intros i Hi Hs. assert (Hin : i ∈ List.filter (λ i, bool_decide (state i = s)) (sa_list a))
      by by apply Hf.
    rewrite H in Hin. by apply elem_of_nil in Hin.
Qed.

Definition in_progress (s : IntervalState) : Prop := ∃ w, s = InProgress w.

Lemma preferred_active_spec a :
  match preferred_active a with
  | Some (range, w) =>
      ∃ i, preferred a in_progress i ∧ state i = InProgress w ∧
        range = MkRange (start i) (end_ i)
  | None => ∀ i, i ∈ sa_list a → ¬ in_progress (state i)
  end.
Proof.
  unfold preferred_active.
  pose proof (max_by_spec (λ l r : Interval * WorkerId, prefer (fst l) (fst r))
    (λ l r, longer (fst l) (fst r)) (λ l r, prefer_Gt (fst l) (fst r))
    (λ l r, prefer_not_Gt (fst l) (fst r)) (omap active (sa_list a))) as H.
  assert (Hf : ∀ i w, (i, w) ∈ omap active (sa_list a) ↔ i ∈ sa_list a ∧ state i = InProgress w).
  { intros i w. rewrite list_elem_of_omap. unfold active. split.
    - intros (j & Hj & E). destruct (state j) eqn:?; naive_solver.
    - intros [Hi E]. exists i. by rewrite E. }
  destruct (max_by _ _) as [[i w]|]; simpl.
  - destruct H as [[Hi Hs]%Hf Hall]. exists i. split_and!; [|done..].
    split_and!; [done|by exists w|]. intros j Hj [w' Hw'].
    apply (Hall (j, w')). by apply Hf.
  - intros i Hi [w Hw]. assert (Hin : (i, w) ∈ omap active (sa_list a)) by by apply Hf.
    rewrite H in Hin. by apply elem_of_nil in Hin.
Qed.

Definition a_state_at (a : SegmentAllocator) (b : Z) : option IntervalState :=
  state_at (sa_intervals a) b.

Lemma is_active_spec a w :
  wf_alloc a → is_active a w = true ↔ ∃ b, a_state_at a b = Some (InProgress w).
Proof.
  intros [(_ & Ht & _) _]. unfold is_active, a_state_at, sa_list. rewrite existsb_exists. split.
  - intros (i & Hi%list_elem_of_In & E). destruct (state i) eqn:Hs; try done. bool_to_prop. subst.
    exists (start i). rewrite <- Hs. pose proof (tiles_bounds _ _ _ _ Ht Hi).
    by apply (state_in_elem 0 _ (total_length (sa_intervals a))); [..|lia].
  - intros [b Hb]. apply state_in_inv in Hb as (i & Hi & _ & Hs). exists i.
    split; [by apply list_elem_of_In|]. rewrite Hs. by apply bool_decide_eq_true_2.
Qed.

Lemma is_active_false a w b :
  wf_alloc a → is_active a w = false → a_state_at a b ≠ Some (InProgress w).
Proof.
  intros Hwf Ha Hb. assert (is_active a w = true); [|congruence].
  apply is_active_spec; [done|]. by exists b.
Qed.

Section interval_facts.
Context (a : SegmentAllocator) (Hwf : wf_alloc a) (i : Interval) (Hi : i ∈ sa_list a).

Lemma interval_bounds : 0 ≤ start i ∧ start i < end_ i ∧ end_ i ≤ total_length (sa_intervals a).
Proof using Hwf Hi. destruct Hwf as [(_ & Ht & _) _]. by apply (tiles_bounds _ _ _ _ Ht). Qed.

Lemma interval_u64 : end_ i < u64_modulus.
Proof using Hwf Hi. pose proof interval_bounds. destruct Hwf as [(Hu & _) _]. ulia. Qed.

Lemma interval_len : len i = end_ i - start i.
Proof using Hwf Hi.
  pose proof interval_bounds. pose proof interval_u64. apply wsub64_small. ulia.
Qed.

Lemma interval_state b : start i ≤ b < end_ i → a_state_at a b = Some (state i).
Proof using Hwf Hi.
  destruct Hwf as [(_ & Ht & _) _]. by apply (state_in_elem 0 _ (total_length (sa_intervals a))).
Qed.
End interval_facts.

(** Granting a whole pending interval always succeeds. *)
Lemma grant_interval a i w :
  wf_alloc a → i ∈ sa_list a → state i = Pending →
  ∃ m, grant (sa_intervals a) (MkRange (start i) (end_ i)) w = (Ok tt, m) ∧ wf m ∧
    total_length m = total_length (sa_intervals a) ∧
    ∀ b, state_at m b =
      if bool_decide (start i ≤ b < end_ i) then Some (InProgress w) else a_state_at a b.
Proof.
  intros Hwf Hi Hs. pose proof (interval_bounds a Hwf i Hi). pose proof (interval_u64 a Hwf i Hi).
  pose proof (grant_spec (sa_intervals a) (MkRange (start i) (end_ i)) w (proj1 Hwf)) as G.
  cbn in G. specialize (G ltac:(ulia)).
  destruct (grant _ _ _) as [[[]|e] m].
  - destruct G as (_ & _ & ? & ? & Hst). by exists m.
  - exfalso. destruct G as [_ [[Hv _]|(_ & _ & b & Hb & Hn)]].
    + apply Hv. unfold valid_range. cbn. lia.
    + apply Hn. rewrite <- Hs. by apply (interval_state a Hwf i Hi).
Qed.

(** Splitting strictly inside an active interval always succeeds. *)
Lemma split_interval a i s w at_ :
  wf_alloc a → i ∈ sa_list a → state i = InProgress s → s ≠ w → start i < at_ < end_ i →
  ∃ m, split_in_progress (sa_intervals a) at_ s w = (Ok tt, m) ∧ wf m ∧
    total_length m = total_length (sa_intervals a) ∧
    ∀ b, state_at m b =
      if bool_decide (at_ ≤ b < end_ i) then Some (InProgress w) else a_state_at a b.
Proof.
  intros Hwf Hi Hs Hne Hat.
  pose proof (split_spec (sa_intervals a) at_ s w (proj1 Hwf)) as G.
  destruct (split_in_progress _ _ _ _) as [[[]|e] m].
  - destruct G as (_ & _ & _ & ? & ? & Hst). exists m. split_and!; [done..|].
    intros b. pose proof (run_from_interval (sa_intervals a) i at_ b (proj1 Hwf) Hi ltac:(lia)) as Hr.
    rewrite Hs in Hr.
    destruct (Hst b) as [[-> Hb]|[-> Hb]]; rewrite Hr in Hb;
      [by rewrite bool_decide_eq_true_2|by rewrite bool_decide_eq_false_2].
  - exfalso. destruct G as [_ [[? _]|(_ & _ & Hn)]]; [done|]. apply Hn. rewrite <- Hs.
    split; apply (interval_state a Hwf i Hi); lia.
Qed.

(** The whole behaviour of one request for work. *)
Lemma allocate_spec a w :
  wf_alloc a →
  match allocate a w with
  | (Err e, a') =>
      a' = a ∧ e = WorkerAlreadyActive w ∧ ∃ b, a_state_at a b = Some (InProgress w)
  | (Ok None, a') =>
      a' = a ∧ is_active a w = false ∧ (∀ i, i ∈ sa_list a → state i ≠ Pending) ∧
      ∀ i, i ∈ sa_list a → in_progress (state i) → end_ i - start i < 2 * sa_min_split_bytes a
  | (Ok (Some al), a') =>
      is_active a w = false ∧ wf_alloc a' ∧
      sa_min_split_bytes a' = sa_min_split_bytes a ∧
      total_length (sa_intervals a') = total_length (sa_intervals a) ∧
      g_worker (a_grant al) = w ∧
      (∀ b, a_state_at a' b =
         if bool_decide (in_range (g_range (a_grant al)) b) then Some (InProgress w)
         else a_state_at a b) ∧
      ((∃ i, preferred a (λ s, s = Pending) i ∧
          g_range (a_grant al) = MkRange (start i) (end_ i) ∧ a_shortened al = None) ∨
       (∀ i, i ∈ sa_list a → state i ≠ Pending) ∧
       ∃ i s, preferred a in_progress i ∧ state i = InProgress s ∧ s ≠ w ∧
         let mid := start i + (end_ i - start i) / 2 in
         g_range (a_grant al) = MkRange mid (end_ i) ∧
         a_shortened al = Some (MkGrant s (MkRange (start i) mid)) ∧
         sa_min_split_bytes a ≤ mid - start i ∧ sa_min_split_bytes a ≤ end_ i - mid)
  end.
Proof.
  intros Hwf. unfold allocate. destruct (is_active a w) eqn:Ha.
  { split_and!; [done..|]. by apply is_active_spec. }
  pose proof (preferred_range_spec a Pending) as Hp.
  destruct (preferred_range a _) as [range|].
  { destruct Hp as (i & Hpi & ->). destruct Hpi as (Hi & Hs & Hall).
    destruct (grant_interval a i w Hwf Hi Hs) as (m & -> & Hm & Hlen & Hst).
    destruct Hwf as (_ & ? & ?). split_and!; try done.
    left. by exists i. }
  pose proof Hwf as (_ & Hmin & Hminu).
  destruct (checked_mul64 _ 2) as [required|] eqn:Hreq; unfold checked_mul64 in Hreq;
    case_bool; simplify_eq; bool_to_prop; cycle 1.
  { split_and!; [done..|]. intros i Hi _.
    pose proof (interval_bounds a Hwf i Hi). pose proof (interval_u64 a Hwf i Hi). lia. }
  pose proof (preferred_active_spec a) as Hact.
  destruct (preferred_active a) as [[range s]|].
  2: { split_and!; [done..|]. intros i Hi Hip. by destruct (Hact i Hi). }
  destruct Hact as (i & Hpi & Hs & ->). pose proof Hpi as (Hi & _ & Hall).
  pose proof (interval_bounds a Hwf i Hi). pose proof (interval_u64 a Hwf i Hi).
  assert (s ≠ w).
  { intros ->. apply (is_active_false a w (start i) Hwf Ha).
    rewrite <- Hs. apply (interval_state a Hwf i Hi). lia. }
  cbn [r_start r_end]. rewrite (wsub64_small (end_ i) (start i)) by ulia.
  case_bool; bool_to_prop.
  { split_and!; [done..|]. intros j Hj Hjp. pose proof (interval_len a Hwf j Hj).
    pose proof (interval_len a Hwf i Hi). destruct (Hall j Hj Hjp); lia. }
  assert (Hdiv : 2 * ((end_ i - start i) / 2) ≤ end_ i - start i < 2 * ((end_ i - start i) / 2) + 2)
    by (pose proof (Z.div_mod (end_ i - start i) 2 ltac:(lia));
        pose proof (Z.mod_pos_bound (end_ i - start i) 2 ltac:(lia)); lia).
  rewrite wadd64_small by ulia.
  destruct (split_interval a i s w (start i + (end_ i - start i) / 2) Hwf Hi Hs)
    as (m & -> & Hm & Hlen & Hst); [done|lia|].
  split_and!; try done. right. split; [done|]. exists i, s. split_and!; try done; lia.
Qed.

(** No completed byte is handed out. *)
Lemma allocate_from a w al a' b :
  wf_alloc a → allocate a w = (Ok (Some al), a') → in_range (g_range (a_grant al)) b →
  a_state_at a b ≠ Some Complete.
Proof.
  intros Hwf Hal Hb. pose proof (allocate_spec a w Hwf) as H. rewrite Hal in H.
  destruct H as (_ & _ & _ & _ & _ & _ & [(i & (Hi & Hs & _) & Hg & _)|(_ & i & s & (Hi & _) & Hs & _ & Hg & _)]);
    rewrite Hg in Hb; unfold in_range in Hb; simpl in Hb;
    pose proof (interval_bounds a Hwf i Hi);
    pose proof (Z.div_pos (end_ i - start i) 2 ltac:(lia) ltac:(lia));
    rewrite (interval_state a Hwf i Hi) by lia; congruence.
Qed.

Lemma allocate_complete a w b :
  wf_alloc a → a_state_at (snd (allocate a w)) b = Some Complete ↔ a_state_at a b = Some Complete.
Proof.
  intros Hwf. pose proof (allocate_spec a w Hwf) as H.
  destruct (allocate a w) as [[[al|]|e] a'] eqn:Hal; cbn [snd]; [|by destruct H as [-> _]..].
  destruct H as (_ & _ & _ & _ & _ & Hst & _). rewrite Hst. case_bool_decide as Hb; [|done].
  split; [done|]. intros Hc. by destruct (allocate_from a w al a' b Hwf Hal Hb).
Qed.

(** ** Allocators a program can hold *)

Inductive request :=
| RAllocate (worker : WorkerId)
| RComplete (worker : WorkerId) (range : Range)
| RAbandon (worker : WorkerId).

Definition serve (a : SegmentAllocator) (r : request) : SegmentAllocator :=
  match r with
  | RAllocate w => snd (allocate a w)
  | RComplete w range => snd (complete_durable a w range)
  | RAbandon w => snd (abandon a w)
  end.

Definition request_args (r : request) : Prop :=
  match r with RComplete _ range => u64 (r_start range) | _ => True end.

Definition serve_all (a : SegmentAllocator) (rs : list request) : SegmentAllocator :=
  fold_left serve rs a.

Lemma complete_durable_spec a w range :
  wf_alloc a → u64 (r_start range) →
  let '(r, a') := complete_durable a w range in
  wf_alloc a' ∧ sa_min_split_bytes a' = sa_min_split_bytes a ∧
  total_length (sa_intervals a') = total_length (sa_intervals a) ∧
  match r with
  | Ok _ => (∀ b, in_range range b → a_state_at a b = Some (InProgress w)) ∧
      ∀ b, a_state_at a' b =
        if bool_decide (in_range range b) then Some Complete else a_state_at a b
  | Err e => a' = a ∧ ∃ e', e = Interval_ e' ∧
      ¬ (valid_range (sa_intervals a) range ∧
         ∀ b, in_range range b → a_state_at a b = Some (InProgress w))
  end.
Proof.
  intros (Hwf & Hmin & Hminu) Hs. unfold complete_durable.
  pose proof (complete_spec (sa_intervals a) range w Hwf Hs) as H.
  destruct (complete _ _ _) as [[[]|e] m]; simpl.
  - destruct H as (_ & ? & ? & ? & ?). by split_and!.
  - destruct H as [-> He]. split_and!; try done; [by destruct a|].
    exists e. split; [done|]. destruct He as [[? _]|(_ & _ & b & Hb & Hn)]; [naive_solver|].
    intros [_ Hall]. by apply Hn, Hall.
Qed.

Lemma abandon_alloc_spec a w :
  wf_alloc a →
  wf_alloc (snd (abandon a w)) ∧
  sa_min_split_bytes (snd (abandon a w)) = sa_min_split_bytes a ∧
  total_length (sa_intervals (snd (abandon a w))) = total_length (sa_intervals a).
Proof.
  intros (Hwf & Hmin). unfold abandon.
  pose proof (abandon_spec (sa_intervals a) w Hwf) as H.
  destruct (Intervals.abandon _ _) as [n m]. destruct H as (_ & ? & ? & _). by split_and!.
Qed.

Lemma serve_wf a r :
  wf_alloc a → request_args r →
  wf_alloc (serve a r) ∧ sa_min_split_bytes (serve a r) = sa_min_split_bytes a ∧
  total_length (sa_intervals (serve a r)) = total_length (sa_intervals a).
Proof.
  intros Hwf Hr. destruct r as [w|w range|w]; simpl in *.
  - pose proof (allocate_spec a w Hwf) as H. destruct (allocate a w) as [[[al|]|e] a']; simpl.
    + destruct H as (_ & ? & ? & ? & _). done.
    + by destruct H as [-> _].
    + by destruct H as [-> _].
  - pose proof (complete_durable_spec a w range Hwf Hr) as H.
    destruct (complete_durable a w range) as [r a']. simpl. by destruct H as (? & ? & ? & _).
  - by apply abandon_alloc_spec.
Qed.

Lemma serve_all_wf a rs :
  wf_alloc a → Forall request_args rs → wf_alloc (serve_all a rs).
Proof.
  intros Hwf Hrs. revert a Hwf. induction Hrs as [|r rs Hr _ IH]; intros a Hwf; [done|].
  apply IH. by apply serve_wf.
Qed.

Lemma new_wf_alloc t n a : u64 t → u64 n → new t n = Ok a → wf_alloc a.
Proof.
  unfold new. intros Ht Hn. case_bool; bool_to_prop; [done|]. intros [= <-].
  split; [by apply new_wf|]. cbn. ulia.
Qed.

(** ** Properties *)

(** C3: The scheduling policy, on every allocator a program can hold.  A worker that already owns
    bytes is refused.  Otherwise the longest pending interval (the lowest offset among equals)
    is granted whole; only when nothing is pending is the longest active grant halved, and only
    when both halves are at least [min_split_bytes]; when neither is possible the allocator
    answers that there is no work and is unchanged.  The interval map never rejects a choice the
    allocator makes. *)
Theorem allocate_policy t n a rs w :
  u64 t → u64 n → new t n = Ok a → Forall request_args rs →
  let a := serve_all a rs in
  match allocate a w with
  | (Err e, a') =>
      a' = a ∧ e = WorkerAlreadyActive w ∧ ∃ b, a_state_at a b = Some (InProgress w)
  | (Ok None, a') =>
      a' = a ∧ is_active a w = false ∧ (∀ i, i ∈ sa_list a → state i ≠ Pending) ∧
      ∀ i, i ∈ sa_list a → in_progress (state i) → end_ i - start i < 2 * sa_min_split_bytes a
  | (Ok (Some al), a') =>
      is_active a w = false ∧ wf_alloc a' ∧
      sa_min_split_bytes a' = sa_min_split_bytes a ∧
      total_length (sa_intervals a') = total_length (sa_intervals a) ∧
      g_worker (a_grant al) = w ∧
      (∀ b, a_state_at a' b =
         if bool_decide (in_range (g_range (a_grant al)) b) then Some (InProgress w)
         else a_state_at a b) ∧
      ((∃ i, preferred a (λ s, s = Pending) i ∧
          g_range (a_grant al) = MkRange (start i) (end_ i) ∧ a_shortened al = None) ∨
       (∀ i, i ∈ sa_list a → state i ≠ Pending) ∧
       ∃ i s, preferred a in_progress i ∧ state i = InProgress s ∧ s ≠ w ∧
         let mid := start i + (end_ i - start i) / 2 in
         g_range (a_grant al) = MkRange mid (end_ i) ∧
         a_shortened al = Some (MkGrant s (MkRange (start i) mid)) ∧
         sa_min_split_bytes a ≤ mid - start i ∧ sa_min_split_bytes a ≤ end_ i - mid)
  end.
Proof.
  intros Ht Hn Ha Hrs. apply allocate_spec, serve_all_wf; [by apply (new_wf_alloc t n)|done].
Qed.

Example allocate_policy_witness :
  is_active (serve_all (MkAllocator (Intervals.new 100) 10) [RAllocate (WorkerId_new 1)])
    (WorkerId_new 2) = false.
Proof.
  exact (proj1 (allocate_policy 100 10 (MkAllocator (Intervals.new 100) 10)
    [RAllocate (WorkerId_new 1)] (WorkerId_new 2)
    ltac:(ulia) ltac:(ulia) eq_refl ltac:(repeat constructor))).
Defined.

(** The second worker gets the upper half of the first one's grant. *)
Example allocate_halves :
  fst (allocate (serve_all (MkAllocator (Intervals.new 100) 10) [RAllocate (WorkerId_new 1)])
    (WorkerId_new 2)) =
  Ok (Some (MkAllocation (MkGrant (WorkerId_new 2) (MkRange 50 100))
              (Some (MkGrant (WorkerId_new 1) (MkRange 0 50))))).
Proof. reflexivity. Qed.

(** A grant is exclusive.  After a successful request the worker owns exactly the granted
    bytes; every other owner keeps only bytes it owned before, a shortened owner keeps its
    shortened grant, and no completed byte is handed out. *)
Theorem allocate_exclusive a w al a' :
  wf_alloc a → allocate a w = (Ok (Some al), a') →
  (∀ b, a_state_at a' b = Some (InProgress w) ↔ in_range (g_range (a_grant al)) b) ∧
  (∀ w' b, w' ≠ w → a_state_at a' b = Some (InProgress w') → a_state_at a b = Some (InProgress w')) ∧
  (∀ b, a_state_at a' b = Some Complete ↔ a_state_at a b = Some Complete) ∧
  (∀ g, a_shortened al = Some g →
     g_worker g ≠ w ∧ ∀ b, in_range (g_range g) b → a_state_at a' b = Some (InProgress (g_worker g))).
Proof.
  intros Hwf Hal. pose proof (allocate_spec a w Hwf) as H. rewrite Hal in H.
  destruct H as (Ha & Hwf' & _ & _ & _ & Hst & Hcase).
  split_and!.
  - intros b. rewrite Hst. case_bool_decide; [done|]. split; [|done].
    intros Hb. by apply (is_active_false a w b) in Hb.
  - intros w' b Hne. rewrite Hst. case_bool_decide; congruence.
  - intros b. pose proof (allocate_complete a w b Hwf) as Hc. by rewrite Hal in Hc.
  - intros g Hg. destruct Hcase as [(i & _ & _ & Hn)|(_ & i & s & (Hi & _) & Hs & Hsw & Hr & Hn & Hm)];
      [congruence|].
    rewrite Hn in Hg. injection Hg as <-. cbn. split; [done|]. intros b Hb.
    rewrite Hst, Hr. unfold in_range in *. cbn in Hb |- *. rewrite bool_decide_eq_false_2 by lia.
    rewrite <- Hs. pose proof (interval_bounds a Hwf i Hi).
    pose proof (proj1 (proj2 Hwf)). apply (interval_state a Hwf i Hi). lia.
Qed.

Example allocate_exclusive_witness :
  a_state_at (snd (allocate (MkAllocator (Intervals.new 100) 10) (WorkerId_new 1))) 42 =
    Some (InProgress (WorkerId_new 1)) ↔ in_range (MkRange 0 100) 42.
Proof.
  exact (proj1 (allocate_exclusive (MkAllocator (Intervals.new 100) 10) (WorkerId_new 1)
    (MkAllocation (MkGrant (WorkerId_new 1) (MkRange 0 100)) None)
    (snd (allocate (MkAllocator (Intervals.new 100) 10) (WorkerId_new 1)))
    (new_wf_alloc 100 10 _ ltac:(ulia) ltac:(ulia) eq_refl) eq_refl) 42).
Defined.

(** ** One worker finishes a download *)

(** A worker that asks for work, transfers its whole grant, and asks again. *)
Fixpoint drain (fuel : nat) (a : SegmentAllocator) (w : WorkerId) : SegmentAllocator :=
  match fuel with
  | O => a
  | S fuel =>
      match allocate a w with
      | (Ok (Some al), a1) => drain fuel (snd (complete_durable a1 w (g_range (a_grant al)))) w
      | (_, a1) => a1
      end
  end.

Definition pending_bytes (a : SegmentAllocator) : Z := count_state (sa_intervals a) Pending.

Lemma idle_step a w :
  wf_alloc a → (∀ b w', a_state_at a b ≠ Some (InProgress w')) →
  match allocate a w with
  | (Ok (Some al), a1) =>
      let a2 := snd (complete_durable a1 w (g_range (a_grant al))) in
      wf_alloc a2 ∧ total_length (sa_intervals a2) = total_length (sa_intervals a) ∧
      (∀ b w', a_state_at a2 b ≠ Some (InProgress w')) ∧
      (∀ b, a_state_at a2 b = Some Pending → a_state_at a b = Some Pending) ∧
      ∃ b, a_state_at a b = Some Pending ∧ a_state_at a2 b ≠ Some Pending
  | (Ok None, a1) => a1 = a ∧ ∀ i, i ∈ sa_list a → state i = Complete
  | (Err _, _) => False
  end.
Proof.
  intros Hwf Hidle. pose proof (allocate_spec a w Hwf) as H.
  destruct (allocate a w) as [[[al|]|e] a1].
  - destruct H as (_ & Hwf1 & _ & Hlen1 & _ & Hst1 & Hcase).
    destruct Hcase as [(i & (Hi & Hs & _) & Hg & _)|(_ & i & s & (Hi & _) & Hs & _)].
    2: { exfalso. pose proof (interval_bounds a Hwf i Hi). apply (Hidle (start i) s).
         rewrite <- Hs. apply (interval_state a Hwf i Hi). lia. }
    pose proof (interval_bounds a Hwf i Hi). pose proof (interval_u64 a Hwf i Hi).
    rewrite Hg in *.
    pose proof (complete_durable_spec a1 w (MkRange (start i) (end_ i)) Hwf1) as C.
    cbn [r_start] in C. specialize (C ltac:(ulia)).
    destruct (complete_durable _ _ _) as [r a2]. destruct C as (Hwf2 & _ & Hlen2 & C). cbn [snd].
    assert (Hown : ∀ b, in_range (MkRange (start i) (end_ i)) b →
      a_state_at a1 b = Some (InProgress w)).
    { intros b Hb. rewrite Hst1. by rewrite bool_decide_eq_true_2. }
    destruct r as [[]|e].
    2: { destruct C as (_ & e' & _ & Hn). exfalso. apply Hn. split; [|done].
         unfold valid_range. cbn. lia. }
    destruct C as [_ Hst2].
    assert (Hst : ∀ b, a_state_at a2 b =
      if bool_decide (in_range (MkRange (start i) (end_ i)) b) then Some Complete
      else a_state_at a b).
    { intros b. rewrite Hst2, Hst1. by case_bool_decide. }
    split_and!; [done|congruence|..].
    + intros b w'. rewrite Hst. case_bool_decide; [done|apply Hidle].
    + intros b. rewrite Hst. by case_bool_decide.
    + exists (start i). rewrite Hst, <- Hs. split; [apply (interval_state a Hwf i Hi); lia|].
      rewrite bool_decide_eq_true_2 by (unfold in_range; cbn; lia). congruence.
  - destruct H as (-> & _ & Hp & _). split; [done|]. intros i Hi. specialize (Hp i Hi).
    pose proof (interval_bounds a Hwf i Hi).
    destruct (state i) as [|s|] eqn:Hs; [done|exfalso|done].
    apply (Hidle (start i) s). rewrite <- Hs. apply (interval_state a Hwf i Hi). lia.
  - destruct H as (_ & _ & b & Hb). by apply Hidle in Hb.
Qed.

(** Nothing is starved and the loop ends.  From any allocator whose workers have all died
    (nothing is in progress), one worker that keeps asking and durably completing what it is
    granted completes every byte of the file, in at most as many requests as there are pending
    bytes. *)
Theorem single_worker_drains a w fuel :
  wf_alloc a → (∀ b w', a_state_at a b ≠ Some (InProgress w')) →
  (Z.to_nat (pending_bytes a) < fuel)%nat →
  ∀ b, 0 ≤ b < total_length (sa_intervals a) → a_state_at (drain fuel a w) b = Some Complete.
Proof.
  revert a. induction fuel as [|fuel IH]; intros a Hwf Hidle Hfuel b Hb; [lia|].
  simpl. pose proof (idle_step a w Hwf Hidle) as H.
  destruct (allocate a w) as [[[al|]|e] a1]; [|destruct H as [-> Hall]|done].
  - destruct H as (Hwf2 & Hlen & Hidle2 & Hsub & b0 & Hb0 & Hb0').
    apply IH; [done..| |by rewrite Hlen].
    unfold pending_bytes, count_state, zlen in *. rewrite Hlen.
    pose proof (length_filter_lt
      (λ b, a_state_at (snd (complete_durable a1 w (g_range (a_grant al)))) b = Some Pending)
      (λ b, a_state_at a b = Some Pending)
      (seqZ 0 (total_length (sa_intervals a))) b0 Hsub) as Hlt.
    unfold a_state_at in *. rewrite !Nat2Z.id in *.
    eapply Nat.lt_le_trans; [apply Hlt|lia]; [|done|done].
    apply elem_of_seqZ. destruct (decide (0 ≤ b0 < total_length (sa_intervals a))) as [|Hn]; [lia|].
    apply (wf_state_at_None _ _ (proj1 Hwf)) in Hn. congruence.
  - destruct Hwf as [Hwf _]. unfold a_state_at in *.
    rewrite (wf_state_at_label _ _ Hwf Hb). f_equal.
    destruct Hwf as (_ & Ht & _). destruct (state_in_is_Some _ _ _ _ Ht Hb) as [s Hs].
    unfold label. rewrite Hs. cbn. apply state_in_inv in Hs as (i & Hi & _ & <-). by apply Hall.
Qed.

Example single_worker_drains_witness :
  a_state_at (drain 20 (MkAllocator (Intervals.new 12) 1) (WorkerId_new 3)) 7 = Some Complete.
Proof.
  apply (single_worker_drains (MkAllocator (Intervals.new 12) 1) (WorkerId_new 3) 20).
  - apply (new_wf_alloc 12 1); [ulia|ulia|reflexivity].
  - intros b w'. unfold a_state_at, state_at. cbn. by case_bool_decide.
  - vm_compute. lia.
  - cbn. lia.
Defined.

End Allocator.
