(* ===== verification/Io.v ===== *)
(** * The parts of [std::io] and [std::fs] the storage code relies on

    Errors with their kinds, readers that may deliver short reads and be interrupted, and the
    answers an operating system gives to the calls whose failure the code handles. *)

From S2P Require Import Prelude.

Module Io.

Inductive ErrorKind :=
| NotFound | AlreadyExists | Interrupted | InvalidData | InvalidInput | UnexpectedEof | WriteZero
| PermissionDenied | Other.
#[export] Instance ErrorKind_eq_dec : EqDecision ErrorKind.
Proof. solve_decision. Defined.

(** [io::Error]: its kind and, for an error of the operating system, the raw code. *)
Record Error := MkError { kind : ErrorKind; raw_os_error : option Z }.
#[export] Instance Error_eq_dec : EqDecision Error.
Proof. solve_decision. Defined.

Definition invalid_data : Error := MkError InvalidData None.

(** ** Readers

    A reader is what its next calls answer: some bytes, or an error.  The end of the list is the
    end of the file. *)
Inductive read_event := Data (bytes : list byte) | Fail (e : Error).
Definition reader := list read_event.

(** [Read::read] into a buffer of [n] bytes: at most [n] bytes of the next event. *)
Definition read (r : reader) (n : nat) : result (list byte) Error * reader :=
  match r with
  | [] => (Ok [], [])
  | Fail e :: r => (Err e, r)
  | Data bs :: r' =>
      if bool_decide (length bs ≤ n)%nat then (Ok bs, r')
      else (Ok (take n bs), Data (drop n bs) :: r')
  end.

(** [io::Cursor::new(bytes)]. *)
Definition cursor (bytes : list byte) : reader :=
  match bytes with [] => [] | _ => [Data bytes] end.

(** Everything the reader will deliver. *)
Definition contents (r : reader) : list byte :=
  concat (map (λ e, match e with Data bs => bs | Fail _ => [] end) r).

(** A reader of a healthy file: reads deliver at least one byte, and the only errors are
    interruptions by a signal. *)
Definition healthy (r : reader) : Prop :=
  Forall (λ e, match e with Data bs => bs ≠ [] | Fail e => kind e = Interrupted end) r.

Definition reader_size (r : reader) : nat := (length r + length (contents r))%nat.

Lemma cursor_contents bytes : contents (cursor bytes) = bytes.
Proof. destruct bytes; [done|]. unfold contents. cbn. by rewrite app_nil_r. Qed.
Lemma cursor_healthy bytes : healthy (cursor bytes).
Proof. destruct bytes; repeat constructor. done. Qed.

(** ** Files

    An open regular file: its bytes, whose number is its length, and how much physical space is
    reserved for it. *)
Record File := MkFile { f_content : list byte; f_reserved : Z }.

(** [File::set_len]: cut, or grow with zeros. *)
Definition set_length (n : Z) (content : list byte) : list byte := resize (Z.to_nat n) x00 content.

(** [bytes] over the content at [offset], which is within it. *)
Definition overwrite (offset : Z) (bytes content : list byte) : list byte :=
  copy_from_slice content (Z.to_nat offset) bytes.

(** The same bytes everywhere outside [[offset, offset + n)]. *)
Definition same_outside (offset n : Z) (c c' : list byte) : Prop :=
  length c' = length c ∧
  ∀ i : nat, ¬ (offset ≤ Z.of_nat i < offset + n) → c' !! i = c !! i.

(** The operating-system calls of the storage code.  Each takes the file and gives the call's
    answer and the file afterwards. *)
Class Os := {
  os_fallocate_keep_size : Z → File → result unit Error * File;
  os_posix_fallocate : Z → File → result unit Error * File;
  os_set_len : Z → File → result unit Error * File;
  os_pwrite_all : Z → list byte → File → result unit Error * File;
  os_seek_write : Z → list byte → File → result Z Error * File;
  os_sync_data : File → result unit Error;
  os_len : File → result Z Error;
  os_blocks : File → result Z Error;
}.

(** What their documentation says. *)
Class OsLaws `{Os} := {
  fallocate_law n f r f' : os_fallocate_keep_size n f = (r, f') →
    f_content f' = f_content f ∧ f_reserved f ≤ f_reserved f' ∧
    (r = Ok tt → n ≤ f_reserved f');
  posix_fallocate_law n f r f' : os_posix_fallocate n f = (r, f') →
    (∃ k, f_content f' = f_content f ++ replicate k x00) ∧ f_reserved f ≤ f_reserved f' ∧
    zlen (f_content f') ≤ Z.max n (zlen (f_content f)) ∧ (r = Ok tt → n ≤ f_reserved f');
  set_len_law n f r f' : os_set_len n f = (r, f') →
    (zlen (f_content f) ≤ n → f_reserved f ≤ f_reserved f') ∧
    f_content f' = match r with Ok _ => set_length n (f_content f) | Err _ => f_content f end;
  pwrite_all_law offset bs f r f' : os_pwrite_all offset bs f = (r, f') →
    0 ≤ offset → offset + zlen bs ≤ zlen (f_content f) →
    f_reserved f ≤ f_reserved f' ∧
    match r with
    | Ok _ => f_content f' = overwrite offset bs (f_content f)
    | Err _ => same_outside offset (zlen bs) (f_content f) (f_content f')
    end;
  seek_write_law offset bs f r f' : os_seek_write offset bs f = (r, f') →
    0 ≤ offset → offset + zlen bs ≤ zlen (f_content f) →
    f_reserved f ≤ f_reserved f' ∧
    match r with
    | Ok n => 0 ≤ n ≤ zlen bs ∧
        f_content f' = overwrite offset (take (Z.to_nat n) bs) (f_content f)
    | Err _ => same_outside offset (zlen bs) (f_content f) (f_content f')
    end;
  len_law f n : os_len f = Ok n → n = zlen (f_content f);
  blocks_law f n : 0 ≤ f_reserved f → os_blocks f = Ok n → 0 ≤ n ∧ n * 512 ≤ f_reserved f;
}.

Lemma overwrite_length offset bs c :
  0 ≤ offset → offset + zlen bs ≤ zlen c → length (overwrite offset bs c) = length c.
Proof.
  unfold overwrite, copy_from_slice, zlen. intros. rewrite !length_app, length_take, length_drop. lia.
Qed.
Lemma overwrite_lookup offset bs c (i : nat) :
  0 ≤ offset → offset + zlen bs ≤ zlen c →
  overwrite offset bs c !! i =
    if bool_decide (offset ≤ Z.of_nat i < offset + zlen bs)
    then bs !! (i - Z.to_nat offset)%nat else c !! i.
Proof.
  unfold overwrite, copy_from_slice, zlen. intros Ho Hb.
  assert (Htl : length (take (Z.to_nat offset) c) = Z.to_nat offset) by (rewrite length_take; lia).
  case_bool_decide as Hin.
  - rewrite lookup_app_r by lia. rewrite Htl, lookup_app_l by lia. done.
  - destruct (decide (i < Z.to_nat offset)%nat).
    + rewrite lookup_app_l by lia. by rewrite lookup_take_lt by lia.
    + rewrite lookup_app_r, Htl, lookup_app_r by lia. rewrite lookup_drop. f_equal. lia.
Qed.
Lemma overwrite_outside offset bs c :
  0 ≤ offset → offset + zlen bs ≤ zlen c → same_outside offset (zlen bs) c (overwrite offset bs c).
Proof.
  intros. split; [by apply overwrite_length|]. intros i Hi.
  rewrite overwrite_lookup by done. by rewrite bool_decide_eq_false_2.
Qed.
(** Reading back the range written. *)
Lemma overwrite_read offset bs c :
  0 ≤ offset → offset + zlen bs ≤ zlen c →
  zslice (overwrite offset bs c) offset (offset + zlen bs) = Some bs.
Proof.
  intros Ho Hb. unfold overwrite, copy_from_slice.
  apply zslice_mid; unfold zlen in *; rewrite length_take; lia.
Qed.
(** A range apart from the written one reads the same. *)
Lemma same_outside_read offset n c c' a b :
  same_outside offset n c c' → b ≤ offset ∨ offset + n ≤ a → zslice c' a b = zslice c a b.
Proof.
  intros [Hl Hs] Hd. unfold zslice, zlen. rewrite Hl. case_bool; [|done]. bool_to_prop.
  f_equal. apply list_eq. intros i.
  destruct (decide (i < Z.to_nat (b - a))%nat);
    [|by rewrite !lookup_take_ge by lia].
  rewrite !lookup_take_lt, !lookup_drop by done. apply Hs. lia.
Qed.
Lemma same_outside_refl offset n c : same_outside offset n c c.
Proof. by split. Qed.
Lemma same_outside_weaken o n o' n' c c' :
  same_outside o n c c' → o' ≤ o → o + n ≤ o' + n' → same_outside o' n' c c'.
Proof. intros [Hl Hs] ? ?. split; [done|]. intros i Hi. apply Hs. lia. Qed.
Lemma same_outside_trans o n c1 c2 c3 :
  same_outside o n c1 c2 → same_outside o n c2 c3 → same_outside o n c1 c3.
Proof. intros [? H1] [? H2]. split; [congruence|]. intros i Hi. by rewrite H2, H1. Qed.
Lemma overwrite_app offset bs1 bs2 c :
  0 ≤ offset → offset + zlen bs1 + zlen bs2 ≤ zlen c →
  overwrite (offset + zlen bs1) bs2 (overwrite offset bs1 c) = overwrite offset (bs1 ++ bs2) c.
Proof.
  intros Ho Hb. pose proof (zlen_nonneg bs1). pose proof (zlen_nonneg bs2).
  assert (Hl : zlen (overwrite offset bs1 c) = zlen c)
    by (unfold zlen at 1; rewrite overwrite_length by lia; done).
  apply list_eq. intros i. rewrite !overwrite_lookup; rewrite ?zlen_app, ?Hl; try lia.
  unfold zlen in *. repeat case_bool_decide; try lia; try done.
  - rewrite lookup_app_r by lia. f_equal. lia.
  - rewrite lookup_app_l by lia. done.
Qed.

Lemma set_length_same c : set_length (zlen c) c = c.
Proof. unfold set_length, zlen. rewrite Nat2Z.id. by apply resize_all_alt. Qed.
Lemma set_length_grow n c :
  zlen c ≤ n → set_length n c = c ++ replicate (Z.to_nat n - length c) x00.
Proof. unfold set_length, zlen. intros. apply resize_ge. lia. Qed.
Lemma zlen_set_length n c : 0 ≤ n → zlen (set_length n c) = n.
Proof. intros. unfold zlen, set_length. rewrite length_resize. lia. Qed.
Lemma set_length_app_zeros n c k :
  zlen c + Z.of_nat k ≤ n → set_length n (c ++ replicate k x00) = set_length n c.
Proof.
  intros Hn. rewrite !set_length_grow; rewrite ?zlen_app, ?zlen_replicate; try lia.
  rewrite <- app_assoc. f_equal. rewrite length_app, length_replicate.
  rewrite <- replicate_add. f_equal. unfold zlen in *. lia.
Qed.

(** An operating system that never fails and reserves what is asked. *)
Module MemoryOs.
#[export] Instance memory : Os := {|
  os_fallocate_keep_size n f := (Ok tt, MkFile (f_content f) (Z.max n (f_reserved f)));
  os_posix_fallocate n f :=
    (Ok tt, MkFile (f_content f ++ replicate (Z.to_nat n - length (f_content f)) x00)
              (Z.max n (f_reserved f)));
  os_set_len n f := (Ok tt, MkFile (set_length n (f_content f)) (f_reserved f));
  os_pwrite_all offset bs f :=
    (Ok tt, MkFile (overwrite offset bs (f_content f)) (f_reserved f));
  os_seek_write offset bs f :=
    (Ok (zlen (take 3 bs)), MkFile (overwrite offset (take 3 bs) (f_content f)) (f_reserved f));
  os_sync_data _ := Ok tt;
  os_len f := Ok (zlen (f_content f));
  os_blocks f := Ok (Z.max 0 (f_reserved f / 512));
|}.

#[export] Instance memory_laws : OsLaws.
Proof.
  split.
  - intros n f r f' [= <- <-]. cbn. split_and!; [done|lia|intros _; lia].
  - intros n f r f' [= <- <-]. cbn. split_and!; [by eexists|lia| |intros _; lia].
    zlen. unfold zlen. lia.
  - intros n f r f' [= <- <-]. done.
  - intros offset bs f r f' [= <- <-] _ _. done.
  - intros offset bs f r f' [= <- <-] _ _. cbn. split_and!; [done|zlen|zlen|].
    + pose proof (zlen_nonneg bs). lia.
    + f_equal. unfold zlen. rewrite length_take.
      destruct (decide (3 ≤ length bs)%nat).
      * by replace (Z.to_nat (Z.of_nat (3 `min` length bs))) with 3%nat by lia.
      * rewrite !take_ge by lia. done.
  - intros f n [= <-]. done.
  - intros f n Hf [= <-]. pose proof (Z.mul_div_le (f_reserved f) 512 ltac:(lia)).
    pose proof (Z.div_pos (f_reserved f) 512 Hf ltac:(lia)). lia.
Qed.
End MemoryOs.

End Io.
