(* ===== verification/Format.v ===== *)
(** * [downpour-storage/src/journal/format.rs]: the version-1 journal codec

    Little-endian headers and framed records, each protected by a CRC-32C. *)

From S2P Require Import Prelude.

Module Format.

Definition MAGIC : list byte := [x44; x50; x4a; x31]. (* b"DPJ1" *)
Definition FORMAT_VERSION : Z := 1.
Definition SUPPORTED_FLAGS : Z := 0.
Definition HEADER_CHECKSUM_OFFSET : Z := 68.
Definition RECORD_PREFIX_LEN : Z := 11.
Definition CHECKSUM_LEN : Z := 4.
Definition BLOCK_COMPLETE_PAYLOAD_LEN : Z := 44.
Definition CHECKPOINT_PAYLOAD_LEN : Z := 16.
Definition TRUNCATE_PAYLOAD_LEN : Z := 8.
Definition SEALED_PAYLOAD_LEN : Z := 32.
Definition BLOCK_COMPLETE_KIND : byte := x01.
Definition CHECKPOINT_KIND : byte := x02.
Definition IDENTITY_UPDATE_KIND : byte := x03.
Definition TRUNCATE_KIND : byte := x04.
Definition SEALED_KIND : byte := x05.
Definition HEADER_LEN : Z := 72.
Definition MAX_PAYLOAD_LEN : Z := 65535.

Record FileHeader := FileHeader_new {
  h_transfer_id : list byte; (* [u8; 16] *)
  h_total_length : Z;
  h_block_size : Z;
  h_validator_hash : list byte; (* [u8; 32] *)
}.
#[export] Instance FileHeader_eq_dec : EqDecision FileHeader.
Proof. solve_decision. Defined.

Inductive JournalRecord :=
| BlockComplete (offset len : Z) (blake3 : list byte)
| Checkpoint (covered_bytes wall_clock : Z)
| IdentityUpdate (cbor : list byte)
| Truncate (new_length : Z)
| Sealed (final_blake3 : list byte).
#[export] Instance JournalRecord_eq_dec : EqDecision JournalRecord.
Proof. solve_decision. Defined.

Record FramedRecord := FramedRecord_new { fr_sequence : Z; fr_record : JournalRecord }.
#[export] Instance FramedRecord_eq_dec : EqDecision FramedRecord.
Proof. solve_decision. Defined.

Inductive FormatError :=
| Truncated (needed actual : Z)
| InvalidMagic (found : list byte)
| HeaderChecksumMismatch (stored computed : Z)
| UnsupportedVersion (found supported : Z)
| UnsupportedFlags (found : Z)
| RecordChecksumMismatch (sequence stored computed : Z)
| UnknownRecordKind (found : byte)
| InvalidPayloadLength (kind : byte) (expected actual : Z)
| PayloadTooLarge (actual maximum : Z).
#[export] Instance FormatError_eq_dec : EqDecision FormatError.
Proof. solve_decision. Defined.

(** ** Reading fields *)

Definition require_len (bytes : list byte) (needed : Z) : result unit FormatError :=
  if needed <=? zlen bytes then Ok tt else Err (Truncated needed (zlen bytes)).

Definition byte_at (bytes : list byte) (offset : Z) : result byte FormatError :=
  ok_or (bytes !! Z.to_nat offset) (Truncated (saturating_add64 offset 1) (zlen bytes)).

(** [array_at::<N>]; [<[u8; N]>::try_from] fails on a slice of another length. *)
Definition array_at (N : Z) (bytes : list byte) (offset : Z)
    : result (list byte) FormatError :=
  let? e := ok_or (checked_add64 offset N) (Truncated u64_max (zlen bytes)) in
  let? slice := ok_or (zslice bytes offset e) (Truncated e (zlen bytes)) in
  if zlen slice =? N then Ok slice else Err (Truncated e (zlen bytes)).

Definition read_u16 (bytes : list byte) (offset : Z) : result Z FormatError :=
  let? a := array_at 2 bytes offset in Ok (from_le_bytes a).
Definition read_u32 (bytes : list byte) (offset : Z) : result Z FormatError :=
  let? a := array_at 4 bytes offset in Ok (from_le_bytes a).
Definition read_u64 (bytes : list byte) (offset : Z) : result Z FormatError :=
  let? a := array_at 8 bytes offset in Ok (from_le_bytes a).

Definition require_payload_len (kind : byte) (payload : list byte) (expected : Z)
    : result unit FormatError :=
  if zlen payload =? expected then Ok tt
  else Err (InvalidPayloadLength kind expected (zlen payload)).

(** ** Payloads *)

Definition encode_payload (record : JournalRecord) : byte * list byte :=
  match record with
  | BlockComplete offset len blake3 =>
      (BLOCK_COMPLETE_KIND, to_le_bytes 8 offset ++ to_le_bytes 4 len ++ blake3)
  | Checkpoint covered_bytes wall_clock =>
      (CHECKPOINT_KIND, to_le_bytes 8 covered_bytes ++ to_le_bytes 8 wall_clock)
  | IdentityUpdate cbor => (IDENTITY_UPDATE_KIND, cbor)
  | Truncate new_length => (TRUNCATE_KIND, to_le_bytes 8 new_length)
  | Sealed final_blake3 => (SEALED_KIND, final_blake3)
  end.

Definition decode_payload (kind : byte) (payload : list byte)
    : result JournalRecord FormatError :=
  if bool_decide (kind = BLOCK_COMPLETE_KIND) then
    let? _ := require_payload_len kind payload BLOCK_COMPLETE_PAYLOAD_LEN in
    let? offset := read_u64 payload 0 in
    let? len := read_u32 payload 8 in
    let? blake3 := array_at 32 payload 12 in
    Ok (BlockComplete offset len blake3)
  else if bool_decide (kind = CHECKPOINT_KIND) then
    let? _ := require_payload_len kind payload CHECKPOINT_PAYLOAD_LEN in
    let? covered_bytes := read_u64 payload 0 in
    let? wall_clock := read_u64 payload 8 in
    Ok (Checkpoint covered_bytes wall_clock)
  else if bool_decide (kind = IDENTITY_UPDATE_KIND) then Ok (IdentityUpdate payload)
  else if bool_decide (kind = TRUNCATE_KIND) then
    let? _ := require_payload_len kind payload TRUNCATE_PAYLOAD_LEN in
    let? new_length := read_u64 payload 0 in
    Ok (Truncate new_length)
  else if bool_decide (kind = SEALED_KIND) then
    let? _ := require_payload_len kind payload SEALED_PAYLOAD_LEN in
    let? final_blake3 := array_at 32 payload 0 in
    Ok (Sealed final_blake3)
  else Err (UnknownRecordKind kind).

Section codec.
Context `{Checksum}.

Definition checksum (bytes : list byte) : Z := crc32c bytes.

(** ** The file header *)

Definition FileHeader_encode (h : FileHeader) : list byte :=
  let encoded := replicate 72 x00 in
  let encoded := copy_from_slice encoded 0 MAGIC in
  let encoded := copy_from_slice encoded 4 (to_le_bytes 2 FORMAT_VERSION) in
  let encoded := copy_from_slice encoded 6 (to_le_bytes 2 SUPPORTED_FLAGS) in
  let encoded := copy_from_slice encoded 8 (h_transfer_id h) in
  let encoded := copy_from_slice encoded 24 (to_le_bytes 8 (h_total_length h)) in
  let encoded := copy_from_slice encoded 32 (to_le_bytes 4 (h_block_size h)) in
  let encoded := copy_from_slice encoded 36 (h_validator_hash h) in
  let sum := checksum (take 68 encoded) in
  copy_from_slice encoded 68 (to_le_bytes 4 sum).

Definition FileHeader_decode (encoded : list byte) : result FileHeader FormatError :=
  let? _ := require_len encoded HEADER_LEN in
  let? magic := array_at 4 encoded 0 in
  if negb (bool_decide (magic = MAGIC)) then Err (InvalidMagic magic) else
  let? stored_checksum := read_u32 encoded HEADER_CHECKSUM_OFFSET in
  let computed_checksum := checksum (take 68 encoded) in
  if negb (stored_checksum =? computed_checksum)
  then Err (HeaderChecksumMismatch stored_checksum computed_checksum) else
  let? version := read_u16 encoded 4 in
  if negb (version =? FORMAT_VERSION) then Err (UnsupportedVersion version FORMAT_VERSION) else
  let? flags := read_u16 encoded 6 in
  if negb (flags =? SUPPORTED_FLAGS) then Err (UnsupportedFlags flags) else
  let? transfer_id := array_at 16 encoded 8 in
  let? total_length := read_u64 encoded 24 in
  let? block_size := read_u32 encoded 32 in
  let? validator_hash := array_at 32 encoded 36 in
  Ok (FileHeader_new transfer_id total_length block_size validator_hash).

(** ** Framed records *)

Definition FramedRecord_encode (r : FramedRecord) : result (list byte) FormatError :=
  let '(kind, payload) := encode_payload (fr_record r) in
  if MAX_PAYLOAD_LEN <? zlen payload
  then Err (PayloadTooLarge (zlen payload) MAX_PAYLOAD_LEN) else
  let? payload_len :=
    (if zlen payload <? u16_modulus then Ok (zlen payload)
     else Err (PayloadTooLarge (zlen payload) MAX_PAYLOAD_LEN)) in
  let encoded := to_le_bytes 8 (fr_sequence r) ++ [kind] ++ to_le_bytes 2 payload_len
                   ++ payload in
  Ok (encoded ++ to_le_bytes 4 (checksum encoded)).

Definition FramedRecord_decode_prefix (encoded : list byte)
    : result (FramedRecord * Z) FormatError :=
  let? _ := require_len encoded RECORD_PREFIX_LEN in
  let? sequence := read_u64 encoded 0 in
  let? kind := byte_at encoded 8 in
  let? payload_len := read_u16 encoded 9 in
  let? checksum_offset :=
    ok_or (checked_add64 RECORD_PREFIX_LEN payload_len) (Truncated u64_max (zlen encoded)) in
  let? frame_len :=
    ok_or (checked_add64 checksum_offset CHECKSUM_LEN) (Truncated u64_max (zlen encoded)) in
  let? _ := require_len encoded frame_len in
  let? stored_checksum := read_u32 encoded checksum_offset in
  let computed_checksum := checksum (take (Z.to_nat checksum_offset) encoded) in
  if negb (stored_checksum =? computed_checksum)
  then Err (RecordChecksumMismatch sequence stored_checksum computed_checksum) else
  let? payload :=
    ok_or (zslice encoded RECORD_PREFIX_LEN checksum_offset)
      (Truncated checksum_offset (zlen encoded)) in
  let? record := decode_payload kind payload in
  Ok (FramedRecord_new sequence record, frame_len).

End codec.
#[global] Arguments FileHeader_encode {_} _ : simpl never.
#[global] Arguments FramedRecord_encode {_} _ : simpl never.
#[global] Arguments FramedRecord_decode_prefix {_} _ : simpl never.

(** ** Values the types of the source can hold *)

Definition wf_header (h : FileHeader) : Prop :=
  zlen (h_transfer_id h) = 16 ∧ u64 (h_total_length h) ∧ u32 (h_block_size h) ∧
  zlen (h_validator_hash h) = 32.

Definition wf_record (r : JournalRecord) : Prop :=
  match r with
  | BlockComplete offset len blake3 => u64 offset ∧ u32 len ∧ zlen blake3 = 32
  | Checkpoint covered_bytes wall_clock => u64 covered_bytes ∧ u64 wall_clock
  | IdentityUpdate cbor => u64 (zlen cbor)
  | Truncate new_length => u64 new_length
  | Sealed final_blake3 => zlen final_blake3 = 32
  end.

Definition wf_framed (r : FramedRecord) : Prop := u64 (fr_sequence r) ∧ wf_record (fr_record r).

(** ** Field lemmas *)

Lemma array_at_mid N a b c off :
  off = zlen a → N = zlen b → off + N < u64_modulus → array_at N (a ++ b ++ c) off = Ok b.
Proof.
  intros -> -> Hb. unfold array_at, checked_add64.
  destruct (Z.ltb_spec (zlen a + zlen b) u64_modulus); [|lia]. cbn [ok_or].
  rewrite (zslice_mid a b c) by done. cbn [ok_or]. by rewrite Z.eqb_refl.
Qed.

Lemma array_at_head N b c : N = zlen b → N < u64_modulus → array_at N (b ++ c) 0 = Ok b.
Proof. intros. by apply (array_at_mid N [] b c). Qed.

Lemma array_at_tail N a b off :
  off = zlen a → N = zlen b → off + N < u64_modulus → array_at N (a ++ b) off = Ok b.
Proof. intros. rewrite <- (app_nil_r b) at 1. by apply array_at_mid. Qed.

Lemma array_at_Ok N bs off s :
  array_at N bs off = Ok s → zslice bs off (off + N) = Some s ∧ zlen s = N.
Proof.
  unfold array_at. destruct (checked_add64 off N) as [e|] eqn:E; [|done]. cbn [ok_or].
  apply checked_add64_Some in E as [-> _].
  destruct (zslice bs off (off + N)) as [x|] eqn:S; [|done]. cbn [ok_or].
  apply zslice_len in S as Hl. case_bool; [|done]. bool_to_prop. intros [= <-]. by split.
Qed.

Lemma array_at_in N bs off :
  0 ≤ N → 0 ≤ off → off + N ≤ zlen bs → off + N < u64_modulus →
  ∃ s, array_at N bs off = Ok s ∧ zslice bs off (off + N) = Some s.
Proof.
  intros ? ? ? Hb. unfold array_at, checked_add64.
  destruct (Z.ltb_spec (off + N) u64_modulus); [|lia]. cbn [ok_or].
  destruct (zslice bs off (off + N)) as [s|] eqn:E.
  - apply zslice_len in E as Hl. cbn [ok_or].
    destruct (Z.eqb_spec (zlen s) N); [by exists s|lia].
  - apply zslice_None in E. lia.
Qed.

Lemma read_u64_head x c : u64 x → read_u64 (to_le_bytes 8 x ++ c) 0 = Ok x.
Proof.
  intros Hx. unfold read_u64. rewrite array_at_head by (rewrite ?zlen_to_le_bytes; done || ulia).
  rewrite from_to_le_bytes; [done|ulia].
Qed.

Lemma le_value_mid n x a c off :
  0 ≤ x < 256 ^ Z.of_nat n → off = zlen a → off + Z.of_nat n < u64_modulus →
  (let? s := array_at (Z.of_nat n) (a ++ to_le_bytes n x ++ c) off in
   Ok (E := FormatError) (from_le_bytes s)) = Ok x.
Proof.
  intros Hx Ho Hb. rewrite array_at_mid; [|done|by rewrite zlen_to_le_bytes|done].
  by rewrite from_to_le_bytes.
Qed.

Lemma read_u64_mid x a c off :
  u64 x → off = zlen a → off + 8 < u64_modulus → read_u64 (a ++ to_le_bytes 8 x ++ c) off = Ok x.
Proof. intros. apply (le_value_mid 8); [|done..]. ulia. Qed.
Lemma read_u32_mid x a c off :
  u32 x → off = zlen a → off + 4 < u64_modulus → read_u32 (a ++ to_le_bytes 4 x ++ c) off = Ok x.
Proof. intros. apply (le_value_mid 4); [|done..]. ulia. Qed.
Lemma read_u16_mid x a c off :
  u16 x → off = zlen a → off + 2 < u64_modulus → read_u16 (a ++ to_le_bytes 2 x ++ c) off = Ok x.
Proof. intros. apply (le_value_mid 2); [|done..]. ulia. Qed.

Lemma read_le_Ok n bs off x :
  (let? s := array_at (Z.of_nat n) bs off in Ok (E := FormatError) (from_le_bytes s)) = Ok x →
  zslice bs off (off + Z.of_nat n) = Some (to_le_bytes n x) ∧ 0 ≤ x < 256 ^ Z.of_nat n.
Proof.
  destruct (array_at _ _ _) as [s|] eqn:E; [|done]. intros [= <-].
  apply array_at_Ok in E as [Hs Hl]. rewrite to_from_le_bytes' by done. split; [done|].
  pose proof (from_le_bytes_range s) as Hr. by rewrite <- Hl.
Qed.
Lemma read_u64_Ok bs off x :
  read_u64 bs off = Ok x → zslice bs off (off + 8) = Some (to_le_bytes 8 x) ∧ u64 x.
Proof. intros [? ?]%(read_le_Ok 8). split; [done|ulia]. Qed.
Lemma read_u32_Ok bs off x :
  read_u32 bs off = Ok x → zslice bs off (off + 4) = Some (to_le_bytes 4 x) ∧ u32 x.
Proof. intros [? ?]%(read_le_Ok 4). split; [done|ulia]. Qed.
Lemma read_u16_Ok bs off x :
  read_u16 bs off = Ok x → zslice bs off (off + 2) = Some (to_le_bytes 2 x) ∧ u16 x.
Proof. intros [? ?]%(read_le_Ok 2). split; [done|ulia]. Qed.

(** A field at the start of what is left after [a]. *)
Lemma byte_at_mid a b c off : off = zlen a → byte_at (a ++ b :: c) off = Ok b.
Proof.
  intros ->. unfold byte_at, zlen. rewrite Nat2Z.id, list_lookup_middle by done. done.
Qed.

Section codec_facts.
Context `{Checksum}.

(** ** Layout *)

Definition header_body (h : FileHeader) : list byte :=
  MAGIC ++ to_le_bytes 2 FORMAT_VERSION ++ to_le_bytes 2 SUPPORTED_FLAGS ++ h_transfer_id h ++
  to_le_bytes 8 (h_total_length h) ++ to_le_bytes 4 (h_block_size h) ++ h_validator_hash h.

Lemma zlen_header_body h : wf_header h → zlen (header_body h) = 68.
Proof. intros (Ht & _ & _ & Hv). unfold header_body. zlen. rewrite Ht, Hv. done. Qed.

Lemma copy_step (p : list byte) (n k : nat) (bs : list byte) (n' : nat) :
  k = length p → (length bs + n' = n)%nat →
  copy_from_slice (p ++ replicate n x00) k bs = (p ++ bs) ++ replicate n' x00.
Proof.
  intros -> <-. rewrite copy_into_zeros by lia. do 2 f_equal. lia.
Qed.

Lemma header_encode_layout h :
  wf_header h →
  FileHeader_encode h = header_body h ++ to_le_bytes 4 (checksum (header_body h)).
Proof.
  intros Hwf. pose proof (zlen_header_body h Hwf) as Hbody. unfold zlen in Hbody.
  destruct Hwf as (Ht & _ & _ & Hv). unfold zlen in *.
  unfold FileHeader_encode. change (replicate 72 x00) with ([] ++ replicate 72 x00).
  assert (Hm : length MAGIC = 4%nat) by done.
  rewrite (copy_step [] 72 0 MAGIC 68) by done.
  rewrite (copy_step ([] ++ MAGIC) 68 4 _ 66) by (len; cbn; lia).
  rewrite (copy_step _ 66 6 _ 64) by (len; cbn; lia).
  rewrite (copy_step _ 64 8 _ 48) by (len; cbn; lia).
  rewrite (copy_step _ 48 24 _ 40) by (len; cbn; lia).
  rewrite (copy_step _ 40 32 _ 36) by (len; cbn; lia).
  rewrite (copy_step _ 36 36 _ 4) by (len; cbn; lia).
  rewrite <- !app_assoc. change ([] ++ ?l) with l.
  assert (Hb : MAGIC ++ to_le_bytes 2 FORMAT_VERSION ++ to_le_bytes 2 SUPPORTED_FLAGS ++
    h_transfer_id h ++ to_le_bytes 8 (h_total_length h) ++ to_le_bytes 4 (h_block_size h) ++
    h_validator_hash h ++ replicate 4 x00 = header_body h ++ replicate 4 x00).
  { unfold header_body. by rewrite <- !app_assoc. }
  rewrite Hb. rewrite take_app_length' by lia.
  rewrite (copy_step (header_body h) 4 68 _ 0) by (len; lia).
  cbn [replicate]. by rewrite app_nil_r.
Qed.

Lemma zlen_header_encode h : wf_header h → zlen (FileHeader_encode h) = HEADER_LEN.
Proof. intros Hwf. rewrite header_encode_layout by done. zlen. by rewrite zlen_header_body. Qed.

(** ** Header round trip *)

Lemma header_roundtrip h rest :
  wf_header h → FileHeader_decode (FileHeader_encode h ++ rest) = Ok h.
Proof.
  intros Hwf. pose proof (zlen_header_body h Hwf) as Hbody.
  pose proof (zlen_nonneg rest).
  rewrite header_encode_layout by done. unfold FileHeader_decode.
  assert (Hlen : zlen ((header_body h ++ to_le_bytes 4 (checksum (header_body h))) ++ rest)
    = 72 + zlen rest) by zlen.
  unfold require_len, HEADER_LEN. rewrite Hlen.
  destruct (Z.leb_spec 72 (72 + zlen rest)); [|lia].
  rewrite <- app_assoc.
  assert (Htake : take 68 (header_body h ++ to_le_bytes 4 (checksum (header_body h)) ++ rest)
    = header_body h) by (rewrite take_app_length'; unfold zlen in *; [done|lia]).
  rewrite Htake.
  unfold HEADER_CHECKSUM_OFFSET.
  rewrite (read_u32_mid (checksum (header_body h)) (header_body h) rest)
    by (try apply crc32c_u32; ulia).
  rewrite Z.eqb_refl. cbn [negb].
  destruct Hwf as (Ht & Hl & Hb & Hv).
  unfold header_body. rewrite <- !app_assoc.
  remember (checksum _) as sum eqn:Hsum. clear Hsum Htake Hlen.
  rewrite (array_at_head 4 MAGIC) by (done || ulia).
  rewrite bool_decide_eq_true_2 by done. cbn [negb].
  rewrite (read_u16_mid FORMAT_VERSION MAGIC) by (done || (unfold FORMAT_VERSION; ulia)).
  rewrite Z.eqb_refl. cbn [negb].
  rewrite (app_assoc MAGIC).
  rewrite (read_u16_mid SUPPORTED_FLAGS (MAGIC ++ to_le_bytes 2 FORMAT_VERSION))
    by (done || (unfold SUPPORTED_FLAGS; ulia)).
  rewrite Z.eqb_refl. cbn [negb].
  rewrite (app_assoc _ (to_le_bytes 2 SUPPORTED_FLAGS)).
  rewrite (array_at_mid 16 _ (h_transfer_id h)) by (done || ulia).
  rewrite (app_assoc _ (h_transfer_id h)).
  rewrite (read_u64_mid (h_total_length h)) by (try done; zlen; rewrite ?Ht; done || ulia).
  rewrite (app_assoc _ (to_le_bytes 8 (h_total_length h))).
  rewrite (read_u32_mid (h_block_size h)) by (try done; zlen; rewrite ?Ht; done || ulia).
  rewrite (app_assoc _ (to_le_bytes 4 (h_block_size h))).
  rewrite (array_at_mid 32 _ (h_validator_hash h)) by (try done; zlen; rewrite ?Ht; done || ulia).
  by destruct h.
Qed.

Lemma require_len_Ok bs n u : require_len bs n = Ok u → n ≤ zlen bs.
Proof. unfold require_len. case_bool; [|done]. bool_to_prop. done. Qed.

Lemma header_decode_Ok bs h :
  FileHeader_decode bs = Ok h →
  wf_header h ∧ HEADER_LEN ≤ zlen bs ∧ take 72 bs = FileHeader_encode h.
Proof.
  unfold FileHeader_decode. intros Hd.
  destruct (require_len bs HEADER_LEN) as [u|] eqn:Hlen; [|done]. apply require_len_Ok in Hlen.
  destruct (array_at 4 bs 0) as [magic|] eqn:Hm; [|done]. apply array_at_Ok in Hm as [Hm _].
  case_bool_decide as Hmagic; [subst|done]. cbn [negb] in Hd.
  destruct (read_u32 bs _) as [stored|] eqn:Hs; [|done]. apply read_u32_Ok in Hs as [Hs _].
  destruct (stored =? _) eqn:Hc; [|done]. cbn [negb] in Hd. bool_to_prop. subst stored.
  destruct (read_u16 bs 4) as [v|] eqn:Hv; [|done]. apply read_u16_Ok in Hv as [Hv _].
  destruct (v =? _) eqn:Hve; [|done]. cbn [negb] in Hd. bool_to_prop. subst v.
  destruct (read_u16 bs 6) as [fl|] eqn:Hf; [|done]. apply read_u16_Ok in Hf as [Hf _].
  destruct (fl =? _) eqn:Hfe; [|done]. cbn [negb] in Hd. bool_to_prop. subst fl.
  destruct (array_at 16 bs 8) as [tid|] eqn:Ht; [|done]. apply array_at_Ok in Ht as [Ht Htl].
  destruct (read_u64 bs 24) as [tl|] eqn:Hl; [|done]. apply read_u64_Ok in Hl as [Hl Hlu].
  destruct (read_u32 bs 32) as [bl|] eqn:Hb; [|done]. apply read_u32_Ok in Hb as [Hb Hbu].
  destruct (array_at 32 bs 36) as [vh|] eqn:Hh; [|done]. apply array_at_Ok in Hh as [Hh Hhl].
  injection Hd as <-. assert (Hwf : wf_header (FileHeader_new tid tl bl vh)) by by split_and!.
  split_and!; [done..|]. rewrite header_encode_layout by done.
  assert (Hbody : zslice bs 0 68 = Some (header_body (FileHeader_new tid tl bl vh))).
  { unfold header_body.
    cbn [h_transfer_id h_total_length h_block_size h_validator_hash Z.add Pos.add] in *.
    do 6 (eapply zslice_join; [eassumption|]). exact Hh. }
  pose proof (zslice_join _ _ _ _ _ _ Hbody Hs) as Hall.
  apply zslice_prefix in Hbody as [_ Hbody]. change (Z.to_nat 68) with 68%nat in Hbody.
  rewrite <- Hbody in Hall. apply zslice_prefix in Hall as [_ Hall].
  by rewrite Hall.
Qed.

(** ** Record round trip *)

Lemma payload_roundtrip r :
  wf_record r → let '(kind, payload) := encode_payload r in decode_payload kind payload = Ok r.
Proof.
  destruct r as [off ln bk|cov wc|cbor|nl|fb]; cbn [encode_payload wf_record]; intros Hwf;
    unfold decode_payload; eval_decide.
  - destruct Hwf as (Ho & Hl & Hb).
    unfold require_payload_len, BLOCK_COMPLETE_PAYLOAD_LEN.
    replace (zlen (to_le_bytes 8 off ++ to_le_bytes 4 ln ++ bk)) with 44 by (zlen; rewrite Hb; done).
    cbn [Z.eqb Pos.eqb].
    rewrite (read_u64_head off _ Ho).
    rewrite (read_u32_mid ln (to_le_bytes 8 off) bk 8 Hl) by (done || ulia).
    rewrite app_assoc, (array_at_tail 32); [done|by zlen|by rewrite Hb|ulia].
  - destruct Hwf as [Hc Hw].
    unfold require_payload_len. zlen. cbn [Z.eqb].
    replace (_ =? CHECKPOINT_PAYLOAD_LEN) with true by done.
    rewrite (read_u64_head cov _ Hc).
    rewrite <- (app_nil_r (to_le_bytes 8 wc)).
    by rewrite (read_u64_mid wc (to_le_bytes 8 cov) [] 8 Hw) by (done || ulia).
  - done.
  - unfold require_payload_len. zlen.
    replace (_ =? TRUNCATE_PAYLOAD_LEN) with true by done.
    rewrite <- (app_nil_r (to_le_bytes 8 nl)).
    by rewrite (read_u64_head nl [] Hwf).
  - unfold require_payload_len. rewrite Hwf. cbn.
    by rewrite (array_at_tail 32 [] fb) by (done || ulia).
Qed.

Lemma require_payload_len_Ok k p n u : require_payload_len k p n = Ok u → zlen p = n.
Proof. unfold require_payload_len. case_bool; [|done]. by bool_to_prop. Qed.

Lemma zslice_whole (l : list byte) n x : zlen l = n → zslice l 0 n = Some x → x = l.
Proof.
  intros <- [_ ->]%zslice_prefix. unfold zlen. rewrite Nat2Z.id. apply firstn_all.
Qed.

Lemma payload_decode_Ok kind payload r :
  u64 (zlen payload) → decode_payload kind payload = Ok r →
  wf_record r ∧ encode_payload r = (kind, payload).
Proof.
  unfold decode_payload. intros Hu. repeat case_bool_decide; subst; try done.
  - destruct (require_payload_len _ _ _) eqn:Hl; [|done]. apply require_payload_len_Ok in Hl.
    destruct (read_u64 payload 0) as [off|] eqn:Ho; [|done]. apply read_u64_Ok in Ho as [Ho ?].
    destruct (read_u32 payload 8) as [ln|] eqn:Hn; [|done]. apply read_u32_Ok in Hn as [Hn ?].
    destruct (array_at 32 payload 12) as [bk|] eqn:Hb; [|done]. apply array_at_Ok in Hb as [Hb ?].
    intros [= <-]. split; [done|]. cbn [encode_payload]. f_equal. apply (zslice_whole _ _ _ Hl).
    eapply zslice_join; [exact Ho|]. eapply zslice_join; [exact Hn|exact Hb].
  - destruct (require_payload_len _ _ _) eqn:Hl; [|done]. apply require_payload_len_Ok in Hl.
    destruct (read_u64 payload 0) as [cov|] eqn:Ho; [|done]. apply read_u64_Ok in Ho as [Ho ?].
    destruct (read_u64 payload 8) as [wc|] eqn:Hn; [|done]. apply read_u64_Ok in Hn as [Hn ?].
    intros [= <-]. split; [done|]. cbn [encode_payload]. f_equal. apply (zslice_whole _ _ _ Hl).
    eapply zslice_join; [exact Ho|exact Hn].
  - intros [= <-]. by split.
  - destruct (require_payload_len _ _ _) eqn:Hl; [|done]. apply require_payload_len_Ok in Hl.
    destruct (read_u64 payload 0) as [nl|] eqn:Ho; [|done]. apply read_u64_Ok in Ho as [Ho ?].
    intros [= <-]. split; [done|]. cbn [encode_payload]. f_equal. by apply (zslice_whole _ _ _ Hl).
  - destruct (require_payload_len _ _ _) eqn:Hl; [|done]. apply require_payload_len_Ok in Hl.
    destruct (array_at 32 payload 0) as [fb|] eqn:Hb; [|done]. apply array_at_Ok in Hb as [Hb ?].
    intros [= <-]. split; [done|]. cbn [encode_payload]. f_equal. by apply (zslice_whole _ _ _ Hl).
Qed.

(** ** Frames *)

Definition payload_of (r : FramedRecord) : list byte := snd (encode_payload (fr_record r)).
Definition kind_of (r : FramedRecord) : byte := fst (encode_payload (fr_record r)).

Definition frame_body (r : FramedRecord) : list byte :=
  to_le_bytes 8 (fr_sequence r) ++ [kind_of r] ++ to_le_bytes 2 (zlen (payload_of r)) ++
  payload_of r.
(** The bytes of a frame whose payload fits. *)
Definition frame_bytes (r : FramedRecord) : list byte :=
  frame_body r ++ to_le_bytes 4 (checksum (frame_body r)).

(** A record that fits the [u16] length field. *)
Definition fits (r : FramedRecord) : Prop := zlen (payload_of r) ≤ MAX_PAYLOAD_LEN.

Lemma encode_cases r :
  FramedRecord_encode r =
    if zlen (payload_of r) <=? MAX_PAYLOAD_LEN then Ok (frame_bytes r)
    else Err (PayloadTooLarge (zlen (payload_of r)) MAX_PAYLOAD_LEN).
Proof.
  unfold FramedRecord_encode, frame_bytes, frame_body, payload_of, kind_of.
  destruct (encode_payload (fr_record r)) as [kind payload]. cbn [fst snd].
  unfold MAX_PAYLOAD_LEN. rewrite Z.leb_antisym.
  destruct (Z.ltb_spec 65535 (zlen payload)); [done|]. cbn [negb].
  destruct (Z.ltb_spec (zlen payload) u16_modulus); [done|ulia].
Qed.

Lemma encode_Ok r bs : FramedRecord_encode r = Ok bs ↔ fits r ∧ bs = frame_bytes r.
Proof.
  rewrite encode_cases. unfold fits. case_bool; bool_to_prop.
  - split; [by intros [= ->]|by intros [_ ->]].
  - split; [done|lia].
Qed.

Lemma zlen_frame_body r : zlen (frame_body r) = 11 + zlen (payload_of r).
Proof. unfold frame_body. zlen. Qed.
Lemma zlen_frame_bytes r : zlen (frame_bytes r) = 15 + zlen (payload_of r).
Proof. unfold frame_bytes. zlen. rewrite zlen_frame_body. lia. Qed.

Lemma frame_roundtrip r rest :
  wf_framed r → fits r →
  FramedRecord_decode_prefix (frame_bytes r ++ rest) = Ok (r, zlen (frame_bytes r)).
Proof.
  intros [Hseq Hrec] Hfits. unfold fits, MAX_PAYLOAD_LEN in Hfits.
  pose proof (zlen_nonneg rest). pose proof (zlen_nonneg (payload_of r)).
  pose proof (zlen_frame_body r) as Hbody. pose proof (zlen_frame_bytes r) as Hbytes.
  assert (Hshape : frame_bytes r ++ rest =
    to_le_bytes 8 (fr_sequence r) ++ kind_of r :: to_le_bytes 2 (zlen (payload_of r)) ++
    payload_of r ++ to_le_bytes 4 (checksum (frame_body r)) ++ rest).
  { unfold frame_bytes, frame_body. cbn [app]. rewrite <- !app_assoc. cbn [app].
    by rewrite <- !app_assoc. }
  unfold FramedRecord_decode_prefix, require_len.
  rewrite zlen_app, Hbytes. unfold RECORD_PREFIX_LEN.
  destruct (Z.leb_spec 11 (15 + zlen (payload_of r) + zlen rest)); [|lia].
  rewrite Hshape at 1. rewrite read_u64_head by done.
  rewrite Hshape at 1. rewrite byte_at_mid by done.
  rewrite Hshape at 1. cbn [app]. rewrite cons_middle, app_assoc.
  rewrite read_u16_mid by (done || ulia).
  unfold checked_add64. destruct (Z.ltb_spec (11 + zlen (payload_of r)) u64_modulus); [|ulia].
  cbn [ok_or]. unfold CHECKSUM_LEN.
  destruct (Z.ltb_spec (11 + zlen (payload_of r) + 4) u64_modulus); [|ulia]. cbn [ok_or].
  destruct (Z.leb_spec (11 + zlen (payload_of r) + 4) (15 + zlen (payload_of r) + zlen rest));
    [|lia].
  unfold frame_bytes. rewrite <- app_assoc.
  rewrite read_u32_mid by (try apply crc32c_u32; ulia).
  rewrite take_app_length' by (unfold zlen in *; lia). rewrite Z.eqb_refl. cbn [negb].
  unfold frame_body at 1. rewrite <- !app_assoc.
  rewrite (app_assoc _ [kind_of r]), (app_assoc _ (to_le_bytes 2 _)).
  rewrite (zslice_mid _ (payload_of r)) by (zlen; done || lia). cbn [ok_or].
  pose proof (payload_roundtrip (fr_record r) Hrec) as Hp.
  unfold payload_of, kind_of in *. destruct (encode_payload (fr_record r)) as [k p].
  cbn [fst snd] in *. rewrite Hp. destruct r. cbn. do 2 f_equal. lia.
Qed.

Lemma frame_decode_Ok bs r n :
  FramedRecord_decode_prefix bs = Ok (r, n) →
  wf_framed r ∧ fits r ∧ n = zlen (frame_bytes r) ∧ n ≤ zlen bs ∧
  take (Z.to_nat n) bs = frame_bytes r.
Proof.
  unfold FramedRecord_decode_prefix. intros Hd.
  destruct (require_len bs RECORD_PREFIX_LEN) eqn:Hlen; [|done]. apply require_len_Ok in Hlen.
  destruct (read_u64 bs 0) as [seq|] eqn:Hseq; [|done]. apply read_u64_Ok in Hseq as [Hseq ?].
  destruct (byte_at bs 8) as [kind|] eqn:Hk; [|done].
  destruct (read_u16 bs 9) as [pl|] eqn:Hpl; [|done]. apply read_u16_Ok in Hpl as [Hpl Hplu].
  destruct (checked_add64 RECORD_PREFIX_LEN pl) as [co|] eqn:Hco; [|done].
  apply checked_add64_Some in Hco as [-> _]. cbn [ok_or] in Hd.
  destruct (checked_add64 _ CHECKSUM_LEN) as [fl|] eqn:Hfl; [|done].
  apply checked_add64_Some in Hfl as [-> _]. cbn [ok_or] in Hd.
  destruct (require_len bs _) eqn:Hlen2 in Hd; [|done]. apply require_len_Ok in Hlen2.
  destruct (read_u32 bs _) as [stored|] eqn:Hst; [|done]. apply read_u32_Ok in Hst as [Hst _].
  destruct (stored =? _) eqn:Hc; [|done]. bool_to_prop. subst stored. cbn [negb] in Hd.
  destruct (zslice bs _ _) as [p|] eqn:Hp in Hd; [|done]. cbn [ok_or] in Hd.
  destruct (decode_payload kind p) as [rec|] eqn:Hrec; [|done]. injection Hd as <- <-.
  unfold RECORD_PREFIX_LEN, CHECKSUM_LEN in *. pose proof (zslice_len _ _ _ _ Hp) as Hplen.
  apply payload_decode_Ok in Hrec as [Hwf Henc]; [|ulia].
  assert (Hpo : payload_of (FramedRecord_new seq rec) = p) by (unfold payload_of; cbn; by rewrite Henc).
  assert (Hko : kind_of (FramedRecord_new seq rec) = kind) by (unfold kind_of; cbn; by rewrite Henc).
  assert (Hkind : zslice bs 8 9 = Some [kind]).
  { unfold byte_at, ok_or in Hk. destruct (bs !! Z.to_nat 8) eqn:E; [|done]. simplify_eq.
    apply zslice_Some. split_and!; [lia..|]. change (Z.to_nat (9 - 8)) with 1%nat.
    by rewrite (drop_S _ _ _ E). }
  assert (Hbody : zslice bs 0 (11 + pl) = Some (frame_body (FramedRecord_new seq rec))).
  { unfold frame_body. rewrite Hpo, Hko. cbn [fr_sequence].
    replace (zlen p) with pl by lia.
    eapply zslice_join; [exact Hseq|]. eapply zslice_join; [exact Hkind|].
    eapply zslice_join; [exact Hpl|exact Hp]. }
  pose proof (zslice_join _ _ _ _ _ _ Hbody Hst) as Hall.
  apply zslice_prefix in Hbody as [_ Hbody]. rewrite <- Hbody in Hall.
  change (frame_body _ ++ _) with (frame_bytes (FramedRecord_new seq rec)) in Hall.
  apply zslice_prefix in Hall as [_ Hall].
  rewrite zlen_frame_bytes, Hpo.
  split_and!; [done| |lia|lia|done].
  unfold fits, MAX_PAYLOAD_LEN. rewrite Hpo. ulia.
Qed.

(** Every strict prefix of a frame is reported as truncated. *)
Lemma frame_prefix_truncated r bs :
  fits r → bs `prefix_of` frame_bytes r → bs ≠ frame_bytes r →
  ∃ needed, FramedRecord_decode_prefix bs = Err (Truncated needed (zlen bs)) ∧
    zlen bs < needed ≤ zlen (frame_bytes r).
Proof.
  intros Hfits [rest Heq] Hne. unfold fits, MAX_PAYLOAD_LEN in Hfits.
  pose proof (zlen_nonneg (payload_of r)). pose proof (zlen_frame_bytes r) as Hlen.
  pose proof (zlen_frame_body r) as Hbl.
  assert (Hlt : zlen bs < zlen (frame_bytes r)).
  { rewrite Heq, zlen_app. assert (rest ≠ []) by (intros ->; rewrite app_nil_r in Heq; done).
    destruct rest; [done|]. rewrite zlen_cons. pose proof (zlen_nonneg rest). lia. }
  unfold FramedRecord_decode_prefix, require_len, RECORD_PREFIX_LEN.
  destruct (Z.leb_spec 11 (zlen bs)); [|exists 11; split; [done|lia]].
  destruct (array_at_in 8 bs 0 ltac:(lia) ltac:(lia) ltac:(lia) ltac:(done)) as (s8 & E8 & _).
  unfold read_u64. rewrite E8. unfold byte_at.
  destruct (lookup_lt_is_Some_2 bs (Z.to_nat 8)) as [k ->]; [unfold zlen in *; lia|]. cbn [ok_or].
  destruct (array_at_in 2 bs 9 ltac:(lia) ltac:(lia) ltac:(lia) ltac:(done)) as (s2 & E2 & S2).
  unfold read_u16. rewrite E2.
  assert (from_le_bytes s2 = zlen (payload_of r)) as ->.
  { apply (zslice_app_l _ rest) in S2. rewrite <- Heq in S2.
    unfold frame_bytes, frame_body in S2. rewrite <- !app_assoc in S2.
    rewrite (app_assoc _ [kind_of r]) in S2.
    rewrite (zslice_mid _ (to_le_bytes 2 (zlen (payload_of r)))) in S2 by (zlen; done).
    injection S2 as <-. apply from_to_le_bytes. ulia. }
  unfold checked_add64. destruct (Z.ltb_spec (11 + zlen (payload_of r)) u64_modulus); [|ulia].
  cbn [ok_or]. unfold CHECKSUM_LEN.
  destruct (Z.ltb_spec (11 + zlen (payload_of r) + 4) u64_modulus); [|ulia]. cbn [ok_or].
  destruct (Z.leb_spec (11 + zlen (payload_of r) + 4) (zlen bs)); [lia|].
  eexists. split; [done|lia].
Qed.

End codec_facts.

(** ** Properties *)

Import Concrete.

(** The header codec is exact in both directions.  Decoding a written header returns it,
    whatever follows it; and a byte string that decodes is, in its first 72 bytes, the canonical
    encoding of the header it decodes to: no two readings, no non-canonical header accepted. *)
Theorem header_codec_exact `{Checksum} h rest bs h' :
  wf_header h →
  FileHeader_decode (FileHeader_encode h ++ rest) = Ok h ∧
  zlen (FileHeader_encode h) = HEADER_LEN ∧
  (FileHeader_decode bs = Ok h' → wf_header h' ∧ take 72 bs = FileHeader_encode h').
Proof.
  intros Hwf. split_and!; [by apply header_roundtrip|by apply zlen_header_encode|].
  intros (? & _ & ?)%header_decode_Ok. done.
Qed.

Example header_codec_exact_witness :
  let h := FileHeader_new (replicate 16 x11) 1024 0 (replicate 32 x22) in
  FileHeader_decode (FileHeader_encode h ++ [x00]) = Ok h.
Proof.
  apply (header_codec_exact (FileHeader_new (replicate 16 x11) 1024 0 (replicate 32 x22)) [x00]
    [] (FileHeader_new [] 0 0 [])).
  split_and!; [done|ulia|ulia|done].
Defined.

(** C4: The record codec is exact.  Encoding fails only for a payload beyond the [u16] length
    field, and then with the payload's size; a written frame followed by anything decodes to the
    same record and exactly its own length; and any byte string that decodes starts with the
    canonical encoding of the record it decodes to. *)
Theorem record_codec_exact `{Checksum} r rest bs r' n :
  wf_framed r →
  match FramedRecord_encode r with
  | Ok frame =>
      FramedRecord_decode_prefix (frame ++ rest) = Ok (r, zlen frame)
  | Err e => e = PayloadTooLarge (zlen (payload_of r)) MAX_PAYLOAD_LEN ∧
      MAX_PAYLOAD_LEN < zlen (payload_of r)
  end ∧
  (FramedRecord_decode_prefix bs = Ok (r', n) →
   wf_framed r' ∧ n ≤ zlen bs ∧ FramedRecord_encode r' = Ok (take (Z.to_nat n) bs)).
Proof.
  intros Hwf. split.
  - rewrite encode_cases. case_bool; bool_to_prop; [|done]. by apply frame_roundtrip.
  - intros (? & ? & -> & ? & Htake)%frame_decode_Ok. split_and!; [done..|].
    apply encode_Ok. by rewrite Htake.
Qed.

Example record_codec_exact_witness :
  ∃ frame, FramedRecord_encode (FramedRecord_new 7 (Checkpoint 1 2)) = Ok frame ∧
    FramedRecord_decode_prefix (frame ++ [x01]) =
      Ok (FramedRecord_new 7 (Checkpoint 1 2), zlen frame).
Proof.
  eexists. split; [vm_compute; reflexivity|].
  exact (proj1 (record_codec_exact (FramedRecord_new 7 (Checkpoint 1 2)) [x01] []
    (FramedRecord_new 0 (Truncate 0)) 0 ltac:(split_and!; cbn; ulia))).
Defined.

(** A torn write is recognisable.  Every strict prefix of a frame — wherever the crash cut
    it — decodes to [Truncated], reporting how much is there and a need within the frame, and
    never to a record or a checksum error. *)
Theorem torn_frame_is_truncated `{Checksum} r frame bs :
  FramedRecord_encode r = Ok frame → bs `prefix_of` frame → bs ≠ frame →
  ∃ needed, FramedRecord_decode_prefix bs = Err (Truncated needed (zlen bs)) ∧
    zlen bs < needed ≤ zlen frame.
Proof. intros [Hfits ->]%encode_Ok. by apply frame_prefix_truncated. Qed.

Example torn_frame_is_truncated_witness :
  ∃ frame, FramedRecord_encode (FramedRecord_new 7 (Truncate 5)) = Ok frame ∧
  ∃ needed, FramedRecord_decode_prefix (take 12 frame) = Err (Truncated needed 12) ∧
    12 < needed ≤ zlen frame.
Proof.
  eexists. split; [vm_compute; reflexivity|].
  apply (torn_frame_is_truncated (FramedRecord_new 7 (Truncate 5))).
  - vm_compute. reflexivity.
  - apply prefix_take.
  - vm_compute. discriminate.
Defined.

End Format.
