(* ===== verification/JournalState.v ===== *)
(** * [downpour-storage/src/journal/state.rs]: the one semantic reading of a journal

    The fold that compaction and recovery share: which completed blocks survive, the effective
    length after truncations, and which record orders are impossible. *)

From S2P Require Import Prelude Format.
From Stdlib Require Import String.
From stdpp Require Import list.
#[local] Open Scope Z_scope.

Module JournalState.
Import Format.Format.

Record JournalStateError := MkStateError { detail : string }.

Record CompletedBlock := MkBlock { cb_offset : Z; cb_len : Z; cb_blake3 : list byte }.
#[export] Instance CompletedBlock_eq_dec : EqDecision CompletedBlock.
Proof. solve_decision. Defined.

Definition block_end (b : CompletedBlock) : result Z JournalStateError :=
  ok_or (checked_add64 (cb_offset b) (cb_len b))
    (MkStateError "completed block end overflows u64").

Record EffectiveState := MkState {
  es_effective_length : Z;
  es_truncate : option Z;
  es_identities : list (list byte);
  es_blocks : list CompletedBlock;
  es_sealed : option (list byte);
}.

(** [block.end().is_ok_and(|end| end <= bound)] *)
Definition ends_within (bound : Z) (b : CompletedBlock) : bool :=
  match block_end b with Ok e => e <=? bound | Err _ => false end.

(** One iteration of the record loop; [index] and [count] decide the position of a seal. *)
Definition apply_record (count index : Z) (state : EffectiveState) (framed : FramedRecord)
    : result EffectiveState JournalStateError :=
  match fr_record framed with
  | BlockComplete offset len blake3 =>
      if len =? 0 then Err (MkStateError "completed block has zero length") else
      let block := MkBlock offset len blake3 in
      let? e := block_end block in
      if es_effective_length state <? e
      then Err (MkStateError "completed block lies beyond the effective length")
      else Ok (MkState (es_effective_length state) (es_truncate state) (es_identities state)
                 (es_blocks state ++ [block]) (es_sealed state))
  | Checkpoint _ _ => Ok state
  | IdentityUpdate cbor =>
      Ok (MkState (es_effective_length state) (es_truncate state)
            (es_identities state ++ [cbor]) (es_blocks state) (es_sealed state))
  | Truncate new_length =>
      if es_effective_length state <? new_length
      then Err (MkStateError "truncate increases the effective length")
      else Ok (MkState new_length (Some new_length) (es_identities state)
                 (List.filter (ends_within new_length) (es_blocks state)) (es_sealed state))
  | Sealed final_blake3 =>
      if (match es_sealed state with Some _ => true | None => false end)
         || negb (index + 1 =? count)
      then Err (MkStateError "sealed record is not unique and final")
      else Ok (MkState (es_effective_length state) (es_truncate state) (es_identities state)
                 (es_blocks state) (Some final_blake3))
  end.

Fixpoint apply_records (count index : Z) (state : EffectiveState) (records : list FramedRecord)
    : result EffectiveState JournalStateError :=
  match records with
  | [] => Ok state
  | framed :: records =>
      let? state := apply_record count index state framed in
      apply_records count (index + 1) state records
  end.

(** [sort_by_key(|block| block.offset)]: stable. *)
Fixpoint insert_block (b : CompletedBlock) (l : list CompletedBlock) : list CompletedBlock :=
  match l with
  | [] => [b]
  | c :: l => if cb_offset b <=? cb_offset c then b :: c :: l else c :: insert_block b l
  end.
Definition sort_blocks (l : list CompletedBlock) : list CompletedBlock :=
  foldr insert_block [] l.

(** The [windows(2)] loop. *)
Fixpoint check_adjacent (l : list CompletedBlock) : result unit JournalStateError :=
  match l with
  | a :: l =>
      match l with
      | b :: _ =>
          let? previous_end := block_end a in
          if cb_offset b <? previous_end
          then Err (MkStateError "surviving completed blocks overlap")
          else check_adjacent l
      | [] => Ok tt
      end
  | [] => Ok tt
  end.

Definition effective_state (header : FileHeader) (records : list FramedRecord)
    : result EffectiveState JournalStateError :=
  let state := MkState (h_total_length header) None [] [] None in
  let? state := apply_records (zlen records) 0 state records in
  let blocks := sort_blocks (es_blocks state) in
  let? _ := check_adjacent blocks in
  Ok (MkState (es_effective_length state) (es_truncate state) (es_identities state) blocks
        (es_sealed state)).

(** ** What the records mean, read backwards *)

(** The lengths the truncations of [rs] set, in order. *)
Definition truncations (rs : list FramedRecord) : list Z :=
  omap (λ r, match fr_record r with Truncate n => Some n | _ => None end) rs.

(** The blocks no later truncation cuts or drops. *)
Fixpoint survivors (rs : list FramedRecord) : list CompletedBlock :=
  match rs with
  | [] => []
  | r :: rs =>
      match fr_record r with
      | BlockComplete offset len blake3 =>
          if forallb (λ n, offset + len <=? n) (truncations rs)
          then MkBlock offset len blake3 :: survivors rs else survivors rs
      | _ => survivors rs
      end
  end.

Definition identities_of (rs : list FramedRecord) : list (list byte) :=
  omap (λ r, match fr_record r with IdentityUpdate c => Some c | _ => None end) rs.
Definition seals_of (rs : list FramedRecord) : list (list byte) :=
  omap (λ r, match fr_record r with Sealed d => Some d | _ => None end) rs.

(** Non-empty blocks in increasing order, none overlapping the next, all below [bound]. *)
Definition block_range (b : CompletedBlock) : Range :=
  MkRange (cb_offset b) (cb_offset b + cb_len b).
Definition block_ok (bound : Z) (b : CompletedBlock) : Prop :=
  0 < cb_len b ∧ 0 ≤ cb_offset b ∧ cb_offset b + cb_len b ≤ bound ∧
  cb_offset b + cb_len b < u64_modulus.
Fixpoint in_order (l : list CompletedBlock) : Prop :=
  match l with
  | [] => True
  | a :: l => Forall (λ b, cb_offset a + cb_len a ≤ cb_offset b) l ∧ in_order l
  end.

(** ** The fold computes that reading *)

Lemma block_end_Ok b e : block_end b = Ok e ↔ e = cb_offset b + cb_len b ∧ e < u64_modulus.
Proof.
  unfold block_end. destruct (checked_add64 _ _) as [x|] eqn:E; cbn [ok_or].
  - apply checked_add64_Some in E as [-> ?]. split; [intros [= <-]; done|by intros [-> _]].
  - apply checked_add64_None in E. split; [done|]. intros [-> ?]. lia.
Qed.

Lemma ends_within_true n b :
  ends_within n b = true ↔ cb_offset b + cb_len b ≤ n ∧ cb_offset b + cb_len b < u64_modulus.
Proof.
  unfold ends_within. destruct (block_end b) as [e|e] eqn:E.
  - apply block_end_Ok in E as [-> ?]. rewrite Z.leb_le. lia.
  - split; [done|]. intros [? ?].
    assert (block_end b = Ok (cb_offset b + cb_len b)) by by apply block_end_Ok. congruence.
Qed.

Lemma truncations_app rs rs' : truncations (rs ++ rs') = truncations rs ++ truncations rs'.
Proof. apply omap_app. Qed.

Lemma survivors_snoc_other rs r :
  truncations [r] = [] → survivors [r] = [] → survivors (rs ++ [r]) = survivors rs.
Proof.
  intros Ht Hs. induction rs as [|q rs IH]; [done|]. cbn [app survivors].
  rewrite truncations_app, Ht, app_nil_r, IH. done.
Qed.

Lemma survivors_snoc_block rs r o l d :
  fr_record r = BlockComplete o l d →
  survivors (rs ++ [r]) = survivors rs ++ [MkBlock o l d].
Proof.
  intros Hr. induction rs as [|q rs IH]; cbn [app survivors truncations].
  - unfold truncations. cbn. rewrite Hr. done.
  - rewrite truncations_app, IH. replace (truncations [r]) with (@nil Z)
      by (unfold truncations; cbn; by rewrite Hr).
    rewrite app_nil_r. destruct (fr_record q); try done. by case_bool.
Qed.

Lemma survivors_snoc_truncate rs r n :
  fr_record r = Truncate n →
  survivors (rs ++ [r]) =
    List.filter (λ b, cb_offset b + cb_len b <=? n) (survivors rs).
Proof.
  intros Hr. induction rs as [|q rs IH]; cbn [app survivors].
  - by rewrite Hr.
  - rewrite truncations_app, IH. replace (truncations [r]) with [n]
      by (unfold truncations; cbn; by rewrite Hr).
    destruct (fr_record q) as [o l d| | | |]; try done.
    rewrite forallb_app. cbn [forallb]. rewrite andb_true_r.
    destruct (forallb _ (truncations rs)); [|done]. cbn. by case_bool.
Qed.

(** What a state that has processed [pre] looks like. *)
Record reads (total : Z) (pre : list FramedRecord) (st : EffectiveState) : Prop := {
  rd_blocks : es_blocks st = survivors pre;
  rd_truncate : es_truncate st = last (truncations pre);
  rd_length : es_effective_length st = default total (last (truncations pre));
  rd_identities : es_identities st = identities_of pre;
  rd_sealed : es_sealed st = last (seals_of pre);
  rd_ok : Forall (block_ok (es_effective_length st)) (es_blocks st);
  rd_bound : es_effective_length st ≤ total;
}.

Lemma omap_snoc {A B} (f : A → option B) l x :
  omap f (l ++ [x]) = omap f l ++ match f x with Some y => [y] | None => [] end.
Proof. rewrite omap_app. cbn. by destruct (f x). Qed.

Lemma apply_record_reads total count idx pre st r st' :
  wf_framed r → reads total pre st → apply_record count idx st r = Ok st' →
  reads total (pre ++ [r]) st'.
Proof.
  intros [_ Hwf] [Hb Ht Hl Hi Hs Hok Hbd]. unfold apply_record.
  destruct r as [seq rec]. cbn [fr_record] in *.
  assert (Hts : ∀ A B (f : A → option B) l x y, f x = Some y → last (omap f (l ++ [x])) = Some y).
  { intros A B f l x y Hf. by rewrite omap_snoc, Hf, last_snoc. }
  destruct rec as [off ln d|cov wc|cb|n|fb].
  - intros Ha. inv_step Ha. bool_to_prop. destruct (block_end _) as [e|] eqn:E; [|done].
    apply block_end_Ok in E as [-> ?]. cbn [cb_offset cb_len] in *. inv_step Ha. bool_to_prop.
    injection Ha as <-. destruct Hwf as (? & ? & _).
    split; cbn; unfold truncations, identities_of, seals_of in *;
      rewrite ?omap_snoc; cbn; rewrite ?app_nil_r; auto.
    + by rewrite Hb, (survivors_snoc_block _ _ off ln d).
    + apply Forall_app. split; [done|]. apply Forall_singleton. unfold block_ok. cbn. ulia.
  - intros [= <-]. split; unfold truncations, identities_of, seals_of in *;
      rewrite ?omap_snoc; cbn; rewrite ?app_nil_r; auto. by rewrite survivors_snoc_other.
  - intros [= <-]. split; unfold truncations, identities_of, seals_of in *;
      rewrite ?omap_snoc; cbn; rewrite ?app_nil_r; auto;
      [by rewrite survivors_snoc_other|by rewrite Hi].
  - intros Ha. inv_step Ha. bool_to_prop. injection Ha as <-.
    assert (Hf : List.filter (ends_within n) (es_blocks st) =
      List.filter (λ b, cb_offset b + cb_len b <=? n) (es_blocks st)).
    { apply filter_ext_in. intros b Hin%list_elem_of_In. rewrite Forall_forall in Hok.
      destruct (Hok b Hin) as (_ & _ & _ & ?).
      apply eq_true_iff_eq. rewrite ends_within_true, Z.leb_le. tauto. }
    split; cbn; unfold truncations, identities_of, seals_of in *;
      rewrite ?omap_snoc; cbn; rewrite ?app_nil_r, ?last_snoc; auto; [| |lia].
    + by rewrite Hf, Hb, (survivors_snoc_truncate _ _ n).
    + apply Forall_forall. intros b Hin%list_elem_of_In. apply filter_In in Hin as [Hin E].
      apply ends_within_true in E. apply list_elem_of_In in Hin. rewrite Forall_forall in Hok.
      destruct (Hok b Hin) as (? & ? & ? & ?). unfold block_ok. tauto.
  - intros Ha. inv_step Ha. injection Ha as <-.
    split; cbn; unfold truncations, identities_of, seals_of in *;
      rewrite ?omap_snoc; cbn; rewrite ?app_nil_r, ?last_snoc; auto. by rewrite survivors_snoc_other.
Qed.

Lemma apply_records_reads total count idx pre st rs st' :
  Forall wf_framed rs → reads total pre st → apply_records count idx st rs = Ok st' →
  reads total (pre ++ rs) st'.
Proof.
  intros Hwf. revert idx pre st. induction Hwf as [|r rs Hr _ IH]; intros idx pre st Hrd Ha.
  - injection Ha as <-. by rewrite app_nil_r.
  - cbn in Ha. destruct (apply_record count idx st r) as [st1|] eqn:E; [|done].
    rewrite cons_middle, app_assoc. apply (IH (idx + 1) _ st1); [|done].
    by apply (apply_record_reads total count idx pre st).
Qed.

(** ** Sorting and the overlap check *)

Lemma insert_block_perm b l : insert_block b l ≡ₚ b :: l.
Proof.
  induction l as [|c l IH]; [done|]. cbn. case_bool; [done|].
  rewrite IH. apply Permutation_swap.
Qed.
Lemma sort_blocks_perm l : sort_blocks l ≡ₚ l.
Proof. induction l as [|b l IH]; [done|]. cbn. by rewrite insert_block_perm, IH. Qed.

Lemma check_adjacent_in_order bound l :
  Forall (block_ok bound) l → check_adjacent l = Ok tt → in_order l.
Proof.
  induction l as [|a [|b l] IH]; intros Hok Hc; [done|by repeat constructor|].
  apply Forall_cons in Hok as [Ha Hok]. pose proof Hok as Hok'. apply Forall_cons in Hok' as [Hb _].
  cbn in Hc. destruct (block_end a) as [e|] eqn:E; [|done]. apply block_end_Ok in E as [-> _].
  inv_step Hc. bool_to_prop. destruct (IH Hok Hc) as [Hall Hin].
  split; [|done]. constructor; [done|]. eapply Forall_impl; [exact Hall|]. cbn. intros c Hbc.
  destruct Hb as (? & ? & _). lia.
Qed.

Lemma effective_state_Ok header rs st :
  Forall wf_framed rs → effective_state header rs = Ok st →
  ∃ st0, reads (h_total_length header) rs st0 ∧
    es_effective_length st = es_effective_length st0 ∧ es_truncate st = es_truncate st0 ∧
    es_identities st = es_identities st0 ∧ es_sealed st = es_sealed st0 ∧
    es_blocks st ≡ₚ survivors rs ∧ Forall (block_ok (es_effective_length st)) (es_blocks st) ∧
    in_order (es_blocks st).
Proof.
  intros Hwf. unfold effective_state.
  destruct (apply_records _ _ _ rs) as [st0|] eqn:E; [|done].
  assert (Hrd : reads (h_total_length header) rs st0).
  { eapply (apply_records_reads (h_total_length header) _ _ [] _ _ _ Hwf) in E; [exact E|].
    by split. }
  destruct (check_adjacent _) as [[]|] eqn:C; [|done]. intros [= <-]. exists st0. cbn.
  assert (Hok : Forall (block_ok (es_effective_length st0)) (sort_blocks (es_blocks st0))).
  { rewrite sort_blocks_perm. apply (rd_ok _ _ _ Hrd). }
  split_and!; try done; [|by eapply check_adjacent_in_order].
  by rewrite sort_blocks_perm, (rd_blocks _ _ _ Hrd).
Qed.

(** ** Which journals are accepted *)

(** Every record is possible where it stands, [eff] being the effective length so far. *)
Fixpoint admissible (eff : Z) (rs : list FramedRecord) : Prop :=
  match rs with
  | [] => True
  | r :: rs =>
      match fr_record r with
      | BlockComplete o l _ => 0 < l ∧ o + l ≤ eff ∧ o + l < u64_modulus ∧ admissible eff rs
      | Truncate n => n ≤ eff ∧ admissible n rs
      | Sealed _ => rs = []
      | _ => admissible eff rs
      end
  end.

(** No two of the listed blocks share a byte. *)
Fixpoint pairwise_disjoint (l : list CompletedBlock) : Prop :=
  match l with
  | [] => True
  | a :: l => Forall (λ b, range_disjoint (block_range a) (block_range b)) l ∧
      pairwise_disjoint l
  end.

Lemma range_disjoint_sym r s : range_disjoint r s → range_disjoint s r.
Proof. unfold range_disjoint. tauto. Qed.

#[export] Instance pairwise_disjoint_perm : Proper ((≡ₚ) ==> iff) pairwise_disjoint.
Proof.
  assert (Himp : ∀ l l', l ≡ₚ l' → pairwise_disjoint l → pairwise_disjoint l').
  { induction 1 as [|x l l' Hp IH|x y l|l l' l'' _ IH1 _ IH2]; [done| | |naive_solver].
    - intros [Hx Hl]. split; [by rewrite <- Hp|by apply IH].
    - intros [[Hyx Hy]%Forall_cons [Hx Hl]]. split_and!; [|done..].
      constructor; [by apply range_disjoint_sym|done]. }
  intros l l' Hp. split; apply Himp; [done|by symmetry].
Qed.

Lemma in_order_disjoint l : in_order l → pairwise_disjoint l.
Proof.
  induction l as [|a l IH]; [done|]. intros [Ha Hl]. split; [|by apply IH].
  eapply Forall_impl; [exact Ha|]. intros b Hb. by left.
Qed.

Fixpoint sorted_offsets (l : list CompletedBlock) : Prop :=
  match l with
  | [] => True
  | a :: l => Forall (λ b, cb_offset a ≤ cb_offset b) l ∧ sorted_offsets l
  end.

Lemma insert_block_sorted b l : sorted_offsets l → sorted_offsets (insert_block b l).
Proof.
  induction l as [|c l IH]; [by repeat constructor|]. intros [Hc Hl]. cbn. case_bool; bool_to_prop.
  - split; [|by split]. constructor; [done|]. eapply Forall_impl; [exact Hc|]. cbn. lia.
  - split; [|by apply IH]. rewrite insert_block_perm. constructor; [lia|done].
Qed.
Lemma sort_blocks_sorted l : sorted_offsets (sort_blocks l).
Proof. induction l as [|b l IH]; [done|]. by apply insert_block_sorted. Qed.

Lemma disjoint_check_adjacent bound l :
  Forall (block_ok bound) l → sorted_offsets l → pairwise_disjoint l → check_adjacent l = Ok tt.
Proof.
  induction l as [|a [|b l] IH]; [done..|].
  intros [Ha Hok]%Forall_cons [Hsa Hs] [Hda Hd]. cbn [check_adjacent].
  destruct Ha as (? & ? & ? & ?). pose proof Hok as Hok'. apply Forall_cons in Hok' as [Hb _].
  destruct Hb as (? & ? & ? & ?).
  apply Forall_cons in Hsa as [Hab _]. apply Forall_cons in Hda as [Hdab _].
  assert (block_end a = Ok (cb_offset a + cb_len a)) as -> by by apply block_end_Ok.
  unfold range_disjoint, block_range in Hdab. cbn in Hdab.
  destruct (Z.ltb_spec (cb_offset b) (cb_offset a + cb_len a)); [lia|]. by apply IH.
Qed.

Lemma apply_records_admissible count idx st rs :
  Forall wf_framed rs → es_sealed st = None → idx + zlen rs = count →
  is_ok (apply_records count idx st rs) = true ↔ admissible (es_effective_length st) rs.
Proof.
  intros Hwf. revert idx st. induction Hwf as [|r rs [_ Hr] _ IH]; intros idx st Hs Hc; [done|].
  rewrite zlen_cons in Hc. cbn [apply_records admissible]. unfold apply_record.
  destruct r as [seq rec]; cbn [fr_record] in *.
  destruct rec as [off ln d|cov wc|cb|n|fb]; cbn in Hr.
  - destruct Hr as (? & ? & _). case_bool; bool_to_prop; [split; [done|intros; exfalso; lia]|].
    destruct (block_end _) as [e|] eqn:E.
    + apply block_end_Ok in E as [-> ?]. cbn [cb_offset cb_len] in *.
      case_bool; bool_to_prop; [split; [done|intros; exfalso; lia]|].
      rewrite IH by (done || lia). cbn. split; [|tauto]. intros. split_and!; done || ulia.
    + split; [done|]. intros (? & ? & ? & _).
      assert (block_end (MkBlock off ln d) = Ok (off + ln)) by by apply block_end_Ok. congruence.
  - apply IH; [done|lia].
  - rewrite IH by (done || lia). done.
  - case_bool; bool_to_prop; [split; [done|intros; exfalso; lia]|]. rewrite IH by (done || lia). cbn. tauto.
  - rewrite Hs. cbn [orb]. pose proof (zlen_nonneg rs).
    destruct (Z.eqb_spec (idx + 1) count) as [Heq|Hne]; cbn [negb].
    + destruct rs; [done|]. rewrite zlen_cons in *. pose proof (zlen_nonneg rs). lia.
    + split; [done|]. intros ->. rewrite zlen_nil in Hc. lia.
Qed.

Lemma effective_state_accepts header rs :
  Forall wf_framed rs →
  is_ok (effective_state header rs) = true ↔
  admissible (h_total_length header) rs ∧ pairwise_disjoint (survivors rs).
Proof.
  intros Hwf. unfold effective_state.
  pose proof (apply_records_admissible (zlen rs) 0
    (MkState (h_total_length header) None [] [] None) rs Hwf eq_refl ltac:(lia)) as Hadm.
  cbn [es_effective_length] in Hadm. rewrite <- Hadm.
  destruct (apply_records _ _ _ rs) as [st0|] eqn:E; [|by split; [|intros [? _]]].
  assert (Hrd : reads (h_total_length header) rs st0).
  { eapply (apply_records_reads (h_total_length header) _ _ [] _ _ _ Hwf) in E; [exact E|].
    by split. }
  assert (Hok : Forall (block_ok (es_effective_length st0)) (sort_blocks (es_blocks st0))).
  { rewrite sort_blocks_perm. apply (rd_ok _ _ _ Hrd). }
  assert (Hpd : pairwise_disjoint (sort_blocks (es_blocks st0)) ↔ pairwise_disjoint (survivors rs)).
  { by rewrite sort_blocks_perm, (rd_blocks _ _ _ Hrd). }
  rewrite <- Hpd. destruct (check_adjacent _) as [[]|] eqn:C.
  - split; [|done]. intros _. split; [done|].
    by eapply in_order_disjoint, check_adjacent_in_order.
  - split; [done|]. intros [_ Hd].
    rewrite (disjoint_check_adjacent _ _ Hok (sort_blocks_sorted _) Hd) in C. done.
Qed.

(** *** What an accepted reading keeps in range *)

Lemma effective_state_facts header rs st :
  Forall wf_framed rs → effective_state header rs = Ok st →
  Forall (block_ok (es_effective_length st)) (es_blocks st) ∧ in_order (es_blocks st) ∧
  Forall (λ b, cb_len b ≤ u32_max) (es_blocks st) ∧
  es_effective_length st = default (h_total_length header) (es_truncate st) ∧
  es_effective_length st ≤ h_total_length header ∧
  Forall (λ n, u64 n) (truncations rs) ∧
  match es_truncate st with Some n => u64 n | None => True end ∧
  Forall (λ c, u64 (zlen c)) (es_identities st) ∧
  match es_sealed st with Some d => zlen d = 32 | None => True end.
Proof.
  intros Hwf Hst. destruct (effective_state_Ok header rs st Hwf Hst)
    as (st0 & Hrd & -> & Ht & -> & -> & Hperm & Hok & Hord).
  pose proof Hrd as [Hb Htr Hl Hi Hs Hok0 Hbd].
  assert (Htru : Forall (λ n, u64 n) (truncations rs)).
  { apply Forall_forall. intros n Hn. apply list_elem_of_omap in Hn as (r & Hr & Hn).
    rewrite Forall_forall in Hwf. destruct (Hwf r Hr) as [_ Hw].
    destruct (fr_record r); try done. by injection Hn as ->. }
  split_and!; [done|done| |by rewrite Ht, Hl, Htr|done|done| | |].
  - rewrite Hperm. apply Forall_forall. intros b Hb2.
    assert (Hsv : ∀ rs, Forall wf_framed rs → b ∈ survivors rs → cb_len b ≤ u32_max).
    { clear. induction 1 as [|r rs [_ Hr] _ IH]; cbn [survivors]; [by intros ?%elem_of_nil|].
      destruct (fr_record r); try done. case_bool; [|done].
      intros [->|?]%elem_of_cons; [|by apply IH]. cbn in *. destruct Hr as (_ & ? & _). ulia. }
    by apply (Hsv rs).
  - rewrite Ht, Htr. destruct (last (truncations rs)) as [n|] eqn:E; [|done].
    apply last_Some in E as [l' E]. rewrite E in Htru. by apply Forall_app in Htru as [_ [? _]%Forall_cons].
  - rewrite Hi. apply Forall_forall. intros c Hc. apply list_elem_of_omap in Hc as (r & Hr & Hc).
    rewrite Forall_forall in Hwf. destruct (Hwf r Hr) as [_ Hw].
    destruct (fr_record r); try done. by injection Hc as ->.
  - rewrite Hs. destruct (last (seals_of rs)) as [d|] eqn:E; [|done].
    apply last_Some in E as [l' E]. assert (Hd : d ∈ seals_of rs) by (rewrite E; apply elem_of_app; right; by apply list_elem_of_singleton).
    apply list_elem_of_omap in Hd as (r & Hr & Hd). rewrite Forall_forall in Hwf.
    destruct (Hwf r Hr) as [_ Hw]. destruct (fr_record r); try done. by injection Hd as ->.
Qed.

(** ** Properties *)

(** C5: What recovery and compaction may believe.  When the fold accepts a replayed journal, its
    blocks are exactly (each as often as recorded) the completed blocks that no later truncation
    cut or dropped; they are listed in increasing order, non-empty, pairwise non-overlapping and
    inside the effective length, which is the last truncation or else the header's length and
    never exceeds it; identity updates are kept in order, and a seal is the one the journal ends
    with. *)
Theorem effective_state_reading header rs st :
  Forall wf_framed rs → effective_state header rs = Ok st →
  es_blocks st ≡ₚ survivors rs ∧ in_order (es_blocks st) ∧
  Forall (block_ok (es_effective_length st)) (es_blocks st) ∧
  es_truncate st = last (truncations rs) ∧
  es_effective_length st = default (h_total_length header) (last (truncations rs)) ∧
  es_effective_length st ≤ h_total_length header ∧
  es_identities st = identities_of rs ∧ es_sealed st = last (seals_of rs).
Proof.
  intros Hwf Hst. destruct (effective_state_Ok header rs st Hwf Hst)
    as (st0 & [? ? ? ? ? ? ?] & -> & -> & -> & -> & ? & ? & ?). by split_and!.
Qed.

Definition example_header : FileHeader :=
  FileHeader_new (replicate 16 x00) 100 0 (replicate 32 x00).
Definition example_records : list FramedRecord :=
  [FramedRecord_new 0 (BlockComplete 50 30 (replicate 32 x01));
   FramedRecord_new 1 (BlockComplete 0 20 (replicate 32 x02));
   FramedRecord_new 2 (Truncate 60);
   FramedRecord_new 3 (BlockComplete 20 10 (replicate 32 x03))].
Lemma example_records_wf : Forall wf_framed example_records.
Proof. repeat constructor; cbn; ulia || done. Qed.

Example effective_state_reading_witness :
  ∃ st, effective_state example_header example_records = Ok st ∧
    es_effective_length st = default 100 (last (truncations example_records)).
Proof.
  eexists. split; [vm_compute; reflexivity|].
  apply (effective_state_reading example_header example_records);
    [apply example_records_wf|vm_compute; reflexivity].
Defined.

(** Which journals are refused.  The fold fails exactly when some record is impossible where
    it stands (an empty block, one beyond the effective length or the [u64] domain, a truncation
    that grows the file, a seal that is not last) or two surviving blocks share a byte. *)
Theorem effective_state_refusal header rs :
  Forall wf_framed rs →
  (∃ e, effective_state header rs = Err e) ↔
  ¬ (admissible (h_total_length header) rs ∧ pairwise_disjoint (survivors rs)).
Proof.
  intros Hwf. rewrite <- (effective_state_accepts header rs Hwf).
  destruct (effective_state header rs) as [st|e]; cbn; split; naive_solver.
Qed.

Example effective_state_refusal_witness :
  (∃ e, effective_state example_header
    [FramedRecord_new 0 (BlockComplete 0 20 (replicate 32 x02));
     FramedRecord_new 1 (BlockComplete 10 20 (replicate 32 x02))] = Err e).
Proof.
  apply (effective_state_refusal example_header).
  - repeat constructor; cbn; ulia || done.
  - intros [_ [[[H|H] _]%Forall_cons _]]; cbn in H; lia.
Defined.

End JournalState.
