(* ===== verification/Replay.v ===== *)
(** * [downpour-storage/src/journal/replay.rs]: prefix-consistent replay and repair

    The reader-level loop of the source, the byte-level function it computes whatever the
    chunking of the reads, and the repair of a damaged suffix. *)

From S2P Require Import Prelude Io Format.

Module Replay.
Import Io.Io Format.Format.

Definition RECORD_PREFIX_LEN : Z := 11.
Definition RECORD_CHECKSUM_LEN : Z := 4.

Inductive ReplayStop :=
| CleanEof
| DamagedTail (error : FormatError)
| SequenceGap (expected found : Z).
#[export] Instance ReplayStop_eq_dec : EqDecision ReplayStop.
Proof. solve_decision. Defined.

Record ReplayOutcome := MkOutcome {
  ro_header : FileHeader;
  ro_records : list FramedRecord;
  ro_valid_bytes : Z;
  ro_stop : ReplayStop;
}.

Inductive ReplayError := ReplayFormat (e : FormatError) | ReplayIo (e : Error).

Definition damaged_outcome (header : FileHeader) (records : list FramedRecord)
    (valid_bytes : Z) (error : FormatError) : ReplayOutcome :=
  MkOutcome header records valid_bytes (DamagedTail error).

(** Fill a destination of [n] bytes: the loop of [read_up_to], retrying interruptions.  [None] is
    running out of fuel. *)
Fixpoint read_up_to (fuel : nat) (r : reader) (n : nat) (filled : list byte)
    : option (result (list byte) Error * reader) :=
  match fuel with
  | O => None
  | S fuel =>
      if bool_decide (n ≤ length filled)%nat then Some (Ok filled, r)
      else
        match read r (n - length filled) with
        | (Ok [], r) => Some (Ok filled, r)
        | (Ok bs, r) => read_up_to fuel r n (filled ++ bs)
        | (Err e, r) =>
            if bool_decide (kind e = Interrupted) then read_up_to fuel r n filled
            else Some (Err e, r)
        end
  end.

Section replay.
Context `{Checksum}.

(** One turn of the record loop, given what the two reads returned. *)
Inductive turn :=
| Stop (out : result ReplayOutcome ReplayError)
| Next (record : FramedRecord) (valid_bytes expected : Z).

Definition payload_len_of (prefix : list byte) : Z := from_le_bytes (take 2 (drop 9 prefix)).

Definition accept_frame (header : FileHeader) (records : list FramedRecord)
    (expected valid_bytes : Z) (frame : list byte) : turn :=
  match FramedRecord_decode_prefix frame with
  | Err error => Stop (Ok (damaged_outcome header records valid_bytes error))
  | Ok (record, consumed) =>
      if negb (fr_sequence record =? expected)
      then Stop (Ok (MkOutcome header records valid_bytes
                       (SequenceGap expected (fr_sequence record))))
      else
        match checked_add64 valid_bytes consumed with
        | None => Stop (Err (ReplayIo invalid_data))
        | Some valid_bytes =>
            match checked_add64 expected 1 with
            | None => Stop (Err (ReplayIo invalid_data))
            | Some expected => Next record valid_bytes expected
            end
        end
  end.

Fixpoint replay_loop (fuel : nat) (r : reader) (header : FileHeader)
    (records : list FramedRecord) (expected valid_bytes : Z)
    : option (result ReplayOutcome ReplayError) :=
  match fuel with
  | O => None
  | S fuel' =>
      match read_up_to fuel r 11 [] with
      | None => None
      | Some (Err e, _) => Some (Err (ReplayIo e))
      | Some (Ok prefix, r) =>
          let prefix_read := zlen prefix in
          if prefix_read =? 0 then Some (Ok (MkOutcome header records valid_bytes CleanEof))
          else if prefix_read <? RECORD_PREFIX_LEN then
            Some (Ok (damaged_outcome header records valid_bytes
                        (Truncated RECORD_PREFIX_LEN prefix_read)))
          else
            match checked_add64 (payload_len_of prefix) RECORD_CHECKSUM_LEN with
            | None => Some (Err (ReplayIo invalid_data))
            | Some suffix_len =>
                match read_up_to fuel r (Z.to_nat suffix_len) [] with
                | None => None
                | Some (Err e, _) => Some (Err (ReplayIo e))
                | Some (Ok suffix, r) =>
                    if zlen suffix <? suffix_len then
                      Some (Ok (damaged_outcome header records valid_bytes
                        (Truncated (RECORD_PREFIX_LEN + suffix_len)
                           (RECORD_PREFIX_LEN + zlen suffix))))
                    else
                      match accept_frame header records expected valid_bytes
                              (prefix ++ suffix) with
                      | Stop out => Some out
                      | Next record valid_bytes expected =>
                          replay_loop fuel' r header (records ++ [record]) expected valid_bytes
                      end
                end
            end
      end
  end.

Definition replay_reader (fuel : nat) (r : reader) : option (result ReplayOutcome ReplayError) :=
  match read_up_to fuel r 72 [] with
  | None => None
  | Some (Err e, _) => Some (Err (ReplayIo e))
  | Some (Ok header_bytes, r) =>
      match FileHeader_decode header_bytes with
      | Err e => Some (Err (ReplayFormat e))
      | Ok header => replay_loop fuel r header [] 0 HEADER_LEN
      end
  end.

(** [replay_bytes]; the fuel is enough for any input ([replay_reader_total]). *)
Definition replay_bytes (bytes : list byte) : option (result ReplayOutcome ReplayError) :=
  replay_reader (S (S (length bytes))) (cursor bytes).

(** [recover_journal] on a file holding [bytes]: the replay, then — unless it stopped cleanly —
    [set_len] and [sync_all], whose answers come from the operating system.  The second component
    is what the file holds when the call returns. *)
Definition recover_journal (opened : result reader Error) (bytes : list byte)
    (set_len sync_all : result unit Error) (fuel : nat)
    : option (result ReplayOutcome ReplayError * list byte) :=
  match opened with
  | Err e => Some (Err (ReplayIo e), bytes)
  | Ok r =>
      match replay_reader fuel r with
      | None => None
      | Some (Err e) => Some (Err e, bytes)
      | Some (Ok outcome) =>
          if bool_decide (ro_stop outcome = CleanEof) then Some (Ok outcome, bytes)
          else
            match set_len with
            | Err e => Some (Err (ReplayIo e), bytes)
            | Ok _ =>
                let bytes := take (Z.to_nat (ro_valid_bytes outcome)) bytes in
                match sync_all with
                | Err e => Some (Err (ReplayIo e), bytes)
                | Ok _ => Some (Ok outcome, bytes)
                end
            end
      end
  end.

End replay.

(** ** Short reads and interruptions do not matter *)

Lemma read_up_to_spec fuel r n filled :
  healthy r → (reader_size r < fuel)%nat → (length filled ≤ n)%nat →
  let got := take (n - length filled) (contents r) in
  ∃ r', read_up_to fuel r n filled = Some (Ok (filled ++ got), r') ∧
    contents r' = drop (n - length filled) (contents r) ∧ healthy r' ∧
    (reader_size r' + length got ≤ reader_size r)%nat.
Proof.
  revert r filled. induction fuel as [|fuel IH]; intros r filled Hh Hf Hle; [lia|].
  cbn [read_up_to]. case_bool_decide as Hn.
  { exists r. replace (n - length filled)%nat with 0%nat by lia.
    rewrite take_0, drop_0, app_nil_r. split_and!; try done; cbn; lia. }
  destruct r as [|[bs|e] r].
  - exists []. cbn. rewrite take_nil, drop_nil, app_nil_r. split_and!; try done; cbn; lia.
  - apply Forall_cons in Hh as [Hbs Hh]. cbn [read].
    assert (Hsize : reader_size (Data bs :: r) = (1 + length bs + reader_size r)%nat).
    { unfold reader_size, contents. cbn. rewrite length_app. lia. }
    change (contents (Data bs :: r)) with (bs ++ contents r).
    case_bool_decide as Hfit.
    + destruct bs as [|b bs]; [done|].
      destruct (IH r (filled ++ b :: bs)) as (r' & -> & Hc & Hh' & Hs);
        [done|cbn in *; lia|rewrite length_app; lia|].
      exists r'. rewrite length_app in Hc, Hs |- *.
      replace (n - (length filled + length (b :: bs)))%nat
        with (n - length filled - length (b :: bs))%nat in * by lia.
      rewrite take_app_ge, drop_app_ge by done. rewrite <- app_assoc. split_and!; [done..|].
      rewrite length_app. lia.
    + set (k := (n - length filled)%nat) in *.
      assert (Hk : (0 < k < length bs)%nat) by lia.
      assert (Htk : length (take k bs) = k) by (rewrite length_take; lia).
      destruct (take k bs) as [|b tk] eqn:Etk; [cbn in Htk; lia|].
      destruct (IH (Data (drop k bs) :: r) (filled ++ b :: tk)) as (r' & -> & Hc & Hh' & Hs).
      * constructor; [|done]. intros Hnil. apply (f_equal length) in Hnil.
        rewrite length_drop in Hnil. cbn in Hnil. lia.
      * unfold reader_size, contents in *. cbn in *. rewrite !length_app, length_drop in *. lia.
      * rewrite length_app, Htk. lia.
      * exists r'. rewrite length_app, Htk in *.
        replace (n - (length filled + k))%nat with 0%nat in * by lia.
        rewrite take_0, drop_0, app_nil_r in *. cbn in Hs. rewrite Nat.add_0_r in Hs.
        rewrite take_app_le, drop_app_le by lia. rewrite Etk. split_and!; [done| |done|].
        { rewrite Hc. done. }
        rewrite Htk. unfold reader_size, contents in *. cbn in *.
        rewrite !length_app, length_drop in *. lia.
  - apply Forall_cons in Hh as [He Hh]. cbn [read]. rewrite bool_decide_eq_true_2 by done.
    destruct (IH r filled) as (r' & -> & ? & ? & ?);
      [done|unfold reader_size, contents in *; cbn in *; lia|done|].
    exists r'. split_and!; try done. unfold reader_size, contents in *. cbn in *. lia.
Qed.

Section replay_facts.
Context `{Checksum}.

(** The function of the journal's bytes that replay computes. *)
Fixpoint parse_loop (fuel : nat) (bs : list byte) (header : FileHeader)
    (records : list FramedRecord) (expected valid_bytes : Z)
    : option (result ReplayOutcome ReplayError) :=
  match fuel with
  | O => None
  | S fuel =>
      let prefix := take 11 bs in
      if zlen prefix =? 0 then Some (Ok (MkOutcome header records valid_bytes CleanEof))
      else if zlen prefix <? RECORD_PREFIX_LEN then
        Some (Ok (damaged_outcome header records valid_bytes
                    (Truncated RECORD_PREFIX_LEN (zlen prefix))))
      else
        let suffix_len := payload_len_of prefix + RECORD_CHECKSUM_LEN in
        let suffix := take (Z.to_nat suffix_len) (drop 11 bs) in
        if zlen suffix <? suffix_len then
          Some (Ok (damaged_outcome header records valid_bytes
            (Truncated (RECORD_PREFIX_LEN + suffix_len) (RECORD_PREFIX_LEN + zlen suffix))))
        else
          match accept_frame header records expected valid_bytes (prefix ++ suffix) with
          | Stop out => Some out
          | Next record valid_bytes expected =>
              parse_loop fuel (drop (Z.to_nat suffix_len) (drop 11 bs)) header
                (records ++ [record]) expected valid_bytes
          end
  end.

Lemma payload_len_range prefix : 0 ≤ payload_len_of prefix < 65536.
Proof.
  unfold payload_len_of. pose proof (from_le_bytes_range (take 2 (drop 9 prefix))) as Hr.
  rewrite length_take in Hr.
  assert (256 ^ Z.of_nat (Nat.min 2 (length (drop 9 prefix))) ≤ 256 ^ 2)
    by (apply Z.pow_le_mono_r; lia). lia.
Qed.

Lemma replay_loop_parse fuel r header records expected valid_bytes :
  healthy r → (reader_size r < fuel)%nat →
  replay_loop fuel r header records expected valid_bytes =
    parse_loop fuel (contents r) header records expected valid_bytes.
Proof.
  revert r records expected valid_bytes.
  induction fuel as [|fuel IH]; intros r records expected valid_bytes Hh Hf; [lia|].
  cbn [replay_loop parse_loop].
  destruct (read_up_to_spec (S fuel) r 11 [] Hh Hf ltac:(cbn; lia)) as (r1 & -> & Hc1 & Hh1 & Hs1).
  cbn [length Nat.sub app] in Hc1, Hs1 |- *.
  destruct (zlen (take 11 (contents r)) =? 0) eqn:E0; [done|].
  destruct (zlen (take 11 (contents r)) <? RECORD_PREFIX_LEN) eqn:E1; [done|].
  pose proof (payload_len_range (take 11 (contents r))) as Hpl.
  unfold checked_add64.
  destruct (Z.ltb_spec (payload_len_of (take 11 (contents r)) + RECORD_CHECKSUM_LEN) u64_modulus);
    [|unfold RECORD_CHECKSUM_LEN in *; ulia].
  set (sl := payload_len_of (take 11 (contents r)) + RECORD_CHECKSUM_LEN) in *.
  destruct (read_up_to_spec (S fuel) r1 (Z.to_nat sl) [] Hh1 ltac:(lia) ltac:(cbn; lia))
    as (r2 & -> & Hc2 & Hh2 & Hs2).
  cbn [length app] in Hc2, Hs2 |- *. rewrite Nat.sub_0_r in *. rewrite Hc1 in *.
  destruct (zlen (take (Z.to_nat sl) (drop 11 (contents r))) <? sl) eqn:E2; [done|].
  destruct (accept_frame _ _ _ _ _); [done|].
  rewrite <- Hc2. apply IH; [done|].
  bool_to_prop. unfold zlen in E0. rewrite length_take in *. lia.
Qed.

Lemma replay_reader_contents fuel r :
  healthy r → (reader_size r < fuel)%nat →
  replay_reader fuel r =
    match FileHeader_decode (take 72 (contents r)) with
    | Err e => Some (Err (ReplayFormat e))
    | Ok header => parse_loop fuel (drop 72 (contents r)) header [] 0 HEADER_LEN
    end.
Proof.
  intros Hh Hf. unfold replay_reader.
  destruct (read_up_to_spec fuel r 72 [] Hh Hf ltac:(cbn; lia)) as (r1 & -> & Hc & Hh1 & Hs).
  cbn [length Nat.sub app] in *. destruct (FileHeader_decode _); [|done].
  rewrite <- Hc. apply replay_loop_parse; [done|]. lia.
Qed.

(** More fuel changes nothing once there is enough. *)
Lemma parse_loop_fuel f1 f2 bs header records expected valid_bytes :
  (length bs < f1)%nat → (length bs < f2)%nat →
  parse_loop f1 bs header records expected valid_bytes =
    parse_loop f2 bs header records expected valid_bytes.
Proof.
  revert f2 bs records expected valid_bytes.
  induction f1 as [|f1 IH]; intros f2 bs records expected valid_bytes H1 H2; [lia|].
  destruct f2 as [|f2]; [lia|]. cbn [parse_loop].
  case_bool; [done|]. case_bool; [done|]. case_bool; [done|].
  destruct (accept_frame _ _ _ _ _); [done|]. bool_to_prop.
  unfold zlen in *. rewrite length_take in *.
  apply IH; rewrite !length_drop; lia.
Qed.

(** ** Frames in sequence *)

Definition frames (rs : list FramedRecord) : list byte := concat (map frame_bytes rs).

Fixpoint numbered (n : Z) (rs : list FramedRecord) : Prop :=
  match rs with
  | [] => True
  | r :: rs => fr_sequence r = n ∧ numbered (n + 1) rs
  end.

Lemma frames_app rs rs' : frames (rs ++ rs') = frames rs ++ frames rs'.
Proof. unfold frames. by rewrite map_app, concat_app. Qed.

Lemma payload_len_frame r rest :
  fits r → payload_len_of (take 11 (frame_bytes r ++ rest)) = zlen (payload_of r).
Proof.
  intros Hfits. unfold fits, MAX_PAYLOAD_LEN in Hfits. unfold payload_len_of.
  pose proof (zlen_nonneg (payload_of r)).
  unfold frame_bytes, frame_body. rewrite <- !app_assoc.
  rewrite (app_assoc _ [kind_of r]), (app_assoc _ (to_le_bytes 2 _)).
  rewrite (take_app_length' (_ ++ to_le_bytes 2 (zlen (payload_of r)))) by (len; done).
  rewrite drop_app_length' by (len; done).
  rewrite take_ge by len. apply from_to_le_bytes. ulia.
Qed.

Lemma frame_split r rest :
  fits r →
  let sl := payload_len_of (take 11 (frame_bytes r ++ rest)) + RECORD_CHECKSUM_LEN in
  take 11 (frame_bytes r ++ rest) ++
    take (Z.to_nat sl) (drop 11 (frame_bytes r ++ rest)) = frame_bytes r ∧
  drop (Z.to_nat sl) (drop 11 (frame_bytes r ++ rest)) = rest ∧
  zlen (take 11 (frame_bytes r ++ rest)) = 11 ∧
  zlen (take (Z.to_nat sl) (drop 11 (frame_bytes r ++ rest))) = sl.
Proof.
  intros Hfits. cbv zeta. rewrite payload_len_frame by done.
  pose proof (zlen_frame_bytes r) as Hlen. pose proof (zlen_nonneg (payload_of r)).
  unfold RECORD_CHECKSUM_LEN.
  remember (Z.to_nat (zlen (payload_of r) + 4)) as k eqn:Hk.
  assert (Hkl : (length (frame_bytes r) = 11 + k)%nat) by (unfold zlen in *; lia).
  rewrite (take_app_le _ rest), (drop_app_le _ rest) by lia.
  assert (Htk : take k (drop 11 (frame_bytes r) ++ rest) = drop 11 (frame_bytes r)).
  { apply take_app_length'. rewrite length_drop. lia. }
  rewrite Htk, take_drop. split_and!; [done| | |].
  - apply drop_app_length'. rewrite length_drop. lia.
  - rewrite zlen_take. unfold zlen. lia.
  - rewrite zlen_drop. unfold zlen in *. lia.
Qed.

Lemma parse_step fuel r rest header records expected valid_bytes :
  wf_framed r → fits r → fr_sequence r = expected →
  expected + 1 < u64_modulus → valid_bytes + zlen (frame_bytes r) < u64_modulus →
  parse_loop (S fuel) (frame_bytes r ++ rest) header records expected valid_bytes =
    parse_loop fuel rest header (records ++ [r]) (expected + 1)
      (valid_bytes + zlen (frame_bytes r)).
Proof.
  intros Hwf Hfits Hseq He Hv. cbn [parse_loop].
  destruct (frame_split r rest Hfits) as (Hcat & Hrest & Hp & Hs).
  rewrite Hcat, Hrest, Hp, Hs.
  change (11 =? 0) with false. change (11 <? RECORD_PREFIX_LEN) with false. cbv beta iota zeta.
  rewrite Z.ltb_irrefl. unfold accept_frame. pose proof (frame_roundtrip r [] Hwf Hfits) as Hd. rewrite app_nil_r in Hd.
  rewrite Hd, Hseq, Z.eqb_refl. cbn [negb]. unfold checked_add64.
  destruct (Z.ltb_spec (valid_bytes + zlen (frame_bytes r)) u64_modulus); [|lia].
  destruct (Z.ltb_spec (expected + 1) u64_modulus); [done|lia].
Qed.

(** Reading past well-formed frames. *)
Lemma parse_frames rs rest fuel header records expected valid_bytes :
  Forall wf_framed rs → Forall fits rs → numbered expected rs →
  expected + zlen rs < u64_modulus → valid_bytes + zlen (frames rs) < u64_modulus →
  (length (frames rs ++ rest) < fuel)%nat →
  parse_loop fuel (frames rs ++ rest) header records expected valid_bytes =
    parse_loop fuel rest header (records ++ rs) (expected + zlen rs)
      (valid_bytes + zlen (frames rs)).
Proof.
  intros Hwf Hfits Hnum. revert fuel records expected valid_bytes Hwf Hfits Hnum.
  induction rs as [|r rs IH]; intros fuel records expected valid_bytes Hwf Hfits Hnum He Hv Hf.
  - cbn. by rewrite app_nil_r, !Z.add_0_r.
  - apply Forall_cons in Hwf as [? Hwf]. apply Forall_cons in Hfits as [? Hfits].
    destruct Hnum as [Hseq Hnum]. rewrite zlen_cons in He.
    change (frames (r :: rs)) with (frame_bytes r ++ frames rs) in *.
    rewrite zlen_app in Hv. rewrite <- app_assoc in *.
    pose proof (zlen_nonneg rs). pose proof (zlen_nonneg (frames rs)).
    destruct fuel as [|fuel]; [lia|].
    rewrite parse_step by (done || lia).
    pose proof (zlen_frame_bytes r). pose proof (zlen_nonneg (payload_of r)).
    assert (Hl : (length (frames rs ++ rest) < fuel)%nat)
      by (rewrite !length_app in *; unfold zlen in *; lia).
    rewrite IH by (done || lia). rewrite <- app_assoc. cbn [app].
    rewrite (parse_loop_fuel fuel (S fuel)) by (rewrite length_app in Hl; lia).
    rewrite zlen_cons, zlen_app. f_equal; lia.
Qed.

(** What any replay returns is an exact prefix of the bytes. *)
Lemma parse_sound fuel bs header records expected valid_bytes out :
  parse_loop fuel bs header records expected valid_bytes = Some (Ok out) →
  ∃ rs, ro_header out = header ∧ ro_records out = records ++ rs ∧
    Forall wf_framed rs ∧ Forall fits rs ∧ numbered expected rs ∧
    frames rs `prefix_of` bs ∧ ro_valid_bytes out = valid_bytes + zlen (frames rs) ∧
    (ro_stop out = CleanEof → bs = frames rs) ∧
    (rs = [] ∨ ro_valid_bytes out < u64_modulus ∧ expected + zlen rs < u64_modulus).
Proof.
  revert bs records expected valid_bytes.
  induction fuel as [|fuel IH]; intros bs records expected valid_bytes Hp; [done|].
  cbn [parse_loop] in Hp.
  assert (Hstop : ∀ stop, (stop = CleanEof → bs = []) →
    out = MkOutcome header records valid_bytes stop → ∃ rs, ro_header out = header ∧
    ro_records out = records ++ rs ∧
    Forall wf_framed rs ∧ Forall fits rs ∧ numbered expected rs ∧
    frames rs `prefix_of` bs ∧ ro_valid_bytes out = valid_bytes + zlen (frames rs) ∧
    (ro_stop out = CleanEof → bs = frames rs) ∧
    (rs = [] ∨ ro_valid_bytes out < u64_modulus ∧ expected + zlen rs < u64_modulus)).
  { intros stop Hs ->. exists []. cbn. rewrite app_nil_r.
    change (frames []) with (@nil byte).
    rewrite zlen_nil. split_and!; try done; [apply prefix_nil|lia|by left]. }
  destruct (zlen (take 11 bs) =? 0) eqn:E0.
  { injection Hp as <-. eapply Hstop; [|done]. intros _. bool_to_prop.
    destruct bs; [done|]. rewrite zlen_take, zlen_cons in E0. pose proof (zlen_nonneg bs). lia. }
  destruct (_ <? RECORD_PREFIX_LEN) eqn:E1.
  { injection Hp as <-. eapply Hstop; [|done]; done. }
  pose proof (payload_len_range (take 11 bs)) as Hpl.
  set (sl := payload_len_of (take 11 bs) + RECORD_CHECKSUM_LEN) in *.
  destruct (zlen (take (Z.to_nat sl) (drop 11 bs)) <? sl) eqn:E2.
  { injection Hp as <-. eapply Hstop; [|done]; done. }
  unfold accept_frame in Hp.
  destruct (FramedRecord_decode_prefix _) as [[r n]|e] eqn:Hd.
  2: { injection Hp as <-. eapply Hstop; [|done]; done. }
  destruct (fr_sequence r =? expected) eqn:Hs; cbn [negb] in Hp.
  2: { injection Hp as <-. eapply Hstop; [|done]; done. }
  destruct (checked_add64 valid_bytes n) as [vb|] eqn:Hv; [|done].
  destruct (checked_add64 expected 1) as [ex|] eqn:He; [|done].
  apply checked_add64_Some in Hv as [-> Hv], He as [-> He].
  apply frame_decode_Ok in Hd as (Hwf & Hfits & -> & Hn & Htake). bool_to_prop.
  set (frame := take 11 bs ++ take (Z.to_nat sl) (drop 11 bs)) in *.
  assert (Hbs : bs = frame ++ drop (Z.to_nat sl) (drop 11 bs)).
  { unfold frame. by rewrite <- app_assoc, !take_drop. }
  assert (Hframe : frame = frame_bytes r ++ drop (Z.to_nat (zlen (frame_bytes r))) frame)
    by by rewrite <- Htake at 1; rewrite take_drop.
  assert (Hplen : payload_len_of (take 11 bs) = zlen (payload_of r)).
  { rewrite Hbs, Hframe, <- app_assoc. by apply payload_len_frame. }
  assert (Hfl : zlen frame = zlen (frame_bytes r)).
  { unfold frame. rewrite zlen_app, zlen_frame_bytes. unfold RECORD_PREFIX_LEN in *.
    rewrite !zlen_take in *. unfold sl, RECORD_CHECKSUM_LEN in *. lia. }
  assert (Heq : frame = frame_bytes r).
  { rewrite Hframe at 1. rewrite drop_ge; [by rewrite app_nil_r|]. unfold zlen in *. lia. }
  apply IH in Hp as (rs & Hh & Hrec & Hwfs & Hfs & Hnum & Hpre & Hval & Hclean & Hbound).
  exists (r :: rs). change (frames (r :: rs)) with (frame_bytes r ++ frames rs).
  rewrite zlen_app, zlen_cons. split_and!.
  - done.
  - rewrite Hrec, <- app_assoc. done.
  - by constructor.
  - by constructor.
  - done.
  - rewrite Hbs, Heq. by apply prefix_app.
  - lia.
  - intros Hc. rewrite Hbs, Heq at 1. f_equal. by apply Hclean.
  - right. destruct Hbound as [->|[? ?]]; [|lia].
    rewrite zlen_nil. cbn in Hval. rewrite zlen_nil in Hval. lia.
Qed.

Lemma parse_loop_total fuel bs header records expected valid_bytes :
  (length bs < fuel)%nat →
  is_Some (parse_loop fuel bs header records expected valid_bytes).
Proof.
  revert bs records expected valid_bytes.
  induction fuel as [|fuel IH]; intros bs records expected valid_bytes Hf; [lia|].
  cbn [parse_loop].
  case_bool; [done|]. case_bool; [done|]. case_bool; [done|].
  destruct (accept_frame _ _ _ _ _); [done|]. bool_to_prop.
  unfold zlen in *. rewrite length_take in *. apply IH. rewrite !length_drop. lia.
Qed.

(** What replay makes of a frame cut short by a crash. *)
Lemma parse_torn r bs fuel header records expected valid_bytes :
  fits r → bs `prefix_of` frame_bytes r → bs ≠ frame_bytes r → bs ≠ [] →
  ∃ needed, zlen bs < needed ∧
    parse_loop (S fuel) bs header records expected valid_bytes =
      Some (Ok (damaged_outcome header records valid_bytes (Truncated needed (zlen bs)))).
Proof.
  intros Hfits [rest Heq] Hne Hnil. cbn [parse_loop].
  assert (Hlt : zlen bs < zlen (frame_bytes r)).
  { rewrite Heq, zlen_app. destruct rest; [by rewrite app_nil_r in Heq|].
    rewrite zlen_cons. pose proof (zlen_nonneg rest). lia. }
  rewrite zlen_frame_bytes in Hlt. rewrite zlen_take.
  assert (0 < zlen bs) by (destruct bs; [done|]; rewrite zlen_cons; pose proof (zlen_nonneg bs); lia).
  destruct (Z.eqb_spec (Z.min (Z.of_nat 11) (zlen bs)) 0); [lia|]. unfold RECORD_PREFIX_LEN.
  destruct (Z.ltb_spec (Z.min (Z.of_nat 11) (zlen bs)) 11).
  { exists 11. split; [lia|]. do 4 f_equal. lia. }
  replace (payload_len_of (take 11 bs)) with (zlen (payload_of r)).
  2: { rewrite <- (payload_len_frame r []) by done. rewrite app_nil_r, Heq.
       rewrite take_app_le; [done|]. unfold zlen in *. lia. }
  unfold RECORD_CHECKSUM_LEN. rewrite zlen_take, zlen_drop.
  destruct (Z.ltb_spec (Z.min (Z.of_nat (Z.to_nat (zlen (payload_of r) + 4)))
    (Z.max (zlen bs - Z.of_nat 11) 0)) (zlen (payload_of r) + 4)); [|lia].
  exists (11 + (zlen (payload_of r) + 4)). split; [lia|]. do 4 f_equal. lia.
Qed.

(** Where a cut of [n] bytes falls among consecutive frames. *)
Lemma cut_frames rs n :
  ∃ whole rest torn, rs = whole ++ rest ∧
    take n (frames rs) = frames whole ++ torn ∧
    match rest with
    | [] => torn = []
    | r :: _ => torn `prefix_of` frame_bytes r ∧ torn ≠ frame_bytes r
    end.
Proof.
  revert n. induction rs as [|r rs IH]; intros n.
  { exists [], [], []. change (frames []) with (@nil byte). by rewrite take_nil. }
  change (frames (r :: rs)) with (frame_bytes r ++ frames rs).
  destruct (decide (length (frame_bytes r) ≤ n)%nat) as [Hge|Hlt].
  - destruct (IH (n - length (frame_bytes r))%nat) as (w & q & t & -> & Ht & Hq).
    exists (r :: w), q, t. split_and!; [done| |done].
    rewrite take_app_ge by done. rewrite Ht.
    change (frames (r :: w)) with (frame_bytes r ++ frames w). by rewrite <- app_assoc.
  - exists [], (r :: rs), (take n (frame_bytes r)). split_and!; [done| |apply prefix_take|].
    + by rewrite take_app_le by lia.
    + intros E. apply (f_equal length) in E. rewrite length_take in E. lia.
Qed.

Lemma numbered_app n rs rs' : numbered n (rs ++ rs') ↔ numbered n rs ∧ numbered (n + zlen rs) rs'.
Proof.
  revert n. induction rs as [|r rs IH]; intros n; cbn [app numbered].
  - rewrite zlen_nil, Z.add_0_r. tauto.
  - rewrite IH, zlen_cons. replace (n + 1 + zlen rs) with (n + (1 + zlen rs)) by lia. tauto.
Qed.

(** ** The whole journal *)

Definition journal (header : FileHeader) (rs : list FramedRecord) : list byte :=
  FileHeader_encode header ++ frames rs.

(** A journal the writer can have produced: representable values, payloads that fit, sequence
    numbers 0, 1, 2, …, and sizes within [u64]. *)
Definition wf_journal (header : FileHeader) (rs : list FramedRecord) : Prop :=
  wf_header header ∧ Forall wf_framed rs ∧ Forall fits rs ∧ numbered 0 rs ∧
  zlen rs < u64_modulus ∧ zlen (journal header rs) < u64_modulus.

Lemma replay_bytes_parse bytes :
  replay_bytes bytes =
    match FileHeader_decode (take 72 bytes) with
    | Err e => Some (Err (ReplayFormat e))
    | Ok header => parse_loop (S (length bytes)) (drop 72 bytes) header [] 0 HEADER_LEN
    end.
Proof.
  unfold replay_bytes. rewrite replay_reader_contents.
  - rewrite cursor_contents. destruct (FileHeader_decode _); [|done].
    apply parse_loop_fuel; rewrite length_drop; lia.
  - apply cursor_healthy.
  - unfold reader_size. rewrite cursor_contents. destruct bytes; cbn; lia.
Qed.

(** Any healthy reader of the same bytes gives what [replay_bytes] gives, given fuel. *)
Lemma replay_reader_replay_bytes fuel r :
  healthy r → (reader_size r < fuel)%nat → replay_reader fuel r = replay_bytes (contents r).
Proof.
  intros Hh Hf. rewrite replay_reader_contents, replay_bytes_parse by done.
  destruct (FileHeader_decode _); [|done].
  apply parse_loop_fuel; rewrite length_drop; unfold reader_size in *; lia.
Qed.

Lemma header_of_journal header rs n :
  wf_header header → (72 ≤ n)%nat →
  FileHeader_decode (take 72 (take n (journal header rs))) = Ok header ∧
  drop 72 (take n (journal header rs)) = take (n - 72) (frames rs) ∧
  length (journal header rs) = (72 + length (frames rs))%nat.
Proof.
  intros Hwf Hn. pose proof (zlen_header_encode header Hwf) as Hl.
  unfold zlen, HEADER_LEN in Hl. unfold journal.
  rewrite take_take, Nat.min_l by done. rewrite take_app_length' by lia. split_and!.
  - rewrite <- (app_nil_r (FileHeader_encode _)). by apply header_roundtrip.
  - rewrite take_app_ge by lia. rewrite drop_app_length' by lia. do 2 f_equal. lia.
  - rewrite length_app. lia.
Qed.

Lemma replay_cut header rs n :
  wf_journal header rs → (72 ≤ n)%nat →
  ∃ whole rest out, rs = whole ++ rest ∧
    replay_bytes (take n (journal header rs)) = Some (Ok out) ∧
    ro_header out = header ∧ ro_records out = whole ∧
    ro_valid_bytes out = zlen (journal header whole) ∧
    ro_valid_bytes out ≤ zlen (take n (journal header rs)) ∧
    match rest with
    | [] => True
    | r :: _ => zlen (take n (journal header rs)) < ro_valid_bytes out + zlen (frame_bytes r)
    end ∧
    if ro_valid_bytes out =? zlen (take n (journal header rs))
    then ro_stop out = CleanEof
    else ∃ needed actual, ro_stop out = DamagedTail (Truncated needed actual) ∧ actual < needed.
Proof.
  intros (Hh & Hwf & Hfits & Hnum & Hcount & Hsize) Hn.
  destruct (header_of_journal header rs n Hh Hn) as (Hdec & Hdrop & Hlen).
  destruct (cut_frames rs (n - 72)) as (w & q & t & -> & Hcut & Hq).
  apply Forall_app in Hwf as [Hww Hwq]. apply Forall_app in Hfits as [Hfw Hfq].
  apply numbered_app in Hnum as [Hnw _].
  rewrite zlen_app in Hcount. pose proof (zlen_nonneg w). pose proof (zlen_nonneg q).
  unfold journal in *. rewrite zlen_app, zlen_header_encode in Hsize by done.
  rewrite frames_app, zlen_app in Hsize.
  pose proof (zlen_nonneg (frames w)). pose proof (zlen_nonneg (frames q)).
  assert (Hbytes : zlen (take n (FileHeader_encode header ++ frames (w ++ q))) =
    HEADER_LEN + zlen (frames w) + zlen t).
  { apply (f_equal zlen) in Hdrop. rewrite Hcut, zlen_app, zlen_drop in Hdrop.
    unfold HEADER_LEN in *. rewrite zlen_take in *. unfold zlen in *. lia. }
  rewrite replay_bytes_parse, Hdec, Hdrop, Hcut, Hbytes.
  rewrite parse_frames; [|done|done|done|lia|unfold HEADER_LEN in *; lia|].
  2: { rewrite <- Hcut, <- Hdrop, length_drop. lia. }
  cbn [app]. rewrite Z.add_0_l. pose proof (zlen_nonneg t).
  assert (Hjl : zlen (FileHeader_encode header ++ frames w) = HEADER_LEN + zlen (frames w))
    by by rewrite zlen_app, zlen_header_encode.
  destruct q as [|r q].
  - subst t. eexists w, [], _. split_and!; [done|reflexivity|..]; try done; cbn.
    all: rewrite ?zlen_nil in *; try lia.
    by destruct (Z.eqb_spec (HEADER_LEN + zlen (frames w))
      (HEADER_LEN + zlen (frames w) + 0)); [|lia].
  - destruct Hq as [Hpre Hne]. apply Forall_cons in Hfq as [Hfr _].
    assert (Htl : zlen t < zlen (frame_bytes r)).
    { destruct Hpre as [x Hx]. rewrite Hx, zlen_app.
      destruct x; [by rewrite app_nil_r in Hx|]. rewrite zlen_cons. pose proof (zlen_nonneg x). lia. }
    destruct (decide (t = [])) as [->|Htn].
    + eexists w, (r :: q), _. split_and!; [done|reflexivity|..]; try done; cbn.
      all: rewrite ?zlen_nil in *; try lia.
      by destruct (Z.eqb_spec (HEADER_LEN + zlen (frames w))
        (HEADER_LEN + zlen (frames w) + 0)); [|lia].
    + destruct (parse_torn r t (length (take n (FileHeader_encode header ++ frames (w ++ r :: q))))
        header w (zlen w) (HEADER_LEN + zlen (frames w)) Hfr Hpre Hne Htn) as (needed & Hlt & ->).
      eexists w, (r :: q), _. split_and!; [done|reflexivity|..]; try done; cbn; try lia.
      assert (0 < zlen t) by (destruct t; [done|]; rewrite zlen_cons; pose proof (zlen_nonneg t); lia).
      destruct (Z.eqb_spec (HEADER_LEN + zlen (frames w))
        (HEADER_LEN + zlen (frames w) + zlen t)); [lia|].
      by exists needed, (zlen t).
Qed.

Lemma replay_sound bytes out :
  replay_bytes bytes = Some (Ok out) →
  wf_journal (ro_header out) (ro_records out) ∧
  journal (ro_header out) (ro_records out) `prefix_of` bytes ∧
  ro_valid_bytes out = zlen (journal (ro_header out) (ro_records out)) ∧
  (ro_stop out = CleanEof → bytes = journal (ro_header out) (ro_records out)).
Proof.
  rewrite replay_bytes_parse. intros Hr.
  destruct (FileHeader_decode _) as [h|] eqn:Hd; [|done].
  apply header_decode_Ok in Hd as (Hwf & Hlen & Htake).
  rewrite take_take in Htake. change (72 `min` 72)%nat with 72%nat in Htake.
  apply parse_sound in Hr as (rs & -> & Hrec & Hws & Hfs & Hnum & Hpre & Hval & Hclean & Hb).
  cbn in Hrec. subst rs. pose proof (zlen_header_encode h Hwf) as Hhl.
  assert (Hbytes : bytes = FileHeader_encode h ++ drop 72 bytes) by by rewrite <- Htake, take_drop.
  unfold journal. rewrite zlen_app, Hhl. split_and!.
  - unfold wf_journal, journal. rewrite zlen_app, Hhl. split_and!; try done.
    + destruct Hb as [->|[_ Hb]]; [done|lia].
    + destruct Hb as [->|[Hb _]]; [done|lia].
  - rewrite Hbytes. by apply prefix_app.
  - done.
  - intros Hs. rewrite Hbytes at 1. f_equal. by apply Hclean.
Qed.

Lemma replay_journal header rs :
  wf_journal header rs →
  replay_bytes (journal header rs) =
    Some (Ok (MkOutcome header rs (zlen (journal header rs)) CleanEof)).
Proof.
  intros Hwf. pose proof Hwf as (Hh & Hws & Hfs & Hnum & Hc & Hs).
  pose proof (header_of_journal header rs (length (journal header rs)) Hh) as Hj.
  pose proof (zlen_header_encode header Hh) as Hl.
  assert (Hge : (72 ≤ length (journal header rs))%nat).
  { unfold journal. rewrite length_app. unfold zlen, HEADER_LEN in Hl. lia. }
  destruct (Hj Hge) as (Hd & Hdr & Hlen).
  rewrite (take_ge (journal header rs)) in Hd, Hdr by lia.
  rewrite (take_ge (frames rs)) in Hdr by lia. rewrite replay_bytes_parse.
  rewrite Hd, Hdr. rewrite <- (app_nil_r (frames rs)).
  unfold journal in *. rewrite zlen_app, Hl in *.
  rewrite parse_frames; rewrite ?app_nil_r; try done; try lia.
Qed.

(** What [recover_journal] leaves on disk replays cleanly to the same records. *)
Lemma recover_clean bytes fuel r set_len out bytes' :
  healthy r → contents r = bytes → (reader_size r < fuel)%nat →
  recover_journal (Ok r) bytes set_len (Ok tt) fuel = Some (Ok out, bytes') →
  bytes' = journal (ro_header out) (ro_records out) ∧
  wf_journal (ro_header out) (ro_records out) ∧ bytes' `prefix_of` bytes.
Proof.
  intros Hh Hc Hf. cbn [recover_journal]. rewrite replay_reader_replay_bytes, Hc by done.
  destruct (replay_bytes bytes) as [[o|e]|] eqn:Hr; [|done..].
  apply replay_sound in Hr as (Hwf & Hpre & Hval & Hclean).
  case_bool_decide as Hs; [|destruct set_len; [|done]]; intros [= <- <-].
  - rewrite <- (Hclean Hs). by split_and!.
  - assert (Htake : take (Z.to_nat (ro_valid_bytes o)) bytes =
      journal (ro_header o) (ro_records o)).
    { destruct Hpre as [rest ->]. rewrite Hval. apply take_app_length'. unfold zlen. lia. }
    rewrite Htake. by split_and!.
Qed.

End replay_facts.

(** ** Properties *)

Import Concrete.

(** What replay returns depends on the journal's bytes only.  Through any healthy reader —
    short reads of any size, any number of interruptions — the loop terminates and returns what
    the in-memory replay of the same bytes returns. *)
Theorem replay_ignores_read_boundaries `{Checksum} r fuel :
  healthy r → (reader_size r < fuel)%nat →
  replay_reader fuel r = replay_bytes (contents r) ∧ is_Some (replay_bytes (contents r)).
Proof.
  intros Hh Hf. split; [by apply replay_reader_replay_bytes|].
  rewrite replay_bytes_parse. destruct (FileHeader_decode _); [|done].
  apply parse_loop_total. rewrite length_drop. lia.
Qed.

Definition ex_header : FileHeader :=
  FileHeader_new (replicate 16 x11) 100 0 (replicate 32 x22).
Definition ex_records : list FramedRecord :=
  [FramedRecord_new 0 (Truncate 80); FramedRecord_new 1 (Checkpoint 1 2);
   FramedRecord_new 2 (IdentityUpdate [x01])].

Example replay_ignores_read_boundaries_witness :
  let bytes := journal ex_header ex_records in
  let r := [Data (take 5 bytes); Fail (MkError Interrupted (Some 4)); Data (drop 5 bytes)] in
  replay_reader 500 r = replay_bytes (contents r).
Proof.
  apply replay_ignores_read_boundaries.
  - repeat constructor; vm_compute; discriminate.
  - vm_compute. lia.
Defined.

(** A crash while appending loses only the frame being written.  Cut the file of a
    well-formed journal at any byte past its header: replay succeeds, returns exactly the records
    whose frames are wholly inside the cut, reports the boundary after the last of them, and says
    [CleanEof] when the cut falls on that boundary, a truncated frame otherwise. *)
Theorem replay_after_torn_append `{Checksum} header rs n :
  wf_journal header rs → (72 ≤ n)%nat →
  ∃ whole rest out, rs = whole ++ rest ∧
    replay_bytes (take n (journal header rs)) = Some (Ok out) ∧
    ro_header out = header ∧ ro_records out = whole ∧
    ro_valid_bytes out = zlen (journal header whole) ∧
    ro_valid_bytes out ≤ zlen (take n (journal header rs)) ∧
    match rest with
    | [] => True
    | r :: _ => zlen (take n (journal header rs)) < ro_valid_bytes out + zlen (frame_bytes r)
    end ∧
    if ro_valid_bytes out =? zlen (take n (journal header rs))
    then ro_stop out = CleanEof
    else ∃ needed actual, ro_stop out = DamagedTail (Truncated needed actual) ∧ actual < needed.
Proof. apply replay_cut. Qed.

Lemma ex_wf_journal : wf_journal ex_header ex_records.
Proof.
  unfold wf_journal. split; [split_and!; cbn; (done || ulia)|].
  split; [repeat constructor; cbn; (ulia || done)|].
  split; [repeat constructor; vm_compute; discriminate|].
  by split_and!.
Qed.

Example replay_after_torn_append_witness :
  ∃ whole rest out, ex_records = whole ++ rest ∧
    replay_bytes (take 100 (journal ex_header ex_records)) = Some (Ok out) ∧
    ro_records out = whole.
Proof.
  destruct (replay_after_torn_append ex_header ex_records 100 ex_wf_journal ltac:(lia))
    as (w & q & out & ? & ? & _ & ? & _).
  exists w, q, out. repeat split; assumption.
Defined.

(** C6: Recovery believes only what the file says, and repairs it once.  When [recover_journal]
    succeeds, the file it leaves is a prefix of the file it found and is exactly the header and
    the canonical frames of the records it returns, numbered 0, 1, 2, …; and recovering that file
    again returns the same header and records, stops cleanly and changes nothing. *)
Theorem recover_journal_repairs `{Checksum} bytes r fuel set_len out bytes' :
  healthy r → contents r = bytes → (reader_size r < fuel)%nat →
  recover_journal (Ok r) bytes set_len (Ok tt) fuel = Some (Ok out, bytes') →
  bytes' `prefix_of` bytes ∧ bytes' = journal (ro_header out) (ro_records out) ∧
  numbered 0 (ro_records out) ∧
  recover_journal (Ok (cursor bytes')) bytes' (Ok tt) (Ok tt) (S (S (length bytes'))) =
    Some (Ok (MkOutcome (ro_header out) (ro_records out) (zlen bytes') CleanEof), bytes').
Proof.
  intros Hh Hc Hf Hr.
  destruct (recover_clean bytes fuel r set_len out bytes' Hh Hc Hf Hr) as (-> & Hwf & Hpre).
  split_and!; [done..|by apply Hwf|]. cbn [recover_journal].
  change (replay_reader _ (cursor ?b)) with (replay_bytes b).
  by rewrite replay_journal.
Qed.

Example recover_journal_repairs_witness :
  let bytes := take 100 (journal ex_header ex_records) in
  ∃ out bytes', recover_journal (Ok (cursor bytes)) bytes (Ok tt) (Ok tt) 200 =
      Some (Ok out, bytes') ∧
    bytes' = journal (ro_header out) (ro_records out).
Proof.
  eexists _, _. split; [vm_compute; reflexivity|].
  eapply (recover_journal_repairs (take 100 (journal ex_header ex_records))
    (cursor (take 100 (journal ex_header ex_records))) 200 (Ok tt)).
  - apply cursor_healthy.
  - apply cursor_contents.
  - vm_compute. lia.
  - vm_compute. reflexivity.
Defined.

End Replay.
