(* ===== verification/PartFile.v ===== *)
(** * [downpour-storage/src/part_file.rs]: preallocated part files

    Creation, reopening, growth and positional writes of a [.dppart], on the operating-system
    calls of [Io.Os]; the preparation policies of both platforms. *)

From S2P Require Import Prelude Io.
From Stdlib Require Import String Ascii.
From stdpp Require Import list.
#[local] Open Scope Z_scope.

Module PartFile.
Import Io.Io.

Definition path := string.

Inductive PreallocationMethod :=
| NotNeeded | FallocateKeepSize | PosixFallocate | FileAllocationInfo | SetLength.
#[export] Instance PreallocationMethod_eq_dec : EqDecision PreallocationMethod.
Proof. solve_decision. Defined.

Definition method_space_reserved (m : PreallocationMethod) : bool :=
  match m with SetLength => false | _ => true end.

Record PartFile := MkPartFile {
  pf_file : File;
  pf_path : path;
  pf_total_length : Z;
  pf_preallocation_method : PreallocationMethod;
}.

Inductive PartFileError :=
| Missing (p : path)
| CannotShrink (current requested : Z)
| InvalidTarget (target : path)
| UnsupportedLength (length : Z)
| PartAlreadyExists (p : path)
| OutOfBounds (offset length total_length : Z)
| BufferTooLarge
| PartIo (operation : string) (p : path) (source : Error).

Record RecoveredPartFile := MkRecovered {
  rp_part : PartFile;
  rp_observed_length : Z;
  rp_reextended : bool;
  rp_space_reserved : bool;
}.

(** ** [part_path_for], with [Path::file_name] on Unix: the last component, unless it is [..] *)

Fixpoint split_slash (s : string) (current : string) : list string :=
  match s with
  | EmptyString => [current]
  | String c s =>
      if Ascii.eqb c "/"%char then current :: split_slash s EmptyString
      else split_slash s (current ++ String c EmptyString)
  end.
Definition path_components (p : path) : list string :=
  List.filter (λ c, negb (String.eqb c EmptyString || String.eqb c ".")) (split_slash p EmptyString).
Definition file_name (p : path) : option string :=
  match last (path_components p) with
  | Some c => if String.eqb c ".." then None else Some c
  | None => None
  end.

Definition part_path_for (target : path) : result path PartFileError :=
  match file_name target with
  | None => Err (InvalidTarget target)
  | Some _ => Ok (target ++ ".dppart")%string
  end.

Definition i64_try_from (n : Z) : option Z := if n <=? 9223372036854775807 then Some n else None.

(** ** Preparation *)

(** [trait AllocationOperations] of the Linux platform module. *)
Record AllocationOperations := {
  ao_fallocate_keep_size : File → result unit Error * File;
  ao_posix_fallocate : File → result unit Error * File;
  ao_set_len : File → result unit Error * File;
}.

(** [EOPNOTSUPP], [ENOSYS], [EINVAL]. *)
Definition is_unsupported (error : Error) : bool :=
  match raw_os_error error with
  | Some code => (code =? 95) || (code =? 38) || (code =? 22)
  | None => false
  end.

Definition prepare_with (operations : AllocationOperations) (f : File)
    : result PreallocationMethod Error * File :=
  let '(r, f) := ao_fallocate_keep_size operations f in
  let posix :=
    let '(r, f) := ao_posix_fallocate operations f in
    match r with
    | Ok _ =>
        let '(r, f) := ao_set_len operations f in
        (let? _ := r in Ok PosixFallocate, f)
    | Err error =>
        if is_unsupported error then
          let '(r, f) := ao_set_len operations f in
          (let? _ := r in Ok SetLength, f)
        else (Err error, f)
    end in
  match r with
  | Ok _ =>
      let '(r, f) := ao_set_len operations f in
      (let? _ := r in Ok FallocateKeepSize, f)
  | Err error => if is_unsupported error then posix else (Err error, f)
  end.

Section part_file.
Context `{Os}.

(** [impl AllocationOperations for SystemAllocation]. *)
Definition SystemAllocation (length signed_length : Z) : AllocationOperations := {|
  ao_fallocate_keep_size := os_fallocate_keep_size length;
  ao_posix_fallocate := os_posix_fallocate signed_length;
  ao_set_len := os_set_len length;
|}.

Definition prepare (f : File) (length signed_length : Z)
    : result PreallocationMethod Error * File :=
  if length =? 0 then
    let '(r, f) := os_set_len 0 f in (let? _ := r in Ok NotNeeded, f)
  else prepare_with (SystemAllocation length signed_length) f.

Definition platform_allocated_size (f : File) : result Z Error :=
  let? blocks := os_blocks f in Ok (Z.min (blocks * 512) u64_max).

(** [OpenOptions::create_new]: [opened] is the answer for the derived path. *)
Definition create_new (operation : string) (opened : path → result File Error) (p : path)
    : result File PartFileError :=
  match opened p with
  | Ok f => Ok f
  | Err source =>
      if bool_decide (kind source = AlreadyExists) then Err (PartAlreadyExists p)
      else Err (PartIo operation p source)
  end.

Definition create (opened : path → result File Error) (target : path) (total_length : Z)
    : result PartFile PartFileError :=
  let? signed_length := ok_or (i64_try_from total_length) (UnsupportedLength total_length) in
  let? p := part_path_for target in
  let? file := create_new "create part file exclusively" opened p in
  let '(prepared, file) := prepare file total_length signed_length in
  let? method := map_err (PartIo "prepare part-file extent" p) prepared in
  Ok (MkPartFile file p total_length method).

Definition allocated_size (pf : PartFile) : result Z PartFileError :=
  map_err (PartIo "query part-file allocation" (pf_path pf)) (platform_allocated_size (pf_file pf)).

(** The second component is the file on disk when the call returns. *)
Definition open_existing (opened : result File Error) (p : path) (total_length : Z)
    : result RecoveredPartFile PartFileError * option File :=
  match i64_try_from total_length with
  | None => (Err (UnsupportedLength total_length), ok opened)
  | Some signed_length =>
      match opened with
      | Err source =>
          (if bool_decide (kind source = NotFound) then Err (Missing p)
           else Err (PartIo "reopen part file for recovery" p source), None)
      | Ok file =>
          match os_len file with
          | Err source => (Err (PartIo "measure recovered part-file extent" p source), Some file)
          | Ok observed_length =>
              if observed_length <? total_length then
                let '(prepared, file) := prepare file total_length signed_length in
                (let? method := map_err (PartIo "restore part-file extent" p) prepared in
                 Ok (MkRecovered (MkPartFile file p total_length method) observed_length true
                       (method_space_reserved method)), Some file)
              else
                let part := MkPartFile file p total_length SetLength in
                (let? allocated := allocated_size part in
                 Ok (MkRecovered part observed_length false (total_length <=? allocated)),
                 Some file)
          end
      end
  end.

Definition create_growable (opened : path → result File Error) (target : path)
    : result PartFile PartFileError :=
  let? p := part_path_for target in
  let? file := create_new "create growable part file exclusively" opened p in
  Ok (MkPartFile file p 0 SetLength).

Definition extend_to (pf : PartFile) (new_length : Z) : result unit PartFileError * PartFile :=
  if new_length <? pf_total_length pf
  then (Err (CannotShrink (pf_total_length pf) new_length), pf)
  else if new_length =? pf_total_length pf then (Ok tt, pf)
  else
    let '(r, file) := os_set_len new_length (pf_file pf) in
    match r with
    | Err source =>
        (Err (PartIo "extend growable part-file extent" (pf_path pf) source),
         MkPartFile file (pf_path pf) (pf_total_length pf) (pf_preallocation_method pf))
    | Ok _ => (Ok tt, MkPartFile file (pf_path pf) new_length (pf_preallocation_method pf))
    end.

Definition space_reserved (pf : PartFile) : bool :=
  method_space_reserved (pf_preallocation_method pf).

Definition in_bounds (pf : PartFile) (offset length : Z) : bool :=
  match checked_add64 offset length with
  | Some end_ => end_ <=? pf_total_length pf
  | None => false
  end.

(** [write_all_at]; [platform_write] is the platform's. *)
Definition write_all_at_with (platform_write : Z → list byte → File → result unit Error * File)
    (pf : PartFile) (offset : Z) (bytes : list byte) : result unit PartFileError * PartFile :=
  if negb (in_bounds pf offset (zlen bytes))
  then (Err (OutOfBounds offset (zlen bytes) (pf_total_length pf)), pf)
  else
    let '(r, file) := platform_write offset bytes (pf_file pf) in
    (map_err (PartIo "write part-file bytes positionally" (pf_path pf)) r,
     MkPartFile file (pf_path pf) (pf_total_length pf) (pf_preallocation_method pf)).

(** Linux: [FileExt::write_all_at]. *)
Definition write_all_at : PartFile → Z → list byte → result unit PartFileError * PartFile :=
  write_all_at_with os_pwrite_all.

Definition sync_data (pf : PartFile) : result unit PartFileError :=
  map_err (PartIo "synchronise part-file data" (pf_path pf)) (os_sync_data (pf_file pf)).

(** *** Windows *)

(** The [seek_write] loop; [fuel] bounds its turns ([windows_write_exact]). *)
Fixpoint windows_write_loop (fuel : nat) (offset : Z) (bytes : list byte) (written : Z) (f : File)
    : option (result unit Error * File) :=
  match fuel with
  | O => None
  | S fuel =>
      if bool_decide (bytes = []) then Some (Ok tt, f)
      else
        match checked_add64 offset written with
        | None => Some (Err (MkError InvalidInput None), f)
        | Some current_offset =>
            let '(r, f) := os_seek_write current_offset bytes f in
            match r with
            | Err e => Some (Err e, f)
            | Ok count =>
                if count =? 0 then Some (Err (MkError WriteZero None), f)
                else
                  match checked_add64 written count with
                  | None => Some (Err invalid_data, f)
                  | Some written =>
                      windows_write_loop fuel offset (drop (Z.to_nat count) bytes) written f
                  end
            end
        end
  end.

Definition windows_write_all_at (offset : Z) (bytes : list byte) (f : File)
    : option (result unit Error * File) :=
  windows_write_loop (S (length bytes)) offset bytes 0 f.

End part_file.

(** The Windows [trait AllocationOperations] and policy. *)
Record WindowsOperations := {
  wo_mark_sparse : File → result unit Error * File;
  wo_request_allocation : File → result unit Error * File;
  wo_set_len : File → result unit Error * File;
  wo_allocated_size : File → result Z Error;
}.

(** [ERROR_INVALID_FUNCTION], [ERROR_NOT_SUPPORTED], [ERROR_INVALID_PARAMETER]. *)
Definition windows_is_unsupported (error : Error) : bool :=
  match raw_os_error error with
  | Some code => (code =? 1) || (code =? 50) || (code =? 87)
  | None => false
  end.

Definition windows_prepare_with (operations : WindowsOperations) (length : Z) (f : File)
    : result PreallocationMethod Error * File :=
  let mark_sparse f k :=
    let '(r, f) := wo_mark_sparse operations f in
    match r with
    | Err error => if negb (windows_is_unsupported error) then (Err error, f) else k f
    | Ok _ => k f
    end in
  let '(r, f) := wo_request_allocation operations f in
  match r with
  | Ok _ =>
      let '(r, f) := wo_set_len operations f in
      match r with
      | Err e => (Err e, f)
      | Ok _ =>
          mark_sparse f (λ f,
            (let? allocated := wo_allocated_size operations f in
             Ok (if length <=? allocated then FileAllocationInfo else SetLength), f))
      end
  | Err error =>
      if windows_is_unsupported error then
        mark_sparse f (λ f,
          let '(r, f) := wo_set_len operations f in (let? _ := r in Ok SetLength, f))
      else (Err error, f)
  end.

(** ** What preparation does to the file *)

Section part_file_facts.
Context `{OsLaws}.

(** A file of at most [n] bytes becomes [n] bytes long, old bytes first, or keeps them. *)
Definition prepared (n : Z) (f : File) (r : result PreallocationMethod Error) (f' : File) : Prop :=
  f_content f `prefix_of` f_content f' ∧ f_reserved f ≤ f_reserved f' ∧
  zlen (f_content f') ≤ n ∧
  match r with
  | Ok m => f_content f' = set_length n (f_content f) ∧
      (method_space_reserved m = true → n ≤ f_reserved f')
  | Err _ => True
  end.

Lemma set_len_grow n f r f' :
  os_set_len n f = (r, f') → zlen (f_content f) ≤ n →
  f_content f `prefix_of` f_content f' ∧ f_reserved f ≤ f_reserved f' ∧
  zlen (f_content f') ≤ n ∧ (r = Ok tt → f_content f' = set_length n (f_content f)).
Proof.
  intros [Hres Hc]%set_len_law Hle. pose proof (zlen_nonneg (f_content f)).
  rewrite Hc. destruct r as [[]|e]; split_and!; auto; try done.
  - rewrite set_length_grow by done. by eexists.
  - rewrite zlen_set_length; lia.
Qed.

Lemma prefix_set_length n c : zlen c ≤ n → c `prefix_of` set_length n c.
Proof. intros. rewrite set_length_grow by done. by eexists. Qed.

Lemma prepare_with_spec n f r f' :
  prepare_with (SystemAllocation n n) f = (r, f') → zlen (f_content f) ≤ n → prepared n f r f'.
Proof.
  unfold prepare_with, prepared. cbn [SystemAllocation ao_fallocate_keep_size
    ao_posix_fallocate ao_set_len]. intros Hp Hle.
  destruct (os_fallocate_keep_size n f) as [r1 f1] eqn:E1.
  apply fallocate_law in E1 as (Hc1 & Hr1 & Hok1).
  destruct r1 as [[]|e1].
  - destruct (os_set_len n f1) as [r2 f2] eqn:E2. injection Hp as <- <-.
    apply set_len_grow in E2 as (Hp2 & Hr2 & Hl2 & Hok2); [|by rewrite Hc1]. rewrite Hc1 in *.
    destruct r2 as [[]|]; split_and!; try done; try lia; [by apply Hok2|].
    intros _. specialize (Hok1 eq_refl). lia.
  - destruct (is_unsupported e1).
    2: { injection Hp as <- <-. rewrite Hc1. by split_and!. }
    destruct (os_posix_fallocate n f1) as [r2 f2] eqn:E2.
    apply posix_fallocate_law in E2 as ((k & Hc2) & Hr2 & Hl2 & Hok2). rewrite Hc1 in *.
    assert (Hp2 : f_content f `prefix_of` f_content f2) by (rewrite Hc2; by eexists).
    assert (Hset : set_length n (f_content f2) = set_length n (f_content f)).
    { rewrite Hc2. apply set_length_app_zeros. rewrite Hc2, zlen_app, zlen_replicate in Hl2. lia. }
    assert (Hfin : ∀ m r3 f3, os_set_len n f2 = (r3, f3) →
      (method_space_reserved m = true → n ≤ f_reserved f2) →
      prepared n f (let? _ := r3 in Ok m) f3).
    { intros m r3 f3 E3 Hm. apply set_len_grow in E3 as (Hp3 & Hr3 & Hl3 & Hok3); [|lia].
      split; [by etransitivity|]. split; [lia|]. split; [done|].
      destruct r3 as [[]|]; [|done].
      split; [by rewrite Hok3|]. intros Hs. specialize (Hm Hs). lia. }
    destruct r2 as [[]|e2]; [|destruct (is_unsupported e2)].
    + destruct (os_set_len n f2) as [r3 f3] eqn:E3. injection Hp as <- <-.
      apply (Hfin PosixFallocate r3 f3 eq_refl). intros _. by apply Hok2.
    + destruct (os_set_len n f2) as [r3 f3] eqn:E3. injection Hp as <- <-.
      by apply (Hfin SetLength r3 f3 eq_refl).
    + injection Hp as <- <-. split_and!; [done|lia|lia|done].
Qed.

Lemma prepare_spec n f r f' :
  prepare f n n = (r, f') → 0 ≤ n → 0 ≤ f_reserved f → zlen (f_content f) ≤ n →
  prepared n f r f'.
Proof.
  unfold prepare. intros Hp Hn Hr Hle. destruct (Z.eqb_spec n 0) as [->|].
  - destruct (os_set_len 0 f) as [r1 f1] eqn:E1. injection Hp as <- <-.
    apply set_len_grow in E1 as (Hp1 & Hr1 & Hl1 & Hok1); [|done].
    split; [done|]. split; [done|]. split; [done|].
    destruct r1 as [[]|]; [|done]. split; [by apply Hok1|]. cbn. lia.
  - by apply prepare_with_spec.
Qed.

(** When the policy settles for a bare length, both reservations were unsupported; when the system
    refuses for any other reason, so does the policy. *)
Lemma prepare_with_fallback operations f :
  let '(r1, f1) := ao_fallocate_keep_size operations f in
  let '(r2, f2) := ao_posix_fallocate operations f1 in
  match r1 with
  | Ok _ => ∀ f', prepare_with operations f ≠ (Ok SetLength, f')
  | Err e1 =>
      if is_unsupported e1 then
        match r2 with
        | Ok _ => ∀ f', prepare_with operations f ≠ (Ok SetLength, f')
        | Err e2 =>
            if is_unsupported e2 then
              prepare_with operations f =
                (let '(r3, f3) := ao_set_len operations f2 in (let? _ := r3 in Ok SetLength, f3))
            else prepare_with operations f = (Err e2, f2)
        end
      else prepare_with operations f = (Err e1, f1)
  end.
Proof.
  unfold prepare_with. destruct (ao_fallocate_keep_size operations f) as [r1 f1].
  destruct (ao_posix_fallocate operations f1) as [r2 f2].
  destruct (ao_set_len operations f1) as [r3 f3], (ao_set_len operations f2) as [r4 f4].
  destruct r1 as [[]|e1], r2 as [[]|e2], r3 as [[]|], r4 as [[]|]; repeat case_bool; done.
Qed.

Lemma i64_try_from_Some n m : i64_try_from n = Some m → m = n ∧ n ≤ 9223372036854775807.
Proof. unfold i64_try_from. case_bool; [|done]. bool_to_prop. by intros [= <-]. Qed.

(** ** Writes *)

(** What a positional write of [bytes] leaves. *)
Definition written (offset : Z) (bytes : list byte) (f : File) (r : result unit Error) (f' : File)
    : Prop :=
  f_reserved f ≤ f_reserved f' ∧
  match r with
  | Ok _ => f_content f' = overwrite offset bytes (f_content f)
  | Err _ => same_outside offset (zlen bytes) (f_content f) (f_content f')
  end.

Lemma overwrite_nil offset c :
  0 ≤ offset → offset ≤ zlen c → overwrite offset [] c = c.
Proof.
  intros. unfold overwrite, copy_from_slice. cbn. rewrite Nat.add_0_r. apply take_drop.
Qed.

Lemma windows_write_spec fuel offset bytes w f :
  0 ≤ offset → 0 ≤ w → offset + w + zlen bytes ≤ zlen (f_content f) →
  offset + w + zlen bytes < u64_modulus → (length bytes < fuel)%nat →
  ∃ r f', windows_write_loop fuel offset bytes w f = Some (r, f') ∧ written (offset + w) bytes f r f'.
Proof.
  revert bytes w f. induction fuel as [|fuel IH]; intros bytes w f Ho Hw Hin Hu Hf; [lia|].
  cbn [windows_write_loop]. pose proof (zlen_nonneg bytes). case_bool_decide as Hnil.
  { exists (Ok tt), f. split; [done|]. split; [done|]. subst bytes. rewrite zlen_nil in *.
    by rewrite overwrite_nil by lia. }
  unfold checked_add64. destruct (Z.ltb_spec (offset + w) u64_modulus); [|lia].
  destruct (os_seek_write (offset + w) bytes f) as [r1 f1] eqn:E1.
  apply seek_write_law in E1 as [Hr1 Hc1]; [|lia|lia].
  destruct r1 as [n|e]; [|by eexists _, _].
  destruct Hc1 as [Hn Hc1]. set (k := Z.to_nat n) in *.
  assert (Hzk : zlen (take k bytes) = n) by (rewrite zlen_take; lia).
  assert (Hlen1 : zlen (f_content f1) = zlen (f_content f)).
  { rewrite Hc1. unfold zlen at 1. rewrite overwrite_length; [done|lia|lia]. }
  destruct (Z.eqb_spec n 0) as [->|Hne].
  - eexists _, _. split; [done|]. split; [done|]. rewrite Hc1.
    eapply same_outside_weaken; [apply overwrite_outside; lia|lia|lia].
  - destruct (Z.ltb_spec (w + n) u64_modulus); [|lia].
    assert (Hdl : zlen (drop k bytes) = zlen bytes - n) by (rewrite zlen_drop; lia).
    destruct (IH (drop k bytes) (w + n) f1) as (r2 & f2 & -> & Hr2 & Hc2); try lia.
    { rewrite length_drop. unfold zlen in *. lia. }
    exists r2, f2. split; [done|]. split; [lia|].
    replace (offset + (w + n)) with (offset + w + n) in Hc2 by lia. destruct r2 as [[]|].
    + rewrite Hc2, Hc1. rewrite <- Hzk at 1. rewrite overwrite_app by lia. by rewrite take_drop.
    + eapply same_outside_trans; [|eapply same_outside_weaken; [exact Hc2|lia|lia]].
      rewrite Hc1. eapply same_outside_weaken; [apply overwrite_outside; lia|lia|lia].
Qed.

(** A part file: its extent is on disk. *)
Definition wf_part (pf : PartFile) : Prop :=
  0 ≤ pf_total_length pf ≤ zlen (f_content (pf_file pf)) ∧ pf_total_length pf < u64_modulus.

Lemma in_bounds_spec pf offset (bytes : list byte) :
  wf_part pf →
  in_bounds pf offset (zlen bytes) = true ↔ offset + zlen bytes ≤ pf_total_length pf.
Proof.
  intros [? ?]. unfold in_bounds, checked_add64.
  destruct (Z.ltb_spec (offset + zlen bytes) u64_modulus); [by rewrite Z.leb_le|].
  split; [done|lia].
Qed.

Lemma write_all_at_spec pf offset bytes :
  wf_part pf → 0 ≤ offset →
  let '(r, pf') := write_all_at pf offset bytes in
  wf_part pf' ∧ pf_total_length pf' = pf_total_length pf ∧
  if offset + zlen bytes <=? pf_total_length pf then
    (∃ r', written offset bytes (pf_file pf) r' (pf_file pf') ∧ is_ok r = is_ok r') ∧
    (r = Ok tt →
      zslice (f_content (pf_file pf')) offset (offset + zlen bytes) = Some bytes)
  else r = Err (OutOfBounds offset (zlen bytes) (pf_total_length pf)) ∧ pf' = pf.
Proof.
  intros Hwf Ho. pose proof Hwf as [[? ?] ?]. pose proof (zlen_nonneg bytes).
  unfold write_all_at, write_all_at_with.
  destruct (Z.leb_spec (offset + zlen bytes) (pf_total_length pf)) as [Hin|Hout].
  - rewrite (proj2 (in_bounds_spec pf offset bytes Hwf)) by done. cbn [negb].
    destruct (os_pwrite_all offset bytes (pf_file pf)) as [r f'] eqn:Ew.
    apply pwrite_all_law in Ew as [Hr Hc]; [|lia..]. cbn.
    assert (Hlen : zlen (f_content f') = zlen (f_content (pf_file pf))).
    { unfold zlen. f_equal. destruct r; [rewrite Hc; apply overwrite_length; lia|by destruct Hc]. }
    split; [by unfold wf_part; cbn; rewrite Hlen|]. split; [done|]. split.
    + exists r. split; [by split|by destruct r].
    + destruct r as [[]|]; [|done]. intros _. rewrite Hc. apply overwrite_read; lia.
  - destruct (in_bounds pf offset (zlen bytes)) eqn:E; [|done].
    apply in_bounds_spec in E; [lia|done].
Qed.

(** [open_existing], whatever it returns. *)
Lemma open_existing_spec f p total_length :
  0 ≤ total_length → 0 ≤ f_reserved f →
  let '(r, left_) := open_existing (Ok f) p total_length in
  ∃ f', left_ = Some f' ∧ f_content f `prefix_of` f_content f' ∧
    match r with
    | Ok rp =>
        pf_file (rp_part rp) = f' ∧ pf_total_length (rp_part rp) = total_length ∧
        rp_observed_length rp = zlen (f_content f) ∧
        rp_reextended rp = (zlen (f_content f) <? total_length) ∧
        f_content f' = set_length (Z.max total_length (zlen (f_content f))) (f_content f) ∧
        (rp_space_reserved rp = true → total_length ≤ f_reserved f')
    | Err e => e = UnsupportedLength total_length ↔ 9223372036854775807 < total_length
    end.
Proof.
  intros Hn Hres. unfold open_existing.
  destruct (i64_try_from total_length) as [n|] eqn:Ei.
  2: { unfold i64_try_from in Ei. case_bool; [done|]. bool_to_prop. by exists f. }
  apply i64_try_from_Some in Ei as [-> Hmax].
  destruct (os_len f) as [len|e] eqn:El; [|exists f; do 2 (split; [done|]); split; [done|lia]].
  apply len_law in El as ->.
  destruct (Z.ltb_spec (zlen (f_content f)) total_length) as [Hlt|Hge].
  - destruct (prepare f total_length total_length) as [r f'] eqn:Er.
    apply prepare_spec in Er as (Hpre & Hr & Hl & Hm); [|lia..].
    exists f'. split; [done|]. split; [done|].
    destruct r as [m|e]; cbn [map_err]; [|split; [done|lia]]. destruct Hm as [Hc Hs]. cbn.
    rewrite Z.max_l by lia. by split_and!.
  - exists f. split; [done|]. split; [done|]. unfold allocated_size, platform_allocated_size. cbn.
    destruct (os_blocks f) as [b|e] eqn:Eb; cbn [map_err]; [|split; [done|lia]]. cbn.
    apply blocks_law in Eb as [? ?]; [|done].
    rewrite Z.max_r by lia. rewrite set_length_same. split_and!; try done.
    intros Hle. bool_to_prop. lia.
Qed.

End part_file_facts.

(** ** Properties *)

Import MemoryOs.

Definition fresh_open (opened : path → result File Error) : Prop :=
  ∀ p f, opened p = Ok f → f_content f = [] ∧ 0 ≤ f_reserved f.

(** Creation claims no more than it did.  A created part file is at [<target>.dppart], holds
    exactly [total_length] zero bytes, and says its space is reserved only if it is; it settles
    for a bare length only where the platform supports neither reservation. *)
Theorem create_is_truthful `{OsLaws} opened target total_length pf :
  fresh_open opened → 0 ≤ total_length → create opened target total_length = Ok pf →
  part_path_for target = Ok (pf_path pf) ∧
  pf_total_length pf = total_length ∧ total_length ≤ 9223372036854775807 ∧
  f_content (pf_file pf) = replicate (Z.to_nat total_length) x00 ∧
  if space_reserved pf then total_length ≤ f_reserved (pf_file pf)
  else ∃ f e f1 e', opened (pf_path pf) = Ok f ∧
    os_fallocate_keep_size total_length f = (Err e, f1) ∧ is_unsupported e = true ∧
    fst (os_posix_fallocate total_length f1) = Err e' ∧ is_unsupported e' = true.
Proof.
  intros Hopen Hn. unfold create.
  destruct (i64_try_from total_length) as [n|] eqn:Ei; [|done]. cbn [ok_or].
  apply i64_try_from_Some in Ei as [-> Hmax].
  destruct (part_path_for target) as [p|] eqn:Ep; [|done].
  unfold create_new. destruct (opened p) as [f|e] eqn:Eo; [|by case_bool].
  destruct (Hopen p f Eo) as [Hnil Hres].
  destruct (prepare f total_length total_length) as [r f'] eqn:Er.
  pose proof (prepare_spec total_length f r f' Er Hn Hres) as Hp. rewrite Hnil in Hp.
  destruct (Hp ltac:(done)) as (_ & _ & _ & Hm). clear Hp.
  destruct r as [m|e]; [|done]. cbn [map_err]. intros [= <-]. cbn.
  destruct Hm as [Hc Hs]. rewrite Hnil, set_length_grow in Hc by done. cbn [app length] in Hc.
  rewrite Nat.sub_0_r in Hc. unfold space_reserved. cbn.
  split_and!; [done..|]. destruct (method_space_reserved m) eqn:Em; [by apply Hs|].
  assert (m = SetLength) as -> by by destruct m.
  unfold prepare in Er. destruct (total_length =? 0).
  { destruct (os_set_len 0 f) as [[[]|] ?]; done. }
  pose proof (prepare_with_fallback (SystemAllocation total_length total_length) f) as Hf.
  cbn [SystemAllocation ao_fallocate_keep_size ao_posix_fallocate] in Hf.
  destruct (os_fallocate_keep_size total_length f) as [r1 f1] eqn:E1.
  destruct (os_posix_fallocate total_length f1) as [r2 f2] eqn:E2.
  destruct r1 as [[]|e1]; [by destruct (Hf f')|]. destruct (is_unsupported e1) eqn:U1; [|congruence].
  destruct r2 as [[]|e2]; [by destruct (Hf f')|]. destruct (is_unsupported e2) eqn:U2; [|congruence].
  exists f, e1, f1, e2. by rewrite E2.
Qed.

Example create_is_truthful_witness :
  ∃ pf, create (λ _, Ok (MkFile [] 0)) "dir/movie.mkv"%string 4 = Ok pf ∧
    f_content (pf_file pf) = replicate 4 x00.
Proof.
  eexists. split; [vm_compute; reflexivity|].
  eapply (create_is_truthful (λ _, Ok (MkFile [] 0)) "dir/movie.mkv"%string 4).
  - intros p f [= <-]. done.
  - done.
  - vm_compute. reflexivity.
Defined.

(** C7: Recovery never destroys bytes (I-10).  Whatever [open_existing] returns, the file it
    leaves starts with every byte the file had; on success it reports the length it found, has
    at least the declared extent, has grown by zeros only, and claims reserved space only where
    the space is reserved. *)
Theorem reopening_keeps_every_byte `{OsLaws} f p total_length :
  0 ≤ total_length → 0 ≤ f_reserved f →
  let '(r, left_) := open_existing (Ok f) p total_length in
  ∃ f', left_ = Some f' ∧ f_content f `prefix_of` f_content f' ∧
    match r with
    | Ok rp =>
        pf_file (rp_part rp) = f' ∧ pf_total_length (rp_part rp) = total_length ∧
        rp_observed_length rp = zlen (f_content f) ∧
        rp_reextended rp = (zlen (f_content f) <? total_length) ∧
        f_content f' = set_length (Z.max total_length (zlen (f_content f))) (f_content f) ∧
        (rp_space_reserved rp = true → total_length ≤ f_reserved f')
    | Err e => e = UnsupportedLength total_length ↔ 9223372036854775807 < total_length
    end.
Proof. exact (open_existing_spec f p total_length). Qed.

Example reopening_keeps_every_byte_witness :
  match open_existing (Ok (MkFile [x01; x02] 512)) "a.dppart"%string 4 with
  | (Ok rp, left_) => rp_observed_length rp = 2 ∧ left_ = Some (MkFile [x01; x02; x00; x00] 512)
  | (Err _, _) => False
  end ∧
  ∃ f', snd (open_existing (Ok (MkFile [x01; x02] 512)) "a.dppart"%string 4) = Some f' ∧
    [x01; x02] `prefix_of` f_content f'.
Proof.
  split; [by vm_compute|].
  destruct (reopening_keeps_every_byte (MkFile [x01; x02] 512) "a.dppart"%string 4 ltac:(lia) ltac:(done))
    as (f' & ? & ? & _).
  by exists f'.
Defined.

(** C8: Positional writes are exact on both platforms.  A write is refused, untouched, exactly
    when it would cross the declared extent; otherwise it either leaves precisely the given bytes
    at the offset and every other byte as it was, or reports an error having touched nothing
    outside its range.  The Windows loop always terminates, however short its writes. *)
Theorem positional_write_exact `{OsLaws} pf offset bytes :
  wf_part pf → 0 ≤ offset →
  (∀ r f', windows_write_all_at offset bytes (pf_file pf) = Some (r, f') →
    offset + zlen bytes ≤ pf_total_length pf → written offset bytes (pf_file pf) r f') ∧
  (offset + zlen bytes ≤ pf_total_length pf →
    is_Some (windows_write_all_at offset bytes (pf_file pf))) ∧
  let '(r, pf') := write_all_at pf offset bytes in
  wf_part pf' ∧ pf_total_length pf' = pf_total_length pf ∧
  if offset + zlen bytes <=? pf_total_length pf then
    (∃ r', written offset bytes (pf_file pf) r' (pf_file pf') ∧ is_ok r = is_ok r') ∧
    (r = Ok tt →
      zslice (f_content (pf_file pf')) offset (offset + zlen bytes) = Some bytes)
  else r = Err (OutOfBounds offset (zlen bytes) (pf_total_length pf)) ∧ pf' = pf.
Proof.
  intros Hwf Ho. pose proof Hwf as [[? ?] ?]. pose proof (zlen_nonneg bytes).
  assert (Hwin : offset + zlen bytes ≤ pf_total_length pf →
    ∃ r f', windows_write_all_at offset bytes (pf_file pf) = Some (r, f') ∧
      written offset bytes (pf_file pf) r f').
  { intros Hin. unfold windows_write_all_at.
    destruct (windows_write_spec (S (length bytes)) offset bytes 0 (pf_file pf))
      as (r & f' & Heq & Hw); try lia. rewrite Z.add_0_r in Hw. by exists r, f'. }
  split_and!.
  - intros r f' Heq Hin. destruct (Hwin Hin) as (r2 & f2 & Heq2 & ?). congruence.
  - intros Hin. destruct (Hwin Hin) as (r2 & f2 & -> & ?). done.
  - by apply write_all_at_spec.
Qed.

Example positional_write_exact_witness :
  let pf := MkPartFile (MkFile (replicate 8 x00) 8) "a.dppart"%string 8 FallocateKeepSize in
  is_Some (windows_write_all_at 2 [x01; x02; x03; x04; x05] (pf_file pf)).
Proof.
  assert (Hwf : wf_part (MkPartFile (MkFile (replicate 8 x00) 8) "a.dppart"%string 8
    FallocateKeepSize)) by (split; [split|]; vm_compute; (discriminate || reflexivity)).
  exact (proj1 (proj2 (positional_write_exact _ 2 [x01; x02; x03; x04; x05] Hwf ltac:(lia)))
    ltac:(vm_compute; discriminate)).
Defined.

(** Growing keeps every byte of a file that is as long as its declared extent … *)
Lemma extend_to_keeps `{OsLaws} pf n :
  zlen (f_content (pf_file pf)) = pf_total_length pf →
  let '(r, pf') := extend_to pf n in
  f_content (pf_file pf) `prefix_of` f_content (pf_file pf') ∧
  pf_total_length pf ≤ pf_total_length pf' ∧
  (r = Ok tt → pf_total_length pf' = n).
Proof.
  intros Hl. unfold extend_to.
  destruct (Z.ltb_spec n (pf_total_length pf)); [done|].
  destruct (Z.eqb_spec n (pf_total_length pf)) as [->|]; [done|].
  destruct (os_set_len n (pf_file pf)) as [r f'] eqn:E.
  apply set_len_law in E as [_ Hc]. destruct r as [[]|]; cbn; rewrite Hc; [|done].
  split_and!; [apply prefix_set_length; lia|lia|done].
Qed.

(** … but not of an overlong file that was reopened: its bytes past the new length are cut. *)
Lemma extend_to_shortens_overlong_file :
  ∃ pf rp pf', open_existing (Ok (MkFile [x01; x02; x03; x04] 512)) "a.dppart"%string 1 =
      (Ok rp, Some (MkFile [x01; x02; x03; x04] 512)) ∧ pf = rp_part rp ∧
    extend_to pf 2 = (Ok tt, pf') ∧ f_content (pf_file pf') = [x01; x02].
Proof. by eexists _, _, _; split_and!. Qed.

End PartFile.
