(* ===== verification/Writer.v ===== *)
(** * [downpour-storage/src/writer.rs]: durable block commits in one fixed order (invariant I-1)

    The writer as programs over four storage effects, run against any storage that keeps the
    interfaces [DurableData] and [DurableJournal] with a process that may stop at any effect. *)

From S2P Require Import Prelude Intervals Io Format Replay PartFile.
From Stdlib Require Import String.
From stdpp Require Import list.
#[local] Open Scope Z_scope.

Module Writer.
Import Io.Io Intervals.Intervals Format.Format Replay.Replay PartFile.PartFile.

(** Durations are nanoseconds. *)
Definition JOURNAL_FLUSH_INTERVAL : Z := 2000000000.
Definition JOURNAL_FLUSH_BYTES : Z := 8 * 1024 * 1024.

Inductive WriterError :=
| WPartFile (e : PartFileError)
| WFormat (e : FormatError)
| WInterval (e : IntervalMapError)
| WIo (operation : string) (source : Error)
| JournalAlreadyExists (p : path)
| LengthMismatch (data_length journal_length : Z)
| IntervalLengthMismatch (data_length interval_length : Z)
| EmptyBlock
| BlockTooLarge (length : Z)
| RangeOverflow (offset length : Z)
| OverlappingStaged (existing_start existing_end attempted_start attempted_end : Z)
| BatchLengthOverflow
| SequenceExhausted
| NoSpace (offset : Z)
| Poisoned.

Record StagedBlock := MkStaged {
  sb_range : Range;
  sb_record_length : Z;
  sb_worker : WorkerId;
  sb_blake3 : list byte;
}.

Record DurableBlock := MkDurable {
  db_sequence : Z;
  db_range : Range;
  db_worker : WorkerId;
  db_blake3 : list byte;
}.

(** The data and journal handles live in the storage the effects act on; of the data handle the
    writer keeps its fixed length. *)
Record DurableWriter := MkWriter {
  dw_data_length : Z;
  dw_next_sequence : Z;
  dw_staged : list StagedBlock;
  dw_staged_bytes : Z;
  dw_first_staged_at : option Z;
  dw_poisoned : bool;
  dw_disk_full_at : option Z;
  dw_durable_bytes : Z;
}.

(** ** Effects *)

(** A call of [DurableData] or [DurableJournal], and what to do with its answer. *)
Inductive prog (A : Type) :=
| Ret (a : A)
| WriteAllAt (offset : Z) (bytes : list byte) (k : result unit WriterError → prog A)
| DataSync (k : result unit WriterError → prog A)
| Append (record : FramedRecord) (k : result unit WriterError → prog A)
| JournalSync (k : result unit WriterError → prog A).
Arguments Ret {A} a.
Arguments WriteAllAt {A} offset bytes k.
Arguments DataSync {A} k.
Arguments Append {A} record k.
Arguments JournalSync {A} k.

Fixpoint bind {A B} (p : prog A) (f : A → prog B) : prog B :=
  match p with
  | Ret a => f a
  | WriteAllAt offset bytes k => WriteAllAt offset bytes (λ r, bind (k r) f)
  | DataSync k => DataSync (λ r, bind (k r) f)
  | Append record k => Append record (λ r, bind (k r) f)
  | JournalSync k => JournalSync (λ r, bind (k r) f)
  end.

(** ** The writer *)

Definition try_new (data_length journal_length next_sequence : Z)
    : result DurableWriter WriterError :=
  if negb (data_length =? journal_length)
  then Err (LengthMismatch data_length journal_length)
  else Ok (MkWriter data_length next_sequence [] 0 None false None 0).

Definition poison (w : DurableWriter) : DurableWriter :=
  MkWriter (dw_data_length w) (dw_next_sequence w) (dw_staged w) (dw_staged_bytes w)
    (dw_first_staged_at w) true (dw_disk_full_at w) (dw_durable_bytes w).
Definition disk_full (w : DurableWriter) (offset : Z) : DurableWriter :=
  MkWriter (dw_data_length w) (dw_next_sequence w) (dw_staged w) (dw_staged_bytes w)
    (dw_first_staged_at w) (dw_poisoned w) (Some offset) (dw_durable_bytes w).

Definition durable_bytes_after_disk_full (w : DurableWriter) : Z := dw_durable_bytes w.
Definition has_staged_work (w : DurableWriter) : bool :=
  match dw_staged w with [] => false | _ => true end.

Definition ensure_usable (w : DurableWriter) : result unit WriterError :=
  if dw_poisoned w then Err Poisoned else Ok tt.

Definition ensure_interval_identity (w : DurableWriter) (m : IntervalMap)
    : result unit WriterError :=
  if total_length m =? dw_data_length w then Ok tt
  else Err (IntervalLengthMismatch (dw_data_length w) (total_length m)).

Definition ensure_current_grant (m : IntervalMap) (range : Range) (worker : WorkerId)
    : result unit WriterError :=
  map_err WInterval (fst (complete m range worker)).

Definition ensure_not_staged (w : DurableWriter) (range : Range) : result unit WriterError :=
  match List.find (λ b, (r_start (sb_range b) <? r_end range)
                        && (r_start range <? r_end (sb_range b))) (dw_staged w) with
  | Some existing =>
      Err (OverlappingStaged (r_start (sb_range existing)) (r_end (sb_range existing))
             (r_start range) (r_end range))
  | None => Ok tt
  end.

(** [cfg!(unix)] or [cfg!(windows)]. *)
Definition no_space_code (windows : bool) (raw : Z) : bool :=
  if windows then (raw =? 39) || (raw =? 112) else raw =? 28.

Definition no_space_offset (windows : bool) (error : WriterError) (offset : Z) : option Z :=
  let raw source :=
    match raw_os_error source with
    | Some raw => if no_space_code windows raw then Some offset else None
    | None => None
    end in
  match error with
  | WPartFile (PartIo _ _ source) | WIo _ source => raw source
  | NoSpace offset => Some offset
  | _ => None
  end.

(** Completing every staged block on a clone of the map. *)
Fixpoint complete_all (m : IntervalMap) (blocks : list StagedBlock)
    : result IntervalMap IntervalMapError :=
  match blocks with
  | [] => Ok m
  | b :: blocks =>
      match complete m (sb_range b) (sb_worker b) with
      | (Err e, _) => Err e
      | (Ok _, m) => complete_all m blocks
      end
  end.

(** The records and the blocks they complete, numbered from [next_sequence]. *)
Fixpoint number_blocks (next_sequence index : Z) (blocks : list StagedBlock)
    : result (list FramedRecord * list DurableBlock) WriterError :=
  match blocks with
  | [] => Ok ([], [])
  | b :: blocks =>
      let? sequence := ok_or (checked_add64 next_sequence index) SequenceExhausted in
      let? rest := number_blocks next_sequence (index + 1) blocks in
      let '(records, completed) := rest in
      Ok (FramedRecord_new sequence
            (BlockComplete (r_start (sb_range b)) (sb_record_length b) (sb_blake3 b)) :: records,
          MkDurable sequence (sb_range b) (sb_worker b) (sb_blake3 b) :: completed)
  end.

Fixpoint append_all (records : list FramedRecord) : prog (result unit WriterError) :=
  match records with
  | [] => Ret (Ok tt)
  | record :: records =>
      Append record (λ r, match r with Err e => Ret (Err e) | Ok _ => append_all records end)
  end.

Definition committed (w : DurableWriter) (next_sequence : Z) (completed : list DurableBlock)
    : DurableWriter :=
  MkWriter (dw_data_length w) next_sequence [] 0 None (dw_poisoned w) (dw_disk_full_at w)
    (fold_left (λ acc b, saturating_add64 acc (wsub64 (r_end (db_range b)) (r_start (db_range b))))
       completed (dw_durable_bytes w)).

Definition outcome : Type := result (list DurableBlock) WriterError * DurableWriter * IntervalMap.

Definition flush (w : DurableWriter) (m : IntervalMap) : prog outcome :=
  match (let? _ := ensure_usable w in ensure_interval_identity w m) with
  | Err e => Ret (Err e, w, m)
  | Ok _ =>
      if negb (has_staged_work w) then Ret (Ok [], w, m) else
      match complete_all m (dw_staged w) with
      | Err e => Ret (Err (WInterval e), poison w, m)
      | Ok next_intervals =>
          match checked_add64 (dw_next_sequence w) (zlen (dw_staged w)) with
          | None => Ret (Err SequenceExhausted, w, m)
          | Some next_sequence =>
              match number_blocks (dw_next_sequence w) 0 (dw_staged w) with
              | Err e => Ret (Err e, w, m)
              | Ok (records, completed) =>
                  DataSync (λ r,
                    match r with
                    | Err e => Ret (Err e, poison w, m)
                    | Ok _ =>
                        bind (append_all records) (λ r,
                          match r with
                          | Err e => Ret (Err e, poison w, m)
                          | Ok _ =>
                              JournalSync (λ r,
                                match r with
                                | Err e => Ret (Err e, poison w, m)
                                | Ok _ =>
                                    Ret (Ok completed, committed w next_sequence completed,
                                         next_intervals)
                                end)
                          end)
                    end)
              end
          end
      end
  end.

Definition flush_due (w : DurableWriter) (now : Z) : bool :=
  match dw_first_staged_at w with
  | Some started => (started <=? now) && (JOURNAL_FLUSH_INTERVAL <=? now - started)
  | None => false
  end.

Definition flush_if_due (w : DurableWriter) (m : IntervalMap) (now : Z) : prog outcome :=
  match ensure_usable w with
  | Err e => Ret (Err e, w, m)
  | Ok _ => if flush_due w now then flush w m else Ret (Ok [], w, m)
  end.

Section stage.
Context (windows : bool) `{Digest}.

(** What [stage] checks before touching the storage: the range, the record length and the new
    batch size. *)
Definition stage_checks (w : DurableWriter) (m : IntervalMap) (worker : WorkerId) (offset : Z)
    (bytes : list byte) : result (Range * Z * Z) WriterError :=
  let? _ := ensure_usable w in
  let? _ := ensure_interval_identity w m in
  if zlen bytes =? 0 then Err EmptyBlock else
  let length := zlen bytes in
  let? record_length :=
    (if length <? u32_modulus then Ok length else Err (BlockTooLarge length)) in
  let? end_ := ok_or (checked_add64 offset length) (RangeOverflow offset length) in
  let range := MkRange offset end_ in
  let? _ := ensure_current_grant m range worker in
  let? _ := ensure_not_staged w range in
  let? next_staged_bytes :=
    ok_or (checked_add64 (dw_staged_bytes w) length) BatchLengthOverflow in
  Ok (range, record_length, next_staged_bytes).

Definition push_staged (w : DurableWriter) (block : StagedBlock) (next_staged_bytes now : Z)
    : DurableWriter :=
  MkWriter (dw_data_length w) (dw_next_sequence w) (dw_staged w ++ [block]) next_staged_bytes
    (Some (default now (dw_first_staged_at w))) (dw_poisoned w) (dw_disk_full_at w)
    (dw_durable_bytes w).

Definition stage (w : DurableWriter) (m : IntervalMap) (worker : WorkerId) (offset : Z)
    (bytes : list byte) (now : Z) : prog outcome :=
  match stage_checks w m worker offset bytes with
  | Err e => Ret (Err e, w, m)
  | Ok (range, record_length, next_staged_bytes) =>
      let digest := blake3 bytes in
      WriteAllAt offset bytes (λ r,
        match r with
        | Err error =>
            match no_space_offset windows error offset with
            | Some offset =>
                bind (flush w m) (λ '(_, w, m), Ret (Err (NoSpace offset), disk_full w offset, m))
            | None => Ret (Err error, poison w, m)
            end
        | Ok _ =>
            let w := push_staged w (MkStaged range record_length worker digest)
                       next_staged_bytes now in
            if JOURNAL_FLUSH_BYTES <=? dw_staged_bytes w then flush w m else Ret (Ok [], w, m)
        end)
  end.

End stage.

(** ** What the storage promises

    [data_image d bs]: [bytes] may be what a restart finds in the data file when the process stops
    at [d]; likewise [journal_image]. *)
Class DurableData (D : Type) := {
  data_total_length : D → Z;
  write_all_at : Z → list byte → D → result unit WriterError → D → Prop;
  data_sync : D → result unit WriterError → D → Prop;
  data_content : D → list byte;
  data_image : D → list byte → Prop;
}.

(** [bs] is at [off] whatever happens. *)
Definition stable `{DurableData D} (d : D) (off : Z) (bs : list byte) : Prop :=
  ∀ img, data_image d img → zslice img off (off + zlen bs) = Some bs.

(** A write touches its own range only and the whole of it when it succeeds; a sync makes what was
    written stable. *)
Class DurableDataLaws (D : Type) `{DurableData D} := {
  data_content_length d : data_total_length d ≤ zlen (data_content d);
  write_law d off bs r d' :
    write_all_at off bs d r d' → 0 ≤ off → off + zlen bs ≤ data_total_length d →
    data_total_length d' = data_total_length d ∧
    match r with
    | Ok _ => data_content d' = overwrite off bs (data_content d)
    | Err _ => same_outside off (zlen bs) (data_content d) (data_content d')
    end ∧
    ∀ off' bs', stable d off' bs' → off' + zlen bs' ≤ off ∨ off + zlen bs ≤ off' →
      stable d' off' bs';
  data_sync_law d r d' :
    data_sync d r d' →
    data_total_length d' = data_total_length d ∧ data_content d' = data_content d ∧
    (∀ off bs, stable d off bs → stable d' off bs) ∧
    (r = Ok tt → ∀ off bs, zslice (data_content d) off (off + zlen bs) = Some bs →
       stable d' off bs);
}.

Section journal_interface.
Context `{Checksum}.

(** [journal_records] is everything appended, the record of a failed append included if it was
    written; [journal_synced] how many of them are synchronised; [journal_intact] that no append
    was torn, [journal_coherent] that nothing was appended after a torn one. *)
Class DurableJournal (J : Type) := {
  journal_header : J → FileHeader;
  append : FramedRecord → J → result unit WriterError → J → Prop;
  journal_sync : J → result unit WriterError → J → Prop;
  journal_records : J → list FramedRecord;
  journal_synced : J → nat;
  journal_intact : J → Prop;
  journal_coherent : J → Prop;
  journal_image : J → list byte → Prop;
}.

(** What is there after a restart is a prefix of what was appended, cut anywhere past what was
    synchronised. *)
Class DurableJournalLaws (J : Type) `{DurableJournal J} := {
  journal_image_law j img :
    journal_coherent j → journal_image j img → ∃ n,
      (length (journal (journal_header j) (take (journal_synced j) (journal_records j))) ≤ n)%nat ∧
      img = take n (journal (journal_header j) (journal_records j));
  journal_intact_law j : journal_intact j → journal_coherent j;
  journal_synced_law j :
    journal_coherent j → (journal_synced j ≤ length (journal_records j))%nat;
  append_law r j ans j' :
    append r j ans j' → fits r → journal_intact j →
    journal_header j' = journal_header j ∧ journal_synced j' = journal_synced j ∧
    journal_coherent j' ∧
    match ans with
    | Ok _ => journal_records j' = journal_records j ++ [r] ∧ journal_intact j'
    | Err _ => journal_records j' = journal_records j ∨ journal_records j' = journal_records j ++ [r]
    end;
  journal_sync_law j ans j' :
    journal_sync j ans j' → journal_intact j →
    journal_header j' = journal_header j ∧ journal_records j' = journal_records j ∧
    (journal_synced j ≤ journal_synced j')%nat ∧ journal_coherent j' ∧
    (ans = Ok tt → journal_synced j' = length (journal_records j) ∧ journal_intact j');
}.
End journal_interface.

(** ** Execution *)

Section execution.
Context {D J : Type} `{Checksum, Digest} `{DurableData D} `{!DurableJournal J}.

(** Running a program against the storage: to its result, or to the effect at which the process
    stops. *)
Inductive exec {A} : D → J → prog A → D → J → option A → Prop :=
| exec_stop d j p : exec d j p d j None
| exec_ret d j a : exec d j (Ret a) d j (Some a)
| exec_write d j off bs k r d1 d2 j2 o :
    write_all_at off bs d r d1 → exec d1 j (k r) d2 j2 o →
    exec d j (WriteAllAt off bs k) d2 j2 o
| exec_data_sync d j k r d1 d2 j2 o :
    data_sync d r d1 → exec d1 j (k r) d2 j2 o → exec d j (DataSync k) d2 j2 o
| exec_append d j rec k r j1 d2 j2 o :
    append rec j r j1 → exec d j1 (k r) d2 j2 o → exec d j (Append rec k) d2 j2 o
| exec_journal_sync d j k r j1 d2 j2 o :
    journal_sync j r j1 → exec d j1 (k r) d2 j2 o → exec d j (JournalSync k) d2 j2 o.

Lemma exec_bind {A B} d j (p : prog A) (f : A → prog B) d' j' o :
  exec d j (bind p f) d' j' o →
  (∃ a d1 j1, exec d j p d1 j1 (Some a) ∧ exec d1 j1 (f a) d' j' o) ∨
  (exec d j p d' j' None ∧ o = None).
Proof.
  revert d j. induction p as [a|off bs k IH|k IH|rec k IH|k IH]; cbn; intros d j Hx.
  { left. exists a, d, j. split; [constructor|done]. }
  all: inversion Hx; subst; [right; by split; [constructor|]|];
    match goal with He : exec _ _ (bind (_ ?r) _) _ _ _ |- _ =>
      destruct (IH r _ _ He) as [(? & ? & ? & ? & ?)|[? ->]]
    end;
    [left; eexists _, _, _; split; [by econstructor|done]|right; split; [by econstructor|done]].
Qed.

(** ** The running system *)

Record sys := MkSys { s_writer : DurableWriter; s_map : IntervalMap; s_data : D; s_journal : J }.

(** The calls: the writer's, and the supervisor's own mutations of the interval map — every one
    but completion, which is the writer's alone. *)
Inductive call :=
| CStage (worker : WorkerId) (offset : Z) (bytes : list byte) (now : Z)
| CFlush
| CFlushIfDue (now : Z)
| CSupervise (o : op).

Definition run_call (windows : bool) (w : DurableWriter) (m : IntervalMap) (c : call)
    : prog outcome :=
  match c with
  | CStage worker offset bytes now => stage windows w m worker offset bytes now
  | CFlush => flush w m
  | CFlushIfDue now => flush_if_due w m now
  | CSupervise o => Ret (Ok [], w, snd (apply_op m o))
  end.

(** The arguments a call can carry. *)
Definition call_args (c : call) : Prop :=
  match c with
  | CStage _ offset bytes _ => u64 offset
  | CSupervise o => op_args o ∧ (∀ range worker, o ≠ OpComplete range worker)
  | _ => True
  end.

Inductive reach (windows : bool) : sys → sys → Prop :=
| reach_refl s : reach windows s s
| reach_step s s1 c r w m d j :
    reach windows s s1 → call_args c →
    exec (s_data s1) (s_journal s1) (run_call windows (s_writer s1) (s_map s1) c) d j
      (Some (r, w, m)) →
    reach windows s (MkSys w m d j).

End execution.
Arguments sys D J : clear implicits.
Arguments MkSys {D J}.

(** ** What holds at every instant *)

Section invariant.
Context {D J : Type} `{Checksum, Digest} `{DurableDataLaws D} `{!DurableJournal J}
  `{!DurableJournalLaws J}.
Implicit Types (d : D) (j : J) (w : DurableWriter) (m : IntervalMap).

(** The bytes a completion record vouches for are stable and have its digest. *)
Definition record_backed d (r : FramedRecord) : Prop :=
  match fr_record r with
  | BlockComplete off len digest =>
      0 < len ∧ ∃ bs, zlen bs = len ∧ blake3 bs = digest ∧ stable d off bs
  | _ => True
  end.
Definition covers (r : FramedRecord) (b : Z) : Prop :=
  match fr_record r with
  | BlockComplete off len _ => off ≤ b < off + len
  | _ => False
  end.

(** Whatever is in the journal is true of the data. *)
Record safe d j : Prop := {
  sf_backed : Forall (record_backed d) (journal_records j);
  sf_header : wf_header (journal_header j);
  sf_wf : Forall wf_framed (journal_records j);
  sf_fits : Forall fits (journal_records j);
  sf_numbered : numbered 0 (journal_records j);
  sf_coherent : journal_coherent j;
}.

(** Every complete byte has a synchronised record. *)
Definition covered m j : Prop :=
  ∀ b, state_at m b = Some Complete →
    Exists (λ r, covers r b) (take (journal_synced j) (journal_records j)).

Definition staged_ok d (sb : StagedBlock) : Prop :=
  0 ≤ r_start (sb_range sb) < r_end (sb_range sb) ∧ r_end (sb_range sb) ≤ data_total_length d ∧
  sb_record_length sb = r_end (sb_range sb) - r_start (sb_range sb) ∧
  u32 (sb_record_length sb) ∧
  ∃ bs, zlen bs = sb_record_length sb ∧ blake3 bs = sb_blake3 sb ∧
    zslice (data_content d) (r_start (sb_range sb)) (r_start (sb_range sb) + zlen bs) = Some bs.

(** A writer that may go on. *)
Record alive w m d j : Prop := {
  al_intact : journal_intact j;
  al_synced : journal_synced j = length (journal_records j);
  al_next : dw_next_sequence w = zlen (journal_records j);
  al_staged : Forall (staged_ok d) (dw_staged w);
  al_done : ∀ r b, r ∈ journal_records j → covers r b → state_at m b = Some Complete;
}.

Record inv w m d j : Prop := {
  iv_map : wf m;
  iv_length : total_length m = data_total_length d;
  iv_data : dw_data_length w = data_total_length d;
  iv_safe : safe d j;
  iv_covered : covered m j;
  iv_alive : dw_poisoned w = false → alive w m d j;
}.

(** ** Pieces of a flush *)

Lemma complete_all_spec m blocks m' :
  wf m → Forall (λ b, u64 (r_start (sb_range b))) blocks → complete_all m blocks = Ok m' →
  wf m' ∧ total_length m' = total_length m ∧
  (∀ b, Exists (λ sb, in_range (sb_range sb) b) blocks → state_at m' b = Some Complete) ∧
  (∀ b, ¬ Exists (λ sb, in_range (sb_range sb) b) blocks → state_at m' b = state_at m b).
Proof.
  intros Hwf Hu. revert m Hwf. induction Hu as [|sb blocks Hsb _ IH]; intros m Hwf; cbn.
  { intros [= <-]. split_and!; try done. by intros b ?%Exists_nil. }
  pose proof (complete_spec m (sb_range sb) (sb_worker sb) Hwf Hsb) as Hc.
  destruct (complete m _ _) as [[[]|e] m1]; [|done].
  destruct Hc as (_ & _ & Hwf1 & Ht1 & Hst1). intros Hall.
  destruct (IH m1 Hwf1 Hall) as (Hwf' & Ht' & Hin & Hout).
  split_and!; [done|by rewrite Ht'| |].
  - intros b Hex. destruct (decide (Exists (λ sb, in_range (sb_range sb) b) blocks)) as [|Hno];
      [by apply Hin|].
    rewrite Hout, Hst1 by done. apply Exists_cons in Hex as [?|?]; [|done].
    by rewrite bool_decide_eq_true_2.
  - intros b Hno. rewrite Exists_cons in Hno. rewrite Hout, Hst1 by tauto.
    rewrite bool_decide_eq_false_2; tauto.
Qed.

(** The record of a staged block. *)
Definition block_record (n : Z) (sb : StagedBlock) : FramedRecord :=
  FramedRecord_new n (BlockComplete (r_start (sb_range sb)) (sb_record_length sb) (sb_blake3 sb)).

(** A durable block as it is reported for a staged one. *)
Definition reported (c : DurableBlock) (sb : StagedBlock) : Prop :=
  db_range c = sb_range sb ∧ db_worker c = sb_worker sb ∧ db_blake3 c = sb_blake3 sb.

Lemma number_blocks_spec n i blocks records completed :
  0 ≤ n + i → number_blocks n i blocks = Ok (records, completed) →
  numbered (n + i) records ∧ zlen records = zlen blocks ∧
  Forall2 (λ r sb, ∃ k, u64 k ∧ r = block_record k sb) records blocks ∧
  Forall2 (λ r c, fr_sequence r = db_sequence c ∧
    ∃ len, fr_record r = BlockComplete (r_start (db_range c)) len (db_blake3 c)) records completed ∧
  Forall2 reported completed blocks.
Proof.
  intros Hn. revert i records completed Hn.
  induction blocks as [|sb blocks IH]; intros i records completed Hn; cbn.
  { intros [= <- <-]. by split_and!. }
  destruct (checked_add64 n i) as [k|] eqn:Ek; [|done]. cbn [ok_or].
  apply checked_add64_Some in Ek as [-> Hk].
  destruct (number_blocks n (i + 1) blocks) as [[rs cs]|] eqn:Er; [|done].
  intros [= <- <-]. destruct (IH (i + 1) rs cs ltac:(lia) Er) as (Hnum & Hlen & ? & ? & ?).
  rewrite !zlen_cons, Hlen. cbn. split_and!; [done| |done| | |].
  - by rewrite <- Z.add_assoc.
  - constructor; [|done]. exists (n + i). split; [ulia|done].
  - constructor; [|done]. split; [done|]. by eexists.
  - by constructor.
Qed.

Lemma block_record_facts d k sb :
  u64 (data_total_length d) → u64 k → staged_ok d sb →
  wf_framed (block_record k sb) ∧ fits (block_record k sb).
Proof.
  intros Hu Hk ((? & ?) & ? & Hlen & Hu32 & bs & _ & Hd & _).
  assert (Hdl : zlen (sb_blake3 sb) = 32) by (rewrite <- Hd; unfold zlen; by rewrite blake3_len).
  split.
  - split; [done|]. cbn. split_and!; [ulia..|done|done].
  - unfold fits, payload_of, block_record. cbn [fr_record encode_payload snd]. zlen. rewrite Hdl.
    unfold MAX_PAYLOAD_LEN. lia.
Qed.

Lemma numbered_fits_u64 n rs : numbered n rs → Forall wf_framed rs → rs ≠ [] → n + zlen rs ≤ u64_modulus.
Proof.
  revert n. induction rs as [|r rs IH]; intros n Hn Hw Hne; [done|].
  destruct Hn as [Hr Hn]. apply Forall_cons in Hw as [[Hu _] Hw]. rewrite zlen_cons.
  destruct rs as [|r' rs]; [rewrite zlen_nil; ulia|].
  specialize (IH (n + 1) Hn Hw ltac:(done)). lia.
Qed.

(** Appending backed, well-formed, consecutively numbered records keeps the journal true. *)
Lemma append_all_exec d j records d' j' o :
  exec d j (append_all records) d' j' o →
  safe d j → journal_intact j → Forall (record_backed d) records → Forall wf_framed records →
  Forall fits records → numbered (zlen (journal_records j)) records →
  d' = d ∧ safe d j' ∧ journal_synced j' = journal_synced j ∧
  journal_records j `prefix_of` journal_records j' ∧
  (o = Some (Ok tt) → journal_records j' = journal_records j ++ records ∧ journal_intact j').
Proof.
  revert j. induction records as [|r rs IH]; intros j Hx Hs Hint Hb Hw Hf Hn; cbn in Hx.
  { inversion Hx; subst; split_and!; try done. intros _. by rewrite app_nil_r. }
  apply Forall_cons in Hb as [Hb Hbs], Hw as [Hw Hws], Hf as [Hf Hfs]. destruct Hn as [Hr Hn].
  inversion Hx as [| | | |? ? ? ? ans j1 ? ? ? Ha He|]; subst; [by split_and!|]. clear Hx.
  destruct (append_law _ _ _ _ Ha Hf Hint) as (Hh1 & Hs1 & Hcoh & Hrec).
  assert (Hone : ∀ j1, journal_header j1 = journal_header j →
    journal_synced j1 = journal_synced j → journal_records j1 = journal_records j ++ [r] →
    journal_coherent j1 → safe d j1).
  { intros j2 Hh Hsy Hrs Hco. destruct Hs. split; rewrite ?Hh, ?Hsy, ?Hrs; try done.
    - by apply Forall_app_2; [|constructor].
    - by apply Forall_app_2; [|constructor].
    - by apply Forall_app_2; [|constructor].
    - apply numbered_app. by split_and!. }
  destruct ans as [[]|e].
  - destruct Hrec as [Hrec Hint1].
    destruct (IH j1 He) as (-> & Hsafe & Hsy & Hpre & Hok); try done.
    + by apply Hone.
    + rewrite Hrec, zlen_app, zlen_cons, zlen_nil. by rewrite Z.add_0_r.
    + split_and!; [done|done|congruence| |].
      * etransitivity; [|exact Hpre]. rewrite Hrec. by eexists.
      * intros Ho. destruct (Hok Ho) as [-> ?]. split; [|done].
        by rewrite Hrec, <- app_assoc.
  - inversion He; subst; (split_and!; [done| |done| |done]);
      (destruct Hrec as [Hrec|Hrec]; [|try by apply Hone]);
      try (rewrite Hrec; by eexists); try (by rewrite Hrec).
    all: destruct Hs; split; by rewrite ?Hh1, ?Hs1, ?Hrec.
Qed.

Lemma safe_data d d' j :
  (∀ off bs, stable d off bs → stable d' off bs) → safe d j → safe d' j.
Proof.
  intros Hst [Hb ? ? ? ? ?]. split; try done. eapply Forall_impl; [exact Hb|]. intros r.
  unfold record_backed. destruct (fr_record r); try done.
  intros (? & bs & ? & ? & ?). split; [done|]. exists bs. auto.
Qed.

Lemma covered_mono m j j' :
  covered m j → journal_records j `prefix_of` journal_records j' →
  (journal_synced j ≤ journal_synced j')%nat → covered m j'.
Proof.
  intros Hc [rest Hrs] Hsy b Hb. specialize (Hc b Hb). rewrite Hrs.
  apply Exists_exists in Hc as (r & Hr & Hcov). apply Exists_exists. exists r. split; [|done].
  apply list_elem_of_lookup in Hr as [i Hi]. apply lookup_take_Some in Hi as [Hi ?].
  apply list_elem_of_lookup. exists i. apply lookup_take_Some. split; [|lia].
  by apply lookup_app_l_Some.
Qed.

Lemma inv_poison w m d j d' j' :
  inv w m d j → safe d' j' → covered m j' → data_total_length d' = data_total_length d →
  inv (poison w) m d' j'.
Proof. intros [] ? ? ?. split; cbn; try done; congruence. Qed.

(** The records a flush appends are backed once the data is synchronised. *)
Lemma staged_records d d' n i blocks records completed :
  number_blocks n i blocks = Ok (records, completed) → 0 ≤ n + i →
  u64 (data_total_length d) → Forall (staged_ok d) blocks →
  (∀ off bs, zslice (data_content d) off (off + zlen bs) = Some bs → stable d' off bs) →
  numbered (n + i) records ∧
  Forall (record_backed d') records ∧ Forall wf_framed records ∧ Forall fits records ∧
  (∀ b, Exists (λ r, covers r b) records ↔ Exists (λ sb, in_range (sb_range sb) b) blocks).
Proof.
  intros Hnb Hn Hu Hok Hst.
  destruct (number_blocks_spec _ _ _ _ _ Hn Hnb) as (Hnum & _ & Hf & _ & _). clear Hnb.
  assert (Hall : ∀ r sb, (∃ k, u64 k ∧ r = block_record k sb) → staged_ok d sb →
    record_backed d' r ∧ wf_framed r ∧ fits r ∧ (∀ b, covers r b ↔ in_range (sb_range sb) b)).
  { intros r sb (k & Hk & ->) Hsb. destruct (block_record_facts d k sb Hu Hk Hsb).
    destruct Hsb as ((? & ?) & ? & Hlen & ? & bs & Hbl & Hd & Hz). split_and!; [|done|done|].
    - split; [cbn in *; lia|]. exists bs. split_and!; [done|done|]. by apply Hst.
    - intros b. unfold covers, block_record, in_range. cbn. rewrite Hlen. lia. }
  split; [done|]. clear Hnum. induction Hf as [|r sb records blocks Hr Hf IH].
  { split_and!; try constructor; by intros ?%Exists_nil. }
  apply Forall_cons in Hok as [Hsb Hok].
  destruct (Hall r sb Hr Hsb) as (? & ? & ? & Hcov), (IH Hok) as (? & ? & ? & IHc).
  split_and!; [by constructor..|]. intros b. by rewrite !Exists_cons, IHc, Hcov.
Qed.

(** ** The three calls *)

(** A stop anywhere leaves the journal true, and a result the whole invariant. *)
Definition kept m (o : option outcome) d j : Prop :=
  match o with
  | None => safe d j ∧ covered m j
  | Some (r, w', m') =>
      inv w' m' d j ∧ ∀ b, state_at m b = Some Complete → state_at m' b = Some Complete
  end.

Lemma kept_ret w m d j r d' j' o :
  inv w m d j → exec d j (Ret (r, w, m)) d' j' o →
  kept m o d' j' ∧ data_total_length d' = data_total_length d.
Proof. intros Hi Hx. inversion Hx; subst; (split; [|done]); cbn; by destruct Hi. Qed.

Lemma kept_poison w m d j r d1 j1 d' j' o :
  inv w m d j → safe d1 j1 → covered m j1 → data_total_length d1 = data_total_length d →
  exec d1 j1 (Ret (r, poison w, m)) d' j' o →
  kept m o d' j' ∧ data_total_length d' = data_total_length d.
Proof.
  intros Hi Hs Hc Ht Hx. inversion Hx; subst; (split; [|done]); cbn; [done|].
  split; [|done]. by eapply inv_poison.
Qed.

Lemma flush_exec w m d j d' j' o :
  inv w m d j → exec d j (flush w m) d' j' o →
  kept m o d' j' ∧ data_total_length d' = data_total_length d.
Proof.
  intros Hi. unfold flush, ensure_usable.
  destruct (dw_poisoned w) eqn:Hp; [by apply kept_ret|].
  destruct (ensure_interval_identity w m); [|by apply kept_ret].
  case_bool; [by apply kept_ret|].
  pose proof Hi as [Hmap Hlen Hdl Hsafe Hcov Hal]. destruct (Hal Hp) as [Hint Hsy Hnx Hst Hdone].
  assert (Hu : u64 (data_total_length d)) by (rewrite <- Hlen; apply Hmap).
  destruct (complete_all m (dw_staged w)) as [m2|e] eqn:Eca.
  2: { intros Hx. by eapply kept_poison. }
  destruct (complete_all_spec m (dw_staged w) m2 Hmap) as (Hmap2 & Ht2 & Hin2 & Hout2); [|done|].
  { eapply Forall_impl; [exact Hst|]. intros sb ((? & ?) & ? & _). ulia. }
  destruct (checked_add64 _ _) as [nx|] eqn:Enx; [|by apply kept_ret].
  apply checked_add64_Some in Enx as [-> Hnxb].
  destruct (number_blocks _ _ _) as [[records completed]|e] eqn:Enb; [|by apply kept_ret].
  intros Hx. inversion Hx as [| | |? ? ? ans d1 ? ? ? Hds He| |]; subst; clear Hx.
  { by split. }
  destruct (data_sync_law _ _ _ Hds) as (Hdt & Hdc & Hstab & Hok).
  pose proof (safe_data d d1 j Hstab Hsafe) as Hsafe1.
  destruct ans as [[]|e]; [|by eapply kept_poison].
  pose proof (zlen_nonneg (journal_records j)).
  destruct (staged_records d d1 _ _ _ _ _ Enb ltac:(lia) Hu Hst (Hok eq_refl))
    as (Hnum & Hback & Hwf & Hfits & Hcovs).
  rewrite Hnx, Z.add_0_r in Hnum.
  apply exec_bind in He as [(r & d2 & j2 & Ha & He)|[Ha ->]].
  2: { destruct (append_all_exec _ _ _ _ _ _ Ha Hsafe1 Hint Hback Hwf Hfits Hnum)
         as (-> & ? & Hs2 & Hpre & _).
       split; [|done]. split; [done|]. eapply covered_mono; [done..|lia]. }
  destruct (append_all_exec _ _ _ _ _ _ Ha Hsafe1 Hint Hback Hwf Hfits Hnum)
    as (-> & Hsafe2 & Hs2 & Hpre & Hall). clear Ha.
  assert (Hcov2 : covered m j2) by (eapply covered_mono; [done..|lia]).
  destruct r as [[]|e]; [|by eapply kept_poison]. destruct (Hall eq_refl) as [Hrec Hint2].
  inversion He as [| | | | |? ? ? ans j3 ? ? ? Hjs He3]; subst; clear He.
  { by split. }
  destruct (journal_sync_law _ _ _ Hjs Hint2) as (Hh3 & Hr3 & Hs3 & Hco3 & Hok3).
  assert (Hsafe3 : safe d1 j3).
  { destruct Hsafe2. by split; rewrite ?Hh3, ?Hr3. }
  assert (Hcov3 : covered m j3) by (eapply covered_mono; [exact Hcov2|by rewrite Hr3|done]).
  destruct ans as [[]|e]; [|by eapply kept_poison].
  destruct (Hok3 eq_refl) as [Hsy3 Hint3]. rewrite <- Hr3 in Hsy3.
  assert (Hm2 : ∀ b, state_at m b = Some Complete → state_at m2 b = Some Complete).
  { intros b Hb. destruct (decide (Exists (λ sb, in_range (sb_range sb) b) (dw_staged w)));
      [by apply Hin2|by rewrite Hout2]. }
  assert (Hinv : inv (committed w (dw_next_sequence w + zlen (dw_staged w)) completed) m2 d1 j3).
  { split; cbn; [done|congruence|congruence|done| |].
    - intros b Hb. rewrite Hsy3, firstn_all, Hr3, Hrec.
      destruct (decide (Exists (λ sb, in_range (sb_range sb) b) (dw_staged w))) as [Hex|Hno].
      + apply Exists_app. right. by apply Hcovs.
      + rewrite Hout2 in Hb by done. specialize (Hcov b Hb). apply Exists_app. left.
        rewrite Hsy, firstn_all in Hcov. done.
    - intros _. split; cbn; [done|done| |done|].
      + rewrite Hr3, Hrec, zlen_app, Hnx. f_equal.
        by destruct (number_blocks_spec (dw_next_sequence w) 0 (dw_staged w) records completed
          ltac:(lia) Enb) as (_ & -> & _).
      + intros r b Hr Hrb. rewrite Hr3, Hrec in Hr. apply elem_of_app in Hr as [Hr|Hr].
        * by eapply Hm2, Hdone.
        * apply Hin2, Hcovs, Exists_exists. by exists r. }
  inversion He3; subst; (split; [|done]); cbn; [by split|by split].
Qed.

(** A write inside the current grant of its worker, away from what is staged, disturbs nothing the
    invariant speaks of. *)
Lemma write_keeps w m worker d j off bs r d1 :
  inv w m d j → dw_poisoned w = false → write_all_at off bs d r d1 → 0 ≤ off → bs ≠ [] →
  off + zlen bs ≤ data_total_length d →
  (∀ b, off ≤ b < off + zlen bs → state_at m b = Some (InProgress worker)) →
  Forall (λ sb, range_disjoint (sb_range sb) (MkRange off (off + zlen bs))) (dw_staged w) →
  inv w m d1 j ∧ data_total_length d1 = data_total_length d.
Proof.
  intros [Hmap Hlen Hdl Hsafe Hcov Hal] Hp Hw Ho Hne Hin Hown Happ.
  destruct (Hal Hp) as [Hint Hsy Hnx Hst Hdone].
  destruct (write_law _ _ _ _ _ Hw Ho Hin) as (Ht & Hc & Hstab).
  assert (Hzb : 0 < zlen bs)
    by (destruct bs; [done|]; rewrite zlen_cons; pose proof (zlen_nonneg bs); lia).
  assert (Hsame : same_outside off (zlen bs) (data_content d) (data_content d1)).
  { destruct r; [|done]. rewrite Hc. apply overwrite_outside; [done|].
    pose proof (data_content_length d). lia. }
  split; [|done]. split; try done; try congruence.
  - destruct Hsafe as [Hb ? ? ? ? ?]. split; try done.
    rewrite Forall_forall in Hb |- *. intros rec Hrec. specialize (Hb rec Hrec).
    unfold record_backed in *. destruct (fr_record rec) as [o l dg| | | |] eqn:Erec; try done.
    destruct Hb as (Hl & bs' & Hbl & Hd & Hs). split; [done|]. exists bs'. split_and!; try done.
    apply Hstab; [done|]. rewrite Hbl.
    destruct (decide (o + l ≤ off)); [by left|]. destruct (decide (off + zlen bs ≤ o)); [by right|].
    exfalso. assert (Hd1 : state_at m (Z.max o off) = Some Complete).
    { eapply Hdone; [exact Hrec|]. unfold covers. rewrite Erec. lia. }
    rewrite Hown in Hd1 by lia. done.
  - intros _. split; try done. rewrite Forall_forall in Hst, Happ |- *. intros sb Hsb.
    destruct (Hst sb Hsb) as (? & ? & Hl & ? & bs' & Hbl & Hd & Hz). specialize (Happ sb Hsb).
    unfold range_disjoint in Happ. cbn in Happ.
    split; [done|]. split; [by rewrite Ht|]. do 2 (split; [done|]). exists bs'. split_and!; [done..|].
    rewrite <- Hz. eapply same_outside_read; [exact Hsame|]. rewrite Hbl, Hl. lia.
Qed.

Lemma ensure_not_staged_Ok w range :
  ensure_not_staged w range = Ok tt →
  Forall (λ sb, range_disjoint (sb_range sb) range) (dw_staged w).
Proof.
  unfold ensure_not_staged. destruct (List.find _ _) eqn:Ef; [done|]. intros _.
  apply Forall_forall. intros sb Hsb.
  pose proof (find_none _ _ Ef sb (proj1 (list_elem_of_In _ _) Hsb)) as Hn. cbn in Hn.
  apply andb_false_iff in Hn as [Hn|Hn]; apply Z.ltb_ge in Hn; unfold range_disjoint; lia.
Qed.

(** What [stage] has checked when it writes. *)
Lemma stage_checks_Ok w m worker off bs range rl nsb :
  wf m → u64 off → stage_checks w m worker off bs = Ok (range, rl, nsb) →
  dw_poisoned w = false ∧ total_length m = dw_data_length w ∧ bs ≠ [] ∧
  range = MkRange off (off + zlen bs) ∧ rl = zlen bs ∧ u32 rl ∧
  off + zlen bs ≤ total_length m ∧
  (∀ b, off ≤ b < off + zlen bs → state_at m b = Some (InProgress worker)) ∧
  Forall (λ sb, range_disjoint (sb_range sb) range) (dw_staged w) ∧
  nsb = dw_staged_bytes w + zlen bs.
Proof.
  intros Hwf Hoff. unfold stage_checks, ensure_usable. destruct (dw_poisoned w); [done|].
  unfold ensure_interval_identity. destruct (Z.eqb_spec (total_length m) (dw_data_length w)); [|done].
  destruct (Z.eqb_spec (zlen bs) 0) as [|Hz]; [done|]. pose proof (zlen_nonneg bs).
  destruct (Z.ltb_spec (zlen bs) u32_modulus); [|done].
  destruct (checked_add64 off (zlen bs)) as [en|] eqn:Ee; [|done]. cbn [ok_or].
  apply checked_add64_Some in Ee as [-> ?]. unfold ensure_current_grant.
  pose proof (complete_spec m (MkRange off (off + zlen bs)) worker Hwf Hoff) as Hc.
  destruct (complete m _ worker) as [[[]|er] m1]; cbn [fst map_err]; [|done].
  destruct Hc as ((? & Hb) & Hown & _). cbn in Hb, Hown.
  destruct (ensure_not_staged w _) as [[]|] eqn:En; [|done]. apply ensure_not_staged_Ok in En.
  destruct (checked_add64 (dw_staged_bytes w) _) as [n|] eqn:Es; [|done]. cbn [ok_or].
  apply checked_add64_Some in Es as [-> _]. intros [= <- <- <-].
  split_and!; try done; [by intros ->|ulia..].
Qed.

(** The write of a stage keeps the invariant, with the block in the batch when it succeeded. *)
Lemma stage_write w m d j worker off bs range rl nsb now r d1 :
  inv w m d j → u64 off → stage_checks w m worker off bs = Ok (range, rl, nsb) →
  write_all_at off bs d r d1 →
  inv w m d1 j ∧ data_total_length d1 = data_total_length d ∧
  (r = Ok tt → inv (push_staged w (MkStaged range rl worker (blake3 bs)) nsb now) m d1 j).
Proof.
  intros Hi Hoff Ec Hw. pose proof Hi as [Hmap Hlen _ _ _ _].
  destruct (stage_checks_Ok _ _ _ _ _ _ _ _ Hmap Hoff Ec)
    as (Hp & _ & Hne & -> & -> & Hu32 & Hin & Hown & Happ & ->).
  assert (Hin' : off + zlen bs ≤ data_total_length d) by lia.
  destruct (write_keeps w m worker d j off bs r d1 Hi Hp Hw (proj1 Hoff) Hne Hin' Hown Happ)
    as [Hi1 Ht1].
  split_and!; [done..|]. intros ->.
  destruct Hi1 as [? ? ? ? ? Hal1]. split; try done. intros Hp1.
  destruct (Hal1 Hp) as [? ? ? Hst ?]. split; try done. cbn.
  apply Forall_app_2; [done|]. constructor; [|done].
  destruct (write_law _ _ _ _ _ Hw (proj1 Hoff) Hin') as (_ & Hc & _).
  assert (0 < zlen bs)
    by (destruct bs; [done|]; rewrite zlen_cons; pose proof (zlen_nonneg bs); lia).
  unfold staged_ok. cbn. rewrite Ht1. split; [ulia|]. split; [lia|]. split; [lia|].
  split; [done|]. exists bs. split_and!; [done..|]. rewrite Hc. apply overwrite_read; [ulia|].
  pose proof (data_content_length d). lia.
Qed.

Lemma inv_disk_full w m d j off : inv w m d j → inv (disk_full w off) m d j.
Proof.
  intros [? ? ? ? ? Hal]. split; try done. cbn. intros Hp. by destruct (Hal Hp).
Qed.

Lemma stage_exec windows w m d j worker off bs now d' j' o :
  inv w m d j → u64 off → exec d j (stage windows w m worker off bs now) d' j' o →
  kept m o d' j' ∧ data_total_length d' = data_total_length d.
Proof.
  intros Hi Hoff. unfold stage.
  destruct (stage_checks w m worker off bs) as [[[range rl] nsb]|e] eqn:Ec; [|by apply kept_ret].
  intros Hx. inversion Hx as [| |? ? ? ? ? r d1 ? ? ? Hw He| | |]; subst; clear Hx.
  { split; [|done]. by destruct Hi. }
  destruct (stage_write w m d j worker off bs range rl nsb now r d1 Hi Hoff Ec Hw)
    as (Hi1 & Ht1 & Hi2).
  destruct r as [[]|e].
  - specialize (Hi2 eq_refl). rewrite <- Ht1. case_bool.
    + exact (flush_exec _ _ _ _ _ _ _ Hi2 He).
    + exact (kept_ret _ _ _ _ _ _ _ _ Hi2 He).
  - destruct (no_space_offset _ _ _) as [off'|].
    + apply exec_bind in He as [([[r w2] m2] & d2 & j2 & Hf & He)|[Hf ->]];
        destruct (flush_exec _ _ _ _ _ _ _ Hi1 Hf) as [Hk ?]; [|by rewrite <- Ht1].
      destruct Hk as [Hk Hmono]. apply (inv_disk_full _ _ _ _ off') in Hk.
      inversion He; subst; (split; [|congruence]); cbn; [|by split].
      destruct Hk. split; [done|]. intros b Hb. auto.
    + cbn in *. eapply (kept_poison w m d1 j) in He; [|done|by destruct Hi1..|done].
      destruct He as [? ->]. by rewrite Ht1.
Qed.

Lemma flush_if_due_exec w m d j now d' j' o :
  inv w m d j → exec d j (flush_if_due w m now) d' j' o →
  kept m o d' j' ∧ data_total_length d' = data_total_length d.
Proof.
  intros Hi. unfold flush_if_due. destruct (ensure_usable w); [|by apply kept_ret].
  case_bool; [by apply flush_exec|by apply kept_ret].
Qed.

(** The map may change under the writer as long as the same bytes stay complete. *)
Lemma inv_remap w m m' d j :
  inv w m d j → wf m' → total_length m' = total_length m →
  (∀ b, state_at m' b = Some Complete ↔ state_at m b = Some Complete) → inv w m' d j.
Proof.
  intros [? ? ? ? Hcov Hal] Hwf Ht Hst. split; try done; [congruence|by intros b Hb%Hst; apply Hcov|].
  intros Hp. destruct (Hal Hp) as [? ? ? ? Hdone]. split; try done. intros r b Hr Hb.
  by eapply Hst, Hdone.
Qed.

Lemma supervise_exec w m d j o d' j' x :
  inv w m d j → op_args o → (∀ range worker, o ≠ OpComplete range worker) →
  exec d j (Ret (Ok [], w, snd (apply_op m o))) d' j' x →
  kept m x d' j' ∧ data_total_length d' = data_total_length d.
Proof.
  intros Hi Ha Hno Hx. pose proof Hi as [Hmap Hlen Hdl Hsafe Hcov Hal].
  pose proof (apply_op_refines m o Hmap Ha) as Href.
  assert (Hkeep : ∀ b, state_at m b = Some Complete → state_at (snd (apply_op m o)) b = Some Complete)
    by (intros b; by apply complete_persists).
  assert (Hback : ∀ b, state_at (snd (apply_op m o)) b = Some Complete → state_at m b = Some Complete).
  { intros b Hb. destruct (decide (state_at m b = Some Complete)) as [|Hne]; [done|].
    destruct (completed_by_owner m o b Hmap Ha Hne Hb) as (range & wk & -> & _).
    by destruct (Hno range wk). }
  destruct (apply_op m o) as [out m']. destruct Href as (Hmap' & Ht' & _). cbn [snd] in *.
  inversion Hx; subst; (split; [|done]); cbn; [done|]. split; [|done].
  apply (inv_remap _ m); [done..|]. split; [apply Hback|apply Hkeep].
Qed.

Lemma call_exec windows w m d j c d' j' o :
  inv w m d j → call_args c → exec d j (run_call windows w m c) d' j' o →
  kept m o d' j' ∧ data_total_length d' = data_total_length d.
Proof.
  intros Hi Ha. destruct c; cbn [run_call].
  - by apply stage_exec.
  - by apply flush_exec.
  - by apply flush_if_due_exec.
  - destruct Ha. by apply supervise_exec.
Qed.

Definition sys_inv (s : sys D J) : Prop :=
  inv (s_writer s) (s_map s) (s_data s) (s_journal s).

Lemma reach_inv windows s s' : reach windows s s' → sys_inv s → sys_inv s'.
Proof.
  induction 1 as [|s s1 c r w m d j _ IH Ha Hx]; [done|]. intros Hs.
  destruct (call_exec _ _ _ _ _ _ _ _ _ (IH Hs) Ha Hx) as [[Hk _] _]. exact Hk.
Qed.

(** A new download: an empty journal that can be appended to, and nothing complete. *)
Record fresh (s : sys D J) : Prop := {
  fr_map : u64 (data_total_length (s_data s)) ∧ s_map s = Intervals.new (data_total_length (s_data s));
  fr_header : wf_header (journal_header (s_journal s));
  fr_records : journal_records (s_journal s) = [];
  fr_intact : journal_intact (s_journal s);
  fr_writer : try_new (data_total_length (s_data s))
    (h_total_length (journal_header (s_journal s))) 0 = Ok (s_writer s);
}.

Lemma new_not_complete t b : u64 t → state_at (Intervals.new t) b ≠ Some Complete.
Proof. unfold new, state_at. intros _. case_bool; cbn; [done|]. by case_bool_decide. Qed.

Lemma fresh_inv s : fresh s → sys_inv s.
Proof.
  intros [[Hu Hm] Hh Hr Hi Hw]. unfold try_new in Hw. case_bool; [done|]. injection Hw as Hw.
  pose proof (journal_intact_law _ Hi) as Hco.
  pose proof (journal_synced_law (s_journal s) Hco) as Hsl. rewrite Hr in Hsl. cbn in Hsl.
  destruct s as [w m d j]. cbn in *. subst m w. unfold sys_inv. cbn.
  split; cbn; [by apply new_wf|done|done| | |].
  - split; rewrite ?Hr; done.
  - intros b Hb. by apply new_not_complete in Hb.
  - intros _. split; rewrite ?Hr; cbn; [done|lia|done|done|].
    by intros r b ?%elem_of_nil.
Qed.

(** ** After a stop *)

Lemma zlen_frames_ge rs : zlen rs ≤ zlen (frames rs).
Proof.
  induction rs as [|r rs IH]; [done|]. change (frames (r :: rs)) with (frame_bytes r ++ frames rs).
  rewrite zlen_cons, zlen_app, zlen_frame_bytes. pose proof (zlen_nonneg (payload_of r)). lia.
Qed.

(** Replaying what a stop left of the journal: every synchronised record, and none that was not
    appended. *)
Lemma restart_journal d j img :
  safe d j → journal_image j img →
  zlen (journal (journal_header j) (journal_records j)) < u64_modulus →
  ∃ out, replay_bytes img = Some (Ok out) ∧ ro_header out = journal_header j ∧
    ro_records out `prefix_of` journal_records j ∧
    take (journal_synced j) (journal_records j) `prefix_of` ro_records out.
Proof.
  intros [_ Hh Hwf Hfits Hnum Hco] Himg Hsize.
  destruct (journal_image_law _ _ Hco Himg) as (n & Hn & ->).
  set (rs := journal_records j) in *. set (h := journal_header j) in *.
  set (k := journal_synced j) in *.
  assert (Hj : wf_journal h rs).
  { split_and!; try done. unfold journal in Hsize. rewrite zlen_app in Hsize.
    pose proof (zlen_nonneg (FileHeader_encode h)). pose proof (zlen_frames_ge rs). lia. }
  assert (Hhl : length (FileHeader_encode h) = 72%nat).
  { pose proof (zlen_header_encode h Hh) as Hz. unfold zlen, HEADER_LEN in Hz. lia. }
  assert (Hlen : ∀ l, length (journal h l) = (72 + length (frames l))%nat)
    by (intros l; unfold journal; rewrite length_app; lia).
  rewrite Hlen in Hn.
  destruct (replay_cut h rs n Hj ltac:(lia))
    as (w & q & out & Hrs & Hr & Hoh & Hor & Hov & _ & Hq & _).
  exists out. split_and!; [done|done|by rewrite Hor, Hrs; eexists|].
  rewrite Hor. destruct (decide (k ≤ length w)%nat) as [Hle|Hgt].
  { rewrite Hrs, take_app_le by done. apply prefix_take. }
  exfalso. destruct q as [|r q].
  { rewrite app_nil_r in Hrs. pose proof (journal_synced_law j Hco) as Hsl.
    change (k ≤ length rs)%nat in Hsl. rewrite Hrs in Hsl. lia. }
  assert (Htk : take k rs = w ++ r :: take (k - S (length w)) q).
  { rewrite Hrs, take_app_ge by lia. f_equal.
    replace (k - length w)%nat with (S (k - S (length w))) by lia. done. }
  rewrite Htk, frames_app in Hn. change (frames (r :: ?l)) with (frame_bytes r ++ frames l) in Hn.
  rewrite !length_app in Hn. rewrite Hov in Hq. unfold zlen in Hq. rewrite length_take, !Hlen in Hq.
  rewrite Hrs, frames_app in Hq. change (frames (r :: q)) with (frame_bytes r ++ frames q) in Hq.
  rewrite !length_app in Hq. lia.
Qed.

(** What a restart finds after any stop of a system that kept the invariant. *)
Definition restart_ok m d j : Prop :=
  ∀ img_data img_journal, data_image d img_data → journal_image j img_journal →
  zlen (journal (journal_header j) (journal_records j)) < u64_modulus →
  ∃ out, replay_bytes img_journal = Some (Ok out) ∧ ro_header out = journal_header j ∧
    (∀ r off len digest, r ∈ ro_records out → fr_record r = BlockComplete off len digest →
       ∃ bs, zslice img_data off (off + len) = Some bs ∧ blake3 bs = digest) ∧
    (∀ b, state_at m b = Some Complete → Exists (λ r, covers r b) (ro_records out)).

Lemma safe_restart m d j : safe d j → covered m j → restart_ok m d j.
Proof.
  intros Hs Hc imd imj Hd Hj Hsize.
  destruct (restart_journal d j imj Hs Hj Hsize) as (out & Hr & Hh & [x Hpre] & [y Hsync]).
  exists out. split_and!; [done|done| |].
  - intros r off len digest Hin Hrec. destruct Hs as [Hb _ _ _ _ _]. rewrite Forall_forall in Hb.
    assert (Hin' : r ∈ journal_records j) by (rewrite Hpre; by apply elem_of_app; left).
    specialize (Hb r Hin'). unfold record_backed in Hb. rewrite Hrec in Hb.
    destruct Hb as (_ & bs & <- & Hdg & Hst). exists bs. split; [by apply Hst|done].
  - intros b Hb. rewrite Hsync. apply Exists_app. left. by apply Hc.
Qed.

End invariant.

(** ** The journal file *)

Record JournalFile := MkJournalFile { jf_path : path; jf_total_length : Z }.

(** [Path::parent]: nothing above the root or an empty path. *)
Definition has_parent (p : path) : bool := match path_components p with [] => false | _ => true end.

(** [sync_parent]: [opened] and [synced] are the directory's answers. *)
Definition sync_parent (p : path) (opened synced : result unit Error) : result unit Error :=
  if has_parent p then let? _ := opened in synced else Err (MkError InvalidInput None).

(** [JournalFile::create]; each argument is the answer of one system call. *)
Definition JournalFile_create (p : path) (header : FileHeader)
    (opened write_all sync_all dir_opened dir_synced : result unit Error)
    : result JournalFile WriterError :=
  let? _ :=
    match opened with
    | Ok file => Ok file
    | Err source =>
        if bool_decide (kind source = AlreadyExists) then Err (JournalAlreadyExists p)
        else Err (WIo "create recovery journal exclusively" source)
    end in
  let? _ := map_err (WIo "write recovery-journal header") write_all in
  let? _ := map_err (WIo "synchronise recovery-journal header") sync_all in
  let? _ := map_err (WIo "synchronise recovery-journal directory")
              (sync_parent p dir_opened dir_synced) in
  Ok (MkJournalFile p (h_total_length header)).

Section journal_file.
Context `{Checksum}.

(** [append] on a file holding [content]; when [write_all] fails, [wrote] bytes of the frame were
    written. *)
Definition journal_append (content : list byte) (record : FramedRecord)
    (write_all : result unit Error) (wrote : nat) : result unit WriterError * list byte :=
  match FramedRecord_encode record with
  | Err e => (Err (WFormat e), content)
  | Ok encoded =>
      match write_all with
      | Ok _ => (Ok tt, content ++ encoded)
      | Err source =>
          (Err (WIo "append recovery-journal record" source), content ++ take wrote encoded)
      end
  end.

Definition journal_sync_data (sync : result unit Error) : result unit WriterError :=
  map_err (WIo "synchronise recovery-journal records") sync.

(** A journal file on disk: its bytes and how many of them are synchronised; with it, the records
    they are to be read as. *)
Record JournalDisk := MkJournalDisk {
  jd_header : FileHeader;
  jd_content : list byte;
  jd_synced_bytes : nat;
  jd_records : list FramedRecord;
  jd_synced : nat;
}.

Definition jd_append (r : FramedRecord) (j : JournalDisk) (ans : result unit WriterError)
    (j' : JournalDisk) : Prop :=
  ∃ write_all wrote content, journal_append (jd_content j) r write_all wrote = (ans, content) ∧
    j' = MkJournalDisk (jd_header j) content (jd_synced_bytes j)
           (if is_ok (FramedRecord_encode r) then jd_records j ++ [r] else jd_records j)
           (jd_synced j).
Definition jd_sync (j : JournalDisk) (ans : result unit WriterError) (j' : JournalDisk) : Prop :=
  ∃ sync bytes, ans = journal_sync_data sync ∧
    (jd_synced_bytes j ≤ bytes ≤ length (jd_content j))%nat ∧
    j' = if is_ok sync
         then MkJournalDisk (jd_header j) (jd_content j) (length (jd_content j)) (jd_records j)
                (length (jd_records j))
         else MkJournalDisk (jd_header j) (jd_content j) bytes (jd_records j) (jd_synced j).

#[export] Instance journal_disk : DurableJournal JournalDisk := {|
  journal_header := jd_header;
  append := jd_append;
  journal_sync := jd_sync;
  journal_records := jd_records;
  journal_synced := jd_synced;
  journal_intact j := jd_content j = journal (jd_header j) (jd_records j) ∧
    (jd_synced j ≤ length (jd_records j))%nat ∧
    (length (journal (jd_header j) (take (jd_synced j) (jd_records j))) ≤ jd_synced_bytes j
      ≤ length (jd_content j))%nat;
  journal_coherent j := jd_content j `prefix_of` journal (jd_header j) (jd_records j) ∧
    (jd_synced j ≤ length (jd_records j))%nat ∧
    (length (journal (jd_header j) (take (jd_synced j) (jd_records j))) ≤ jd_synced_bytes j
      ≤ length (jd_content j))%nat;
  journal_image j img := img `prefix_of` jd_content j ∧ (jd_synced_bytes j ≤ length img)%nat;
|}.

Lemma journal_snoc h rs r : journal h (rs ++ [r]) = journal h rs ++ frame_bytes r.
Proof.
  unfold journal. rewrite frames_app, <- app_assoc. do 2 f_equal. unfold frames. cbn. apply app_nil_r.
Qed.

#[export] Instance journal_disk_laws : DurableJournalLaws JournalDisk.
Proof.
  split; cbn.
  - intros j img ((x & Hc) & _ & Hs & _) [[y Hi] Hl]. exists (length img).
    split; [lia|]. rewrite Hc, Hi, <- app_assoc. by rewrite take_app_length.
  - intros j (Hc & ? & ? & ?). split_and!; [by rewrite Hc|done..].
  - intros j (_ & ? & _). done.
  - intros r j ans j' (wa & wrote & content & Ha & ->) Hfit (Hc & Hs & Hl & Hu). cbn.
    unfold journal_append in Ha. rewrite encode_cases in Ha |- *. unfold fits in Hfit.
    destruct (Z.leb_spec (zlen (payload_of r)) MAX_PAYLOAD_LEN); [|lia]. cbn [is_ok].
    rewrite take_app_le, journal_snoc, length_app by done.
    destruct wa as [[]|e]; injection Ha as <- <-; rewrite Hc in *;
      (split; [done|]; split; [done|]); rewrite ?length_app; cbn; (split; [|]); try by right.
    + split_and!; [done|lia..].
    + split_and!; [done|done|lia..].
    + split_and!; [apply prefix_app, prefix_take|lia..].
  - intros j ans j' (sync & bytes & -> & [Hb1 Hb2] & ->) (Hc & Hs & Hl & Hu).
    destruct sync as [[]|e]; cbn; (split; [done|]; split; [done|]).
    + split; [lia|]. split; [split_and!; [by rewrite Hc|lia| |lia]|].
      * rewrite firstn_all, <- Hc. done.
      * intros _. split_and!; [done..| |lia]. rewrite firstn_all, <- Hc. done.
    + split; [lia|]. split; [split_and!; [by rewrite Hc|lia|lia|lia]|done].
Qed.

End journal_file.

(** ** The part file *)

(** A part file and the ranges written since its last synchronisation. *)
Record PartDisk := MkPartDisk {
  pd_part : PartFile;
  pd_dirty : list Range;
  pd_wf : wf_part pd_part;
}.

(** Each call meets its own operating system: answers may differ from call to call. *)
Definition pd_write (off : Z) (bs : list byte) (d : PartDisk) (r : result unit WriterError)
    (d' : PartDisk) : Prop :=
  ∃ (O : Os) (_ : OsLaws) r0 part, PartFile.write_all_at (pd_part d) off bs = (r0, part) ∧
    r = map_err WPartFile r0 ∧ pd_part d' = part ∧
    pd_dirty d' = MkRange off (off + zlen bs) :: pd_dirty d.
Definition pd_sync (d : PartDisk) (r : result unit WriterError) (d' : PartDisk) : Prop :=
  ∃ (O : Os), r = map_err WPartFile (PartFile.sync_data (pd_part d)) ∧
    pd_part d' = pd_part d ∧ pd_dirty d' = if is_ok r then [] else pd_dirty d.

#[export] Instance part_disk : DurableData PartDisk := {|
  data_total_length d := pf_total_length (pd_part d);
  write_all_at := pd_write;
  data_sync := pd_sync;
  data_content d := f_content (pf_file (pd_part d));
  data_image d img := length img = length (f_content (pf_file (pd_part d))) ∧
    ∀ i : nat, ¬ Exists (λ r, in_range r (Z.of_nat i)) (pd_dirty d) →
      img !! i = f_content (pf_file (pd_part d)) !! i;
|}.

(** A range that keeps its bytes, apart from what was written, stays stable. *)
Lemma part_stable d d' off n off' bs' :
  stable d off' bs' → length (f_content (pf_file (pd_part d'))) = length (f_content (pf_file (pd_part d))) →
  (∀ i : nat, ¬ (off ≤ Z.of_nat i < off + n) →
     f_content (pf_file (pd_part d')) !! i = f_content (pf_file (pd_part d)) !! i) →
  (∀ i : nat, ¬ (off ≤ Z.of_nat i < off + n) →
     Exists (λ r, in_range r (Z.of_nat i)) (pd_dirty d') →
     Exists (λ r, in_range r (Z.of_nat i)) (pd_dirty d)) →
  off' + zlen bs' ≤ off ∨ off + n ≤ off' → stable d' off' bs'.
Proof.
  intros Hst Hlen Hsame Hdirty Hdis img [Hil Himg]. cbn in Hil, Himg.
  set (c := f_content (pf_file (pd_part d))) in *.
  assert (Hc : zslice c off' (off' + zlen bs') = Some bs') by (apply Hst; by split).
  apply zslice_Some in Hc as (Ho & Hle & Hb & _).
  destruct (zslice img off' (off' + zlen bs')) as [x|] eqn:Ex.
  2: { apply zslice_None in Ex. unfold zlen in *. lia. }
  pose proof (zslice_len _ _ _ _ Ex) as Hxl.
  assert (Hp : zslice (overwrite off' x c) off' (off' + zlen x) = Some x)
    by (apply overwrite_read; lia).
  assert (Hx : zlen x = zlen bs') by lia. rewrite Hx in Hp.
  rewrite Hst in Hp; [congruence|]. cbn. fold c. split; [apply overwrite_length; lia|].
  intros i Hi. rewrite overwrite_lookup by lia. case_bool_decide as Hin; [|done].
  assert (Hout : ¬ (off ≤ Z.of_nat i < off + n)) by lia.
  rewrite <- Hsame, <- Himg by (done || intros Hex; by apply Hi, Hdirty).
  apply zslice_Some in Ex as (_ & _ & _ & ->).
  rewrite lookup_take_lt, lookup_drop by lia. f_equal. lia.
Qed.

#[export] Instance part_disk_laws : DurableDataLaws PartDisk.
Proof.
  split.
  - intros d. apply (pd_wf d).
  - intros d off bs r d' (O & L & r0 & part & Hw & -> & Hpart & Hdirty) Ho Hin. cbn in Hin |- *.
    pose proof (write_all_at_spec (pd_part d) off bs (pd_wf d) Ho) as Hspec.
    rewrite Hw, <- Hpart in Hspec. destruct Hspec as (_ & Ht & Hspec).
    destruct (Z.leb_spec (off + zlen bs) (pf_total_length (pd_part d))); [|lia].
    destruct Hspec as [(r' & [_ Hwr] & Hok) _]. destruct (pd_wf d) as [[? ?] ?].
    assert (Hsame : same_outside off (zlen bs) (f_content (pf_file (pd_part d)))
      (f_content (pf_file (pd_part d')))).
    { destruct r'; [rewrite Hwr; apply overwrite_outside; lia|done]. }
    split; [done|]. split.
    + destruct r0 as [[]|], r' as [[]|]; done.
    + intros off' bs' Hst. destruct Hsame as [Hl Hs].
      apply (part_stable d d' off (zlen bs)); [done..|].
      intros i Hi. rewrite Hdirty, Exists_cons. intros [Hc|?]; [|done].
      unfold in_range in Hc. cbn in Hc. lia.
  - intros d r d' (O & -> & Hpart & Hdirty). cbn. rewrite Hpart.
    split; [done|]. split; [done|]. split.
    + intros off bs Hst. apply (part_stable d d' off 0); [done|by rewrite Hpart..| |lia].
      intros i Hi. rewrite Hdirty. destruct (is_ok _); [by intros ?%Exists_nil|done].
    + intros Hr off bs Hz img [Hl Himg]. cbn in Hl, Himg. rewrite Hpart in *. rewrite <- Hz.
      rewrite Hdirty, Hr in Himg. cbn in Himg. f_equal. apply list_eq. intros i. apply Himg.
      by intros ?%Exists_nil.
Qed.

(** ** Properties *)

(** C9: I-1, end to end.  Start a new download, run any sequence of stages, flushes and interval
    operations with storage that may fail any call in any way it documents, and stop the process
    at any effect of the next call.  Whatever a restart then finds, the journal replays; every
    completed block it records is in the data file with the recorded digest; and every byte the
    running system had called complete is covered by such a record. *)
Theorem crash_consistency {D J : Type} `{Checksum, Digest} `{DurableDataLaws D}
    `{!DurableJournal J} `{!DurableJournalLaws J} windows (s0 s : sys D J) c d j stopped :
  fresh s0 → reach windows s0 s → call_args c →
  exec (s_data s) (s_journal s) (run_call windows (s_writer s) (s_map s) c) d j stopped →
  restart_ok (s_map s) d j ∧
  match stopped with Some (r, w, m) => restart_ok m d j | None => True end.
Proof.
  intros Hf Hr Ha Hx. apply fresh_inv in Hf. pose proof (reach_inv _ _ _ Hr Hf) as Hi.
  destruct (call_exec _ _ _ _ _ _ _ _ _ Hi Ha Hx) as [Hk _].
  destruct stopped as [[[r w] m]|]; cbn in Hk.
  - destruct Hk as [[? ? ? Hs Hc ?] Hmono].
    split; apply safe_restart; try done. intros b Hb. by apply Hc, Hmono.
  - destruct Hk. split; [by apply safe_restart|done].
Qed.

Section flush_result.
Context {D J : Type} `{Checksum, Digest} `{DurableDataLaws D} `{!DurableJournal J}
  `{!DurableJournalLaws J}.

Lemma number_blocks_err n i blocks e :
  number_blocks n i blocks = Err e → e = SequenceExhausted.
Proof.
  revert i. induction blocks as [|sb blocks IH]; intros i; cbn; [done|].
  destruct (checked_add64 n i); cbn [ok_or]; [|by intros [= <-]].
  destruct (number_blocks n (i + 1) blocks) as [[? ?]|] eqn:E; [done|].
  intros [= <-]. by eapply IH.
Qed.

Lemma flush_err w m (d d' : D) (j j' : J) e w' m' :
  exec d j (flush w m) d' j' (Some (Err e, w', m')) →
  m' = m ∧ (w' = poison w ∨ w' = w ∧ d' = d ∧ j' = j ∧
    (e = Poisoned ∨ e = SequenceExhausted ∨
     e = IntervalLengthMismatch (dw_data_length w) (total_length m))).
Proof.
  unfold flush, ensure_usable, ensure_interval_identity.
  assert (Hearly : ∀ e0, exec d j (Ret ((Err e0, w, m) : outcome)) d' j' (Some (Err e, w', m')) →
    (e0 = Poisoned ∨ e0 = SequenceExhausted ∨
     e0 = IntervalLengthMismatch (dw_data_length w) (total_length m)) →
    m' = m ∧ (w' = poison w ∨ w' = w ∧ d' = d ∧ j' = j ∧
      (e = Poisoned ∨ e = SequenceExhausted ∨
       e = IntervalLengthMismatch (dw_data_length w) (total_length m)))).
  { intros e0 Hx He. inversion Hx; subst. auto 10. }
  destruct (dw_poisoned w); [intros Hx; eapply Hearly; [exact Hx|auto]|].
  destruct (total_length m =? dw_data_length w); [|intros Hx; eapply Hearly; [exact Hx|auto]].
  case_bool; [intros Hx; by inversion Hx|].
  destruct (complete_all m (dw_staged w)); [|intros Hx; inversion Hx; auto].
  destruct (checked_add64 _ _) eqn:En; [|intros Hx; eapply Hearly; [exact Hx|auto]].
  destruct (number_blocks _ _ _) as [[records completed]|e0] eqn:Enb.
  2: { intros Hx. eapply Hearly; [exact Hx|]. right. left. by eapply number_blocks_err. }
  intros Hx. inversion Hx as [| | |? ? ? ans d1 ? ? ? _ He| |]; subst; clear Hx.
  destruct ans; [|inversion He; auto].
  apply exec_bind in He as [(r & d2 & j2 & _ & He)|[_ ?]]; [|done].
  destruct r; [|inversion He; auto].
  inversion He as [| | | | |? ? ? ans j3 ? ? ? _ He3]; subst.
  destruct ans; inversion He3; auto.
Qed.

Lemma flush_ok w m (d d' : D) (j j' : J) completed w' m' :
  inv w m d j → exec d j (flush w m) d' j' (Some (Ok completed, w', m')) →
  dw_staged w' = [] ∧ dw_staged_bytes w' = (if has_staged_work w then 0 else dw_staged_bytes w) ∧
  (∀ b, Exists (λ sb, in_range (sb_range sb) b) (dw_staged w) → state_at m' b = Some Complete) ∧
  (∀ b, ¬ Exists (λ sb, in_range (sb_range sb) b) (dw_staged w) → state_at m' b = state_at m b) ∧
  ∃ records, journal_records j' = journal_records j ++ records ∧
    Forall2 (λ r sb, ∃ k, u64 k ∧ r = block_record k sb) records (dw_staged w) ∧
    Forall2 (λ r c, fr_sequence r = db_sequence c ∧
      ∃ len, fr_record r = BlockComplete (r_start (db_range c)) len (db_blake3 c)) records completed ∧
    numbered (zlen (journal_records j)) records ∧
    journal_synced j' = length (journal_records j') ∧ Forall2 reported completed (dw_staged w).
Proof.
  intros Hi. unfold flush, ensure_usable.
  destruct (dw_poisoned w) eqn:Hp; [intros Hx; by inversion Hx|].
  destruct (ensure_interval_identity w m); [|intros Hx; by inversion Hx].
  pose proof Hi as [Hmap Hlen Hdl Hsafe Hcov Hal]. destruct (Hal Hp) as [Hint Hsy Hnx Hst Hdone].
  unfold has_staged_work. destruct (dw_staged w) as [|sb0 staged] eqn:Estaged; cbn [negb].
  { intros Hx. inversion Hx; subst. split_and!; try done.
    { by intros b ?%Exists_nil. } exists []. rewrite app_nil_r. by split_and!. }
  rewrite <- Estaged in *. clear Estaged.
  assert (Hu : u64 (data_total_length d)) by (rewrite <- Hlen; apply Hmap).
  destruct (complete_all m (dw_staged w)) as [m2|e] eqn:Eca; [|intros Hx; by inversion Hx].
  destruct (complete_all_spec m (dw_staged w) m2 Hmap) as (Hmap2 & Ht2 & Hin2 & Hout2); [|done|].
  { eapply Forall_impl; [exact Hst|]. intros sb ((? & ?) & ? & _). ulia. }
  destruct (checked_add64 _ _) as [nx|]; [|intros Hx; by inversion Hx].
  destruct (number_blocks _ _ _) as [[records done_]|e] eqn:Enb; [|intros Hx; by inversion Hx].
  intros Hx. inversion Hx as [| | |? ? ? ans d1 ? ? ? Hds He| |]; subst; clear Hx.
  destruct ans as [[]|]; [|by inversion He].
  destruct (data_sync_law _ _ _ Hds) as (_ & _ & Hstab & Hok).
  pose proof (zlen_nonneg (journal_records j)).
  destruct (staged_records d d1 _ _ _ _ _ Enb ltac:(lia) Hu Hst (Hok eq_refl))
    as (Hnum & Hback & Hwf & Hfits & _).
  destruct (number_blocks_spec (dw_next_sequence w) 0 (dw_staged w) records done_ ltac:(lia) Enb)
    as (_ & _ & ? & ? & ?).
  rewrite Hnx, Z.add_0_r in Hnum.
  apply exec_bind in He as [(r & d2 & j2 & Ha & He)|[_ ?]]; [|done].
  destruct (append_all_exec _ _ _ _ _ _ Ha (safe_data d d1 j Hstab Hsafe) Hint Hback Hwf Hfits Hnum)
    as (-> & _ & _ & _ & Hall).
  destruct r as [[]|]; [|by inversion He]. destruct (Hall eq_refl) as [Hrec Hint2].
  inversion He as [| | | | |? ? ? ans j3 ? ? ? Hjs He3]; subst; clear He.
  destruct (journal_sync_law _ _ _ Hjs Hint2) as (_ & Hr3 & _ & _ & Hok3).
  destruct ans as [[]|]; [|by inversion He3].
  inversion He3; subst. destruct (Hok3 eq_refl) as [Hs3 _].
  split_and!; [done..|]. exists records. rewrite Hs3, Hr3, Hrec. by split_and!.
Qed.

End flush_result.

(** C10: A flush is all or nothing towards its caller.  When it succeeds, exactly the staged ranges
    have become complete, the batch is empty, and the journal has grown by exactly one record per
    staged block, in order, numbered on from its last, all synchronised, and these are the blocks
    reported, range, owner and digest.  When it fails, the interval map is unchanged and the
    writer is poisoned, unless nothing was attempted: it was poisoned already, the map describes
    another length, or the sequence numbers are exhausted. *)
Theorem flush_all_or_nothing {D J : Type} `{Checksum, Digest} `{DurableDataLaws D}
    `{!DurableJournal J} `{!DurableJournalLaws J} w m (d d' : D) (j j' : J) r w' m' :
  inv w m d j → exec d j (flush w m) d' j' (Some (r, w', m')) →
  match r with
  | Ok completed =>
      dw_staged w' = [] ∧
      (∀ b, Exists (λ sb, in_range (sb_range sb) b) (dw_staged w) → state_at m' b = Some Complete) ∧
      (∀ b, ¬ Exists (λ sb, in_range (sb_range sb) b) (dw_staged w) →
         state_at m' b = state_at m b) ∧
      ∃ records, journal_records j' = journal_records j ++ records ∧
        Forall2 (λ r sb, ∃ k, u64 k ∧ r = block_record k sb) records (dw_staged w) ∧
        Forall2 (λ r c, fr_sequence r = db_sequence c ∧
          ∃ len, fr_record r = BlockComplete (r_start (db_range c)) len (db_blake3 c))
          records completed ∧
        numbered (zlen (journal_records j)) records ∧
        journal_synced j' = length (journal_records j') ∧
        Forall2 reported completed (dw_staged w)
  | Err e =>
      m' = m ∧ (w' = poison w ∨ w' = w ∧ d' = d ∧ j' = j ∧
        (e = Poisoned ∨ e = SequenceExhausted ∨
         e = IntervalLengthMismatch (dw_data_length w) (total_length m)))
  end.
Proof.
  intros Hi Hx. destruct r as [completed|e]; [|by apply flush_err].
  destruct (flush_ok _ _ _ _ _ _ _ _ _ Hi Hx) as (? & _ & ? & ? & ?). done.
Qed.

(** ** A run on the concrete storage *)

Module Example_run.
Import Concrete MemoryOs.

Definition header : FileHeader := FileHeader_new (replicate 16 x11) 8 0 (replicate 32 x22).
Definition part_of (content : list byte) : PartFile :=
  MkPartFile (MkFile content 8) "a.dppart"%string 8 FallocateKeepSize.
Lemma part_wf content : length content = 8%nat → wf_part (part_of content).
Proof. intros Hc. split; cbn; [unfold zlen; rewrite Hc; lia|done]. Qed.

Definition w1 : WorkerId := WorkerId_new 1.
Definition block : list byte := [x01; x02; x03; x04].
Definition part0 : PartDisk := MkPartDisk (part_of (replicate 8 x00)) [] (part_wf (replicate 8 x00) eq_refl).
Definition part1 : PartDisk :=
  MkPartDisk (part_of (block ++ replicate 4 x00)) [MkRange 0 4] (part_wf (block ++ replicate 4 x00) eq_refl).
Definition part2 : PartDisk :=
  MkPartDisk (part_of (block ++ replicate 4 x00)) [] (part_wf (block ++ replicate 4 x00) eq_refl).
Definition record : FramedRecord := FramedRecord_new 0 (BlockComplete 0 4 (blake3 block)).
Definition journal0 : JournalDisk := MkJournalDisk header (journal header []) 72 [] 0.
Definition journal1 : JournalDisk :=
  MkJournalDisk header (journal header [record]) 72 [record] 0.
Definition journal2 : JournalDisk :=
  MkJournalDisk header (journal header [record]) 131 [record] 1.

Definition writer0 : DurableWriter := MkWriter 8 0 [] 0 None false None 0.
Definition staged : StagedBlock := MkStaged (MkRange 0 4) 4 w1 (blake3 block).
Definition writer1 : DurableWriter := MkWriter 8 0 [staged] 4 (Some 5) false None 0.
Definition writer2 : DurableWriter := MkWriter 8 1 [] 0 None false None 4.
Definition map1 : IntervalMap :=
  MkIntervalMap 8 [MkInterval 0 4 (InProgress w1); MkInterval 4 8 Pending].
Definition map2 : IntervalMap :=
  MkIntervalMap 8 [MkInterval 0 4 Complete; MkInterval 4 8 Pending].

Definition sys0 : sys PartDisk JournalDisk := MkSys writer0 (Intervals.new 8) part0 journal0.
Definition sys1 : sys PartDisk JournalDisk := MkSys writer0 map1 part0 journal0.
Definition sys2 : sys PartDisk JournalDisk := MkSys writer1 map1 part1 journal0.

Lemma sys0_fresh : fresh sys0.
Proof.
  split; cbn; [split; [done|done]|split_and!; done|done| |done].
  split; [done|]. split; [lia|]. vm_compute. lia.
Qed.

Lemma run_grant :
  exec part0 journal0 (run_call false writer0 (Intervals.new 8)
    (CSupervise (OpGrant (MkRange 0 4) w1))) part0 journal0 (Some (Ok [], writer0, map1)).
Proof. apply exec_ret. Qed.

Lemma run_stage :
  exec part0 journal0 (run_call false writer0 map1 (CStage w1 0 block 5)) part1 journal0
    (Some (Ok [], writer1, map1)).
Proof.
  eapply (exec_write _ _ _ _ _ (Ok tt) part1); [|apply exec_ret].
  exists memory, memory_laws, (Ok tt), (part_of (block ++ replicate 4 x00)).
  split_and!; [vm_compute; reflexivity|done..].
Qed.

Lemma run_flush :
  exec part1 journal0 (run_call false writer1 map1 CFlush) part2 journal2
    (Some (Ok [MkDurable 0 (MkRange 0 4) w1 (blake3 block)], writer2, map2)).
Proof.
  eapply (exec_data_sync _ _ _ (Ok tt) part2); [by exists memory|].
  eapply (exec_append _ _ _ _ (Ok tt) journal1).
  { exists (Ok tt), 0%nat, (journal header [record]). split; vm_compute; reflexivity. }
  eapply (exec_journal_sync _ _ _ (Ok tt) journal2); [|apply exec_ret].
  exists (Ok tt), 131%nat. split_and!; [done|vm_compute; lia|vm_compute; lia|].
  vm_compute. reflexivity.
Qed.

Lemma reach_sys2 : reach false sys0 sys2.
Proof.
  eapply (reach_step _ sys0 sys1 (CStage w1 0 block 5)); [|done|exact run_stage].
  eapply (reach_step _ sys0 sys0 (CSupervise (OpGrant (MkRange 0 4) w1)));
    [apply reach_refl| |exact run_grant].
  split; [split; done|done].
Qed.

Example crash_consistency_witness :
  restart_ok map1 part2 journal2 ∧ restart_ok map2 part2 journal2.
Proof.
  exact (crash_consistency false sys0 sys2 CFlush part2 journal2 _ sys0_fresh reach_sys2 I run_flush).
Defined.

Lemma sys2_inv : inv writer1 map1 part1 journal0.
Proof. exact (reach_inv false sys0 sys2 reach_sys2 (fresh_inv sys0 sys0_fresh)). Qed.

Example flush_all_or_nothing_witness :
  inv writer1 map1 part1 journal0 ∧ dw_staged writer2 = [].
Proof.
  split; [exact sys2_inv|].
  exact (proj1 (flush_all_or_nothing writer1 map1 part1 part2 journal0 journal2 _ writer2 map2
    sys2_inv run_flush)).
Defined.

End Example_run.

End Writer.
