(* ===== verification/Compaction.v ===== *)
(** * [downpour-storage/src/journal/compaction.rs]: journal compaction

    Verification and merging of the completed blocks, the replacement journal, and its atomic
    installation under a crash at any boundary. *)

From S2P Require Import Prelude Io Format JournalState Replay PartFile.
From Stdlib Require Import String.
From stdpp Require Import list.
#[local] Open Scope Z_scope.

Module Compaction.
Import Io.Io Format.Format JournalState.JournalState Replay.Replay PartFile.PartFile.

Definition HASH_BUFFER_LEN : Z := 64 * 1024.

Inductive CompactionError :=
| CReplay (e : ReplayError)
| CIo (e : Error)
| CInvalidState (detail : string)
| CBlockDigestMismatch (offset len : Z)
| CFormat (e : FormatError).

(** [From<JournalStateError>]. *)
Definition of_state_error (e : JournalStateError) : CompactionError := CInvalidState (detail e).

Record MergeBuilder := MkBuilder { mb_start : Z; mb_len : Z; mb_hasher : Hasher }.

Section compaction.
Context `{Checksum, Digest}.

Definition finish_merge (current : option MergeBuilder) (merged : list CompletedBlock)
    : option MergeBuilder * list CompletedBlock :=
  match current with
  | Some builder =>
      (None, if mb_len builder =? 0 then merged
             else merged ++ [MkBlock (mb_start builder) (mb_len builder)
                               (finalize (mb_hasher builder))])
  | None => (None, merged)
  end.

(** The loop of [feed_merge]; [fuel] bounds its turns. *)
Fixpoint feed_merge (fuel : nat) (current : option MergeBuilder) (merged : list CompletedBlock)
    (position : Z) (bytes : list byte)
    : option (result (option MergeBuilder * list CompletedBlock) CompactionError) :=
  match fuel with
  | O => None
  | S fuel =>
      if bool_decide (bytes = []) then Some (Ok (current, merged))
      else
        let builder := default (MkBuilder position 0 Hasher_new) current in
        let room := u32_max - mb_len builder in
        let take_u64 := Z.min room (zlen bytes) in
        let hasher := update (mb_hasher builder) (take (Z.to_nat take_u64) bytes) in
        match checked_add32 (mb_len builder) take_u64 with
        | None => Some (Err (CInvalidState "merged record length overflows u32"))
        | Some len =>
            match checked_add64 position take_u64 with
            | None => Some (Err (CInvalidState "merged record offset overflows u64"))
            | Some position =>
                let builder := MkBuilder (mb_start builder) len hasher in
                let '(current, merged) :=
                  if len =? u32_max then finish_merge (Some builder) merged
                  else (Some builder, merged) in
                feed_merge fuel current merged position (drop (Z.to_nat take_u64) bytes)
            end
        end
  end.

Section part.
(** [Seek::seek] and [Read::read_exact] of the part file, at a position. *)
Context (part_seek : Z → result unit Error) (part_read : Z → Z → result (list byte) Error).

(** The reading loop of one block. *)
Fixpoint hash_block (fuel : nat) (position remaining : Z) (original : Hasher)
    (current : option MergeBuilder) (merged : list CompletedBlock)
    : option (result (Hasher * option MergeBuilder * list CompletedBlock) CompactionError) :=
  match fuel with
  | O => None
  | S fuel =>
      if negb (0 <? remaining) then Some (Ok (original, current, merged))
      else
        let take_u64 := Z.min remaining HASH_BUFFER_LEN in
        match part_read position take_u64 with
        | Err e => Some (Err (CIo e))
        | Ok buffer =>
            match feed_merge (S (length buffer)) current merged position buffer with
            | None => None
            | Some (Err e) => Some (Err e)
            | Some (Ok (current, merged)) =>
                match checked_add64 position take_u64 with
                | None =>
                    Some (Err (CInvalidState "completed block read offset overflows u64"))
                | Some position =>
                    hash_block fuel position (remaining - take_u64) (update original buffer)
                      current merged
                end
            end
        end
  end.

Definition block_fuel (len : Z) : nat := Z.to_nat (len / HASH_BUFFER_LEN + 2).

(** Close the current range when the next block does not touch it. *)
Definition close_gap (current : option MergeBuilder) (merged : list CompletedBlock)
    (block : CompletedBlock) : option MergeBuilder * list CompletedBlock :=
  match current with
  | Some builder =>
      if negb (wadd64 (mb_start builder) (mb_len builder) =? cb_offset block)
      then finish_merge current merged else (current, merged)
  | None => (current, merged)
  end.

Fixpoint verify_loop (blocks : list CompletedBlock) (current : option MergeBuilder)
    (merged : list CompletedBlock) : option (result (list CompletedBlock) CompactionError) :=
  match blocks with
  | [] => Some (Ok (snd (finish_merge current merged)))
  | block :: blocks =>
      let '(current, merged) := close_gap current merged block in
      match part_seek (cb_offset block) with
      | Err e => Some (Err (CIo e))
      | Ok _ =>
          match hash_block (block_fuel (cb_len block)) (cb_offset block) (cb_len block)
                  Hasher_new current merged with
          | None => None
          | Some (Err e) => Some (Err e)
          | Some (Ok (original, current, merged)) =>
              if negb (bool_decide (finalize original = cb_blake3 block))
              then Some (Err (CBlockDigestMismatch (cb_offset block) (cb_len block)))
              else verify_loop blocks current merged
          end
      end
  end.

Definition verify_and_merge (blocks : list CompletedBlock)
    : option (result (list CompletedBlock) CompactionError) :=
  verify_loop blocks None [].

End part.

(** [try_fold] with [checked_add]. *)
Definition covered_bytes_of (merged : list CompletedBlock) : result Z CompactionError :=
  fold_left (λ acc b,
    let? total := acc in
    ok_or (checked_add64 total (cb_len b)) (CInvalidState "covered byte count overflows u64"))
    merged (Ok 0).

(** The records of the replacement, before numbering. *)
Definition semantic_records (state : EffectiveState) (merged : list CompletedBlock)
    (covered_bytes wall_clock : Z) : list JournalRecord :=
  map IdentityUpdate (es_identities state) ++
  match es_truncate state with Some n => [Truncate n] | None => [] end ++
  [Checkpoint covered_bytes wall_clock] ++
  map (λ b, BlockComplete (cb_offset b) (cb_len b) (cb_blake3 b)) merged ++
  match es_sealed state with Some d => [Sealed d] | None => [] end.

Fixpoint encode_records (sequence : Z) (records : list JournalRecord) (encoded : list byte)
    : result (list byte) CompactionError :=
  match records with
  | [] => Ok encoded
  | record :: records =>
      let? frame := map_err CFormat (FramedRecord_encode (FramedRecord_new sequence record)) in
      encode_records (sequence + 1) records (encoded ++ frame)
  end.

Definition encode_replacement (header : FileHeader) (state : EffectiveState)
    (merged : list CompletedBlock) (wall_clock : Z) : result (list byte) CompactionError :=
  let? covered_bytes := covered_bytes_of merged in
  encode_records 0 (semantic_records state merged covered_bytes wall_clock)
    (FileHeader_encode header).

(** ** Atomic replacement *)

Inductive ReplacementBoundary := NewFileCreated | NewFileSynced | Renamed | DirectorySynced.
#[export] Instance ReplacementBoundary_eq_dec : EqDecision ReplacementBoundary.
Proof. solve_decision. Defined.

(** A file's bytes, and whether they are synchronised. *)
Record OnDisk := MkOnDisk { od_bytes : list byte; od_synced : bool }.

(** The directory: the file the journal's name denotes, the file [.new] denotes, and the file the
    journal's name denotes once the directory's last synchronisation is all that is left. *)
Record Names := MkNames {
  n_journal : OnDisk;
  n_new : option OnDisk;
  n_durable : OnDisk;
}.

(** What a crash may leave under the journal's name: either file, with all its bytes if they were
    synchronised. *)
Definition found_after_crash (names : Names) (bytes : list byte) : Prop :=
  ∃ f, (f = n_journal names ∨ f = n_durable names) ∧
    if od_synced f then bytes = od_bytes f else bytes `prefix_of` od_bytes f.

(** The answers of the six calls, in order. *)
Record ReplaceCalls := MkCalls {
  rc_open : result unit Error;
  rc_write : result unit Error;
  rc_wrote : nat; (* bytes written when [rc_write] fails *)
  rc_sync : result unit Error;
  rc_rename : result unit Error;
  rc_directory : result unit Error;
}.

(** From [fs::rename] on: the journal's name comes to denote the new file. *)
Definition rename_and_sync (new_file : OnDisk) (calls : ReplaceCalls)
    (hook : ReplacementBoundary → result unit Error) (names : Names)
    : result unit Error * Names :=
  match rc_rename calls with
  | Err e => (Err e, names)
  | Ok _ =>
      let names := MkNames new_file None (n_durable names) in
      match (let? _ := hook Renamed in rc_directory calls) with
      | Err e => (Err e, names)
      | Ok _ => (hook DirectorySynced, MkNames new_file None new_file)
      end
  end.

Definition replace_atomically_with_hook (replacement : list byte) (calls : ReplaceCalls)
    (hook : ReplacementBoundary → result unit Error) (names : Names)
    : result unit Error * Names :=
  match rc_open calls with
  | Err e => (Err e, names)
  | Ok _ =>
      let names := MkNames (n_journal names) (Some (MkOnDisk [] false)) (n_durable names) in
      match hook NewFileCreated with
      | Err e => (Err e, names)
      | Ok _ =>
          match rc_write calls with
          | Err e =>
              (Err e, MkNames (n_journal names)
                        (Some (MkOnDisk (take (rc_wrote calls) replacement) false))
                        (n_durable names))
          | Ok _ =>
              let written synced :=
                MkNames (n_journal names) (Some (MkOnDisk replacement synced)) (n_durable names) in
              match rc_sync calls with
              | Err e => (Err e, written false)
              | Ok _ =>
                  match hook NewFileSynced with
                  | Err e => (Err e, written true)
                  | Ok _ => rename_and_sync (MkOnDisk replacement true) calls hook (written true)
                  end
              end
          end
      end
  end.

Definition replace_atomically (replacement : list byte) (calls : ReplaceCalls) (names : Names)
    : result unit Error * Names :=
  replace_atomically_with_hook replacement calls (λ _, Ok tt) names.

Definition sibling_new_path (p : path) : path := (p ++ ".new")%string.

(** [compact_journal]: [replayed] is what [recover_journal] returned, [part] the opened part. *)
Definition compact_journal (replayed : result ReplayOutcome ReplayError)
    (part : result ((Z → result unit Error) * (Z → Z → result (list byte) Error)) Error)
    (wall_clock : Z) (calls : ReplaceCalls) (names : Names)
    : option (result unit CompactionError * Names) :=
  match replayed with
  | Err e => Some (Err (CReplay e), names)
  | Ok replayed =>
      match effective_state (ro_header replayed) (ro_records replayed) with
      | Err e => Some (Err (of_state_error e), names)
      | Ok state =>
          match part with
          | Err e => Some (Err (CIo e), names)
          | Ok (part_seek, part_read) =>
              match verify_and_merge part_seek part_read (es_blocks state) with
              | None => None
              | Some (Err e) => Some (Err e, names)
              | Some (Ok merged) =>
                  match encode_replacement (ro_header replayed) state merged wall_clock with
                  | Err e => Some (Err e, names)
                  | Ok replacement =>
                      let '(r, names) := replace_atomically replacement calls names in
                      Some (map_err CIo r, names)
                  end
              end
          end
      end
  end.

End compaction.

(** ** Verification and merging *)

Section merge_facts.
Context `{Checksum, Digest}.
Context (content : list byte).

(** The block's bytes are in the file, with its digest. *)
Definition block_true (b : CompletedBlock) : Prop :=
  0 < cb_len b ≤ u32_max ∧ ∃ bs, zslice content (cb_offset b) (cb_offset b + cb_len b) = Some bs ∧
    blake3 bs = cb_blake3 b.
Definition block_covers (x : Z) (b : CompletedBlock) : Prop :=
  cb_offset b ≤ x < cb_offset b + cb_len b.
Definition ends_by (pos : Z) (b : CompletedBlock) : Prop := cb_offset b + cb_len b ≤ pos.

Lemma in_order_snoc l b :
  in_order l → Forall (ends_by (cb_offset b)) l → in_order (l ++ [b]).
Proof.
  induction l as [|a l IH]; [by repeat constructor|].
  intros [Ha Hl] [He Hends]%Forall_cons. cbn [app in_order]. split; [|by apply IH].
  apply Forall_app_2; [done|]. by constructor.
Qed.

(** What has been read up to [pos]: the bytes of [seen]. *)
Record merging (seen : Z → Prop) (pos : Z) (current : option MergeBuilder)
    (merged : list CompletedBlock) : Prop := {
  mg_true : Forall block_true merged;
  mg_order : in_order merged;
  mg_ends : Forall (ends_by pos) merged;
  mg_current :
    match current with
    | None => ∀ x, seen x ↔ Exists (block_covers x) merged
    | Some b =>
        0 ≤ mb_len b < u32_max ∧ mb_start b + mb_len b = pos ∧
        zslice content (mb_start b) pos = Some (hashed (mb_hasher b)) ∧
        Forall (ends_by (mb_start b)) merged ∧
        ∀ x, seen x ↔ Exists (block_covers x) merged ∨ mb_start b ≤ x < pos
    end;
}.

Lemma finish_builder seen pos b merged :
  Forall block_true merged → in_order merged → Forall (ends_by (mb_start b)) merged →
  0 ≤ mb_len b ≤ u32_max → mb_start b + mb_len b = pos →
  zslice content (mb_start b) pos = Some (hashed (mb_hasher b)) →
  (∀ x, seen x ↔ Exists (block_covers x) merged ∨ mb_start b ≤ x < pos) →
  merging seen pos None (snd (finish_merge (Some b) merged)).
Proof.
  intros Ht Ho He Hl Hp Hz Hs. cbn. destruct (Z.eqb_spec (mb_len b) 0) as [E|E].
  - split; [done|done| |].
    + eapply Forall_impl; [exact He|]. unfold ends_by. intros; lia.
    + intros x. rewrite Hs. split; [intros [?|?]; [done|lia]|by left].
  - split.
    + apply Forall_app_2; [done|]. constructor; [|done]. split; cbn; [lia|].
      exists (hashed (mb_hasher b)). by rewrite Hp.
    + by apply in_order_snoc.
    + apply Forall_app_2; [|constructor; [unfold ends_by; cbn; lia|done]].
      eapply Forall_impl; [exact He|]. unfold ends_by. intros; lia.
    + intros x. rewrite Hs, Exists_app, Exists_cons, Exists_nil. unfold block_covers. cbn.
      rewrite Hp. tauto.
Qed.

Lemma finish_spec seen pos current merged :
  merging seen pos current merged →
  fst (finish_merge current merged) = None ∧
  merging seen pos None (snd (finish_merge current merged)).
Proof.
  destruct current as [b|]; [|done]. intros [Ht Ho _ (? & ? & ? & ? & ?)].
  split; [done|]. apply finish_builder; try done. lia.
Qed.

(** Starting a builder where the reading stands changes nothing. *)
Lemma start_builder seen pos current merged :
  merging seen pos current merged → 0 ≤ pos ≤ zlen content →
  merging seen pos (Some (default (MkBuilder pos 0 Hasher_new) current)) merged.
Proof.
  destruct current as [b|]; [done|]. intros [Ht Ho He Hc] Hp. split; try done. cbn.
  split_and!; try done; try lia.
  - apply zslice_Some. rewrite Z.sub_diag. cbn. rewrite take_0. split_and!; lia || done.
  - intros x. rewrite Hc. split; [by left|]. intros [?|?]; [done|lia].
Qed.

Lemma feed_merge_spec fuel seen pos current merged bytes :
  merging seen pos current merged → 0 ≤ pos → pos + zlen bytes < u64_modulus →
  zslice content pos (pos + zlen bytes) = Some bytes → (length bytes < fuel)%nat →
  ∃ current' merged', feed_merge fuel current merged pos bytes = Some (Ok (current', merged')) ∧
    merging (λ x, seen x ∨ pos ≤ x < pos + zlen bytes) (pos + zlen bytes) current' merged'.
Proof.
  revert seen pos current merged bytes.
  induction fuel as [|fuel IH]; intros seen pos current merged bytes Hm Hpos Hu Hz Hf; [lia|].
  cbn [feed_merge]. case_bool_decide as Hnil.
  { subst bytes. rewrite zlen_nil, Z.add_0_r in *. exists current, merged. split; [done|].
    destruct Hm as [? ? ? Hc]. split; try done. destruct current as [b|].
    - destruct Hc as (? & ? & ? & ? & Hs). do 4 (split; [done|]). intros x. specialize (Hs x).
      intuition lia.
    - intros x. specialize (Hc x). intuition lia. }
  assert (Hzb : 0 < zlen bytes)
    by (destruct bytes; [done|]; rewrite zlen_cons; pose proof (zlen_nonneg bytes); lia).
  pose proof Hz as (_ & _ & Hin & _)%zslice_Some.
  pose proof (start_builder _ _ _ _ Hm ltac:(lia)) as Hb.
  set (b := default (MkBuilder pos 0 Hasher_new) current) in *.
  destruct Hb as [Ht Ho He (Hl & Hp & Hh & Hends & Hs)].
  set (k := Z.min (u32_max - mb_len b) (zlen bytes)) in *.
  assert (Hk : 0 < k ≤ zlen bytes) by lia.
  unfold checked_add32, checked_add64.
  destruct (Z.ltb_spec (mb_len b + k) u32_modulus); [|unfold_int; lia].
  destruct (Z.ltb_spec (pos + k) u64_modulus); [|lia].
  set (chunk := take (Z.to_nat k) bytes) in *.
  assert (Hck : zslice content pos (pos + k) = Some chunk).
  { apply zslice_Some in Hz as (? & ? & ? & Hbytes). apply zslice_Some. split_and!; [lia..|].
    unfold chunk. rewrite Hbytes, take_take. f_equal. lia. }
  set (b' := MkBuilder (mb_start b) (mb_len b + k) (update (mb_hasher b) chunk)).
  assert (Hrest : zslice content (pos + k) (pos + k + zlen (drop (Z.to_nat k) bytes)) =
    Some (drop (Z.to_nat k) bytes)).
  { rewrite zlen_drop. replace (pos + k + Z.max (zlen bytes - Z.of_nat (Z.to_nat k)) 0)
      with (pos + zlen bytes) by lia.
    apply zslice_Some in Hz as (? & ? & ? & Hbytes). apply zslice_Some. split_and!; [lia..|].
    rewrite Hbytes at 1. rewrite skipn_firstn_comm, drop_drop. f_equal; [lia|]. f_equal. lia. }
  assert (Hm' : ∃ current' merged', (if mb_len b + k =? u32_max
      then finish_merge (Some b') merged else (Some b', merged)) = (current', merged') ∧
      merging (λ x, seen x ∨ pos ≤ x < pos + k) (pos + k) current' merged').
  { assert (Hj : zslice content (mb_start b) (pos + k) = Some (hashed (mb_hasher b')))
      by (eapply zslice_join; [exact Hh|exact Hck]).
    assert (Hs' : ∀ x, (seen x ∨ pos ≤ x < pos + k) ↔
      Exists (block_covers x) merged ∨ mb_start b ≤ x < pos + k).
    { intros x. rewrite Hs. split; [intros [[?|?]|?]; [by left|right; lia..]|].
      intros [?|?]; [by left; left|]. destruct (decide (x < pos)); [left; right; lia|right; lia]. }
    destruct (Z.eqb_spec (mb_len b + k) u32_max) as [E|E].
    - eexists _, _. split; [reflexivity|].
      change (let '(c, l) := finish_merge (Some b') merged in c) with (@None MergeBuilder).
      apply (finish_builder _ _ b'); try done; cbn; lia.
    - eexists _, _. split; [reflexivity|]. split; [done|done| |].
      + eapply Forall_impl; [exact He|]. unfold ends_by. intros; lia.
      + cbn. split_and!; try done; lia. }
  destruct Hm' as (c2 & l2 & -> & Hm2).
  destruct (IH _ (pos + k) c2 l2 (drop (Z.to_nat k) bytes) Hm2) as (c3 & l3 & -> & Hm3).
  - lia.
  - rewrite zlen_drop. lia.
  - exact Hrest.
  - rewrite length_drop. unfold zlen in *. lia.
  - exists c3, l3. split; [done|]. rewrite zlen_drop in Hm3.
    replace (pos + k + Z.max (zlen bytes - Z.of_nat (Z.to_nat k)) 0)
      with (pos + zlen bytes) in Hm3 by lia.
    destruct Hm3 as [? ? ? Hc]. split; try done. destruct c3 as [b3|].
    + destruct Hc as (? & ? & ? & ? & Hs3). do 4 (split; [done|]). intros x. rewrite <- Hs3.
      destruct (decide (x < pos + k)); intuition lia.
    + intros x. rewrite <- Hc. destruct (decide (x < pos + k)); intuition lia.
Qed.

(** A part file that answers reads with its content, or fails. *)
Context (part_seek : Z → result unit Error) (part_read : Z → Z → result (list byte) Error).
Context (Hread : ∀ p n bs, part_read p n = Ok bs → zslice content p (p + n) = Some bs).

Lemma merging_ext seen seen' pos current merged :
  (∀ x, seen x ↔ seen' x) → merging seen pos current merged → merging seen' pos current merged.
Proof.
  intros He [? ? ? Hc]. split; try done. destruct current as [b|].
  - destruct Hc as (? & ? & ? & ? & Hs). do 4 (split; [done|]). intros x. by rewrite <- He.
  - intros x. by rewrite <- He.
Qed.

Lemma hash_block_spec fuel seen pos remaining original current merged :
  merging seen pos current merged → 0 ≤ pos → 0 ≤ remaining → pos + remaining < u64_modulus →
  remaining ≤ (Z.of_nat fuel - 1) * HASH_BUFFER_LEN →
  match hash_block part_read fuel pos remaining original current merged with
  | None => False
  | Some (Err e) => ∃ p n io, part_read p n = Err io ∧ e = CIo io
  | Some (Ok (original', current', merged')) =>
      ∃ bs, zslice content pos (pos + remaining) = Some bs ∧
        hashed original' = hashed original ++ bs ∧
        merging (λ x, seen x ∨ pos ≤ x < pos + remaining) (pos + remaining) current' merged'
  end ∨ zlen content < pos + remaining ∧ remaining = 0.
Proof.
  revert seen pos remaining original current merged.
  induction fuel as [|fuel IH]; intros seen pos remaining original current merged Hm Hp Hr Hu Hf.
  { unfold HASH_BUFFER_LEN in Hf. lia. }
  cbn [hash_block]. destruct (Z.ltb_spec 0 remaining) as [Hpos|Hz]; cbn [negb].
  2: { assert (remaining = 0) as -> by lia.
       destruct (decide (pos + 0 ≤ zlen content)); [left|right; lia].
       exists []. rewrite Z.add_0_r, app_nil_r. split_and!; [|done|].
       - apply zslice_Some. rewrite Z.sub_diag. cbn. rewrite take_0. split_and!; lia || done.
       - eapply merging_ext; [|exact Hm]. intros x. intuition lia. }
  left. set (k := Z.min remaining HASH_BUFFER_LEN) in *.
  assert (Hk : 0 < k ≤ remaining) by (unfold k, HASH_BUFFER_LEN; lia).
  destruct (part_read pos k) as [buffer|io] eqn:Er; [|by exists pos, k, io].
  pose proof (Hread _ _ _ Er) as Hz. pose proof (zslice_len _ _ _ _ Hz) as Hzl.
  assert (Hbl : zlen buffer = k) by lia.
  destruct (feed_merge_spec (S (length buffer)) seen pos current merged buffer Hm)
    as (c2 & l2 & -> & Hm2); [lia|lia|by rewrite Hbl|lia|].
  rewrite Hbl in Hm2. unfold checked_add64.
  destruct (Z.ltb_spec (pos + k) u64_modulus); [|lia].
  pose proof Hz as (_ & _ & Hin & _)%zslice_Some.
  destruct (IH _ (pos + k) (remaining - k) (update original buffer) c2 l2 Hm2)
    as [Hrec|[Hbad Hz0]]; [lia|lia|lia| | |lia].
  { destruct (decide (remaining ≤ HASH_BUFFER_LEN)).
    - assert (k = remaining) by lia. unfold HASH_BUFFER_LEN in *. nia.
    - assert (k = HASH_BUFFER_LEN) by lia. lia. }
  destruct (hash_block part_read fuel (pos + k) _ _ c2 l2) as [[[[o3 c3] l3]|e]|]; try done.
  destruct Hrec as (bs & Hzb & Ho & Hm3).
  replace (pos + k + (remaining - k)) with (pos + remaining) in * by lia.
  exists (buffer ++ bs). split_and!.
  - by eapply zslice_join.
  - rewrite Ho. cbn. by rewrite app_assoc.
  - eapply merging_ext; [|exact Hm3]. intros x. cbn.
    destruct (decide (x < pos + k)); intuition lia.
Qed.

Lemma block_fuel_enough len : 0 ≤ len → len ≤ (Z.of_nat (block_fuel len) - 1) * HASH_BUFFER_LEN.
Proof.
  intros Hl. unfold block_fuel, HASH_BUFFER_LEN.
  pose proof (Z.div_mod len (64 * 1024) ltac:(lia)).
  pose proof (Z.mod_pos_bound len (64 * 1024) ltac:(lia)).
  pose proof (Z.div_pos len (64 * 1024) ltac:(lia) ltac:(lia)). lia.
Qed.

Lemma close_gap_spec seen pos current merged block :
  merging seen pos current merged → pos ≤ cb_offset block → 0 ≤ pos → cb_offset block < u64_modulus →
  0 ≤ match current with Some b => mb_start b | None => 0 end →
  let '(c, l) := close_gap current merged block in merging seen (cb_offset block) c l.
Proof.
  intros Hm Hle Hp Hu Hst. unfold close_gap. destruct current as [b|].
  - pose proof Hm as [? ? ? (? & Hpos & ? & ? & ?)]. rewrite wadd64_small by lia. rewrite Hpos.
    destruct (Z.eqb_spec pos (cb_offset block)) as [<-|]; cbn [negb]; [done|].
    destruct (finish_spec _ _ _ _ Hm) as [E Hf]. destruct (finish_merge (Some b) merged) as [c l].
    cbn in E, Hf. subst c. destruct Hf as [? ? He ?]. split; try done.
    eapply Forall_impl; [exact He|]. unfold ends_by. intros; lia.
  - destruct Hm as [? ? He ?]. split; try done.
    eapply Forall_impl; [exact He|]. unfold ends_by. intros; lia.
Qed.

Lemma verify_loop_spec bound blocks seen pos current merged :
  merging seen pos current merged → 0 ≤ pos →
  0 ≤ match current with Some b => mb_start b | None => 0 end →
  Forall (block_ok bound) blocks → Forall (λ b, cb_len b ≤ u32_max) blocks → in_order blocks →
  Forall (λ b, pos ≤ cb_offset b) blocks →
  match verify_loop part_seek part_read blocks current merged with
  | None => False
  | Some (Err e) =>
      (∃ io, e = CIo io ∧ ((∃ p, part_seek p = Err io) ∨ (∃ p n, part_read p n = Err io))) ∨
      (∃ b bs, b ∈ blocks ∧ e = CBlockDigestMismatch (cb_offset b) (cb_len b) ∧
        zslice content (cb_offset b) (cb_offset b + cb_len b) = Some bs ∧ blake3 bs ≠ cb_blake3 b)
  | Some (Ok out) =>
      Forall block_true blocks ∧ Forall block_true out ∧ in_order out ∧
      ∀ x, (seen x ∨ Exists (block_covers x) blocks) ↔ Exists (block_covers x) out
  end.
Proof.
  revert seen pos current merged.
  induction blocks as [|b blocks IH]; intros seen pos current merged Hm Hp Hst Hok Hlen Ho Hge;
    cbn [verify_loop].
  { destruct (finish_spec _ _ _ _ Hm) as [_ [? ? ? Hs]]. split_and!; try done.
    intros x. rewrite <- Hs, Exists_nil. tauto. }
  apply Forall_cons in Hok as [(Hb1 & Hb2 & Hb3 & Hb4) Hok], Hlen as [Hbl Hlen],
    Hge as [Hge _]. destruct Ho as [Hnext Ho].
  assert (Hbu : cb_offset b < u64_modulus) by lia.
  pose proof (close_gap_spec _ _ _ _ b Hm Hge Hp Hbu Hst) as Hg.
  destruct (close_gap current merged b) as [c1 l1] eqn:Eg.
  destruct (part_seek (cb_offset b)) as [|io] eqn:Es.
  2: { left. exists io. split; [done|]. left. by eexists. }
  destruct (hash_block_spec (block_fuel (cb_len b)) seen (cb_offset b) (cb_len b) Hasher_new c1 l1
    Hg Hb2 ltac:(lia) Hb4 (block_fuel_enough (cb_len b) ltac:(lia))) as [Hh|[_ ?]]; [|lia].
  destruct (hash_block part_read _ _ _ _ c1 l1) as [[[[o2 c2] l2]|e]|]; [| |done].
  2: { destruct Hh as (p & n & io & Hr & ->). left. exists io. split; [done|]. right. eauto. }
  destruct Hh as (bs & Hz & Hhash & Hm2). cbn in Hhash.
  unfold finalize. rewrite Hhash. case_bool_decide as Hd; cbn [negb].
  2: { right. exists b, bs. split_and!; [by left|done..]. }
  assert (Hst2 : 0 ≤ match c2 with Some b => mb_start b | None => 0 end).
  { destruct c2 as [b2|]; [|done]. destruct Hm2 as [? ? ? (? & ? & Hz2 & _)].
    apply zslice_Some in Hz2. lia. }
  assert (Hge2 : Forall (λ b2, cb_offset b + cb_len b ≤ cb_offset b2) blocks) by exact Hnext.
  specialize (IH _ _ c2 l2 Hm2 ltac:(lia) Hst2 Hok Hlen Ho Hge2).
  destruct (verify_loop part_seek part_read blocks c2 l2) as [[out|e]|]; [| |done].
  - destruct IH as (Ht & Htout & Hoout & Hs). split_and!; [|done|done|].
    + constructor; [|done]. split; [lia|]. by exists bs.
    + intros x. rewrite <- Hs, Exists_cons. unfold block_covers at 1. tauto.
  - destruct IH as [?|(b2 & bs2 & Hin & ?)]; [by left|]. right. exists b2, bs2.
    split; [by right|done].
Qed.

Lemma verify_and_merge_spec bound blocks :
  Forall (block_ok bound) blocks → Forall (λ b, cb_len b ≤ u32_max) blocks → in_order blocks →
  match verify_and_merge part_seek part_read blocks with
  | None => False
  | Some (Err e) =>
      (∃ io, e = CIo io ∧ ((∃ p, part_seek p = Err io) ∨ (∃ p n, part_read p n = Err io))) ∨
      (∃ b bs, b ∈ blocks ∧ e = CBlockDigestMismatch (cb_offset b) (cb_len b) ∧
        zslice content (cb_offset b) (cb_offset b + cb_len b) = Some bs ∧ blake3 bs ≠ cb_blake3 b)
  | Some (Ok out) =>
      Forall block_true blocks ∧ Forall block_true out ∧ in_order out ∧
      ∀ x, Exists (block_covers x) blocks ↔ Exists (block_covers x) out
  end.
Proof.
  intros Hok Hlen Ho. unfold verify_and_merge.
  assert (Hm : merging (λ _, False) 0 None []) by (split; [done..|intros x; by rewrite Exists_nil]).
  assert (Hge : Forall (λ b, 0 ≤ cb_offset b) blocks).
  { eapply Forall_impl; [exact Hok|]. by intros b (_ & ? & _). }
  pose proof (verify_loop_spec bound blocks _ 0 None [] Hm ltac:(lia) ltac:(lia) Hok Hlen Ho Hge) as Hv.
  destruct (verify_loop part_seek part_read blocks None []) as [[out|e]|]; try done.
  destruct Hv as (? & ? & ? & Hs). do 3 (split; [done|]). intros x. rewrite <- Hs. tauto.
Qed.

End merge_facts.

(** ** The replacement journal *)

Section replacement_facts.
Context `{Checksum, Digest}.

(** Records numbered from [n]. *)
Fixpoint frame_from (n : Z) (rs : list JournalRecord) : list FramedRecord :=
  match rs with
  | [] => []
  | r :: rs => FramedRecord_new n r :: frame_from (n + 1) rs
  end.

Lemma frame_from_app n l l' : frame_from n (l ++ l') = frame_from n l ++ frame_from (n + zlen l) l'.
Proof.
  revert n. induction l as [|r l IH]; intros n; cbn [app frame_from].
  - by rewrite zlen_nil, Z.add_0_r.
  - rewrite IH, zlen_cons. do 3 f_equal. lia.
Qed.
Lemma zlen_frame_from n l : zlen (frame_from n l) = zlen l.
Proof. revert n. induction l as [|r l IH]; intros n; cbn; [done|]. by rewrite !zlen_cons, IH. Qed.
Lemma numbered_frame_from n l : numbered n (frame_from n l).
Proof. revert n. induction l; intros n; cbn; auto. Qed.
Lemma wf_frame_from n l :
  0 ≤ n → n + zlen l ≤ u64_modulus → Forall wf_record l → Forall wf_framed (frame_from n l).
Proof.
  intros Hn Hb Hl. revert n Hn Hb. induction Hl as [|r l Hr _ IH]; intros n Hn Hb; constructor.
  - split; [|done]. rewrite zlen_cons in Hb. pose proof (zlen_nonneg l). cbn. ulia.
  - apply IH; rewrite ?zlen_cons in *; lia.
Qed.

Lemma encode_records_Ok n rs enc out :
  encode_records n rs enc = Ok out →
  Forall fits (frame_from n rs) ∧ out = enc ++ frames (frame_from n rs).
Proof.
  revert n enc. induction rs as [|r rs IH]; intros n enc; cbn [encode_records frame_from].
  { intros [= <-]. split; [done|]. by rewrite app_nil_r. }
  destruct (FramedRecord_encode _) as [frame|] eqn:E; [|done]. cbn [map_err].
  apply encode_Ok in E as [Hf ->]. intros (? & ->)%IH. split; [by constructor|].
  change (frames (?r :: ?l)) with (frame_bytes r ++ frames l). by rewrite app_assoc.
Qed.

Lemma covered_bytes_u64 merged c : covered_bytes_of merged = Ok c → Forall (λ b, 0 ≤ cb_len b) merged → u64 c.
Proof.
  unfold covered_bytes_of.
  assert (Hgen : ∀ acc : result Z CompactionError, Forall (λ b, 0 ≤ cb_len b) merged →
    (∀ x, acc = Ok x → u64 x) →
    fold_left (λ acc b, let? total := acc in
      ok_or (checked_add64 total (cb_len b)) (CInvalidState "covered byte count overflows u64"))
      merged acc = Ok c → u64 c); [|intros Hc Hm; eapply Hgen; [done| |exact Hc]; intros x [= <-]; ulia].
  induction merged as [|b merged IH]; intros acc Hm Hacc; cbn [fold_left]; [by apply Hacc|].
  apply Forall_cons in Hm as [Hb Hm]. apply IH; [done|]. intros x.
  destruct acc as [t|]; [|done]. specialize (Hacc t eq_refl).
  destruct (checked_add64 t (cb_len b)) eqn:E; [|done]. intros [= <-].
  apply checked_add64_Some in E as [-> ?]. ulia.
Qed.

(** *** What the replacement means *)

Lemma truncations_cons r rs :
  truncations (r :: rs) =
    match fr_record r with Truncate n => n :: truncations rs | _ => truncations rs end.
Proof. unfold truncations. cbn. by destruct (fr_record r). Qed.
Lemma identities_cons r rs :
  identities_of (r :: rs) =
    match fr_record r with IdentityUpdate c => c :: identities_of rs | _ => identities_of rs end.
Proof. unfold identities_of. cbn. by destruct (fr_record r). Qed.
Lemma seals_cons r rs :
  seals_of (r :: rs) =
    match fr_record r with Sealed d => d :: seals_of rs | _ => seals_of rs end.
Proof. unfold seals_of. cbn. by destruct (fr_record r). Qed.

Definition blocks_and_seal (merged : list CompletedBlock) (seal : option (list byte)) :
    list JournalRecord :=
  map (λ b, BlockComplete (cb_offset b) (cb_len b) (cb_blake3 b)) merged ++
  match seal with Some d => [Sealed d] | None => [] end.

Lemma tail_truncations n merged seal : truncations (frame_from n (blocks_and_seal merged seal)) = [].
Proof.
  revert n. induction merged as [|b merged IH]; intros n; cbn; [by destruct seal|].
  unfold truncations in *. cbn. apply IH.
Qed.

Lemma tail_survivors n merged seal : survivors (frame_from n (blocks_and_seal merged seal)) = merged.
Proof.
  revert n. induction merged as [|b merged IH]; intros n; cbn [blocks_and_seal map app frame_from].
  - by destruct seal.
  - change (map _ merged ++ _) with (blocks_and_seal merged seal).
    cbn [survivors fr_record]. rewrite tail_truncations, IH. cbn. by destruct b.
Qed.

Lemma tail_admissible n eff merged seal :
  Forall (block_ok eff) merged → admissible eff (frame_from n (blocks_and_seal merged seal)).
Proof.
  intros Hm. revert n. induction Hm as [|b merged (? & ? & ? & ?) _ IH]; intros n.
  - by destruct seal.
  - cbn [blocks_and_seal map app frame_from admissible fr_record].
    change (map _ merged ++ _) with (blocks_and_seal merged seal). by split_and!.
Qed.

Lemma tail_seals n merged seal :
  last (seals_of (frame_from n (blocks_and_seal merged seal))) = seal.
Proof.
  revert n. induction merged as [|b merged IH]; intros n; cbn; [by destruct seal|].
  unfold seals_of in *. cbn. apply IH.
Qed.

Lemma tail_identities n merged seal : identities_of (frame_from n (blocks_and_seal merged seal)) = [].
Proof.
  revert n. induction merged as [|b merged IH]; intros n; cbn; [by destruct seal|].
  unfold identities_of in *. cbn. apply IH.
Qed.

Section reading.
Context (total eff c wall : Z) (merged : list CompletedBlock) (seal : option (list byte)).
Context (truncate : option Z).
Context (Heff : eff = default total truncate) (Hle : eff ≤ total).

Definition head_records (n : Z) (identities : list (list byte)) : list FramedRecord :=
  frame_from n (map IdentityUpdate identities ++
    match truncate with Some n => [Truncate n] | None => [] end ++
    [Checkpoint c wall] ++ blocks_and_seal merged seal).

Lemma head_reads n identities :
  Forall (block_ok eff) merged →
  admissible total (head_records n identities) ∧
  survivors (head_records n identities) = merged ∧
  last (truncations (head_records n identities)) = truncate ∧
  identities_of (head_records n identities) = identities ∧
  last (seals_of (head_records n identities)) = seal.
Proof.
  intros Hok. unfold head_records.
  remember (match truncate with Some n => [Truncate n] | None => [] end ++
    [Checkpoint c wall] ++ blocks_and_seal merged seal) as rest eqn:Hrest.
  revert n. induction identities as [|i ids IH]; intros n.
  - subst eff rest. destruct truncate as [t|]; cbn [default] in *;
      cbn [map app frame_from admissible fr_record survivors];
      rewrite !truncations_cons, !identities_cons, !seals_cons; cbn [fr_record];
      rewrite tail_truncations, tail_identities;
      (split_and!; try done; [by apply tail_admissible|apply tail_survivors|apply tail_seals]).
  - destruct (IH (n + 1)) as (? & ? & ? & Hi & ?).
    cbn [map app frame_from admissible fr_record survivors].
    rewrite truncations_cons, identities_cons, seals_cons. cbn [fr_record].
    split_and!; try done. by rewrite Hi.
Qed.
End reading.

End replacement_facts.

Section compaction_facts.
Context `{Checksum, Digest}.

Lemma replacement_spec header rs st merged wall replacement :
  wf_header header → Forall wf_framed rs → effective_state header rs = Ok st → u64 wall →
  Forall (λ b, 0 < cb_len b ≤ u32_max ∧ zlen (cb_blake3 b) = 32) merged → in_order merged →
  Forall (block_ok (es_effective_length st)) merged →
  encode_replacement header st merged wall = Ok replacement →
  zlen replacement < u64_modulus →
  ∃ rs' st', replacement = journal header rs' ∧ wf_journal header rs' ∧
    effective_state header rs' = Ok st' ∧
    es_effective_length st' = es_effective_length st ∧ es_truncate st' = es_truncate st ∧
    es_identities st' = es_identities st ∧ es_sealed st' = es_sealed st ∧
    es_blocks st' ≡ₚ merged.
Proof.
  intros Hh Hwf Hst Hwall Hm Hord Hmok. unfold encode_replacement.
  destruct (covered_bytes_of merged) as [c|] eqn:Ec; [|done].
  apply covered_bytes_u64 in Ec. 2: { eapply Forall_impl; [exact Hm|]. cbn. intros b [? _]. lia. }
  intros Henc Hsize. apply encode_records_Ok in Henc as [Hfits ->].
  destruct (effective_state_facts header rs st Hwf Hst)
    as (_ & _ & _ & Hl & Hle & _ & Htu & Hiu & Hsu).
  set (recs := semantic_records st merged c wall) in *.
  set (rs' := frame_from 0 recs) in *.
  assert (Hwfr : Forall wf_record recs).
  { unfold recs, semantic_records. repeat (apply Forall_app_2).
    - apply Forall_forall. intros r (cb & -> & Hc)%list_elem_of_fmap. rewrite Forall_forall in Hiu.
      by apply Hiu.
    - destruct (es_truncate st); [by apply Forall_singleton|done].
    - by apply Forall_singleton.
    - apply Forall_forall. intros r (b & -> & Hb)%list_elem_of_fmap.
      rewrite Forall_forall in Hm, Hmok. destruct (Hm b Hb) as [? ?], (Hmok b Hb) as (? & ? & ? & ?).
      cbn. split_and!; ulia || done.
    - destruct (es_sealed st); [by apply Forall_singleton|done]. }
  assert (Hj : FileHeader_encode header ++ frames rs' = journal header rs') by done.
  assert (Hcount : zlen recs < u64_modulus).
  { rewrite <- (zlen_frame_from 0 recs). fold rs'. unfold journal in Hj.
    rewrite zlen_app in Hsize. pose proof (zlen_nonneg (FileHeader_encode header)).
    assert (Hfr : ∀ l, zlen l ≤ zlen (frames l)).
    { clear. induction l as [|r l IH]; [done|]. change (frames (r :: l)) with (frame_bytes r ++ frames l).
      rewrite zlen_cons, zlen_app, zlen_frame_bytes. pose proof (zlen_nonneg (payload_of r)). lia. }
    specialize (Hfr rs'). lia. }
  assert (Hwf' : Forall wf_framed rs') by (apply wf_frame_from; [lia|lia|done]).
  destruct (head_reads (h_total_length header) (es_effective_length st) c wall merged (es_sealed st)
    (es_truncate st) Hl Hle 0 (es_identities st) Hmok) as (Hadm & Hsv & Htr & Hid & Hse).
  change (head_records _ _ _ _ _ 0 (es_identities st)) with rs' in *.
  assert (Hacc : is_ok (effective_state header rs') = true).
  { apply effective_state_accepts; [done|]. split; [done|]. rewrite Hsv.
    by eapply in_order_disjoint. }
  destruct (effective_state header rs') as [st'|] eqn:Est'; [|done].
  destruct (effective_state_Ok header rs' st' Hwf' Est')
    as (st0 & [? Htr0 Hl0 Hi0 Hs0 _ _] & Hlen & Htr1 & Hi1 & Hs1 & Hperm & _).
  exists rs', st'. split; [done|]. split; [|split; [done|]]; [|split_and!].
  - split; [done|]. do 2 (split; [done|]). split; [apply numbered_frame_from|].
    split; [unfold rs'; by rewrite zlen_frame_from|by rewrite <- Hj].
  - by rewrite Hlen, Hl0, Htr, Hl.
  - by rewrite Htr1, Htr0.
  - by rewrite Hi1, Hi0.
  - by rewrite Hs1, Hs0.
  - by rewrite Hperm, Hsv.
Qed.

(** Whatever fails, and wherever, the journal's name denotes the old file or the whole new one. *)
Lemma replace_names replacement calls hook names :
  let '(r, names') := replace_atomically_with_hook replacement calls hook names in
  (n_journal names' = n_journal names ∨ n_journal names' = MkOnDisk replacement true) ∧
  (n_durable names' = n_durable names ∨ n_durable names' = MkOnDisk replacement true) ∧
  (r = Ok tt → n_journal names' = MkOnDisk replacement true ∧
     n_durable names' = MkOnDisk replacement true).
Proof.
  unfold replace_atomically_with_hook, rename_and_sync.
  destruct (rc_open calls), (hook NewFileCreated), (rc_write calls), (rc_sync calls),
    (hook NewFileSynced), (rc_rename calls), (hook Renamed), (rc_directory calls); cbn;
    (split_and!; auto; done).
Qed.

(** A failing replacement reports the failure of one of its calls. *)
Definition call_failed (calls : ReplaceCalls) (io : Error) : Prop :=
  Err io ∈ [rc_open calls; rc_write calls; rc_sync calls; rc_rename calls; rc_directory calls].

Lemma replace_fails replacement calls names io names' :
  replace_atomically replacement calls names = (Err io, names') → call_failed calls io.
Proof.
  unfold replace_atomically, replace_atomically_with_hook, rename_and_sync, call_failed.
  rewrite !elem_of_cons.
  destruct (rc_open calls), (rc_write calls), (rc_sync calls), (rc_rename calls),
    (rc_directory calls); cbn; intros [= <- <-]; tauto.
Qed.

(** Disjoint blocks cannot overflow the covered byte count. *)
Lemma covered_bytes_total bound merged :
  in_order merged → Forall (block_ok bound) merged → ∃ c, covered_bytes_of merged = Ok c.
Proof.
  unfold covered_bytes_of. intros Hord Hok.
  assert (Ht : Forall (λ b, 0 ≤ cb_offset b) merged)
    by (eapply Forall_impl; [exact Hok|]; intros b (_ & ? & _); lia).
  revert Ht. generalize 0 as t.
  induction merged as [|b merged IH]; intros t Ht; cbn [fold_left]; [by exists t|].
  destruct Hord as [Hn Hord]. apply Forall_cons in Hok as [(? & ? & ? & ?) Hok], Ht as [Ht _].
  unfold checked_add64. rewrite (proj2 (Z.ltb_lt _ _)) by lia. cbn [ok_or].
  apply IH; [done..|]. eapply Forall_impl; [exact Hn|]. cbn. intros. lia.
Qed.

Lemma encode_records_fit n rs enc :
  Forall fits (frame_from n rs) → ∃ out, encode_records n rs enc = Ok out.
Proof.
  revert n enc. induction rs as [|r rs IH]; intros n enc Hf; cbn [encode_records]; [by eexists|].
  apply Forall_cons in Hf as [Hr Hf]. rewrite (proj2 (encode_Ok _ _) (conj Hr eq_refl)). cbn. by apply IH.
Qed.

(** The replacement of a well-formed journal always encodes. *)
Lemma encode_replacement_total header rs st merged wall :
  wf_journal header rs → effective_state header rs = Ok st →
  Forall (λ b, zlen (cb_blake3 b) = 32) merged → in_order merged →
  Forall (block_ok (es_effective_length st)) merged →
  ∃ replacement, encode_replacement header st merged wall = Ok replacement.
Proof.
  intros (Hh & Hwf & Hfit & _) Hst Hm Hord Hok. unfold encode_replacement.
  destruct (covered_bytes_total _ _ Hord Hok) as [c ->].
  destruct (effective_state_facts header rs st Hwf Hst) as (_ & _ & _ & _ & _ & _ & _ & _ & Hsu).
  destruct (effective_state_Ok header rs st Hwf Hst) as (st0 & Hrd & _ & _ & Hi & _).
  pose proof (rd_identities _ _ _ Hrd) as Hi0. apply encode_records_fit.
  assert (Hall : Forall (λ r, zlen (snd (encode_payload r)) ≤ MAX_PAYLOAD_LEN)
    (semantic_records st merged c wall)).
  2: { revert Hall. generalize 0 as n. induction (semantic_records st merged c wall) as [|r l IH];
         intros n Hall; [done|]. apply Forall_cons in Hall as [? ?]. constructor; [done|by apply IH]. }
  unfold semantic_records. repeat apply Forall_app_2.
  - apply Forall_forall. intros r (cb & -> & Hc)%list_elem_of_fmap. rewrite Hi, Hi0 in Hc.
    apply list_elem_of_omap in Hc as (fr & Hfr & Hc). rewrite Forall_forall in Hfit.
    specialize (Hfit fr Hfr). unfold fits, payload_of in Hfit.
    destruct (fr_record fr); try done. by injection Hc as ->.
  - destruct (es_truncate st); [by apply Forall_singleton|done].
  - by apply Forall_singleton.
  - apply Forall_forall. intros r (b & -> & Hb)%list_elem_of_fmap. rewrite Forall_forall in Hm.
    specialize (Hm b Hb). unfold MAX_PAYLOAD_LEN. cbn -[to_le_bytes]. rewrite !zlen_app, Hm.
    unfold zlen. rewrite !length_to_le_bytes. lia.
  - destruct (es_sealed st) as [d|]; [|done]. apply Forall_singleton. cbn. rewrite Hsu.
    unfold MAX_PAYLOAD_LEN. lia.
Qed.

(** Merged blocks lie where the originals lay. *)
Lemma merged_within bound content blocks merged :
  Forall (block_ok bound) blocks → Forall (block_true content) merged →
  (∀ x, Exists (block_covers x) blocks ↔ Exists (block_covers x) merged) →
  Forall (block_ok bound) merged.
Proof.
  intros Hok Htm Hcov. apply Forall_forall. intros b Hb. rewrite Forall_forall in Htm.
  destruct (Htm b Hb) as ((? & ?) & bs & Hz & _). apply zslice_Some in Hz as (? & ? & ? & _).
  assert (Hlast : Exists (block_covers (cb_offset b + cb_len b - 1)) merged).
  { apply Exists_exists. exists b. split; [done|]. unfold block_covers. lia. }
  apply Hcov, Exists_exists in Hlast as (b0 & Hb0 & Hc0). rewrite Forall_forall in Hok.
  destruct (Hok b0 Hb0) as (? & ? & ? & ?). unfold block_covers in Hc0. unfold block_ok. lia.
Qed.

End compaction_facts.

(** ** Properties *)

(** What the part file's reads and seeks promise. *)
Definition reads_content (content : list byte) (part_read : Z → Z → result (list byte) Error)
    : Prop :=
  ∀ p n bs, part_read p n = Ok bs → zslice content p (p + n) = Some bs.

(** C11: Compaction weakens no evidence.  It always terminates.  When it succeeds, every completed
    block of the old journal was read back with its recorded digest, and the journal's name
    durably denotes a well-formed journal with the same header whose reading has the same
    effective length, truncation, identities and seal, whose blocks cover exactly the same bytes,
    and each of whose (merged) blocks has the digest of the bytes it covers.  It fails only for
    records with no meaning, for a call that failed, or for a completed block whose bytes in the
    part file do not have its recorded digest. *)
Theorem compaction_preserves_evidence `{Checksum, Digest} content out part_seek part_read wall
    calls names :
  wf_journal (ro_header out) (ro_records out) → u64 wall → reads_content content part_read →
  match compact_journal (Ok out) (Ok (part_seek, part_read)) wall calls names with
  | None => False
  | Some (Err e, _) =>
      (∃ se, effective_state (ro_header out) (ro_records out) = Err se ∧ e = of_state_error se) ∨
      (∃ io, e = CIo io ∧ ((∃ p, part_seek p = Err io) ∨ (∃ p n, part_read p n = Err io) ∨
         call_failed calls io)) ∨
      (∃ st b bs, effective_state (ro_header out) (ro_records out) = Ok st ∧ b ∈ es_blocks st ∧
        e = CBlockDigestMismatch (cb_offset b) (cb_len b) ∧
        zslice content (cb_offset b) (cb_offset b + cb_len b) = Some bs ∧ blake3 bs ≠ cb_blake3 b)
  | Some (Ok _, names') =>
      zlen (od_bytes (n_journal names')) < u64_modulus →
      ∃ rs st st', effective_state (ro_header out) (ro_records out) = Ok st ∧
        n_journal names' = MkOnDisk (journal (ro_header out) rs) true ∧
        n_durable names' = n_journal names' ∧ wf_journal (ro_header out) rs ∧
        effective_state (ro_header out) rs = Ok st' ∧
        es_effective_length st' = es_effective_length st ∧ es_truncate st' = es_truncate st ∧
        es_identities st' = es_identities st ∧ es_sealed st' = es_sealed st ∧
        Forall (block_true content) (es_blocks st) ∧ Forall (block_true content) (es_blocks st') ∧
        ∀ x, Exists (block_covers x) (es_blocks st) ↔ Exists (block_covers x) (es_blocks st')
  end.
Proof.
  intros Hj Hwall Hread. pose proof Hj as (Hh & Hwf & _). unfold compact_journal.
  destruct (effective_state _ _) as [st|se] eqn:Est; [|by left; exists se].
  destruct (effective_state_facts _ _ _ Hwf Est) as (Hok & Hord & Hlen & _ & _).
  pose proof (verify_and_merge_spec content part_seek part_read Hread _ _ Hok Hlen Hord) as Hv.
  destruct (verify_and_merge _ _ _) as [[merged|e]|]; [| |done].
  2: { destruct Hv as [(io & -> & Hio)|(b & bs & ? & -> & ? & ?)].
       - right; left. exists io. tauto.
       - right; right. by exists st, b, bs. }
  destruct Hv as (Ht & Htm & Hom & Hcov).
  assert (Hm32 : Forall (λ b, 0 < cb_len b ≤ u32_max ∧ zlen (cb_blake3 b) = 32) merged).
  { eapply Forall_impl; [exact Htm|]. intros b ((? & ?) & bs & _ & <-).
    split; [done|]. unfold zlen. by rewrite blake3_len. }
  pose proof (merged_within _ content _ _ Hok Htm Hcov) as Hmok.
  destruct (encode_replacement_total _ _ st merged wall Hj Est) as [replacement Er]; [|done..|].
  { eapply Forall_impl; [exact Hm32|]. by intros b [_ ?]. }
  rewrite Er. destruct (replace_atomically _ _ _) as [[[]|io] n2] eqn:En; cbn [map_err].
  2: { right; left. exists io. split; [done|]. right; right. by eapply replace_fails. }
  intros Hsize. unfold replace_atomically in En.
  pose proof (replace_names replacement calls (λ _, Ok tt) names) as Hn. rewrite En in Hn.
  destruct Hn as (_ & _ & Hn). destruct (Hn eq_refl) as [Hnj Hnd].
  rewrite Hnj in Hsize. cbn in Hsize.
  destruct (replacement_spec _ _ st merged wall replacement Hh Hwf Est Hwall Hm32 Hom Hmok Er Hsize) as
    (rs' & st' & -> & Hwf' & Hst' & ? & ? & ? & ? & Hperm).
  exists rs', st, st'. rewrite Hnj, Hnd. do 9 (split; [done|]). split; [done|].
  split; [by rewrite Hperm|]. intros x. by rewrite Hperm.
Qed.

(** C12: Compaction cannot lose the journal.  Wherever the replacement fails or the process stops
    — any call failing, any boundary — what is found under the journal's name after a crash is
    all of the old journal or all of the new one, provided the old one was synchronised. *)
Theorem replacement_is_atomic replacement calls hook old new_ bytes :
  let names := MkNames (MkOnDisk old true) new_ (MkOnDisk old true) in
  let '(r, names') := replace_atomically_with_hook replacement calls hook names in
  found_after_crash names' bytes →
  (bytes = old ∨ bytes = replacement) ∧ (r = Ok tt → bytes = replacement).
Proof.
  cbv zeta. pose proof (replace_names replacement calls hook
    (MkNames (MkOnDisk old true) new_ (MkOnDisk old true))) as Hn.
  destruct (replace_atomically_with_hook _ _ _ _) as [r n2].
  destruct Hn as (Hj & Hd & Hok). intros (f & Hf & Hb). cbn in Hj, Hd. split.
  - assert (f = MkOnDisk old true ∨ f = MkOnDisk replacement true) as [->| ->]
      by (destruct Hf as [->| ->]; tauto); auto.
  - intros ->. destruct (Hok eq_refl) as [Hj2 Hd2].
    assert (f = MkOnDisk replacement true) as -> by (destruct Hf; congruence). done.
Qed.

(** *** Concrete runs *)

Import Concrete.

Definition ex_content : list byte := [x01; x02; x03; x04; x05].
Definition ex_read (p n : Z) : result (list byte) Error :=
  ok_or (zslice ex_content p (p + n)) (MkError UnexpectedEof None).
Definition ex_header : FileHeader :=
  FileHeader_new (replicate 16 x11) 8 0 (replicate 32 x22).
Definition ex_records : list FramedRecord :=
  [FramedRecord_new 0 (BlockComplete 2 2 (blake3 [x03; x04]));
   FramedRecord_new 1 (IdentityUpdate [x07]);
   FramedRecord_new 2 (BlockComplete 0 2 (blake3 [x01; x02]));
   FramedRecord_new 3 (Truncate 6)].
Definition ex_outcome : ReplayOutcome :=
  MkOutcome ex_header ex_records (zlen (journal ex_header ex_records)) CleanEof.
Definition ex_calls : ReplaceCalls := MkCalls (Ok tt) (Ok tt) 0 (Ok tt) (Ok tt) (Ok tt).
Definition ex_names : Names :=
  MkNames (MkOnDisk (journal ex_header ex_records) true) None
    (MkOnDisk (journal ex_header ex_records) true).

Lemma compacted_wf_journal : wf_journal ex_header ex_records.
Proof.
  unfold wf_journal. split; [split_and!; cbn; (done || ulia)|].
  split; [repeat (apply Forall_cons; split); [..|done]; split_and!; cbn; (ulia || done)|].
  split; [repeat (apply Forall_cons; split); [..|done]; vm_compute; discriminate|].
  by split_and!.
Qed.

Lemma ex_reads : reads_content ex_content ex_read.
Proof. intros p n bs. unfold ex_read. destruct (zslice _ _ _); [by intros [= <-]|done]. Qed.

Example compaction_preserves_evidence_witness :
  ∃ names', compact_journal (Ok ex_outcome) (Ok (λ _, Ok tt, ex_read)) 7 ex_calls ex_names =
      Some (Ok tt, names') ∧
    ∃ rs, n_journal names' = MkOnDisk (journal ex_header rs) true.
Proof.
  eexists. split; [vm_compute; reflexivity|].
  pose proof (compaction_preserves_evidence ex_content ex_outcome (λ _, Ok tt) ex_read 7 ex_calls
    ex_names compacted_wf_journal (conj (Zle_0_pos 7) eq_refl) ex_reads) as Hc.
  match type of Hc with match ?c with _ => _ end =>
    let v := eval vm_compute in c in replace c with v in Hc by (vm_compute; reflexivity) end.
  destruct Hc as (rs & st & st' & _ & Hn & _); [vm_compute; reflexivity|].
  exists rs. exact Hn.
Defined.

Example replacement_is_atomic_witness :
  let names := MkNames (MkOnDisk [x01] true) None (MkOnDisk [x01] true) in
  let calls := MkCalls (Ok tt) (Ok tt) 0 (Ok tt) (Ok tt) (Err invalid_data) in
  let '(r, names') := replace_atomically_with_hook [x02] calls (λ _, Ok tt) names in
  found_after_crash names' [x01] ∧ found_after_crash names' [x02] ∧
  (found_after_crash names' [x02] → [x02] = [x01] ∨ [x02] = [x02]).
Proof.
  cbn. split_and!.
  - exists (MkOnDisk [x01] true). split; [by right|done].
  - exists (MkOnDisk [x02] true). split; [by left|done].
  - intros Hf.
    exact (proj1 (replacement_is_atomic [x02] (MkCalls (Ok tt) (Ok tt) 0 (Ok tt) (Ok tt)
      (Err invalid_data)) (λ _, Ok tt) [x01] None [x02] Hf)).
Defined.

End Compaction.
