(* ===== verification/Effects.v ===== *)
(** * Programs over effects

    Code that calls services it does not own (a server, a sink, a clock) is a program over an
    effect signature: a tree of calls, each continued with its answer.  It is run against any
    world that may answer its calls, and may be stopped between any two of them. *)

From S2P Require Import Prelude.

Module Effects.

(** [E X] is the type of the calls answered by an [X]. *)
Inductive prog (E : Type → Type) (A : Type) : Type :=
| Ret (a : A)
| Vis {X : Type} (e : E X) (k : X → prog E A).
Arguments Ret {E A} a.
Arguments Vis {E A X} e k.

Fixpoint bind {E A B} (p : prog E A) (f : A → prog E B) : prog E B :=
  match p with
  | Ret a => f a
  | Vis e k => Vis e (λ x, bind (k x) f)
  end.

Definition call {E X} (e : E X) : prog E X := Vis e Ret.

(** Calls of one signature or another. *)
Inductive either (E F : Type → Type) (X : Type) : Type :=
| Left_ (e : E X)
| Right_ (f : F X).
Arguments Left_ {E F X} e.
Arguments Right_ {E F X} f.

(** A program whose calls are sent elsewhere. *)
Fixpoint translate {E F A} (f : ∀ X, E X → F X) (p : prog E A) : prog F A :=
  match p with
  | Ret a => Ret a
  | @Vis _ _ X e k => Vis (f X e) (λ x, translate f (k x))
  end.

(** [let!] sequences, [let!?] is the [?] operator inside a program. *)
Notation "'let!' x := p 'in' k" := (bind p (λ x, k))
  (at level 10, x binder, p at level 100, k at level 200) : rust_scope.
Notation "'let!?' x := p 'in' k" :=
  (bind p (λ r, match r with Ok x => k | Err e => Ret (Err e) end))
  (at level 10, x binder, p at level 100, k at level 200) : rust_scope.

(** A world: the answers it may give to a call, and what it becomes. *)
Class World (E : Type → Type) (W : Type) := does : ∀ {X}, E X → W → X → W → Prop.

Section running.
Context {E : Type → Type} {W : Type} `{World E W}.

(** [p] run in [w] reaches [w'], with its result or stopped on the way. *)
Fixpoint exec {A} (p : prog E A) (w w' : W) (o : option A) : Prop :=
  match p with
  | Ret a => w' = w ∧ (o = Some a ∨ o = None)
  | Vis e k => (w' = w ∧ o = None) ∨ ∃ x w1, does e w x w1 ∧ exec (k x) w1 w' o
  end.

(** Every run of [p] from [w] satisfies [Q] where it ends and [S] where it is stopped. *)
Fixpoint wp {A} (p : prog E A) (Q : A → W → Prop) (S : W → Prop) (w : W) : Prop :=
  S w ∧
  match p with
  | Ret a => Q a w
  | Vis e k => ∀ x w', does e w x w' → wp (k x) Q S w'
  end.

Lemma exec_call {A X} (e : E X) (k : X → prog E A) (x : X) w w1 w' o :
  does e w x w1 → exec (k x) w1 w' o → exec (Vis e k) w w' o.
Proof. intros Hd Hx. right. by exists x, w1. Qed.

Lemma exec_stopped {A} (p : prog E A) w : exec p w w None.
Proof. destruct p; [split; [done|by right]|by left]. Qed.

Lemma exec_return {A} (a : A) w : exec (Ret a) w w (Some a).
Proof. split; [done|by left]. Qed.

(** One program after another. *)
Lemma exec_then {A B} (p : prog E A) (f : A → prog E B) w w1 w2 a o :
  exec p w w1 (Some a) → exec (f a) w1 w2 o → exec (bind p f) w w2 o.
Proof.
  revert w. induction p as [b|X e k IH]; intros w; cbn [exec bind].
  - by intros [-> [[= ->]|]].
  - intros [[_ ?]|(x & w' & Hd & Hx)] Hf; [done|]. eapply exec_call; [exact Hd|by apply IH].
Qed.

Lemma prog_sound {A} (p : prog E A) Q S w w' o :
  wp p Q S w → exec p w w' o → match o with Some a => Q a w' | None => S w' end.
Proof.
  revert w. induction p as [a|X e k IH]; cbn; intros w [HS Hp].
  - by intros [-> [-> | ->]].
  - intros [[-> ->]|(x & w1 & Hd & Hx)]; [done|]. by apply (IH x w1); [apply Hp|].
Qed.

Lemma prog_complete {A} (p : prog E A) (Q : A → W → Prop) (S : W → Prop) w :
  (∀ w' o, exec p w w' o → match o with Some a => Q a w' | None => S w' end) → wp p Q S w.
Proof.
  revert w. induction p as [a|X e k IH]; cbn; intros w Hx.
  - split; [exact (Hx w None ltac:(auto))|exact (Hx w (Some a) ltac:(auto))].
  - split; [exact (Hx w None ltac:(auto))|]. intros x w' Hd. apply IH. intros w2 o Ho.
    apply Hx. right. eauto.
Qed.

Lemma prog_stop {A} (p : prog E A) Q S w : wp p Q S w → S w.
Proof. destruct p; cbn; tauto. Qed.

Lemma prog_ret {A} (a : A) Q S w : S w → Q a w → wp (Ret a) Q S w.
Proof. done. Qed.

Lemma prog_vis {A X} (e : E X) (k : X → prog E A) Q S w :
  S w → (∀ x w', does e w x w' → wp (k x) Q S w') → wp (Vis e k) Q S w.
Proof. done. Qed.

Lemma prog_bind {A B} (p : prog E A) (f : A → prog E B) Q S w :
  wp p (λ a, wp (f a) Q S) S w → wp (bind p f) Q S w.
Proof.
  revert w. induction p as [a|X e k IH]; cbn; intros w [HS Hp]; [done|].
  split; [done|]. intros x w' Hd. by apply IH, Hp.
Qed.

Lemma prog_mono {A} (p : prog E A) (Q Q' : A → W → Prop) (S S' : W → Prop) w :
  wp p Q S w → (∀ a w, Q a w → S w → Q' a w) → (∀ w, S w → S' w) → wp p Q' S' w.
Proof.
  revert w. induction p as [a|X e k IH]; cbn; intros w [HS Hp] HQ HSS; (split; [auto|]); [auto|].
  intros x w' Hd. by apply IH; [apply Hp|..].
Qed.

Lemma prog_call {X} (e : E X) Q S w :
  S w → (∀ x w', does e w x w' → S w' ∧ Q x w') → wp (call e) Q S w.
Proof. intros HS Hd. by apply prog_vis. Qed.
End running.

(** ** Programs inside a larger world

    A program translated to another signature runs as before in the part of the larger world that
    [embed] puts its own into. *)

Section translating.
Context {E F : Type → Type} {W W' : Type} `{World E W, World F W'}.
Context (inject : ∀ X, E X → F X) (embed : W → W').

Lemma translate_wp {A} (p : prog E A) Q S w :
  (∀ X (e : E X) w x w', does (inject X e) (embed w) x w' → ∃ w1, does e w x w1 ∧ w' = embed w1) →
  wp p Q S w →
  wp (translate inject p) (λ a w', ∃ w1, w' = embed w1 ∧ Q a w1)
    (λ w', ∃ w1, w' = embed w1 ∧ S w1) (embed w).
Proof.
  intros Hd. revert w. induction p as [a|X e k IH]; intros w [HS Hp]; (split; [by exists w|]);
    [by exists w|]. intros x w' (w1 & Hx & ->)%Hd. by apply IH, Hp.
Qed.

Lemma translate_exec {A} (p : prog E A) w w' (a : A) :
  (∀ X (e : E X) w x w1, does e w x w1 → does (inject X e) (embed w) x (embed w1)) →
  exec p w w' (Some a) → exec (translate inject p) (embed w) (embed w') (Some a).
Proof.
  intros Hd. revert w. induction p as [b|X e k IH]; intros w.
  - intros [-> [[= ->]|]]; [apply exec_return|done].
  - intros [[_ ?]|(x & w1 & Hx & Hk)]; [done|]. eapply exec_call; [by apply Hd|by apply IH].
Qed.
End translating.

(** ** Contracts

    What the callers of a signature owe and what they may rely on, in any world. *)

Class Contract (E : Type → Type) := {
  demands : ∀ {X}, E X → Prop;
  grants : ∀ {X}, E X → X → Prop;
}.

Section contracts.
Context {E : Type → Type} `{Contract E}.

Fixpoint abides {A} (p : prog E A) (Q : A → Prop) : Prop :=
  match p with
  | Ret a => Q a
  | Vis e k => demands e ∧ ∀ x, grants e x → abides (k x) Q
  end.

Lemma abides_vis {A X} (e : E X) (k : X → prog E A) Q :
  demands e → (∀ x, grants e x → abides (k x) Q) → abides (Vis e k) Q.
Proof. done. Qed.

Lemma abides_mono {A} (p : prog E A) (Q Q' : A → Prop) :
  abides p Q → (∀ a, Q a → Q' a) → abides p Q'.
Proof. induction p as [a|X e k IH]; cbn; [auto|]. intros [Hd Hk] HQ. split; auto. Qed.

Lemma abides_bind {A B} (p : prog E A) (f : A → prog E B) (R : A → Prop) Q :
  abides p R → (∀ a, R a → abides (f a) Q) → abides (bind p f) Q.
Proof. induction p as [a|X e k IH]; cbn; [auto|]. intros [Hd Hk] Hf. split; auto. Qed.

(** In a world that honours the contract an invariant of its calls is one of its programs. *)
Lemma abides_sound {W A} `{World E W} (I : W → Prop) (p : prog E A) Q w w' o :
  (∀ X (e : E X) w x w', demands e → I w → does e w x w' → I w' ∧ grants e x) →
  abides p Q → I w → exec p w w' o → I w' ∧ ∀ a, o = Some a → Q a.
Proof.
  intros Hc. revert w. induction p as [a|X e k IH]; cbn; intros w Hp Hi.
  - intros [-> Ho]. split; [done|]. destruct Ho as [-> | ->]; [by intros ? [= <-]|done].
  - destruct Hp as [Hd Hk]. intros [[-> ->]|(x & w1 & Hx & Ho)]; [done|].
    destruct (Hc _ _ _ _ _ Hd Hi Hx). by eapply IH; [apply Hk|..].
Qed.
End contracts.

Lemma abides_translate {E F A} `{Contract E, Contract F} (f : ∀ X, E X → F X) (p : prog E A) Q :
  (∀ X (e : E X), demands e → demands (f X e)) →
  (∀ X (e : E X) x, grants (f X e) x → grants e x) →
  abides p Q → abides (translate f p) Q.
Proof. intros Hd Hg. induction p as [a|X e k IH]; cbn; [done|]. intros [He Hk]. split; auto. Qed.

(** ** Traces

    The world that answers anything and only remembers what it was asked. *)

Record event (E : Type → Type) := Event { ev_type : Type; ev_call : E ev_type; ev_answer : ev_type }.
Arguments Event {E ev_type} ev_call ev_answer.

Definition trace (E : Type → Type) : Type := list (event E).
#[export] Instance any_answer E : World E (trace E) :=
  λ X e w x w', w' = w ++ [Event e x].

End Effects.
