(* ===== verification/Sink.v ===== *)
(** * [downpour-http/src/sink.rs]: where fetched bytes go

    The append-only window a protocol backend writes through, over any target that keeps the
    interface [SinkTarget]. *)

From S2P Require Import Prelude Io PartFile Effects.
From stdpp Require Import list.
#[local] Open Scope Z_scope.

Module Sink.
Import Io.Io PartFile.PartFile Effects.Effects.

Inductive SinkError :=
| BeyondGrant (grant already_written attempted : Z)
| NoSpace (offset : Z)
| SinkIo (offset : Z) (source : Error)
| LengthOverflow.

(** [io::Error::other]. *)
Definition io_other : Error := MkError Other None.

(** The trait: a target with its own state [T], implemented by calls of [E]. *)
Class SinkTarget (E : Type → Type) (T : Type) := {
  target_write_at : T → Z → list byte → prog E (result unit SinkError * T);
  target_verify_and_rename : T → path → prog E (result unit SinkError * T);
  target_durable_prefix_end : T → Z;
  target_sync : T → prog E (result unit SinkError * T);
}.

(** The default methods of the trait. *)
Definition default_verify_and_rename {E T} (t : T) (final_path : path)
    : prog E (result unit SinkError * T) :=
  Ret (Err (SinkIo 0 io_other), t).
Definition default_durable_prefix_end {T} (t : T) : Z := 0.

Record RangeSink (T : Type) := MkSink {
  rs_target : T;
  rs_base_offset : Z;
  rs_written : Z;
  rs_limit : option Z;
}.
Arguments MkSink {T}.
Arguments rs_target {T}.
Arguments rs_base_offset {T}.
Arguments rs_written {T}.
Arguments rs_limit {T}.

Section sink.
Context {E : Type → Type} {T : Type} `{SinkTarget E T}.

Definition sink_new (target : T) (base_offset : Z) (limit : option Z) : RangeSink T :=
  MkSink target base_offset 0 limit.

Definition with_target (s : RangeSink T) (t : T) : RangeSink T :=
  MkSink t (rs_base_offset s) (rs_written s) (rs_limit s).

Definition accept (s : RangeSink T) (bytes : list byte)
    : prog E (result unit SinkError * RangeSink T) :=
  let len := zlen bytes in
  let beyond :=
    match rs_limit s with
    | Some limit => if limit <? saturating_add64 (rs_written s) len then Some limit else None
    | None => None
    end in
  match beyond with
  | Some limit => Ret (Err (BeyondGrant limit (rs_written s) len), s)
  | None =>
      match checked_add64 (rs_base_offset s) (rs_written s) with
      | None => Ret (Err LengthOverflow, s)
      | Some offset =>
          bind (target_write_at (rs_target s) offset bytes) (λ '(r, t),
            match r with
            | Err e => Ret (Err e, with_target s t)
            | Ok _ =>
                Ret (Ok tt, MkSink t (rs_base_offset s) (saturating_add64 (rs_written s) len)
                              (rs_limit s))
            end)
      end
  end.

Definition sink_sync (s : RangeSink T) : prog E (result unit SinkError * RangeSink T) :=
  bind (target_sync (rs_target s)) (λ '(r, t), Ret (r, with_target s t)).

Definition sink_next_offset (s : RangeSink T) : Z :=
  saturating_add64 (rs_base_offset s) (rs_written s).

Definition rebase (s : RangeSink T) (base_offset : Z) (limit : option Z) : RangeSink T :=
  MkSink (rs_target s) base_offset 0 limit.

Definition sink_verify_and_rename (s : RangeSink T) (final_path : path)
    : prog E (result unit SinkError * RangeSink T) :=
  bind (target_verify_and_rename (rs_target s) final_path) (λ '(r, t), Ret (r, with_target s t)).

Definition sink_durable_prefix_end (s : RangeSink T) : Z :=
  target_durable_prefix_end (rs_target s).
End sink.

(** ** The backend's view

    A backend reaches the sink through [accept] only: it cannot name an offset. *)
Inductive sink_op : Type → Type :=
| Accept (bytes : list byte) : sink_op (result unit SinkError).

(** Running a backend against a sink: its other calls go to [net]. *)
Fixpoint feed {N E T A} `{SinkTarget E T} (net : ∀ X, N X → E X) (p : prog (either N sink_op) A)
    (s : RangeSink T) : prog E (A * RangeSink T) :=
  match p with
  | Ret a => Ret (a, s)
  | Vis (Left_ n) k => Vis (net _ n) (λ x, feed net (k x) s)
  | Vis (Right_ op) k =>
      match op in sink_op X return (X → prog (either N sink_op) A) → _ with
      | Accept bytes => λ k, bind (accept s bytes) (λ '(r, s), feed net (k r) s)
      end k
  end.

(** A backend cannot break what every accepted append and every other call keeps. *)
Lemma feed_wp {N E T A W} `{SinkTarget E T, World E W} (net : ∀ X, N X → E X)
    (I : RangeSink T → W → Prop) (S : W → Prop) :
  (∀ s w, I s w → S w) →
  (∀ s w X (n : N X) x w', I s w → does (net X n) w x w' → I s w') →
  (∀ s w bytes, I s w → wp (accept s bytes) (λ '(_, s') w', I s' w') S w) →
  ∀ (p : prog (either N sink_op) A) s w, I s w →
    wp (feed net p s) (λ '(_, s') w', I s' w') S w.
Proof.
  intros HS Hnet Hacc. induction p as [a|X e k IH]; intros s w HI; cbn [feed].
  { apply prog_ret; [by eapply HS|done]. }
  destruct e as [n|op].
  - apply prog_vis; [by eapply HS|]. intros x w' Hd. apply IH. by eapply Hnet.
  - destruct op as [bytes]. apply prog_bind. eapply prog_mono; [by apply Hacc| |done].
    intros [r s'] w' HI' _. by apply IH.
Qed.
End Sink.
