(* ===== verification/Str.v ===== *)
(** * Strings: the operations of [str] the source uses

    A [str] is the list of its characters, a character its Unicode scalar value. *)

From S2P Require Import Prelude.
From Stdlib Require Import String Ascii.
From stdpp Require Import list.
#[local] Open Scope Z_scope.

Module Str.

Definition str := list Z.
#[export] Instance str_eq_dec : EqDecision str := _.

(** An ASCII literal. *)
Fixpoint lit (s : string) : str :=
  match s with
  | EmptyString => []
  | String c s => Z.of_N (N_of_ascii c) :: lit s
  end.

Definition char_valid (c : Z) : Prop := 0 ≤ c < 55296 ∨ 57344 ≤ c < 1114112.

(** [char::is_whitespace]: the Unicode property White_Space. *)
Definition is_whitespace (c : Z) : bool :=
  ((9 <=? c) && (c <=? 13)) || (c =? 32) || (c =? 133) || (c =? 160) || (c =? 5760) ||
  ((8192 <=? c) && (c <=? 8202)) || (c =? 8232) || (c =? 8233) || (c =? 8239) || (c =? 8287) ||
  (c =? 12288).
(** [u8::is_ascii_whitespace]: space, tab, line feed, form feed, carriage return. *)
Definition is_ascii_whitespace (c : Z) : bool :=
  (c =? 32) || (c =? 9) || (c =? 10) || (c =? 12) || (c =? 13).
Definition is_ascii_digit (c : Z) : bool := (48 <=? c) && (c <=? 57).
Definition is_ascii_lowercase (c : Z) : bool := (97 <=? c) && (c <=? 122).
Definition is_ascii_uppercase (c : Z) : bool := (65 <=? c) && (c <=? 90).
Definition is_ascii_alphanumeric (c : Z) : bool :=
  is_ascii_lowercase c || is_ascii_uppercase c || is_ascii_digit c.
Definition to_ascii_lowercase_char (c : Z) : Z := if (65 <=? c) && (c <=? 90) then c + 32 else c.
Definition to_ascii_uppercase_char (c : Z) : Z := if (97 <=? c) && (c <=? 122) then c - 32 else c.
Definition to_ascii_lowercase (s : str) : str := map to_ascii_lowercase_char s.
Definition to_ascii_uppercase (s : str) : str := map to_ascii_uppercase_char s.
Definition eq_ignore_ascii_case (s t : str) : bool :=
  bool_decide (to_ascii_lowercase s = to_ascii_lowercase t).

Fixpoint trim_start_by (p : Z → bool) (s : str) : str :=
  match s with
  | c :: s' => if p c then trim_start_by p s' else s
  | [] => []
  end.
Definition trim_end_by (p : Z → bool) (s : str) : str := reverse (trim_start_by p (reverse s)).
Definition trim (s : str) : str := trim_end_by is_whitespace (trim_start_by is_whitespace s).

(** [split_once] at a character. *)
Fixpoint split_once (d : Z) (s : str) : option (str * str) :=
  match s with
  | [] => None
  | c :: s =>
      if c =? d then Some ([], s)
      else match split_once d s with Some (a, b) => Some (c :: a, b) | None => None end
  end.

(** [split] at a character: always at least one piece. *)
Fixpoint split (d : Z) (s : str) : list str :=
  match s with
  | [] => [[]]
  | c :: s =>
      if c =? d then [] :: split d s
      else match split d s with p :: ps => (c :: p) :: ps | [] => [[c]] end
  end.

Definition starts_with (p s : str) : bool := bool_decide (take (length p) s = p).
Definition strip_prefix (p s : str) : option str :=
  if starts_with p s then Some (drop (length p) s) else None.
Definition strip_prefix_char (d : Z) (s : str) : option str :=
  match s with c :: s => if c =? d then Some s else None | [] => None end.
Definition strip_suffix_char (d : Z) (s : str) : option str :=
  match last s with Some c => if c =? d then Some (removelast s) else None | None => None end.

(** UTF-8: how many bytes a character takes, and [str::len]. *)
Definition len_utf8 (c : Z) : Z :=
  if c <? 128 then 1 else if c <? 2048 then 2 else if c <? 65536 then 3 else 4.
Definition str_len (s : str) : Z := fold_right (λ c n, len_utf8 c + n) 0 s.

(** [char::is_control]. *)
Definition is_control (c : Z) : bool := (c <? 32) || ((127 <=? c) && (c <=? 159)).

(** [trim_start_matches] and [trim_end_matches] are [trim_start_by] and [trim_end_by].  The part
    behind the last character satisfying [p]: [rsplit(p).next()]. *)
Fixpoint take_until (p : Z → bool) (s : str) : str :=
  match s with
  | c :: s => if p c then [] else c :: take_until p s
  | [] => []
  end.
Definition rsplit_first (p : Z → bool) (s : str) : str := reverse (take_until p (reverse s)).

(** Around the last occurrence of a character: [rfind], and what lies before and behind. *)
Definition rsplit_once (d : Z) (s : str) : option (str * str) :=
  match split_once d (reverse s) with
  | Some (a, b) => Some (reverse b, reverse a)
  | None => None
  end.

(** The longest prefix of at most [budget] bytes that splits no character. *)
Fixpoint take_bytes (budget : Z) (s : str) : str :=
  match s with
  | c :: s => if len_utf8 c <=? budget then c :: take_bytes (budget - len_utf8 c) s else []
  | [] => []
  end.

(** [str::as_bytes]: UTF-8. *)
Definition char_bytes (c : Z) : list byte :=
  if c <? 128 then [byte_of c]
  else if c <? 2048 then [byte_of (192 + c / 64); byte_of (128 + c mod 64)]
  else if c <? 65536
  then [byte_of (224 + c / 4096); byte_of (128 + c / 64 mod 64); byte_of (128 + c mod 64)]
  else [byte_of (240 + c / 262144); byte_of (128 + c / 4096 mod 64);
        byte_of (128 + c / 64 mod 64); byte_of (128 + c mod 64)].
Definition as_bytes (s : str) : list byte := flat_map char_bytes s.

(** [str::from_utf8]: the shortest encodings of scalar values and nothing else. *)
Definition continuation (b : byte) : bool := (128 <=? byte_val b) && (byte_val b <=? 191).
Definition low_bits (b : byte) : Z := byte_val b - 128.
Definition cons_char (c : Z) (s : option str) : option str :=
  match s with Some s => Some (c :: s) | None => None end.
Fixpoint from_utf8 (bytes : list byte) : option str :=
  match bytes with
  | [] => Some []
  | b0 :: bytes1 =>
      let x := byte_val b0 in
      if x <? 128 then cons_char x (from_utf8 bytes1) else
      match bytes1 with
      | [] => None
      | b1 :: bytes2 =>
          if negb (continuation b1) then None else
          if (194 <=? x) && (x <=? 223)
          then cons_char ((x - 192) * 64 + low_bits b1) (from_utf8 bytes2) else
          match bytes2 with
          | [] => None
          | b2 :: bytes3 =>
              if negb (continuation b2) then None else
              if (224 <=? x) && (x <=? 239)
              then
                let c := (x - 224) * 4096 + low_bits b1 * 64 + low_bits b2 in
                if (c <? 2048) || ((55296 <=? c) && (c <=? 57343)) then None
                else cons_char c (from_utf8 bytes3)
              else
              match bytes3 with
              | [] => None
              | b3 :: bytes4 =>
                  if negb (continuation b3) then None else
                  if (240 <=? x) && (x <=? 244)
                  then
                    let c := (x - 240) * 262144 + low_bits b1 * 4096 + low_bits b2 * 64 + low_bits b3 in
                    if (c <? 65536) || (1114111 <? c) then None
                    else cons_char c (from_utf8 bytes4)
                  else None
              end
          end
      end
  end.

(** ** Decimal numbers *)

(** The value of a string of digits. *)
Definition decimal_value (s : str) : Z := fold_left (λ n c, n * 10 + (c - 48)) s 0.
(** [str::parse::<u64>] on a non-empty string of digits. *)
Definition parse_u64 (s : str) : option Z :=
  if decimal_value s <? u64_modulus then Some (decimal_value s) else None.

(** [Display] of an unsigned integer; twenty digits hold any [u64]. *)
Fixpoint show_digits (fuel : nat) (n : Z) : str :=
  match fuel with
  | O => []
  | S fuel => (if n <? 10 then [] else show_digits fuel (n / 10)) ++ [48 + n mod 10]
  end.
Definition show_u64 (n : Z) : str := show_digits 20 n.

(** ** Lemmas *)

Lemma trim_start_by_head p s c s' : trim_start_by p s = c :: s' → p c = false.
Proof. induction s as [|d s IH]; cbn; [done|]. case_bool; [done|]. by intros [= <- _]. Qed.
Lemma trim_start_by_id p s : match s with c :: _ => p c = false | [] => True end → trim_start_by p s = s.
Proof. destruct s; cbn; [done|]. by intros ->. Qed.
Lemma trim_start_by_suffix p s : ∃ t, s = t ++ trim_start_by p s ∧ Forall (λ c, p c = true) t.
Proof.
  induction s as [|c s (t & Hs & Ht)]; cbn; [by exists []|]. case_bool; [|by exists []].
  exists (c :: t). split; [by cbn; f_equal|by constructor].
Qed.

(** Nothing to trim at either end. *)
Definition tight (p : Z → bool) (s : str) : Prop :=
  match s with c :: _ => p c = false | [] => True end ∧
  match last s with Some c => p c = false | None => True end.

Lemma trim_by_id p s : tight p s → trim_end_by p (trim_start_by p s) = s.
Proof.
  intros [Hh Hl]. rewrite trim_start_by_id by done. unfold trim_end_by.
  rewrite trim_start_by_id; [apply reverse_involutive|].
  destruct (reverse s) as [|c r] eqn:E; [done|].
  assert (Hs : s = reverse r ++ [c]) by (rewrite <- (reverse_involutive s), E; apply reverse_cons).
  rewrite Hs, last_snoc in Hl. done.
Qed.

Lemma trim_tight s : tight is_whitespace (trim s).
Proof.
  unfold trim. set (t := trim_start_by is_whitespace s).
  assert (Ht : match t with c :: _ => is_whitespace c = false | [] => True end).
  { destruct t eqn:E; [done|]. by eapply trim_start_by_head. }
  unfold trim_end_by. destruct (trim_start_by_suffix is_whitespace (reverse t)) as (x & Hx & _).
  set (u := trim_start_by is_whitespace (reverse t)) in *.
  assert (Hu : match u with c :: _ => is_whitespace c = false | [] => True end).
  { destruct u eqn:E; [done|]. by eapply trim_start_by_head. }
  split.
  - assert (Htu : t = reverse u ++ reverse x)
      by by rewrite <- reverse_app, <- Hx, reverse_involutive.
    destruct (reverse u) as [|c r]; [done|]. rewrite Htu in Ht. exact Ht.
  - destruct u as [|c r]; [done|]. by rewrite reverse_cons, last_snoc.
Qed.

Lemma split_once_Some d s a b : split_once d s = Some (a, b) ↔ s = a ++ d :: b ∧ d ∉ a.
Proof.
  revert a b. induction s as [|c s IH]; intros a b; cbn.
  { split; [done|]. intros [H _]. by destruct a. }
  destruct (Z.eqb_spec c d) as [->|Hne].
  - split.
    + intros [= <- <-]. split; [done|]. apply not_elem_of_nil.
    + intros [H Hn]. destruct a as [|x a]; cbn in H; injection H as ->; [by subst|].
      exfalso. apply Hn. by left.
  - split.
    + destruct (split_once d s) as [[a' b']|]; [|done]. intros [= <- <-].
      destruct (proj1 (IH a' b') eq_refl) as [-> Hn]. split; [done|].
      by apply not_elem_of_cons.
    + intros [H Hn]. destruct a as [|x a]; cbn in H; injection H as ->; [done|].
      apply not_elem_of_cons in Hn as [_ Hn]. by rewrite (proj2 (IH a b)).
Qed.

Lemma split_once_app d a b : d ∉ a → split_once d (a ++ d :: b) = Some (a, b).
Proof. intros. by apply split_once_Some. Qed.

Definition digits (s : str) : Prop := s ≠ [] ∧ Forall (λ c, is_ascii_digit c = true) s.

Lemma is_ascii_digit_spec c : is_ascii_digit c = true ↔ 48 ≤ c ≤ 57.
Proof. unfold is_ascii_digit. rewrite andb_true_iff, !Z.leb_le. done. Qed.

Lemma decimal_value_snoc s c : decimal_value (s ++ [c]) = decimal_value s * 10 + (c - 48).
Proof. unfold decimal_value. by rewrite fold_left_app. Qed.

Lemma decimal_value_nonneg s : Forall (λ c, is_ascii_digit c = true) s → 0 ≤ decimal_value s.
Proof.
  induction s as [|c s IH] using rev_ind; [done|]. intros [Hs [Hc _]%Forall_cons]%Forall_app.
  rewrite decimal_value_snoc. apply is_ascii_digit_spec in Hc. specialize (IH Hs). lia.
Qed.

Lemma show_digits_spec fuel n :
  0 ≤ n < 10 ^ Z.of_nat fuel → (0 < fuel)%nat →
  digits (show_digits fuel n) ∧ decimal_value (show_digits fuel n) = n.
Proof.
  revert n. induction fuel as [|fuel IH]; intros n Hn Hf; [lia|]. cbn [show_digits].
  pose proof (Z.mod_pos_bound n 10 ltac:(lia)). pose proof (Z.div_mod n 10 ltac:(lia)).
  assert (Hd : is_ascii_digit (48 + n mod 10) = true) by (apply is_ascii_digit_spec; lia).
  destruct (Z.ltb_spec n 10).
  - split; [split; [done|by repeat constructor]|]. cbn [app].
    change [48 + n mod 10] with ([] ++ [48 + n mod 10]). rewrite decimal_value_snoc.
    change (decimal_value []) with 0. rewrite Z.mod_small by lia. lia.
  - assert (Hr : 0 ≤ n / 10 < 10 ^ Z.of_nat fuel).
    { rewrite Nat2Z.inj_succ, Z.pow_succ_r in Hn by lia.
      split; [apply Z.div_pos; lia|apply Z.div_lt_upper_bound; lia]. }
    assert (Hf2 : (0 < fuel)%nat) by (destruct fuel; [cbn in Hr; lia|lia]).
    destruct (IH _ Hr Hf2) as [[Hne Hall] Hv]. split; [split|].
    + by destruct (show_digits fuel (n / 10)).
    + apply Forall_app_2; [done|by repeat constructor].
    + rewrite decimal_value_snoc, Hv. lia.
Qed.

Lemma show_u64_spec n : u64 n → digits (show_u64 n) ∧ parse_u64 (show_u64 n) = Some n.
Proof.
  intros Hn. assert (Hb : u64_modulus ≤ 10 ^ Z.of_nat 20) by (vm_compute; discriminate).
  destruct (show_digits_spec 20 n) as [Hd Hv]; [destruct Hn; lia|lia|].
  split; [exact Hd|]. unfold parse_u64, show_u64. rewrite Hv.
  rewrite (proj2 (Z.ltb_lt n u64_modulus) (proj2 Hn)). reflexivity.
Qed.

Lemma digits_not_elem s c : digits s → is_ascii_digit c = false → c ∉ s.
Proof. intros [_ Hs] Hc Hin. rewrite Forall_forall in Hs. apply Hs in Hin. congruence. Qed.

Lemma digits_tight_no_ws s c :
  Forall (λ c, is_ascii_digit c = true) s → c ∈ s → is_whitespace c = false ∧ is_ascii_whitespace c = false.
Proof.
  rewrite Forall_forall. intros Hs Hc%Hs. apply is_ascii_digit_spec in Hc.
  unfold is_whitespace, is_ascii_whitespace.
  repeat (rewrite orb_false_iff || rewrite andb_false_iff || rewrite Z.eqb_neq || rewrite Z.leb_gt).
  lia.
Qed.

(** *** Lengths, prefixes and suffixes *)

Lemma len_utf8_pos c : 1 ≤ len_utf8 c ≤ 4.
Proof. unfold len_utf8. repeat case_bool; lia. Qed.
Lemma str_len_cons c s : str_len (c :: s) = len_utf8 c + str_len s.
Proof. done. Qed.
Lemma str_len_app s t : str_len (s ++ t) = str_len s + str_len t.
Proof. induction s as [|c s IH]; [done|]. cbn [app]. rewrite !str_len_cons. lia. Qed.
Lemma str_len_nonneg s : 0 ≤ str_len s.
Proof. induction s as [|c s IH]; [done|]. rewrite str_len_cons. pose proof (len_utf8_pos c). lia. Qed.

Lemma trim_end_by_spec p s :
  ∃ t, s = trim_end_by p s ++ t ∧ Forall (λ c, p c = true) t ∧
    match last (trim_end_by p s) with Some c => p c = false | None => True end.
Proof.
  unfold trim_end_by. destruct (trim_start_by_suffix p (reverse s)) as (t & Ht & Hall).
  exists (reverse t). split_and!.
  - by rewrite <- reverse_app, <- Ht, reverse_involutive.
  - by apply Forall_reverse.
  - destruct (trim_start_by p (reverse s)) as [|c u] eqn:E; [done|].
    rewrite reverse_cons, last_snoc. by eapply trim_start_by_head.
Qed.

Lemma trim_end_by_id p s :
  match last s with Some c => p c = false | None => True end → trim_end_by p s = s.
Proof.
  intros Hl. unfold trim_end_by. rewrite trim_start_by_id; [apply reverse_involutive|].
  destruct (reverse s) as [|c r] eqn:E; [done|].
  assert (Hs : s = reverse r ++ [c]) by (rewrite <- (reverse_involutive s), E; apply reverse_cons).
  by rewrite Hs, last_snoc in Hl.
Qed.

Lemma take_until_none p s : Forall (λ c, p c = false) s → take_until p s = s.
Proof. induction 1 as [|c s Hc _ IH]; cbn; [done|]. by rewrite Hc, IH. Qed.
Lemma take_until_all p s : Forall (λ c, p c = false) (take_until p s).
Proof. induction s as [|c s IH]; cbn; [done|]. destruct (p c) eqn:E; by constructor. Qed.
Lemma rsplit_first_none p s : Forall (λ c, p c = false) s → rsplit_first p s = s.
Proof.
  intros Hs. unfold rsplit_first. rewrite take_until_none; [apply reverse_involutive|].
  by apply Forall_reverse.
Qed.
Lemma rsplit_first_all p s : Forall (λ c, p c = false) (rsplit_first p s).
Proof. apply Forall_reverse, take_until_all. Qed.

Lemma rsplit_once_Some d s a b : rsplit_once d s = Some (a, b) ↔ s = a ++ d :: b ∧ d ∉ b.
Proof.
  unfold rsplit_once. destruct (split_once d (reverse s)) as [[x y]|] eqn:E.
  - apply split_once_Some in E as [E Hx]. split.
    + intros [= <- <-]. split; [|by rewrite elem_of_reverse].
      rewrite <- (reverse_involutive s), E, reverse_app, reverse_cons, <- app_assoc. done.
    + intros [-> Hb]. rewrite reverse_app, reverse_cons, <- app_assoc in E. cbn in E.
      assert (E2 : split_once d (reverse b ++ d :: reverse a) = Some (x, y))
        by (apply split_once_Some; by rewrite E).
      rewrite split_once_app in E2 by by rewrite elem_of_reverse.
      injection E2 as <- <-. by rewrite !reverse_involutive.
  - split; [done|]. intros [-> Hb].
    rewrite reverse_app, reverse_cons, <- app_assoc in E. cbn in E.
    rewrite split_once_app in E; [done|]. by rewrite elem_of_reverse.
Qed.

Lemma take_bytes_spec budget s :
  ∃ t, s = take_bytes budget s ++ t ∧ str_len (take_bytes budget s) ≤ Z.max budget 0.
Proof.
  revert budget. induction s as [|c s IH]; intros budget; cbn; [exists []; split; [done|lia]|].
  case_bool; bool_to_prop; [|exists (c :: s); split; [done|cbn; lia]].
  destruct (IH (budget - len_utf8 c)) as (t & Hs & Hl). exists t. split; [cbn; by f_equal|].
  rewrite str_len_cons. lia.
Qed.

End Str.
