(* ===== verification/Filename.v ===== *)
(** * [downpour-types/src/filename.rs]: filename resolution and sanitisation

    What a server may call a file, and the one path component that is made of it. *)

From S2P Require Import Prelude Str.
From Stdlib Require Import String.
From stdpp Require Import list.
#[local] Open Scope Z_scope.

Module Filename.
Import Str.Str.

Definition DEFAULT_NAME : str := lit "download".
Definition MAX_NAME_BYTES : Z := 255.
Definition PART_SUFFIX_BYTES : Z := str_len (lit ".dppart").
Definition MAX_TRUNCATED_BYTES : Z := MAX_NAME_BYTES - 1 - PART_SUFFIX_BYTES.

Definition RESERVED_STEMS : list str :=
  map lit ["CON"; "PRN"; "AUX"; "NUL"; "COM1"; "COM2"; "COM3"; "COM4"; "COM5"; "COM6"; "COM7";
           "COM8"; "COM9"; "LPT1"; "LPT2"; "LPT3"; "LPT4"; "LPT5"; "LPT6"; "LPT7"; "LPT8";
           "LPT9"]%string.

(** The characters less-than, greater-than, colon, double quote, bar, question mark, star, slash
    and backslash. *)
Definition ILLEGAL : list Z := [60; 62; 58; 34; 124; 63; 42; 47; 92].

(** ** Sanitisation *)

Definition is_reserved_stem (name : str) : bool :=
  let stem := hd [] (split 46 name) in
  existsb (λ reserved, eq_ignore_ascii_case stem reserved) RESERVED_STEMS.

Definition truncate_at_char_boundary (s : str) (max_bytes : Z) : str :=
  if str_len s <=? max_bytes then s else take_bytes max_bytes s.

Definition MAX_GROUP_BYTES : Z := 8.

(** One turn of the loop: the text before the last dot and the suffix from it, when the group is
    an extension. *)
Definition extension_group (head suffix : str) : option (str * str) :=
  match rsplit_once 46 head with
  | None => None
  | Some (before, group) =>
      if bool_decide (before = []) then None
      else if bool_decide (group = []) || (MAX_GROUP_BYTES <? str_len group)
              || existsb (λ c, c =? 32) group
      then None
      else Some (before, 46 :: group ++ suffix)
  end.

Definition extension_to_keep (name : str) : str :=
  match extension_group name [] with
  | None => []
  | Some (head, suffix) =>
      match extension_group head suffix with
      | None => suffix
      | Some (_, suffix) => suffix
      end
  end.

Definition is_dot_or_space (c : Z) : bool := (c =? 46) || (c =? 32).

Definition truncate_keeping_extension (name : str) : str :=
  let extension := extension_to_keep name in
  let head_budget := saturating_sub64 MAX_TRUNCATED_BYTES (str_len extension) in
  let head := take (length name - length extension) name in
  trim_end_by is_dot_or_space (truncate_at_char_boundary head head_budget) ++ extension.

Definition neutralise (c : Z) : Z :=
  if is_control c || existsb (λ i, i =? c) ILLEGAL then 95 else c.

Definition clean (raw : str) : option str :=
  let base := rsplit_first (λ c, (c =? 47) || (c =? 92)) raw in
  let replaced := map neutralise base in
  let trimmed := trim_end_by is_dot_or_space (trim_start_by (λ c, c =? 32) replaced) in
  let sized :=
    if MAX_NAME_BYTES <? str_len trimmed then truncate_keeping_extension trimmed else trimmed in
  if bool_decide (sized = []) then None
  else Some (if is_reserved_stem sized then 95 :: sized else sized).

Definition sanitise (raw : str) : str := default DEFAULT_NAME (clean raw).

(** ** Resolution *)

(** Splitting at the semicolons outside quotes; the first piece grows from the left.  The source
    walks over bytes: a byte of a longer character is none of the three it looks for. *)
Fixpoint split_parameters (in_quotes escaped : bool) (header : str) : list str :=
  match header with
  | [] => [[]]
  | c :: header =>
      let push (parts : list str) :=
        match parts with p :: ps => (c :: p) :: ps | [] => [[c]] end in
      if escaped then push (split_parameters in_quotes false header)
      else if (c =? 92) && in_quotes then push (split_parameters in_quotes true header)
      else if c =? 34 then push (split_parameters (negb in_quotes) false header)
      else if (c =? 59) && negb in_quotes then [] :: split_parameters in_quotes false header
      else push (split_parameters in_quotes false header)
  end.

(** Resolving the [\X] escapes of a quoted string; a final lone backslash is dropped. *)
Fixpoint unescape (s : str) : str :=
  match s with
  | [] => []
  | c :: s =>
      if c =? 92 then match s with e :: s => e :: unescape s | [] => [] end
      else c :: unescape s
  end.

Definition unquote (value : str) : str :=
  match strip_prefix_char 34 value with
  | Some v => match strip_suffix_char 34 v with Some inner => unescape inner | None => value end
  | None => value
  end.

(** [percent_encoding] and [url] are other packages. *)
Class PercentEncoding := percent_decode_str : str → list byte.
Class UrlPath (Url : Type) := path_segments : Url → option (list str).

Section resolve.
Context `{PercentEncoding} {Url : Type} `{UrlPath Url}.

Definition decode_extended_value (value : str) : option str :=
  match split_once 39 value with
  | None => None
  | Some (charset, rest) =>
      match split_once 39 rest with
      | None => None
      | Some (_language, encoded) =>
          let bytes := percent_decode_str encoded in
          if eq_ignore_ascii_case charset (lit "utf-8") then from_utf8 bytes
          else if eq_ignore_ascii_case charset (lit "iso-8859-1") then Some (map byte_val bytes)
          else None
      end
  end.

Definition disposition_step (acc : option str * option str) (parameter : str)
    : option str * option str :=
  let '(plain, extended) := acc in
  match split_once 61 parameter with
  | None => (plain, extended)
  | Some (name, value) =>
      let name := trim name in
      let value := unquote (trim value) in
      if eq_ignore_ascii_case name (lit "filename*") then
        (plain, match extended with None => decode_extended_value value | Some _ => extended end)
      else if eq_ignore_ascii_case name (lit "filename") && bool_decide (plain = None) then
        (Some value, extended)
      else (plain, extended)
  end.

Definition from_content_disposition (header : str) : option str :=
  let '(plain, extended) :=
    fold_left disposition_step (split_parameters false false header) (None, None) in
  match extended with Some e => Some e | None => plain end.

Definition from_url_path (url : Url) : option str :=
  match path_segments url with
  | None => None
  | Some segments =>
      match last segments with
      | Some segment =>
          if bool_decide (segment = []) then None else from_utf8 (percent_decode_str segment)
      | None => None
      end
  end.

Definition resolve (content_disposition : option str) (url : Url) : str :=
  let suggested :=
    match content_disposition with
    | Some header =>
        match from_content_disposition header with Some suggested => clean suggested | None => None end
    | None => None
    end in
  match suggested with
  | Some name => name
  | None =>
      match from_url_path url with
      | Some segment => default DEFAULT_NAME (clean segment)
      | None => DEFAULT_NAME
      end
  end.
End resolve.

(** ** Small cases *)

Example passwd : sanitise (lit "../../../etc/passwd") = lit "passwd".
Proof. reflexivity. Qed.
Example backslashes : sanitise (lit "..\..\x. ") = lit "x".
Proof. reflexivity. Qed.
Example device : sanitise (lit "con.txt") = lit "_con.txt".
Proof. reflexivity. Qed.
Example dots : sanitise (lit "..") = DEFAULT_NAME.
Proof. reflexivity. Qed.
Example tarball :
  str_len (sanitise (replicate 300 97 ++ lit ".tar.gz")) = 247 ∧
  drop 240 (sanitise (replicate 300 97 ++ lit ".tar.gz")) = lit ".tar.gz".
Proof. split; vm_compute; reflexivity. Qed.

(** ** Safe names *)

Definition allowed (c : Z) : Prop := is_control c = false ∧ existsb (λ i, i =? c) ILLEGAL = false.

(** Exactly one ordinary component, on every platform. *)
Record safe_name (n : str) : Prop := {
  sn_some : n ≠ [];
  sn_chars : Forall allowed n;
  sn_start : head n ≠ Some 32;
  sn_end : match last n with Some c => is_dot_or_space c = false | None => True end;
  sn_stem : is_reserved_stem n = false;
}.

Lemma allowed_no_separator c : allowed c → (c =? 47) || (c =? 92) = false.
Proof.
  intros [_ Hc]. cbn in Hc. repeat (apply orb_false_iff in Hc as [? Hc]).
  rewrite !(Z.eqb_sym c). by apply orb_false_iff.
Qed.

Lemma neutralise_allowed c : allowed (neutralise c).
Proof.
  unfold neutralise. destruct (is_control c) eqn:Ec; [by split|].
  destruct (existsb (λ i, i =? c) ILLEGAL) eqn:Ei; by split.
Qed.
Lemma neutralise_id c : allowed c → neutralise c = c.
Proof. unfold neutralise. intros [-> ->]. done. Qed.

(** A name that passes without change, its stem aside. *)
Record plain_name (n : str) : Prop := {
  pn_chars : Forall allowed n;
  pn_start : head n ≠ Some 32;
  pn_end : match last n with Some c => is_dot_or_space c = false | None => True end;
}.

Lemma plain_trimmed s :
  plain_name (trim_end_by is_dot_or_space (trim_start_by (λ c, c =? 32) (map neutralise s))).
Proof.
  set (t := trim_start_by (λ c, c =? 32) (map neutralise s)).
  assert (Hall : Forall allowed t).
  { destruct (trim_start_by_suffix (λ c, c =? 32) (map neutralise s)) as (x & Hx & _).
    assert (Hm : Forall allowed (map neutralise s))
      by (apply Forall_forall; intros c Hc; apply list_elem_of_fmap in Hc as (d & -> & _);
          apply neutralise_allowed).
    rewrite Hx in Hm. by apply Forall_app in Hm as [_ Hm]. }
  destruct (trim_end_by_spec is_dot_or_space t) as (x & Hx & _ & Hlast). split; [| |done].
  - rewrite Hx in Hall. by apply Forall_app in Hall as [Hall _].
  - destruct (trim_end_by is_dot_or_space t) as [|c r]; [done|]. cbn. intros [= ->].
    unfold t in Hx. apply trim_start_by_head in Hx. done.
Qed.

(** *** Truncation *)

Lemma extension_group_spec h suffix h' suffix' :
  extension_group h suffix = Some (h', suffix') →
  ∃ group, h = h' ++ 46 :: group ∧ suffix' = 46 :: group ++ suffix ∧ h' ≠ [] ∧
    group ≠ [] ∧ str_len group ≤ MAX_GROUP_BYTES.
Proof.
  unfold extension_group. destruct (rsplit_once 46 h) as [[b g]|] eqn:E; [|done].
  apply rsplit_once_Some in E as [-> _]. case_bool_decide; [done|].
  destruct (bool_decide (g = []) || _ || _) eqn:Eg; [done|]. bool_to_prop. bool_to_prop.
  intros [= <- <-]. by exists g.
Qed.

(** The extension is a short suffix, starting with a dot, never the whole name. *)
Lemma extension_to_keep_spec name :
  ∃ h, name = h ++ extension_to_keep name ∧ str_len (extension_to_keep name) ≤ 18 ∧
    (extension_to_keep name = [] ∨ h ≠ [] ∧ ∃ e, extension_to_keep name = 46 :: e ∧ e ≠ []).
Proof.
  unfold extension_to_keep. destruct (extension_group name []) as [[h1 s1]|] eqn:E1.
  2: { exists name. rewrite app_nil_r. split; [done|]. cbn. split; [lia|by left]. }
  apply extension_group_spec in E1 as (g1 & -> & -> & Hh1 & Hg1 & Hl1). rewrite app_nil_r in *.
  assert (Hd : len_utf8 46 = 1) by done. unfold MAX_GROUP_BYTES in *.
  destruct (extension_group h1 (46 :: g1)) as [[h2 s2]|] eqn:E2.
  - apply extension_group_spec in E2 as (g2 & -> & -> & Hh2 & Hg2 & Hl2). unfold MAX_GROUP_BYTES in *.
    exists h2. split; [by rewrite <- app_assoc|]. rewrite str_len_cons, str_len_app, str_len_cons, Hd.
    split; [lia|]. right. split; [done|]. exists (g2 ++ 46 :: g1). split; [done|by destruct g2].
  - exists h1. split; [done|]. rewrite str_len_cons, Hd. split; [lia|]. right. eauto.
Qed.

Lemma last_suffix {A} (a b : list A) : b ≠ [] → last (a ++ b) = last b.
Proof. destruct b as [|x b _] using rev_ind; [done|]. by rewrite app_assoc, !last_snoc. Qed.

Lemma truncate_spec name :
  plain_name name →
  plain_name (truncate_keeping_extension name) ∧
  str_len (truncate_keeping_extension name) ≤ MAX_TRUNCATED_BYTES.
Proof.
  intros [Hall Hstart Hend]. unfold truncate_keeping_extension.
  destruct (extension_to_keep_spec name) as (h & Hname & Hlen & Hext).
  set (ext := extension_to_keep name) in *.
  assert (Htake : take (length name - length ext) name = h)
    by (rewrite Hname at 2; rewrite Hname, length_app;
        replace (length h + length ext - length ext)%nat with (length h) by lia;
        by rewrite take_app_length).
  rewrite Htake. clear Htake. set (budget := saturating_sub64 MAX_TRUNCATED_BYTES (str_len ext)).
  assert (Hb : 0 ≤ budget ∧ budget + str_len ext = MAX_TRUNCATED_BYTES).
  { pose proof (str_len_nonneg ext). unfold budget, saturating_sub64, MAX_TRUNCATED_BYTES, MAX_NAME_BYTES.
    change PART_SUFFIX_BYTES with 7. lia. }
  assert (Hcut : ∃ t, h = truncate_at_char_boundary h budget ++ t ∧
    str_len (truncate_at_char_boundary h budget) ≤ budget).
  { unfold truncate_at_char_boundary. case_bool; bool_to_prop.
    - exists []. by rewrite app_nil_r.
    - destruct (take_bytes_spec budget h) as (t & ? & ?). exists t. split; [done|lia]. }
  destruct Hcut as (t1 & Hh & Hl1).
  destruct (trim_end_by_spec is_dot_or_space (truncate_at_char_boundary h budget))
    as (t2 & Hh2 & _ & Hlast).
  set (kept := trim_end_by is_dot_or_space (truncate_at_char_boundary h budget)) in *.
  assert (Hpre : h = kept ++ t2 ++ t1) by by rewrite app_assoc, <- Hh2.
  rewrite Hname in Hall. rewrite Hpre in Hall. apply Forall_app in Hall as [Hall Hallx].
  apply Forall_app in Hall as [Hkept _]. split; [split|].
  - by apply Forall_app.
  - destruct kept as [|c k].
    + destruct Hext as [->|(_ & e & -> & _)]; done.
    + rewrite Hname, Hpre in Hstart. exact Hstart.
  - destruct Hext as [->|(_ & e & He & _)]; [by rewrite app_nil_r|].
    rewrite last_suffix by by rewrite He. rewrite Hname, last_suffix in Hend by by rewrite He. done.
  - assert (str_len kept ≤ str_len (truncate_at_char_boundary h budget)).
    { rewrite Hh2 at 1. rewrite str_len_app. pose proof (str_len_nonneg t2). lia. }
    rewrite str_len_app. lia.
Qed.

(** *** The stem *)

Lemma underscore_not_reserved m : is_reserved_stem (95 :: m) = false.
Proof.
  unfold is_reserved_stem. cbn [split]. change (95 =? 46) with false. cbn match.
  destruct (split 46 m) as [|q qs]; cbn [hd]; reflexivity.
Qed.

Lemma clean_spec raw n :
  clean raw = Some n →
  safe_name n ∧
  (str_len n ≤ MAX_NAME_BYTES ∨
   ∃ m, n = 95 :: m ∧ is_reserved_stem m = true ∧ str_len m = MAX_NAME_BYTES).
Proof.
  unfold clean.
  pose proof (plain_trimmed (rsplit_first (λ c, (c =? 47) || (c =? 92)) raw)) as Hp.
  set (trimmed := trim_end_by is_dot_or_space _) in *.
  set (sized := if MAX_NAME_BYTES <? str_len trimmed then _ else _).
  assert (Hs : plain_name sized ∧ str_len sized ≤ MAX_NAME_BYTES).
  { unfold sized. destruct (Z.ltb_spec MAX_NAME_BYTES (str_len trimmed)); [|done].
    destruct (truncate_spec trimmed Hp) as [? Ht]. split; [done|].
    change MAX_TRUNCATED_BYTES with 247 in Ht. unfold MAX_NAME_BYTES. lia. }
  destruct Hs as [[Hall Hstart Hend] Hlen]. case_bool_decide as Hne; [done|]. intros [= <-].
  destruct (is_reserved_stem sized) eqn:Er; [|split; [by split|by left]].
  split.
  - split; [done|by constructor|done| |apply underscore_not_reserved].
    change (95 :: sized) with ([95] ++ sized). by rewrite last_suffix.
  - rewrite str_len_cons. change (len_utf8 95) with 1.
    destruct (decide (str_len sized = MAX_NAME_BYTES)); [right; by exists sized|left; lia].
Qed.

(** A safe name of admissible length is left alone. *)
Lemma clean_safe n : safe_name n → str_len n ≤ MAX_NAME_BYTES → clean n = Some n.
Proof.
  intros [Hne Hall Hstart Hend Hstem] Hlen. unfold clean.
  rewrite rsplit_first_none
    by (eapply Forall_impl; [exact Hall|]; intros c; apply allowed_no_separator).
  assert (Hmap : map neutralise n = n).
  { clear -Hall. induction Hall as [|c n Hc _ IH]; cbn; [done|]. by rewrite neutralise_id, IH. }
  rewrite Hmap, trim_start_by_id, trim_end_by_id; [|done|].
  2: { destruct n as [|c r]; [done|]. apply Z.eqb_neq. cbn in Hstart. congruence. }
  destruct (Z.ltb_spec MAX_NAME_BYTES (str_len n)); [lia|].
  rewrite bool_decide_eq_false_2 by done. by rewrite Hstem.
Qed.
Lemma default_safe : safe_name DEFAULT_NAME ∧ str_len DEFAULT_NAME ≤ MAX_NAME_BYTES.
Proof. split; [|vm_compute; discriminate]. by split; repeat constructor. Qed.

(** What every name this module returns is. *)
Definition returned_name (n : str) : Prop :=
  safe_name n ∧
  (str_len n ≤ MAX_NAME_BYTES ∨
   ∃ m, n = 95 :: m ∧ is_reserved_stem m = true ∧ str_len m = MAX_NAME_BYTES) ∧
  (str_len n ≤ MAX_NAME_BYTES → sanitise n = n).

Lemma returned_clean raw n : clean raw = Some n → returned_name n.
Proof.
  intros [Hs Hl]%clean_spec. split_and!; [done..|]. intros Hle. unfold sanitise.
  by rewrite clean_safe.
Qed.
Lemma returned_default : returned_name DEFAULT_NAME.
Proof.
  destruct default_safe as [Hs Hl]. split_and!; [done|by left|]. intros _. unfold sanitise.
  by rewrite clean_safe.
Qed.

(** C19: A name is one safe path component (S1-C3).  Whatever a server or a user supplies, a
    sanitised or resolved name is not empty, holds no separator, control character or character
    Windows forbids, does not start with a space or end with a dot or a space (so it is neither
    the current nor the parent directory), and its stem is no device name.  It has at most 255
    bytes and sanitising it again changes nothing, with one exception: a 255-byte name with a
    device stem comes back with a 256th byte, and is then not a fixed point. *)
Theorem names_are_safe `{PercentEncoding} {Url : Type} `{UrlPath Url} raw disposition (url : Url) :
  returned_name (sanitise raw) ∧ returned_name (resolve disposition url).
Proof.
  assert (Hd : ∀ o, returned_name (default DEFAULT_NAME (o ≫= clean))).
  { intros [s|]; cbn; [|apply returned_default]. destruct (clean s) as [n|] eqn:E; cbn;
      [by eapply returned_clean|apply returned_default]. }
  split; [exact (Hd (Some raw))|]. unfold resolve.
  destruct (match disposition with Some _ => _ | None => _ end) as [n|] eqn:E.
  - destruct disposition as [header|]; [|done].
    destruct (from_content_disposition header) as [suggested|]; [|done]. by eapply returned_clean.
  - specialize (Hd (from_url_path url)). by destruct (from_url_path url).
Qed.

(** The exception is real, and a name of 249 to 255 bytes leaves no room for [.dppart]. *)
Example too_long :
  let name := lit "con." ++ replicate 251 97 in
  str_len name = 255 ∧ str_len (sanitise name) = 256 ∧ sanitise (sanitise name) ≠ sanitise name ∧
  str_len (sanitise (replicate 255 97)) + PART_SUFFIX_BYTES = 262.
Proof.
  cbv zeta. split_and!; by vm_compute.
Qed.

(** ** Quoted strings *)

Definition escape (s : str) : str :=
  flat_map (λ c, if (c =? 34) || (c =? 92) then [92; c] else [c]) s.
Definition quote (s : str) : str := 34 :: escape s ++ [34].

Lemma unescape_escape s : unescape (escape s) = s.
Proof.
  induction s as [|c s IH]; [done|]. cbn [escape flat_map].
  destruct ((c =? 34) || (c =? 92)) eqn:E; cbn [app unescape].
  - change (92 =? 92) with true. cbn match. by f_equal.
  - apply orb_false_iff in E as [_ ->]. by f_equal.
Qed.

Lemma unquote_quote s : unquote (quote s) = s.
Proof.
  unfold unquote, quote, strip_prefix_char, strip_suffix_char. change (34 =? 34) with true. cbn match.
  rewrite last_snoc. change (34 =? 34) with true. cbn match.
  by rewrite removelast_last, unescape_escape.
Qed.

Definition pushes (s : str) (parts : list str) : list str :=
  match parts with p :: ps => (s ++ p) :: ps | [] => [s] end.

Lemma pushes_cons c s parts :
  match pushes s parts with p :: ps => (c :: p) :: ps | [] => [[c]] end = pushes (c :: s) parts.
Proof. by destruct parts. Qed.
Lemma split_parameters_some q e s : ∃ p ps, split_parameters q e s = p :: ps.
Proof. destruct s as [|c s]; cbn; [eauto|]. repeat case_bool; repeat case_match; eauto. Qed.

(** Text without quotes and semicolons stays in its part. *)
Lemma split_parameters_plain s rest :
  Forall (λ c, (c =? 34) || (c =? 59) = false) s →
  split_parameters false false (s ++ rest) = pushes s (split_parameters false false rest).
Proof.
  intros Hs. destruct (split_parameters_some false false rest) as (p & ps & Hr). rewrite Hr.
  induction Hs as [|c s [Hq Hc]%orb_false_iff _ IH]; cbn [app split_parameters]; [exact Hr|].
  rewrite andb_false_r, Hq, Hc. cbn match. by rewrite IH.
Qed.

Lemma split_parameters_escaped s rest :
  split_parameters true false (escape s ++ rest) = pushes (escape s) (split_parameters true false rest).
Proof.
  destruct (split_parameters_some true false rest) as (p & ps & Hr). rewrite Hr.
  induction s as [|c s IH]; [exact Hr|]. cbn [escape flat_map].
  destruct ((c =? 34) || (c =? 92)) eqn:E; cbn [app split_parameters].
  - change (92 =? 92) with true. cbn [andb]. cbn match.
    change (flat_map _ s) with (escape s). by rewrite IH.
  - apply orb_false_iff in E as [-> ->]. cbn [andb]. cbn match. rewrite andb_false_r. cbn match.
    change (flat_map _ s) with (escape s). by rewrite IH.
Qed.

Lemma split_parameters_quote s rest :
  split_parameters false false (quote s ++ rest) = pushes (quote s) (split_parameters false false rest).
Proof.
  unfold quote. cbn [app split_parameters]. change (34 =? 92) with false. change (34 =? 34) with true.
  cbn match. cbn [negb].
  rewrite <- app_assoc, split_parameters_escaped. cbn [app split_parameters].
  change (34 =? 92) with false. change (34 =? 34) with true. cbn match. cbn [andb negb].
  destruct (split_parameters_some false false rest) as (p & ps & ->). cbn.
  by rewrite <- app_assoc.
Qed.

Lemma trim_quote s : trim (quote s) = quote s.
Proof. apply trim_by_id. split; [done|]. unfold quote. by rewrite app_comm_cons, last_snoc. Qed.

Section disposition.
Context `{PercentEncoding}.

Lemma step_filename name plain extended :
  plain = None →
  disposition_step (plain, extended) (lit " filename=" ++ quote name) = (Some name, extended).
Proof.
  intros ->. unfold disposition_step.
  change (lit " filename=" ++ quote name) with (lit " filename" ++ 61 :: quote name).
  rewrite split_once_app
    by (cbn; rewrite !not_elem_of_cons; split_and!; (lia || apply not_elem_of_nil)).
  change (trim (lit " filename")) with (lit "filename").
  change (eq_ignore_ascii_case (lit "filename") (lit "filename*")) with false.
  change (eq_ignore_ascii_case (lit "filename") (lit "filename")) with true.
  cbn match. by rewrite trim_quote, unquote_quote.
Qed.

(** An [ext-value] as it appears in a header: not quoted, nothing to trim. *)
Definition bare_value (v : str) : Prop :=
  Forall (λ c, (c =? 34) || (c =? 59) = false) v ∧ trim v = v.

Lemma step_extended v plain :
  bare_value v →
  disposition_step (plain, None) (lit " filename*=" ++ v) = (plain, decode_extended_value v).
Proof.
  intros [Hv Ht]. unfold disposition_step.
  change (lit " filename*=" ++ v) with (lit " filename*" ++ 61 :: v).
  rewrite split_once_app
    by (cbn; rewrite !not_elem_of_cons; split_and!; (lia || apply not_elem_of_nil)).
  change (trim (lit " filename*")) with (lit "filename*").
  change (eq_ignore_ascii_case (lit "filename*") (lit "filename*")) with true. cbn match.
  rewrite Ht. unfold unquote, strip_prefix_char. destruct v as [|c v]; [done|].
  apply Forall_cons in Hv as [[-> _]%orb_false_iff _]. done.
Qed.
End disposition.

Lemma split_parameters_semicolon s rest :
  Forall (λ c, (c =? 34) || (c =? 59) = false) s →
  split_parameters false false (s ++ 59 :: rest) = s :: split_parameters false false rest.
Proof.
  intros Hs. rewrite split_parameters_plain by done. cbn [split_parameters].
  change (59 =? 92) with false. change (59 =? 34) with false. change (59 =? 59) with true.
  cbn [andb negb pushes]. cbn match. cbn [pushes]. by rewrite app_nil_r.
Qed.

Lemma attachment_first rest :
  split_parameters false false (lit "attachment; filename=" ++ rest) =
  lit "attachment" :: split_parameters false false (lit " filename=" ++ rest).
Proof.
  apply (split_parameters_semicolon (lit "attachment") (lit " filename=" ++ rest)).
  by repeat constructor.
Qed.

Lemma split_quoted name rest :
  split_parameters false false ((lit " filename=" ++ quote name) ++ rest) =
  pushes (lit " filename=" ++ quote name) (split_parameters false false rest).
Proof.
  rewrite <- app_assoc, split_parameters_plain, split_parameters_quote by by repeat constructor.
  destruct (split_parameters_some false false rest) as (p & ps & ->). unfold pushes.
  by rewrite app_assoc.
Qed.

Lemma step_attachment `{PercentEncoding} :
  disposition_step (None, None) (lit "attachment") = (None, None).
Proof. reflexivity. Qed.

(** The file name parameter of [Content-Disposition] is read exactly.  A quoted name — any
    text, with quotes and backslashes escaped, semicolons and equal signs included — comes out as
    it went in; and when an extended parameter follows it, that wins if it decodes, and the
    quoted name stands if it does not. *)
Theorem disposition_roundtrip `{PercentEncoding} name v :
  bare_value v →
  from_content_disposition (lit "attachment; filename=" ++ quote name) = Some name ∧
  from_content_disposition (lit "attachment; filename=" ++ quote name ++ lit "; filename*=" ++ v) =
    match decode_extended_value v with Some decoded => Some decoded | None => Some name end.
Proof.
  intros Hv. pose proof Hv as [Hplain _]. unfold from_content_disposition.
  rewrite !attachment_first.
  split.
  - rewrite <- (app_nil_r (lit " filename=" ++ quote name)), split_quoted. cbn [split_parameters pushes].
    rewrite !app_nil_r. cbn [fold_left]. rewrite step_attachment. by rewrite step_filename.
  - change (lit "; filename*=" ++ v) with (59 :: lit " filename*=" ++ v).
    rewrite (app_assoc (lit " filename=")), split_quoted. cbn [split_parameters]. change (59 =? 92) with false. cbn match.
    change (59 =? 34) with false. change (59 =? 59) with true. cbn [andb negb]. cbn match.
    rewrite <- (app_nil_r (lit " filename*=" ++ v)), split_parameters_plain by (by apply Forall_app; split; [repeat constructor|]).
    cbn [split_parameters pushes]. rewrite !app_nil_r. cbn [fold_left].
    rewrite step_attachment, step_filename, step_extended by done.
    by destruct (decode_extended_value v).
Qed.

(** Percent-decoding of ASCII text. *)
Module Example_percent.
Definition hex (c : Z) : option Z :=
  if (48 <=? c) && (c <=? 57) then Some (c - 48)
  else if (65 <=? c) && (c <=? 70) then Some (c - 55)
  else if (97 <=? c) && (c <=? 102) then Some (c - 87) else None.
Fixpoint decode (s : str) : list byte :=
  match s with
  | c :: ((h :: l :: s) as rest) =>
      match (if c =? 37 then (hex h, hex l) else (None, None)) with
      | (Some h, Some l) => byte_of (16 * h + l) :: decode s
      | _ => byte_of c :: decode rest
      end
  | c :: s => byte_of c :: decode s
  | [] => []
  end.
#[local] Instance percent : PercentEncoding := decode.

Definition value : str := lit "UTF-8'en'na%C3%AFve.txt".

Example disposition_roundtrip_witness :
  bare_value value ∧ decode_extended_value value = Some (lit "na" ++ [239] ++ lit "ve.txt") ∧
  from_content_disposition
    (lit "attachment; filename=" ++ quote (lit "a;b.txt") ++ lit "; filename*=" ++ value) =
    Some (lit "na" ++ [239] ++ lit "ve.txt").
Proof.
  assert (Hv : bare_value value) by (split; [repeat constructor|vm_compute; reflexivity]).
  split; [exact Hv|]. split; [vm_compute; reflexivity|].
  exact (proj2 (disposition_roundtrip (lit "a;b.txt") value Hv)).
Defined.
End Example_percent.
End Filename.
