(* ===== verification/ContentRange.v ===== *)
(** * [downpour-types/src/content_range.rs]: [Range] and [Content-Range] (invariant I-5) *)

From S2P Require Import Prelude Str.
From Stdlib Require Import String.
From stdpp Require Import list.
#[local] Open Scope Z_scope.

Module ContentRange.
Import Str.Str.

Inductive ByteRangeSpec :=
| FromTo (first last : Z)
| From (first : Z)
| Suffix (len : Z).
#[export] Instance ByteRangeSpec_eq_dec : EqDecision ByteRangeSpec.
Proof. solve_decision. Defined.

Inductive ContentRange :=
| Bytes (first last : Z) (complete_length : option Z)
| Unsatisfied (complete_length : Z).
#[export] Instance ContentRange_eq_dec : EqDecision ContentRange.
Proof. solve_decision. Defined.

Inductive ContentRangeError :=
| Empty
| UnsupportedUnit (unit : str)
| Malformed (reason : string)
| Reversed (first last : Z)
| LastByteBeyondComplete (last complete_length : Z)
| NumericOverflow.

Inductive RangeMismatch :=
| MismatchUnsatisfied
| WrongStart (requested returned : Z)
| EndBeyondRequest (requested_last returned_last : Z)
| UnverifiableSuffix.
#[export] Instance RangeMismatch_eq_dec : EqDecision RangeMismatch.
Proof. solve_decision. Defined.

Definition header_value (r : ByteRangeSpec) : str :=
  match r with
  | FromTo first last => lit "bytes=" ++ show_u64 first ++ lit "-" ++ show_u64 last
  | From first => lit "bytes=" ++ show_u64 first ++ lit "-"
  | Suffix len => lit "bytes=-" ++ show_u64 len
  end.

Definition requested_len (r : ByteRangeSpec) : option Z :=
  match r with
  | FromTo first last =>
      match checked_sub64 last first with Some n => checked_add64 n 1 | None => None end
  | From _ => None
  | Suffix len => Some len
  end.

(** [last - first + 1] on [u64]. *)
Definition len (c : ContentRange) : option Z :=
  match c with
  | Bytes first last _ => Some (wadd64 (wsub64 last first) 1)
  | Unsatisfied _ => None
  end.
Definition is_empty (c : ContentRange) : bool :=
  match len c with None => true | Some _ => false end.

Definition complete_length (c : ContentRange) : option Z :=
  match c with
  | Bytes _ _ complete_length => complete_length
  | Unsatisfied complete_length => Some complete_length
  end.

Definition is_consistent_with (c : ContentRange) (requested : ByteRangeSpec)
    : result unit RangeMismatch :=
  match c with
  | Unsatisfied _ => Err MismatchUnsatisfied
  | Bytes first last complete_length =>
      match requested with
      | FromTo want_first want_last =>
          if negb (first =? want_first) then Err (WrongStart want_first first)
          else if want_last <? last then Err (EndBeyondRequest want_last last)
          else Ok tt
      | From want_first =>
          if negb (first =? want_first) then Err (WrongStart want_first first) else Ok tt
      | Suffix len =>
          match complete_length with
          | None => Err UnverifiableSuffix
          | Some complete_length =>
              let want_first := saturating_sub64 complete_length len in
              let want_last := wsub64 complete_length 1 in
              if negb (first =? want_first) then Err (WrongStart want_first first)
              else if negb (last =? want_last) then Err (EndBeyondRequest want_last last)
              else Ok tt
          end
      end
  end.

(** The length field: a number or a star. *)
Definition length_part (cl : option Z) : str :=
  match cl with Some total => show_u64 total | None => lit "*" end.

(** [Display]. *)
Definition display (c : ContentRange) : str :=
  match c with
  | Bytes first last complete_length =>
      lit "bytes " ++ show_u64 first ++ lit "-" ++ show_u64 last ++ lit "/" ++
      length_part complete_length
  | Unsatisfied complete_length => lit "bytes */" ++ show_u64 complete_length
  end.

Definition parse_decimal (s : str) : result Z ContentRangeError :=
  if bool_decide (s = []) || negb (forallb is_ascii_digit s)
  then Err (Malformed "expected a decimal digit sequence")
  else ok_or (parse_u64 s) NumericOverflow.

(** [FromStr]. *)
Definition from_str (raw : str) : result ContentRange ContentRangeError :=
  let s := trim raw in
  if bool_decide (s = []) then Err Empty else
  let? unit_rest := ok_or (split_once 32 s) (Malformed "no space after the range unit") in
  let '(unit, rest) := unit_rest in
  if negb (eq_ignore_ascii_case unit (lit "bytes")) then Err (UnsupportedUnit unit) else
  let rest := trim_start_by (λ c, c =? 32) rest in
  let? parts :=
    ok_or (split_once 47 rest) (Malformed "no '/' before the complete-length") in
  let '(range_part, length_part) := parts in
  if bool_decide (range_part = []) || bool_decide (length_part = [])
  then Err (Malformed "empty range or complete-length") else
  if existsb is_ascii_whitespace range_part || existsb is_ascii_whitespace length_part
  then Err (Malformed "internal whitespace") else
  let? complete_length :=
    (if bool_decide (length_part = lit "*") then Ok None
     else let? n := parse_decimal length_part in Ok (Some n)) in
  if bool_decide (range_part = lit "*") then
    match complete_length with
    | Some complete_length => Ok (Unsatisfied complete_length)
    | None => Err (Malformed "both the range and the complete-length are unknown")
    end
  else
    let? positions :=
      ok_or (split_once 45 range_part) (Malformed "no '-' between the byte positions") in
    let '(first_raw, last_raw) := positions in
    let? first := parse_decimal first_raw in
    let? last := parse_decimal last_raw in
    if last <? first then Err (Reversed first last) else
    if last =? u64_max then Err NumericOverflow else
    match complete_length with
    | Some complete_length =>
        if complete_length <=? last then Err (LastByteBeyondComplete last complete_length)
        else Ok (Bytes first last (Some complete_length))
    | None => Ok (Bytes first last None)
    end.

(** ** What a parsed value satisfies *)

Definition wf_range (c : ContentRange) : Prop :=
  match c with
  | Bytes first last complete_length =>
      0 ≤ first ≤ last ∧ last < u64_max ∧
      match complete_length with Some n => u64 n ∧ last < n | None => True end
  | Unsatisfied n => u64 n
  end.

Lemma parse_u64_Some s n : parse_u64 s = Some n → n < u64_modulus.
Proof. unfold parse_u64. case_bool; [|done]. bool_to_prop. by intros [= <-]. Qed.

Lemma parse_decimal_Ok s n : parse_decimal s = Ok n → u64 n ∧ digits s ∧ n = decimal_value s.
Proof.
  unfold parse_decimal. destruct (bool_decide (s = []) || _) eqn:E; [done|].
  apply orb_false_iff in E as [E1%bool_decide_eq_false E2%negb_false_iff].
  assert (Hall : Forall (λ c, is_ascii_digit c = true) s).
  { apply Forall_forall. intros c Hc%list_elem_of_In. by eapply forallb_forall in E2. }
  destruct (parse_u64 s) as [m|] eqn:Ep; [|done]. intros [= <-].
  pose proof (parse_u64_Some _ _ Ep). unfold parse_u64 in Ep. case_bool; [|done]. injection Ep as <-.
  split_and!; [split; [by apply decimal_value_nonneg|done]|done|done].
Qed.

Lemma parse_decimal_digits s : digits s → parse_decimal s = ok_or (parse_u64 s) NumericOverflow.
Proof.
  intros [Hne Hall]. unfold parse_decimal. rewrite bool_decide_eq_false_2 by done.
  replace (forallb is_ascii_digit s) with true; [done|]. symmetry.
  apply forallb_forall. intros c Hc. rewrite Forall_forall in Hall. apply Hall. by apply list_elem_of_In.
Qed.

Lemma parse_show n : u64 n → parse_decimal (show_u64 n) = Ok n.
Proof.
  intros Hn. destruct (show_u64_spec n Hn) as [Hd Hp]. by rewrite parse_decimal_digits, Hp.
Qed.

Lemma from_str_wf raw c : from_str raw = Ok c → wf_range c.
Proof.
  unfold from_str. intros H.
  destruct (bool_decide (trim raw = [])); [done|].
  destruct (split_once 32 (trim raw)) as [[unit rest]|]; [|done]. cbn [ok_or] in H.
  destruct (eq_ignore_ascii_case unit (lit "bytes")); [|done]. cbn [negb] in H.
  destruct (split_once 47 _) as [[rp lp]|]; [|done]. cbn [ok_or] in H.
  destruct (bool_decide (rp = []) || bool_decide (lp = [])); [done|].
  destruct (existsb _ rp || existsb _ lp); [done|].
  assert (Hcl : ∀ cl, (if bool_decide (lp = lit "*") then Ok None
     else let? n := parse_decimal lp in Ok (E := ContentRangeError) (Some n)) = Ok cl →
     match cl with Some n => u64 n | None => True end).
  { intros cl. case_bool_decide; [by intros [= <-]|].
    destruct (parse_decimal lp) eqn:E; [|done]. intros [= <-]. by apply parse_decimal_Ok in E as [? _]. }
  destruct (if bool_decide (lp = lit "*") then _ else _) as [cl|]; [|done].
  specialize (Hcl cl eq_refl). destruct (bool_decide (rp = lit "*")).
  { destruct cl; [|done]. by injection H as <-. }
  destruct (split_once 45 rp) as [[fr lr]|]; [|done]. cbn [ok_or] in H.
  destruct (parse_decimal fr) as [first|] eqn:Ef; [|done]. apply parse_decimal_Ok in Ef as [? _].
  destruct (parse_decimal lr) as [last|] eqn:El; [|done]. apply parse_decimal_Ok in El as [? _].
  destruct (Z.ltb_spec last first); [done|]. destruct (Z.eqb_spec last u64_max); [done|].
  destruct cl as [total|].
  - destruct (Z.leb_spec total last); [done|]. injection H as <-. cbn. ulia.
  - injection H as <-. cbn. ulia.
Qed.

Lemma wf_len c : wf_range c → match c with
  | Bytes first last _ => len c = Some (last - first + 1) ∧ u64 (last - first + 1)
  | Unsatisfied _ => len c = None end.
Proof.
  destruct c as [f l cl|n]; [|done]. intros (? & ? & _). cbn.
  rewrite wsub64_small, wadd64_small by ulia. split; [done|ulia].
Qed.

(** ** Round trip *)

Lemma show_digits_u64 n : u64 n → digits (show_u64 n).
Proof. intros. by apply show_u64_spec. Qed.

Lemma existsb_none (p : Z → bool) s : Forall (λ c, p c = false) s → existsb p s = false.
Proof. induction 1 as [|c s Hc _ IH]; cbn; [done|]. by rewrite Hc, IH. Qed.

Lemma digits_no_ascii_ws s : digits s → existsb is_ascii_whitespace s = false.
Proof.
  intros [_ Hs]. apply existsb_none, Forall_forall. intros c Hc.
  by apply (digits_tight_no_ws s).
Qed.

Lemma last_app_ne {A} (l l' : list A) : l' ≠ [] → last (l ++ l') = last l'.
Proof.
  intros Hne. destruct l' as [|x l' _] using rev_ind; [done|]. by rewrite app_assoc, !last_snoc.
Qed.

Lemma digits_last s : digits s → match last s with Some c => is_whitespace c = false | None => True end.
Proof.
  intros [_ Hs]. destruct (last s) as [c|] eqn:E; [|done]. apply last_Some in E as [l ->].
  eapply (digits_tight_no_ws (l ++ [c])); [done|]. apply elem_of_app. right. by left.
Qed.

(** What [from_str] does once the unit is split off a tight string. *)
Lemma from_str_bytes rest :
  trim (lit "bytes " ++ rest) = lit "bytes " ++ rest →
  match rest with c :: _ => c ≠ 32 | [] => True end →
  from_str (lit "bytes " ++ rest) =
    (let? parts := ok_or (split_once 47 rest) (Malformed "no '/' before the complete-length") in
     let '(range_part, length_part) := parts in
     if bool_decide (range_part = []) || bool_decide (length_part = [])
     then Err (Malformed "empty range or complete-length") else
     if existsb is_ascii_whitespace range_part || existsb is_ascii_whitespace length_part
     then Err (Malformed "internal whitespace") else
     let? complete_length :=
       (if bool_decide (length_part = lit "*") then Ok None
        else let? n := parse_decimal length_part in Ok (Some n)) in
     if bool_decide (range_part = lit "*") then
       match complete_length with
       | Some complete_length => Ok (Unsatisfied complete_length)
       | None => Err (Malformed "both the range and the complete-length are unknown")
       end
     else
       let? positions :=
         ok_or (split_once 45 range_part) (Malformed "no '-' between the byte positions") in
       let '(first_raw, last_raw) := positions in
       let? first := parse_decimal first_raw in
       let? last := parse_decimal last_raw in
       if last <? first then Err (Reversed first last) else
       if last =? u64_max then Err NumericOverflow else
       match complete_length with
       | Some complete_length =>
           if complete_length <=? last then Err (LastByteBeyondComplete last complete_length)
           else Ok (Bytes first last (Some complete_length))
       | None => Ok (Bytes first last None)
       end).
Proof.
  intros Ht Hr. unfold from_str. rewrite Ht.
  rewrite bool_decide_eq_false_2 by done.
  change (lit "bytes " ++ rest) with (lit "bytes" ++ 32 :: rest).
  rewrite split_once_app by (cbn; rewrite !not_elem_of_cons; split_and!; (lia || apply not_elem_of_nil)).
  cbn [ok_or]. change (eq_ignore_ascii_case (lit "bytes") (lit "bytes")) with true. cbn [negb].
  rewrite trim_start_by_id; [done|]. destruct rest; [done|]. by apply Z.eqb_neq.
Qed.

Lemma digits_head s : digits s → ∃ c r, s = c :: r ∧ is_ascii_digit c = true.
Proof. intros [Hne Hs]. destruct s as [|c r]; [done|]. exists c, r. by apply Forall_cons in Hs as [? _]. Qed.

Lemma length_part_facts cl :
  match cl with Some n => u64 n | None => True end →
  length_part cl ≠ [] ∧ existsb is_ascii_whitespace (length_part cl) = false ∧
  match last (length_part cl) with Some c => is_whitespace c = false | None => True end ∧
  (if bool_decide (length_part cl = lit "*") then Ok None
   else let? n := parse_decimal (length_part cl) in Ok (E := ContentRangeError) (Some n)) = Ok cl.
Proof.
  destruct cl as [n|]; [|done]. intros Hn. cbn [length_part].
  pose proof (show_digits_u64 n Hn) as Hd. split_and!.
  - by destruct Hd.
  - by apply digits_no_ascii_ws.
  - by apply digits_last.
  - rewrite bool_decide_eq_false_2; [by rewrite parse_show|]. intros E.
    destruct (digits_head _ Hd) as (c & r & Hs & Hc). rewrite Hs in E. injection E as -> ->. done.
Qed.

Lemma from_str_display c : wf_range c → from_str (display c) = Ok c.
Proof.
  assert (Htrim : ∀ x y, y ≠ [] → match last y with Some c => is_whitespace c = false | None => True end →
    trim (lit "bytes " ++ x ++ y) = lit "bytes " ++ x ++ y).
  { intros x y Hne Hy. apply trim_by_id. split; [done|]. by rewrite app_assoc, last_app_ne. }
  destruct c as [f l cl|n]; cbn [wf_range display].
  - intros ((Hf & Hfl) & Hl & Hcl).
    assert (Uf : u64 f) by ulia. assert (Ul : u64 l) by ulia.
    assert (Hcl' : match cl with Some n => u64 n | None => True end) by (destruct cl; [by destruct Hcl|done]).
    pose proof (show_digits_u64 f Uf) as Df. pose proof (show_digits_u64 l Ul) as Dl.
    destruct (length_part_facts cl Hcl') as (Hlne & Hlws & Hll & Hlp).
    set (rp := show_u64 f ++ 45 :: show_u64 l).
    replace (show_u64 f ++ lit "-" ++ show_u64 l ++ lit "/" ++ length_part cl)
      with (rp ++ 47 :: length_part cl)
      by (unfold rp; cbn; by rewrite <- app_assoc).
    destruct (digits_head _ Df) as (c & r & Hc & Hcd). apply is_ascii_digit_spec in Hcd.
    assert (H47 : 47 ∉ rp).
    { unfold rp. rewrite elem_of_app, elem_of_cons.
      intros [Hx|[?|Hx]]; [by apply (digits_not_elem _ 47 Df eq_refl)|done
      |by apply (digits_not_elem _ 47 Dl eq_refl)]. }
    rewrite from_str_bytes.
    2: { replace (rp ++ 47 :: length_part cl) with ((rp ++ [47]) ++ length_part cl)
         by by rewrite <- app_assoc.
       by apply Htrim. }
    2: { unfold rp. rewrite Hc. cbn. lia. }
    rewrite split_once_app by done. cbn [ok_or].
    rewrite (bool_decide_eq_false_2 (rp = [])) by (unfold rp; by rewrite Hc).
    rewrite bool_decide_eq_false_2 by done. cbn [orb]. rewrite Hlws.
    replace (existsb is_ascii_whitespace rp) with false.
    2: { unfold rp. rewrite existsb_app. cbn [existsb].
         rewrite !digits_no_ascii_ws by done. done. }
    cbn [orb]. rewrite Hlp. rewrite bool_decide_eq_false_2.
    2: { intros E. unfold rp in E. rewrite Hc in E. apply (f_equal (λ s, hd 0 s)) in E.
         change (c = 42) in E. lia. }
    unfold rp. rewrite split_once_app by (by apply (digits_not_elem _ 45 Df eq_refl)). cbn [ok_or].
    rewrite !parse_show by done.
    destruct (Z.ltb_spec l f); [lia|]. destruct (Z.eqb_spec l u64_max); [lia|].
    destruct cl as [total|]; [|done]. destruct (Z.leb_spec total l); [lia|done].
  - intros Hn. pose proof (show_digits_u64 n Hn) as Dn.
    destruct (length_part_facts (Some n) Hn) as (Hlne & Hlws & Hll & Hlp). cbn [length_part] in *.
    change (lit "bytes */" ++ show_u64 n) with (lit "bytes " ++ lit "*/" ++ show_u64 n).
    rewrite from_str_bytes; [|by apply Htrim|done].
    change (lit "*/" ++ show_u64 n) with (lit "*" ++ 47 :: show_u64 n).
    rewrite split_once_app by (cbn; rewrite not_elem_of_cons; split; [done|apply not_elem_of_nil]).
    cbn [ok_or]. rewrite (bool_decide_eq_false_2 (show_u64 n = [])) by done.
    change (bool_decide (lit "*" = [])) with false. cbn [orb].
    rewrite Hlws. change (existsb is_ascii_whitespace (lit "*")) with false. cbn [orb].
    rewrite Hlp. done.
Qed.

(** ** Which bytes a response may carry *)

(** The bytes a request asks for, of a representation of [total] bytes. *)
Definition asked (r : ByteRangeSpec) (total : Z) (b : Z) : Prop :=
  match r with
  | FromTo first last => first ≤ b ≤ last
  | From first => first ≤ b
  | Suffix len => total - len ≤ b < total
  end.
(** The first of them. *)
Definition asked_first (r : ByteRangeSpec) (total : Z) : Z :=
  match r with
  | FromTo first _ | From first => first
  | Suffix len => Z.max (total - len) 0
  end.
Definition wf_request (r : ByteRangeSpec) : Prop :=
  match r with
  | FromTo first last => u64 first ∧ u64 last
  | From first => u64 first
  | Suffix len => u64 len
  end.

Lemma consistent_spec c r :
  wf_range c → wf_request r →
  is_consistent_with c r = Ok tt ↔
  match c with
  | Unsatisfied _ => False
  | Bytes first last cl =>
      match r, cl with
      | Suffix len, None => False
      | Suffix len, Some total => first = asked_first r total ∧ last = total - 1
      | FromTo _ want_last, _ => first = asked_first r 0 ∧ last ≤ want_last
      | From _, _ => first = asked_first r 0
      end
  end.
Proof.
  destruct c as [f l cl|n]; [|by split]. intros (? & ? & Hcl) Hr.
  destruct r as [rf rl|rf|sl]; cbn [is_consistent_with asked_first].
  - destruct (Z.eqb_spec f rf); cbn [negb]; [|split; [done|intros [? _]; done]].
    destruct (Z.ltb_spec rl l); split; try done; intros; lia.
  - destruct (Z.eqb_spec f rf); cbn [negb]; by split.
  - destruct cl as [t|]; [|by split]. destruct Hcl as [? ?]. cbn in Hr.
    rewrite wsub64_small by ulia. unfold saturating_sub64.
    destruct (Z.eqb_spec f (Z.max (t - sl) 0)); cbn [negb]; [|split; [done|intros [? _]; done]].
    destruct (Z.eqb_spec l (t - 1)); cbn [negb]; split; try done. intros [_ ?]. done.
Qed.

(** ** Properties *)

(** The wire form is exact.  Every well-formed value prints to a header that parses back to
    it; and whatever header parses, the value's positions are ordered, inside the stated length,
    and its [len] is the number of enclosed bytes, computed without overflow. *)
Theorem content_range_roundtrip c raw c' :
  wf_range c →
  from_str (display c) = Ok c ∧
  (from_str raw = Ok c' →
   wf_range c' ∧
   match c' with
   | Bytes first last _ => len c' = Some (last - first + 1) ∧ u64 (last - first + 1)
   | Unsatisfied _ => len c' = None
   end).
Proof.
  intros Hwf. split; [by apply from_str_display|]. intros H%from_str_wf.
  split; [done|by apply wf_len].
Qed.

Example content_range_roundtrip_witness :
  from_str (lit "bytes 0-0/1048576") = Ok (Bytes 0 0 (Some 1048576)) ∧
  from_str (display (Bytes 0 0 (Some 1048576))) = Ok (Bytes 0 0 (Some 1048576)).
Proof.
  split; [vm_compute; reflexivity|].
  exact (proj1 (content_range_roundtrip (Bytes 0 0 (Some 1048576)) [] (Unsatisfied 0)
    ltac:(cbn; ulia))).
Defined.

(** The range check of I-5.  A header that parses and is accepted against the request starts
    exactly at the first byte asked for and encloses only bytes asked for — for a suffix, exactly
    the last [len] bytes (or the whole, if shorter) of the stated length. *)
Theorem accepted_range_is_requested raw c r :
  wf_request r → from_str raw = Ok c → is_consistent_with c r = Ok tt →
  ∃ first last cl, c = Bytes first last cl ∧
    first = asked_first r (default 0 cl) ∧
    (∀ b, first ≤ b ≤ last → asked r (default 0 cl) b) ∧
    match r with
    | Suffix len => cl = Some (last + 1) ∧ last - first + 1 = Z.min len (last + 1)
    | FromTo want_first want_last => last - first + 1 ≤ want_last - want_first + 1
    | From _ => True
    end.
Proof.
  intros Hr Hp%from_str_wf Hc. apply consistent_spec in Hc; [|done..].
  destruct c as [f l cl|n]; [|done]. exists f, l, cl. destruct Hp as (? & ? & Hcl).
  destruct r as [rf rl|rf|sl]; cbn [asked asked_first] in *.
  - destruct Hc as [-> ?]. split_and!; try done; intros; lia.
  - subst f. split_and!; try done. intros; lia.
  - destruct cl as [t|]; [|done]. destruct Hc as [-> ->], Hcl as [? ?]. cbn in *.
    split_and!; try done; [intros; lia|f_equal; lia|lia].
Qed.

Example accepted_range_is_requested_witness :
  ∃ first last cl, Bytes 6 7 (Some 8) = Bytes first last cl ∧ cl = Some (last + 1).
Proof.
  destruct (accepted_range_is_requested (lit "bytes 6-7/8") (Bytes 6 7 (Some 8)) (Suffix 2)
    ltac:(cbn; ulia) eq_refl eq_refl) as (f & l & cl & ? & _ & _ & ? & _).
  by exists f, l, cl.
Defined.

End ContentRange.
