(* ===== verification/Remote.v ===== *)
(** * [downpour-types/src/remote.rs]: what a probe proves (invariants I-3, I-5, I-6) *)

From S2P Require Import Prelude Str ContentRange.
From Stdlib Require Import String.
From stdpp Require Import list.
#[local] Open Scope Z_scope.

Module Remote.
Import Str.Str ContentRange.ContentRange.

Record RangeObservation := RangeObservation_new {
  o_requested : ByteRangeSpec;
  o_status : Z;
  o_content_range : option str;
  o_content_encoding : option str;
  o_body_len : Z;
}.

(** The fields are private in the source; the one constructor is [from_observed_response]. *)
Record RangeProof := MkProof {
  total_length : Z;
  observed_range : ContentRange;
  requested_range : ByteRangeSpec;
  observation : RangeObservation;
}.

Inductive RangeProofError :=
| StatusNot206 (status : Z)
| UnexpectedContentEncoding (encoding : str)
| ContentRangeAbsent
| ContentRangeMalformed (e : ContentRangeError)
| ContentRangeMismatch (e : RangeMismatch)
| TotalLengthUnknown
| BodyLengthMismatch (expected actual : Z).

(** The encoding that is refused, if it is. *)
Definition refused_encoding (content_encoding : option str) : option str :=
  match content_encoding with
  | Some encoding =>
      let encoding := trim encoding in
      if negb (bool_decide (encoding = [])) && negb (eq_ignore_ascii_case encoding (lit "identity"))
      then Some encoding else None
  | None => None
  end.

Definition from_observed_response (requested : ByteRangeSpec) (status : Z)
    (content_range content_encoding : option str) (body_len : Z)
    : result RangeProof RangeProofError :=
  let observation :=
    RangeObservation_new requested status content_range content_encoding body_len in
  if negb (status =? 206) then Err (StatusNot206 status) else
  match refused_encoding content_encoding with
  | Some encoding => Err (UnexpectedContentEncoding encoding)
  | None =>
      let? header := ok_or content_range ContentRangeAbsent in
      let? observed := map_err ContentRangeMalformed (from_str header) in
      let? _ := map_err ContentRangeMismatch (is_consistent_with observed requested) in
      let? total_length := ok_or (complete_length observed) TotalLengthUnknown in
      let? expected := ok_or (len observed) TotalLengthUnknown in
      if negb (body_len =? expected) then Err (BodyLengthMismatch expected body_len)
      else Ok (MkProof total_length observed requested observation)
  end.

Inductive RangeSupport :=
| Proven (proof : RangeProof)
| Absent
| Unknown.

Definition is_proven (s : RangeSupport) : bool := match s with Proven _ => true | _ => false end.
Definition support_total_length (s : RangeSupport) : option Z :=
  match s with Proven proof => Some (total_length proof) | _ => None end.
Definition proof (s : RangeSupport) : option RangeProof :=
  match s with Proven proof => Some proof | _ => None end.

Inductive Validator :=
| StrongETag (value : str)
| LastModified (value : str)
| NoValidator.
#[export] Instance Validator_eq_dec : EqDecision Validator.
Proof. solve_decision. Defined.

Definition from_headers (etag last_modified : option str) : Validator :=
  let fallback :=
    match last_modified with
    | Some last_modified =>
        let last_modified := trim last_modified in
        if bool_decide (last_modified = []) then NoValidator else LastModified last_modified
    | None => NoValidator
    end in
  match etag with
  | Some etag =>
      let etag := trim etag in
      if negb (bool_decide (etag = [])) && negb (starts_with (lit "W/") etag)
         && starts_with [34] etag
      then StrongETag etag else fallback
  | None => fallback
  end.

Definition is_strong (v : Validator) : bool := match v with StrongETag _ => true | _ => false end.
Definition if_range_value (v : Validator) : option str :=
  match v with StrongETag v | LastModified v => Some v | NoValidator => None end.

Inductive DigestAlgorithm := Sha256 | Sha512.
#[export] Instance DigestAlgorithm_eq_dec : EqDecision DigestAlgorithm.
Proof. solve_decision. Defined.
Definition token (a : DigestAlgorithm) : str :=
  match a with Sha256 => lit "sha-256" | Sha512 => lit "sha-512" end.

Record ContentDigest := MkDigest { algorithm : DigestAlgorithm; encoded : str }.
#[export] Instance ContentDigest_eq_dec : EqDecision ContentDigest.
Proof. solve_decision. Defined.

(** One member of the dictionary, when it is a digest we can use. *)
Definition parse_member (member : str) : option ContentDigest :=
  match split_once 61 member with
  | None => None
  | Some (key, value) =>
      let key := to_ascii_lowercase (trim key) in
      let algorithm :=
        if bool_decide (key = lit "sha-256") then Some Sha256
        else if bool_decide (key = lit "sha-512") then Some Sha512 else None in
      match algorithm with
      | None => None
      | Some algorithm =>
          match strip_prefix_char 58 (trim value) with
          | None => None
          | Some v =>
              match strip_suffix_char 58 v with
              | None => None
              | Some encoded =>
                  if bool_decide (encoded = []) then None else Some (MkDigest algorithm encoded)
              end
          end
      end
  end.

Definition stronger (candidate : ContentDigest) (best : option ContentDigest) : bool :=
  match best with
  | Some current =>
      bool_decide (algorithm candidate = Sha512) && bool_decide (algorithm current = Sha256)
  | None => true
  end.

Definition parse (raw : str) : option ContentDigest :=
  fold_left (λ best member,
    match parse_member member with
    | Some candidate => if stronger candidate best then Some candidate else best
    | None => best
    end) (split 44 raw) None.

Inductive NegotiatedProtocol := Http11 | Http2 | Http3.
#[export] Instance NegotiatedProtocol_eq_dec : EqDecision NegotiatedProtocol.
Proof. solve_decision. Defined.
Definition protocol_display (p : NegotiatedProtocol) : str :=
  match p with Http11 => lit "HTTP/1.1" | Http2 => lit "HTTP/2" | Http3 => lit "HTTP/3" end.

(** The probe's output, over the URL and media types of the [url] and [mime] crates. *)
Record RemoteObject {Url Mime : Type} := MkRemote {
  ro_final_url : Url;
  ro_redirect_chain : list Url;
  ro_total_length : option Z;
  ro_range_support : RangeSupport;
  ro_validator : Validator;
  ro_digest : option ContentDigest;
  ro_protocol : NegotiatedProtocol;
  ro_suggested_filename : option str;
  ro_content_type : option Mime;
  ro_probed_at : Z;
}.

(** ** Facts *)

Lemma from_observed_response_spec requested status content_range content_encoding body_len p :
  wf_request requested →
  from_observed_response requested status content_range content_encoding body_len = Ok p ↔
  status = 206 ∧ refused_encoding content_encoding = None ∧
  ∃ header first last total, content_range = Some header ∧
    from_str header = Ok (Bytes first last (Some total)) ∧
    is_consistent_with (Bytes first last (Some total)) requested = Ok tt ∧
    body_len = last - first + 1 ∧
    p = MkProof total (Bytes first last (Some total)) requested
          (RangeObservation_new requested status content_range content_encoding body_len).
Proof.
  intros Hr. unfold from_observed_response.
  destruct (Z.eqb_spec status 206) as [->|Hne]; cbn [negb].
  2: { split; [done|]. intros [? _]. done. }
  destruct (refused_encoding content_encoding) as [e|].
  { split; [done|]. by intros (_ & ? & _). }
  destruct content_range as [header|]; cbn [ok_or].
  2: { split; [done|]. by intros (_ & _ & ? & ? & ? & ? & ? & _). }
  destruct (from_str header) as [c|e] eqn:Ec; cbn [map_err].
  2: { split; [done|]. intros (_ & _ & ? & ? & ? & ? & [= <-] & ? & _). congruence. }
  pose proof (from_str_wf _ _ Ec) as Hwf. pose proof (wf_len _ Hwf) as Hlen.
  destruct (is_consistent_with c requested) as [[]|e] eqn:Ei; cbn [map_err].
  2: { split; [done|]. intros (_ & _ & ? & ? & ? & ? & [= <-] & ? & ? & _). congruence. }
  destruct c as [f l [t|]|n]; cbn [complete_length ok_or].
  - destruct Hlen as [-> _]. cbn [ok_or]. destruct (Z.eqb_spec body_len (l - f + 1)); cbn [negb].
    + split.
      * intros [= <-]. split; [done|]. split; [done|]. exists header, f, l, t. by split_and!.
      * intros (_ & _ & h & f' & l' & t' & [= <-] & Hc & _ & _ & ->).
        rewrite Ec in Hc. by injection Hc as -> -> ->.
    + split; [done|]. intros (_ & _ & h & f' & l' & t' & [= <-] & Hc & _ & ? & _).
      rewrite Ec in Hc. injection Hc as -> -> ->. done.
  - split; [done|]. intros (_ & _ & h & f' & l' & t' & [= <-] & Hc & _). congruence.
  - split; [by destruct (len _)|]. intros (_ & _ & h & f' & l' & t' & [= <-] & Hc & _). congruence.
Qed.

(** *** Digests *)

Definition is_sha512 (d : ContentDigest) : bool := bool_decide (algorithm d = Sha512).

(** The strongest of the members that parse, the first of equals. *)
Definition strongest (best : option ContentDigest) (ds : list ContentDigest)
    : option ContentDigest :=
  match best with
  | Some d => if is_sha512 d then Some d else Some (default d (List.find is_sha512 ds))
  | None =>
      match List.find is_sha512 ds with Some d => Some d | None => head ds end
  end.

Lemma parse_strongest ms best :
  fold_left (λ best member,
    match parse_member member with
    | Some candidate => if stronger candidate best then Some candidate else best
    | None => best
    end) ms best = strongest best (omap parse_member ms).
Proof.
  revert best. induction ms as [|m ms IH]; intros best; cbn [fold_left omap list_omap].
  { destruct best as [d|]; cbn; [by destruct (is_sha512 d)|done]. }
  rewrite IH. destruct (parse_member m) as [c|]; [|done].
  destruct best as [d|]; cbn [stronger strongest List.find head].
  - unfold is_sha512. destruct c as [[] ce], d as [[] de]; cbn; try done; eval_decide; cbn.
    all: by repeat case_match.
  - unfold is_sha512. destruct c as [[] ce]; cbn; eval_decide; cbn; [|done].
    by destruct (List.find _ _).
Qed.

Lemma parse_member_facts m d :
  parse_member m = Some d →
  encoded d ≠ [] ∧ ∃ key value, split_once 61 m = Some (key, value) ∧
    to_ascii_lowercase (trim key) = token (algorithm d) ∧
    trim value = 58 :: encoded d ++ [58].
Proof.
  unfold parse_member. destruct (split_once 61 m) as [[key value]|]; [|done].
  intros H. assert (Hstrip : ∀ a, match strip_prefix_char 58 (trim value) with
    | None => None
    | Some v => match strip_suffix_char 58 v with
      | None => None
      | Some encoded => if bool_decide (encoded = []) then None else Some (MkDigest a encoded)
      end end = Some d → algorithm d = a ∧ encoded d ≠ [] ∧ trim value = 58 :: encoded d ++ [58]).
  { clear H. intros a. unfold strip_prefix_char, strip_suffix_char.
    destruct (trim value) as [|c v]; [done|]. destruct (Z.eqb_spec c 58) as [->|]; [|done].
    destruct (last v) as [c|] eqn:El; [|done]. destruct (Z.eqb_spec c 58) as [->|]; [|done].
    apply last_Some in El as [l ->]. rewrite removelast_last. case_bool_decide; [done|].
    by intros [= <-]. }
  repeat case_bool_decide; try done; destruct (Hstrip _ H) as (-> & ? & ?);
    (split; [done|]); exists key, value; (split; [done|]); (split; [|done]); cbn [token];
    assumption.
Qed.

(** ** Properties *)

(** C13: Range support is proven, never assumed (I-6).  The one constructor of a proof succeeds
    exactly for a 206 without foreign encoding whose [Content-Range] parses, is consistent with
    the request, states the representation's length and describes as many bytes as the body had;
    the proof keeps that length and the raw observation, and building it again from the stored
    observation gives the same proof. *)
Theorem range_proof_is_evidence requested status content_range content_encoding body_len :
  wf_request requested →
  match from_observed_response requested status content_range content_encoding body_len with
  | Ok p =>
      status = 206 ∧ refused_encoding content_encoding = None ∧
      (∃ header first last, content_range = Some header ∧
        from_str header = Ok (observed_range p) ∧
        observed_range p = Bytes first last (Some (total_length p)) ∧
        is_consistent_with (observed_range p) requested = Ok tt ∧
        body_len = last - first + 1 ∧ last < total_length p ∧
        ∀ b, first ≤ b ≤ last → asked requested (total_length p) b) ∧
      from_observed_response (o_requested (observation p)) (o_status (observation p))
        (o_content_range (observation p)) (o_content_encoding (observation p))
        (o_body_len (observation p)) = Ok p
  | Err _ =>
      ¬ (status = 206 ∧ refused_encoding content_encoding = None ∧
         ∃ header first last total, content_range = Some header ∧
           from_str header = Ok (Bytes first last (Some total)) ∧
           is_consistent_with (Bytes first last (Some total)) requested = Ok tt ∧
           body_len = last - first + 1)
  end.
Proof.
  intros Hr.
  destruct (from_observed_response requested status content_range content_encoding body_len)
    as [p|e] eqn:E.
  - pose proof E as Hp. apply from_observed_response_spec in E; [|done].
    destruct E as (-> & He & h & f & l & t & -> & Hs & Hc & -> & ->).
    split; [done|]. split; [done|]. split.
    + exists h, f, l. cbn. pose proof (from_str_wf _ _ Hs) as (? & ? & ? & ?).
      split_and!; try done. apply consistent_spec in Hc; [|by apply from_str_wf in Hs|done].
      intros b Hb. destruct requested as [rf rl|rf|sl]; cbn [asked asked_first] in *; lia.
    + exact Hp.
  - intros (Hst & He & h & f & l & t & Hh & Hs & Hc & Hb).
    assert (Hx : from_observed_response requested status content_range content_encoding body_len =
      Ok (MkProof t (Bytes f l (Some t)) requested
        (RangeObservation_new requested status content_range content_encoding body_len))).
    { apply from_observed_response_spec; [done|]. split; [done|]. split; [done|].
      exists h, f, l, t. by split_and!. }
    congruence.
Qed.

Example range_proof_is_evidence_witness :
  ∃ p, from_observed_response (FromTo 0 0) 206 (Some (lit "bytes 0-0/1048576")) None 1 = Ok p ∧
    total_length p = 1048576 ∧ refused_encoding None = None.
Proof.
  eexists. split; [vm_compute; reflexivity|]. split; [done|].
  exact (proj1 (proj2 (range_proof_is_evidence (FromTo 0 0) 206 (Some (lit "bytes 0-0/1048576"))
    None 1 ltac:(cbn; ulia)))).
Defined.

(** What the other headers may claim.  A validator is strong exactly for an entity tag that,
    trimmed, begins with a quote (so never a weak one), and otherwise the trimmed date or nothing
    is kept (I-3); a
    digest, when one is returned, is the first SHA-512 member that parses or else the first
    SHA-256 one, and is the non-empty payload between the colons of that member. *)
Theorem headers_classified etag last_modified raw :
  match from_headers etag last_modified with
  | StrongETag v => ∃ e, etag = Some e ∧ v = trim e ∧ ∃ t, v = 34 :: t
  | LastModified v => v ≠ [] ∧ (∃ m, last_modified = Some m ∧ v = trim m) ∧
      ¬ ∃ e t, etag = Some e ∧ trim e = 34 :: t
  | NoValidator => match last_modified with Some m => trim m = [] | None => True end ∧
      ¬ ∃ e t, etag = Some e ∧ trim e = 34 :: t
  end ∧
  match parse raw with
  | Some d =>
      ∃ members, omap parse_member (split 44 raw) = members ∧ d ∈ members ∧
        encoded d ≠ [] ∧
        (algorithm d = Sha256 → Forall (λ x, algorithm x = Sha256) members ∧ head members = Some d)
  | None => omap parse_member (split 44 raw) = []
  end.
Proof.
  split.
  - assert (Hfb : let fallback := match last_modified with
        | Some m => if bool_decide (trim m = []) then NoValidator else LastModified (trim m)
        | None => NoValidator end in
      match fallback with
      | StrongETag v => False
      | LastModified v => v ≠ [] ∧ ∃ m, last_modified = Some m ∧ v = trim m
      | NoValidator => match last_modified with Some m => trim m = [] | None => True end
      end).
    { destruct last_modified as [m|]; [|done]. cbn. case_bool_decide; [done|]. eauto. }
    unfold from_headers. cbv zeta in *. destruct etag as [e|].
    + destruct (negb _ && negb _ && _) eqn:Ec.
      * apply andb_true_iff in Ec as [_ Hq]. exists e. split; [done|]. split; [done|].
        unfold starts_with in Hq. apply bool_decide_eq_true in Hq.
        destruct (trim e) as [|c t]; [done|]. injection Hq as ->. by exists t.
      * assert (Hno : ¬ ∃ e0 t, Some e = Some e0 ∧ trim e0 = 34 :: t).
        { intros (? & t & [= <-] & Ht). by rewrite Ht in Ec. }
        destruct (match last_modified with Some _ => _ | None => _ end); naive_solver.
    + assert (Hno : ¬ ∃ e0 t, @None str = Some e0 ∧ trim e0 = 34 :: t) by (by intros (? & ? & ? & _)).
      destruct (match last_modified with Some _ => _ | None => _ end); naive_solver.
  - unfold parse. rewrite parse_strongest. cbn [strongest].
    remember (omap parse_member (split 44 raw)) as ds eqn:Hds.
    assert (Hne : ∀ d, d ∈ ds → encoded d ≠ []).
    { intros d Hd. rewrite Hds in Hd. apply list_elem_of_omap in Hd as (m & _ & Hm).
      by apply parse_member_facts in Hm as [? _]. }
    destruct (List.find is_sha512 ds) as [d|] eqn:Ef.
    + apply find_some in Ef as [Hin%list_elem_of_In Hd%bool_decide_eq_true]. exists ds.
      split; [done|]. split; [done|]. split; [by apply Hne|]. congruence.
    + destruct ds as [|d ds]; [done|]. exists (d :: ds). split; [done|]. split; [by left|].
      split; [apply Hne; by left|]. intros _. split; [|done].
      apply Forall_forall. intros x Hx%list_elem_of_In.
      pose proof (find_none _ _ Ef x Hx) as Hn. unfold is_sha512 in Hn.
      apply bool_decide_eq_false in Hn. by destruct (algorithm x).
Qed.

Example headers_classified_witness :
  (∃ e, Some [32; 34; 97; 34; 32] = Some e ∧ [34; 97; 34] = trim e ∧ ∃ t, [34; 97; 34] = 34 :: t) ∧
  ∃ members, omap parse_member (split 44 (lit "sha-256=:BBBB:, sha-512=:AAAA:")) = members ∧
    MkDigest Sha512 (lit "AAAA") ∈ members.
Proof.
  destruct (headers_classified (Some [32; 34; 97; 34; 32]) None
    (lit "sha-256=:BBBB:, sha-512=:AAAA:")) as [Hv (members & Hm & Hin & _)].
  split; [exact Hv|]. exists members. split; [exact Hm|exact Hin].
Defined.

End Remote.
