(* ===== verification/Http.v ===== *)
(** * [downpour-http/src/{error,protocol,h1h2}.rs]: the network boundary and its HTTP backend

    Probing a URL and fetching a range, as programs over the calls of the HTTP library (whose
    answers are anything a server can make it say) and of the sink the fetched bytes go to.  The
    interface [TransferProtocol] is all the engine knows of it. *)

From S2P Require Import Prelude Str Io Filename ContentRange Remote Effects Sink.
From Stdlib Require Import String.
From stdpp Require Import list.
#[local] Open Scope Z_scope.

Module Http.
Import Str.Str Io.Io Filename.Filename ContentRange.ContentRange Remote.Remote Effects.Effects
  Sink.Sink.

(** [reqwest::Error], of which the code looks at one fact. *)
Record NetError := MkNetError { is_timeout : bool }.

(** ** The errors *)

Section errors.
Context {Url : Type}.

Inductive ProbeError :=
| ProbeTransport (url : Url) (source : NetError)
| ProbeTimeout (url : Url)
| TooManyRedirects (start : Url) (limit : Z)
| RedirectWithoutLocation (url : Url) (status : Z)
| UnusableRedirectTarget (url : Url) (location : str)
| ProbeUnexpectedStatus (url : Url) (status : Z) (retry_after : option str)
| NeedsRefresh (url : Url) (status : Z)
| ProbeLooksLikeAnErrorPage (url : Url) (content_type : str)
| ContentEncoding (url : Url) (source : RangeProofError).

Definition ProbeError_kind (e : ProbeError) : string :=
  match e with
  | ProbeTransport _ _ => "transport"
  | ProbeTimeout _ => "timeout"
  | TooManyRedirects _ _ => "too_many_redirects"
  | RedirectWithoutLocation _ _ => "redirect_without_location"
  | UnusableRedirectTarget _ _ => "unusable_redirect_target"
  | ProbeUnexpectedStatus _ _ _ => "unexpected_status"
  | NeedsRefresh _ _ => "needs_refresh"
  | ProbeLooksLikeAnErrorPage _ _ => "looks_like_error_page"
  | ContentEncoding _ _ => "unexpected_content_encoding"
  end.

Inductive TransferError :=
| TransferTransport (url : Url) (source : NetError)
| TransferTimeout (url : Url) (bytes_delivered : Z)
| TruncatedBody (url : Url) (expected delivered : Z)
| TransferUnexpectedStatus (url : Url) (status : Z) (retry_after : option str)
| TransferLooksLikeAnErrorPage (url : Url) (declared_type : str)
| UnusableRangeResponse (url : Url) (source : RangeProofError)
| OverDelivery (url : Url) (source : SinkError)
| TransferSink (url : Url) (source : SinkError)
| ValidatorMismatch (url : Url) (resume_offset status : Z) (validator : str).

Definition TransferError_kind (e : TransferError) : string :=
  match e with
  | TransferTransport _ _ => "transport"
  | TransferTimeout _ _ => "timeout"
  | TruncatedBody _ _ _ => "truncated_body"
  | TransferUnexpectedStatus _ _ _ => "unexpected_status"
  | TransferLooksLikeAnErrorPage _ _ => "looks_like_error_page"
  | UnusableRangeResponse _ _ => "unusable_range_response"
  | OverDelivery _ _ => "over_delivery"
  | TransferSink _ _ => "sink"
  | ValidatorMismatch _ _ _ _ => "validator_mismatch"
  end.
End errors.
Arguments ProbeError Url : clear implicits.
Arguments TransferError Url : clear implicits.

(** ** The boundary *)

Section boundary.
Context {Url : Type}.

(** Durations are in seconds: the spec defaults are whole ones. *)
Record ProbeRequest := MkProbeRequest {
  pr_url : Url;
  pr_headers : list (str * str);
  pr_max_redirects : Z;
  pr_timeout : Z;
}.
Definition ProbeRequest_new (url : Url) : ProbeRequest := MkProbeRequest url [] 10 15.

Record RangeRequest := MkRangeRequest {
  rr_url : Url;
  rr_range : option ByteRangeSpec;
  rr_if_range : option str;
  rr_headers : list (str * str);
  rr_timeout : Z;
}.
Definition whole (url : Url) : RangeRequest := MkRangeRequest url None None [] 300.
Definition ranged (url : Url) (range : ByteRangeSpec) : RangeRequest :=
  MkRangeRequest url (Some range) None [] 300.
Definition resume (url : Url) (range : ByteRangeSpec) (validator : str) : RangeRequest :=
  MkRangeRequest url (Some range) (Some validator) [] 300.
End boundary.
Arguments ProbeRequest Url : clear implicits.
Arguments RangeRequest Url : clear implicits.

Record RangeOutcome := MkOutcome {
  ro_bytes_delivered : Z;
  ro_status : Z;
  ro_content_range : option ContentRange;
  ro_outcome_protocol : NegotiatedProtocol;
  ro_truncated : bool;
}.

Record BackendCapabilities := MkCapabilities {
  bc_name : string;
  bc_protocols : list NegotiatedProtocol;
  bc_multiplexes_streams : bool;
  bc_supports_ranges : bool;
}.

(** The trait, for a backend whose own calls are those of [N]. *)
Class TransferProtocol (Url Mime : Type) (N : Type → Type) := {
  backend_probe : ProbeRequest Url → prog N (result (RemoteObject (Url := Url) (Mime := Mime))
                                               (ProbeError Url));
  backend_fetch_range :
    RangeRequest Url → prog (either N sink_op) (result RangeOutcome (TransferError Url));
  backend_capabilities : BackendCapabilities;
}.

(** ** The HTTP library *)

(** What the [url], [http] and [mime] crates do: joining a relative reference, the text of a
    header value, parsing a media type. *)
Class UrlJoin (Url : Type) := join : Url → str → option Url.
Class HeaderText := to_str : list byte → option str.
Class ParseMime (Mime : Type) := parse_mime : str → option Mime.

Inductive Version := HTTP_09 | HTTP_10 | HTTP_11 | HTTP_2 | HTTP_3.

(** A response: the first value of each header, by its lower-case name. *)
Record Response := MkResponse {
  rs_status : Z;
  rs_version : Version;
  rs_headers : str → option (list byte);
}.

(** A request as it is built. *)
Record HttpRequest {Url : Type} := MkHttpRequest {
  hr_url : Url;
  hr_headers : list (str * str);
  hr_timeout : Z;
}.
Arguments HttpRequest Url : clear implicits.
Arguments MkHttpRequest {Url}.

(** The calls: sending a request, the next chunk of the body, the whole body, the clock.  A call
    that is never answered stands for a program that is still running. *)
Inductive http_call (Url : Type) : Type → Type :=
| Send (request : HttpRequest Url) : http_call Url (result Response NetError)
| Chunk : http_call Url (result (option (list byte)) NetError)
| Body : http_call Url (result (list byte) NetError)
| Now : http_call Url Z
| Running : http_call Url Empty_set.
Arguments Send {Url} request.
Arguments Chunk {Url}.
Arguments Body {Url}.
Arguments Now {Url}.
Arguments Running {Url}.

Inductive TransportMode := Negotiated | Http1Only | Http2PriorKnowledge.

(** The headers of every request. *)
Definition request_headers (range : option ByteRangeSpec) (if_range : option str)
    (headers : list (str * str)) : list (str * str) :=
  [(lit "accept-encoding", lit "identity")] ++
  match range with Some range => [(lit "range", header_value range)] | None => [] end ++
  match if_range with Some validator => [(lit "if-range", validator)] | None => [] end ++
  headers.

Definition send {Url} (url : Url) (range : option ByteRangeSpec) (if_range : option str)
    (headers : list (str * str)) (timeout : Z) : http_call Url (result Response NetError) :=
  Send (MkHttpRequest url (request_headers range if_range headers) timeout).

Definition response_header `{HeaderText} (response : Response) (name : string) : option str :=
  rs_headers response (lit name) ≫= to_str.

Definition protocol_of (response : Response) : NegotiatedProtocol :=
  match rs_version response with HTTP_2 => Http2 | HTTP_3 => Http3 | _ => Http11 end.

Definition is_redirect (status : Z) : bool :=
  (status =? 301) || (status =? 302) || (status =? 303) || (status =? 307) || (status =? 308).

Definition looks_like_a_web_page (content_type : option str) : bool :=
  match content_type with
  | Some value =>
      let value := to_ascii_lowercase (trim value) in
      starts_with (lit "text/html") value || starts_with (lit "application/xhtml+xml") value
  | None => false
  end.

(** [u8::is_ascii_whitespace] and [to_ascii_lowercase] on bytes. *)
Definition byte_is_whitespace (b : byte) : bool := is_ascii_whitespace (byte_val b).
Definition byte_to_lowercase (b : byte) : byte := byte_of (to_ascii_lowercase_char (byte_val b)).
Fixpoint skip_whitespace (head : list byte) : list byte :=
  match head with
  | first :: tail => if byte_is_whitespace first then skip_whitespace tail else head
  | [] => []
  end.

Definition BOM : list byte := [xef; xbb; xbf].
Definition MARKERS : list str :=
  [lit "<!doctype html"; lit "<html"; lit "<head"; lit "<body"; lit "<!doctype"].

Definition body_looks_like_a_web_page (content_type : option str) (head : list byte) : bool :=
  let declared_generic :=
    match content_type with
    | None => true
    | Some value =>
        let value := to_ascii_lowercase (trim value) in
        starts_with (lit "application/octet-stream") value
        || starts_with (lit "binary/octet-stream") value
        || starts_with (lit "application/binary") value
    end in
  if negb declared_generic then false else
  let rest := if bool_decide (take 3 head = BOM) then drop 3 head else head in
  let prefix := map byte_val (map byte_to_lowercase (take 64 (skip_whitespace rest))) in
  existsb (λ marker, starts_with marker prefix) MARKERS.

(** [str::parse::<u64>]: one optional plus sign, then digits. *)
Definition str_parse_u64 (s : str) : option Z :=
  let digits := match s with c :: r => if c =? 43 then r else s | [] => s end in
  if bool_decide (digits = []) || negb (forallb is_ascii_digit digits) then None
  else parse_u64 digits.

(** ** Probing *)

Section h1h2.
Context {Url Mime : Type} `{UrlJoin Url, HeaderText, ParseMime Mime, PercentEncoding, UrlPath Url}.

Definition PROBE_RANGE : ByteRangeSpec := FromTo 0 0.

Definition content_length (response : Response) : option Z :=
  response_header response "content-length" ≫= str_parse_u64.

(** What the headers of the final response say, besides its ranges. *)
Definition observed_validator (response : Response) : Validator :=
  from_headers (response_header response "etag") (response_header response "last-modified").
Definition observed_digest (response : Response) : option ContentDigest :=
  match response_header response "repr-digest" with
  | Some value => parse value
  | None => response_header response "content-digest" ≫= parse
  end.

Definition remote_of (response : Response) (final_url : Url) (chain : list Url)
    (total_length : option Z) (range_support : RangeSupport) (now : Z)
    : RemoteObject (Url := Url) (Mime := Mime) :=
  MkRemote _ _ final_url chain total_length range_support (observed_validator response)
    (observed_digest response) (protocol_of response)
    (Some (resolve (response_header response "content-disposition") final_url))
    (response_header response "content-type" ≫= parse_mime) now.

(** The range support that a response proves, or the refusal of its encoding. *)
Definition proven_support (response : Response) (body_len : Z)
    : result RangeSupport RangeProofError :=
  match from_observed_response PROBE_RANGE (rs_status response)
          (response_header response "content-range") (response_header response "content-encoding")
          body_len with
  | Ok proof => Ok (Proven proof)
  | Err (UnexpectedContentEncoding encoding) => Err (UnexpectedContentEncoding encoding)
  | Err _ => Ok Absent
  end.

(** A response that is neither a redirect nor a refused probe range. *)
Definition conclude (current : Url) (chain : list Url) (probe_with_range : bool)
    (response : Response)
    : prog (http_call Url) (result (RemoteObject (Url := Url) (Mime := Mime)) (ProbeError Url)) :=
  let status := rs_status response in
  if (status =? 401) || (status =? 403) || (status =? 410)
  then Ret (Err (NeedsRefresh current status)) else
  if negb ((status =? 200) || (status =? 206))
  then Ret (Err (ProbeUnexpectedStatus current status (response_header response "retry-after")))
  else
  let content_type := response_header response "content-type" in
  if looks_like_a_web_page content_type
  then Ret (Err (ProbeLooksLikeAnErrorPage current (default [] content_type))) else
  Vis Body (λ body,
    match body with
    | Err source => Ret (Err (ProbeTransport current source))
    | Ok body =>
        if negb probe_with_range then
          match refused_encoding (response_header response "content-encoding") with
          | Some encoding =>
              Ret (Err (ContentEncoding current (UnexpectedContentEncoding encoding)))
          | None =>
              Vis Now (λ now,
                Ret (Ok (remote_of response current chain (content_length response) Absent now)))
          end
        else
          match proven_support response (zlen body) with
          | Err source => Ret (Err (ContentEncoding current source))
          | Ok range_support =>
              let total_length :=
                match support_total_length range_support with
                | Some total => Some total
                | None => if status =? 200 then content_length response else None
                end in
              Vis Now (λ now,
                Ret (Ok (remote_of response current chain total_length range_support now)))
          end
    end).

Definition probe_call (request : ProbeRequest Url) (current : Url) (probe_with_range : bool) :=
  send current (if probe_with_range then Some PROBE_RANGE else None) None (pr_headers request)
    (pr_timeout request).

Fixpoint probe_loop (fuel : nat) (request : ProbeRequest Url) (current : Url) (chain : list Url)
    (hops : Z) (probe_with_range : bool)
    : prog (http_call Url)
        (option (result (RemoteObject (Url := Url) (Mime := Mime)) (ProbeError Url))) :=
  match fuel with
  | O => Ret None
  | S fuel =>
      if pr_max_redirects request <? hops
      then Ret (Some (Err (TooManyRedirects (pr_url request) (pr_max_redirects request)))) else
      Vis (probe_call request current probe_with_range) (λ answer,
        match answer with
        | Err source =>
            Ret (Some (Err (if is_timeout source then ProbeTimeout current
                            else ProbeTransport current source)))
        | Ok response =>
            let status := rs_status response in
            if is_redirect status then
              match response_header response "location" with
              | None => Ret (Some (Err (RedirectWithoutLocation current status)))
              | Some location =>
                  match join current location with
                  | None => Ret (Some (Err (UnusableRedirectTarget current location)))
                  | Some next =>
                      probe_loop fuel request next (chain ++ [next]) (hops + 1) probe_with_range
                  end
              end
            else if (status =? 416) && probe_with_range
            then probe_loop fuel request current chain hops false
            else bind (conclude current chain probe_with_range response) (λ r, Ret (Some r))
        end)
  end.

(** One turn per hop, one more for the refused range and one to report the last. *)
Definition probe_fuel (request : ProbeRequest Url) : nat :=
  (Z.to_nat (pr_max_redirects request) + 3)%nat.

Definition probe (request : ProbeRequest Url) :=
  probe_loop (probe_fuel request) request (pr_url request) [pr_url request] 0 true.

(** ** Fetching *)

Definition first_of (range : option ByteRangeSpec) : Z :=
  match range with Some (From first) | Some (FromTo first _) => first | _ => 0 end.

(** The checks of the status: a resume must be a 206, anything else a 200 or a 206. *)
Definition admit_status (request : RangeRequest Url) (response : Response)
    : result unit (TransferError Url) :=
  let status := rs_status response in
  let? _ :=
    (match rr_if_range request with
     | Some validator =>
         if negb (status =? 206)
         then Err (ValidatorMismatch (rr_url request) (first_of (rr_range request)) status validator)
         else Ok tt
     | None => Ok tt
     end) in
  if negb ((status =? 200) || (status =? 206))
  then Err (TransferUnexpectedStatus (rr_url request) status
              (response_header response "retry-after"))
  else Ok tt.

(** The checks of the range: the observed one when one was asked for. *)
Definition admit_range (request : RangeRequest Url) (response : Response)
    : result (option ContentRange) (TransferError Url) :=
  let url := rr_url request in
  let content_encoding := response_header response "content-encoding" in
  let content_range_header := response_header response "content-range" in
  match rr_range request with
  | Some requested =>
      let parsed_len :=
        content_range_header ≫= λ header, ok (from_str header) ≫= ContentRange.len in
      match from_observed_response requested (rs_status response) content_range_header
              content_encoding (default 0 parsed_len) with
      | Err source => Err (UnusableRangeResponse url source)
      | Ok proof => Ok (Some (observed_range proof))
      end
  | None =>
      match refused_encoding content_encoding with
      | Some encoding => Err (UnusableRangeResponse url (UnexpectedContentEncoding encoding))
      | None => Ok None
      end
  end.

(** Everything is checked before the first byte. *)
Definition admit_response (request : RangeRequest Url) (response : Response)
    : result (option ContentRange) (TransferError Url) :=
  let? _ := admit_status request response in
  admit_range request response.

(** What the response committed to delivering. *)
Definition promised (response : Response) (content_range : option ContentRange) : option Z :=
  match content_range ≫= ContentRange.len with
  | Some expected => Some expected
  | None => content_length response
  end.

Definition chunk_error (url : Url) (expected : option Z) (delivered : Z) (source : NetError)
    : TransferError Url :=
  if is_timeout source then TransferTimeout url delivered else
  match expected with
  | Some expected =>
      if delivered <? expected then TruncatedBody url expected delivered
      else TransferTransport url source
  | None => TransferTransport url source
  end.

Definition sink_error (url : Url) (source : SinkError) : TransferError Url :=
  match source with
  | BeyondGrant _ _ _ => OverDelivery url source
  | _ => TransferSink url source
  end.

(** The body loop, for as many chunks as [fuel] allows. *)
Fixpoint fetch_loop (fuel : nat) (url : Url) (declared_type : option str) (expected : option Z)
    (delivered : Z)
    : prog (either (http_call Url) sink_op) (option (result Z (TransferError Url))) :=
  match fuel with
  | O => Ret None
  | S fuel =>
      Vis (Left_ Chunk) (λ chunk,
        match chunk with
        | Err source => Ret (Some (Err (chunk_error url expected delivered source)))
        | Ok None => Ret (Some (Ok delivered))
        | Ok (Some chunk) =>
            if bool_decide (chunk = []) then fetch_loop fuel url declared_type expected delivered
            else if (delivered =? 0) && body_looks_like_a_web_page declared_type chunk
            then Ret (Some (Err (TransferLooksLikeAnErrorPage url (default [] declared_type))))
            else
              Vis (Right_ (Accept chunk)) (λ accepted,
                match accepted with
                | Err source => Ret (Some (Err (sink_error url source)))
                | Ok _ =>
                    fetch_loop fuel url declared_type expected
                      (saturating_add64 delivered (zlen chunk))
                end)
        end)
  end.

Definition outcome_of (response : Response) (content_range : option ContentRange) (delivered : Z)
    : RangeOutcome :=
  MkOutcome delivered (rs_status response) content_range (protocol_of response)
    (match promised response content_range with
     | Some expected => delivered <? expected
     | None => false
     end).

Definition fetch_call (request : RangeRequest Url) :=
  send (rr_url request) (rr_range request) (rr_if_range request) (rr_headers request)
    (rr_timeout request).

Definition fetch_range (fuel : nat) (request : RangeRequest Url)
    : prog (either (http_call Url) sink_op) (option (result RangeOutcome (TransferError Url))) :=
  Vis (Left_ (fetch_call request)) (λ answer,
    match answer with
    | Err source =>
        Ret (Some (Err (if is_timeout source then TransferTimeout (rr_url request) 0
                        else TransferTransport (rr_url request) source)))
    | Ok response =>
        match admit_response request response with
        | Err e => Ret (Some (Err e))
        | Ok content_range =>
            bind (fetch_loop fuel (rr_url request) (response_header response "content-type")
                    (promised response content_range) 0) (λ delivered,
              Ret (match delivered with
                   | None => None
                   | Some (Err e) => Some (Err e)
                   | Some (Ok delivered) =>
                       Some (Ok (outcome_of response content_range delivered))
                   end))
        end
    end).

Definition capabilities (mode : TransportMode) : BackendCapabilities :=
  let protocols :=
    match mode with
    | Negotiated => [Http11; Http2]
    | Http1Only => [Http11]
    | Http2PriorKnowledge => [Http2]
    end in
  MkCapabilities "h1h2" protocols (bool_decide (Http2 ∈ protocols)) true.

(** A result, or a program that is still running. *)
Definition or_running {F : Type → Type} {A} (running : F Empty_set) (o : option A) : prog F A :=
  match o with Some a => Ret a | None => Vis running (λ x, Empty_set_rect (λ _, prog F A) x) end.

(** The backend; a body of more than [fuel] chunks is still being read. *)
Definition H1H2Backend (fuel : nat) (mode : TransportMode)
    : TransferProtocol Url Mime (http_call Url) := {|
  backend_probe := λ request, bind (probe request) (or_running Running);
  backend_fetch_range := λ request, bind (fetch_range fuel request) (or_running (Left_ Running));
  backend_capabilities := capabilities mode;
|}.
End h1h2.

(** ** What a run did *)

Inductive entry (Url : Type) :=
| Sent (request : HttpRequest Url) (answer : result Response NetError)
| Chunked (answer : result (option (list byte)) NetError)
| Bodied (answer : result (list byte) NetError)
| Clocked (now : Z)
| Accepted (bytes : list byte) (answer : result unit SinkError).
Arguments Sent {Url}.
Arguments Chunked {Url}.
Arguments Bodied {Url}.
Arguments Clocked {Url}.
Arguments Accepted {Url}.

Definition http_entry {Url X} (e : http_call Url X) : X → list (entry Url) :=
  match e in http_call _ X return X → list (entry Url) with
  | Send request => λ answer, [Sent request answer]
  | Chunk => λ answer, [Chunked answer]
  | Body => λ answer, [Bodied answer]
  | Now => λ now, [Clocked now]
  | Running => λ x, match x with end
  end.
Definition sink_entry {Url X} (e : sink_op X) : X → list (entry Url) :=
  match e in sink_op X return X → list (entry Url) with
  | Accept bytes => λ answer, [Accepted bytes answer]
  end.

(** A server that may answer anything, and a sink that may. *)
Definition log (Url : Type) : Type := list (entry Url).
#[export] Instance any_server Url : World (http_call Url) (log Url) :=
  λ X e w x w', w' = w ++ http_entry e x.
#[export] Instance any_server_and_sink Url : World (either (http_call Url) sink_op) (log Url) :=
  λ X e w x w', w' = w ++ match e with Left_ e => http_entry e x | Right_ e => sink_entry e x end.

(** ** What a probe observed *)

Section probing.
Context {Url Mime : Type} `{UrlJoin Url, HeaderText, ParseMime Mime, PercentEncoding, UrlPath Url}.
Implicit Types (request : ProbeRequest Url) (response : Response) (l : log Url).

(** A probe's request and its answer. *)
Definition probed request (current : Url) (ranged : bool) (answer : result Response NetError)
    : entry Url :=
  Sent (MkHttpRequest current
          (request_headers (if ranged then Some PROBE_RANGE else None) None (pr_headers request))
          (pr_timeout request)) answer.

(** [l] leads to [current]: through [chain], asking for the probe range as long as [ranged]. *)
Inductive followed request : log Url → Url → list Url → bool → Prop :=
| followed_start : followed request [] (pr_url request) [pr_url request] true
| followed_redirect l current chain ranged response location next :
    followed request l current chain ranged →
    is_redirect (rs_status response) = true →
    response_header response "location" = Some location → join current location = Some next →
    followed request (l ++ [probed request current ranged (Ok response)]) next (chain ++ [next])
      ranged
| followed_refusal l current chain response :
    followed request l current chain true → rs_status response = 416 →
    followed request (l ++ [probed request current true (Ok response)]) current chain false.

(** A response that can describe the file. *)
Definition describes response : Prop :=
  (rs_status response = 200 ∨ rs_status response = 206) ∧
  looks_like_a_web_page (response_header response "content-type") = false.

(** What may be said of ranges and length after the body arrived. *)
Definition evidence (ranged : bool) response (body : list byte) (support : RangeSupport)
    (total : option Z) : Prop :=
  match support with
  | Proven p =>
      ranged = true ∧ rs_status response = 206 ∧ zlen body = 1 ∧
      total = Some (total_length p) ∧ 0 < total_length p ∧
      ∃ header, response_header response "content-range" = Some header ∧
        from_str header = Ok (Bytes 0 0 (Some (total_length p)))
  | Absent =>
      (ranged = false ∨ rs_status response = 206 → refused_encoding
         (response_header response "content-encoding") = None) ∧
      total = if ranged && (rs_status response =? 206) then None else content_length response
  | Unknown => False
  end.

Definition probe_result request l
    (r : result (RemoteObject (Url := Url) (Mime := Mime)) (ProbeError Url)) : Prop :=
  ∃ l0 current chain ranged, followed request l0 current chain ranged ∧
  let sent answer := l0 ++ [probed request current ranged answer] in
  match r with
  | Ok remote =>
      zlen chain ≤ pr_max_redirects request + 1 ∧
      ∃ response body now support total,
        l = sent (Ok response) ++ [Bodied (Ok body); Clocked now] ∧ describes response ∧
        evidence ranged response body support total ∧
        remote = remote_of response current chain total support now
  | Err (TooManyRedirects start limit) =>
      l = l0 ∧ start = pr_url request ∧ limit = pr_max_redirects request ∧
      zlen chain = pr_max_redirects request + 2
  | Err (ProbeTimeout url) => url = current ∧ ∃ e, is_timeout e = true ∧ l = sent (Err e)
  | Err (ProbeTransport url e) => url = current ∧
      (is_timeout e = false ∧ l = sent (Err e) ∨
       ∃ response, describes response ∧ l = sent (Ok response) ++ [Bodied (Err e)])
  | Err (RedirectWithoutLocation url status) => url = current ∧
      ∃ response, l = sent (Ok response) ∧ status = rs_status response ∧
        is_redirect status = true ∧ response_header response "location" = None
  | Err (UnusableRedirectTarget url location) => url = current ∧
      ∃ response, l = sent (Ok response) ∧ is_redirect (rs_status response) = true ∧
        response_header response "location" = Some location ∧ join current location = None
  | Err (NeedsRefresh url status) => url = current ∧
      ∃ response, l = sent (Ok response) ∧ status = rs_status response ∧ status ∈ [401; 403; 410]
  | Err (ProbeUnexpectedStatus url status retry_after) => url = current ∧
      ∃ response, l = sent (Ok response) ∧ status = rs_status response ∧
        retry_after = response_header response "retry-after" ∧
        is_redirect status = false ∧ status ∉ [200; 206; 401; 403; 410] ∧
        (status = 416 → ranged = false)
  | Err (ProbeLooksLikeAnErrorPage url content_type) => url = current ∧
      ∃ response, l = sent (Ok response) ∧
        response_header response "content-type" = Some content_type ∧
        looks_like_a_web_page (Some content_type) = true
  | Err (ContentEncoding url e) => url = current ∧
      ∃ response body encoding, l = sent (Ok response) ++ [Bodied (Ok body)] ∧
        describes response ∧ e = UnexpectedContentEncoding encoding ∧
        refused_encoding (response_header response "content-encoding") = Some encoding
  end.

Lemma http_step {A X} (e : http_call Url X) (k : X → prog (http_call Url) A) Q l :
  (∀ x, wp (k x) Q (λ _, True) (l ++ http_entry e x)) → wp (Vis e k) Q (λ _, True) l.
Proof. intros Hk. apply prog_vis; [done|]. intros x w' Hd. cbv in Hd. subst. apply Hk. Qed.

Lemma proven_support_spec response n :
  match proven_support response n with
  | Ok (Proven p) => rs_status response = 206 ∧ n = 1 ∧ 0 < total_length p ∧
      ∃ header, response_header response "content-range" = Some header ∧
        from_str header = Ok (Bytes 0 0 (Some (total_length p)))
  | Ok Absent => rs_status response = 206 →
      refused_encoding (response_header response "content-encoding") = None
  | Ok Unknown => False
  | Err e => rs_status response = 206 ∧ ∃ encoding, e = UnexpectedContentEncoding encoding ∧
      refused_encoding (response_header response "content-encoding") = Some encoding
  end.
Proof.
  assert (Hr : wf_request PROBE_RANGE) by (cbn; ulia).
  unfold proven_support. destruct (from_observed_response _ _ _ _ _) as [p|e] eqn:E.
  - apply from_observed_response_spec in E; [|done].
    destruct E as (Hs & _ & header & first & last & total & -> & Hf & Hc & -> & ->). cbn in Hc |- *.
    pose proof (from_str_wf _ _ Hf) as Hwf. cbn in Hwf.
    destruct (Z.eqb_spec first 0) as [->|]; cbn in Hc; [|done].
    destruct (Z.ltb_spec 0 last); [done|]. assert (last = 0) as -> by ulia.
    split; [done|]. split; [lia|]. split; [ulia|]. eauto.
  - unfold from_observed_response in E. destruct (Z.eqb_spec (rs_status response) 206); cbn [negb] in E.
    2: { by injection E as <-. }
    destruct (refused_encoding _) as [encoding|]; [injection E as <-; eauto|].
    destruct (response_header response "content-range") as [header|]; cbn [ok_or] in E;
      [|by injection E as <-].
    destruct (from_str header) as [c|]; cbn [map_err] in E; [|by injection E as <-].
    destruct (is_consistent_with _ _); cbn [map_err] in E; [|by injection E as <-].
    destruct (complete_length c); cbn [ok_or] in E; [|by injection E as <-].
    destruct (ContentRange.len c); cbn [ok_or] in E; [|by injection E as <-].
    by destruct (negb _); [injection E as <-|].
Qed.

Lemma conclude_wp request l0 current chain ranged response :
  followed request l0 current chain ranged → zlen chain ≤ pr_max_redirects request + 1 →
  is_redirect (rs_status response) = false → (rs_status response = 416 → ranged = false) →
  wp (conclude current chain ranged response) (λ r l, probe_result request l r) (λ _, True)
    (l0 ++ [probed request current ranged (Ok response)]).
Proof.
  intros Hf Hlen Hre H416. unfold conclude. cbv zeta.
  destruct (_ || _ || _) eqn:E1.
  { apply prog_ret; [done|]. exists l0, current, chain, ranged. split; [done|]. split; [done|].
    exists response. split_and!; [done..|]. rewrite !orb_true_iff, !Z.eqb_eq in E1. rewrite !elem_of_cons. tauto. }
  destruct (negb (_ || _)) eqn:E2.
  { apply prog_ret; [done|]. exists l0, current, chain, ranged. split; [done|]. split; [done|].
    exists response. split_and!; [done..| |done].
    rewrite !orb_false_iff, !Z.eqb_neq in E1. apply negb_true_iff, orb_false_iff in E2.
    rewrite !Z.eqb_neq in E2. rewrite !not_elem_of_cons. split_and!; try tauto.
    apply not_elem_of_nil. }
  destruct (looks_like_a_web_page _) eqn:E3.
  { apply prog_ret; [done|]. exists l0, current, chain, ranged. split; [done|]. split; [done|].
    exists response. split; [done|]. destruct (response_header response "content-type"); done. }
  assert (Hd : describes response) by (split; [apply negb_false_iff, orb_true_iff in E2; rewrite !Z.eqb_eq in E2; tauto|done]).
  apply http_step. intros [body|source]; cbn [http_entry].
  2: { apply prog_ret; [done|]. exists l0, current, chain, ranged. split; [done|]. split; [done|].
       right. by exists response. }
  assert (Hrefuse : ∀ encoding, refused_encoding (response_header response "content-encoding") =
      Some encoding →
    probe_result request
      ((l0 ++ [probed request current ranged (Ok response)]) ++ [Bodied (Ok body)])
      (Err (ContentEncoding current (UnexpectedContentEncoding encoding)))).
  { intros encoding He. exists l0, current, chain, ranged. split; [done|]. split; [done|].
    by exists response, body, encoding. }
  assert (Hok : ∀ support total now, evidence ranged response body support total →
    probe_result request
      (((l0 ++ [probed request current ranged (Ok response)]) ++ [Bodied (Ok body)]) ++ [Clocked now])
      (Ok (remote_of response current chain total support now))).
  { intros support total now He. exists l0, current, chain, ranged. split; [done|].
    cbv zeta. split; [done|]. exists response, body, now, support, total.
    split; [by rewrite <- !app_assoc|done]. }
  destruct ranged; cbn [negb].
  - pose proof (proven_support_spec response (zlen body)) as Hsp.
    destruct (proven_support _ _) as [[p| |]|e].
    + apply http_step. intros now. apply prog_ret; [done|]. apply Hok.
      destruct Hsp as (? & ? & ? & ?). by split_and!.
    + apply http_step. intros now. apply prog_ret; [done|]. apply Hok.
      cbn [support_total_length evidence andb]. split; [intros [?|?]; [done|by apply Hsp]|].
      destruct Hd as [[-> | ->] _]; done.
    + done.
    + apply prog_ret; [done|]. destruct Hsp as (_ & encoding & -> & He). by apply Hrefuse.
  - destruct (refused_encoding _) as [encoding|] eqn:Eenc.
    + apply prog_ret; [done|]. by apply Hrefuse.
    + apply http_step. intros now. apply prog_ret; [done|]. apply Hok. by split.
Qed.

Lemma probe_loop_wp fuel request l current chain hops ranged :
  followed request l current chain ranged → zlen chain = hops + 1 →
  0 ≤ hops ≤ pr_max_redirects request + 1 →
  pr_max_redirects request + 2 - hops + (if ranged then 1 else 0) ≤ Z.of_nat fuel →
  wp (probe_loop fuel request current chain hops ranged)
    (λ o l, ∃ r, o = Some r ∧ probe_result request l r) (λ _, True) l.
Proof.
  revert l current chain hops ranged. induction fuel as [|fuel IH];
    intros l current chain hops ranged Hf Hlen Hh Hfuel; [destruct ranged; lia|].
  cbn [probe_loop]. destruct (Z.ltb_spec (pr_max_redirects request) hops).
  { apply prog_ret; [done|]. eexists. split; [done|]. exists l, current, chain, ranged.
    split; [done|]. split_and!; [done..|lia]. }
  apply http_step. intros [response|source]; cbn [http_entry probe_call send].
  2: { apply prog_ret; [done|]. eexists. split; [done|]. exists l, current, chain, ranged.
       split; [done|]. destruct (is_timeout source) eqn:Et; (split; [done|]); [by exists source|by left]. }
  destruct (is_redirect (rs_status response)) eqn:Ere.
  - destruct (response_header response "location") as [location|] eqn:El.
    2: { apply prog_ret; [done|]. eexists. split; [done|]. exists l, current, chain, ranged.
         split; [done|]. split; [done|]. by exists response. }
    destruct (join current location) as [next|] eqn:Ej.
    2: { apply prog_ret; [done|]. eexists. split; [done|]. exists l, current, chain, ranged.
         split; [done|]. split; [done|]. by exists response. }
    apply IH; [by eapply followed_redirect| |lia|lia].
    rewrite zlen_app. change (zlen [next]) with 1. lia.
  - destruct (_ && _) eqn:E416.
    + apply andb_true_iff in E416 as [E416%Z.eqb_eq ->]. apply IH; [by apply followed_refusal|done|lia|lia].
    + apply prog_bind. eapply prog_mono; [apply conclude_wp; [done|lia|done|]| |done].
      * intros E. destruct ranged; [|done]. rewrite E in E416. done.
      * intros r l' Hr _. apply prog_ret; [done|]. by exists r.
Qed.

(** C21: A probe believes nothing but what it observed (I-6).  Whatever the server answers, a probe
    ends: it follows at most [max_redirects] redirects, each recorded in the chain, and gives up
    the probe range at most once.  Every request asks for no content encoding.  A description is
    given only for a 200 or a 206 that is no web page; ranges are proven only by a 206 to the probe
    range that delivered exactly its one byte, and its complete length is then the file's; each
    error states what was observed. *)
Theorem probe_believes_evidence request l o :
  0 ≤ pr_max_redirects request →
  exec (probe (Mime := Mime) request) [] l (Some o) →
  ∃ r, o = Some r ∧ probe_result request l r.
Proof.
  intros Hm Hx. refine (prog_sound _ (λ o l, ∃ r, o = Some r ∧ probe_result request l r) (λ _, True)
    _ _ _ _ Hx).
  apply probe_loop_wp; [constructor|done|lia|]. unfold probe_fuel. lia.
Qed.
End probing.

(** ** What a fetch wrote *)

Section fetching.
Context {Url Mime : Type} `{UrlJoin Url, HeaderText, ParseMime Mime, PercentEncoding, UrlPath Url}.
Implicit Types (request : RangeRequest Url) (response : Response) (l : log Url).

(** The request sent, and its answer. *)
Definition fetched request (answer : result Response NetError) : entry Url :=
  Sent (MkHttpRequest (rr_url request)
          (request_headers (rr_range request) (rr_if_range request) (rr_headers request))
          (rr_timeout request)) answer.

(** A response that may be written for this request. *)
Definition admitted request response (content_range : option ContentRange) : Prop :=
  (rs_status response = 200 ∨ rs_status response = 206) ∧
  (rr_if_range request ≠ None → rs_status response = 206) ∧
  refused_encoding (response_header response "content-encoding") = None ∧
  match rr_range request with
  | Some requested =>
      rs_status response = 206 ∧ ∃ header first last total,
        response_header response "content-range" = Some header ∧
        from_str header = Ok (Bytes first last (Some total)) ∧
        content_range = Some (Bytes first last (Some total)) ∧
        first ≤ last < total ∧ first = asked_first requested total ∧
        ∀ b, first ≤ b ≤ last → asked requested total b
  | None => content_range = None
  end.

Definition wf_range_request request : Prop :=
  match rr_range request with Some requested => wf_request requested | None => True end.

Lemma admit_status_spec request response :
  admit_status request response = Ok tt ↔
  (rs_status response = 200 ∨ rs_status response = 206) ∧
  (rr_if_range request ≠ None → rs_status response = 206).
Proof.
  unfold admit_status. destruct (rr_if_range request) as [validator|].
  - destruct (Z.eqb_spec (rs_status response) 206) as [E|]; cbn [negb].
    + rewrite E. cbn. split; [|done]. intros _. split; [by right|done].
    + split; [done|]. intros [_ Hs]. by specialize (Hs ltac:(done)).
  - destruct (Z.eqb_spec (rs_status response) 200), (Z.eqb_spec (rs_status response) 206);
      cbn; split; try done; try tauto; intros [[?|?] _]; done.
Qed.

Lemma admit_response_spec request response content_range :
  wf_range_request request →
  admit_response request response = Ok content_range → admitted request response content_range.
Proof.
  intros Hwf. unfold admit_response, admitted.
  destruct (admit_status request response) as [[]|] eqn:Es; [|done].
  apply admit_status_spec in Es as [Hs Hif]. split; [done|]. split; [done|].
  unfold admit_range, wf_range_request in *. destruct (rr_range request) as [requested|].
  - destruct (from_observed_response _ _ _ _ _) as [p|] eqn:E; [|done].
    match goal with Ha : _ = Ok content_range |- _ => injection Ha as <- end.
    apply from_observed_response_spec in E as
      (H206 & Henc & header & first & last & total & Hh & Hf & Hc & _ & ->); [|done].
    split; [done|]. split; [done|]. exists header, first, last, total.
    pose proof (from_str_wf _ _ Hf) as Hwf'. apply consistent_spec in Hc; [|done..].
    cbn in Hwf'. split; [done|]. split; [done|]. split; [done|]. split; [lia|].
    destruct requested; cbn in Hc |- *; (split; [tauto|]); intros; ulia.
  - destruct (refused_encoding _); [done|].
    match goal with Ha : _ = Ok content_range |- _ => by injection Ha as <- end.
Qed.

(** [l] is a body being read: the chunks that arrived, each accepted but the empty ones, and
    [bytes] what they hold. *)
Inductive delivering (declared_type : option str) : nat → log Url → list byte → Prop :=
| delivering_start : delivering declared_type 0 [] []
| delivering_empty n l bytes :
    delivering declared_type n l bytes →
    delivering declared_type (S n) (l ++ [Chunked (Ok (Some []))]) bytes
| delivering_chunk n l bytes chunk :
    delivering declared_type n l bytes → chunk ≠ [] →
    (bytes = [] → body_looks_like_a_web_page declared_type chunk = false) →
    delivering declared_type (S n) (l ++ [Chunked (Ok (Some chunk)); Accepted chunk (Ok tt)])
      (bytes ++ chunk).

(** How a body ended, or where it stands after [fuel] chunks. *)
Definition body_end (fuel : nat) request response (content_range : option ContentRange) (rest : log Url)
    (r : option (result RangeOutcome (TransferError Url))) : Prop :=
  let declared_type := response_header response "content-type" in
  let url := rr_url request in
  ∃ n l bytes, delivering declared_type n l bytes ∧ (n ≤ fuel)%nat ∧
  let delivered := Z.min (zlen bytes) u64_max in
  match r with
  | None => rest = l ∧ n = fuel
  | Some (Ok outcome) =>
      rest = l ++ [Chunked (Ok None)] ∧ outcome = outcome_of response content_range delivered
  | Some (Err e) =>
      (∃ source, rest = l ++ [Chunked (Err source)] ∧
         e = chunk_error url (promised response content_range) delivered source) ∨
      (∃ chunk, chunk ≠ [] ∧ bytes = [] ∧ rest = l ++ [Chunked (Ok (Some chunk))] ∧
         body_looks_like_a_web_page declared_type chunk = true ∧
         e = TransferLooksLikeAnErrorPage url (default [] declared_type)) ∨
      (∃ chunk source, chunk ≠ [] ∧
         rest = l ++ [Chunked (Ok (Some chunk)); Accepted chunk (Err source)] ∧
         e = sink_error url source)
  end.

(** Where a body may be interrupted. *)
Definition body_so_far response (rest : log Url) : Prop :=
  ∃ n l bytes, delivering (response_header response "content-type") n l bytes ∧
  (rest = l ∨ (∃ answer, rest = l ++ [Chunked answer]) ∨
   ∃ chunk answer, chunk ≠ [] ∧
     (bytes = [] → body_looks_like_a_web_page (response_header response "content-type") chunk = false) ∧
     rest = l ++ [Chunked (Ok (Some chunk)); Accepted chunk answer]).

Definition fetch_result (fuel : nat) request l (r : option (result RangeOutcome (TransferError Url)))
    : Prop :=
  ∃ answer rest, l = fetched request answer :: rest ∧
  match answer with
  | Err source => rest = [] ∧
      r = Some (Err (if is_timeout source then TransferTimeout (rr_url request) 0
                     else TransferTransport (rr_url request) source))
  | Ok response =>
      match admit_response request response with
      | Err e => rest = [] ∧ r = Some (Err e)
      | Ok content_range =>
          admitted request response content_range ∧
          body_end fuel request response content_range rest r
      end
  end.

Definition fetch_so_far request l : Prop :=
  l = [] ∨ ∃ answer rest, l = fetched request answer :: rest ∧
  match answer with
  | Ok response =>
      rest = [] ∨ ∃ content_range, admitted request response content_range ∧
        body_so_far response rest
  | Err _ => rest = []
  end.

Lemma fetch_step {A X} (e : either (http_call Url) sink_op X) (k : X → prog _ A) Q S l :
  S l →
  (∀ x, wp (k x) Q S (l ++ match e with Left_ e => http_entry e x | Right_ e => sink_entry e x end)) →
  wp (Vis e k) Q S l.
Proof. intros HS Hk. apply prog_vis; [done|]. intros x w' Hd. cbv in Hd. subst. apply Hk. Qed.

Lemma saturating_count bytes chunk :
  saturating_add64 (Z.min (zlen bytes) u64_max) (zlen (A := byte) chunk) =
  Z.min (zlen (bytes ++ chunk)) u64_max.
Proof.
  unfold saturating_add64. rewrite zlen_app. pose proof (zlen_nonneg bytes).
  pose proof (zlen_nonneg chunk). lia.
Qed.

Lemma count_zero (bytes : list byte) : Z.min (zlen bytes) u64_max =? 0 = bool_decide (bytes = []).
Proof.
  destruct bytes as [|b bytes]; [done|]. rewrite bool_decide_eq_false_2 by done.
  apply Z.eqb_neq. rewrite zlen_cons. pose proof (zlen_nonneg bytes). ulia.
Qed.

(** The outcome of a fetch, from the bytes its body loop delivered. *)
Definition outcome_after response (content_range : option ContentRange)
    (delivered : option (result Z (TransferError Url)))
    : option (result RangeOutcome (TransferError Url)) :=
  match delivered with
  | None => None
  | Some (Err e) => Some (Err e)
  | Some (Ok delivered) => Some (Ok (outcome_of response content_range delivered))
  end.

Lemma fetch_loop_wp p fuel total request response content_range n l bytes :
  delivering (response_header response "content-type") n l bytes → (n + fuel = total)%nat →
  wp (fetch_loop fuel (rr_url request) (response_header response "content-type")
        (promised response content_range) (Z.min (zlen bytes) u64_max))
    (λ d w, ∃ rest, w = p ++ rest ∧
       body_end total request response content_range rest (outcome_after response content_range d))
    (λ w, ∃ rest, w = p ++ rest ∧ body_so_far response rest) (p ++ l).
Proof.
  revert n l bytes. induction fuel as [|fuel IH]; intros n l bytes Hd Hn; cbn [fetch_loop].
  { apply prog_ret; exists l; (split; [done|]); exists n, l, bytes; (split; [done|]); [by left|].
    split; [lia|]. split; [done|lia]. }
  apply fetch_step; [exists l; split; [done|]; exists n, l, bytes; split; [done|by left]|].
  intros [[chunk|]|source]; cbn [http_entry]; rewrite <- app_assoc.
  - assert (Hstop : ∃ rest, p ++ l ++ [Chunked (Ok (Some chunk))] = p ++ rest ∧
      body_so_far response rest).
    { eexists. split; [done|]. exists n, l, bytes. split; [done|]. right. left. by eexists. }
    case_bool_decide as Hc.
    { subst chunk. apply (IH (S n)); [by constructor|lia]. }
    rewrite count_zero. destruct (bool_decide (bytes = []) && _) eqn:Epage.
    { apply andb_true_iff in Epage as [Hb%bool_decide_eq_true Hp]. apply prog_ret; [done|].
      eexists. split; [done|]. exists n, l, bytes. split; [done|]. split; [lia|].
      right. left. by exists chunk. }
    assert (Hpage : bytes = [] →
      body_looks_like_a_web_page (response_header response "content-type") chunk = false).
    { intros ->. exact Epage. }
    apply fetch_step; [done|]. intros [[]|source]; cbn [sink_entry]; rewrite <- !app_assoc; cbn [app].
    + rewrite saturating_count. apply (IH (S n)); [by constructor|lia].
    + apply prog_ret.
      * eexists. split; [done|]. exists n, l, bytes. split; [done|]. right. right. eauto.
      * eexists. split; [done|]. exists n, l, bytes. split; [done|]. split; [lia|].
        right. right. eauto.
  - apply prog_ret; (eexists; split; [done|]); exists n, l, bytes; (split; [done|]).
    + right. left. by eexists.
    + split; [lia|done].
  - apply prog_ret; (eexists; split; [done|]); exists n, l, bytes; (split; [done|]).
    + right. left. by eexists.
    + split; [lia|]. left. eauto.
Qed.

Lemma fetch_range_wp fuel request :
  wf_range_request request →
  wp (fetch_range fuel request) (λ r l, fetch_result fuel request l r) (fetch_so_far request) [].
Proof.
  intros Hwf. unfold fetch_range. apply fetch_step; [by left|]. intros [response|source]; cbn [app].
  2: { apply prog_ret; [right|]; by eexists _, []. }
  assert (Hstop : fetch_so_far request [fetched request (Ok response)]).
  { right. eexists _, []. split; [done|]. by left. }
  destruct (admit_response request response) as [content_range|e] eqn:Ea.
  2: { apply prog_ret; [done|]. eexists _, []. split; [done|]. cbv beta iota. by rewrite Ea. }
  pose proof (admit_response_spec _ _ _ Hwf Ea) as Had. apply prog_bind.
  eapply prog_mono; [apply (fetch_loop_wp [fetched request (Ok response)] fuel fuel request response
                       content_range 0 [] []); [constructor|done]|..]; cbn [app].
  - intros d w (rest & -> & Hb) Hs. apply prog_ret.
    + destruct Hs as (rest' & [= <-] & Hso). right. eexists _, rest. split; [done|]. right. eauto.
    + eexists _, rest. split; [done|]. cbv beta iota. by rewrite Ea.
  - intros w (rest & -> & Hso). right. eexists _, rest. split; [done|]. right. eauto.
Qed.

(** The bytes the sink was given, and those it accepted. *)
Definition offered l : list byte :=
  concat (omap (λ e, match e with Accepted bytes _ => Some bytes | _ => None end) l).
Definition arrived l : list byte :=
  concat (omap (λ e, match e with Chunked (Ok (Some bytes)) => Some bytes | _ => None end) l).

Lemma offered_app l l' : offered (l ++ l') = offered l ++ offered l'.
Proof. unfold offered. by rewrite omap_app, concat_app. Qed.
Lemma arrived_app l l' : arrived (l ++ l') = arrived l ++ arrived l'.
Proof. unfold arrived. by rewrite omap_app, concat_app. Qed.

Lemma delivering_bytes declared_type n l bytes :
  delivering declared_type n l bytes → offered l = bytes ∧ arrived l = bytes.
Proof.
  induction 1 as [|n l bytes _ [IH1 IH2]|n l bytes chunk _ [IH1 IH2] _ _]; [done|..];
    rewrite offered_app, arrived_app, IH1, IH2; cbn; rewrite ?app_nil_r; done.
Qed.

(** The sink gets the bytes of the body in order, each chunk before the next is read. *)
Lemma body_so_far_bytes response rest :
  body_so_far response rest → offered rest `prefix_of` arrived rest.
Proof.
  intros (n & l & bytes & Hd & Hrest). apply delivering_bytes in Hd as [Ho Ha].
  destruct Hrest as [->|[(answer & ->)|(chunk & answer & _ & _ & ->)]];
    rewrite ?offered_app, ?arrived_app, Ho, Ha; cbn; rewrite ?app_nil_r; [done| |done].
  by apply prefix_app_r.
Qed.

(** What starts a body that is written is no web page. *)
Lemma body_so_far_page response rest :
  body_so_far response rest → offered rest ≠ [] →
  ∃ chunk suffix, chunk ≠ [] ∧ offered rest = chunk ++ suffix ∧
    body_looks_like_a_web_page (response_header response "content-type") chunk = false.
Proof.
  intros (n & l & bytes & Hd & Hrest) Hne.
  assert (Hfirst : bytes ≠ [] → ∃ chunk suffix, chunk ≠ [] ∧ bytes = chunk ++ suffix ∧
    body_looks_like_a_web_page (response_header response "content-type") chunk = false).
  { clear Hrest. induction Hd as [|n l bytes _ IH|n l bytes chunk _ IH Hc Hp]; intros Hb;
      [done|by apply IH|].
    destruct (decide (bytes = [])) as [->|Hbs]; [exists chunk, []; rewrite app_nil_r; auto|].
    destruct (IH Hbs) as (c & suffix & ? & -> & ?). exists c, (suffix ++ chunk).
    by rewrite app_assoc. }
  apply delivering_bytes in Hd as [Ho _].
  destruct Hrest as [->|[(answer & ->)|(chunk & answer & Hc & Hp & ->)]];
    rewrite ?offered_app, Ho in Hne |- *; cbn [offered omap list_omap concat] in Hne |- *;
    rewrite ?app_nil_r in Hne |- *; [by apply Hfirst..|].
  destruct (decide (bytes = [])) as [->|Hbs]; [exists chunk, []; cbn; rewrite app_nil_r; auto|].
  destruct (Hfirst Hbs) as (c & suffix & ? & -> & ?). exists c, (suffix ++ chunk).
  by rewrite app_assoc.
Qed.

(** C22: Nothing is written unless the response was proven to be what was asked for (I-3, I-5).
    Stop a fetch anywhere, whatever the server answers.  It sent exactly one request, with the
    range and the validator it was given and asking for no encoding.  If a byte was offered to the
    sink, the response had been admitted: a 206 for a resume, no content encoding, a content range
    that starts at the first byte asked for and encloses only bytes asked for, and a first chunk
    that is no web page; and what was offered is the body, in order. *)
Theorem writes_only_what_was_proven fuel request l o :
  wf_range_request request → exec (fetch_range fuel request) [] l o →
  Forall (λ e, match e with Sent rq _ => head l = Some e ∧ ∃ answer, e = fetched request answer
                          | _ => True end) l ∧
  offered l `prefix_of` arrived l ∧
  (offered l ≠ [] → ∃ response content_range chunk suffix,
     head l = Some (fetched request (Ok response)) ∧ admitted request response content_range ∧
     chunk ≠ [] ∧ offered l = chunk ++ suffix ∧
     body_looks_like_a_web_page (response_header response "content-type") chunk = false).
Proof.
  intros Hwf Hx. assert (Hs : fetch_so_far request l).
  { eapply prog_sound in Hx; [|by eapply prog_mono; [apply fetch_range_wp|intros r w _ Hs; exact Hs|done]].
    by destruct o. }
  destruct Hs as [->|(answer & rest & -> & Hrest)]; [done|].
  assert (Hone : rest = [] → ∀ P : Prop,
    Forall (λ e, match e with Sent rq _ => head [fetched request answer] = Some e ∧
                    ∃ answer, e = fetched request answer | _ => True end) [fetched request answer] ∧
    offered [fetched request answer] `prefix_of` arrived [fetched request answer] ∧
    (offered [fetched request answer] ≠ [] → P)).
  { intros _ P. split; [constructor; [split; [done|by eexists]|done]|]. split; [done|]. intros Hn. exfalso. by apply Hn. }
  destruct answer as [response|source]; [|subst rest; by apply Hone].
  destruct Hrest as [->|(content_range & Had & Hb)]; [by apply Hone|].
  split; [|split; [exact (body_so_far_bytes _ _ Hb)|]].
  - constructor; [split; [done|by eexists]|]. apply Forall_forall.
    destruct Hb as (n & l & bytes & Hd & Hrest). assert (Hq : ∀ e, e ∈ l → ∀ rq a, e ≠ Sent rq a).
    { clear Hrest. induction Hd as [|n l bytes _ IH|n l bytes chunk _ IH _ _]; intros e;
        rewrite ?elem_of_app, ?elem_of_cons; [by intros ?%elem_of_nil|..];
        intros [He|He]; try (by apply IH); destruct_or?; subst; try done; by apply elem_of_nil in He. }
    intros e He. destruct e as [rq a|a|a|a|bs a]; try done. exfalso.
    destruct Hrest as [->|[(x & ->)|(c & x & _ & _ & ->)]]; [by eapply Hq|..];
      apply elem_of_app in He as [He|He]; [by eapply Hq| |by eapply Hq|];
      repeat (apply elem_of_cons in He as [?|He]; [done|]); by apply elem_of_nil in He.
  - intros Hne. destruct (body_so_far_page _ _ Hb Hne) as (chunk & suffix & ? & ? & ?).
    by exists response, content_range, chunk, suffix.
Qed.

(** What a fetch returns is what happened.  A fetch ends, unless the body has more than
    [fuel] chunks, in which case that many were written.  It succeeds exactly when an admitted
    body ended, reporting the bytes the sink accepted, the observed range and whether the response
    had promised more; and each failure is the one observed: before anything was written for a
    failed request or a refused response, and afterwards with the count of what was delivered. *)
Theorem fetch_outcome_exact fuel request l r :
  wf_range_request request → exec (fetch_range fuel request) [] l (Some r) →
  fetch_result fuel request l r ∧
  match r with
  | Some (Ok outcome) =>
      ro_bytes_delivered outcome = Z.min (zlen (offered l)) u64_max ∧ offered l = arrived l
  | Some (Err (TruncatedBody _ expected delivered)) =>
      delivered = Z.min (zlen (offered l)) u64_max ∧ delivered < expected
  | Some (Err (TransferTimeout _ delivered)) => delivered = Z.min (zlen (offered l)) u64_max
  | Some (Err (TransferUnexpectedStatus _ _ _ | ValidatorMismatch _ _ _ _ |
               UnusableRangeResponse _ _ | TransferLooksLikeAnErrorPage _ _)) => offered l = []
  | _ => True
  end.
Proof.
  intros Hwf Hx. assert (Hr : fetch_result fuel request l r).
  { eapply prog_sound in Hx; [|by apply fetch_range_wp]. done. }
  split; [done|]. destruct Hr as (answer & rest & -> & Hr). destruct answer as [response|source].
  2: { destruct Hr as [-> ->]. by destruct (is_timeout source). }
  destruct (admit_response request response) as [content_range|e] eqn:Ea.
  2: { destruct Hr as [-> ->]. unfold admit_response, admit_status, admit_range in Ea.
       repeat case_match; simplify_eq; done. }
  destruct Hr as (_ & n & l & bytes & Hd & _ & Hr). cbv zeta in Hr.
  apply delivering_bytes in Hd as [Ho Hb].
  change (offered (fetched request (Ok response) :: rest)) with (offered rest).
  change (arrived (fetched request (Ok response) :: rest)) with (arrived rest).
  destruct r as [[outcome|e]|]; [|destruct Hr as [Hr|[Hr|Hr]]|done].
  - destruct Hr as [-> ->]. rewrite offered_app, arrived_app, Ho, Hb. cbn. by rewrite !app_nil_r.
  - destruct Hr as (source & -> & ->). rewrite offered_app, Ho. cbn. rewrite app_nil_r.
    unfold chunk_error. destruct (is_timeout source); [done|].
    destruct (promised _ _) as [expected|]; [|done].
    by destruct (Z.ltb_spec (Z.min (zlen bytes) u64_max) expected).
  - destruct Hr as (chunk & _ & -> & -> & _ & ->). by rewrite offered_app, Ho.
  - destruct Hr as (chunk & source & _ & -> & ->). unfold sink_error. by destruct source.
Qed.
End fetching.

(** ** Two runs *)

Module Example_http.
Definition Url : Type := str.
#[local] Instance join_absolute : UrlJoin Url := λ _ location, Some location.
#[local] Instance header_text : HeaderText := λ value, Some (map byte_val value).
#[local] Instance mime_text : ParseMime str := Some.
#[local] Instance plain : PercentEncoding := map byte_of.
#[local] Instance path : UrlPath Url := λ url, Some (split 47 url).

Definition headers (l : list (string * string)) (name : str) : option (list byte) :=
  option_map (λ '(_, value), map byte_of (lit value))
    (List.find (λ '(n, _), bool_decide (lit n = name)) l).
Definition start : Url := lit "http://a/f".
Definition target : Url := lit "http://b/file.bin".

Definition moved : Response :=
  MkResponse 302 HTTP_11 (headers [("location", "http://b/file.bin")])%string.
Definition first_byte : Response :=
  MkResponse 206 HTTP_11 (headers [("content-range", "bytes 0-0/10"); ("etag", "'v1'")])%string.
Definition request : ProbeRequest Url := ProbeRequest_new start.
Definition found : RemoteObject (Url := Url) (Mime := str) :=
  remote_of first_byte target [start; target] (Some 10)
    (Proven (MkProof 10 (Bytes 0 0 (Some 10)) PROBE_RANGE
       (RangeObservation_new PROBE_RANGE 206 (Some (lit "bytes 0-0/10")) None 1))) 7.
Definition probe_log : log Url :=
  [probed request start true (Ok moved); probed request target true (Ok first_byte);
   Bodied (Ok [x2a]); Clocked 7].

Lemma probe_run : exec (probe request) [] probe_log (Some (Some (Ok found))).
Proof.
  eapply exec_call with (x := Ok moved); [reflexivity|].
  eapply exec_call with (x := Ok first_byte); [reflexivity|].
  eapply exec_call with (x := Ok [x2a]); [reflexivity|].
  eapply exec_call with (x := 7); [reflexivity|].
  vm_compute. split; [reflexivity|by left].
Qed.

Example probe_believes_evidence_witness :
  ∃ r, Some (Ok found) = Some r ∧ probe_result request probe_log r.
Proof.
  apply (probe_believes_evidence request probe_log (Some (Ok found))); [vm_compute; discriminate|].
  exact probe_run.
Defined.

(** Resuming at byte 4: six bytes arrive in one chunk. *)
Definition resumed : RangeRequest Url := resume target (From 4) (lit "v1").
Definition rest_of_file : Response :=
  MkResponse 206 HTTP_11 (headers [("content-range", "bytes 4-9/10")])%string.
Definition six : list byte := [x01; x02; x03; x04; x05; x06].
Definition fetch_log : log Url :=
  [fetched resumed (Ok rest_of_file); Chunked (Ok (Some six)); Accepted six (Ok tt);
   Chunked (Ok None)].
Definition outcome : RangeOutcome :=
  MkOutcome 6 206 (Some (Bytes 4 9 (Some 10))) Http11 false.

Lemma fetch_run : exec (fetch_range 3 resumed) [] fetch_log (Some (Some (Ok outcome))).
Proof.
  eapply exec_call with (x := Ok rest_of_file); [reflexivity|].
  eapply exec_call with (x := Ok (Some six)); [reflexivity|].
  eapply exec_call with (x := Ok tt); [reflexivity|].
  eapply exec_call with (x := Ok None); [reflexivity|].
  vm_compute. split; [reflexivity|by left].
Qed.

Example writes_only_what_was_proven_witness :
  offered fetch_log ≠ [] ∧ ∃ response content_range chunk suffix,
    head fetch_log = Some (fetched resumed (Ok response)) ∧
    admitted resumed response content_range ∧ chunk ≠ [] ∧ offered fetch_log = chunk ++ suffix ∧
    body_looks_like_a_web_page (response_header response "content-type") chunk = false.
Proof.
  split; [discriminate|].
  apply (writes_only_what_was_proven 3 resumed fetch_log (Some (Some (Ok outcome))));
    [vm_compute; split; [discriminate|reflexivity]|exact fetch_run|discriminate].
Defined.

Example fetch_outcome_exact_witness :
  fetch_result 3 resumed fetch_log (Some (Ok outcome)) ∧ offered fetch_log = arrived fetch_log.
Proof.
  destruct (fetch_outcome_exact 3 resumed fetch_log (Some (Ok outcome))
    ltac:(vm_compute; split; [discriminate|reflexivity]) fetch_run) as (Hr & _ & Hb).
  split; [exact Hr|exact Hb].
Defined.

(** A body sent as a file that starts like a page is refused before the sink sees it. *)
Example page_refused :
  body_looks_like_a_web_page (Some (lit "application/octet-stream"))
    (map byte_of (lit " <!DOCTYPE html><p>Log in")) = true.
Proof. reflexivity. Qed.
End Example_http.

End Http.
