(* ===== verification/Retry.v ===== *)
(** * [downpour-http/src/retry.rs] and [downpour-http/src/probe.rs]: when to try again

    The retry budget and its back-off curve, the per-origin book-keeping, and the decision when
    recorded capability evidence has to be probed anew.  Durations and times are nanoseconds. *)

From S2P Require Import Prelude Str ContentRange Remote.
From Stdlib Require Import String.
From stdpp Require Import list gmap.
#[local] Open Scope Z_scope.

Module Retry.
Import Str.Str Remote.Remote.

Inductive TransientKind :=
| ConnectionReset
| Timeout
| RateLimited
| ServiceUnavailable
| ServerError
| TruncatedBody
| NotRetryable.
#[export] Instance TransientKind_eq_dec : EqDecision TransientKind.
Proof. solve_decision. Defined.

Definition from_status (status : Z) : option TransientKind :=
  if (status =? 401) || (status =? 403) || (status =? 410) then None
  else if status =? 408 then Some Timeout
  else if status =? 429 then Some RateLimited
  else if status =? 503 then Some ServiceUnavailable
  else if (500 <=? status) && (status <=? 599) then Some ServerError
  else if (400 <=? status) && (status <=? 499) then Some NotRetryable
  else None.

Definition is_retryable (kind : TransientKind) : bool := negb (bool_decide (kind = NotRetryable)).

Inductive RetryDecision :=
| RetryAfter (delay : Z)
| GiveUp.

(** [std::time::Duration]: at most [u64::MAX] whole seconds. *)
Definition NANOS_PER_SEC : Z := 1000000000.
Definition NANOS_PER_MILLI : Z := 1000000.
Definition duration_modulus : Z := u64_modulus * NANOS_PER_SEC.
Definition from_millis (n : Z) : Z := n * NANOS_PER_MILLI.
Definition from_secs (n : Z) : Z := n * NANOS_PER_SEC.
Definition duration (d : Z) : Prop := 0 ≤ d < duration_modulus.

Record RetryPolicy := MkPolicy {
  max_retries : Z;
  base_delay : Z;
  max_delay : Z;
  max_server_delay : Z;
}.

Definition default_policy : RetryPolicy :=
  MkPolicy 5 (from_millis 500) (from_secs 30) (from_secs 3600).
Definition fast_for_tests : RetryPolicy :=
  MkPolicy 5 (from_millis 10) (from_millis 50) (from_secs 3600).

(** [Duration::checked_mul]. *)
Definition duration_checked_mul (d n : Z) : option Z :=
  if d * n <? duration_modulus then Some (d * n) else None.

(** [jitter] is the sub-second part of the clock. *)
Definition backoff (p : RetryPolicy) (attempt jitter : Z) : Z :=
  let exponential :=
    Z.min (default (max_delay p)
             (duration_checked_mul (base_delay p) (Z.shiftl 1 (Z.min attempt 16))))
          (max_delay p) in
  let millis := Z.min (exponential / NANOS_PER_MILLI) u64_max in
  let half := millis / 2 in
  let spread := if half =? 0 then 0 else jitter mod (Z.max half 1) in
  from_millis (Z.max (saturating_add64 half spread) 1).

(** [httpdate] is another package: the time an HTTP-date names. *)
Class HttpDate := parse_http_date : str → option Z.

Section retry_after.
Context `{HttpDate}.

Definition parse_retry_after (value : str) (now : Z) : option Z :=
  let trimmed := trim value in
  if bool_decide (trimmed = []) then None
  else if forallb is_ascii_digit trimmed
  then option_map from_secs (parse_u64 trimmed)
  else option_map (λ at_, Z.max (at_ - now) 0) (parse_http_date trimmed).

(** The clock is read for the header's date and for the jitter. *)
Definition decide (p : RetryPolicy) (kind : TransientKind) (attempt : Z)
    (retry_after : option str) (now jitter : Z) : RetryDecision :=
  if negb (is_retryable kind) || (max_retries p <=? attempt) then GiveUp else
  match retry_after ≫= λ header, parse_retry_after header now with
  | Some requested => RetryAfter (Z.min requested (max_server_delay p))
  | None => RetryAfter (backoff p attempt jitter)
  end.
End retry_after.

(** ** Per-origin book-keeping *)

Definition RetryState : Type := gmap str Z.
Definition attempts (s : RetryState) (origin : str) : Z := default 0 (s !! origin).
Definition record_failure (s : RetryState) (origin : str) : Z * RetryState :=
  let counter := saturating_add32 (attempts s origin) 1 in
  (counter, <[origin := counter]> s).
Definition reset (s : RetryState) (origin : str) : RetryState := delete origin s.

(** ** Re-probing *)

Definition CAPABILITY_FRESHNESS : Z := from_secs (15 * 60).

Section reprobe.
Context {Url Mime : Type} `{EqDecision Url}.

Inductive ReprobeTrigger :=
| RefreshedUrlSupplied (url : Url)
| FinalUrlChanged (recorded planned : Url)
| StatusContradictsCapabilities (status : Z) (reason : string)
| FreshnessWindowElapsed (elapsed window : Z).

Record ResumePlan := MkPlan {
  rp_recorded : RemoteObject (Url := Url) (Mime := Mime);
  rp_now : Z;
  rp_planned_url : Url;
  rp_refreshed_url : option Url;
  rp_last_observed_status : option Z;
}.

Record ReprobePolicy := MkReprobe { freshness : Z }.
Definition default_reprobe : ReprobePolicy := MkReprobe CAPABILITY_FRESHNESS.

Definition contradiction (status : Z) (range_support : RangeSupport) : option string :=
  if (status =? 200) && is_proven range_support
  then Some "range support was proven but the server answered a ranged request with 200"%string
  else if status =? 416
  then Some "the server rejected a range the recorded length says exists"%string
  else if (status =? 401) || (status =? 403) || (status =? 410)
  then Some "the URL or credential that produced the recorded evidence no longer applies"%string
  else None.

Definition triggers (policy : ReprobePolicy) (plan : ResumePlan) : list ReprobeTrigger :=
  let recorded := rp_recorded plan in
  let elapsed :=
    if ro_probed_at recorded <=? rp_now plan then rp_now plan - ro_probed_at recorded
    else freshness policy + 1 in
  match rp_refreshed_url plan with Some url => [RefreshedUrlSupplied url] | None => [] end ++
  (if bool_decide (rp_planned_url plan = ro_final_url recorded) then []
   else [FinalUrlChanged (ro_final_url recorded) (rp_planned_url plan)]) ++
  match rp_last_observed_status plan with
  | Some status =>
      match contradiction status (ro_range_support recorded) with
      | Some reason => [StatusContradictsCapabilities status reason]
      | None => []
      end
  | None => []
  end ++
  (if freshness policy <? elapsed then [FreshnessWindowElapsed elapsed (freshness policy)] else []).

Definition is_required (policy : ReprobePolicy) (plan : ResumePlan) : bool :=
  match triggers policy plan with [] => false | _ => true end.
End reprobe.
Arguments ReprobeTrigger Url : clear implicits.
Arguments ResumePlan Url Mime : clear implicits.

(** ** The curve *)

(** Delays that fit milliseconds, up to half a billion years. *)
Record wf_policy (p : RetryPolicy) : Prop := {
  wp_retries : u32 (max_retries p);
  wp_base : 0 ≤ base_delay p;
  wp_max : 0 ≤ max_delay p < u64_modulus * NANOS_PER_MILLI;
}.

(** The nominal delay of an attempt: doubled each time, capped. *)
Definition nominal (p : RetryPolicy) (attempt : Z) : Z :=
  Z.min (base_delay p * 2 ^ Z.min attempt 16) (max_delay p).

(** Half the nominal delay, in milliseconds. *)
Definition half_window (p : RetryPolicy) (attempt : Z) : Z :=
  nominal p attempt / NANOS_PER_MILLI / 2.

Lemma nominal_range p attempt :
  wf_policy p → 0 ≤ attempt → 0 ≤ nominal p attempt ≤ max_delay p.
Proof.
  intros [_ Hb Hm] Ha. unfold nominal.
  pose proof (Z.pow_pos_nonneg 2 (Z.min attempt 16) ltac:(lia) ltac:(lia)).
  assert (0 ≤ base_delay p * 2 ^ Z.min attempt 16) by nia. lia.
Qed.

Lemma half_window_range p attempt :
  wf_policy p → 0 ≤ attempt →
  0 ≤ half_window p attempt ∧ 2 * half_window p attempt ≤ nominal p attempt / NANOS_PER_MILLI ∧
  nominal p attempt / NANOS_PER_MILLI < u64_modulus.
Proof.
  intros Hp Ha. pose proof (nominal_range p attempt Hp Ha). destruct Hp as [_ _ Hm].
  unfold half_window. set (n := nominal p attempt) in *. set (ms := n / NANOS_PER_MILLI).
  assert (0 ≤ ms < u64_modulus).
  { unfold ms, NANOS_PER_MILLI in *. split; [apply Z.div_pos; lia|].
    apply Z.div_lt_upper_bound; lia. }
  pose proof (Z.div_mod ms 2 ltac:(lia)). pose proof (Z.mod_pos_bound ms 2 ltac:(lia)). lia.
Qed.

Lemma backoff_spec p attempt jitter :
  wf_policy p → 0 ≤ attempt → 0 ≤ jitter →
  let half := half_window p attempt in
  backoff p attempt jitter = from_millis (if half =? 0 then 1 else half + jitter mod half).
Proof.
  intros Hp Ha Hj. cbv zeta. pose proof (half_window_range p attempt Hp Ha) as (Hh & H2 & Hms).
  pose proof Hp as [_ Hb Hm].
  unfold backoff. rewrite Z.shiftl_1_l.
  assert (He : Z.min (default (max_delay p) (duration_checked_mul (base_delay p) (2 ^ Z.min attempt 16)))
    (max_delay p) = nominal p attempt).
  { unfold nominal, duration_checked_mul. set (x := base_delay p * 2 ^ Z.min attempt 16).
    assert (max_delay p < duration_modulus)
      by (unfold duration_modulus, NANOS_PER_SEC, NANOS_PER_MILLI in *; ulia).
    destruct (Z.ltb_spec x duration_modulus); cbn; lia. }
  rewrite He. clear He. rewrite (Z.min_l (nominal p attempt / NANOS_PER_MILLI)) by ulia.
  fold (half_window p attempt). set (h := half_window p attempt) in *.
  destruct (Z.eqb_spec h 0) as [->|Hne]; [done|]. f_equal. rewrite Z.max_l with (n := h) by lia.
  pose proof (Z.mod_pos_bound jitter h ltac:(lia)). unfold saturating_add64. ulia.
Qed.

(** ** The budget *)

(** The state after failures against these origins, in order. *)
Definition after_failures (origins : list str) : RetryState :=
  fold_left (λ s origin, snd (record_failure s origin)) origins ∅.

Definition failures_of (origin : str) (origins : list str) : Z :=
  zlen (filter (λ o, o = origin) origins).

Lemma attempts_record s origin o :
  attempts (snd (record_failure s origin)) o =
    if bool_decide (origin = o) then saturating_add32 (attempts s origin) 1 else attempts s o.
Proof.
  unfold record_failure, attempts, RetryState in *. cbn [snd]. case_bool_decide as Ho.
  - subst. by rewrite lookup_insert_eq.
  - by rewrite lookup_insert_ne.
Qed.

Lemma after_failures_attempts origins origin :
  attempts (after_failures origins) origin = Z.min (failures_of origin origins) u32_max.
Proof.
  unfold after_failures, failures_of.
  induction origins as [|o origins IH] using rev_ind; [done|].
  rewrite fold_left_app, filter_app, zlen_app. cbn [fold_left]. rewrite attempts_record.
  case_bool_decide as Ho.
  - subst. rewrite filter_cons_True, filter_nil, IH by done. unfold saturating_add32.
    change (zlen [origin]) with 1. lia.
  - rewrite filter_cons_False, filter_nil, IH by done. change (zlen []) with 0. f_equal. lia.
Qed.

(** C20: Retrying is bounded and spaced.  A failure is given up exactly when its kind cannot be
    retried or the budget of its origin is spent; failures elsewhere never count.  Otherwise the
    wait is the server's own, never shortened except by the ceiling, or lies in the upper half of
    the doubled and capped window (in milliseconds, at least one), and within the cap. *)
Theorem retries_bounded_and_spaced `{HttpDate} p kind origins origin retry_after now jitter :
  wf_policy p → max_retries p < u32_max → 0 ≤ jitter → 0 < failures_of origin origins →
  let attempt := saturating_sub64 (attempts (after_failures origins) origin) 1 in
  match decide p kind attempt retry_after now jitter with
  | GiveUp => kind = NotRetryable ∨ max_retries p < failures_of origin origins
  | RetryAfter delay =>
      kind ≠ NotRetryable ∧ failures_of origin origins ≤ max_retries p ∧
      match retry_after ≫= λ header, parse_retry_after header now with
      | Some requested =>
          delay = Z.min requested (max_server_delay p)
      | None =>
          let half := half_window p (failures_of origin origins - 1) in
          ∃ ms, delay = from_millis ms ∧ 1 ≤ ms ∧ (half ≤ ms < 2 * half ∨ half = 0 ∧ ms = 1) ∧
            delay ≤ Z.max (max_delay p) (from_millis 1)
      end
  end.
Proof.
  intros Hp Hmax Hj Hf. cbv zeta. rewrite after_failures_attempts.
  set (n := failures_of origin origins) in *.
  assert (Ha : saturating_sub64 (Z.min n u32_max) 1 = Z.min n u32_max - 1) by (unfold u32_max in *; ulia).
  rewrite Ha. unfold decide, is_retryable. case_bool_decide as Hk; cbn [negb orb]; [by left|].
  destruct (Z.leb_spec (max_retries p) (Z.min n u32_max - 1)); [right; lia|].
  destruct (retry_after ≫= _) as [requested|]; [split_and!; [done|lia|done]|].
  split; [done|]. split; [lia|].
  replace (Z.min n u32_max - 1) with (n - 1) by lia.
  rewrite backoff_spec by (done || lia).
  pose proof (half_window_range p (n - 1) Hp ltac:(lia)) as (Hh & H2 & _).
  pose proof (nominal_range p (n - 1) Hp ltac:(lia)) as [Hn0 Hn].
  set (h := half_window p (n - 1)) in *. destruct (Z.eqb_spec h 0) as [E|Hne].
  - exists 1. split_and!; [done|lia|by right|]. unfold from_millis. lia.
  - exists (h + jitter mod h). pose proof (Z.mod_pos_bound jitter h ltac:(lia)).
    split_and!; [done|lia|lia|]. unfold from_millis, NANOS_PER_MILLI in *.
    pose proof (Z.mul_div_le (nominal p (n - 1)) 1000000 ltac:(lia)). nia.
Qed.

(** ** When evidence is stale *)

Lemma contradiction_spec status support :
  contradiction status support = None ↔
  ¬ (status = 200 ∧ is_proven support = true) ∧ status ∉ [416; 401; 403; 410].
Proof.
  unfold contradiction. rewrite !not_elem_of_cons.
  destruct (Z.eqb_spec status 200), (is_proven support), (Z.eqb_spec status 416),
    (Z.eqb_spec status 401), (Z.eqb_spec status 403), (Z.eqb_spec status 410); subst; cbn;
    split; intros; try done; try (split_and!; try done; try (by intros [? ?]); apply not_elem_of_nil);
    destruct_and?; try done; naive_solver.
Qed.

(** Evidence is kept exactly when no refreshed URL was supplied, the URL is the recorded one, the
    last status says nothing about capabilities, and the evidence is as young as the window. *)
Lemma reprobe_exact {Url Mime : Type} `{EqDecision Url} policy (plan : ResumePlan Url Mime) :
  is_required policy plan = false ↔
  rp_refreshed_url plan = None ∧ rp_planned_url plan = ro_final_url (rp_recorded plan) ∧
  (∀ status, rp_last_observed_status plan = Some status →
     contradiction status (ro_range_support (rp_recorded plan)) = None) ∧
  ro_probed_at (rp_recorded plan) ≤ rp_now plan ∧
  rp_now plan - ro_probed_at (rp_recorded plan) ≤ freshness policy.
Proof.
  unfold is_required, triggers. destruct (rp_refreshed_url plan); [by split; [|intros (? & _)]|].
  case_bool_decide as Hu; cbn [app]; [|by split; [|intros (_ & ? & _)]].
  assert (Hfresh : freshness policy <?
      (if ro_probed_at (rp_recorded plan) <=? rp_now plan
       then rp_now plan - ro_probed_at (rp_recorded plan) else freshness policy + 1) = false ↔
    ro_probed_at (rp_recorded plan) ≤ rp_now plan ∧
    rp_now plan - ro_probed_at (rp_recorded plan) ≤ freshness policy)
    by (repeat case_bool; bool_to_prop; lia).
  destruct (rp_last_observed_status plan) as [status|].
  - destruct (contradiction _ _) eqn:Ec; cbn [app].
    { split; [done|]. intros (_ & _ & Hs & _). rewrite (Hs _ eq_refl) in Ec. done. }
    destruct (_ <? _); [split; [done|]|split; [|done]].
    + intros (_ & _ & _ & Hf). by apply Hfresh in Hf.
    + intros _. split_and!; try done; [by intros ? [= <-]|by apply Hfresh..].
  - cbn [app]. destruct (_ <? _); [split; [done|]|split; [|done]].
    + intros (_ & _ & _ & Hf). by apply Hfresh in Hf.
    + intros _. split_and!; try done; by apply Hfresh.
Qed.

Module Example_retry.
#[local] Instance no_dates : HttpDate := λ _, None.

(** The default policy, at the third failure of an origin. *)
Definition origins : list str := [lit "https://a"; lit "https://b"; lit "https://a"; lit "https://a"].

Lemma default_wf : wf_policy default_policy.
Proof. split; vm_compute; [by split|discriminate|by split]. Qed.

Example retries_bounded_and_spaced_witness :
  decide default_policy Timeout 2 None 0 123456789 = RetryAfter (from_millis 1789) ∧
  failures_of (lit "https://a") origins ≤ max_retries default_policy.
Proof.
  split; [vm_compute; reflexivity|].
  exact (proj1 (proj2 (retries_bounded_and_spaced default_policy Timeout origins (lit "https://a") None 0
    123456789 default_wf eq_refl ltac:(lia) eq_refl))).
Defined.
End Example_retry.
End Retry.
