(* ===== verification/Completion.v ===== *)
(** * [downpour-storage/src/completion.rs]: verification before naming (invariant I-4)

    The check of a finished download and the one step that gives it its final name, as a program
    over the calls it makes: measuring and reading the part file, sealing the journal, renaming. *)

From S2P Require Import Prelude Intervals Io Format Writer Str Remote.
From Stdlib Require Import String.
From stdpp Require Import list.
#[local] Open Scope Z_scope.

Module Completion.
Import Io.Io Str.Str Remote.Remote Format.Format Writer.Writer Intervals.Intervals.

Definition VERIFY_BUFFER : nat := Z.to_nat (64 * 1024).
Definition MAX_DIGEST_BASE64 : Z := 128.

Inductive CompletionError :=
| CLengthMismatch (expected actual : Z)
| IncompleteCoverage (covered total gap : Z)
| DigestMismatch (algorithm : DigestAlgorithm)
| CompletionIo (operation : string) (source : Error)
| Seal (e : WriterError).

Inductive DigestOutcome :=
| NotOffered
| Verified (algorithm : DigestAlgorithm)
| Unusable (reason : string).

Record Sealed := MkSealed {
  sealed_final_path : string;
  sealed_final_blake3 : list byte;
  sealed_digest_checked : DigestOutcome;
}.

(** SHA-256 and SHA-512 ([sha2] crate) and standard base64 ([base64] crate). *)
Class ServerDigests := {
  sha256 : list byte → list byte;
  sha512 : list byte → list byte;
  base64_decode : str → option (list byte);
  sha256_len bs : length (sha256 bs) = 32%nat;
  sha512_len bs : length (sha512 bs) = 64%nat;
}.

(** ** The calls *)

Inductive prog (A : Type) :=
| Ret (a : A)
| Metadata (p : string) (k : result Z Error → prog A)
| OpenFile (p : string) (k : result reader Error → prog A)
| Append (record : FramedRecord) (k : result unit WriterError → prog A)
| SyncData (k : result unit WriterError → prog A)
| Rename (from to_ : string) (k : result unit Error → prog A).
Arguments Ret {A} a.
Arguments Metadata {A} p k.
Arguments OpenFile {A} p k.
Arguments Append {A} record k.
Arguments SyncData {A} k.
Arguments Rename {A} from to_ k.

Section completion.
Context `{Digest} `{ServerDigests}.

(** One step of [check_coverage]'s loop. *)
Definition coverage_step (acc : Z * option Z) (interval : Interval) : Z * option Z :=
  let '(covered, gap) := acc in
  if bool_decide (state interval = Complete)
  then (saturating_add64 covered (len interval), gap)
  else match gap with None => (covered, Some (start interval)) | Some _ => (covered, gap) end.

Definition check_coverage (m : IntervalMap) (total : Z) : result unit CompletionError :=
  let '(covered, gap) := fold_left coverage_step (intervals m) (0, None) in
  match gap with
  | Some gap => Err (IncompleteCoverage covered total gap)
  | None => if negb (covered =? total) then Err (IncompleteCoverage covered total covered) else Ok tt
  end.

(** The reading loop of [hash_file]; [fuel] bounds its turns. *)
Fixpoint hash_loop (fuel : nat) (file : reader) (blake : Hasher) (h256 h512 : option Hasher)
    : option (result (Hasher * option Hasher * option Hasher) Error) :=
  match fuel with
  | O => None
  | S fuel =>
      match read file VERIFY_BUFFER with
      | (Err e, _) => Some (Err e)
      | (Ok chunk, file) =>
          if bool_decide (chunk = []) then Some (Ok (blake, h256, h512))
          else
            let feed := option_map (λ h, update h chunk) in
            hash_loop fuel file (update blake chunk) (feed h256) (feed h512)
      end
  end.

Definition hash_fuel (file : reader) : nat := S (reader_size file).

Definition digest_is (a : DigestAlgorithm) (digest : option ContentDigest) : bool :=
  match digest with Some d => bool_decide (algorithm d = a) | None => false end.

(** What the two optional hashers computed: [map], [or_else]. *)
Definition server_digest (h256 h512 : option Hasher) : option (list byte) :=
  match h256 with
  | Some h => Some (sha256 (hashed h))
  | None => option_map (λ h, sha512 (hashed h)) h512
  end.

(** [hash_file]; [None] when the fuel runs out. *)
Definition hash_file (path : string) (digest : option ContentDigest)
    : prog (option (result (list byte * option (list byte)) CompletionError)) :=
  OpenFile path (λ opened,
    match opened with
    | Err source => Ret (Some (Err (CompletionIo "open the part file for verification" source)))
    | Ok file =>
        let h256 := if digest_is Sha256 digest then Some Hasher_new else None in
        let h512 := if digest_is Sha512 digest then Some Hasher_new else None in
        match hash_loop (hash_fuel file) file Hasher_new h256 h512 with
        | None => Ret None
        | Some (Err source) =>
            Ret (Some (Err (CompletionIo "read the part file for verification" source)))
        | Some (Ok (blake, h256, h512)) =>
            Ret (Some (Ok (finalize blake, server_digest h256 h512)))
        end
    end).

Definition expected_len (a : DigestAlgorithm) : Z :=
  match a with Sha256 => 32 | Sha512 => 64 end.

Definition decode_digest (digest : ContentDigest) : option (list byte) :=
  if MAX_DIGEST_BASE64 <? str_len (encoded digest) then None
  else
    match base64_decode (encoded digest) with
    | None => None
    | Some decoded => if zlen decoded =? expected_len (algorithm digest) then Some decoded else None
    end.

Definition constant_time_eq (left_ right_ : list byte) : bool :=
  if negb (zlen left_ =? zlen right_) then false
  else bool_decide
    (fold_left (λ diff ab, byte_or diff (byte_xor (fst ab) (snd ab))) (zip left_ right_) x00 = x00).

Definition seal_and_rename (part_path final_path : string) (final_blake3 : list byte)
    (digest_checked : DigestOutcome) (next_sequence : Z) : prog (result Sealed CompletionError) :=
  Append (FramedRecord_new next_sequence (Format.Sealed final_blake3)) (λ appended,
    match appended with
    | Err e => Ret (Err (Seal e))
    | Ok _ => SyncData (λ synced,
        match synced with
        | Err e => Ret (Err (Seal e))
        | Ok _ => Rename part_path final_path (λ renamed,
            match renamed with
            | Err source =>
                Ret (Err (CompletionIo "rename the verified part file to its final name" source))
            | Ok _ => Ret (Ok (MkSealed final_path final_blake3 digest_checked))
            end)
        end)
    end).

(** The judgement on the server's digest. *)
Definition digest_outcome (digest : option ContentDigest) (server : option (list byte))
    : result DigestOutcome CompletionError :=
  match digest, server with
  | None, _ => Ok NotOffered
  | Some offered, Some computed =>
      match decode_digest offered with
      | None =>
          Ok (Unusable "digest payload is not valid base64 of the algorithm's length")
      | Some expected =>
          if negb (constant_time_eq expected computed)
          then Err (DigestMismatch (algorithm offered)) else Ok (Verified (algorithm offered))
      end
  | Some _, None => Ok (Unusable "digest algorithm is not one this build can compute")
  end.

Fixpoint bind {A B} (p : prog A) (f : A → prog B) : prog B :=
  match p with
  | Ret a => f a
  | Metadata path k => Metadata path (λ r, bind (k r) f)
  | OpenFile path k => OpenFile path (λ r, bind (k r) f)
  | Append record k => Append record (λ r, bind (k r) f)
  | SyncData k => SyncData (λ r, bind (k r) f)
  | Rename from to_ k => Rename from to_ (λ r, bind (k r) f)
  end.

Definition verify_and_rename (part_path final_path : string) (total_length : Z) (m : IntervalMap)
    (digest : option ContentDigest) (next_sequence : Z)
    : prog (option (result Sealed CompletionError)) :=
  Metadata part_path (λ measured,
    match measured with
    | Err source =>
        Ret (Some (Err (CompletionIo "measure the part file before verification" source)))
    | Ok actual =>
        if negb (actual =? total_length)
        then Ret (Some (Err (CLengthMismatch total_length actual)))
        else
          match check_coverage m total_length with
          | Err e => Ret (Some (Err e))
          | Ok _ =>
              bind (hash_file part_path digest) (λ hashed,
                match hashed with
                | None => Ret None
                | Some (Err e) => Ret (Some (Err e))
                | Some (Ok (final_blake3, server)) =>
                    match digest_outcome digest server with
                    | Err e => Ret (Some (Err e))
                    | Ok digest_checked =>
                        bind (seal_and_rename part_path final_path final_blake3 digest_checked
                                next_sequence) (λ r, Ret (Some r))
                    end
                end)
          end
    end).

(** What was asked of the server's digest, and what it was to be compared with. *)
Definition hash_of (a : DigestAlgorithm) (content : list byte) : list byte :=
  match a with Sha256 => sha256 content | Sha512 => sha512 content end.

(** What an outcome says of the bytes. *)
Definition judged (digest : option ContentDigest) (content : list byte) (o : DigestOutcome) : Prop :=
  match o with
  | NotOffered => digest = None
  | Verified a => ∃ d, digest = Some d ∧ algorithm d = a ∧
      decode_digest d = Some (hash_of a content)
  | Unusable _ => ∃ d, digest = Some d ∧ decode_digest d = None
  end.

End completion.

(** ** Coverage *)

Definition first_gap (l : list Interval) : option Z :=
  option_map start (List.find (λ i, negb (bool_decide (state i = Complete))) l).

Lemma coverage_fold c l t covered gap :
  tiles c l t → 0 ≤ c → t < u64_modulus → 0 ≤ covered ≤ c →
  fold_left coverage_step l (covered, gap) =
    (covered + bytes_of Complete l, match gap with Some g => Some g | None => first_gap l end).
Proof.
  revert c covered gap. induction l as [|i l IH]; intros c covered gap Ht Hc Hu Hcov; cbn [fold_left].
  { cbn. rewrite Z.add_0_r. by destruct gap. }
  destruct Ht as (<- & Hi & Ht). pose proof (tiles_le _ _ _ Ht) as Hle.
  unfold coverage_step at 2, first_gap. cbn [bytes_of List.find].
  case_bool_decide as Hs; cbn [negb].
  - unfold len. rewrite wsub64_small by lia. unfold saturating_add64.
    replace (Z.min (covered + (end_ i - start i)) u64_max) with (covered + (end_ i - start i)) by ulia.
    rewrite (IH (end_ i)) by (done || lia). f_equal. lia.
  - destruct gap as [g|]; rewrite (IH (end_ i)) by (done || lia); f_equal; lia.
Qed.

Lemma first_gap_spec c l t :
  tiles c l t →
  match first_gap l with
  | None => bytes_of Complete l = t - c ∧ ∀ b, c ≤ b < t → state_in l b = Some Complete
  | Some g => c ≤ g < t ∧ state_in l g ≠ Some Complete ∧
      ∀ b, c ≤ b < g → state_in l b = Some Complete
  end.
Proof.
  revert c. induction l as [|i l IH]; intros c Ht; cbn.
  { cbn in Ht. split; [lia|]. intros; lia. }
  destruct Ht as (<- & Hi & Ht). specialize (IH _ Ht). pose proof (tiles_le _ _ _ Ht).
  unfold first_gap in *. cbn [List.find]. case_bool_decide as Hs; cbn [negb option_map].
  - destruct (option_map _ _) as [g|].
    + destruct IH as (? & Hg & Hb). split; [lia|]. rewrite bool_decide_eq_false_2 by lia.
      split; [done|]. intros b Hb2. case_bool_decide; [congruence|]. apply Hb. lia.
    + destruct IH as [Hb Hall]. split; [lia|]. intros b Hb2. case_bool_decide; [congruence|].
      apply Hall. lia.
  - split; [lia|]. rewrite bool_decide_eq_true_2 by lia. split; [congruence|]. intros; lia.
Qed.

(** [gap] is where the completed prefix ends. *)
Definition complete_below (m : IntervalMap) (gap : Z) : Prop :=
  ∀ b, 0 ≤ b < gap → state_at m b = Some Complete.

Lemma check_coverage_spec m total :
  wf m →
  match check_coverage m total with
  | Ok _ => total_length m = total ∧ complete_below m total
  | Err e => ∃ gap, e = IncompleteCoverage (count_state m Complete) total gap ∧
      complete_below m gap ∧
      (0 ≤ gap < total_length m ∧ state_at m gap ≠ Some Complete ∨
       gap = total_length m ∧ total_length m ≠ total)
  end.
Proof.
  intros Hwf. rewrite (count_state_bytes_of _ _ Hwf). destruct Hwf as ([? ?] & Ht & _).
  unfold check_coverage. rewrite (coverage_fold 0 _ _ 0 None Ht) by lia.
  pose proof (first_gap_spec _ _ _ Ht) as Hg. rewrite Z.add_0_l.
  destruct (first_gap (intervals m)) as [g|].
  { exists g. split; [done|]. destruct Hg as (? & ? & ?). split; [done|]. by left. }
  destruct Hg as [Hb Hall]. rewrite Hb, Z.sub_0_r.
  destruct (Z.eqb_spec (total_length m) total) as [<-|Hne]; cbn [negb].
  - by split.
  - exists (total_length m). split; [done|]. split; [done|]. by right.
Qed.

(** ** Comparing digests *)

Lemma diff_fold_zero l acc :
  fold_left (λ diff ab, byte_or diff (byte_xor (fst ab) (snd ab))) l acc = x00 ↔
  acc = x00 ∧ Forall (λ ab, fst ab = snd ab) l.
Proof.
  revert acc. induction l as [|[a b] l IH]; intros acc; cbn [fold_left fst snd].
  { split; [by split|by intros [? _]]. }
  rewrite IH, byte_or_zero, byte_xor_zero, Forall_cons. cbn. tauto.
Qed.

Lemma constant_time_eq_spec a b : constant_time_eq a b = true ↔ a = b.
Proof.
  unfold constant_time_eq. destruct (Z.eqb_spec (zlen a) (zlen b)) as [Hl|Hl]; cbn [negb].
  2: { split; [done|]. by intros ->. }
  rewrite bool_decide_eq_true, diff_fold_zero. unfold zlen in Hl. apply Nat2Z.inj in Hl.
  revert b Hl. induction a as [|x a IH]; intros [|y b] Hl; try done.
  injection Hl as Hl. cbn [zip zip_with]. rewrite Forall_cons. cbn. specialize (IH b Hl). split.
  - intros (_ & -> & Hf). f_equal. apply IH. by split.
  - intros [= -> ->]. by destruct (proj2 IH eq_refl).
Qed.

(** ** Hashing *)

Section hashing.
Context `{Digest} `{ServerDigests}.

(** What a file's reader delivers: its bytes, in non-empty pieces up to the end of the file, with
    errors in between. *)
Definition delivers (r : reader) (content : list byte) : Prop :=
  contents r = content ∧ Forall (λ e, match e with Data bs => bs ≠ [] | Fail _ => True end) r.

Definition fails (r : reader) : bool :=
  existsb (λ e, match e with Data _ => false | Fail _ => true end) r.

Lemma verify_buffer_pos : (0 < VERIFY_BUFFER)%nat.
Proof. unfold VERIFY_BUFFER. lia. Qed.
#[local] Opaque VERIFY_BUFFER.

Lemma update_update h a b : update (update h a) b = update h (a ++ b).
Proof. unfold update. cbn. by rewrite app_assoc. Qed.
Lemma update_nil h : update h [] = h.
Proof. unfold update. rewrite app_nil_r. by destruct h. Qed.

Lemma hash_loop_spec fuel r content blake h256 h512 :
  delivers r content → (reader_size r < fuel)%nat →
  match hash_loop fuel r blake h256 h512 with
  | None => False
  | Some (Err _) => fails r = true
  | Some (Ok (b, x, y)) =>
      b = update blake content ∧ x = option_map (λ h, update h content) h256 ∧
      y = option_map (λ h, update h content) h512
  end.
Proof.
  revert r content blake h256 h512.
  induction fuel as [|fuel IH]; intros r content blake h256 h512 [<- Hne] Hf; [lia|].
  cbn [hash_loop]. destruct r as [|[bs|e] r]; cbn [read].
  - change (contents []) with (@nil byte). rewrite bool_decide_eq_true_2 by done.
    destruct h256, h512; cbn; by rewrite !update_nil.
  - apply Forall_cons in Hne as [Hbs Hne].
    change (contents (Data bs :: r)) with (bs ++ contents r).
    pose proof verify_buffer_pos as Hpos. unfold reader_size in Hf.
    change (contents (Data bs :: r)) with (bs ++ contents r) in Hf. rewrite length_app in Hf.
    cbn [length] in Hf. case_bool_decide as Hlen.
    + rewrite bool_decide_eq_false_2 by done.
      assert (0 < length bs)%nat by (destruct bs; [done|cbn; lia]).
      specialize (IH r (contents r) (update blake bs) (option_map (λ h, update h bs) h256)
        (option_map (λ h, update h bs) h512)).
      destruct (hash_loop _ _ _ _ _) as [[[[b x] y]|]|]; cbn [fails existsb];
        (destruct IH as (-> & -> & ->) || apply IH); try (by split); try (unfold reader_size; lia).
      rewrite !update_update. destruct h256, h512; cbn; by rewrite ?update_update.
    + assert (Htake : take VERIFY_BUFFER bs ≠ [])
        by (destruct bs, VERIFY_BUFFER; [done|done|lia|done]).
      assert (Hdrop : drop VERIFY_BUFFER bs ≠ []).
      { intros E. apply (f_equal length) in E. rewrite length_drop in E. cbn in E. lia. }
      rewrite bool_decide_eq_false_2 by done.
      set (pre := take VERIFY_BUFFER bs) in *. set (post := drop VERIFY_BUFFER bs) in *.
      assert (Hbs2 : bs = pre ++ post) by (symmetry; apply take_drop).
      specialize (IH (Data post :: r) (post ++ contents r) (update blake pre)
        (option_map (λ h, update h pre) h256) (option_map (λ h, update h pre) h512)).
      destruct (hash_loop _ _ _ _ _) as [[[[b x] y]|]|]; cbn [fails existsb] in *;
        (destruct IH as (-> & -> & ->) || apply IH);
        try (by split; [|constructor]);
        try (unfold reader_size; change (contents (Data post :: r)) with (post ++ contents r);
             rewrite length_app; cbn [length]; unfold post; rewrite length_drop; lia).
      rewrite Hbs2, <- app_assoc, !update_update.
      destruct h256, h512; cbn; by rewrite ?update_update.
  - done.
Qed.

#[global] Arguments hash_loop : simpl never.

(** Both hashes are of the same bytes. *)
Lemma server_digest_spec digest content :
  server_digest
    (option_map (λ h, update h content) (if digest_is Sha256 digest then Some Hasher_new else None))
    (option_map (λ h, update h content) (if digest_is Sha512 digest then Some Hasher_new else None))
  = option_map (λ d, hash_of (algorithm d) content) digest.
Proof. destruct digest as [d|]; [|done]. unfold digest_is. destruct (algorithm d) eqn:E; cbn; by rewrite E. Qed.

Lemma digest_outcome_spec digest content :
  match digest_outcome digest (option_map (λ d, hash_of (algorithm d) content) digest) with
  | Ok o => judged digest content o
  | Err e => ∃ d expected, digest = Some d ∧ e = DigestMismatch (algorithm d) ∧
      decode_digest d = Some expected ∧ expected ≠ hash_of (algorithm d) content
  end.
Proof.
  destruct digest as [d|]; cbn; [|done]. destruct (decode_digest d) as [expected|] eqn:E; [|by exists d].
  destruct (constant_time_eq expected _) eqn:Ec; cbn.
  - apply constant_time_eq_spec in Ec. exists d. by rewrite E, <- Ec.
  - exists d, expected. split_and!; [done..|]. intros Heq.
    apply constant_time_eq_spec in Heq. congruence.
Qed.

End hashing.

(** ** Execution

    The directory maps names to file contents; the journal is any implementation of the writer's
    interface.  [ok] says that every call so far succeeded. *)
Definition directory : Type := string → option (list byte).
Definition renamed (from to_ : string) (files : directory) : directory :=
  λ p, if String.eqb p to_ then files from
       else if String.eqb p from then None else files p.

Section execution.
Context {J : Type} `{Checksum} `{!DurableJournal J}.

Inductive exec {A} : directory → J → prog A → bool → directory → J → option A → Prop :=
| exec_stop files j p : exec files j p true files j None
| exec_ret files j a : exec files j (Ret a) true files j (Some a)
| exec_metadata files j p k r ok files' j' o :
    (∀ n, r = Ok n → ∃ content, files p = Some content ∧ n = zlen content) →
    exec files j (k r) ok files' j' o →
    exec files j (Metadata p k) (is_ok r && ok) files' j' o
| exec_open files j p k r ok files' j' o :
    (∀ f, r = Ok f → ∃ content, files p = Some content ∧ delivers f content) →
    exec files j (k r) ok files' j' o →
    exec files j (OpenFile p k)
      (match r with Ok f => negb (fails f) | Err _ => false end && ok) files' j' o
| exec_append files j record k r j1 ok files' j' o :
    append record j r j1 → exec files j1 (k r) ok files' j' o →
    exec files j (Append record k) (is_ok r && ok) files' j' o
| exec_sync files j k r j1 ok files' j' o :
    journal_sync j r j1 → exec files j1 (k r) ok files' j' o →
    exec files j (SyncData k) (is_ok r && ok) files' j' o
| exec_rename files j from to_ k r files1 ok files' j' o :
    files1 = (match r with Ok _ => renamed from to_ files | Err _ => files end) →
    exec files1 j (k r) ok files' j' o →
    exec files j (Rename from to_ k) (is_ok r && ok) files' j' o.

Lemma program_exec_bind {A B} files j (p : prog A) (f : A → prog B) ok files' j' o :
  exec files j (bind p f) ok files' j' o →
  (∃ a ok1 ok2 files1 j1, exec files j p ok1 files1 j1 (Some a) ∧
     exec files1 j1 (f a) ok2 files' j' o ∧ ok = ok1 && ok2) ∨
  (exec files j p ok files' j' None ∧ o = None).
Proof.
  revert files j ok. induction p as [a|p k IH|p k IH|rec k IH|k IH|from to_ k IH]; cbn;
    intros files j ok Hx.
  { left. exists a, true, ok, files, j. split; [constructor|done]. }
  all: inversion Hx; subst; [right; by split; [constructor|]|];
    match goal with He : exec _ _ (bind (_ ?r) _) _ _ _ _ |- _ =>
      destruct (IH r _ _ _ He) as [(? & ? & ? & ? & ? & ? & ? & ->)|[? ->]]
    end;
    [left; rewrite andb_assoc; do 5 eexists; split; [by econstructor|done]
    |right; split; [by econstructor|done]].
Qed.

End execution.

Section completion_facts.
Context {J : Type} `{Checksum} `{!DurableJournal J} `{!DurableJournalLaws J}.
Context `{Digest} `{ServerDigests}.

(** Everything that has to hold before a name is given. *)
Record earned (files : directory) (part : string) (total : Z) (m : IntervalMap)
    (digest : option ContentDigest) (content : list byte) (o : DigestOutcome) : Prop := {
  earned_content : files part = Some content;
  earned_length : zlen content = total;
  earned_map : total_length m = total;
  earned_coverage : complete_below m total;
  earned_digest : judged digest content o;
}.

(** The journal grew by the seal of [content] alone, and is synchronised. *)
Definition sealed_with (seq : Z) (content : list byte) (j j' : J) : Prop :=
  journal_records j' =
    journal_records j ++ [FramedRecord_new seq (Format.Sealed (blake3 content))] ∧
  journal_synced j' = length (journal_records j').

(** Sealing and naming: the name only after the seal is durable. *)
Lemma seal_exec part final content outcome seq files j ok files' j' o :
  journal_intact j →
  exec files j (seal_and_rename part final (blake3 content) outcome seq) ok files' j' o →
  match o with
  | Some (Ok r) => r = MkSealed final (blake3 content) outcome ∧
      files' = renamed part final files ∧ sealed_with seq content j j'
  | Some (Err e) => files' = files ∧ ok = false ∧
      ((∃ w, e = Seal w) ∨ ∃ op io, e = CompletionIo op io)
  | None => files' = files ∨ files' = renamed part final files ∧ sealed_with seq content j j'
  end.
Proof.
  intros Hj Hx. unfold seal_and_rename in Hx. inversion Hx; subst; [by left|].
  assert (Hfit : fits (FramedRecord_new seq (Format.Sealed (blake3 content)))).
  { unfold fits, payload_of, MAX_PAYLOAD_LEN, zlen. cbn. rewrite blake3_len. lia. }
  match goal with Ha : append _ _ ?r _, Hy : exec _ _ _ _ _ _ _ |- _ =>
    destruct (append_law _ _ _ _ Ha Hfit Hj) as (_ & _ & _ & Hr); destruct r as [[]|e];
    inversion Hy; subst
  end; try (cbn; (by left) || (by split_and!; eauto)).
  destruct Hr as [Hrec Hj1].
  match goal with Hs : journal_sync _ ?r _, Hy : exec _ _ _ _ _ _ _ |- _ =>
    destruct (journal_sync_law _ _ _ Hs Hj1) as (_ & Hrec2 & _ & _ & Hok); destruct r as [[]|e];
    inversion Hy; subst
  end; try (cbn; (by left) || (by split_and!; eauto)).
  destruct (Hok eq_refl) as [Hsync _].
  match goal with Hs : journal_sync _ _ ?j2 |- _ =>
    assert (Hsealed : sealed_with seq content j j2)
      by (unfold sealed_with; by rewrite Hsync, Hrec2, Hrec)
  end.
  match goal with r : result unit Error |- _ => destruct r as [[]|e] end;
    match goal with Hy : exec _ _ _ _ _ _ _ |- _ => inversion Hy; subst end;
    cbn; (by left) || (by right) || (by split_and!; eauto).
Qed.

#[local] Opaque seal_and_rename.

(** What each check's refusal says. *)
Definition refusal_true (files : directory) (part : string) (total : Z) (m : IntervalMap)
    (digest : option ContentDigest) (e : CompletionError) : Prop :=
  match e with
  | CLengthMismatch expected actual => expected = total ∧ actual ≠ total ∧
      ∃ content, files part = Some content ∧ actual = zlen content
  | IncompleteCoverage covered total' gap => total' = total ∧ covered = count_state m Complete ∧
      complete_below m gap ∧
      (0 ≤ gap < total_length m ∧ state_at m gap ≠ Some Complete ∨
       gap = total_length m ∧ total_length m ≠ total)
  | DigestMismatch a => ∃ d content expected, digest = Some d ∧ a = algorithm d ∧
      files part = Some content ∧ decode_digest d = Some expected ∧ expected ≠ hash_of a content
  | CompletionIo _ _ | Seal _ => False
  end.

Lemma verify_exec part final total m digest seq files j ok files' j' o :
  wf m → journal_intact j →
  exec files j (verify_and_rename part final total m digest seq) ok files' j' o →
  match o with
  | Some None => False
  | Some (Some (Ok r)) => ∃ content outcome, earned files part total m digest content outcome ∧
      r = MkSealed final (blake3 content) outcome ∧
      files' = renamed part final files ∧ sealed_with seq content j j'
  | Some (Some (Err e)) => files' = files ∧
      (ok = false ∧ ((∃ w, e = Seal w) ∨ ∃ op io, e = CompletionIo op io) ∨
       refusal_true files part total m digest e ∧ j' = j)
  | None => files' = files ∨ ∃ content outcome, earned files part total m digest content outcome ∧
      files' = renamed part final files ∧ sealed_with seq content j j'
  end.
Proof.
  intros Hm Hj Hx. unfold verify_and_rename in Hx. inversion Hx as [| |? ? ? ? r ? ? ? ? Hlen Hx1| | | |]; subst; [by left|].
  destruct r as [n|e].
  2: { inversion Hx1; subst; cbn; [by left|]. split; [done|]. left. split; [done|]. right. eauto. }
  destruct (Hlen n eq_refl) as (content & Hc & ->).
  destruct (Z.eqb_spec (zlen content) total) as [Ht|Ht]; cbn [negb] in Hx1.
  2: { inversion Hx1; subst; cbn; [by left|]. split; [done|]. right. split; [|done]. cbn. eauto. }
  pose proof (check_coverage_spec m total Hm) as Hcov.
  destruct (check_coverage m total) as [[]|e].
  2: { destruct Hcov as (gap & -> & Hb & Hg). inversion Hx1; subst; cbn; [by left|].
       split; [done|]. right. by split_and!. }
  destruct Hcov as [Htl Hcov]. unfold hash_file in Hx1. cbn [bind] in Hx1. 
  inversion Hx1 as [| | |? ? ? ? r ? ? ? ? Hopen Hx2| | |]; subst; [by left|].
  destruct r as [f|e].
  2: { inversion Hx2; subst; cbn; [by left|]. split; [done|]. left. split; [done|]. right. eauto. }
  destruct (Hopen f eq_refl) as (content' & Hc' & Hd). assert (content' = content) as -> by congruence.
  pose proof (hash_loop_spec (hash_fuel f) f content Hasher_new
    (if digest_is Sha256 digest then Some Hasher_new else None)
    (if digest_is Sha512 digest then Some Hasher_new else None) Hd ltac:(unfold hash_fuel; lia)) as Hh.
  cbv zeta in Hx2. destruct (hash_loop _ _ _ _ _) as [[[[b h256] h512]|e]|]; [| |done].
  2: { rewrite Hh. inversion Hx2; subst; cbn; [by left|]. split; [done|]. left.
       split; [done|]. right. eauto. }
  destruct Hh as (-> & -> & ->). cbn [bind] in Hx2. rewrite server_digest_spec in Hx2.
  pose proof (digest_outcome_spec digest content) as Ho.
  destruct (digest_outcome _ _) as [outcome|e].
  2: { destruct Ho as (d & expected & -> & -> & ? & ?). inversion Hx2; subst; cbn; [by left|].
       split; [done|]. right. split; [|done]. cbn. exists d, content, expected. done. }
  assert (He : earned files part (zlen content) m digest content outcome) by (split; done || congruence).
  change (finalize (update Hasher_new content)) with (blake3 content) in Hx2.
  apply program_exec_bind in Hx2 as [(a & ok1 & ok2 & files1 & j1 & Hs & Hret & ->)|[Hs ->]].
  - pose proof (seal_exec _ _ _ _ _ _ _ _ _ _ _ Hj Hs) as Hsp. inversion Hret; subst.
    + destruct a as [a|e]; [destruct Hsp as (-> & -> & ?); right; by exists content, outcome|].
      destruct Hsp as [-> _]. by left.
    + destruct a as [a|e]; [destruct Hsp as (-> & -> & ?); by exists content, outcome|].
      destruct Hsp as (-> & -> & Hsp). split; [done|]. left. rewrite andb_false_r. by split.
  - pose proof (seal_exec _ _ _ _ _ _ _ _ _ _ _ Hj Hs) as [->|[-> ?]]; [by left|].
    right. by exists content, outcome.
Qed.

End completion_facts.

(** ** Properties *)

(** C14: No file bears the final name unverified (I-4).  Stop the program at any of its calls,
    after any answers: either the directory is as it was, or the part file was measured at the
    declared length, every byte of it is complete in the interval map, its bytes agree with the
    server's digest as reported, the journal's seal with the BLAKE3 of exactly these bytes is
    synchronised, and only then did the final name come to denote them. *)
Theorem named_only_when_verified {J} `{Checksum} `{!DurableJournal J} `{!DurableJournalLaws J}
    `{Digest} `{ServerDigests} part final total m digest seq files (j : J) ok files' j' stopped :
  wf m → journal_intact j →
  exec files j (verify_and_rename part final total m digest seq) ok files' j' stopped →
  (files' = files ∧ ∀ sealed, stopped ≠ Some (Some (Ok sealed))) ∨
  ∃ content outcome, earned files part total m digest content outcome ∧
    files' = renamed part final files ∧ files' final = Some content ∧
    sealed_with seq content j j' ∧
    (stopped = None ∨ stopped = Some (Some (Ok (MkSealed final (blake3 content) outcome)))).
Proof.
  intros Hm Hj Hx. pose proof (verify_exec _ _ _ _ _ _ _ _ _ _ _ _ Hm Hj Hx) as Hv.
  assert (Hfin : ∀ content, files part = Some content → renamed part final files final = Some content)
    by (intros c Hc; unfold renamed; by rewrite String.eqb_refl).
  destruct stopped as [[[r|e]|]|]; [|left|done|].
  - destruct Hv as (content & o & He & -> & -> & Hs). right. exists content, o.
    pose proof (Hfin _ (earned_content _ _ _ _ _ _ _ He)). split_and!; auto.
  - destruct Hv as [-> _]. by split.
  - destruct Hv as [->|(content & o & He & -> & Hs)]; [by left|]. right. exists content, o.
    pose proof (Hfin _ (earned_content _ _ _ _ _ _ _ He)). split_and!; auto.
Qed.

(** The verdict is exact.  Verification terminates.  An error of a check states a fact and
    leaves the directory and the journal alone; any other error is a call's.  And when every call
    succeeds, the download is accepted exactly when it is the declared length, completely covered
    and in agreement with the server's digest. *)
Theorem verification_verdict {J} `{Checksum} `{!DurableJournal J} `{!DurableJournalLaws J}
    `{Digest} `{ServerDigests} part final total m digest seq files (j : J) ok files' j' r :
  wf m → journal_intact j →
  exec files j (verify_and_rename part final total m digest seq) ok files' j' (Some r) →
  ∃ verdict, r = Some verdict ∧
    match verdict with
    | Ok sealed => sealed_final_path sealed = final
    | Err e => files' = files ∧
        (ok = false ∧ ((∃ w, e = Seal w) ∨ ∃ op io, e = CompletionIo op io) ∨
         refusal_true files part total m digest e ∧ j' = j)
    end ∧
    (ok = true →
     is_ok verdict = true ↔ ∃ content outcome, earned files part total m digest content outcome).
Proof.
  intros Hm Hj Hx. pose proof (verify_exec _ _ _ _ _ _ _ _ _ _ _ _ Hm Hj Hx) as Hv.
  destruct r as [[sealed|e]|]; [| |done].
  - destruct Hv as (content & o & He & -> & _). eexists. split; [done|]. split; [done|].
    intros _. split; [|done]. intros _. by exists content, o.
  - eexists. split; [done|]. split; [done|]. intros ->. split; [done|].
    intros (content & o & [Hc Hl Hml Hcov Hd]). exfalso.
    destruct Hv as [_ [[? _]|[Ht _]]]; [done|]. destruct e as [ex ac|c t g|a|op io|w]; cbn in Ht.
    + destruct Ht as (-> & Hne & content' & Hc' & ->). congruence.
    + destruct Ht as (_ & _ & _ & [[? Hg]|[_ ?]]); [|congruence]. apply Hg, Hcov. lia.
    + destruct Ht as (d & content' & expected & -> & -> & Hc' & Hdec & Hne).
      assert (content' = content) as -> by congruence.
      destruct o as [|a|reason]; cbn in Hd; [done|destruct Hd as (d' & Hd' & <- & Hdec')
        |destruct Hd as (d' & Hd' & Hdec')]; injection Hd' as <-; congruence.
    + done.
    + done.
Qed.

(** ** A run *)

Module Example_completion.
Import Concrete Example_run.

(** Stand-ins for the two digests and base64. *)
#[refine] Instance stand_ins : ServerDigests := {
  sha256 bs := sum_digest bs;
  sha512 bs := sum_digest bs ++ sum_digest (x00 :: bs);
  base64_decode s := Some (map byte_of s);
}.
Proof.
  - intros bs. apply length_to_le_bytes.
  - intros bs. unfold sum_digest. by rewrite length_app, !length_to_le_bytes.
Defined.

Definition ex_files : directory := λ p, if String.eqb p "a.dppart" then Some block else None.
Definition ex_map : IntervalMap := MkIntervalMap 4 [MkInterval 0 4 Complete].
Definition ex_digest : option ContentDigest :=
  Some (Remote.MkDigest Sha256 (map byte_val (sha256 block))).
Definition ex_seal : FramedRecord := FramedRecord_new 0 (Format.Sealed (blake3 block)).
Definition ex_journal1 : JournalDisk :=
  MkJournalDisk header (Replay.Replay.journal header [ex_seal]) 72 [ex_seal] 0.
Definition ex_journal2 : JournalDisk :=
  MkJournalDisk header (Replay.Replay.journal header [ex_seal]) 119 [ex_seal] 1.

Lemma ex_map_wf : wf ex_map.
Proof. split; [split; done|]. split; [cbn; lia|done]. Qed.

Lemma journal0_intact : journal_intact journal0.
Proof. split; [done|]. split; [done|]. vm_compute. lia. Qed.

Lemma run_verification :
  exec ex_files journal0 (verify_and_rename "a.dppart" "a" 4 ex_map ex_digest 0) true
    (renamed "a.dppart" "a" ex_files) ex_journal2
    (Some (Some (Ok (MkSealed "a" (blake3 block) (Verified Sha256))))).
Proof.
  eapply (exec_metadata _ _ _ _ (Ok 4) true); [intros n [= <-]; by exists block|].
  eapply (exec_open _ _ _ _ (Ok (cursor block)) true).
  { intros f [= <-]. exists block. split; [done|].
    split; [exact (cursor_contents block)|by apply Forall_singleton]. }
  eapply (exec_append _ _ _ _ (Ok tt) ex_journal1 true).
  { exists (Ok tt), 0%nat, (Replay.Replay.journal header [ex_seal]). split; vm_compute; reflexivity. }
  eapply (exec_sync _ _ _ (Ok tt) ex_journal2 true).
  { exists (Ok tt), 119%nat. split_and!; [done|vm_compute; lia|vm_compute; lia|].
    vm_compute. reflexivity. }
  eapply (exec_rename _ _ _ _ _ (Ok tt) _ true); [reflexivity|]. apply exec_ret.
Qed.

Example named_only_when_verified_witness :
  wf ex_map ∧ renamed "a.dppart" "a" ex_files "a"%string = Some block.
Proof.
  split; [exact ex_map_wf|].
  destruct (named_only_when_verified _ _ _ _ _ _ _ _ _ _ _ _ ex_map_wf journal0_intact run_verification)
    as [[_ Hno]|(content & o & He & _ & Hf & _)].
  - exfalso. by apply (Hno (MkSealed "a" (blake3 block) (Verified Sha256))).
  - rewrite Hf. symmetry. exact (earned_content _ _ _ _ _ _ _ He).
Defined.

Example verification_verdict_witness :
  wf ex_map ∧ ∃ verdict, Some (Ok (MkSealed "a" (blake3 block) (Verified Sha256))) = Some verdict ∧
    (is_ok (E := CompletionError) verdict = true ↔
     ∃ content outcome, earned ex_files "a.dppart" 4 ex_map ex_digest content outcome).
Proof.
  split; [exact ex_map_wf|].
  destruct (verification_verdict _ _ _ _ _ _ _ _ _ _ _ _ ex_map_wf journal0_intact run_verification)
    as (verdict & Hv & _ & Hiff).
  exists verdict. split; [exact Hv|]. exact (Hiff eq_refl).
Defined.

End Example_completion.

End Completion.
