(* ===== verification/Metadata.v ===== *)
(** * [downpour-storage/src/metadata.rs]: the metadata boundary

    What the SQLite store keeps of a download and how each value is checked on the way in and out:
    stable names and codes, bounded fields, checkpoints, CBOR heads, range evidence.  SQL, the
    CBOR library and the URL library are not code of this repository. *)

From S2P Require Import Prelude PartFile Str ContentRange Remote.
From Stdlib Require Import String.
From stdpp Require Import list.
#[local] Open Scope Z_scope.

Module Metadata.
Import PartFile.PartFile Str.Str ContentRange.ContentRange Remote.Remote.

Definition FORMAT_VERSION : Z := 1.
Definition MAX_RANGE_OBSERVATION_BYTES : Z := 16 * 1024.
Definition MAX_CHECKPOINT_BYTES : Z := 64 * 1024 * 1024.
Definition MAX_CHECKPOINT_INTERVALS : Z := 1000000.
Definition MAX_REDIRECTS : Z := 64.
Definition MAX_HISTORY_ENTRIES : Z := 4096.
Definition MAX_URL_BYTES : Z := 8192.
Definition MAX_HEADER_BYTES : Z := 8192.
Definition MAX_CONTENT_TYPE_BYTES : Z := 512.
Definition MAX_FILENAME_BYTES : Z := 4096.
Definition MAX_SECRET_REF_BYTES : Z := 256.
Definition MAX_ERROR_KIND_BYTES : Z := 128.
Definition MAX_PATH_BYTES : Z := 64 * 1024.

Inductive MetadataFormat := FRangeObservation | FCheckpoint | FIdentitySnapshot | FNativePath.
#[export] Instance MetadataFormat_eq_dec : EqDecision MetadataFormat.
Proof. solve_decision. Defined.

(** [Sqlite] carries what SQLite reported. *)
Inductive MetadataError :=
| Sqlite (detail : string)
| NewerSchemaVersion (found supported : Z)
| UnversionedNonemptyDatabase
| InvalidSchema (reason : string)
| InvalidConnectionPolicy (reason : string)
| NewerFormatVersion (format : MetadataFormat) (found supported : Z)
| UnsupportedFormatVersion (format : MetadataFormat) (found : Z)
| InvalidEncoding (format : MetadataFormat) (reason : string)
| NonCanonicalEncoding (format : MetadataFormat)
| CollectionLimitExceeded (format : MetadataFormat) (actual maximum : Z)
| PayloadTooLarge (format : MetadataFormat) (actual maximum : Z)
| InvalidCheckpoint (reason : string)
| InvalidRangeObservation (e : RangeProofError)
| InvalidDownloadId (reason : string)
| SecretReferenceRequired
| InvalidSecretReference (reason : string)
| InvalidErrorKind (reason : string)
| InvalidPublicUrl (reason : string)
| FieldTooLong (field : string) (actual maximum : Z)
| IntegerOutOfRange (field : string) (value : Z)
| UnsupportedPathEncoding (encoding : Z)
| InvalidValue (field : string).

(** ** Identifiers *)

Record DownloadId := MkDownloadId { as_bytes : list byte }.

Definition DownloadId_try_from_bytes (bytes : list byte) : result DownloadId MetadataError :=
  if negb (Z.shiftr (byte_val (nth 6 bytes x00)) 4 =? 7)
  then Err (InvalidDownloadId "UUID version bits are not 7")
  else if negb (Z.land (byte_val (nth 8 bytes x00)) 192 =? 128)
  then Err (InvalidDownloadId "UUID variant bits are not RFC 4122")
  else Ok (MkDownloadId bytes).

Definition download_id_from_slice (bytes : list byte) : result DownloadId MetadataError :=
  if negb (zlen bytes =? 16) then Err (InvalidDownloadId "identifier is not exactly 16 bytes")
  else DownloadId_try_from_bytes bytes.

Record SecretRef := MkSecretRef { secret_text : str }.

(** The bytes of a non-ASCII character are none of those allowed. *)
Definition secret_char (c : Z) : bool :=
  is_ascii_alphanumeric c || (c =? 45) || (c =? 95) || (c =? 46) || (c =? 47).

Definition SecretRef_new (raw : str) : result SecretRef MetadataError :=
  if MAX_SECRET_REF_BYTES <? str_len raw
  then Err (InvalidSecretReference "reference is too long") else
  match strip_prefix (lit "keyring:downpour/") raw with
  | None => Err (InvalidSecretReference "reference is outside keyring:downpour/")
  | Some suffix =>
      if bool_decide (suffix = []) || negb (forallb secret_char suffix)
      then Err (InvalidSecretReference "reference suffix has an invalid character")
      else Ok (MkSecretRef raw)
  end.

Record DownloadErrorKind := MkErrorKind { kind_text : str }.

Definition kind_segment (segment : str) : bool :=
  match segment with
  | [] => false
  | c :: s => is_ascii_lowercase c &&
      forallb (λ c, is_ascii_lowercase c || is_ascii_digit c || (c =? 45)) s
  end.

Definition DownloadErrorKind_new (raw : str) : result DownloadErrorKind MetadataError :=
  if bool_decide (raw = []) || (MAX_ERROR_KIND_BYTES <? str_len raw)
  then Err (InvalidErrorKind "identifier is empty or too long")
  else if negb (forallb kind_segment (split 46 raw))
  then Err (InvalidErrorKind "identifier is not lowercase dotted syntax")
  else Ok (MkErrorKind raw).

(** ** The download record *)

(** A public URL is its normalised text. *)
Record UrlReference := MkUrlReference { public_url : str; secret_ref : option SecretRef }.

Inductive DownloadState :=
| Submitted | Probing | Planned | Transferring | Paused | Stalled | AwaitingRefresh | Verifying
| Completed | Failed.
#[export] Instance DownloadState_eq_dec : EqDecision DownloadState.
Proof. solve_decision. Defined.

Record IdentityMetadata := MkIdentity {
  current_url : UrlReference;
  final_url : option UrlReference;
  redirect_chain : list UrlReference;
  page_url : option UrlReference;
  origin : str;
  validator : Validator;
  server_digest : option ContentDigest;
  content_type : option str;
  suggested_filename : option str;
  request_context_ref : option SecretRef;
  probed_at_ms : Z;
  protocol : NegotiatedProtocol;
  range_support : RangeSupport;
}.

Record UrlHistoryEntry := MkHistory { h_url : UrlReference; h_seen_at_ms : Z }.

Record DownloadMetadata := MkMetadata {
  md_id : DownloadId;
  md_state : DownloadState;
  md_created_at_ms : Z;
  md_updated_at_ms : Z;
  md_target_path : path;
  md_part_path : path;
  md_total_length : option Z;
  md_covered_bytes : Z;
  md_queue_position : option Z;
  md_priority : Z;
  md_error_kind : option DownloadErrorKind;
  md_space_reserved : bool;
  md_identity : IdentityMetadata;
  md_url_history : list UrlHistoryEntry;
}.

(** ** Names and codes *)

Definition state_name (s : DownloadState) : str :=
  match s with
  | Submitted => lit "submitted" | Probing => lit "probing" | Planned => lit "planned"
  | Transferring => lit "transferring" | Paused => lit "paused" | Stalled => lit "stalled"
  | AwaitingRefresh => lit "awaiting-refresh" | Verifying => lit "verifying"
  | Completed => lit "completed" | Failed => lit "failed"
  end.

Definition state_code (s : DownloadState) : Z :=
  match s with
  | Submitted => 0 | Probing => 1 | Planned => 2 | Transferring => 3 | Paused => 4 | Stalled => 5
  | AwaitingRefresh => 6 | Verifying => 7 | Completed => 8 | Failed => 9
  end.

(** A [match] on string literals, first match wins. *)
Fixpoint match_name {A} (arms : list (string * A)) (raw : str) : option A :=
  match arms with
  | [] => None
  | (name, a) :: arms => if bool_decide (raw = lit name) then Some a else match_name arms raw
  end.

Definition parse_state (raw : str) : result DownloadState MetadataError :=
  ok_or (match_name
    [("submitted", Submitted); ("probing", Probing); ("planned", Planned);
     ("transferring", Transferring); ("paused", Paused); ("stalled", Stalled);
     ("awaiting-refresh", AwaitingRefresh); ("verifying", Verifying); ("completed", Completed);
     ("failed", Failed)]%string raw) (InvalidValue "downloads.state").

Definition state_from_code (code : Z) : result DownloadState MetadataError :=
  match code with
  | 0 => Ok Submitted | 1 => Ok Probing | 2 => Ok Planned | 3 => Ok Transferring
  | 4 => Ok Paused | 5 => Ok Stalled | 6 => Ok AwaitingRefresh | 7 => Ok Verifying
  | 8 => Ok Completed | 9 => Ok Failed
  | _ => Err (InvalidValue "identity.state")
  end.

Definition protocol_name (p : NegotiatedProtocol) : str :=
  match p with Http11 => lit "http/1.1" | Http2 => lit "h2" | Http3 => lit "h3" end.
Definition protocol_code (p : NegotiatedProtocol) : Z :=
  match p with Http11 => 0 | Http2 => 1 | Http3 => 2 end.
Definition parse_protocol (raw : str) : result NegotiatedProtocol MetadataError :=
  ok_or (match_name [("http/1.1", Http11); ("h2", Http2); ("h3", Http3)]%string raw)
    (InvalidValue "identities.protocol").
Definition protocol_from_code (code : Z) : result NegotiatedProtocol MetadataError :=
  match code with
  | 0 => Ok Http11 | 1 => Ok Http2 | 2 => Ok Http3 | _ => Err (InvalidValue "identity.protocol")
  end.

Definition validator_parts (v : Validator) : str * option str :=
  match v with
  | StrongETag value => (lit "strong-etag", Some value)
  | LastModified value => (lit "last-modified", Some value)
  | NoValidator => (lit "none", None)
  end.

Definition validator_from_parts (kind : str) (value : option str) : result Validator MetadataError :=
  match value with
  | Some value =>
      if bool_decide (kind = lit "strong-etag") then Ok (StrongETag value)
      else if bool_decide (kind = lit "last-modified") then Ok (LastModified value)
      else Err (InvalidValue "identities.validator")
  | None =>
      if bool_decide (kind = lit "none") then Ok NoValidator
      else Err (InvalidValue "identities.validator")
  end.

(** [format!("{}:{}", digest.algorithm.token(), digest.encoded)] *)
Definition digest_text (d : ContentDigest) : str := token (algorithm d) ++ 58 :: encoded d.

Definition digest_from_text (raw : option str) : result (option ContentDigest) MetadataError :=
  match raw with
  | None => Ok None
  | Some raw =>
      let? '(name, encoded) := ok_or (split_once 58 raw) (InvalidValue "identities.server_digest") in
      let? algorithm :=
        ok_or (match_name [("sha-256", Sha256); ("sha-512", Sha512)]%string name)
          (InvalidValue "identities.server_digest") in
      if bool_decide (encoded = []) then Err (InvalidValue "identities.server_digest")
      else Ok (Some (Remote.MkDigest algorithm encoded))
  end.

Definition ValidatorWire : Type := Z * option str.
Definition from_validator (v : Validator) : ValidatorWire :=
  match v with
  | StrongETag value => (0, Some value)
  | LastModified value => (1, Some value)
  | NoValidator => (2, None)
  end.
Definition into_validator (w : ValidatorWire) : result Validator MetadataError :=
  match w with
  | (0, Some value) => Ok (StrongETag value)
  | (1, Some value) => Ok (LastModified value)
  | (2, None) => Ok NoValidator
  | _ => Err (InvalidValue "identity.validator")
  end.

Definition DigestWire : Type := Z * str.
Definition from_digest (d : ContentDigest) : DigestWire :=
  (match algorithm d with Sha256 => 0 | Sha512 => 1 end, encoded d).
Definition into_digest (w : DigestWire) : result ContentDigest MetadataError :=
  let? algorithm :=
    match fst w with
    | 0 => Ok Sha256
    | 1 => Ok Sha512
    | _ => Err (InvalidValue "identity.digest.algorithm")
    end in
  if bool_decide (snd w = []) then Err (InvalidValue "identity.digest.value")
  else Ok (Remote.MkDigest algorithm (snd w)).

(** ** Bounds *)

Definition check_payload_len (format : MetadataFormat) (actual maximum : Z)
    : result unit MetadataError :=
  if maximum <? actual then Err (PayloadTooLarge format actual maximum) else Ok tt.
Definition check_len (field : string) (value : str) (maximum : Z) : result unit MetadataError :=
  if maximum <? str_len value then Err (FieldTooLong field (str_len value) maximum) else Ok tt.
Definition check_path_len (actual : Z) : result unit MetadataError :=
  if MAX_PATH_BYTES <? actual then Err (FieldTooLong "native_path" actual MAX_PATH_BYTES) else Ok tt.

(** SQLite's integers are [i64]. *)
Definition sqlite_u64 (field : string) (value : Z) : result Z MetadataError :=
  ok_or (i64_try_from value) (IntegerOutOfRange field value).
Definition optional_sqlite_u64 (field : string) (value : option Z)
    : result (option Z) MetadataError :=
  match value with
  | Some value => let? v := sqlite_u64 field value in Ok (Some v)
  | None => Ok None
  end.
Definition rust_u64 (field : string) (value : Z) : result Z MetadataError :=
  if 0 <=? value then Ok value else Err (InvalidValue field).
Definition optional_rust_u64 (field : string) (value : option Z)
    : result (option Z) MetadataError :=
  match value with
  | Some value => let? v := rust_u64 field value in Ok (Some v)
  | None => Ok None
  end.
Definition parse_sql_bool (field : string) (value : Z) : result bool MetadataError :=
  match value with 0 => Ok false | 1 => Ok true | _ => Err (InvalidValue field) end.

(** ** Checkpoints *)

Record CompleteInterval := MkComplete { ci_start : Z; ci_end : Z }.
#[export] Instance CompleteInterval_eq_dec : EqDecision CompleteInterval.
Proof. solve_decision. Defined.

Definition CompleteInterval_try_new (start end_ : Z) : result CompleteInterval MetadataError :=
  if end_ <=? start then Err (InvalidCheckpoint "complete interval is empty or reversed")
  else Ok (MkComplete start end_).

Record Checkpoint := MkCheckpoint {
  cp_total_length : Z;
  cp_covered_bytes : Z;
  cp_intervals : list CompleteInterval;
}.
#[export] Instance Checkpoint_eq_dec : EqDecision Checkpoint.
Proof. solve_decision. Defined.

Record PersistedCheckpoint := MkPersisted {
  pc_journal_sequence : Z;
  pc_written_at_ms : Z;
  pc_checkpoint : Checkpoint;
}.

(** One iteration of the loop over the intervals. *)
Definition interval_step (total_length : Z) (acc : result (option Z * Z) MetadataError)
    (interval : CompleteInterval) : result (option Z * Z) MetadataError :=
  let? '(previous_end, covered_bytes) := acc in
  if ci_end interval <=? ci_start interval
  then Err (InvalidCheckpoint "complete interval is empty or reversed")
  else if total_length <? ci_end interval
  then Err (InvalidCheckpoint "complete interval exceeds total length")
  else if match previous_end with Some e => ci_start interval <? e | None => false end
  then Err (InvalidCheckpoint "complete intervals overlap or are out of order")
  else
    let? covered_bytes :=
      ok_or (checked_add64 covered_bytes (wsub64 (ci_end interval) (ci_start interval)))
        (InvalidCheckpoint "covered byte count overflowed") in
    Ok (Some (ci_end interval), covered_bytes).

Definition validate_intervals (total_length : Z) (intervals : list CompleteInterval)
    (expected_covered : option (Z * Z)) : result Checkpoint MetadataError :=
  if MAX_CHECKPOINT_INTERVALS <? zlen intervals
  then Err (CollectionLimitExceeded FCheckpoint (zlen intervals) MAX_CHECKPOINT_INTERVALS)
  else
    let? '(_, covered_bytes) :=
      fold_left (interval_step total_length) intervals (Ok (None, 0)) in
    if match expected_covered with
       | Some (encoded, sql) => negb (covered_bytes =? encoded) || negb (covered_bytes =? sql)
       | None => false
       end
    then Err (InvalidCheckpoint "interval union differs from encoded or SQL covered_bytes")
    else Ok (MkCheckpoint total_length covered_bytes intervals).

Definition Checkpoint_try_new (total_length : Z) (intervals : list CompleteInterval)
    : result Checkpoint MetadataError :=
  validate_intervals total_length intervals None.

(** ** CBOR heads *)

Definition from_be_bytes (bs : list byte) : Z := from_le_bytes (reverse bs).

(** How many bytes of argument follow an initial byte with these low bits. *)
Definition argument_width (additional : Z) : option Z :=
  if additional <=? 23 then Some 0
  else match additional with 24 => Some 1 | 25 => Some 2 | 26 => Some 4 | 27 => Some 8 | _ => None end.

(** Major type, argument and the offset after the head. *)
Definition parse_cbor_head (encoded : list byte) (offset : Z) (format : MetadataFormat)
    : result (Z * Z * Z) MetadataError :=
  let? initial :=
    ok_or (encoded !! Z.to_nat offset) (InvalidEncoding format "truncated CBOR header") in
  let major := Z.shiftr (byte_val initial) 5 in
  let additional := Z.land (byte_val initial) 31 in
  let? next := ok_or (checked_add64 offset 1) (InvalidEncoding format "CBOR offset overflowed") in
  let? bytes := ok_or (argument_width additional) (NonCanonicalEncoding format) in
  if bytes =? 0 then Ok (major, additional, next)
  else
    let? e :=
      ok_or (checked_add64 next bytes) (InvalidEncoding format "CBOR header length overflowed") in
    let? payload :=
      ok_or (zslice encoded next e) (InvalidEncoding format "truncated CBOR integer") in
    Ok (major, from_be_bytes payload, e).

Definition peek_version (encoded : list byte) (format : MetadataFormat) (maximum : Z)
    : result unit MetadataError :=
  let? _ := check_payload_len format (zlen encoded) maximum in
  let? '(major, _, offset) := parse_cbor_head encoded 0 format in
  if negb (major =? 4) then Err (InvalidEncoding format "top-level item is not an array") else
  let? '(version_major, version, _) := parse_cbor_head encoded offset format in
  if negb (version_major =? 0)
  then Err (InvalidEncoding format "version is not an unsigned integer")
  else if FORMAT_VERSION <? version then Err (NewerFormatVersion format version FORMAT_VERSION)
  else if negb (version =? FORMAT_VERSION) then Err (UnsupportedFormatVersion format version)
  else Ok tt.

Definition preflight_checkpoint_count (encoded : list byte) : result unit MetadataError :=
  let format := FCheckpoint in
  let? '(_, _, after_top) := parse_cbor_head encoded 0 format in
  let? '(_, _, after_version) := parse_cbor_head encoded after_top format in
  let? '(_, _, after_total) := parse_cbor_head encoded after_version format in
  let? '(_, _, after_covered) := parse_cbor_head encoded after_total format in
  let? '(major, count, _) := parse_cbor_head encoded after_covered format in
  if negb (major =? 4) then Err (InvalidEncoding format "checkpoint intervals are not an array")
  else if MAX_CHECKPOINT_INTERVALS <? count
  then Err (CollectionLimitExceeded format count MAX_CHECKPOINT_INTERVALS)
  else Ok tt.

(** ** Encodings

    [ciborium] with [serde]: what serialising a value writes, and what deserialising reads together
    with how far it read. *)
Class Cbor (W : Type) := {
  into_writer : W → result (list byte) string;
  from_reader : list byte → result (W * Z) string;
}.

Section wire.
Context {W : Type} `{Cbor W}.

Definition encode_wire (value : W) (format : MetadataFormat) : result (list byte) MetadataError :=
  map_err (InvalidEncoding format) (into_writer value).

Definition decode_wire (encoded : list byte) (format : MetadataFormat) : result W MetadataError :=
  let? '(value, consumed) := map_err (InvalidEncoding format) (from_reader encoded) in
  if negb (consumed =? zlen encoded) then Err (NonCanonicalEncoding format) else Ok value.

Definition require_canonical (original : list byte) (value : W) (format : MetadataFormat)
    : result unit MetadataError :=
  let? encoded := encode_wire value format in
  if negb (bool_decide (encoded = original)) then Err (NonCanonicalEncoding format) else Ok tt.
End wire.

(** *** Range evidence *)

Record RangeObservationWireV1 := MkObservationWire {
  w_version : Z;
  w_kind : Z;
  w_first : Z;
  w_second : option Z;
  w_status : Z;
  w_content_range : option str;
  w_content_encoding : option str;
  w_body_len : Z;
}.

Definition check_optional_len (field : string) (value : option str) : result unit MetadataError :=
  match value with Some value => check_len field value MAX_HEADER_BYTES | None => Ok tt end.

Definition from_observation (o : RangeObservation) : result RangeObservationWireV1 MetadataError :=
  let? _ := check_optional_len "range.content_range" (o_content_range o) in
  let? _ := check_optional_len "range.content_encoding" (o_content_encoding o) in
  let '(kind, first, second) :=
    match o_requested o with
    | FromTo first last => (0, first, Some last)
    | From first => (1, first, None)
    | Suffix len => (2, len, None)
    end in
  Ok (MkObservationWire 1 kind first second (o_status o) (o_content_range o)
        (o_content_encoding o) (o_body_len o)).

Definition into_observation (w : RangeObservationWireV1) : result RangeObservation MetadataError :=
  let? requested :=
    match w_kind w, w_second w with
    | 0, Some last => Ok (FromTo (w_first w) last)
    | 1, None => Ok (From (w_first w))
    | 2, None => Ok (Suffix (w_first w))
    | _, _ => Err (InvalidValue "range.requested")
    end in
  let? _ := check_optional_len "range.content_range" (w_content_range w) in
  let? _ := check_optional_len "range.content_encoding" (w_content_encoding w) in
  Ok (RangeObservation_new requested (w_status w) (w_content_range w) (w_content_encoding w)
        (w_body_len w)).

Section observation.
Context `{Cbor RangeObservationWireV1}.

Definition encode_range_observation (o : RangeObservation) : result (list byte) MetadataError :=
  let? wire := from_observation o in
  let? encoded := encode_wire wire FRangeObservation in
  let? _ := check_payload_len FRangeObservation (zlen encoded) MAX_RANGE_OBSERVATION_BYTES in
  Ok encoded.

Definition decode_range_observation (encoded : list byte) : result RangeObservation MetadataError :=
  let? _ := peek_version encoded FRangeObservation MAX_RANGE_OBSERVATION_BYTES in
  let? wire := decode_wire encoded FRangeObservation in
  let? _ := require_canonical encoded wire FRangeObservation in
  into_observation wire.

(** The two columns of [PreparedDownload] and their reading. *)
Definition range_support_parts (r : RangeSupport)
    : result (str * option (list byte)) MetadataError :=
  match r with
  | Proven proof =>
      let? encoded := encode_range_observation (observation proof) in
      Ok (lit "proven", Some encoded)
  | Absent => Ok (lit "absent", None)
  | Unknown => Ok (lit "unknown", None)
  end.

Definition range_support_from_parts (state : str) (encoded : option (list byte))
    : result RangeSupport MetadataError :=
  match encoded with
  | Some encoded =>
      if bool_decide (state = lit "proven") then
        let? o := decode_range_observation encoded in
        let? proof :=
          map_err InvalidRangeObservation
            (from_observed_response (o_requested o) (o_status o) (o_content_range o)
               (o_content_encoding o) (o_body_len o)) in
        Ok (Proven proof)
      else Err (InvalidValue "identities.range_state")
  | None =>
      if bool_decide (state = lit "absent") then Ok Absent
      else if bool_decide (state = lit "unknown") then Ok Unknown
      else Err (InvalidValue "identities.range_state")
  end.

(** *** The record's own validation *)

Definition validate_url_reference (r : UrlReference) : result unit MetadataError :=
  let? _ := check_len "public_url" (public_url r) MAX_URL_BYTES in
  match secret_ref r with
  | Some s => check_len "secret_ref" (secret_text s) MAX_SECRET_REF_BYTES
  | None => Ok tt
  end.

(** A check over the elements, the first failure reported. *)
Fixpoint check_all {A} (f : A → result unit MetadataError) (l : list A) : result unit MetadataError :=
  match l with
  | [] => Ok tt
  | x :: l => let? _ := f x in check_all f l
  end.
Definition check_some {A} (f : A → result unit MetadataError) (o : option A)
    : result unit MetadataError :=
  match o with Some x => f x | None => Ok tt end.

Definition validate_identity (i : IdentityMetadata) : result unit MetadataError :=
  let? _ := validate_url_reference (current_url i) in
  let? _ := check_some validate_url_reference (final_url i) in
  let? _ := check_all validate_url_reference (redirect_chain i) in
  let? _ := check_some validate_url_reference (page_url i) in
  let? _ := check_len "origin" (origin i) MAX_URL_BYTES in
  let? _ :=
    match validator i with
    | StrongETag value | LastModified value => check_len "validator" value MAX_HEADER_BYTES
    | NoValidator => Ok tt
    end in
  let? _ :=
    check_some (λ d,
      let? _ := check_len "server_digest" (encoded d) MAX_HEADER_BYTES in
      if bool_decide (encoded d = []) then Err (InvalidValue "server_digest") else Ok tt)
      (server_digest i) in
  let? _ :=
    check_some (λ v, check_len "content_type" v MAX_CONTENT_TYPE_BYTES) (content_type i) in
  let? _ :=
    check_some (λ v, check_len "suggested_filename" v MAX_FILENAME_BYTES) (suggested_filename i) in
  let? _ :=
    check_some (λ r, check_len "request_context_ref" (secret_text r) MAX_SECRET_REF_BYTES)
      (request_context_ref i) in
  match range_support i with
  | Proven proof => let? _ := encode_range_observation (observation proof) in Ok tt
  | _ => Ok tt
  end.

(** [path_to_wire] keeps the path's bytes and checks how many there are. *)
Definition check_path (p : path) : result unit MetadataError :=
  check_path_len (Z.of_nat (String.length p)).

Definition validate_metadata (m : DownloadMetadata) : result unit MetadataError :=
  let? _ := sqlite_u64 "created_at" (md_created_at_ms m) in
  let? _ := sqlite_u64 "updated_at" (md_updated_at_ms m) in
  let? _ := optional_sqlite_u64 "total_length" (md_total_length m) in
  let? _ := sqlite_u64 "covered_bytes" (md_covered_bytes m) in
  let? _ := optional_sqlite_u64 "queue_position" (md_queue_position m) in
  let? _ := sqlite_u64 "probed_at" (probed_at_ms (md_identity m)) in
  if match md_total_length m with Some t => t <? md_covered_bytes m | None => false end
  then Err (InvalidValue "downloads.covered_bytes")
  else if match range_support (md_identity m) with
          | Proven proof => negb (bool_decide (md_total_length m = Some (total_length proof)))
          | _ => false
          end
  then Err (InvalidValue "identity.range_total_length")
  else if MAX_REDIRECTS <? zlen (redirect_chain (md_identity m))
  then Err (CollectionLimitExceeded FIdentitySnapshot (zlen (redirect_chain (md_identity m)))
              MAX_REDIRECTS)
  else if MAX_HISTORY_ENTRIES <? zlen (md_url_history m)
  then Err (CollectionLimitExceeded FIdentitySnapshot (zlen (md_url_history m)) MAX_HISTORY_ENTRIES)
  else
    let? _ := check_some (λ k, check_len "error_kind" (kind_text k) MAX_ERROR_KIND_BYTES)
                (md_error_kind m) in
    let? _ := validate_identity (md_identity m) in
    let? _ :=
      check_all (λ e,
        let? _ := sqlite_u64 "url_history.seen_at" (h_seen_at_ms e) in
        validate_url_reference (h_url e)) (md_url_history m) in
    let? _ := check_path (md_target_path m) in
    check_path (md_part_path m).

End observation.

(** *** Checkpoints *)

Definition CheckpointWireV1 : Type := Z * Z * Z * list (Z * Z).

Section checkpoint.
Context `{Cbor CheckpointWireV1}.

Definition encode_cbor (c : Checkpoint) : result (list byte) MetadataError :=
  let? encoded :=
    encode_wire (1, cp_total_length c, cp_covered_bytes c,
                 map (λ i, (ci_start i, ci_end i)) (cp_intervals c)) FCheckpoint in
  let? _ := check_payload_len FCheckpoint (zlen encoded) MAX_CHECKPOINT_BYTES in
  Ok encoded.

(** [collect] into a [Result]. *)
Fixpoint collect_intervals (l : list (Z * Z)) : result (list CompleteInterval) MetadataError :=
  match l with
  | [] => Ok []
  | (a, b) :: l =>
      let? i := CompleteInterval_try_new a b in
      let? is_ := collect_intervals l in
      Ok (i :: is_)
  end.

Definition decode_cbor (encoded : list byte) (sql_covered_bytes : Z)
    : result Checkpoint MetadataError :=
  let? _ := peek_version encoded FCheckpoint MAX_CHECKPOINT_BYTES in
  let? _ := preflight_checkpoint_count encoded in
  let? wire := decode_wire encoded FCheckpoint in
  let? _ := require_canonical encoded wire FCheckpoint in
  let '(_, total_length, covered, raw) := wire in
  let? intervals := collect_intervals raw in
  validate_intervals total_length intervals (Some (covered, sql_covered_bytes)).
End checkpoint.

(** ** Names, codes and wire forms *)

Lemma match_name_Some {A} (arms : list (string * A)) raw a :
  match_name arms raw = Some a → ∃ name, (name, a) ∈ arms ∧ raw = lit name.
Proof.
  induction arms as [|[n x] arms IH]; cbn; [done|]. case_bool_decide as E.
  - intros [= <-]. exists n. split; [by left|done].
  - intros (name & ? & ?)%IH. exists name. split; [by right|done].
Qed.

(** Read the arm off a closed list. *)
Ltac which_arm H :=
  apply match_name_Some in H as (? & H & ->);
  repeat (apply elem_of_cons in H as [[= -> ->]|H]; [reflexivity|]); by apply elem_of_nil in H.

Lemma parse_state_spec raw s : parse_state raw = Ok s ↔ raw = state_name s.
Proof.
  split; [|intros ->; by destruct s]. unfold parse_state.
  destruct (match_name _ _) as [a|] eqn:E; [|done]. intros [= <-]. which_arm E.
Qed.
Lemma parse_protocol_spec raw p : parse_protocol raw = Ok p ↔ raw = protocol_name p.
Proof.
  split; [|intros ->; by destruct p]. unfold parse_protocol.
  destruct (match_name _ _) as [a|] eqn:E; [|done]. intros [= <-]. which_arm E.
Qed.
Lemma state_from_code_spec c s : state_from_code c = Ok s ↔ c = state_code s.
Proof.
  split; [|intros ->; by destruct s]. unfold state_from_code.
  destruct c as [|c|c]; [by intros [= <-]| |done].
  repeat (destruct c as [c|c|]; try done); by intros [= <-].
Qed.
Lemma protocol_from_code_spec c p : protocol_from_code c = Ok p ↔ c = protocol_code p.
Proof.
  split; [|intros ->; by destruct p]. unfold protocol_from_code.
  destruct c as [|c|c]; [by intros [= <-]| |done].
  repeat (destruct c as [c|c|]; try done); by intros [= <-].
Qed.
Lemma validator_from_parts_spec kind value v :
  validator_from_parts kind value = Ok v ↔ (kind, value) = validator_parts v.
Proof.
  unfold validator_from_parts. split.
  - destruct value; repeat case_bool_decide; try done; intros [= <-]; by subst.
  - destruct v; by intros [= -> ->].
Qed.
Lemma into_validator_spec w v : into_validator w = Ok v ↔ w = from_validator v.
Proof.
  split; [|intros ->; by destruct v]. unfold into_validator. destruct w as [c o].
  destruct c as [|c|c]; [destruct o; [by intros [= <-]|done]| |done].
  repeat (destruct c as [c|c|]; try done); destruct o; try done; by intros [= <-].
Qed.
Lemma into_digest_spec w d : into_digest w = Ok d ↔ w = from_digest d ∧ encoded d ≠ [].
Proof.
  unfold into_digest, from_digest. destruct w as [c e], d as [a e']. cbn. split.
  - destruct c as [|c|c]; [| |done]; [|destruct c as [c|c|]; try done];
      case_bool_decide; try done; by intros [= <- <-].
  - intros [[= -> ->] Hne]. destruct a; by rewrite bool_decide_eq_false_2.
Qed.

Lemma digest_from_text_spec raw d :
  digest_from_text (Some raw) = Ok (Some d) ↔ raw = digest_text d ∧ encoded d ≠ [].
Proof.
  unfold digest_from_text, digest_text. split.
  - destruct (split_once 58 raw) as [[n e]|] eqn:Es; [|done]. cbn [ok_or].
    apply split_once_Some in Es as [-> _].
    destruct (match_name _ n) as [a|] eqn:En; [|done]. cbn [ok_or].
    case_bool_decide; [done|]. intros [= <-]. cbn. split; [|done]. f_equal.
    apply match_name_Some in En as (name & Hin & ->).
    apply elem_of_cons in Hin as [[= -> ->]|Hin]; [done|].
    apply elem_of_cons in Hin as [[= -> ->]|Hin]; [done|]. by apply elem_of_nil in Hin.
  - intros [-> Hne]. destruct d as [a e]. cbn [algorithm encoded] in *.
    rewrite split_once_app.
    2: { intros Hin. destruct a; cbn in Hin;
           repeat (apply elem_of_cons in Hin as [?|Hin]; [lia|]); by apply elem_of_nil in Hin. }
    cbn [ok_or].
    assert (match_name [("sha-256", Sha256); ("sha-512", Sha512)]%string (token a) = Some a) as ->
      by (destruct a; reflexivity).
    cbn [ok_or]. by rewrite bool_decide_eq_false_2.
Qed.

Lemma rust_u64_Ok field v : 0 ≤ v → rust_u64 field v = Ok v.
Proof. intros. unfold rust_u64. by rewrite (proj2 (Z.leb_le _ _)). Qed.

(** ** Checkpoints *)

(** Non-empty intervals inside the file, each past the end of the one before. *)
Fixpoint laid_out (total : Z) (previous_end : Z) (l : list CompleteInterval) : Prop :=
  match l with
  | [] => True
  | i :: l => previous_end ≤ ci_start i ∧ ci_start i < ci_end i ∧ ci_end i ≤ total ∧
      laid_out total (ci_end i) l
  end.

Definition ci_contains (b : Z) (i : CompleteInterval) : Prop := ci_start i ≤ b < ci_end i.
#[export] Instance ci_contains_dec b i : Decision (ci_contains b i).
Proof. unfold ci_contains. apply _. Defined.

(** How many bytes of [[from, total)] lie in some interval. *)
Definition covered_from (from total : Z) (l : list CompleteInterval) : Z :=
  zlen (filter (λ b, Exists (ci_contains b) l) (seqZ from (total - from))).

Lemma laid_out_ge total p l : laid_out total p l → Forall (λ i, p ≤ ci_start i) l.
Proof.
  revert p. induction l as [|i l IH]; intros p; cbn; [done|]. intros (? & ? & ? & Hl).
  constructor; [done|]. eapply Forall_impl; [by apply IH|]. cbn. intros. lia.
Qed.

Lemma covered_from_cons p total i l :
  0 ≤ p → laid_out total p (i :: l) →
  covered_from p total (i :: l) = ci_end i - ci_start i + covered_from (ci_end i) total l.
Proof.
  intros Hp (Hs & Hne & He & Hl). unfold covered_from.
  pose proof (laid_out_ge _ _ _ Hl) as Hge. rewrite Forall_forall in Hge.
  replace (total - p) with ((ci_start i - p) + ((ci_end i - ci_start i) + (total - ci_end i))) by lia.
  rewrite seqZ_app by lia. replace (p + (ci_start i - p)) with (ci_start i) by lia.
  rewrite seqZ_app by lia. replace (ci_start i + (ci_end i - ci_start i)) with (ci_end i) by lia.
  rewrite !filter_app, filter_none, filter_all, app_nil_l, zlen_app.
  - unfold zlen at 1. rewrite length_seqZ, Z2Nat.id by lia. f_equal. f_equal. apply filter_iff_in.
    intros b Hb%elem_of_seqZ. rewrite Exists_cons. unfold ci_contains at 1. intuition lia.
  - intros b Hb%elem_of_seqZ. left. unfold ci_contains. lia.
  - intros b Hb%elem_of_seqZ [Hc|Hc]%Exists_cons; [unfold ci_contains in Hc; lia|].
    apply Exists_exists in Hc as (j & Hj & Hc). specialize (Hge j Hj). unfold ci_contains in Hc. lia.
Qed.

Lemma interval_fold_err total l e : fold_left (interval_step total) l (Err e) = Err e.
Proof. induction l; cbn; [done|]. done. Qed.

Lemma interval_fold total l prev covered :
  u64 total → Forall (λ i, u64 (ci_start i) ∧ u64 (ci_end i)) l →
  0 ≤ covered ≤ default 0 prev → default 0 prev ≤ total →
  match fold_left (interval_step total) l (Ok (prev, covered)) with
  | Ok (_, c) => laid_out total (default 0 prev) l ∧
      c = covered + covered_from (default 0 prev) total l
  | Err e => ¬ laid_out total (default 0 prev) l
  end.
Proof.
  intros Hu. revert prev covered. induction l as [|i l IH]; intros prev covered Hl Hc Hp; cbn [fold_left].
  { split; [done|]. unfold covered_from. rewrite filter_none; [rewrite zlen_nil; lia|].
    intros b _ Hb. by apply Exists_nil in Hb. }
  apply Forall_cons in Hl as [[Hs He] Hl]. unfold interval_step at 2.
  destruct (Z.leb_spec (ci_end i) (ci_start i)).
  { rewrite interval_fold_err. cbn. lia. }
  destruct (Z.ltb_spec total (ci_end i)); [rewrite interval_fold_err; cbn; lia|].
  destruct (match prev with Some e => ci_start i <? e | None => false end) eqn:Hprev.
  { rewrite interval_fold_err. destruct prev; [|done]. apply Z.ltb_lt in Hprev. cbn. lia. }
  assert (Hge : default 0 prev ≤ ci_start i)
    by (destruct prev; [by apply Z.ltb_ge in Hprev|cbn; ulia]).
  rewrite wsub64_small by ulia.
  assert (checked_add64 covered (ci_end i - ci_start i) = Some (covered + (ci_end i - ci_start i))) as ->
    by (apply checked_add64_Some; destruct Hu; split; [done|lia]).
  cbn [ok_or]. specialize (IH (Some (ci_end i)) (covered + (ci_end i - ci_start i)) Hl). cbn [default] in IH.
  destruct (fold_left _ l _) as [[p' c']|e].
  - destruct IH as [Hlay ->]; [cbn; lia|cbn; lia|]. cbn [default id] in *.
    assert (Hlay2 : laid_out total (default 0 prev) (i :: l)) by (cbn; auto).
    split; [done|]. rewrite (covered_from_cons (default 0 prev) total i l ltac:(lia) Hlay2). lia.
  - cbn. intros (_ & _ & _ & Hlay).
    exact (IH ltac:(cbn; lia) ltac:(cbn; lia) Hlay).
Qed.

(** Disjoint intervals of a [u64]-sized file cannot overflow the sum, whatever else is wrong. *)
Lemma interval_fold_no_overflow total l prev covered :
  u64 total → Forall (λ i, u64 (ci_start i) ∧ u64 (ci_end i)) l → 0 ≤ covered ≤ default 0 prev →
  fold_left (interval_step total) l (Ok (prev, covered)) ≠
    Err (InvalidCheckpoint "covered byte count overflowed").
Proof.
  intros Hu. revert prev covered. induction l as [|i l IH]; intros prev covered Hl Hc; cbn [fold_left]; [done|].
  apply Forall_cons in Hl as [[Hs He] Hl]. unfold interval_step at 2.
  destruct (Z.leb_spec (ci_end i) (ci_start i)); [by rewrite interval_fold_err|].
  destruct (Z.ltb_spec total (ci_end i)); [by rewrite interval_fold_err|].
  destruct (match prev with Some e => ci_start i <? e | None => false end) eqn:Hprev;
    [by rewrite interval_fold_err|].
  assert (Hge : default 0 prev ≤ ci_start i)
    by (destruct prev; [by apply Z.ltb_ge in Hprev|cbn; ulia]).
  rewrite wsub64_small by ulia.
  assert (checked_add64 covered (ci_end i - ci_start i) = Some (covered + (ci_end i - ci_start i))) as ->
    by (apply checked_add64_Some; destruct Hu; split; [done|lia]).
  cbn [ok_or]. apply IH; [done|]. cbn. lia.
Qed.

(** ** CBOR heads *)

Definition to_be_bytes (n : nat) (v : Z) : list byte := reverse (to_le_bytes n v).

(** RFC 8949, section 3: the shortest head. *)
Definition cbor_head (major v : Z) : list byte :=
  if v <=? 23 then [byte_of (major * 32 + v)]
  else if v <? 256 then byte_of (major * 32 + 24) :: to_be_bytes 1 v
  else if v <? 65536 then byte_of (major * 32 + 25) :: to_be_bytes 2 v
  else if v <? 4294967296 then byte_of (major * 32 + 26) :: to_be_bytes 4 v
  else byte_of (major * 32 + 27) :: to_be_bytes 8 v.

Lemma head_bits x : 0 ≤ x → Z.shiftr x 5 = x / 32 ∧ Z.land x 31 = x mod 32.
Proof.
  intros. rewrite Z.shiftr_div_pow2 by lia. change 31 with (Z.ones 5).
  by rewrite Z.land_ones by lia.
Qed.

Lemma parse_cbor_head_Ok encoded offset format major v next :
  0 ≤ offset → parse_cbor_head encoded offset format = Ok (major, v, next) →
  0 ≤ major < 8 ∧ u64 v ∧ offset < next ≤ offset + 9 ∧ next ≤ zlen encoded.
Proof.
  intros Ho. unfold parse_cbor_head.
  destruct (encoded !! Z.to_nat offset) as [b|] eqn:Hb; [|done]. cbn [ok_or].
  apply lookup_lt_Some in Hb. pose proof (byte_val_range b) as Hr.
  destruct (head_bits (byte_val b)) as [-> ->]; [lia|].
  assert (0 ≤ byte_val b / 32 < 8)
    by (split; [apply Z.div_pos; lia|apply Z.div_lt_upper_bound; lia]).
  pose proof (Z.mod_pos_bound (byte_val b) 32 ltac:(lia)) as Hm.
  set (a := byte_val b mod 32) in *.
  destruct (checked_add64 offset 1) as [n|] eqn:En; [|done]. apply checked_add64_Some in En as [-> _].
  cbn [ok_or]. destruct (argument_width a) as [w|] eqn:Ew; [|done]. cbn [ok_or].
  assert (Hw : w = 0 ∨ w = 1 ∨ w = 2 ∨ w = 4 ∨ w = 8).
  { unfold argument_width in Ew. case_bool; [simplify_eq; auto|]. repeat case_match; simplify_eq; auto. }
  destruct (Z.eqb_spec w 0) as [->|Hw0].
  { intros [= <- <- <-]. split_and!; try (unfold zlen; ulia); done. }
  destruct (checked_add64 (offset + 1) w) as [e|] eqn:Ee; [|done].
  apply checked_add64_Some in Ee as [-> _]. cbn [ok_or].
  destruct (zslice encoded (offset + 1) (offset + 1 + w)) as [p|] eqn:Ez; [|done].
  intros [= <- <- <-]. pose proof (zslice_len _ _ _ _ Ez) as Hl.
  apply zslice_Some in Ez as (? & ? & ? & _).
  pose proof (from_le_bytes_range (reverse p)) as Hv. rewrite length_reverse in Hv.
  unfold zlen in Hl. replace (Z.of_nat (length p)) with w in Hv by lia.
  split_and!; try lia; unfold from_be_bytes;
    destruct Hw as [->|[->|[->|[->| ->]]]]; (done || (cbn in Hv; ulia)).
Qed.

Lemma parse_head_wide pre post major w v additional format :
  0 ≤ major < 8 → 0 ≤ v < 256 ^ Z.of_nat w → 24 ≤ additional < 32 →
  argument_width additional = Some (Z.of_nat w) → (0 < w ≤ 8)%nat →
  zlen pre + 9 < u64_modulus →
  parse_cbor_head (pre ++ (byte_of (major * 32 + additional) :: to_be_bytes w v) ++ post)
    (zlen pre) format = Ok (major, v, zlen pre + 1 + Z.of_nat w).
Proof.
  intros Hm Hv Ha Hw Hpos Hu. pose proof (zlen_nonneg pre). unfold parse_cbor_head.
  unfold zlen at 1. rewrite Nat2Z.id. cbn [app]. rewrite list_lookup_middle by done. cbn [ok_or].
  rewrite byte_val_of by lia. destruct (head_bits (major * 32 + additional)) as [-> ->]; [lia|].
  rewrite (Z.add_comm (major * 32)), Z.div_add, Z.mod_add, Z.div_small, Z.mod_small by lia.
  assert (checked_add64 (zlen pre) 1 = Some (zlen pre + 1)) as ->
    by (apply checked_add64_Some; lia).
  cbn [ok_or]. rewrite Hw. cbn [ok_or]. destruct (Z.eqb_spec (Z.of_nat w) 0); [lia|].
  assert (checked_add64 (zlen pre + 1) (Z.of_nat w) = Some (zlen pre + 1 + Z.of_nat w)) as ->
    by (apply checked_add64_Some; lia).
  cbn [ok_or].
  assert (zslice (pre ++ byte_of (additional + major * 32) :: to_be_bytes w v ++ post) (zlen pre + 1)
    (zlen pre + 1 + Z.of_nat w) = Some (to_be_bytes w v)) as ->.
  { change (?a :: ?x ++ ?y) with ([a] ++ x ++ y). rewrite (app_assoc pre).
    assert (Hl1 : zlen (pre ++ [byte_of (additional + major * 32)]) = zlen pre + 1)
      by (rewrite zlen_app; done).
    assert (Hl2 : zlen (to_be_bytes w v) = Z.of_nat w)
      by (unfold to_be_bytes, zlen; by rewrite length_reverse, length_to_le_bytes).
    apply zslice_mid; lia. }
  cbn [ok_or]. unfold from_be_bytes, to_be_bytes.
  rewrite reverse_involutive, from_to_le_bytes by done. do 2 f_equal.
Qed.

Lemma parse_cbor_head_write pre post major v format :
  0 ≤ major < 8 → u64 v → zlen pre + 9 < u64_modulus →
  parse_cbor_head (pre ++ cbor_head major v ++ post) (zlen pre) format =
    Ok (major, v, zlen pre + zlen (cbor_head major v)).
Proof.
  intros Hm Hv Hu. unfold cbor_head.
  destruct (Z.leb_spec v 23).
  { pose proof (zlen_nonneg pre). unfold parse_cbor_head. unfold zlen at 1. rewrite Nat2Z.id. cbn [app].
    rewrite list_lookup_middle by done. cbn [ok_or]. destruct Hv as [Hv _].
    rewrite byte_val_of by lia. destruct (head_bits (major * 32 + v)) as [-> ->]; [lia|].
    rewrite (Z.add_comm (major * 32)), Z.div_add, Z.mod_add, Z.div_small, Z.mod_small by lia.
    assert (checked_add64 (zlen pre) 1 = Some (zlen pre + 1)) as ->
      by (apply checked_add64_Some; lia).
    cbn [ok_or]. unfold argument_width. by rewrite (proj2 (Z.leb_le v 23)) by lia. }
  destruct Hv as [_ Hv]. unfold u64_modulus in Hv.
  repeat match goal with |- context [if ?a <? ?b then _ else _] => destruct (Z.ltb_spec a b) end.
  all: erewrite parse_head_wide; try done; try lia; try (cbn; lia).
  all: unfold to_be_bytes; rewrite zlen_cons; unfold zlen at 3; rewrite length_reverse, length_to_le_bytes;
    do 2 f_equal; lia.
Qed.

(** ** Range evidence *)

(** What [serde] and [ciborium] promise of a tuple of eight whose first field is the version. *)
Class CborObservationLaws `{Cbor RangeObservationWireV1} := {
  observation_reads w bs : into_writer w = Ok bs → from_reader bs = Ok (w, zlen bs);
  observation_head w bs : into_writer w = Ok bs → w_version w = 1 →
    ∃ rest, bs = cbor_head 4 8 ++ cbor_head 0 1 ++ rest;
}.

Lemma peek_version_head n version rest format maximum :
  u64 n → u64 version → zlen (cbor_head 4 n ++ cbor_head 0 version ++ rest) ≤ maximum →
  peek_version (cbor_head 4 n ++ cbor_head 0 version ++ rest) format maximum =
    if version =? 1 then Ok tt
    else if 1 <? version then Err (NewerFormatVersion format version 1)
    else Err (UnsupportedFormatVersion format version).
Proof.
  intros Hn Hv Hmax. unfold peek_version, check_payload_len.
  rewrite (proj2 (Z.ltb_ge _ _)) by done.
  pose proof (parse_cbor_head_write [] (cbor_head 0 version ++ rest) 4 n format ltac:(lia) Hn) as H1.
  rewrite app_nil_l in H1. change (zlen []) with 0 in H1. rewrite H1 by done. rewrite Z.add_0_l.
  cbn [negb Z.eqb Pos.eqb].
  assert (Hl : zlen (cbor_head 4 n) ≤ 9).
  { unfold cbor_head, to_be_bytes. unfold zlen.
    repeat case_bool; cbn [length]; rewrite ?length_reverse, ?length_to_le_bytes; lia. }
  rewrite (parse_cbor_head_write (cbor_head 4 n) rest 0 version format ltac:(lia) Hv) by ulia.
  cbn [negb Z.eqb]. unfold FORMAT_VERSION.
  destruct (Z.eqb_spec version 1) as [->|]; [done|]. by destruct (Z.ltb_spec 1 version).
Qed.

Lemma into_from_observation o w :
  from_observation o = Ok w → into_observation w = Ok o ∧ w_version w = 1.
Proof.
  unfold from_observation, into_observation. destruct o as [rq st cr ce bl].
  cbn [o_requested o_status o_content_range o_content_encoding o_body_len].
  destruct (check_optional_len "range.content_range" cr) as [[]|] eqn:E1; [|done].
  destruct (check_optional_len "range.content_encoding" ce) as [[]|] eqn:E2; [|done].
  destruct rq; intros [= <-]; cbn; by rewrite E1, E2.
Qed.

Lemma decode_encode_observation `{CborObservationLaws} o bs :
  encode_range_observation o = Ok bs → decode_range_observation bs = Ok o.
Proof.
  unfold encode_range_observation, decode_range_observation, encode_wire.
  destruct (from_observation o) as [w|] eqn:Ew; [|done].
  destruct (into_from_observation _ _ Ew) as [Hinto Hver].
  destruct (into_writer w) as [enc|] eqn:Ee; [|done]. cbn [map_err]. unfold check_payload_len.
  destruct (Z.ltb_spec MAX_RANGE_OBSERVATION_BYTES (zlen enc)); [done|]. intros [= <-].
  pose proof (observation_reads _ _ Ee) as Hread.
  destruct (observation_head _ _ Ee Hver) as [rest Hrest].
  assert (peek_version enc FRangeObservation MAX_RANGE_OBSERVATION_BYTES = Ok tt) as ->.
  { rewrite Hrest in *. rewrite peek_version_head; (done || ulia). }
  unfold decode_wire. rewrite Hread. cbn [map_err]. rewrite Z.eqb_refl. cbn [negb].
  unfold require_canonical, encode_wire. rewrite Ee. cbn [map_err].
  rewrite bool_decide_eq_true_2 by done. exact Hinto.
Qed.

(** ** Properties *)

(** A checkpoint is accepted exactly when it is true of itself.  Acceptance means: at most
    a million non-empty intervals, in order, disjoint, inside the file, and a covered byte count
    that is the number of bytes the intervals cover and that every recorded count equals.  The
    sum never overflows. *)
Theorem checkpoint_validation_exact total l expected :
  u64 total → Forall (λ i, u64 (ci_start i) ∧ u64 (ci_end i)) l →
  let sound := zlen l ≤ MAX_CHECKPOINT_INTERVALS ∧ laid_out total 0 l ∧
    match expected with
    | Some (encoded, sql) => encoded = covered_from 0 total l ∧ sql = covered_from 0 total l
    | None => True
    end in
  match validate_intervals total l expected with
  | Ok c => sound ∧ c = MkCheckpoint total (covered_from 0 total l) l
  | Err e => ¬ sound ∧ e ≠ InvalidCheckpoint "covered byte count overflowed"
  end.
Proof.
  intros Hu Hl. cbv zeta. unfold validate_intervals.
  destruct (Z.ltb_spec MAX_CHECKPOINT_INTERVALS (zlen l)) as [Hbig|Hn].
  { split; [|done]. intros [? _]. lia. }
  pose proof (interval_fold total l None 0 Hu Hl ltac:(cbn; lia) ltac:(destruct Hu; cbn; lia)) as Hf.
  pose proof (interval_fold_no_overflow total l None 0 Hu Hl ltac:(cbn; lia)) as Hno.
  destruct (fold_left _ l _) as [[p c]|e].
  2: { split; [|by intros ->]. intros (_ & Hlay & _). by apply Hf. }
  destruct Hf as [Hlay ->]. cbn [default] in *. rewrite Z.add_0_l.
  destruct expected as [[enc sql]|]; [|done].
  destruct (Z.eqb_spec (covered_from 0 total l) enc) as [<-|Hne]; cbn [negb orb].
  - destruct (Z.eqb_spec (covered_from 0 total l) sql) as [<-|Hne]; cbn [negb]; [done|].
    split; [|done]. intros (_ & _ & _ & ?). congruence.
  - split; [|done]. intros (_ & _ & ? & _). congruence.
Qed.

Example checkpoint_validation_exact_witness :
  ∃ c, validate_intervals 20 [MkComplete 0 5; MkComplete 5 8; MkComplete 12 20] (Some (16, 16)) = Ok c ∧
    cp_covered_bytes c = 16 ∧ laid_out 20 0 (cp_intervals c).
Proof.
  assert (Hl : Forall (λ i, u64 (ci_start i) ∧ u64 (ci_end i))
    [MkComplete 0 5; MkComplete 5 8; MkComplete 12 20])
    by (repeat (apply Forall_cons; split); (done || (cbn; ulia))).
  pose proof (checkpoint_validation_exact 20 _ (Some (16, 16)) ltac:(ulia) Hl) as Hc.
  cbv zeta in Hc. exists (MkCheckpoint 20 16 [MkComplete 0 5; MkComplete 5 8; MkComplete 12 20]).
  assert (Hv : validate_intervals 20 [MkComplete 0 5; MkComplete 5 8; MkComplete 12 20] (Some (16, 16)) =
    Ok (MkCheckpoint 20 16 [MkComplete 0 5; MkComplete 5 8; MkComplete 12 20])) by reflexivity.
  rewrite Hv in Hc. split; [exact Hv|]. split; [reflexivity|]. exact (proj1 (proj2 (proj1 Hc))).
Defined.

(** What is stored is read back, and nothing else is read.  States, protocols, validators and
    digests, as SQL text and as wire codes: parsing accepts exactly what writing produces and
    returns the value written; an integer survives SQLite exactly when it fits. *)
Theorem stored_values_roundtrip :
  (∀ raw s, parse_state raw = Ok s ↔ raw = state_name s) ∧
  (∀ code s, state_from_code code = Ok s ↔ code = state_code s) ∧
  (∀ raw p, parse_protocol raw = Ok p ↔ raw = protocol_name p) ∧
  (∀ code p, protocol_from_code code = Ok p ↔ code = protocol_code p) ∧
  (∀ kind value v, validator_from_parts kind value = Ok v ↔ (kind, value) = validator_parts v) ∧
  (∀ w v, into_validator w = Ok v ↔ w = from_validator v) ∧
  (∀ raw d, digest_from_text (Some raw) = Ok (Some d) ↔ raw = digest_text d ∧ encoded d ≠ []) ∧
  (∀ w d, into_digest w = Ok d ↔ w = from_digest d ∧ encoded d ≠ []) ∧
  (∀ field n v, 0 ≤ n → sqlite_u64 field n = Ok v ↔ v = n ∧ n < 2 ^ 63) ∧
  (∀ field n v, sqlite_u64 field n = Ok v → 0 ≤ n → rust_u64 field v = Ok n).
Proof.
  split; [exact parse_state_spec|]. split; [exact state_from_code_spec|].
  split; [exact parse_protocol_spec|]. split; [exact protocol_from_code_spec|].
  split; [exact validator_from_parts_spec|]. split; [exact into_validator_spec|].
  split; [exact digest_from_text_spec|]. split; [exact into_digest_spec|].
  unfold sqlite_u64, i64_try_from, rust_u64. change (2 ^ 63) with 9223372036854775808. split.
  - intros field n v Hn. destruct (Z.leb_spec n 9223372036854775807); cbn [ok_or].
    + split; [intros [= <-]; lia|by intros [-> _]].
    + split; [done|lia].
  - intros field n v. destruct (Z.leb_spec n 9223372036854775807); [|done].
    intros [= <-] Hn. by rewrite (proj2 (Z.leb_le _ _)).
Qed.

(** The gate before any decoding.  A CBOR head written in its shortest form is read back with
    its major type, argument and length wherever it stands; whatever a head reader returns was
    inside the input and took at most nine bytes; and a payload is let through exactly when its
    declared version is the supported one, a newer one being told apart from an older. *)
Theorem version_gate_exact pre major v post format n version rest maximum encoded offset :
  0 ≤ major < 8 → u64 v → zlen pre + 9 < u64_modulus → u64 n → u64 version →
  zlen (cbor_head 4 n ++ cbor_head 0 version ++ rest) ≤ maximum → 0 ≤ offset →
  parse_cbor_head (pre ++ cbor_head major v ++ post) (zlen pre) format =
    Ok (major, v, zlen pre + zlen (cbor_head major v)) ∧
  (∀ m a next, parse_cbor_head encoded offset format = Ok (m, a, next) →
    0 ≤ m < 8 ∧ u64 a ∧ offset < next ≤ offset + 9 ∧ next ≤ zlen encoded) ∧
  peek_version (cbor_head 4 n ++ cbor_head 0 version ++ rest) format maximum =
    if version =? 1 then Ok tt
    else if 1 <? version then Err (NewerFormatVersion format version 1)
    else Err (UnsupportedFormatVersion format version).
Proof.
  intros. split; [by apply parse_cbor_head_write|]. split; [|by apply peek_version_head].
  intros m a next Hp. by apply (parse_cbor_head_Ok _ _ _ _ _ _ ltac:(eassumption) Hp).
Qed.

Example version_gate_exact_witness :
  parse_cbor_head [x00; x19; x03; xe8] 1 FCheckpoint = Ok (0, 1000, 4) ∧
  peek_version [x84; x02] FCheckpoint 100 = Err (NewerFormatVersion FCheckpoint 2 1).
Proof.
  destruct (version_gate_exact [x00] 0 1000 [] FCheckpoint 4 2 [] 100 [] 0)
    as (Hh & _ & Hp); [lia|ulia|vm_compute; done|ulia|ulia|vm_compute; discriminate|lia|].
  split; [exact Hh|exact Hp].
Defined.

(** Stored range evidence is proof again, never trust.  Whatever range support a probe could
    have established, the columns written for it read back as the same support, the proof being
    rebuilt from the stored observation by the one constructor. *)
Theorem range_evidence_survives_storage `{CborObservationLaws} r state encoded :
  match r with
  | Proven p => ∃ requested status content_range content_encoding body_len, wf_request requested ∧
      from_observed_response requested status content_range content_encoding body_len = Ok p
  | _ => True
  end →
  range_support_parts r = Ok (state, encoded) → range_support_from_parts state encoded = Ok r.
Proof.
  destruct r as [p| |]; cbn [range_support_parts].
  2-3: intros _ [= <- <-]; reflexivity.
  intros (rq & st & cr & ce & bl & Hwf & Hp).
  destruct (encode_range_observation (observation p)) as [bs|] eqn:Ee; [|done]. intros [= <- <-].
  unfold range_support_from_parts. rewrite bool_decide_eq_true_2 by done.
  rewrite (decode_encode_observation _ _ Ee).
  pose proof (proj1 (from_observed_response_spec _ _ _ _ _ _ Hwf) Hp)
    as (_ & _ & h & f & l & t & _ & _ & _ & _ & ->).
  cbn [observation o_requested o_status o_content_range o_content_encoding o_body_len].
  by rewrite Hp.
Qed.

(** A codec for one observation, enough to run the round trip. *)
Module Example_observation.
Definition wire : RangeObservationWireV1 :=
  MkObservationWire 1 0 0 (Some 0) 206 (Some (lit "bytes 0-0/9")) None 1.
Definition bytes : list byte :=
  cbor_head 4 8 ++ cbor_head 0 1 ++ [x00; x00; x00; x18; xce; x6b; xf6; x01].
Definition is_wire (w : RangeObservationWireV1) : bool :=
  (w_version w =? 1) && (w_kind w =? 0) && (w_first w =? 0) &&
  bool_decide (w_second w = Some 0) && (w_status w =? 206) &&
  bool_decide (w_content_range w = Some (lit "bytes 0-0/9")) &&
  bool_decide (w_content_encoding w = None) && (w_body_len w =? 1).
Lemma is_wire_spec w : is_wire w = true → w = wire.
Proof. destruct w. unfold is_wire. cbn -[lit]. intros. bool_to_prop. by subst. Qed.

#[refine, local] Instance one_codec : Cbor RangeObservationWireV1 := {
  into_writer w := if is_wire w then Ok bytes else Err "unknown"%string;
  from_reader bs := if bool_decide (bs = bytes) then Ok (wire, zlen bs) else Err "unknown"%string;
}.
Defined.
#[local] Instance one_codec_laws : CborObservationLaws.
Proof.
  split; cbn [into_writer one_codec from_reader]; intros w bs;
    (destruct (is_wire w) eqn:E; [|done]); apply is_wire_spec in E as ->; intros [= <-].
  - by rewrite bool_decide_eq_true_2.
  - intros _. by eexists.
Qed.

Definition ex_proof : RangeProof :=
  MkProof 9 (Bytes 0 0 (Some 9)) (FromTo 0 0)
    (RangeObservation_new (FromTo 0 0) 206 (Some (lit "bytes 0-0/9")) None 1).

Example range_evidence_survives_storage_witness :
  range_support_parts (Proven ex_proof) = Ok (lit "proven", Some bytes) ∧
  range_support_from_parts (lit "proven") (Some bytes) = Ok (Proven ex_proof).
Proof.
  assert (Hp : range_support_parts (Proven ex_proof) = Ok (lit "proven", Some bytes))
    by (vm_compute; reflexivity).
  split; [exact Hp|].
  refine (range_evidence_survives_storage (Proven ex_proof) _ _ _ Hp).
  exists (FromTo 0 0), 206, (Some (lit "bytes 0-0/9")), None, 1.
  split; [cbn; ulia|vm_compute; reflexivity].
Defined.
End Example_observation.

End Metadata.
