(* ===== verification/Recovery.v ===== *)
(** * [downpour-storage/src/recovery.rs]: reconciling one download after an unclean shutdown

    The part file, the journal and the metadata record brought back into agreement.  The journal
    is the only authority for what is complete; the metadata store is an interface. *)

From S2P Require Import Prelude Intervals Io Format JournalState Replay PartFile Str Remote Metadata.
From Stdlib Require Import String.
From stdpp Require Import list.
#[local] Open Scope Z_scope.

Module Recovery.
Import Str.Str Remote.Remote Format.Format JournalState.JournalState Replay.Replay
  PartFile.PartFile Io.Io Metadata.Metadata Intervals.Intervals.

Definition RECOVERY_WORKER : WorkerId := WorkerId_new u64_max.

Inductive CheckpointDivergence :=
| NoCheckpoint
| CheckpointUnreadable
| Agreed
| JournalAhead (journal_covered_bytes sqlite_covered_bytes : Z)
| SqliteAhead (journal_covered_bytes sqlite_covered_bytes : Z)
| SameCoverageDifferentIntervals (covered_bytes : Z).

Inductive PartFileExtent :=
| Intact
| Reextended (observed_length total_length : Z)
| Overlong (observed_length total_length : Z).

Record Reconciliation := MkReconciliation {
  rec_state : DownloadState;
  rec_error_kind : option DownloadErrorKind;
  rec_intervals : IntervalMap;
  rec_covered_bytes : Z;
  rec_next_sequence : Z;
  rec_sealed : option (list byte);
  rec_divergence : CheckpointDivergence;
  rec_extent : PartFileExtent;
  rec_journal_tail_repaired : bool;
  rec_space_reserved : bool;
}.

Inductive RecoveryError :=
| UnknownDownload
| AlreadyTerminal (state : DownloadState)
| RecMetadata (e : MetadataError)
| RecPartFile (e : PartFileError)
| RecIo (e : Error)
| RecInterval (e : IntervalMapError).

(** What recovery asks of the metadata store. *)
Class MetadataStore (S : Type) := {
  load_download : DownloadId → S → result (option DownloadMetadata) MetadataError;
  save_download : DownloadMetadata → S → result unit MetadataError * S;
  load_checkpoint : DownloadId → S → result (option PersistedCheckpoint) MetadataError;
  save_checkpoint : DownloadId → Z → Z → Metadata.Checkpoint → S → result bool MetadataError * S;
}.

(** What the operating system answers: whether the part path exists, the part file opened, the
    journal opened, and the two calls of a journal repair. *)
Record Calls := MkCalls {
  call_exists : bool;
  call_part : result File Error;
  call_journal : result reader Error;
  call_set_len : result unit Error;
  call_sync_all : result unit Error;
}.

(** ** Merging *)

(** One iteration of [merge_adjacent]'s loop. *)
Definition merge_step (acc : result (list Range) RecoveryError) (block : CompletedBlock)
    : result (list Range) RecoveryError :=
  let? merged := acc in
  let? e := map_err (λ _, RecIo invalid_data) (block_end block) in
  match last merged with
  | Some l =>
      if r_end l =? cb_offset block
      then Ok (removelast merged ++ [MkRange (r_start l) e])
      else Ok (merged ++ [MkRange (cb_offset block) e])
  | None => Ok (merged ++ [MkRange (cb_offset block) e])
  end.

Definition merge_adjacent (blocks : list CompletedBlock) : result (list Range) RecoveryError :=
  fold_left merge_step blocks (Ok []).

(** One iteration of the rebuilding loop. *)
Definition rebuild_step (acc : result (IntervalMap * Z) RecoveryError) (range : Range)
    : result (IntervalMap * Z) RecoveryError :=
  let? '(m, covered_bytes) := acc in
  let '(granted, m) := grant m range RECOVERY_WORKER in
  let? _ := map_err RecInterval granted in
  let '(completed, m) := complete m range RECOVERY_WORKER in
  let? _ := map_err RecInterval completed in
  let? covered_bytes :=
    ok_or (checked_add64 covered_bytes (wsub64 (r_end range) (r_start range))) (RecIo invalid_data) in
  Ok (m, covered_bytes).

Definition rebuild (effective_length : Z) (merged : list Range)
    : result (IntervalMap * Z) RecoveryError :=
  fold_left rebuild_step merged (Ok (Intervals.new effective_length, 0)).

Section recovery.
Context {S : Type} `{MetadataStore S} `{Checksum} `{Os}.

Definition interval_is_range (p : CompleteInterval * Range) : bool :=
  (ci_start (fst p) =? r_start (snd p)) && (ci_end (fst p) =? r_end (snd p)).

Definition compare_checkpoint (store : S) (id : DownloadId) (journal_covered_bytes : Z)
    (merged : list Range) : CheckpointDivergence :=
  match load_checkpoint id store with
  | Ok None => NoCheckpoint
  | Err _ => CheckpointUnreadable
  | Ok (Some cached) =>
      let sqlite_covered_bytes := cp_covered_bytes (pc_checkpoint cached) in
      let cached_intervals := cp_intervals (pc_checkpoint cached) in
      let same_intervals :=
        (zlen cached_intervals =? zlen merged) &&
        forallb interval_is_range (zip cached_intervals merged) in
      if sqlite_covered_bytes =? journal_covered_bytes then
        if same_intervals then Agreed else SameCoverageDifferentIntervals journal_covered_bytes
      else if sqlite_covered_bytes <? journal_covered_bytes
      then JournalAhead journal_covered_bytes sqlite_covered_bytes
      else SqliteAhead journal_covered_bytes sqlite_covered_bytes
  end.

(** ** Writing back *)

Definition failed_metadata (metadata : DownloadMetadata) (kind : DownloadErrorKind) (now_ms : Z)
    : DownloadMetadata :=
  MkMetadata (md_id metadata) Failed (md_created_at_ms metadata) now_ms (md_target_path metadata)
    (md_part_path metadata) (md_total_length metadata) 0 (md_queue_position metadata)
    (md_priority metadata) (Some kind) (md_space_reserved metadata) (md_identity metadata)
    (md_url_history metadata).

Definition fail (store : S) (metadata : DownloadMetadata) (kind : string) (now_ms : Z)
    : result Reconciliation RecoveryError * S :=
  match DownloadErrorKind_new (lit kind) with
  | Err e => (Err (RecMetadata e), store)
  | Ok error_kind =>
      let total_length := default 0 (md_total_length metadata) in
      let '(saved, store) := save_download (failed_metadata metadata error_kind now_ms) store in
      match saved with
      | Err e => (Err (RecMetadata e), store)
      | Ok _ =>
          (Ok (MkReconciliation Failed (Some error_kind) (Intervals.new total_length) 0 0 None
                 NoCheckpoint Intact false false), store)
      end
  end.

Definition with_range_support (i : IdentityMetadata) (r : RangeSupport) : IdentityMetadata :=
  MkIdentity (current_url i) (final_url i) (redirect_chain i) (page_url i) (origin i) (validator i)
    (server_digest i) (content_type i) (suggested_filename i) (request_context_ref i)
    (probed_at_ms i) (protocol i) r.

Definition persisted_metadata (metadata : DownloadMetadata) (reconciled : Reconciliation)
    (effective_length now_ms : Z) : DownloadMetadata :=
  MkMetadata (md_id metadata) (rec_state reconciled) (md_created_at_ms metadata) now_ms
    (md_target_path metadata) (md_part_path metadata) (Some effective_length)
    (rec_covered_bytes reconciled) (md_queue_position metadata) (md_priority metadata) None
    (rec_space_reserved reconciled)
    (if bool_decide (md_total_length metadata = Some effective_length) then md_identity metadata
     else with_range_support (md_identity metadata) Unknown)
    (md_url_history metadata).

(** The complete intervals, through [CompleteInterval::try_new] and [collect]. *)
Fixpoint complete_intervals (l : list Interval) : result (list CompleteInterval) MetadataError :=
  match l with
  | [] => Ok []
  | i :: l =>
      if bool_decide (state i = Complete) then
        let? c := CompleteInterval_try_new (start i) (end_ i) in
        let? cs := complete_intervals l in
        Ok (c :: cs)
      else complete_intervals l
  end.

Definition persist (store : S) (metadata : DownloadMetadata) (reconciled : Reconciliation)
    (effective_length now_ms : Z) : result Reconciliation RecoveryError * S :=
  let metadata := persisted_metadata metadata reconciled effective_length now_ms in
  let '(saved, store) := save_download metadata store in
  match saved with
  | Err e => (Err (RecMetadata e), store)
  | Ok _ =>
      match (let? cs := complete_intervals (intervals (rec_intervals reconciled)) in
             Checkpoint_try_new effective_length cs) with
      | Err e => (Err (RecMetadata e), store)
      | Ok checkpoint =>
          let '(saved, store) :=
            save_checkpoint (md_id metadata) (rec_next_sequence reconciled) now_ms checkpoint store in
          match saved with
          | Err e => (Err (RecMetadata e), store)
          | Ok _ => (Ok reconciled, store)
          end
      end
  end.

(** ** Reconciliation *)

(** What the call leaves behind. *)
Record After := MkAfter { af_store : S; af_part : option File; af_journal : list byte }.

Definition extent_of (reextended : bool) (observed_length total_length : Z) : PartFileExtent :=
  if reextended then Reextended observed_length total_length
  else if total_length <? observed_length then Overlong observed_length total_length
  else Intact.

(** Step 2c on: the journal has been replayed, or is not there. *)
Definition reconcile_journal (store : S) (metadata : DownloadMetadata) (id : DownloadId)
    (total_length observed_length : Z) (extent : PartFileExtent) (space_reserved : bool)
    (replayed : result ReplayOutcome ReplayError) (now_ms : Z)
    : result Reconciliation RecoveryError * S :=
  match replayed with
  | Err (ReplayFormat _) => fail store metadata "storage.journal-unreadable" now_ms
  | Err (ReplayIo source) =>
      if bool_decide (kind source = NotFound) then
        persist store metadata
          (MkReconciliation Paused None (Intervals.new total_length) 0 0 None NoCheckpoint extent
             false space_reserved)
          total_length now_ms
      else (Err (RecIo source), store)
  | Ok replayed =>
      if negb (bool_decide (h_transfer_id (ro_header replayed) = as_bytes id))
         || negb (h_total_length (ro_header replayed) =? total_length)
      then fail store metadata "storage.journal-mismatched" now_ms
      else
        match effective_state (ro_header replayed) (ro_records replayed) with
        | Err _ => fail store metadata "storage.journal-invalid" now_ms
        | Ok state =>
            let blocks := List.filter (ends_within observed_length) (es_blocks state) in
            match (let? merged := merge_adjacent blocks in
                   let? rebuilt := rebuild (es_effective_length state) merged in
                   Ok (merged, rebuilt)) with
            | Err e => (Err e, store)
            | Ok (merged, (m, covered_bytes)) =>
                persist store metadata
                  (MkReconciliation Paused None m covered_bytes (zlen (ro_records replayed))
                     (es_sealed state) (compare_checkpoint store id covered_bytes merged) extent
                     (negb (bool_decide (ro_stop replayed = CleanEof))) space_reserved)
                  (es_effective_length state) now_ms
            end
        end
  end.

(** [reconcile_download]; [journal] is what the journal file holds, [fuel] bounds its replay. *)
Definition reconcile_download (store : S) (id : DownloadId) (calls : Calls) (journal : list byte)
    (now_ms : Z) (fuel : nat) : option (result Reconciliation RecoveryError * After) :=
  let untouched store := MkAfter store (ok (call_part calls)) journal in
  match load_download id store with
  | Err e => Some (Err (RecMetadata e), untouched store)
  | Ok None => Some (Err UnknownDownload, untouched store)
  | Ok (Some metadata) =>
      if bool_decide (md_state metadata = Completed ∨ md_state metadata = Failed)
      then Some (Err (AlreadyTerminal (md_state metadata)), untouched store)
      else if negb (call_exists calls) then
        let '(r, store) := fail store metadata "storage.part-file-missing" now_ms in
        Some (r, untouched store)
      else
        match md_total_length metadata with
        | None =>
            let '(r, store) := fail store metadata "storage.length-unknown" now_ms in
            Some (r, untouched store)
        | Some total_length =>
            match open_existing (call_part calls) (md_part_path metadata) total_length with
            | (Err e, part) => Some (Err (RecPartFile e), MkAfter store part journal)
            | (Ok recovered, part) =>
                let observed_length := rp_observed_length recovered in
                match recover_journal (call_journal calls) journal (call_set_len calls)
                        (call_sync_all calls) fuel with
                | None => None
                | Some (replayed, journal) =>
                    let '(r, store) :=
                      reconcile_journal store metadata id total_length observed_length
                        (extent_of (rp_reextended recovered) observed_length total_length)
                        (rp_space_reserved recovered) replayed now_ms in
                    Some (r, MkAfter store part journal)
                end
            end
        end
  end.

End recovery.
Arguments After S : clear implicits.

(** ** Merged ranges *)

(** Non-empty ranges between [lo] and [hi], in order and disjoint. *)
Fixpoint ascending (lo : Z) (l : list Range) (hi : Z) : Prop :=
  match l with
  | [] => lo ≤ hi
  | r :: l => lo ≤ r_start r < r_end r ∧ ascending (r_end r) l hi
  end.

Lemma ascending_le lo l hi : ascending lo l hi → lo ≤ hi.
Proof.
  revert lo. induction l as [|r l IH]; intros lo; cbn; [done|]. intros [? Hl]. apply IH in Hl. lia.
Qed.
Lemma ascending_weaken lo l hi hi' : ascending lo l hi → hi ≤ hi' → ascending lo l hi'.
Proof.
  revert lo. induction l as [|r l IH]; intros lo; cbn; [lia|]. intros [? Hl] ?. split; [done|by apply IH].
Qed.
Lemma ascending_snoc lo l r hi :
  ascending lo (l ++ [r]) hi ↔ ascending lo l (r_start r) ∧ r_start r < r_end r ≤ hi.
Proof.
  revert lo. induction l as [|x l IH]; intros lo; cbn.
  - intuition lia.
  - rewrite IH. tauto.
Qed.

Definition in_ranges (l : list Range) (x : Z) : Prop := Exists (λ r, in_range r x) l.
#[export] Instance in_ranges_dec l x : Decision (in_ranges l x).
Proof. unfold in_ranges. apply _. Defined.

Lemma in_ranges_snoc l r x : in_ranges (l ++ [r]) x ↔ in_ranges l x ∨ in_range r x.
Proof. unfold in_ranges. rewrite Exists_app, Exists_cons, Exists_nil. tauto. Qed.

(** The bytes of a list of blocks. *)
Definition in_blocks (l : list CompletedBlock) (x : Z) : Prop :=
  Exists (λ b, in_range (block_range b) x) l.

Lemma merge_fold bound blocks merged pos :
  ascending 0 merged pos → in_order blocks → Forall (block_ok bound) blocks →
  Forall (λ b, pos ≤ cb_offset b) blocks → pos ≤ bound →
  ∃ out, fold_left merge_step blocks (Ok merged) = Ok out ∧ ascending 0 out bound ∧
    ∀ x, in_ranges out x ↔ in_ranges merged x ∨ in_blocks blocks x.
Proof.
  revert merged pos. induction blocks as [|b blocks IH]; intros merged pos Hm Hord Hok Hge Hpb;
    cbn [fold_left].
  { exists merged. split; [done|]. split; [by eapply ascending_weaken|].
    intros x. unfold in_blocks. rewrite Exists_nil. tauto. }
  destruct Hord as [Hnext Hord]. apply Forall_cons in Hok as [(Hl & Hs & He & Hu) Hok], Hge as [Hge _].
  unfold merge_step at 2, block_end, checked_add64. rewrite (proj2 (Z.ltb_lt _ _)) by done.
  cbn [ok_or map_err].
  assert (Hfresh : ascending 0 (merged ++ [MkRange (cb_offset b) (cb_offset b + cb_len b)])
    (cb_offset b + cb_len b)).
  { apply ascending_snoc. cbn. split; [by eapply ascending_weaken|lia]. }
  assert (Hstep : ∃ m2, match last merged with
      | Some l => if r_end l =? cb_offset b
          then Ok (removelast merged ++ [MkRange (r_start l) (cb_offset b + cb_len b)])
          else Ok (merged ++ [MkRange (cb_offset b) (cb_offset b + cb_len b)])
      | None => Ok (merged ++ [MkRange (cb_offset b) (cb_offset b + cb_len b)])
      end = Ok (E := RecoveryError) m2 ∧ ascending 0 m2 (cb_offset b + cb_len b) ∧
      ∀ x, in_ranges m2 x ↔ in_ranges merged x ∨ in_range (block_range b) x).
  { destruct (last merged) as [l|] eqn:El; [|eexists; split; [done|]; split; [done|];
      intros x; by rewrite in_ranges_snoc].
    apply last_Some in El as [pre ->].
    destruct (Z.eqb_spec (r_end l) (cb_offset b)) as [Heq|_]; [|eexists; split; [done|];
      split; [done|]; intros x; by rewrite in_ranges_snoc].
    rewrite removelast_last. eexists. split; [done|].
    apply ascending_snoc in Hm as [Hpre ?]. split.
    - apply ascending_snoc. cbn. split; [done|lia].
    - intros x. rewrite !in_ranges_snoc. unfold in_range, block_range. cbn. intuition lia. }
  destruct Hstep as (m2 & -> & Hm2 & Hx2).
  destruct (IH m2 (cb_offset b + cb_len b) Hm2 Hord Hok Hnext ltac:(lia)) as (out & -> & Ho & Hx).
  exists out. split; [done|]. split; [done|]. intros x. rewrite Hx, Hx2.
  unfold in_blocks. rewrite Exists_cons. tauto.
Qed.

Lemma merge_adjacent_spec bound blocks :
  in_order blocks → Forall (block_ok bound) blocks → 0 ≤ bound →
  ∃ out, merge_adjacent blocks = Ok out ∧ ascending 0 out bound ∧
    ∀ x, in_ranges out x ↔ in_blocks blocks x.
Proof.
  intros Hord Hok Hb.
  destruct (merge_fold bound blocks [] 0 ltac:(done) Hord Hok) as (out & Ho & Ha & Hx); [|done|].
  { eapply Forall_impl; [exact Hok|]. by intros b (_ & ? & _). }
  exists out. split; [done|]. split; [done|]. intros x. rewrite Hx. unfold in_ranges.
  rewrite Exists_nil. tauto.
Qed.

(** ** The rebuilt map *)

(** Completing a range none of which was complete adds its length to the count. *)
Lemma count_state_completed m m' range :
  valid_range m range → 0 ≤ r_start range → total_length m' = total_length m →
  (∀ b, in_range range b → state_at m b = Some Pending) →
  (∀ b, state_at m' b = if bool_decide (in_range range b) then Some Complete else state_at m b) →
  count_state m' Complete = count_state m Complete + (r_end range - r_start range).
Proof.
  intros [Hne Hle] H0 Ht Hp Hs. unfold count_state. rewrite Ht.
  set (t := total_length m) in *.
  replace t with (r_start range + ((r_end range - r_start range) + (t - r_end range))) by lia.
  rewrite !seqZ_app by lia. rewrite !Z.add_0_l.
  replace (r_start range + (r_end range - r_start range)) with (r_end range) by lia.
  rewrite !filter_app, !zlen_app.
  assert (Hout : ∀ l : list Z, (∀ b, b ∈ l → ¬ in_range range b) →
    filter (λ b, state_at m' b = Some Complete) l = filter (λ b, state_at m b = Some Complete) l).
  { intros l Hl. apply filter_iff_in. intros b Hb. rewrite Hs, bool_decide_eq_false_2; [done|auto]. }
  rewrite (Hout (seqZ 0 _)), (Hout (seqZ (r_end range) _)).
  - rewrite (filter_all _ (seqZ (r_start range) _)), (filter_none _ (seqZ (r_start range) _)).
    + change (zlen (@nil Z)) with 0. assert (zlen (seqZ (r_start range) (r_end range - r_start range)) = r_end range - r_start range) by (unfold zlen; rewrite length_seqZ; lia). lia.
    + intros b Hb%elem_of_seqZ. rewrite Hp; [done|]. unfold in_range. lia.
    + intros b Hb%elem_of_seqZ. rewrite Hs, bool_decide_eq_true_2; [done|]. unfold in_range. lia.
  - intros b Hb%elem_of_seqZ. unfold in_range. lia.
  - intros b Hb%elem_of_seqZ. unfold in_range. lia.
Qed.

Lemma rebuild_fold merged m lo :
  wf m → 0 ≤ lo → ascending lo merged (total_length m) →
  (∀ b, lo ≤ b < total_length m → state_at m b = Some Pending) → count_state m Complete ≤ lo →
  0 ≤ count_state m Complete →
  ∃ m', fold_left rebuild_step merged (Ok (m, count_state m Complete)) =
      Ok (m', count_state m' Complete) ∧
    wf m' ∧ total_length m' = total_length m ∧
    ∀ b, state_at m' b = if bool_decide (in_ranges merged b) then Some Complete else state_at m b.
Proof.
  revert m lo. induction merged as [|r merged IH]; intros m lo Hwf Hlo Ha Hp Hc Hc0; cbn [fold_left].
  { exists m. split_and!; [done..|]. intros b. rewrite bool_decide_eq_false_2; [done|].
    intros Hx. by apply Exists_nil in Hx. }
  destruct Ha as [Hr Ha]. pose proof (ascending_le _ _ _ Ha) as Hend. pose proof Hwf as ([_ Hu] & _).
  assert (Hv : valid_range m r) by (unfold valid_range; lia).
  assert (Hpr : ∀ b, in_range r b → state_at m b = Some Pending)
    by (intros b Hb; unfold in_range in Hb; apply Hp; lia).
  assert (Hsu : u64 (r_start r)) by (unfold u64; lia).
  unfold rebuild_step at 2.
  pose proof (grant_spec m r RECOVERY_WORKER Hwf Hsu) as Hg.
  destruct (grant m r RECOVERY_WORKER) as [[u|e] m1]; cbn [map_err].
  2: { destruct Hg as [_ [[? _]|(_ & _ & b & Hb & Hn)]]; [done|]. by specialize (Hpr b Hb). }
  destruct Hg as (_ & _ & Hwf1 & Ht1 & Hs1).
  pose proof (complete_spec m1 r RECOVERY_WORKER Hwf1 Hsu) as Hcm.
  destruct (complete m1 r RECOVERY_WORKER) as [[u'|e] m2]; cbn [map_err].
  2: { destruct Hcm as [_ [[Hv1 _]|(_ & _ & b & Hb & Hn)]].
       - exfalso. apply Hv1. unfold valid_range in *. by rewrite Ht1.
       - exfalso. apply Hn. rewrite Hs1. by rewrite bool_decide_eq_true_2. }
  destruct Hcm as (_ & _ & Hwf2 & Ht2 & Hs2).
  assert (Hs : ∀ b, state_at m2 b = if bool_decide (in_range r b) then Some Complete else state_at m b).
  { intros b. rewrite Hs2. case_bool_decide as E; [done|]. rewrite Hs1. by rewrite bool_decide_eq_false_2. }
  assert (Htt : total_length m2 = total_length m) by congruence.
  pose proof (count_state_completed m m2 r Hv ltac:(lia) Htt Hpr Hs) as Hcount.
  rewrite wsub64_small by lia. unfold checked_add64.
  rewrite (proj2 (Z.ltb_lt _ _)) by lia. cbn [ok_or]. rewrite <- Hcount.
  destruct (IH m2 (r_end r) Hwf2 ltac:(lia)) as (m' & -> & Hwf' & Ht' & Hs'); [by rewrite Htt| |lia|lia|].
  { intros b Hb. rewrite Htt in Hb. rewrite Hs, bool_decide_eq_false_2 by (unfold in_range; lia).
    apply Hp. lia. }
  exists m'. split; [done|]. split; [done|]. split; [congruence|]. intros b. rewrite Hs', Hs.
  unfold in_ranges. rewrite (bool_decide_ext _ _ (Exists_cons _ _ _)).
  repeat case_bool_decide; tauto || done.
Qed.

Lemma new_pending t b : state_at (Intervals.new t) b = if bool_decide (0 ≤ b < t) then Some Pending else None.
Proof.
  unfold Intervals.new, state_at. cbn. destruct (Z.eqb_spec t 0) as [->|]; cbn; [|done].
  rewrite bool_decide_eq_false_2 by lia. done.
Qed.

Lemma rebuild_spec t merged :
  u64 t → ascending 0 merged t →
  ∃ m, rebuild t merged = Ok (m, count_state m Complete) ∧ wf m ∧ total_length m = t ∧
    ∀ b, 0 ≤ b < t →
      state_at m b = Some (if bool_decide (in_ranges merged b) then Complete else Pending).
Proof.
  intros Hu Ha. unfold rebuild.
  assert (Hzero : count_state (Intervals.new t) Complete = 0).
  { unfold count_state. rewrite filter_none; [done|]. intros b _. rewrite new_pending.
    by case_bool_decide. }
  destruct (rebuild_fold merged (Intervals.new t) 0 (new_wf t Hu)) as (m & Hm & Hwf & Ht & Hs);
    rewrite ?Hzero; (lia || done || idtac).
  { intros b Hb. rewrite new_pending. by rewrite bool_decide_eq_true_2. }
  rewrite Hzero in Hm. exists m. split; [done|]. split; [done|]. split; [done|].
  intros b Hb. rewrite Hs, new_pending, (bool_decide_eq_true_2 (0 ≤ b < t)) by done.
  by case_bool_decide.
Qed.

(** ** What the journal proves *)

(** Some surviving block covers [b] and lies wholly within the first [observed] bytes. *)
Definition proven (st : EffectiveState) (observed b : Z) : Prop :=
  Exists (λ bk, in_range (block_range bk) b ∧ cb_offset bk + cb_len bk ≤ observed) (es_blocks st).
#[export] Instance proven_dec st observed b : Decision (proven st observed b).
Proof. unfold proven. apply _. Defined.

(** [m] is complete exactly where the journal proves it, and pending elsewhere. *)
Record believes (st : EffectiveState) (observed : Z) (m : IntervalMap) : Prop := {
  bl_wf : wf m;
  bl_length : total_length m = es_effective_length st;
  bl_state b : 0 ≤ b < total_length m →
    state_at m b = Some (if bool_decide (proven st observed b) then Complete else Pending);
}.

Lemma believes_unique st observed m1 m2 : believes st observed m1 → believes st observed m2 → m1 = m2.
Proof.
  intros [W1 L1 S1] [W2 L2 S2]. apply canonical_maps; [done|done|congruence|]. intros b.
  destruct (decide (0 ≤ b < total_length m1)) as [Hb|Hb].
  - rewrite S1, S2; [done|by rewrite L2, <- L1|done].
  - rewrite (proj2 (wf_state_at_None m1 b W1)) by done.
    symmetry. apply wf_state_at_None; [done|]. by rewrite L2, <- L1.
Qed.

(** More bytes on disk matter only for blocks that end among them. *)
Lemma believes_ext st o1 o2 m :
  Forall (λ bk, cb_offset bk + cb_len bk ≤ o1 ↔ cb_offset bk + cb_len bk ≤ o2) (es_blocks st) →
  believes st o1 m → believes st o2 m.
Proof.
  intros Hall [W L S]. split; [done|done|]. intros b Hb. rewrite S by done.
  rewrite (bool_decide_ext (proven st o1 b) (proven st o2 b)); [done|]. unfold proven.
  rewrite !Exists_exists. rewrite Forall_forall in Hall.
  split; intros (bk & Hin & ? & ?); exists bk; (split; [done|]); split; try done; by apply (Hall bk Hin).
Qed.

Lemma in_order_filter (f : CompletedBlock → bool) l : in_order l → in_order (List.filter f l).
Proof.
  induction l as [|b l IH]; cbn; [done|]. intros [Hn Ho]. destruct (f b); [|by apply IH].
  split; [|by apply IH]. rewrite Forall_forall in *. intros x Hx%list_elem_of_In.
  apply filter_In in Hx as [Hx _]. by apply Hn, list_elem_of_In.
Qed.

Lemma rebuild_journal header rs st observed :
  wf_header header → Forall wf_framed rs → effective_state header rs = Ok st →
  ∃ merged m, merge_adjacent (List.filter (ends_within observed) (es_blocks st)) = Ok merged ∧
    rebuild (es_effective_length st) merged = Ok (m, count_state m Complete) ∧
    believes st observed m.
Proof.
  intros Hh Hwf Hst.
  destruct (effective_state_facts header rs st Hwf Hst)
    as (Hok & Hord & _ & Hl & Hle & _ & Htu & _).
  assert (Hu : u64 (es_effective_length st)).
  { rewrite Hl. destruct (es_truncate st); [done|]. cbn. by destruct Hh as (_ & ? & _). }
  set (blocks := List.filter (ends_within observed) (es_blocks st)).
  assert (Hin : ∀ bk, bk ∈ blocks ↔ bk ∈ es_blocks st ∧ cb_offset bk + cb_len bk ≤ observed).
  { intros bk. unfold blocks. rewrite list_elem_of_In, filter_In, <- list_elem_of_In.
    rewrite Forall_forall in Hok. split; intros [Hbk He]; (split; [done|]);
      destruct (Hok bk Hbk) as (_ & _ & _ & ?); by apply ends_within_true. }
  destruct (merge_adjacent_spec (es_effective_length st) blocks) as (merged & Hm & Ha & Hx).
  { by apply in_order_filter. }
  { apply Forall_forall. intros bk [Hbk _]%Hin. rewrite Forall_forall in Hok. by apply Hok. }
  { by destruct Hu. }
  destruct (rebuild_spec _ merged Hu Ha) as (m & Hr & Hwfm & Ht & Hs).
  exists merged, m. split; [done|]. split; [done|]. split; [done|done|]. intros b Hb.
  rewrite Hs by (by rewrite <- Ht). rewrite (bool_decide_ext _ (proven st observed b)); [done|].
  rewrite Hx. unfold in_blocks, proven. rewrite !Exists_exists. split.
  - intros (bk & [? ?]%Hin & ?). by exists bk.
  - intros (bk & ? & ? & ?). exists bk. split; [by apply Hin|done].
Qed.

(** ** Outcomes *)

(** A download given up, with its stable reason. *)
Definition failed_as (kind : string) (rec : Reconciliation) : Prop :=
  rec_state rec = Failed ∧ rec_error_kind rec = Some (MkErrorKind (lit kind)) ∧
  rec_covered_bytes rec = 0 ∧ rec_sealed rec = None.

(** Why the journal makes a download unrecoverable. *)
Definition journal_reason (id : DownloadId) (total : Z) (replayed : result ReplayOutcome ReplayError)
    (kind : string) : Prop :=
  match replayed with
  | Err (ReplayFormat _) => kind = "storage.journal-unreadable"%string
  | Err (ReplayIo _) => False
  | Ok out =>
      (h_transfer_id (ro_header out) ≠ as_bytes id ∨ h_total_length (ro_header out) ≠ total) ∧
      kind = "storage.journal-mismatched"%string ∨
      h_transfer_id (ro_header out) = as_bytes id ∧ h_total_length (ro_header out) = total ∧
      is_ok (effective_state (ro_header out) (ro_records out)) = false ∧
      kind = "storage.journal-invalid"%string
  end.

(** A download left paused with what the journal proves of it. *)
Definition paused_with (id : DownloadId) (total observed : Z)
    (replayed : result ReplayOutcome ReplayError) (rec : Reconciliation) : Prop :=
  rec_state rec = Paused ∧ rec_error_kind rec = None ∧
  rec_covered_bytes rec = count_state (rec_intervals rec) Complete ∧
  match replayed with
  | Err e => (∃ io, e = ReplayIo io ∧ kind io = NotFound) ∧
      rec_intervals rec = Intervals.new total ∧ rec_next_sequence rec = 0 ∧ rec_sealed rec = None
  | Ok out => h_transfer_id (ro_header out) = as_bytes id ∧ h_total_length (ro_header out) = total ∧
      rec_next_sequence rec = zlen (ro_records out) ∧
      ∃ st, effective_state (ro_header out) (ro_records out) = Ok st ∧
        believes st observed (rec_intervals rec) ∧ rec_sealed rec = es_sealed st
  end.

(** Membership in a literal list. *)
Ltac set_elem := repeat (apply elem_of_cons; first [by left|right]).

Lemma kinds_valid kind :
  kind ∈ ["storage.part-file-missing"; "storage.length-unknown"; "storage.journal-unreadable";
          "storage.journal-mismatched"; "storage.journal-invalid"]%string →
  DownloadErrorKind_new (lit kind) = Ok (MkErrorKind (lit kind)).
Proof.
  intros Hk. repeat (apply elem_of_cons in Hk as [->|Hk]; [vm_compute; reflexivity|]).
  by apply elem_of_nil in Hk.
Qed.

Section outcomes.
Context {S : Type} `{MetadataStore S} `{Checksum} `{OsLaws}.

Lemma fail_spec (store : S) md kind now :
  DownloadErrorKind_new (lit kind) = Ok (MkErrorKind (lit kind)) →
  match fst (fail store md kind now) with
  | Err e => ∃ me, e = RecMetadata me
  | Ok rec => failed_as kind rec
  end.
Proof.
  intros Hk. unfold fail. rewrite Hk. destruct (save_download _ store) as [[u|e] s']; cbn; [done|by eexists].
Qed.

Lemma persist_spec (store : S) md rec eff now :
  match fst (persist store md rec eff now) with
  | Err e => ∃ me, e = RecMetadata me
  | Ok r => r = rec
  end.
Proof.
  unfold persist. destruct (save_download _ store) as [[u|e] s']; [|by eexists].
  destruct (let? cs := _ in _) as [cp|e]; [|by eexists].
  destruct (save_checkpoint _ _ _ _ s') as [[b|e] s'']; [done|by eexists].
Qed.

Lemma new_count_zero t : count_state (Intervals.new t) Complete = 0.
Proof.
  unfold count_state. rewrite filter_none; [done|]. intros b _. rewrite new_pending.
  by case_bool_decide.
Qed.

Lemma reconcile_journal_spec (store : S) md id total observed extent space replayed now :
  (∀ out, replayed = Ok out → wf_journal (ro_header out) (ro_records out)) →
  match fst (reconcile_journal store md id total observed extent space replayed now) with
  | Err e => (∃ me, e = RecMetadata me) ∨ ∃ io, e = RecIo io ∧ replayed = Err (ReplayIo io)
  | Ok rec => (∃ kind, failed_as kind rec ∧ journal_reason id total replayed kind) ∨
      paused_with id total observed replayed rec
  end.
Proof.
  intros Hwf. unfold reconcile_journal. destruct replayed as [out|[fe|io]].
  - destruct (Hwf out eq_refl) as (Hh & Hws & _).
    case_bool_decide as Hid; cbn [negb orb].
    2: { pose proof (fail_spec store md "storage.journal-mismatched" now (kinds_valid "storage.journal-mismatched" ltac:(set_elem))) as Hf.
         destruct (fst _); [left; eexists; split; [done|]; left; by auto|by left]. }
    destruct (Z.eqb_spec (h_total_length (ro_header out)) total) as [Ht|Ht]; cbn [negb].
    2: { pose proof (fail_spec store md "storage.journal-mismatched" now (kinds_valid "storage.journal-mismatched" ltac:(set_elem))) as Hf.
         destruct (fst _); [left; eexists; split; [done|]; left; by auto|by left]. }
    destruct (effective_state _ _) as [st|se] eqn:Est.
    2: { pose proof (fail_spec store md "storage.journal-invalid" now (kinds_valid "storage.journal-invalid" ltac:(set_elem))) as Hf.
         destruct (fst _); [left; eexists; split; [done|]; right; by rewrite Est|by left]. }
    destruct (rebuild_journal _ _ st observed Hh Hws Est) as (merged & m & -> & -> & Hb). cbv zeta.
    match goal with |- context [persist ?s ?md ?r ?e ?n] => pose proof (persist_spec s md r e n) as Hp end.
    destruct (fst _) as [rec|e]; [|by left]. right. subst rec. split; [done|]. split; [done|].
    split; [done|]. do 2 (split; [done|]). split; [done|]. by exists st.
  - pose proof (fail_spec store md "storage.journal-unreadable" now (kinds_valid "storage.journal-unreadable" ltac:(set_elem))) as Hf.
    destruct (fst _); [left; by eexists|by left].
  - case_bool_decide as Hk; [|right; by exists io].
    match goal with |- context [persist ?s ?md ?r ?e ?n] => pose proof (persist_spec s md r e n) as Hp end.
    destruct (fst _) as [rec|e]; [|by left]. right. subst rec. split; [done|]. split; [done|].
    split; [symmetry; apply new_count_zero|]. split; [by exists io|done].
Qed.

(** The answers of a working file system: readers deliver the journal's bytes. *)
Record sound_calls (calls : Calls) (journal : list byte) (fuel : nat) : Prop := {
  sc_journal r : call_journal calls = Ok r →
    healthy r ∧ contents r = journal ∧ (reader_size r < fuel)%nat;
  sc_part f : call_part calls = Ok f → 0 ≤ f_reserved f;
}.

(** [recover_journal] under these calls: it terminates, leaves a prefix of the file, and what it
    returns is a well-formed journal that the file is left holding. *)
Lemma recover_journal_spec calls bytes fuel :
  sound_calls calls bytes fuel →
  match recover_journal (call_journal calls) bytes (call_set_len calls) (call_sync_all calls) fuel with
  | None => False
  | Some (r, bytes') => bytes' `prefix_of` bytes ∧
      ∀ out, r = Ok out → wf_journal (ro_header out) (ro_records out) ∧
        bytes' = journal (ro_header out) (ro_records out)
  end.
Proof.
  intros [Hj _]. unfold recover_journal. destruct (call_journal calls) as [r|e]; [|done].
  destruct (Hj r eq_refl) as (Hh & Hc & Hf).
  pose proof (recover_clean bytes fuel r (call_set_len calls)) as Hclean.
  unfold recover_journal in Hclean.
  assert (Htot : is_Some (replay_reader fuel r)).
  { rewrite replay_reader_replay_bytes by done. rewrite replay_bytes_parse.
    destruct (FileHeader_decode _); [|done]. apply parse_loop_total. rewrite length_drop. lia. }
  destruct (replay_reader fuel r) as [[out|e]|]; [|done|by destruct Htot].
  case_bool_decide.
  - split; [done|]. intros o [= <-]. by destruct (Hclean out bytes Hh Hc Hf eq_refl) as (-> & ? & _).
  - destruct (call_set_len calls); [|done].
    destruct (Hclean out _ Hh Hc Hf eq_refl) as (-> & Hw & Hp).
    destruct (call_sync_all calls); (split; [done|]); [|done]. intros o [= <-]. done.
Qed.

(** The download the store holds can be recovered. *)
Definition recoverable (store : S) (id : DownloadId) (md : DownloadMetadata) : Prop :=
  load_download id store = Ok (Some md) ∧ md_state md ≠ Completed ∧ md_state md ≠ Failed ∧
  ∀ t, md_total_length md = Some t → u64 t.

(** All that reconciliation can do. *)
Lemma reconcile_spec (store : S) id md calls bytes now fuel :
  recoverable store id md → sound_calls calls bytes fuel →
  match reconcile_download store id calls bytes now fuel with
  | None => False
  | Some (r, after) =>
      (∀ f, call_part calls = Ok f →
         ∃ f', af_part after = Some f' ∧ f_content f `prefix_of` f_content f') ∧
      af_journal after `prefix_of` bytes ∧
      match r with
      | Err e => (∃ me, e = RecMetadata me) ∨ (∃ pe, e = RecPartFile pe) ∨ ∃ io, e = RecIo io
      | Ok rec =>
          failed_as "storage.part-file-missing" rec ∧ call_exists calls = false ∨
          failed_as "storage.length-unknown" rec ∧ md_total_length md = None ∨
          ∃ total f f' replayed, call_exists calls = true ∧ md_total_length md = Some total ∧
            call_part calls = Ok f ∧ af_part after = Some f' ∧ total ≤ zlen (f_content f') ∧
            recover_journal (call_journal calls) bytes (call_set_len calls) (call_sync_all calls)
              fuel = Some (replayed, af_journal after) ∧
            ((∃ kind, failed_as kind rec ∧ journal_reason id total replayed kind) ∨
             paused_with id total (zlen (f_content f)) replayed rec)
      end
  end.
Proof.
  intros (Hload & Hnc & Hnf & Hu) Hs. unfold reconcile_download. rewrite Hload.
  rewrite bool_decide_eq_false_2 by tauto.
  assert (Hkeep : ∀ f, call_part calls = Ok f →
    ∃ f', ok (call_part calls) = Some f' ∧ f_content f `prefix_of` f_content f')
    by (intros f ->; exists f; by split).
  destruct (call_exists calls) eqn:Ex; cbn [negb].
  2: { pose proof (fail_spec store md "storage.part-file-missing" now
         (kinds_valid "storage.part-file-missing" ltac:(set_elem))) as Hf.
       destruct (fail _ _ _ _) as [[rec|e] s']; cbn in *; (split; [done|]; split; [done|]); auto. }
  destruct (md_total_length md) as [total|] eqn:Et.
  2: { pose proof (fail_spec store md "storage.length-unknown" now
         (kinds_valid "storage.length-unknown" ltac:(set_elem))) as Hf.
       destruct (fail _ _ _ _) as [[rec|e] s']; cbn in *; (split; [done|]; split; [done|]); auto. }
  specialize (Hu total eq_refl).
  destruct (call_part calls) as [f|pe] eqn:Ep.
  2: { unfold open_existing. destruct (i64_try_from total); cbn; [case_bool_decide|];
         (split; [done|]; split; [done|]); eauto. }
  pose proof (open_existing_spec f (md_part_path md) total ltac:(by destruct Hu)
    (sc_part _ _ _ Hs f Ep)) as Ho.
  destruct (open_existing (Ok f) (md_part_path md) total) as [[rp|pe] left_];
    destruct Ho as (f' & -> & Hpre & Ho).
  2: { cbn. split; [intros ? [= <-]; by exists f'|]. split; [done|]. eauto. }
  destruct Ho as (_ & _ & Hobs & _ & Hcont & _). rewrite Hobs.
  pose proof (recover_journal_spec calls bytes fuel Hs) as Hr.
  destruct (recover_journal _ _ _ _ _) as [[replayed bytes']|]; [|done].
  destruct Hr as [Hpj Hout].
  match goal with |- context [reconcile_journal ?s ?m ?i ?t ?o ?x ?sp ?r ?n] =>
    pose proof (reconcile_journal_spec s m i t o x sp r n (λ out Ho, proj1 (Hout out Ho))) as Hrj;
    destruct (reconcile_journal s m i t o x sp r n) as [[rec|e] s'] end; cbn in Hrj |- *;
    (split; [intros ? [= <-]; by exists f'|]; split; [done|]).
  - right; right. exists total, f, f', replayed. do 4 (split; [done|]). split; [|by split].
    rewrite Hcont, zlen_set_length by (pose proof (zlen_nonneg (f_content f)); lia). lia.
  - destruct Hrj as [?|(io & -> & _)]; eauto.
Qed.

End outcomes.

(** ** What the store keeps *)

(** [md'] is [md] after a reconciliation: another state, time, length, coverage, failure and
    reservation, the range evidence possibly forgotten, and the rest kept. *)
Record revision (md md' : DownloadMetadata) : Prop := {
  rv_id : md_id md' = md_id md;
  rv_created : md_created_at_ms md' = md_created_at_ms md;
  rv_updated : 0 ≤ md_updated_at_ms md';
  rv_target : md_target_path md' = md_target_path md;
  rv_part : md_part_path md' = md_part_path md;
  rv_total : md_total_length md' = md_total_length md ∨ ∃ t, md_total_length md' = Some t ∧ 0 ≤ t;
  rv_covered : 0 ≤ md_covered_bytes md';
  rv_queue : md_queue_position md' = md_queue_position md;
  rv_priority : md_priority md' = md_priority md;
  rv_kind : ∀ k, md_error_kind md' = Some k → ∃ raw, DownloadErrorKind_new raw = Ok k;
  rv_identity : md_identity md' = md_identity md ∨
    md_identity md' = with_range_support (md_identity md) Unknown;
  rv_history : md_url_history md' = md_url_history md;
}.

(** A revision of a record the store has given, once saved, is the one loaded; a checkpoint is only
    a cache. *)
Class MetadataStoreLaws (S : Type) `{MetadataStore S} := {
  loaded_id id store md : load_download id store = Ok (Some md) → md_id md = id;
  save_download_law id store0 md md' store store' :
    load_download id store0 = Ok (Some md) → revision md md' →
    save_download md' store = (Ok tt, store') → load_download (md_id md') store' = Ok (Some md');
  save_checkpoint_law id seq now cp store r store' :
    save_checkpoint id seq now cp store = (r, store') →
    ∀ id', load_download id' store' = load_download id' store;
}.

Section persisted.
Context {S : Type} `{MetadataStoreLaws S} `{Checksum} `{Os}.

Lemma fail_not_paused (store : S) md kind now rec store' :
  fail store md kind now = (Ok rec, store') → rec_state rec = Failed.
Proof.
  unfold fail. destruct (DownloadErrorKind_new _); [|done].
  destruct (save_download _ store) as [[u|e] s']; [|done]. by intros [= <- _].
Qed.

Lemma failed_revision md k raw now :
  DownloadErrorKind_new raw = Ok k → 0 ≤ now → revision md (failed_metadata md k now).
Proof.
  intros Hk Hn. split; cbn; try done; [by left| |by left]. intros k' [= <-]. by exists raw.
Qed.
Lemma persisted_revision md rec eff now :
  0 ≤ now → 0 ≤ eff → 0 ≤ rec_covered_bytes rec → revision md (persisted_metadata md rec eff now).
Proof.
  intros Hn He Hc. split; cbn; try done; [right; by exists eff|]. case_bool_decide; auto.
Qed.

Lemma persist_ok (store : S) md rec eff now rec' store' :
  persist store md rec eff now = (Ok rec', store') → rec' = rec.
Proof.
  unfold persist. destruct (save_download _ store) as [[[]|e] s']; [|done].
  destruct (let? cs := _ in _) as [cp|e]; [|done].
  destruct (save_checkpoint _ _ _ _ s') as [[b|e] s'']; [|done]. by intros [= <- _].
Qed.

Lemma persist_saves (store : S) id md rec eff now rec' store' :
  load_download id store = Ok (Some md) → 0 ≤ now → 0 ≤ eff → 0 ≤ rec_covered_bytes rec →
  persist store md rec eff now = (Ok rec', store') →
  rec' = rec ∧ load_download (md_id md) store' = Ok (Some (persisted_metadata md rec eff now)).
Proof.
  intros Hload Hn He Hcov. unfold persist. destruct (save_download _ store) as [[[]|e] s'] eqn:Es; [|done].
  destruct (let? cs := _ in _) as [cp|e]; [|done].
  destruct (save_checkpoint _ _ _ _ s') as [[b|e] s''] eqn:Ec; [|done]. intros [= <- <-].
  split; [done|]. rewrite (save_checkpoint_law _ _ _ _ _ _ _ Ec). 
  exact (save_download_law _ _ _ _ _ _ Hload (persisted_revision _ _ _ _ Hn He Hcov) Es).
Qed.

Lemma rebuild_total t merged m c : rebuild t merged = Ok (m, c) → total_length m = t.
Proof.
  unfold rebuild. change t with (total_length (Intervals.new t)) at 2.
  generalize (Intervals.new t) as m0, 0 as c0. induction merged as [|r merged IH]; intros m0 c0; cbn [fold_left].
  { by intros [= <- _]. }
  unfold rebuild_step at 2.
  assert (Hg : total_length (snd (grant m0 r RECOVERY_WORKER)) = total_length m0)
    by (unfold grant; destruct (validate_range _ _); [|done]; by case_bool).
  destruct (grant m0 r RECOVERY_WORKER) as [g m1]. cbn in Hg.
  assert (Hc : total_length (snd (complete m1 r RECOVERY_WORKER)) = total_length m1)
    by (unfold complete; destruct (validate_range _ _); [|done]; by case_bool).
  destruct (complete m1 r RECOVERY_WORKER) as [k m2]. cbn in Hc.
  assert (Herr : ∀ e, fold_left rebuild_step merged (Err e) ≠ Ok (m, c))
    by (clear; intros e; by induction merged).
  destruct g; cbn [map_err]; [|by intros ?%Herr]. destruct k; cbn [map_err]; [|by intros ?%Herr].
  destruct (checked_add64 _ _); cbn [ok_or]; [|by intros ?%Herr].
  intros ->%IH. congruence.
Qed.

(** A paused download's record agrees with the map returned. *)
Lemma paused_record (store : S) id md calls bytes now fuel rec after :
  load_download id store = Ok (Some md) →
  reconcile_download store id calls bytes now fuel = Some (Ok rec, after) → rec_state rec = Paused →
  0 ≤ now → 0 ≤ total_length (rec_intervals rec) → 0 ≤ rec_covered_bytes rec →
  ∃ md', load_download id (af_store after) = Ok (Some md') ∧ md_state md' = Paused ∧
    md_total_length md' = Some (total_length (rec_intervals rec)).
Proof.
  intros Hload Hrec Hp Hnow Hlen Hcov. pose proof (loaded_id _ _ _ Hload) as Hid. revert Hrec.
  unfold reconcile_download. rewrite Hload. case_bool_decide; [done|].
  assert (Hfail : ∀ kind p j,
    (let '(r, s) := fail store md kind now in Some (r, MkAfter s p j)) = Some (Ok rec, after) → False).
  { intros kind p j. destruct (fail store md kind now) as [r s'] eqn:Ef. intros [= -> _].
    apply fail_not_paused in Ef. congruence. }
  assert (Hpersist : ∀ rec0 eff p j,
    (let '(r, s) := persist store md rec0 eff now in Some (r, MkAfter s p j)) = Some (Ok rec, after) →
    eff = total_length (rec_intervals rec0) →
    ∃ md', load_download id (af_store after) = Ok (Some md') ∧ md_state md' = Paused ∧
      md_total_length md' = Some (total_length (rec_intervals rec))).
  { intros rec0 eff p j. destruct (persist store md rec0 eff now) as [r s'] eqn:Ef. intros [= -> <-] ->.
    pose proof (persist_ok _ _ _ _ _ _ _ Ef) as <-.
    destruct (persist_saves _ _ _ _ _ _ _ _ Hload Hnow Hlen Hcov Ef) as [_ Hl].
    rewrite Hid in Hl. by eexists. }
  destruct (call_exists calls); cbn [negb]; [|by intros ?%Hfail].
  destruct (md_total_length md) as [total|]; [|by intros ?%Hfail].
  destruct (open_existing _ _ _) as [[rp|pe] part]; [|done].
  destruct (recover_journal _ _ _ _ _) as [[replayed j]|]; [|done]. unfold reconcile_journal.
  destruct replayed as [out|[fe|io]]; [|by intros ?%Hfail|].
  - case_bool; [by intros ?%Hfail|].
    destruct (effective_state _ _) as [st|]; [|by intros ?%Hfail].
    destruct (merge_adjacent _) as [merged|]; [|done].
    destruct (rebuild _ merged) as [[m c]|] eqn:Er; [|done].
    intros Hx. apply (Hpersist _ _ _ _ Hx). symmetry. by apply rebuild_total in Er.
  - case_bool_decide; [|done]. intros Hx. by apply (Hpersist _ _ _ _ Hx).
Qed.

End persisted.

(** ** Recovering again *)

Lemma recover_again `{Checksum} header rs calls r fuel :
  wf_journal header rs → sound_calls calls (journal header rs) fuel → call_journal calls = Ok r →
  recover_journal (call_journal calls) (journal header rs) (call_set_len calls)
    (call_sync_all calls) fuel =
    Some (Ok (MkOutcome header rs (zlen (journal header rs)) CleanEof), journal header rs).
Proof.
  intros Hwf [Hj _] Hr. rewrite Hr in *. destruct (Hj r eq_refl) as (Hh & Hc & Hf).
  cbn [recover_journal]. rewrite replay_reader_replay_bytes, Hc, replay_journal by done. done.
Qed.

(** Lengths and counts are not negative. *)
Lemma paused_ranges {S} `{MetadataStore S} `{Checksum} `{OsLaws} (store : S) id md calls bytes now fuel rec after :
  recoverable store id md → sound_calls calls bytes fuel →
  reconcile_download store id calls bytes now fuel = Some (Ok rec, after) → rec_state rec = Paused →
  0 ≤ total_length (rec_intervals rec) ∧ 0 ≤ rec_covered_bytes rec.
Proof.
  intros Hrc Hs Hrec Hp. pose proof (reconcile_spec store id md calls bytes now fuel Hrc Hs) as Hsp.
  rewrite Hrec in Hsp. destruct Hsp as (_ & _ & Hout).
  destruct Hout as [[[? _] _]|[[[? _] _]|(total & f & f' & replayed & _ & Ht & _ & _ & _ & _ & Hcase)]];
    [congruence..|].
  destruct Hcase as [(kind & [? _] & _)|(_ & _ & -> & Hpw)]; [congruence|].
  split; [|unfold count_state; apply zlen_nonneg].
  destruct replayed as [out|e].
  - destruct Hpw as (_ & _ & _ & st & _ & [W _ _] & _). by destruct W as [[? _] _].
  - destruct Hpw as (_ & -> & _). cbn. by destruct (proj2 (proj2 (proj2 Hrc)) _ Ht).
Qed.

Section again.
Context {S : Type} `{MetadataStoreLaws S} `{Checksum} `{OsLaws}.

(** A paused download whose journal was recovered: what the journal means. *)
Lemma paused_journal (store : S) id md calls bytes now fuel rec after out bytes' :
  recoverable store id md → sound_calls calls bytes fuel →
  recover_journal (call_journal calls) bytes (call_set_len calls) (call_sync_all calls) fuel =
    Some (Ok out, bytes') →
  reconcile_download store id calls bytes now fuel = Some (Ok rec, after) → rec_state rec = Paused →
  ∃ st f f', wf_journal (ro_header out) (ro_records out) ∧
    af_journal after = journal (ro_header out) (ro_records out) ∧
    effective_state (ro_header out) (ro_records out) = Ok st ∧
    md_total_length md = Some (h_total_length (ro_header out)) ∧
    h_transfer_id (ro_header out) = as_bytes id ∧
    call_part calls = Ok f ∧ af_part after = Some f' ∧
    h_total_length (ro_header out) ≤ zlen (f_content f') ∧
    believes st (zlen (f_content f)) (rec_intervals rec).
Proof.
  intros Hrc Hs Hjo Hrec Hp. pose proof (reconcile_spec store id md calls bytes now fuel Hrc Hs) as Hsp.
  rewrite Hrec in Hsp. destruct Hsp as (_ & _ & Hout).
  destruct Hout as [[[? _] _]|[[[? _] _]|(total & f & f' & replayed & _ & Ht & Hf & Hf' & Hle & Hr & Hcase)]];
    [congruence..|].
  destruct Hcase as [(kind & [? _] & _)|(_ & _ & _ & Hpw)]; [congruence|].
  pose proof (recover_journal_spec calls bytes fuel Hs) as Hj. rewrite Hr in Hj, Hjo.
  injection Hjo as -> Hb'. destruct Hj as [_ Hj]. destruct (Hj out eq_refl) as [Hwf Hb].
  destruct Hpw as (Hid & Htl & _ & st & Hst & Hbl & _). subst total.
  exists st, f, f'. do 8 (split; [done|]). done.
Qed.

End again.

(** ** Properties *)

(** C15: Reconciliation always ends in one of its stated outcomes.  It terminates; it never
    destroys a byte of the part file and leaves a prefix of the journal; the rebuilt map never
    rejects a replayed range; a download is given up only for one of five reasons, each of which
    is then the case; and otherwise it is left paused with what the journal proves of it. *)
Theorem recovery_outcomes {S} `{MetadataStore S} `{Checksum} `{OsLaws} (store : S) id md calls bytes
    now fuel :
  recoverable store id md → sound_calls calls bytes fuel →
  match reconcile_download store id calls bytes now fuel with
  | None => False
  | Some (r, after) =>
      (∀ f, call_part calls = Ok f →
         ∃ f', af_part after = Some f' ∧ f_content f `prefix_of` f_content f') ∧
      af_journal after `prefix_of` bytes ∧
      match r with
      | Err e => (∃ me, e = RecMetadata me) ∨ (∃ pe, e = RecPartFile pe) ∨ ∃ io, e = RecIo io
      | Ok rec =>
          failed_as "storage.part-file-missing" rec ∧ call_exists calls = false ∨
          failed_as "storage.length-unknown" rec ∧ md_total_length md = None ∨
          ∃ total f f' replayed, call_exists calls = true ∧ md_total_length md = Some total ∧
            call_part calls = Ok f ∧ af_part after = Some f' ∧ total ≤ zlen (f_content f') ∧
            recover_journal (call_journal calls) bytes (call_set_len calls) (call_sync_all calls)
              fuel = Some (replayed, af_journal after) ∧
            ((∃ kind, failed_as kind rec ∧ journal_reason id total replayed kind) ∨
             paused_with id total (zlen (f_content f)) replayed rec)
      end
  end.
Proof. exact (reconcile_spec store id md calls bytes now fuel). Qed.

(** C16: The journal alone decides what is complete (docs/04 4.1).  A byte recovered as complete
    lies in a block that the journal left on disk records, that no later truncation cuts, and
    whose last byte the part file held when it was measured; no byte is in progress.  Another
    store, with whatever checkpoint, cannot make the same files yield another coverage. *)
Theorem recovery_believes_the_journal {S} `{MetadataStore S} `{Checksum} `{OsLaws} (store : S) id md
    calls bytes now fuel rec after :
  recoverable store id md → sound_calls calls bytes fuel →
  reconcile_download store id calls bytes now fuel = Some (Ok rec, after) → rec_state rec = Paused →
  (∀ b s, state_at (rec_intervals rec) b = Some s → s = Pending ∨ s = Complete) ∧
  (∀ b, state_at (rec_intervals rec) b = Some Complete →
     ∃ f header rs bk, call_part calls = Ok f ∧ af_journal after = journal header rs ∧
       h_transfer_id header = as_bytes id ∧ bk ∈ survivors rs ∧ in_range (block_range bk) b ∧
       cb_offset bk + cb_len bk ≤ zlen (f_content f)) ∧
  rec_covered_bytes rec = count_state (rec_intervals rec) Complete ∧
  ∀ (store2 : S) md2 now2 rec2 after2,
    recoverable store2 id md2 → md_total_length md2 = md_total_length md →
    reconcile_download store2 id calls bytes now2 fuel = Some (Ok rec2, after2) →
    rec_state rec2 = Paused →
    rec_intervals rec2 = rec_intervals rec ∧ rec_covered_bytes rec2 = rec_covered_bytes rec ∧
    rec_next_sequence rec2 = rec_next_sequence rec ∧ rec_sealed rec2 = rec_sealed rec.
Proof.
  intros Hrc Hs Hrec Hp.
  assert (Hpaused : ∀ (store : S) md now rec after, recoverable store id md →
    reconcile_download store id calls bytes now fuel = Some (Ok rec, after) → rec_state rec = Paused →
    ∃ total f replayed, md_total_length md = Some total ∧ call_part calls = Ok f ∧
      recover_journal (call_journal calls) bytes (call_set_len calls) (call_sync_all calls) fuel =
        Some (replayed, af_journal after) ∧
      paused_with id total (zlen (f_content f)) replayed rec).
  { intros s' md' now' rec' after' Hrc' Hrec' Hp'.
    pose proof (reconcile_spec s' id md' calls bytes now' fuel Hrc' Hs) as Hsp.
    rewrite Hrec' in Hsp. destruct Hsp as (_ & _ & Hout).
    destruct Hout as [[[? _] _]|[[[? _] _]|(total & f & f' & replayed & _ & Ht & Hf & _ & _ & Hr & Hcase)]];
      [congruence..|].
    destruct Hcase as [(kind & [? _] & _)|Hpw]; [congruence|]. by exists total, f, replayed. }
  destruct (Hpaused _ _ _ _ _ Hrc Hrec Hp) as (total & f & replayed & Ht & Hf & Hr & Hpw).
  pose proof (recover_journal_spec calls bytes fuel Hs) as Hj. rewrite Hr in Hj. destruct Hj as [_ Hj].
  pose proof Hpw as (_ & _ & Hcov & Hcase). split; [|split; [|split; [done|]]].
  - intros b s Hb. destruct replayed as [out|e].
    + destruct Hcase as (_ & _ & _ & st & _ & [W _ Hs'] & _).
      destruct (decide (0 ≤ b < total_length (rec_intervals rec))) as [Hin|Hout].
      * rewrite Hs' in Hb by done. injection Hb as <-. case_bool_decide; auto.
      * rewrite (proj2 (wf_state_at_None _ b W)) in Hb by done. done.
    + destruct Hcase as (_ & Hm & _). rewrite Hm, new_pending in Hb. case_bool_decide; [|done].
      injection Hb as <-. by left.
  - intros b Hb. destruct replayed as [out|e].
    2: { destruct Hcase as (_ & Hm & _). rewrite Hm, new_pending in Hb. by case_bool_decide. }
    destruct (Hj out eq_refl) as [Hwf Hjb]. destruct Hcase as (Hid & _ & _ & st & Hst & [W _ Hs'] & _).
    destruct (decide (0 ≤ b < total_length (rec_intervals rec))) as [Hin|Hout].
    2: { rewrite (proj2 (wf_state_at_None _ b W)) in Hb by done. done. }
    rewrite Hs' in Hb by done. case_bool_decide as Hpr; [|done].
    apply Exists_exists in Hpr as (bk & Hbk & ? & ?).
    destruct (effective_state_Ok _ _ _ (proj1 (proj2 Hwf)) Hst) as (_ & _ & _ & _ & _ & _ & Hperm & _).
    exists f, (ro_header out), (ro_records out), bk. rewrite <- Hperm. done.
  - intros store2 md2 now2 rec2 after2 Hrc2 Ht2 Hrec2 Hp2.
    destruct (Hpaused _ _ _ _ _ Hrc2 Hrec2 Hp2) as (total2 & f2 & replayed2 & Ht3 & Hf2 & Hr2 & Hpw2).
    assert (total2 = total) as -> by congruence. assert (f2 = f) as -> by congruence.
    assert (replayed2 = replayed) as -> by congruence.
    destruct Hpw2 as (_ & _ & -> & Hcase2). rewrite Hcov. destruct replayed as [out|e].
    + destruct Hcase as (_ & _ & -> & st & Hst & Hb1 & ->), Hcase2 as (_ & _ & -> & st2 & Hst2 & Hb2 & ->).
      assert (st2 = st) as -> by congruence. by rewrite (believes_unique _ _ _ _ Hb2 Hb1).
    + destruct Hcase as (_ & -> & -> & ->), Hcase2 as (_ & -> & -> & ->). done.
Qed.

(** C17: What a second recovery finds.  Recover a download, touch nothing, and recover it again:
    if the journal truncates the representation, the second recovery gives the download up as
    mismatched, because the record now holds the truncated length and the journal's header the
    original one.  Otherwise it is paused again, and believes every surviving block of the
    journal: the same coverage when the part file had held all of them, but also the blocks
    refused the first time for lying past the end of a short part file, whose place the first
    recovery has meanwhile filled with zeros. *)
Theorem second_recovery {S} `{MetadataStoreLaws S} `{Checksum} `{OsLaws} (store : S) id md calls bytes
    now fuel out bytes' rec after f1 calls2 f2 r2 now2 fuel2 rec2 after2 :
  recoverable store id md → sound_calls calls bytes fuel →
  recover_journal (call_journal calls) bytes (call_set_len calls) (call_sync_all calls) fuel =
    Some (Ok out, bytes') →
  reconcile_download store id calls bytes now fuel = Some (Ok rec, after) → rec_state rec = Paused →
  call_part calls = Ok f1 → af_part after = Some f2 →
  call_exists calls2 = true → call_part calls2 = Ok f2 → call_journal calls2 = Ok r2 →
  sound_calls calls2 (af_journal after) fuel2 → 0 ≤ now →
  reconcile_download (af_store after) id calls2 (af_journal after) now2 fuel2 =
    Some (Ok rec2, after2) →
  ∃ st, effective_state (ro_header out) (ro_records out) = Ok st ∧
    if es_effective_length st =? h_total_length (ro_header out) then
      rec_state rec2 = Paused ∧ believes st (es_effective_length st) (rec_intervals rec2) ∧
      (Forall (λ bk, cb_offset bk + cb_len bk ≤ zlen (f_content f1)) (es_blocks st) →
       rec_intervals rec2 = rec_intervals rec)
    else failed_as "storage.journal-mismatched" rec2.
Proof.
  intros Hrc Hs Hjo Hrec Hp Hf1 Hf2 Hx2 Hp2 Hj2 Hs2 Hnow Hrec2.
  destruct (paused_ranges _ _ _ _ _ _ _ _ _ Hrc Hs Hrec Hp) as [Hlen Hcov].
  destruct (paused_journal _ _ _ _ _ _ _ _ _ _ _ Hrc Hs Hjo Hrec Hp)
    as (st & f & f' & Hwf & Haf & Hst & Ht & Hid & Hf & Hf' & Hle & Hb1).
  assert (f = f1) as -> by congruence. assert (f' = f2) as -> by congruence.
  exists st. split; [done|]. pose proof Hb1 as [W L _].
  destruct (paused_record _ _ _ _ _ _ _ _ _ (proj1 Hrc) Hrec Hp Hnow Hlen Hcov) as (md' & Hl' & Hst' & Ht').
  assert (Hrc2 : recoverable (af_store after) id md').
  { split; [done|]. rewrite Hst'. do 2 (split; [done|]). rewrite Ht'. intros t [= <-]. apply W. }
  pose proof (reconcile_spec _ _ _ _ _ now2 _ Hrc2 Hs2) as Hsp. rewrite Hrec2 in Hsp.
  destruct Hsp as (_ & _ & Hout). rewrite Hx2, Ht' in Hout.
  destruct Hout as [[_ ?]|[[_ ?]|(total & g & g' & replayed & _ & [= <-] & Hg & _ & _ & Hr & Hcase)]];
    [done..|].
  rewrite Haf in Hr, Hs2. rewrite (recover_again _ _ _ _ _ Hwf Hs2 Hj2) in Hr.
  injection Hr as <- _. assert (g = f2) as -> by congruence.
  destruct (effective_state_facts _ _ _ (proj1 (proj2 Hwf)) Hst) as (Hok & _ & _ & _ & Heff & _).
  rewrite L in Hcase. cbn in Hcase.
  destruct (Z.eqb_spec (es_effective_length st) (h_total_length (ro_header out))) as [Heq|Hne].
  - destruct Hcase as [(kind & _ & [[[?|?] _]|(_ & _ & Hno & _)])|Hpw]; [congruence..| |].
    { rewrite Hst in Hno. done. }
    destruct Hpw as (Hstate & _ & _ & _ & _ & _ & st2 & Hst2 & Hb2 & _). cbn in Hst2.
    assert (st2 = st) as -> by congruence. split; [done|]. split.
    + eapply believes_ext; [|exact Hb2]. eapply Forall_impl; [exact Hok|].
      intros bk (_ & _ & ? & _). lia.
    + intros Hall. apply (believes_unique st (zlen (f_content f1))); [|done].
      eapply believes_ext; [|exact Hb2]. rewrite Forall_forall in Hall, Hok |- *.
      intros bk Hbk. specialize (Hall bk Hbk). destruct (Hok bk Hbk) as (_ & _ & ? & _). lia.
  - destruct Hcase as [(kind & Hfa & [[_ ->]|(_ & ? & _)])|(_ & _ & _ & Hpw)]; [done|congruence|].
    cbn in Hpw. destruct Hpw as (_ & ? & _). congruence.
Qed.

(** ** A run

    Eight bytes recorded complete in two blocks; a part file that lost the last two. *)
Module Example_recovery.
Import Concrete MemoryOs.

(** A store of one download, in memory. *)
Record MemStore := MkMemStore {
  ms_row : option DownloadMetadata;
  ms_cache : result (option PersistedCheckpoint) MetadataError;
}.
#[refine] Instance mem_store : MetadataStore MemStore := {
  load_download id s :=
    match ms_row s with
    | Some md => if bool_decide (as_bytes (md_id md) = as_bytes id) then Ok (Some md) else Ok None
    | None => Ok None
    end;
  save_download md s := (Ok tt, MkMemStore (Some md) (ms_cache s));
  load_checkpoint _ s := ms_cache s;
  save_checkpoint _ seq now cp s :=
    (Ok true, MkMemStore (ms_row s) (Ok (Some (MkPersisted seq now cp))));
}.
Defined.
#[export] Instance mem_store_laws : MetadataStoreLaws MemStore.
Proof.
  split; cbn.
  - intros id s md. destruct (ms_row s) as [md'|]; [|done]. case_bool_decide as E; [|done].
    intros [= <-]. destruct (md_id md'), id. cbn in E. by subst.
  - intros id s0 md0 md s s' _ _ [= <-]. cbn. by rewrite bool_decide_eq_true_2.
  - intros id seq now cp s r s' [= _ <-] id'. done.
Qed.

Definition ex_uuid : list byte := replicate 6 x11 ++ [x71; x11; x91] ++ replicate 7 x11.
Definition ex_id : DownloadId := MkDownloadId ex_uuid.
Definition ex_url : UrlReference := MkUrlReference (lit "https://example.org/a") None.
Definition ex_identity : IdentityMetadata :=
  MkIdentity ex_url None [] None (lit "https://example.org") NoValidator None None None None 0 Http11
    Unknown.
Definition ex_metadata : DownloadMetadata :=
  MkMetadata ex_id Transferring 1 2 "a"%string "a.dppart"%string (Some 8) 0 None 0 None true
    ex_identity [].
(** The cache claims the whole file. *)
Definition ex_store : MemStore :=
  MkMemStore (Some ex_metadata)
    (Ok (Some (MkPersisted 2 2 (MkCheckpoint 8 8 [MkComplete 0 8])))).

Definition ex_header : FileHeader := FileHeader_new ex_uuid 8 0 (replicate 32 x22).
Definition ex_records : list FramedRecord :=
  [FramedRecord_new 0 (BlockComplete 0 4 (blake3 [x01; x02; x03; x04]));
   FramedRecord_new 1 (BlockComplete 4 4 (blake3 [x05; x06; x07; x08]))].
Definition ex_journal : list byte := journal ex_header ex_records.
Definition short_part : File := MkFile [x01; x02; x03; x04; x05; x06] 6.
Definition grown_part : File := MkFile [x01; x02; x03; x04; x05; x06; x00; x00] 8.
Definition calls_on (f : File) : Calls := MkCalls true (Ok f) (Ok (cursor ex_journal)) (Ok tt) (Ok tt).

Definition ex_out : ReplayOutcome := MkOutcome ex_header ex_records (zlen ex_journal) CleanEof.
Definition half : IntervalMap := MkIntervalMap 8 [MkInterval 0 4 Complete; MkInterval 4 8 Pending].
Definition first_rec : Reconciliation :=
  MkReconciliation Paused None half 4 2 None (SqliteAhead 4 8) (Reextended 6 8) false true.
Definition first_store : MemStore :=
  MkMemStore (Some (persisted_metadata ex_metadata first_rec 8 10))
    (Ok (Some (MkPersisted 2 10 (MkCheckpoint 8 4 [MkComplete 0 4])))).
Definition whole : IntervalMap := MkIntervalMap 8 [MkInterval 0 8 Complete].
Definition second_rec : Reconciliation :=
  MkReconciliation Paused None whole 8 2 None (JournalAhead 8 4) Intact false false.
Definition second_store : MemStore :=
  MkMemStore (Some (persisted_metadata (persisted_metadata ex_metadata first_rec 8 10) second_rec 8 20))
    (Ok (Some (MkPersisted 2 20 (MkCheckpoint 8 8 [MkComplete 0 8])))).

Lemma run_first :
  reconcile_download ex_store ex_id (calls_on short_part) ex_journal 10 400 =
    Some (Ok first_rec, MkAfter first_store (Some grown_part) ex_journal).
Proof. vm_compute. reflexivity. Qed.
Lemma run_second :
  reconcile_download first_store ex_id (calls_on grown_part) ex_journal 20 400 =
    Some (Ok second_rec, MkAfter second_store (Some grown_part) ex_journal).
Proof. vm_compute. reflexivity. Qed.
Lemma run_replay :
  recover_journal (Ok (cursor ex_journal)) ex_journal (Ok tt) (Ok tt) 400 = Some (Ok ex_out, ex_journal).
Proof. vm_compute. reflexivity. Qed.

Lemma ex_recoverable : recoverable ex_store ex_id ex_metadata.
Proof.
  split; [vm_compute; reflexivity|]. do 2 (split; [done|]). intros t [= <-]. split; done.
Qed.
Lemma ex_sound f : 0 ≤ f_reserved f → sound_calls (calls_on f) ex_journal 400.
Proof.
  intros Hf. split; [|by intros ? [= <-]]. intros r [= <-].
  split; [exact (cursor_healthy ex_journal)|]. split; [exact (cursor_contents ex_journal)|].
  apply Nat.ltb_lt. vm_compute. reflexivity.
Qed.

Example recovery_outcomes_witness :
  fst <$> reconcile_download ex_store ex_id (calls_on short_part) ex_journal 10 400 =
    Some (Ok first_rec) ∧
  af_journal (MkAfter first_store (Some grown_part) ex_journal) `prefix_of` ex_journal.
Proof.
  pose proof (recovery_outcomes ex_store ex_id ex_metadata (calls_on short_part) ex_journal 10 400
    ex_recoverable (ex_sound short_part ltac:(cbn; lia))) as Ho.
  rewrite run_first in Ho |- *. split; [reflexivity|]. exact (proj1 (proj2 Ho)).
Defined.

Example recovery_believes_the_journal_witness :
  rec_divergence first_rec = SqliteAhead 4 8 ∧
  rec_covered_bytes first_rec = count_state (rec_intervals first_rec) Complete.
Proof.
  split; [reflexivity|].
  exact (proj1 (proj2 (proj2 (recovery_believes_the_journal ex_store ex_id ex_metadata
    (calls_on short_part) ex_journal 10 400 first_rec _ ex_recoverable
    (ex_sound short_part ltac:(cbn; lia)) run_first eq_refl)))).
Defined.

(** The last four bytes are pending after the first recovery and complete after the second, although
    two of them are zeros the first recovery wrote. *)
Example second_recovery_witness :
  state_at (rec_intervals first_rec) 6 = Some Pending ∧
  state_at (rec_intervals second_rec) 6 = Some Complete ∧
  f_content grown_part !! 6%nat = Some x00 ∧
  ∃ st, effective_state ex_header ex_records = Ok st ∧
    if es_effective_length st =? 8 then
      rec_state second_rec = Paused ∧ believes st (es_effective_length st) (rec_intervals second_rec) ∧
      (Forall (λ bk, cb_offset bk + cb_len bk ≤ 6) (es_blocks st) →
       rec_intervals second_rec = rec_intervals first_rec)
    else failed_as "storage.journal-mismatched" second_rec.
Proof.
  do 3 (split; [vm_compute; reflexivity|]).
  exact (second_recovery ex_store ex_id ex_metadata (calls_on short_part) ex_journal 10 400 ex_out
    ex_journal first_rec (MkAfter first_store (Some grown_part) ex_journal) short_part
    (calls_on grown_part) grown_part (cursor ex_journal) 20 400 second_rec _ ex_recoverable
    (ex_sound short_part ltac:(cbn; lia)) run_replay run_first eq_refl eq_refl eq_refl eq_refl eq_refl
    eq_refl (ex_sound grown_part ltac:(cbn; lia)) ltac:(lia) run_second).
Defined.

End Example_recovery.

End Recovery.
