(* ===== verification/WriterService.v ===== *)
(** * [downpour-engine/src/writer_service.rs]: the one owner of a download's durable state

    The actor that serialises allocation, writing and abandonment over one durable writer and one
    allocator, the commands it takes, and the worker-facing handle of one grant. *)

From S2P Require Import Prelude Intervals Allocator Io Format Replay PartFile Writer.
From Stdlib Require Import String.
From stdpp Require Import list.
#[local] Open Scope Z_scope.

Module WriterService.
Import Io.Io Format.Format PartFile.PartFile Allocator.Allocator Intervals.Intervals Writer.Writer.

Definition DEFAULT_WRITER_QUEUE_CAPACITY : Z := 32.
Definition MAX_WRITE_BLOCK_BYTES : Z := 256 * 1024.

Record AllocationReceipt := MkAllocationReceipt {
  ar_allocation : option Allocation;
  ar_durable : list DurableBlock;
}.
Record WriteReceipt := MkWriteReceipt { wr_range : Range; wr_durable : list DurableBlock }.
Record AbandonReceipt := MkAbandonReceipt { br_released : Z; br_durable : list DurableBlock }.
Record WriterSnapshot := MkSnapshot { ws_allocator : SegmentAllocator }.

Inductive WriterServiceError :=
| ZeroQueueCapacity
| BlockTooLarge (actual maximum : Z)
| CursorOverflow
| BeyondGrant (start end_ grant_start grant_end : Z)
| ActorStopped
| ReplyDropped
| ActorStart (source : Error)
| ActorJoin
| ActorPanicked
| Allocator_ (source : AllocatorError)
| Writer_ (source : WriterError).

(** ** The actor *)

Record StateActor := MkActor { writer : DurableWriter; allocator : SegmentAllocator }.

Definition actor_map (s : StateActor) : IntervalMap := sa_intervals (allocator s).

(** Writing back what a call of the writer made of [interval_map_mut()]. *)
Definition put_back (s : StateActor) (w : DurableWriter) (m : IntervalMap) : StateActor :=
  MkActor w (MkAllocator m (sa_min_split_bytes (allocator s))).

Inductive Command :=
| Allocate (worker : WorkerId)
| Write (worker : WorkerId) (offset : Z) (bytes : list byte) (now : Z)
| Flush
| FlushIfDue (now : Z)
| Abandon (worker : WorkerId)
| Snapshot
| Shutdown.

(** What is sent on the reply channel of a command. *)
Inductive Reply :=
| Allocated (r : result AllocationReceipt WriterServiceError)
| Wrote (r : result WriteReceipt WriterServiceError)
| Flushed (r : result (list DurableBlock) WriterServiceError)
| Abandoned (r : result AbandonReceipt WriterServiceError)
| Snapped (r : result WriterSnapshot WriterServiceError).

Definition actor_flush (s : StateActor)
    : prog (result (list DurableBlock) WriterServiceError * StateActor) :=
  bind (flush (writer s) (actor_map s)) (λ '(r, w, m), Ret (map_err Writer_ r, put_back s w m)).

Definition actor_flush_if_due (s : StateActor) (now : Z)
    : prog (result (list DurableBlock) WriterServiceError * StateActor) :=
  bind (flush_if_due (writer s) (actor_map s) now)
    (λ '(r, w, m), Ret (map_err Writer_ r, put_back s w m)).

Definition actor_allocate (s : StateActor) (worker : WorkerId)
    : prog (result AllocationReceipt WriterServiceError * StateActor) :=
  bind (actor_flush s) (λ '(r, s),
    match r with
    | Err e => Ret (Err e, s)
    | Ok durable =>
        let '(r, a) := allocate (allocator s) worker in
        let s := MkActor (writer s) a in
        match r with
        | Err e => Ret (Err (Allocator_ e), s)
        | Ok allocation => Ret (Ok (MkAllocationReceipt allocation durable), s)
        end
    end).

Definition actor_write (windows : bool) `{Digest} (s : StateActor) (worker : WorkerId)
    (offset : Z) (bytes : list byte) (now : Z)
    : prog (result WriteReceipt WriterServiceError * StateActor) :=
  match checked_add64 offset (zlen bytes) with
  | None => Ret (Err CursorOverflow, s)
  | Some end_ =>
      let range := MkRange offset end_ in
      match fst (complete (actor_map s) range worker) with
      | Err e => Ret (Err (Writer_ (WInterval e)), s)
      | Ok _ =>
          bind (stage windows (writer s) (actor_map s) worker offset bytes now) (λ '(r, w, m),
            Ret (match r with
                 | Err e => Err (Writer_ e)
                 | Ok durable => Ok (MkWriteReceipt range durable)
                 end, put_back s w m))
      end
  end.

Definition actor_abandon (s : StateActor) (worker : WorkerId)
    : prog (result AbandonReceipt WriterServiceError * StateActor) :=
  bind (actor_flush s) (λ '(r, s),
    match r with
    | Err e => Ret (Err e, s)
    | Ok durable =>
        let '(released, a) := Allocator.abandon (allocator s) worker in
        Ret (Ok (MkAbandonReceipt released durable), MkActor (writer s) a)
    end).

Definition actor_snapshot (s : StateActor) : WriterSnapshot := MkSnapshot (allocator s).

Definition actor_shutdown (s : StateActor)
    : prog (result WriterSnapshot WriterServiceError * StateActor) :=
  bind (actor_flush s) (λ '(r, s),
    match r with Err e => Ret (Err e, s) | Ok _ => Ret (Ok (actor_snapshot s), s) end).

(** One turn of the loop. *)
Definition handle (windows : bool) `{Digest} (s : StateActor) (command : Command)
    : prog (Reply * StateActor) :=
  match command with
  | Allocate worker => bind (actor_allocate s worker) (λ '(r, s), Ret (Allocated r, s))
  | Write worker offset bytes now =>
      bind (actor_write windows s worker offset bytes now) (λ '(r, s), Ret (Wrote r, s))
  | Flush => bind (actor_flush s) (λ '(r, s), Ret (Flushed r, s))
  | FlushIfDue now => bind (actor_flush_if_due s now) (λ '(r, s), Ret (Flushed r, s))
  | Abandon worker => bind (actor_abandon s worker) (λ '(r, s), Ret (Abandoned r, s))
  | Snapshot => Ret (Snapped (Ok (actor_snapshot s)), s)
  | Shutdown => bind (actor_shutdown s) (λ '(r, s), Ret (Snapped r, s))
  end.

Definition is_shutdown (command : Command) : bool :=
  match command with Shutdown => true | _ => false end.

(** The loop, on the commands the channel yields before it closes.  Commands behind a shutdown are
    never received: their senders see a dropped reply. *)
Fixpoint run (windows : bool) `{Digest} (s : StateActor) (commands : list Command)
    : prog (list Reply * StateActor) :=
  match commands with
  | [] => Ret ([], s)
  | command :: commands =>
      bind (handle windows s command) (λ '(reply, s),
        if is_shutdown command then Ret ([reply], s)
        else bind (run windows s commands) (λ '(replies, s), Ret (reply :: replies, s)))
  end.

(** ** The channel

    What a command sent to the actor comes to: the actor is gone, it went before replying, or its
    reply. *)
Inductive delivery (T : Type) :=
| SendFailed
| ReceiveFailed
| Replied (r : result T WriterServiceError).
Arguments SendFailed {T}.
Arguments ReceiveFailed {T}.
Arguments Replied {T} r.

Definition send {T} (d : delivery T) : result T WriterServiceError :=
  match d with
  | SendFailed => Err ActorStopped
  | ReceiveFailed => Err ReplyDropped
  | Replied r => r
  end.

(** [spawned] is the answer of the operating system to the thread creation. *)
Definition start (w : DurableWriter) (a : SegmentAllocator) (capacity : Z)
    (spawned : result unit Error) : result StateActor WriterServiceError :=
  if capacity =? 0 then Err ZeroQueueCapacity else
  let? _ := map_err ActorStart spawned in
  Ok (MkActor w a).

(** Joining the actor's thread: the blocking task failed, the actor panicked, or it returned. *)
Inductive join_answer := JoinFailed | Panicked | Returned.

Definition shutdown (sent : delivery WriterSnapshot) (joined : option join_answer)
    : result WriterSnapshot WriterServiceError :=
  let result := send sent in
  let? joined := ok_or joined ActorStopped in
  match joined with
  | JoinFailed => Err ActorJoin
  | Panicked => Err ActorPanicked
  | Returned => result
  end.

(** ** The worker's handle *)

Record GrantWriter := MkGrantWriter { gw_grant : Grant; gw_next_offset : Z }.

Definition writer_for (grant : Grant) : GrantWriter :=
  MkGrantWriter grant (r_start (g_range grant)).

(** The command a write sends and the cursor after it, or the refusal before anything is sent. *)
Definition GrantWriter_command (g : GrantWriter) (bytes : list byte) (now : Z)
    : result (Command * Z) WriterServiceError :=
  if MAX_WRITE_BLOCK_BYTES <? zlen bytes
  then Err (BlockTooLarge (zlen bytes) MAX_WRITE_BLOCK_BYTES) else
  let? end_ := ok_or (checked_add64 (gw_next_offset g) (zlen bytes)) CursorOverflow in
  if r_end (g_range (gw_grant g)) <? end_
  then Err (BeyondGrant (gw_next_offset g) end_ (r_start (g_range (gw_grant g)))
              (r_end (g_range (gw_grant g)))) else
  Ok (Write (g_worker (gw_grant g)) (gw_next_offset g) bytes now, end_).

Definition GrantWriter_write (answer : Command → delivery WriteReceipt) (g : GrantWriter)
    (bytes : list byte) (now : Z) : result WriteReceipt WriterServiceError * GrantWriter :=
  match GrantWriter_command g bytes now with
  | Err e => (Err e, g)
  | Ok (command, end_) =>
      match send (answer command) with
      | Err e => (Err e, g)
      | Ok receipt => (Ok receipt, MkGrantWriter (gw_grant g) end_)
      end
  end.

(** ** Ownership of staged work *)

Definition in_blocks (blocks : list StagedBlock) (b : Z) : Prop :=
  Exists (λ sb, in_range (sb_range sb) b) blocks.
#[export] Instance in_blocks_dec blocks b : Decision (in_blocks blocks b).
Proof. unfold in_blocks. apply _. Defined.

Fixpoint apart (blocks : list StagedBlock) : Prop :=
  match blocks with
  | [] => True
  | sb :: blocks => Forall (λ sb', range_disjoint (sb_range sb) (sb_range sb')) blocks ∧ apart blocks
  end.

(** Staged blocks are non-empty, apart from each other, and inside what their worker owns. *)
Definition block_owned (m : IntervalMap) (sb : StagedBlock) : Prop :=
  0 ≤ r_start (sb_range sb) < r_end (sb_range sb) ∧ r_end (sb_range sb) ≤ total_length m ∧
  ∀ b, in_range (sb_range sb) b → state_at m b = Some (InProgress (sb_worker sb)).
Definition owned (blocks : list StagedBlock) (m : IntervalMap) : Prop :=
  Forall (block_owned m) blocks ∧ apart blocks.

(** [w'] and [m'] are what [w] and [m] become when [blocks] are the staged work: still staged, or
    all of it complete and nothing else changed. *)
Definition settles (blocks : list StagedBlock) (w' : DurableWriter) (m m' : IntervalMap) : Prop :=
  total_length m' = total_length m ∧
  (dw_staged w' = blocks ∧ (∀ b, state_at m' b = state_at m b) ∨
   dw_staged w' = [] ∧
   ∀ b, state_at m' b = if decide (in_blocks blocks b) then Some Complete else state_at m b).

Lemma apart_app blocks sb :
  apart blocks → Forall (λ sb', range_disjoint (sb_range sb') (sb_range sb)) blocks →
  apart (blocks ++ [sb]).
Proof.
  induction blocks as [|x blocks IH]; cbn; [by split|].
  intros [Hx Hb] [Hsb Hall]%Forall_cons. split; [|by apply IH]. apply Forall_app. by split; [|constructor].
Qed.

Lemma block_owned_ext m m' sb :
  total_length m' = total_length m → (∀ b, in_range (sb_range sb) b → state_at m' b = state_at m b) →
  block_owned m sb → block_owned m' sb.
Proof.
  intros Ht Hst (? & ? & Hown). split_and!; [lia..|]. intros b Hb. rewrite Hst by done. by apply Hown.
Qed.

Lemma owned_in_blocks blocks m b :
  owned blocks m → in_blocks blocks b → ∃ worker, state_at m b = Some (InProgress worker).
Proof.
  intros [Hall _] Hex. apply Exists_exists in Hex as (sb & Hsb & Hb).
  rewrite Forall_forall in Hall. destruct (Hall sb Hsb) as (_ & _ & Hown). eauto.
Qed.

(** A batch that is owned completes. *)
Lemma complete_all_owned blocks m :
  wf m → owned blocks m → ∃ m', complete_all m blocks = Ok m'.
Proof.
  intros Hwf [Hall Hap]. revert m Hwf Hall.
  induction blocks as [|sb blocks IH]; intros m Hwf Hall; cbn; [by eexists|].
  apply Forall_cons in Hall as [Hsb Hall]. pose proof Hsb as ((? & ?) & ? & Hown).
  destruct Hap as [Hd Hap]. pose proof Hwf as (Hu & _).
  pose proof (complete_spec m (sb_range sb) (sb_worker sb) Hwf ltac:(ulia)) as Hc.
  destruct (complete m _ _) as [[[]|e] m1].
  - destruct Hc as (_ & _ & Hwf1 & Ht1 & Hst). apply IH; [done..|].
    rewrite Forall_forall in Hall, Hd |- *. intros x Hx.
    apply (block_owned_ext m); [done| |by apply Hall]. intros b Hb. rewrite Hst.
    specialize (Hd x Hx). unfold range_disjoint, in_range in *. rewrite bool_decide_eq_false_2 by lia.
    done.
  - exfalso. destruct Hc as (_ & [[Hv _]|(_ & _ & b & Hb & Hn)]); [|by apply Hn, Hown].
    apply Hv. unfold valid_range. lia.
Qed.

Lemma settles_owned blocks w' m m' :
  owned blocks m → settles blocks w' m m' → owned (dw_staged w') m'.
Proof.
  intros [Hall Hap] (Ht & [[-> Hst]|[-> _]]); [|by split]. split; [|done].
  eapply Forall_impl; [exact Hall|]. intros sb Hsb. by apply (block_owned_ext m).
Qed.

Lemma settles_complete blocks w' m m' b :
  owned blocks m → settles blocks w' m m' → state_at m b = Some Complete →
  state_at m' b = Some Complete.
Proof.
  intros Ho (_ & [[_ Hst]|[_ Hst]]) Hb; rewrite Hst; [done|]. by case_decide.
Qed.

(** Nothing is completed that was not staged. *)
Lemma settles_secured blocks w' m m' b :
  owned blocks m → settles blocks w' m m' →
  (state_at m' b = Some Complete ∨ in_blocks (dw_staged w') b) ↔
  (state_at m b = Some Complete ∨ in_blocks blocks b).
Proof.
  intros Ho (_ & [[-> Hst]|[-> Hst]]); rewrite Hst; [done|].
  assert (Hn : ¬ in_blocks [] b) by (by intros ?%Exists_nil). case_decide; naive_solver.
Qed.

(** ** Running commands *)

Section service.
Context {D J : Type} `{Checksum, Digest} `{DurableDataLaws D} `{!DurableJournal J}
  `{!DurableJournalLaws J}.
Implicit Types (d : D) (j : J) (w : DurableWriter) (m : IntervalMap).

(** [p] run from [d] and [j] ends in [Q], and [S] holds wherever it is stopped. *)
Definition wp {A} (p : prog A) (Q : A → D → J → Prop) (S : D → J → Prop) d j : Prop :=
  ∀ d' j' o, exec d j p d' j' o → match o with Some a => Q a d' j' | None => S d' j' end.

Lemma wp_ret {A} (a : A) (Q : A → D → J → Prop) (S : D → J → Prop) d j :
  Q a d j → S d j → wp (Ret a) Q S d j.
Proof. intros HQ HS d' j' o Hx. by inversion Hx; subst. Qed.
Lemma wp_bind {A B} (p : prog A) (f : A → prog B) Q S d j :
  wp p (λ a, wp (f a) Q S) S d j → wp (bind p f) Q S d j.
Proof.
  intros Hp d' j' o Hx. apply exec_bind in Hx as [(a & d1 & j1 & Hx1 & Hx2)|[Hx1 ->]].
  - exact (Hp _ _ _ Hx1 _ _ _ Hx2).
  - exact (Hp _ _ _ Hx1).
Qed.
Lemma wp_mono {A} (p : prog A) (Q Q' : A → D → J → Prop) (S S' : D → J → Prop) d j :
  wp p Q S d j → (∀ a d j, Q a d j → Q' a d j) → (∀ d j, S d j → S' d j) → wp p Q' S' d j.
Proof. intros Hp HQ HS d' j' o Hx. specialize (Hp _ _ _ Hx). destruct o; auto. Qed.

(** Where a stop leaves the storage. *)
Definition stop_ok m d j : Prop := safe d j ∧ covered m j.

Lemma inv_stop m0 w m d j :
  inv w m d j → (∀ b, state_at m0 b = Some Complete → state_at m b = Some Complete) → stop_ok m0 d j.
Proof. intros [? ? ? ? Hcov ?] Hm. split; [done|]. intros b Hb. by apply Hcov, Hm. Qed.

(** A flush of owned work either leaves it staged, or completes exactly it and reports it. *)
Lemma flush_wp w m d j :
  inv w m d j → owned (dw_staged w) m →
  wp (flush w m) (λ '(r, w', m') d' j',
    inv w' m' d' j' ∧ settles (dw_staged w) w' m m' ∧
    match r with
    | Ok durable => dw_staged w' = [] ∧ Forall2 reported durable (dw_staged w)
    | Err _ => m' = m ∧ dw_staged w' = dw_staged w
    end) (stop_ok m) d j.
Proof.
  intros Hi Ho d' j' o Hx. destruct (flush_exec _ _ _ _ _ _ _ Hi Hx) as [Hk Ht].
  destruct o as [[[r w'] m']|]; cbn in Hk; [|done]. destruct Hk as [Hi' Hmono].
  split; [done|]. pose proof Hi as [_ Hl _ _ _ _]. pose proof Hi' as [_ Hl' _ _ _ _].
  destruct r as [durable|e].
  - destruct (flush_ok _ _ _ _ _ _ _ _ _ Hi Hx) as (Hs & _ & Hin & Hout & recs & _ & _ & _ & _ & _ & Hr).
    split; [|done]. split; [congruence|]. right. split; [done|]. intros b. case_decide; auto.
  - destruct (flush_err _ _ _ _ _ _ _ _ _ Hx) as [-> Hw].
    assert (Hs : dw_staged w' = dw_staged w) by (destruct Hw as [->|(-> & _)]; done).
    split; [|done]. split; [done|]. by left.
Qed.

Lemma flush_if_due_wp w m now d j :
  inv w m d j → owned (dw_staged w) m →
  wp (flush_if_due w m now) (λ '(r, w', m') d' j',
    inv w' m' d' j' ∧ settles (dw_staged w) w' m m' ∧
    match r with
    | Ok durable => dw_staged w' = [] ∧ Forall2 reported durable (dw_staged w) ∨ durable = []
    | Err _ => m' = m ∧ dw_staged w' = dw_staged w
    end) (stop_ok m) d j.
Proof.
  intros Hi Ho. unfold flush_if_due.
  assert (Hs : stop_ok m d j) by by eapply inv_stop.
  assert (Hse : settles (dw_staged w) w m m) by (split; [done|]; by left).
  destruct (ensure_usable w); [|by apply wp_ret].
  case_bool; [|apply wp_ret; [|done]; auto].
  eapply wp_mono; [by apply flush_wp| |done].
  intros [[r w'] m'] d' j' (? & ? & ?). split_and!; [done..|]. destruct r; auto.
Qed.

Lemma wp_write {A} off bs (k : result unit WriterError → prog A) Q (S : D → J → Prop) d j :
  S d j → (∀ r d1, write_all_at off bs d r d1 → wp (k r) Q S d1 j) →
  wp (WriteAllAt off bs k) Q S d j.
Proof.
  intros HS Hk d' j' o Hx. inversion Hx as [| |? ? ? ? ? r d1 ? ? ? Hw He| | |]; subst; [done|].
  exact (Hk _ _ Hw _ _ _ He).
Qed.

(** The block a write may add to the batch. *)
Definition new_block worker off (bs : list byte) (new : list StagedBlock) : Prop :=
  new = [] ∨ ∃ sb, new = [sb] ∧ sb_range sb = MkRange off (off + zlen bs) ∧ sb_worker sb = worker.

Definition stage_post w m worker off bs : outcome → D → J → Prop :=
  λ '(r, w', m') d' j',
    inv w' m' d' j' ∧ ∃ new, new_block worker off bs new ∧ owned (dw_staged w ++ new) m ∧
      settles (dw_staged w ++ new) w' m m' ∧
      match r with
      | Ok durable => new ≠ [] ∧
          (durable = [] ∨ dw_staged w' = [] ∧ Forall2 reported durable (dw_staged w ++ new))
      | Err _ => True
      end.

Lemma stage_nothing_wp r w m worker off bs d j :
  inv w m d j → owned (dw_staged w) m →
  wp (Ret ((Err r, w, m) : outcome)) (stage_post w m worker off bs) (stop_ok m) d j.
Proof.
  intros Hi Ho. apply wp_ret; [|by eapply inv_stop]. split; [done|]. exists [].
  rewrite app_nil_r. split_and!; [by left|done| |done]. split; [done|]. by left.
Qed.

Lemma stage_wp windows w m worker off bs now d j :
  inv w m d j → owned (dw_staged w) m → u64 off →
  wp (stage windows w m worker off bs now) (stage_post w m worker off bs) (stop_ok m) d j.
Proof.
  intros Hi Ho Hoff. unfold stage.
  destruct (stage_checks w m worker off bs) as [[[range rl] nsb]|e] eqn:Ec;
    [|by apply stage_nothing_wp].
  apply wp_write; [by eapply inv_stop|]. intros r d1 Hw.
  destruct (stage_write w m d j worker off bs range rl nsb now r d1 Hi Hoff Ec Hw)
    as (Hi1 & Ht1 & Hi2).
  pose proof Hi as [Hmap _ _ _ _ _].
  destruct (stage_checks_Ok _ _ _ _ _ _ _ _ Hmap Hoff Ec)
    as (_ & _ & Hne & -> & -> & _ & Hin & Hown & Happ & ->).
  assert (0 < zlen bs)
    by (destruct bs; [done|]; rewrite zlen_cons; pose proof (zlen_nonneg bs); lia).
  set (sb := MkStaged (MkRange off (off + zlen bs)) (zlen bs) worker (blake3 bs)) in *.
  assert (Hos : owned (dw_staged w ++ [sb]) m).
  { destruct Ho as [Hall Hap]. split; [|by apply apart_app].
    apply Forall_app. split; [done|]. constructor; [|done].
    split_and!; cbn; [ulia|lia|lia|]. intros b Hb. by apply Hown. }
  assert (Hnb : new_block worker off bs [sb]) by (right; by exists sb).
  destruct r as [[]|e].
  - specialize (Hi2 eq_refl). case_bool.
    + eapply wp_mono; [by apply flush_wp| |done]. intros [[r w'] m'] d' j' (? & ? & Hr).
      split; [done|]. exists [sb]. split_and!; [done..|]. destruct r; [|done]. split; [done|by right].
    + apply wp_ret; [|by eapply inv_stop]. split; [done|]. exists [sb].
      split; [done|]. split; [done|]. split; [split; [done|by left]|]. split; [done|by left].
  - destruct (no_space_offset _ _ _) as [off'|].
    + apply wp_bind. eapply wp_mono; [by apply flush_wp| |done].
      intros [[r w2] m2] d2 j2 (Hk & Hse & _). apply wp_ret.
      * split; [by apply inv_disk_full|]. exists []. rewrite app_nil_r. split; [by left|done].
      * eapply inv_stop; [done|]. intros b. by apply (settles_complete (dw_staged w) w2).
    + apply wp_ret; [|by eapply inv_stop]. split.
      * eapply (inv_poison w m d1 j); [done|by destruct Hi1..|done].
      * exists []. rewrite app_nil_r. split; [by left|]. split; [done|]. split; [|done]. split; [done|by left].
Qed.

(** ** The actor's invariant *)

Record serving (a : StateActor) d j : Prop := {
  sg_inv : inv (writer a) (actor_map a) d j;
  sg_alloc : wf_alloc (allocator a);
  sg_owned : owned (dw_staged (writer a)) (actor_map a);
}.

Definition staged_at (a : StateActor) (b : Z) : Prop := in_blocks (dw_staged (writer a)) b.
Definition complete_at (a : StateActor) (b : Z) : Prop := state_at (actor_map a) b = Some Complete.
(** Accepted and not given up: complete, or staged for completion. *)
Definition secured (a : StateActor) (b : Z) : Prop := complete_at a b ∨ staged_at a b.

(** What a fence makes of the map: everything staged is complete. *)
Definition fenced (a a' : StateActor) : Prop :=
  dw_staged (writer a') = [] ∧ total_length (actor_map a') = total_length (actor_map a) ∧
  ∀ b, state_at (actor_map a') b =
    if decide (staged_at a b) then Some Complete else state_at (actor_map a) b.
(** What a refused fence leaves. *)
Definition unfenced (a a' : StateActor) : Prop :=
  dw_staged (writer a') = dw_staged (writer a) ∧ allocator a' = allocator a.

Lemma serving_put_back a w m d0 j0 d j :
  serving a d0 j0 → inv w m d j → owned (dw_staged w) m → serving (put_back a w m) d j.
Proof.
  intros [_ (_ & ? & ?) _] Hi Ho. split; [done| |done]. split; [by destruct Hi|done].
Qed.

Lemma settles_fenced a w m :
  settles (dw_staged (writer a)) w (actor_map a) m → dw_staged w = [] → fenced a (put_back a w m).
Proof.
  intros (Ht & [[Hs Hst]|[_ Hst]]) Hw; (split; [done|]); (split; [done|]); intros b; cbn.
  - rewrite Hw in Hs. unfold staged_at. rewrite <- Hs.
    rewrite decide_False by (by intros ?%Exists_nil). apply Hst.
  - apply Hst.
Qed.

Lemma serving_stop a m0 d j :
  serving a d j → (∀ b, state_at m0 b = Some Complete → complete_at a b) → stop_ok m0 d j.
Proof. intros [Hi _ _] Hm. by eapply inv_stop. Qed.

Definition flush_post a : result (list DurableBlock) WriterServiceError * StateActor → D → J → Prop :=
  λ '(r, a') d' j', serving a' d' j' ∧
    match r with
    | Ok durable => fenced a a' ∧ Forall2 reported durable (dw_staged (writer a))
    | Err e => unfenced a a' ∧ ∃ e', e = Writer_ e'
    end.

Lemma unfenced_put_back a w :
  dw_staged w = dw_staged (writer a) → unfenced a (put_back a w (actor_map a)).
Proof. intros Hw. split; [done|]. unfold actor_map. by destruct a as [? []]. Qed.

Lemma actor_flush_wp a d j :
  serving a d j → wp (actor_flush a) (flush_post a) (stop_ok (actor_map a)) d j.
Proof.
  intros Hs. pose proof Hs as [Hi Ha Ho]. apply wp_bind. eapply wp_mono; [by apply flush_wp| |done].
  intros [[r w'] m'] d' j' (Hi' & Hse & Hr). apply wp_ret.
  - split; [eapply serving_put_back; [done..|by eapply settles_owned]|].
    destruct r as [durable|e]; cbn [map_err].
    + destruct Hr. split; [by apply settles_fenced|done].
    + destruct Hr as [-> Hw]. split; [by apply unfenced_put_back|by eexists].
  - eapply inv_stop; [done|]. intros b. by eapply settles_complete.
Qed.

Lemma fenced_secured a a' b : fenced a a' → complete_at a' b ↔ secured a b.
Proof.
  intros (_ & _ & Hst). unfold complete_at, secured. rewrite Hst.
  case_decide; naive_solver.
Qed.

Lemma unfenced_secured a a' b : unfenced a a' → secured a' b ↔ secured a b.
Proof. intros [Hs Ha]. unfold secured, complete_at, staged_at, actor_map. by rewrite Hs, Ha. Qed.

(** With nothing staged, replacing the allocator by one in which the same bytes are complete. *)
Lemma serving_allocator a al d j :
  serving a d j → dw_staged (writer a) = [] → wf_alloc al →
  total_length (sa_intervals al) = total_length (actor_map a) →
  (∀ b, a_state_at al b = Some Complete ↔ complete_at a b) →
  serving (MkActor (writer a) al) d j.
Proof.
  intros [Hi _ _] Hs Hal Ht Hst. split; cbn; [|done|].
  - apply (inv_remap _ (actor_map a)); [done|by destruct Hal|done|done].
  - rewrite Hs. by split.
Qed.

(** ** The commands *)

Definition allocate_post a worker
    : result AllocationReceipt WriterServiceError * StateActor → D → J → Prop :=
  λ '(r, a') d' j', serving a' d' j' ∧
    match r with
    | Ok receipt => ∃ a1, fenced a a1 ∧ writer a' = writer a1 ∧ wf_alloc (allocator a1) ∧
        allocate (allocator a1) worker = (Ok (ar_allocation receipt), allocator a') ∧
        Forall2 reported (ar_durable receipt) (dw_staged (writer a))
    | Err e => unfenced a a' ∧ (∃ e', e = Writer_ e') ∨
        fenced a a' ∧ e = Allocator_ (WorkerAlreadyActive worker) ∧
        ∃ b, state_at (actor_map a') b = Some (InProgress worker)
    end.

Lemma actor_allocate_wp a worker d j :
  serving a d j → wp (actor_allocate a worker) (allocate_post a worker) (stop_ok (actor_map a)) d j.
Proof.
  intros Hs. apply wp_bind. eapply wp_mono; [by apply actor_flush_wp| |done].
  intros [[durable|e] a1] d1 j1 [Hs1 Hr].
  2: { destruct Hr as [Hu He]. apply wp_ret; [by split; [|left]|].
       eapply serving_stop; [done|]. unfold complete_at, actor_map. by destruct Hu as [_ ->]. }
  destruct Hr as [Hf Hr]. pose proof Hs1 as [_ Ha1 _].
  assert (Hstop : stop_ok (actor_map a) d1 j1).
  { eapply serving_stop; [done|]. intros b Hb. apply (fenced_secured a); [done|]. by left. }
  pose proof (allocate_complete (allocator a1) worker) as Hc.
  pose proof (allocate_spec (allocator a1) worker Ha1) as Hal.
  destruct (allocate (allocator a1) worker) as [[al|e] a2] eqn:E; cbn [snd] in Hc.
  - apply wp_ret; [|done]. split; [|exists a1; by rewrite E].
    apply serving_allocator; [done|by destruct Hf| | |intros b; by apply Hc];
      destruct al as [al|]; [by destruct Hal as (_ & ? & _)|by destruct Hal as [-> _]
        |by destruct Hal as (_ & _ & _ & ? & _)|by destruct Hal as [-> _]].
  - destruct Hal as (-> & -> & Hb). apply wp_ret; [|done].
    assert (Heq : MkActor (writer a1) (allocator a1) = a1) by by destruct a1.
    rewrite Heq. split; [done|]. by right.
Qed.

Definition abandon_post a worker
    : result AbandonReceipt WriterServiceError * StateActor → D → J → Prop :=
  λ '(r, a') d' j', serving a' d' j' ∧
    match r with
    | Ok receipt => ∃ a1, fenced a a1 ∧ writer a' = writer a1 ∧
        br_released receipt = count_state (actor_map a1) (InProgress worker) ∧
        total_length (actor_map a') = total_length (actor_map a1) ∧
        (∀ b, state_at (actor_map a') b =
           if bool_decide (state_at (actor_map a1) b = Some (InProgress worker))
           then Some Pending else state_at (actor_map a1) b) ∧
        Forall2 reported (br_durable receipt) (dw_staged (writer a))
    | Err e => unfenced a a' ∧ ∃ e', e = Writer_ e'
    end.

Lemma actor_abandon_wp a worker d j :
  serving a d j → wp (actor_abandon a worker) (abandon_post a worker) (stop_ok (actor_map a)) d j.
Proof.
  intros Hs. apply wp_bind. eapply wp_mono; [by apply actor_flush_wp| |done].
  intros [[durable|e] a1] d1 j1 [Hs1 Hr].
  2: { destruct Hr as [Hu He]. apply wp_ret; [by split|].
       eapply serving_stop; [done|]. unfold complete_at, actor_map. by destruct Hu as [_ ->]. }
  destruct Hr as [Hf Hr]. pose proof Hs1 as [_ (Hwf & Hmin & Hminu) _].
  pose proof (abandon_spec (sa_intervals (allocator a1)) worker Hwf) as Hab.
  unfold Allocator.abandon. destruct (Intervals.abandon _ worker) as [released m].
  destruct Hab as (-> & Hwf' & Ht & Hst). apply wp_ret.
  - split; [|exists a1; by split_and!].
    apply serving_allocator; [done|by destruct Hf|by split|done|].
    intros b. unfold a_state_at, complete_at, actor_map. cbn. rewrite Hst.
    case_bool_decide as Hb; [|done]. by rewrite Hb.
  - eapply serving_stop; [done|]. intros b Hb. apply (fenced_secured a); [done|]. by left.
Qed.

Definition shutdown_post a : result WriterSnapshot WriterServiceError * StateActor → D → J → Prop :=
  λ '(r, a') d' j', serving a' d' j' ∧
    match r with
    | Ok snapshot => fenced a a' ∧ snapshot = MkSnapshot (allocator a')
    | Err e => unfenced a a' ∧ ∃ e', e = Writer_ e'
    end.

Lemma actor_shutdown_wp a d j :
  serving a d j → wp (actor_shutdown a) (shutdown_post a) (stop_ok (actor_map a)) d j.
Proof.
  intros Hs. apply wp_bind. eapply wp_mono; [by apply actor_flush_wp| |done].
  intros [[durable|e] a1] d1 j1 [Hs1 Hr]; destruct Hr as [Hf Hr]; apply wp_ret; try by split.
  - eapply serving_stop; [done|]. intros b Hb. apply (fenced_secured a); [done|]. by left.
  - eapply serving_stop; [done|]. unfold complete_at, actor_map. by destruct Hf as [_ ->].
Qed.

(** Who may write: the whole non-empty range inside the file is in progress for the worker. *)
Definition may_write a worker off (bs : list byte) : Prop :=
  bs ≠ [] ∧ off + zlen bs ≤ total_length (actor_map a) ∧
  ∀ b, off ≤ b < off + zlen bs → state_at (actor_map a) b = Some (InProgress worker).

Definition write_post a worker off (bs : list byte) d j
    : result WriteReceipt WriterServiceError * StateActor → D → J → Prop :=
  λ '(r, a') d' j', serving a' d' j' ∧ total_length (actor_map a') = total_length (actor_map a) ∧
    (∀ b, state_at (actor_map a') b = state_at (actor_map a) b ∨ complete_at a' b) ∧
    (∀ b, secured a b → secured a' b) ∧
    (∀ b, secured a' b → secured a b ∨ off ≤ b < off + zlen bs) ∧
    match r with
    | Ok receipt => may_write a worker off bs ∧
        wr_range receipt = MkRange off (off + zlen bs) ∧
        (∀ b, off ≤ b < off + zlen bs → ¬ secured a b ∧ secured a' b) ∧
        ∀ c b, c ∈ wr_durable receipt → in_range (db_range c) b → complete_at a' b
    | Err e =>
        ¬ may_write a worker off bs ∧ a' = a ∧ d' = d ∧ j' = j ∧
          (e = CursorOverflow ∨ ∃ e', e = Writer_ (WInterval e')) ∨
        may_write a worker off bs ∧ ∃ e', e = Writer_ e'
    end.

Lemma zlen_pos {A} (l : list A) : l ≠ [] ↔ 0 < zlen l.
Proof.
  destruct l; [by split; intros|]. rewrite zlen_cons. pose proof (zlen_nonneg l).
  split; [lia|done].
Qed.

Lemma refused_wp a worker off bs e d j :
  serving a d j → ¬ may_write a worker off bs →
  (e = CursorOverflow ∨ ∃ e', e = Writer_ (WInterval e')) →
  wp (Ret (Err e, a)) (write_post a worker off bs d j) (stop_ok (actor_map a)) d j.
Proof.
  intros Hs Hn He. apply wp_ret; [|by eapply serving_stop].
  split_and!; auto. left. by split_and!.
Qed.

Lemma apart_snoc blocks sb :
  apart (blocks ++ [sb]) → Forall (λ sb', range_disjoint (sb_range sb') (sb_range sb)) blocks.
Proof.
  induction blocks as [|x blocks IH]; cbn; [done|]. intros [Hx Hb]. constructor; [|by apply IH].
  apply Forall_app in Hx as [_ Hx]. by inversion Hx.
Qed.

Lemma reported_in_blocks durable blocks c b :
  Forall2 reported durable blocks → c ∈ durable → in_range (db_range c) b → in_blocks blocks b.
Proof.
  intros Hr Hc Hb. apply list_elem_of_lookup in Hc as [i Hi].
  destruct (Forall2_lookup_l _ _ _ _ _ Hr Hi) as (sb & Hsb & Hrep & _).
  apply Exists_exists. exists sb. split; [by eapply list_elem_of_lookup_2|by rewrite <- Hrep].
Qed.

Lemma actor_write_wp windows a worker off bs now d j :
  serving a d j → u64 off →
  wp (actor_write windows a worker off bs now) (write_post a worker off bs d j)
    (stop_ok (actor_map a)) d j.
Proof.
  intros Hs Hoff. pose proof Hs as [Hi Ha Ho]. unfold actor_write.
  pose proof Ha as (Hwf & _). pose proof Hwf as (Hu & _).
  destruct (checked_add64 off (zlen bs)) as [en|] eqn:Ee.
  2: { apply refused_wp; [done| |by left]. apply checked_add64_None in Ee.
       intros (_ & Hle & _). unfold actor_map in *. ulia. }
  apply checked_add64_Some in Ee as [-> _].
  pose proof (complete_spec (actor_map a) (MkRange off (off + zlen bs)) worker Hwf Hoff) as Hc.
  destruct (complete (actor_map a) _ worker) as [[[]|e] m1]; cbn [fst].
  2: { apply refused_wp; [done| |right; by eexists]. intros (Hne & Hle & Hown).
       apply zlen_pos in Hne. destruct Hc as (_ & [[Hv _]|(_ & _ & b & Hb & Hn)]).
       - apply Hv. unfold valid_range. cbn. lia.
       - apply Hn, Hown. done. }
  destruct Hc as ([Hv1 Hv2] & Hown & _). cbn in Hv1, Hv2, Hown.
  assert (Hmay : may_write a worker off bs) by (split_and!; [apply zlen_pos; lia|done..]).
  apply wp_bind. eapply wp_mono; [by apply stage_wp| |done].
  intros [[r w'] m'] d' j' (Hi' & new & Hnew & Hon & Hse & Hr).
  assert (Hsec : ∀ b, secured (put_back a w' m') b ↔ secured a b ∨ in_blocks new b).
  { intros b. unfold secured. rewrite (settles_secured _ w' _ m' b Hon Hse).
    unfold staged_at, in_blocks. rewrite Exists_app. naive_solver. }
  assert (Hin : ∀ b, in_blocks new b → off ≤ b < off + zlen bs).
  { intros b Hb. destruct Hnew as [->|(sb & -> & Hsb & _)]; [by apply Exists_nil in Hb|].
    apply Exists_exists in Hb as (x & ->%list_elem_of_singleton & Hb). rewrite Hsb in Hb. done. }
  apply wp_ret; [|eapply inv_stop; [done|]; intros b Hb; eapply settles_complete; [done..|done]].
  split; [eapply serving_put_back; [done..|by eapply settles_owned]|]. split; [by destruct Hse|].
  split; [|split; [intros b Hb; apply Hsec; by left|split]].
  - intros b. destruct Hse as (_ & [[_ Hst]|[_ Hst]]); [by left|].
    destruct (decide (in_blocks (dw_staged (writer a) ++ new) b)) as [Hb|Hb] eqn:E.
    + right. unfold complete_at, put_back, actor_map. cbn. by rewrite Hst, E.
    + left. unfold put_back, actor_map in *. cbn. by rewrite Hst, E.
  - intros b [?|Hb]%Hsec; [by left|right; by apply Hin].
  - destruct r as [durable|e]; [|right; by eauto]. destruct Hr as [Hne Hdur].
    destruct Hnew as [->|(sb & -> & Hsb & Hwk)]; [done|].
    split; [done|]. split; [done|]. split.
    + intros b Hb. split.
      * intros [Hcb|Hst]; [unfold complete_at in Hcb; rewrite Hown in Hcb; done|].
        destruct Hon as [_ Hap%apart_snoc]. rewrite Forall_forall in Hap.
        apply Exists_exists in Hst as (x & Hx & Hxb). specialize (Hap x Hx).
        rewrite Hsb in Hap. unfold range_disjoint, in_range in *. cbn in Hap. lia.
      * apply Hsec. right. apply Exists_cons. left. by rewrite Hsb.
    + intros c b Hc Hb. destruct Hdur as [->|[Hw Hrep]]; [by apply elem_of_nil in Hc|].
      destruct Hse as (_ & [[Hse _]|[_ Hst]]).
      { rewrite Hw in Hse. by destruct (dw_staged (writer a)). }
      unfold complete_at, put_back, actor_map in *. cbn. rewrite Hst.
      rewrite decide_True; [done|]. by eapply reported_in_blocks.
Qed.

(** ** What the replies say *)

(** Bytes a reply accepts for writing. *)
Definition accepts (reply : Reply) (b : Z) : Prop :=
  match reply with Wrote (Ok receipt) => in_range (wr_range receipt) b | _ => False end.

Definition in_durable (l : list DurableBlock) (b : Z) : Prop :=
  ∃ c, c ∈ l ∧ in_range (db_range c) b.
(** Bytes a reply reports as durable. *)
Definition reports (reply : Reply) (b : Z) : Prop :=
  match reply with
  | Allocated (Ok receipt) => in_durable (ar_durable receipt) b
  | Wrote (Ok receipt) => in_durable (wr_durable receipt) b
  | Flushed (Ok durable) => in_durable durable b
  | Abandoned (Ok receipt) => in_durable (br_durable receipt) b
  | Snapped (Ok snapshot) => a_state_at (ws_allocator snapshot) b = Some Complete
  | _ => False
  end.

(** Commands that answer only once everything accepted before them is durable. *)
Definition fences (command : Command) (reply : Reply) : Prop :=
  match command, reply with
  | Allocate _, Allocated (Ok _) | Flush, Flushed (Ok _) | Abandon _, Abandoned (Ok _)
  | Shutdown, Snapped (Ok _) => True
  | _, _ => False
  end.

Definition command_args (command : Command) : Prop :=
  match command with Write _ offset _ _ => u64 offset | _ => True end.

(** What one command does to what is secured. *)
Record turn (a : StateActor) (command : Command) (reply : Reply) (a' : StateActor) : Prop := {
  tn_complete b : complete_at a b → complete_at a' b;
  tn_secured b : secured a b → secured a' b;
  tn_accepts b : accepts reply b → ¬ secured a b ∧ secured a' b;
  tn_reports b : reports reply b → complete_at a' b;
  tn_fences : fences command reply → dw_staged (writer a') = [];
}.

Lemma turn_fenced a command reply a1 a' :
  fenced a a1 → (∀ b, complete_at a' b ↔ complete_at a1 b) → dw_staged (writer a') = [] →
  (∀ b, ¬ accepts reply b) → (∀ b, reports reply b → secured a b) → turn a command reply a'.
Proof.
  intros Hf Hc Hs Ha Hr.
  assert (Hsec : ∀ b, secured a b → complete_at a' b) by (intros b Hb; by apply Hc, (fenced_secured a)).
  split; [intros b Hb; apply Hsec; by left|intros b Hb; left; by apply Hsec|
    intros b Hb; by destruct (Ha b)|intros b Hb; by apply Hsec, Hr|done].
Qed.

Lemma turn_unfenced a command reply a' :
  unfenced a a' → (∀ b, ¬ accepts reply b) → (∀ b, reports reply b → complete_at a b) →
  ¬ fences command reply → turn a command reply a'.
Proof.
  intros Hu Ha Hr Hf. pose proof Hu as [_ Hal].
  assert (Hc : ∀ b, complete_at a' b ↔ complete_at a b)
    by (intros b; unfold complete_at, actor_map; by rewrite Hal).
  split; [intros b; apply Hc|intros b; by apply unfenced_secured|
    intros b Hb; by destruct (Ha b)|intros b Hb; by apply Hc, Hr|done].
Qed.

Lemma reported_secured a durable b :
  Forall2 reported durable (dw_staged (writer a)) → in_durable durable b → secured a b.
Proof. intros Hr (c & Hc & Hb). right. by eapply reported_in_blocks. Qed.

Definition flush_if_due_post a now d j
    : result (list DurableBlock) WriterServiceError * StateActor → D → J → Prop :=
  λ '(r, a') d' j',
    if dw_poisoned (writer a) then r = Err (Writer_ Poisoned) ∧ a' = a ∧ d' = d ∧ j' = j
    else if flush_due (writer a) now then flush_post a (r, a') d' j'
    else r = Ok [] ∧ a' = a ∧ d' = d ∧ j' = j.

Lemma put_back_same a : put_back a (writer a) (actor_map a) = a.
Proof. by destruct a as [? []]. Qed.

Lemma actor_flush_if_due_wp a now d j :
  serving a d j →
  wp (actor_flush_if_due a now) (flush_if_due_post a now d j) (stop_ok (actor_map a)) d j.
Proof.
  intros Hs. unfold actor_flush_if_due, flush_if_due, ensure_usable, flush_if_due_post.
  destruct (dw_poisoned (writer a)) eqn:Hp; [|destruct (flush_due (writer a) now)].
  - apply wp_ret; [by rewrite put_back_same|by eapply serving_stop].
  - by apply actor_flush_wp.
  - apply wp_ret; [by rewrite put_back_same|by eapply serving_stop].
Qed.

Lemma flush_turn a command r a' d j :
  flush_post a (r, a') d j → turn a command (Flushed r) a'.
Proof.
  intros [_ Hr]. destruct r as [durable|e].
  - destruct Hr as [Hf Hrep].
    eapply turn_fenced; [done..|by destruct Hf|by intros b []|intros b; by apply reported_secured].
  - destruct Hr. apply turn_unfenced; [done|by intros b []|by intros b []|]. by destruct command; intros [].
Qed.

Lemma nothing_turn a now r :
  (∀ b, ¬ reports (Flushed r) b) → turn a (FlushIfDue now) (Flushed r) a.
Proof.
  intros Hr. apply turn_unfenced; [done|by intros b []|intros b Hb; by destruct (Hr b)|intros Hf].
  by destruct r.
Qed.

Lemma flush_if_due_turn a now r a' d j d' j' :
  serving a d j → flush_if_due_post a now d j (r, a') d' j' →
  serving a' d' j' ∧ turn a (FlushIfDue now) (Flushed r) a'.
Proof.
  intros Hs. unfold flush_if_due_post. repeat case_bool.
  - intros (-> & -> & -> & ->). split; [done|]. apply nothing_turn. intros b [].
  - intros Hf. split; [by destruct Hf|by eapply flush_turn].
  - intros (-> & -> & -> & ->). split; [done|]. apply nothing_turn.
    intros b (c & Hc & _). by apply elem_of_nil in Hc.
Qed.

Lemma handle_wp windows a command d j :
  serving a d j → command_args command →
  wp (handle windows a command)
    (λ '(reply, a') d' j', serving a' d' j' ∧ turn a command reply a') (stop_ok (actor_map a)) d j.
Proof.
  intros Hs Hargs.
  assert (Hstop : ∀ a' d' j', serving a' d' j' → (∀ b, complete_at a b → complete_at a' b) →
    stop_ok (actor_map a) d' j') by (intros a' d' j' Hs' Hc; by eapply serving_stop).
  assert (Hret : ∀ reply a' d' j', serving a' d' j' → turn a command reply a' →
    wp (Ret (reply, a')) (λ '(reply, a') d' j', serving a' d' j' ∧ turn a command reply a')
      (stop_ok (actor_map a)) d' j').
  { intros reply a' d' j' Hs' Ht. apply wp_ret; [done|]. eapply Hstop; [done|apply Ht]. }
  destruct command as [worker|worker off bs now| |now|worker| |]; cbn [handle].
  - apply wp_bind. eapply wp_mono; [by apply actor_allocate_wp| |done].
    intros [r a'] d' j' [Hs' Hr]. apply Hret; [done|]. destruct r as [receipt|e].
    + destruct Hr as (a1 & Hf & Hw & Ha1 & Hal & Hrep).
      eapply turn_fenced; [done| |rewrite Hw; by destruct Hf|by intros b []|intros b; by apply reported_secured].
      intros b. pose proof (allocate_complete (allocator a1) worker b Ha1) as Hc. by rewrite Hal in Hc.
    + destruct Hr as [[Hu _]|(Hf & _)]; [apply turn_unfenced; [done|by intros b []..|by intros []]|].
      eapply turn_fenced; [done..|by destruct Hf|by intros b []|by intros b []].
  - apply wp_bind. eapply wp_mono; [by apply actor_write_wp| |done].
    intros [r a'] d' j' (Hs' & _ & Hst & Hsec & _ & Hr). apply Hret; [done|].
    split; [|done| | |by destruct r].
    + intros b Hb. unfold complete_at. destruct (Hst b) as [->|?]; done.
    + destruct r as [receipt|e]; [|done]. destruct Hr as (_ & Hrange & Hin & _).
      intros b Hb. apply Hin. cbn in Hb. by rewrite Hrange in Hb.
    + destruct r as [receipt|e]; [|done]. intros b (c & Hc & Hb). by eapply Hr.
  - apply wp_bind. eapply wp_mono; [by apply actor_flush_wp| |done].
    intros [r a'] d' j' Hr. apply Hret; [by destruct Hr|by eapply flush_turn].
  - apply wp_bind. eapply wp_mono; [by apply actor_flush_if_due_wp| |done].
    intros [r a'] d' j' Hr. apply (flush_if_due_turn a now r a' d j) in Hr as [? ?]; [by apply Hret|done].
  - apply wp_bind. eapply wp_mono; [by apply actor_abandon_wp| |done].
    intros [r a'] d' j' [Hs' Hr]. apply Hret; [done|]. destruct r as [receipt|e].
    + destruct Hr as (a1 & Hf & Hw & _ & _ & Hst & Hrep).
      eapply turn_fenced; [done| |rewrite Hw; by destruct Hf|by intros b []|intros b; by apply reported_secured].
      intros b. unfold complete_at. rewrite Hst. case_bool_decide as Hb; [|done]. by rewrite Hb.
    + destruct Hr. apply turn_unfenced; [done|by intros b []..|by intros []].
  - apply Hret; [done|]. by apply turn_unfenced; [done|intros b []|done|intros []].
  - apply wp_bind. eapply wp_mono; [by apply actor_shutdown_wp| |done].
    intros [r a'] d' j' [Hs' Hr]. apply Hret; [done|]. destruct r as [snapshot|e].
    + destruct Hr as [Hf ->].
      eapply turn_fenced; [done..|by destruct Hf|by intros b []|]. intros b Hb. by apply (fenced_secured a a').
    + destruct Hr. apply turn_unfenced; [done|by intros b []..|by intros []].
Qed.

(** The effect of each command, by its reply. *)
Definition effect (a : StateActor) (command : Command) d j (reply : Reply) (a' : StateActor) d' j'
    : Prop :=
  match command, reply with
  | Allocate worker, Allocated r => allocate_post a worker (r, a') d' j'
  | Write worker offset bytes _, Wrote r => write_post a worker offset bytes d j (r, a') d' j'
  | Flush, Flushed r => flush_post a (r, a') d' j'
  | FlushIfDue now, Flushed r => flush_if_due_post a now d j (r, a') d' j'
  | Abandon worker, Abandoned r => abandon_post a worker (r, a') d' j'
  | Snapshot, Snapped r => r = Ok (MkSnapshot (allocator a)) ∧ a' = a ∧ d' = d ∧ j' = j
  | Shutdown, Snapped r => shutdown_post a (r, a') d' j'
  | _, _ => False
  end.

Lemma handle_effect windows a command reply a' d j d' j' :
  serving a d j → command_args command →
  exec d j (handle windows a command) d' j' (Some (reply, a')) → effect a command d j reply a' d' j'.
Proof.
  intros Hs Ha Hx. destruct command as [worker|worker off bs now| |now|worker| |]; cbn [handle] in Hx;
    try (apply exec_bind in Hx as [([r a1] & d1 & j1 & Hx1 & Hx)|[_ ?]]; [|done]);
    inversion Hx; subst; cbn [effect]; [..|done|].
  - exact (actor_allocate_wp _ _ _ _ Hs _ _ _ Hx1).
  - exact (actor_write_wp _ _ _ _ _ _ _ _ Hs Ha _ _ _ Hx1).
  - exact (actor_flush_wp _ _ _ Hs _ _ _ Hx1).
  - exact (actor_flush_if_due_wp _ _ _ _ Hs _ _ _ Hx1).
  - exact (actor_abandon_wp _ _ _ _ Hs _ _ _ Hx1).
  - exact (actor_shutdown_wp _ _ _ Hs _ _ _ Hx1).
Qed.

(** *** Who owns what after a command *)

(** Every byte of [a'] is owned as in [a], or complete. *)
Definition only_completes (a a' : StateActor) : Prop :=
  total_length (actor_map a') = total_length (actor_map a) ∧
  ∀ b, state_at (actor_map a') b = state_at (actor_map a) b ∨ complete_at a' b.

Lemma only_completes_refl a : only_completes a a.
Proof. split; [done|]. by left. Qed.

Lemma only_completes_fenced a a' : fenced a a' → only_completes a a'.
Proof.
  intros (_ & Ht & Hst). split; [done|]. intros b. unfold complete_at. rewrite Hst.
  case_decide; auto.
Qed.

Lemma only_completes_unfenced a a' : unfenced a a' → only_completes a a'.
Proof. intros [_ E]. unfold only_completes, actor_map. rewrite E. split; [done|]. by left. Qed.

Lemma only_completes_flush a r a' d j : flush_post a (r, a') d j → only_completes a a'.
Proof.
  intros [_ Hr]. destruct r; [by apply only_completes_fenced, Hr|by apply only_completes_unfenced, Hr].
Qed.

(** Only an allocation makes an owner, and an abandonment leaves none. *)
Record owners (a : StateActor) (command : Command) (reply : Reply) (a' : StateActor) : Prop := {
  ow_length : total_length (actor_map a') = total_length (actor_map a);
  ow_new b worker : state_at (actor_map a') b = Some (InProgress worker) →
    state_at (actor_map a) b = Some (InProgress worker) ∨ command = Allocate worker;
  ow_none worker receipt b : command = Abandon worker → reply = Abandoned (Ok receipt) →
    state_at (actor_map a') b ≠ Some (InProgress worker);
}.

Lemma only_completes_owned a a' b worker :
  only_completes a a' → state_at (actor_map a') b = Some (InProgress worker) →
  state_at (actor_map a) b = Some (InProgress worker).
Proof.
  intros [_ Hst] Hb. unfold complete_at in Hst.
  destruct (Hst b) as [E|E]; [by rewrite <- E|by rewrite E in Hb].
Qed.

Lemma only_completes_owners a command reply a' :
  only_completes a a' → (∀ worker receipt, command = Abandon worker → reply ≠ Abandoned (Ok receipt)) →
  owners a command reply a'.
Proof.
  intros Ho Hn. split; [by destruct Ho|intros b worker Hb; left; by eapply only_completes_owned|].
  intros worker receipt b E E'. by destruct (Hn worker receipt E).
Qed.

(** All but a successful allocation or abandonment only completes. *)
Definition moves_ownership (reply : Reply) : bool :=
  match reply with Allocated (Ok _) | Abandoned (Ok _) => true | _ => false end.

Lemma effect_only_completes a command d j reply a' d' j' :
  effect a command d j reply a' d' j' → moves_ownership reply = false → only_completes a a'.
Proof.
  destruct command as [worker|worker off bs now| |now|worker| |], reply as [r|r|r|r|r]; cbn [effect];
    try done; intros He Hm.
  - destruct r; [done|]. destruct He as [_ [[Hu _]|[Hf _]]];
      [by apply only_completes_unfenced|by apply only_completes_fenced].
  - destruct He as (_ & ? & ? & _). by split.
  - by eapply only_completes_flush.
  - unfold flush_if_due_post in He. repeat case_bool.
    + destruct He as (_ & -> & _). apply only_completes_refl.
    + by eapply only_completes_flush.
    + destruct He as (_ & -> & _). apply only_completes_refl.
  - destruct r; [done|]. by apply only_completes_unfenced, He.
  - destruct He as (_ & -> & _). apply only_completes_refl.
  - destruct He as [_ Hr]. destruct r; [by apply only_completes_fenced, Hr|by apply only_completes_unfenced, Hr].
Qed.

Lemma allocate_owners a worker receipt a' d j :
  allocate_post a worker (Ok receipt, a') d j → owners a (Allocate worker) (Allocated (Ok receipt)) a'.
Proof.
  intros [_ (a1 & Hf%only_completes_fenced & _ & Ha1 & Hal & _)].
  pose proof (allocate_spec (allocator a1) worker Ha1) as Hsp. rewrite Hal in Hsp.
  destruct (ar_allocation receipt) as [al|].
  - destruct Hsp as (_ & _ & _ & Ht & _ & Hst & _). destruct Hf as [Ht1 Hst1].
    split; [unfold actor_map in *; congruence| |done]. intros b w Hb.
    unfold a_state_at in Hst. unfold actor_map in Hb. rewrite Hst in Hb.
    case_bool_decide as Hin; [injection Hb as <-; by right|left].
    by apply (only_completes_owned a a1).
  - destruct Hsp as (E & _). apply only_completes_owners; [|done].
    unfold only_completes, complete_at, actor_map in *. by rewrite E.
Qed.

Lemma abandon_owners a worker receipt a' d j :
  abandon_post a worker (Ok receipt, a') d j → owners a (Abandon worker) (Abandoned (Ok receipt)) a'.
Proof.
  intros [_ (a1 & Hf%only_completes_fenced & _ & _ & Ht & Hst & _)]. split.
  - destruct Hf. congruence.
  - intros b w Hb. rewrite Hst in Hb. case_bool_decide; [done|]. left.
    by apply (only_completes_owned a a1).
  - intros w receipt' b [= <-] _. rewrite Hst. by case_bool_decide.
Qed.

Lemma effect_owners a command d j reply a' d' j' :
  effect a command d j reply a' d' j' → owners a command reply a'.
Proof.
  intros He. destruct (moves_ownership reply) eqn:Hm.
  - destruct command, reply as [r|r|r|r|r], r; cbn [effect] in He; try done;
      [by eapply allocate_owners|by eapply abandon_owners].
  - apply only_completes_owners; [by eapply effect_only_completes|].
    intros worker receipt -> ->. done.
Qed.

(** Who holds a byte after a command, given who held it before: a grant hands it to the granted
    worker, an answered abandonment takes it from its holder. *)
Definition hand_over (b : Z) (held : option WorkerId) (answered : Command * Reply) : option WorkerId :=
  match answered with
  | (Allocate _, Allocated (Ok receipt)) =>
      match ar_allocation receipt with
      | Some allocation =>
          if bool_decide (in_range (g_range (a_grant allocation)) b)
          then Some (g_worker (a_grant allocation)) else held
      | None => held
      end
  | (Abandon worker, Abandoned (Ok _)) => if bool_decide (held = Some worker) then None else held
  | _ => held
  end.
Definition held_state (held : option WorkerId) : IntervalState :=
  match held with Some worker => InProgress worker | None => Pending end.

(** A byte is complete, or with its holder. *)
Definition held_by (a : StateActor) (b : Z) (held : option WorkerId) : Prop :=
  complete_at a b ∨ state_at (actor_map a) b = Some (held_state held).

Lemma held_only_completes a a' b held :
  only_completes a a' → (∀ b, complete_at a b → complete_at a' b) → held_by a b held → held_by a' b held.
Proof.
  intros [_ Hst] Hc [Hb|Hb]; [left; by apply Hc|]. destruct (Hst b) as [E|E]; [|by left].
  right. by rewrite E.
Qed.

Lemma held_fenced a a' b held : fenced a a' → held_by a b held → held_by a' b held.
Proof.
  intros Hf. apply held_only_completes; [by apply only_completes_fenced|].
  intros b' Hb. apply (fenced_secured a); [done|by left].
Qed.

Lemma held_state_worker held worker : held_state held = InProgress worker ↔ held = Some worker.
Proof. destruct held; cbn; naive_solver. Qed.

Lemma allocate_hands a worker receipt a' d j b held :
  allocate_post a worker (Ok receipt, a') d j → held_by a b held →
  held_by a' b (hand_over b held (Allocate worker, Allocated (Ok receipt))).
Proof.
  intros [_ (a1 & Hf & _ & Ha1 & Hal & _)] Hb. apply (held_fenced _ a1) in Hb; [|done].
  pose proof (allocate_complete (allocator a1) worker b Ha1) as Hc.
  pose proof (allocate_spec (allocator a1) worker Ha1) as Hsp. rewrite Hal in Hc, Hsp. cbn [snd hand_over] in Hc |- *.
  destruct Hb as [Hb|Hb]; [left; by apply Hc|].
  destruct (ar_allocation receipt) as [al|].
  - destruct Hsp as (_ & _ & _ & _ & -> & Hst & _). right. unfold a_state_at in Hst.
    unfold actor_map in *. rewrite Hst. by case_bool_decide.
  - destruct Hsp as (E & _). right. unfold actor_map in *. by rewrite E.
Qed.

Lemma abandon_hands a worker receipt a' d j b held :
  abandon_post a worker (Ok receipt, a') d j → held_by a b held →
  held_by a' b (hand_over b held (Abandon worker, Abandoned (Ok receipt))).
Proof.
  intros [_ (a1 & Hf & _ & _ & _ & Hst & _)] Hb. apply (held_fenced _ a1) in Hb; [|done].
  unfold held_by, complete_at. rewrite Hst. cbn [hand_over].
  destruct Hb as [Hb|Hb]; rewrite Hb; [by left|right].
  assert (E : Some (held_state held) = Some (InProgress worker) ↔ held = Some worker).
  { rewrite <- held_state_worker. split; [by intros [=]|by intros ->]. }
  rewrite (bool_decide_ext _ _ E). by case_bool_decide.
Qed.

Lemma effect_hands a command d j reply a' d' j' b held :
  effect a command d j reply a' d' j' → turn a command reply a' → held_by a b held →
  held_by a' b (hand_over b held (command, reply)).
Proof.
  intros He [Hc _ _ _ _] Hb. destruct (moves_ownership reply) eqn:Hm.
  - destruct command, reply as [r|r|r|r|r], r; cbn [effect] in He; try done;
      [by eapply allocate_hands|by eapply abandon_hands].
  - pose proof (effect_only_completes _ _ _ _ _ _ _ _ He Hm) as Ho.
    assert (E : hand_over b held (command, reply) = held) by (by destruct command, reply as [[]|[]|[]|[]|[]]).
    rewrite E. by eapply held_only_completes.
Qed.

(** ** Histories *)

Record state := MkState { st_actor : StateActor; st_data : D; st_journal : J }.
Definition history : Type := list (Command * Reply).

(** The commands the actor has answered, in order, with its replies. *)
Inductive served (windows : bool) : state → history → state → Prop :=
| served_nil s : served windows s [] s
| served_snoc s h s1 command reply a d j :
    served windows s h s1 → command_args command →
    exec (st_data s1) (st_journal s1) (handle windows (st_actor s1) command) d j (Some (reply, a)) →
    served windows s (h ++ [(command, reply)]) (MkState a d j).

(** A service around fresh storage and a new allocator. *)
Record started (s : state) : Prop := {
  sd_fresh : fresh (MkSys (writer (st_actor s)) (actor_map (st_actor s)) (st_data s) (st_journal s));
  sd_alloc : wf_alloc (allocator (st_actor s));
}.

Definition state_serving (s : state) : Prop := serving (st_actor s) (st_data s) (st_journal s).

Lemma started_serving s : started s → state_serving s.
Proof.
  intros [Hf Ha]. split; [exact (fresh_inv _ Hf)|done|].
  destruct Hf as [_ _ _ _ Hw]. cbn in Hw. unfold try_new in Hw. case_bool; [done|].
  injection Hw as <-. by split.
Qed.

Lemma served_step windows s1 command reply a d j :
  state_serving s1 → command_args command →
  exec (st_data s1) (st_journal s1) (handle windows (st_actor s1) command) d j (Some (reply, a)) →
  serving a d j ∧ turn (st_actor s1) command reply a.
Proof. intros Hs Ha Hx. exact (handle_wp windows _ command _ _ Hs Ha _ _ _ Hx). Qed.

Lemma served_serving windows s h s1 :
  served windows s h s1 → state_serving s → state_serving s1.
Proof.
  induction 1 as [|s h s1 command reply a d j Hh IH Ha Hx]; [done|]. intros Hs.
  by eapply served_step; [apply IH|..].
Qed.

(** At first nobody holds anything. *)
Lemma started_held s b :
  started s → 0 ≤ b < total_length (actor_map (st_actor s)) → held_by (st_actor s) b None.
Proof.
  intros [[[Hu Hm] _ _ _ _] _] Hb. right. cbn in Hm. rewrite Hm in Hb |- *.
  revert Hb. unfold state_at, new. case_bool; cbn; [lia|]. intros Hb. by rewrite bool_decide_eq_true_2.
Qed.

Definition accepted_in (h : history) (b : Z) : Prop := Exists (λ '(_, reply), accepts reply b) h.
Definition reported_in (h : history) (b : Z) : Prop := Exists (λ '(_, reply), reports reply b) h.

(** The worker that holds a byte by the replies of a history. *)
Definition holder (h : history) (b : Z) : option WorkerId := fold_left (hand_over b) h None.

(** What has been promised by the replies of a history. *)
Record kept_promises (h : history) (a : StateActor) : Prop := {
  kp_accepted b : accepted_in h b → secured a b;
  kp_reported b : reported_in h b → complete_at a b;
  kp_fenced h1 command reply h2 b :
    h = h1 ++ (command, reply) :: h2 → fences command reply → accepted_in h1 b → complete_at a b;
  kp_once h1 command reply h2 b :
    h = h1 ++ (command, reply) :: h2 → accepts reply b → ¬ accepted_in h1 b;
  kp_held b : 0 ≤ b < total_length (actor_map a) → held_by a b (holder h b);
}.

Lemma history_snoc {A} (h : list A) x h1 y h2 :
  h ++ [x] = h1 ++ y :: h2 → (h1 = h ∧ y = x ∧ h2 = []) ∨ ∃ h3, h2 = h3 ++ [x] ∧ h = h1 ++ y :: h3.
Proof.
  destruct h2 as [|z h2 _] using rev_ind; intros E.
  - apply app_inj_tail in E as [-> ->]. by left.
  - right. exists h2. rewrite app_comm_cons, app_assoc in E. apply app_inj_tail in E as [-> ->]. done.
Qed.

Lemma served_promises windows s h s1 :
  served windows s h s1 → started s → kept_promises h (st_actor s1).
Proof.
  induction 1 as [s|s h s1 command reply a d j Hh IH Hargs Hx]; intros Hst.
  { split; [by intros b ?%Exists_nil..| | |intros b; by apply (started_held s b)]; intros [|? ?]; done. }
  destruct (IH Hst) as [Hacc Hrep Hfen Honce Hheld].
  pose proof (served_serving _ _ _ _ Hh (started_serving s Hst)) as Hs1.
  destruct (served_step _ _ _ _ _ _ _ Hs1 Hargs Hx) as [_ Ht]. pose proof Ht as [Tc Ts Ta Tr Tf].
  pose proof (handle_effect _ _ _ _ _ _ _ _ _ Hs1 Hargs Hx) as He. split.
  - intros b [Hb|Hb]%Exists_app; [by apply Ts, Hacc|]. apply Exists_cons in Hb as [Hb|Hb].
    + by apply Ta.
    + by apply Exists_nil in Hb.
  - intros b [Hb|Hb]%Exists_app; [by apply Tc, Hrep|]. apply Exists_cons in Hb as [Hb|Hb].
    + by apply Tr.
    + by apply Exists_nil in Hb.
  - intros h1 command' reply' h2 b E Hf Hb.
    apply history_snoc in E as [(-> & [= -> ->] & ->)|(h3 & -> & ->)]; [|by eapply Tc, Hfen].
    destruct (Ts b (Hacc b Hb)) as [|Hs]; [done|]. unfold staged_at in Hs.
    rewrite (Tf Hf) in Hs. by apply Exists_nil in Hs.
  - intros h1 command' reply' h2 b E Ha.
    apply history_snoc in E as [(-> & [= -> ->] & ->)|(h3 & -> & ->)]; [|by eapply Honce].
    intros Hb. by apply (proj1 (Ta b Ha)), Hacc.
  - intros b Hb. unfold holder. rewrite fold_left_app. eapply effect_hands; [exact He|exact Ht|].
    apply Hheld. apply effect_owners in He as [Hlen _ _]. cbn in Hb. by rewrite <- Hlen.
Qed.

Lemma served_app windows s h s1 h' s2 :
  served windows s h s1 → served windows s1 h' s2 → served windows s (h ++ h') s2.
Proof.
  intros Hh. induction 1 as [|s1 h' s2 command reply a d j _ IH Ha Hx]; [by rewrite app_nil_r|].
  rewrite app_assoc. econstructor; [by apply IH|done|done].
Qed.

(** The commands the loop receives: none behind a shutdown. *)
Fixpoint received (commands : list Command) : list Command :=
  match commands with
  | [] => []
  | command :: commands => command :: if is_shutdown command then [] else received commands
  end.

(** [h] is the answered part of a run of the loop, which ended or was stopped in [d] and [j]. *)
Definition answered windows (commands : list Command) d j (stopped : option (list Reply * StateActor))
    (h : history) (s1 : state) : Prop :=
  match stopped with
  | Some (replies, a) => s1 = MkState a d j ∧ replies = map snd h ∧ map fst h = received commands
  | None =>
      st_data s1 = d ∧ st_journal s1 = j ∧ map fst h = received commands ∨
      ∃ command rest, received commands = map fst h ++ command :: rest ∧
        exec (st_data s1) (st_journal s1) (handle windows (st_actor s1) command) d j None
  end.

Lemma run_answered windows s commands d j stopped :
  Forall command_args commands →
  exec (st_data s) (st_journal s) (run windows (st_actor s) commands) d j stopped →
  ∃ h s1, served windows s h s1 ∧ answered windows commands d j stopped h s1.
Proof.
  intros Hc. revert s d j stopped.
  induction Hc as [|command commands Ha Hc IH]; intros s d j stopped Hx; cbn in Hx.
  { exists [], s. split; [constructor|]. inversion Hx; subst; cbn; [by left|].
    by destruct s. }
  apply exec_bind in Hx as [([reply a] & d1 & j1 & Hx1 & Hx)|[Hx1 ->]].
  2: { exists [], s. split; [constructor|]. cbn. right.
       by exists command, (if is_shutdown command then [] else received commands). }
  set (s1 := MkState a d1 j1).
  assert (Hs1 : served windows s [(command, reply)] s1)
    by (apply (served_snoc windows s [] s); [constructor|done|done]).
  destruct (is_shutdown command) eqn:Esh.
  { exists [(command, reply)], s1. split; [done|].
    inversion Hx; subst; cbn; rewrite Esh; [by left|done]. }
  apply exec_bind in Hx as [([replies a2] & d2 & j2 & Hx2 & Hx)|[Hx2 ->]].
  - destruct (IH s1 _ _ _ Hx2) as (h & s2 & Hh & -> & -> & Heq).
    exists ((command, reply) :: h), (MkState a2 d2 j2). split; [by apply (served_app _ _ _ _ _ _ Hs1 Hh)|].
    inversion Hx; subst; cbn; rewrite Esh, Heq; [by left|done].
  - destruct (IH s1 _ _ _ Hx2) as (h & s2 & Hh & Hans).
    exists ((command, reply) :: h), s2. split; [by apply (served_app _ _ _ _ _ _ Hs1 Hh)|].
    cbn in Hans |- *. rewrite Esh. destruct Hans as [(? & ? & ->)|(c & rest & -> & ?)]; [by left|].
    right. by exists c, rest.
Qed.
End service.
Arguments state D J : clear implicits.
Arguments MkState {D J}.

(** C18: The writer service keeps its promises through any stop.  Start the actor on fresh storage,
    let it receive any commands from any clients (workers whose grants were split or abandoned
    included), let the storage fail any call in any way it documents, and stop the process at any
    effect.  Then, for the commands answered so far: every byte a reply reported as durable, and
    every byte accepted before a successful fence (an allocation, flush, abandonment or shutdown),
    is complete; every accepted byte is complete or still staged; no byte was ever accepted twice;
    every byte that is not complete is in progress for the worker that the replies granted it to
    last, unless that worker was abandoned since, and pending if there is none; and whatever a restart finds, the journal replays, its blocks are in the data file with their
    digests, and they cover every complete byte. *)
Theorem promises_survive_a_stop {D J : Type} `{Checksum, Digest} `{DurableDataLaws D}
    `{!DurableJournal J} `{!DurableJournalLaws J} windows (s0 : state D J) commands d j stopped :
  started s0 → Forall command_args commands →
  exec (st_data s0) (st_journal s0) (run windows (st_actor s0) commands) d j stopped →
  ∃ h s1, served windows s0 h s1 ∧ answered windows commands d j stopped h s1 ∧
    kept_promises h (st_actor s1) ∧ restart_ok (actor_map (st_actor s1)) d j.
Proof.
  intros Hs Hc Hx. destruct (run_answered _ _ _ _ _ _ Hc Hx) as (h & s1 & Hh & Hans).
  exists h, s1. split; [done|]. split; [done|]. split; [by eapply served_promises|].
  pose proof (served_serving _ _ _ _ Hh (started_serving s0 Hs)) as Hs1.
  assert (Hstop : stop_ok (actor_map (st_actor s1)) d j); [|by destruct Hstop; apply safe_restart].
  destruct stopped as [[replies a]|]; cbn in Hans.
  - destruct Hans as (-> & _). by eapply serving_stop.
  - destruct Hans as [(<- & <- & _)|(command & rest & Hrec & Hx1)]; [by eapply serving_stop|].
    apply (handle_wp windows (st_actor s1) command _ _ Hs1) in Hx1; [done|].
    rewrite Forall_forall in Hc. apply Hc.
    assert (Hsub : ∀ l x, x ∈ received l → x ∈ l).
    { clear. induction l as [|y l IH]; intros x; cbn; [done|]. rewrite !elem_of_cons.
      destruct (is_shutdown y); [|naive_solver]. intros [?|?%elem_of_nil]; naive_solver. }
    apply Hsub. rewrite Hrec. apply elem_of_app. right. left.
Qed.

(** Every command of a running service does exactly this.  A write is refused, with nothing
    touched, unless its worker is in possession of the whole range at that moment; an accepted
    write takes exactly its range, which nobody had secured.  Allocation, abandonment, flush and
    shutdown first complete everything staged — the batch is never refused by the map, because
    ownership only moves behind this fence — and only then allocate by the policy, return to
    pending exactly what the worker had not secured, or answer; when the fence fails in the
    storage, ownership and staged work are as they were. *)
Theorem commands_exact {D J : Type} `{Checksum, Digest} `{DurableDataLaws D}
    `{!DurableJournal J} `{!DurableJournalLaws J} windows (s0 s1 : state D J) h command reply a d j :
  started s0 → served windows s0 h s1 → command_args command →
  exec (st_data s1) (st_journal s1) (handle windows (st_actor s1) command) d j (Some (reply, a)) →
  effect (st_actor s1) command (st_data s1) (st_journal s1) reply a d j ∧
  ∃ m, complete_all (actor_map a) (dw_staged (writer a)) = Ok m.
Proof.
  intros Hs Hh Ha Hx. pose proof (served_serving _ _ _ _ Hh (started_serving s0 Hs)) as Hs1.
  split.
  - by eapply handle_effect.
  - destruct (served_step _ _ _ _ _ _ _ Hs1 Ha Hx) as [[_ (Hwf & _) Ho] _].
    by apply complete_all_owned.
Qed.

(** ** A run *)

Module Example_service.
Import Replay.Replay Concrete MemoryOs Example_run.

Definition actor0 : StateActor := MkActor writer0 (MkAllocator (Intervals.new 8) 4).
Definition state0 : state PartDisk JournalDisk := MkState actor0 part0 journal0.
Definition commands : list Command := [Allocate w1; Write w1 0 block 5; Flush].
Definition w1_half : list Interval := [MkInterval 0 8 (InProgress w1)].
Definition actor1 : StateActor := MkActor writer0 (MkAllocator (MkIntervalMap 8 w1_half) 4).
Definition actor2 : StateActor := MkActor writer1 (MkAllocator (MkIntervalMap 8 w1_half) 4).
Definition actor3 : StateActor :=
  MkActor writer2 (MkAllocator
    (MkIntervalMap 8 [MkInterval 0 4 Complete; MkInterval 4 8 (InProgress w1)]) 4).
Definition replies : list Reply :=
  [Allocated (Ok (MkAllocationReceipt (Some (MkAllocation (MkGrant w1 (MkRange 0 8)) None)) []));
   Wrote (Ok (MkWriteReceipt (MkRange 0 4) []));
   Flushed (Ok [MkDurable 0 (MkRange 0 4) w1 (blake3 block)])].

Lemma state0_started : started state0.
Proof. split; [exact sys0_fresh|]. by apply (new_wf_alloc 8 4). Qed.

Lemma run_commands :
  exec part0 journal0 (run false actor0 commands) part2 journal2 (Some (replies, actor3)).
Proof.
  eapply (exec_write _ _ _ _ _ (Ok tt) part1).
  { exists memory, memory_laws, (Ok tt), (part_of (block ++ replicate 4 x00)).
    split_and!; [vm_compute; reflexivity|done..]. }
  eapply (exec_data_sync _ _ _ (Ok tt) part2); [by exists memory|].
  eapply (exec_append _ _ _ _ (Ok tt) journal1).
  { exists (Ok tt), 0%nat, (journal header [record]). split; vm_compute; reflexivity. }
  eapply (exec_journal_sync _ _ _ (Ok tt) journal2); [|apply exec_ret].
  exists (Ok tt), 131%nat. split_and!; [done|vm_compute; lia|vm_compute; lia|].
  vm_compute. reflexivity.
Qed.

Example promises_survive_a_stop_witness :
  started state0 ∧ ∃ h s1, served false state0 h s1 ∧
    answered false commands part2 journal2 (Some (replies, actor3)) h s1 ∧
    kept_promises h (st_actor s1) ∧ restart_ok (actor_map (st_actor s1)) part2 journal2.
Proof.
  split; [exact state0_started|].
  apply (promises_survive_a_stop false state0 commands part2 journal2 (Some (replies, actor3)));
    [exact state0_started| |exact run_commands].
  by repeat constructor.
Defined.

Lemma served_allocate :
  served false state0 [(Allocate w1, List.nth 0 replies (Wrote (Err CursorOverflow)))]
    (MkState actor1 part0 journal0).
Proof. apply (served_snoc false state0 [] state0); [constructor|done|apply exec_ret]. Qed.

Lemma run_write :
  exec part0 journal0 (handle false actor1 (Write w1 0 block 5)) part1 journal0
    (Some (Wrote (Ok (MkWriteReceipt (MkRange 0 4) [])), actor2)).
Proof.
  eapply (exec_write _ _ _ _ _ (Ok tt) part1); [|apply exec_ret].
  exists memory, memory_laws, (Ok tt), (part_of (block ++ replicate 4 x00)).
  split_and!; [vm_compute; reflexivity|done..].
Qed.

Example commands_exact_witness :
  effect actor1 (Write w1 0 block 5) part0 journal0
    (Wrote (Ok (MkWriteReceipt (MkRange 0 4) []))) actor2 part1 journal0 ∧
  ∃ m, complete_all (actor_map actor2) (dw_staged (writer actor2)) = Ok m.
Proof.
  apply (commands_exact false state0 (MkState actor1 part0 journal0) _ (Write w1 0 block 5) _ actor2
    part1 journal0 state0_started served_allocate); [done|exact run_write].
Defined.

(** The same write by a worker that owns nothing is refused. *)
Example stranger_refused :
  handle false actor1 (Write (WorkerId_new 2) 0 block 5) =
  Ret (Wrote (Err (Writer_ (WInterval (RangeNotOwned 0 4 (WorkerId_new 2))))), actor1).
Proof. reflexivity. Qed.
End Example_service.
End WriterService.
