(* ===== verification/StorageSink.v ===== *)
(** * [downpour-engine/src/storage_sink.rs]: the sink target over the storage

    The single-stream sink: a durable writer with its journal and interval map when the length is
    known, a growable part file when it is not, moved onto a blocking thread for every call. *)

From S2P Require Import Prelude Intervals Allocator Io Format Replay PartFile Writer WriterService.
From S2P Require Import Str Remote Completion Effects Sink.
From Stdlib Require Import String.
From stdpp Require Import list.
#[local] Open Scope Z_scope.

Module StorageSink.
Import Io.Io Format.Format Replay.Replay PartFile.PartFile Writer.Writer WriterService.WriterService Remote.Remote
  Completion.Completion Intervals.Intervals Effects.Effects Sink.Sink.

Definition SINGLE_STREAM_WORKER : WorkerId := WorkerId_new 1.

Record Artifacts := MkArtifacts { art_part_path : path; art_journal_path : option path }.

(** The writer's file handles live in the storage its effects act on. *)
Inductive Backing :=
| Journalled (writer : DurableWriter) (intervals : IntervalMap)
| Lengthless (part : PartFile).

(** ** Calls of the storage

    The writer's and the completion's effects, the creation and removal of files, the calls on a
    growable part file, and the clock.  [StillReading] has no answer: it is where verification
    would be if it read forever. *)
Inductive storage_op : Type → Type :=
| WriteData (offset : Z) (bytes : list byte) : storage_op (result unit WriterError)
| SyncPart : storage_op (result unit WriterError)
| AppendRecord (record : FramedRecord) : storage_op (result unit WriterError)
| SyncJournal : storage_op (result unit WriterError)
| MeasureFile (p : path) : storage_op (result Z Error)
| OpenFileAt (p : path) : storage_op (result reader Error)
| RenameFile (from to_ : path) : storage_op (result unit Error)
| RemoveFile (p : path) : storage_op (result unit Error)
| CreatePart (target : path) (total_length : Z) : storage_op (result PartFile PartFileError)
| CreateGrowable (target : path) : storage_op (result PartFile PartFileError)
| CreateJournal (p : path) (header : FileHeader) : storage_op (result JournalFile WriterError)
| OnPart (part : PartFile) (f : PartFile → result unit PartFileError * PartFile)
    : storage_op (result unit PartFileError * PartFile)
| Now : storage_op Z
| StillReading : storage_op Empty_set.

Fixpoint of_writer {A} (p : Writer.prog A) : prog storage_op A :=
  match p with
  | Writer.Ret a => Ret a
  | WriteAllAt offset bytes k => Vis (WriteData offset bytes) (λ r, of_writer (k r))
  | DataSync k => Vis SyncPart (λ r, of_writer (k r))
  | Writer.Append record k => Vis (AppendRecord record) (λ r, of_writer (k r))
  | JournalSync k => Vis SyncJournal (λ r, of_writer (k r))
  end.

Fixpoint of_completion {A} (p : Completion.prog A) : prog storage_op A :=
  match p with
  | Completion.Ret a => Ret a
  | Metadata p k => Vis (MeasureFile p) (λ r, of_completion (k r))
  | OpenFile p k => Vis (OpenFileAt p) (λ r, of_completion (k r))
  | Append record k => Vis (AppendRecord record) (λ r, of_completion (k r))
  | SyncData k => Vis SyncJournal (λ r, of_completion (k r))
  | Rename from to_ k => Vis (RenameFile from to_) (λ r, of_completion (k r))
  end.

(** What the async side does itself, and what it sends to a blocking thread: [None] when that
    thread panicked somewhere on the way. *)
Inductive storage_call : Type → Type :=
| Async {X} (op : storage_op X) : storage_call X
| Blocking {A} (p : prog storage_op A) : storage_call (option A).

(** ** Errors *)

Section sink.
Context (windows : bool) `{Os} `{Digest} `{ServerDigests}.

Definition classify_io (offset : Z) (error : Error) : SinkError :=
  match raw_os_error error with
  | Some raw => if no_space_code windows raw then NoSpace offset else SinkIo offset error
  | None => SinkIo offset error
  end.

Definition part_error (offset : Z) (error : PartFileError) : SinkError :=
  match error with
  | PartIo _ _ source => classify_io offset source
  | OutOfBounds start length total_length => BeyondGrant total_length start length
  | _ => SinkIo offset io_other
  end.

Definition writer_error (offset : Z) (error : WriterError) : SinkError :=
  match error with
  | WPartFile error => part_error offset error
  | WIo _ source => classify_io offset source
  | _ => SinkIo offset io_other
  end.

Definition completion_error (error : CompletionError) : SinkError := SinkIo 0 io_other.

(** ** The backing *)

Definition backing_complete (b : Backing) (part_path final_path : path)
    (digest : option ContentDigest) : prog storage_op (result (option Sealed) SinkError * Backing) :=
  match b with
  | Journalled writer intervals =>
      if has_staged_work writer then Ret (Err (SinkIo 0 io_other), b) else
      let total := total_length intervals in
      let next_sequence := dw_next_sequence writer in
      let! verdict := of_completion
        (verify_and_rename part_path final_path total intervals digest next_sequence) in
      match verdict with
      | None => Vis StillReading (λ x, Empty_set_rect (λ _, prog storage_op _) x)
      | Some verdict => Ret (map_err completion_error (let? sealed := verdict in Ok (Some sealed)), b)
      end
  | Lengthless _ =>
      let! r := call (RenameFile part_path final_path) in
      match r with
      | Err source => Ret (Err (SinkIo 0 source), b)
      | Ok _ => Ret (Ok None, b)
      end
  end.

Definition backing_write (offset : Z) (bytes : list byte) (now : Z) (b : Backing)
    : prog storage_op (result unit SinkError * Backing) :=
  match b with
  | Journalled writer intervals =>
      let! '(r, writer, intervals) :=
        of_writer (stage windows writer intervals SINGLE_STREAM_WORKER offset bytes now) in
      Ret (map_err (writer_error offset) (let? _ := r in Ok tt), Journalled writer intervals)
  | Lengthless part =>
      match checked_add64 offset (zlen bytes) with
      | None => Ret (Err LengthOverflow, b)
      | Some end_ =>
          let! '(r, part) := call (OnPart part (λ part, extend_to part end_)) in
          match r with
          | Err error => Ret (Err (part_error offset error), Lengthless part)
          | Ok _ =>
              let! '(r, part) :=
                call (OnPart part (λ part, PartFile.PartFile.write_all_at part offset bytes)) in
              Ret (map_err (part_error offset) r, Lengthless part)
          end
      end
  end.

Definition backing_sync (b : Backing) : prog storage_op (result unit SinkError * Backing) :=
  match b with
  | Journalled writer intervals =>
      let! '(r, writer, intervals) := of_writer (flush writer intervals) in
      Ret (map_err (writer_error 0) (let? _ := r in Ok tt), Journalled writer intervals)
  | Lengthless part =>
      let! '(r, part) := call (OnPart part (λ part, (sync_data part, part))) in
      Ret (map_err (part_error 0) r, Lengthless part)
  end.

(** ** The sink *)

Record StorageSink := MkStorageSink {
  ss_backing : option Backing;
  ss_started : Z;
  ss_artifacts : Artifacts;
  ss_digest : option ContentDigest;
}.

Definition with_backing (s : StorageSink) (b : option Backing) : StorageSink :=
  MkStorageSink b (ss_started s) (ss_artifacts s) (ss_digest s).

(** [format!("{byte:02x}")]. *)
Definition hex_digit (n : Z) : Ascii.ascii :=
  Ascii.ascii_of_nat (Z.to_nat (if n <? 10 then 48 + n else 87 + n)).
Definition hex_byte (b : byte) : string :=
  String (hex_digit (Z.shiftr (byte_val b) 4))
    (String (hex_digit (Z.land (byte_val b) 15)) EmptyString).

(** [Path::join]: an absolute name replaces the directory. *)
Definition path_join (dir : path) (name : string) : path :=
  if String.prefix "/" name then name
  else if String.eqb dir EmptyString then name
  else if String.eqb (String.substring (String.length dir - 1) 1 dir) "/"%string
       then (dir ++ name)%string
  else (dir ++ "/" ++ name)%string.

Definition journal_path_for (journal_dir : path) (transfer_id : list byte) : path :=
  path_join journal_dir (String.concat EmptyString (map hex_byte transfer_id) ++ ".dpj")%string.

(** An orphaned journal is removed once; the part file is this download's own. *)
Definition create_journal (journal_path : path) (header : FileHeader)
    : prog storage_op (result JournalFile SinkError) :=
  let! created := call (CreateJournal journal_path header) in
  match created with
  | Ok journal => Ret (Ok journal)
  | Err (JournalAlreadyExists _) =>
      let! removed := call (RemoveFile journal_path) in
      match removed with
      | Err source => Ret (Err (SinkIo 0 source))
      | Ok _ =>
          let! created := call (CreateJournal journal_path header) in
          Ret (map_err (writer_error 0) created)
      end
  | Err error => Ret (Err (writer_error 0 error))
  end.

(** The interval map of a new download: all of it granted to the one worker. *)
Definition granted_map (total_length : Z) : result IntervalMap SinkError :=
  let intervals := Intervals.new total_length in
  if 0 <? total_length then
    let '(r, intervals) := grant intervals (MkRange 0 total_length) SINGLE_STREAM_WORKER in
    match r with Ok _ => Ok intervals | Err _ => Err (SinkIo 0 io_other) end
  else Ok intervals.

Definition create_backing (target journal_dir : path) (total_length : option Z)
    (transfer_id validator_hash : list byte)
    : prog storage_op (result (Backing * Artifacts) SinkError) :=
  match total_length with
  | Some total_length =>
      let! created := call (CreatePart target total_length) in
      match created with
      | Err error => Ret (Err (part_error 0 error))
      | Ok part =>
          let header := FileHeader_new transfer_id total_length 0 validator_hash in
          let journal_path := journal_path_for journal_dir transfer_id in
          let!? journal := create_journal journal_path header in
          Ret (let? writer := map_err (writer_error 0)
                 (try_new (pf_total_length part) (jf_total_length journal) 0) in
               let? intervals := granted_map total_length in
               Ok (Journalled writer intervals,
                   MkArtifacts (pf_path part) (Some journal_path)))
      end
  | None =>
      let! created := call (CreateGrowable target) in
      match created with
      | Err error => Ret (Err (part_error 0 error))
      | Ok part => Ret (Ok (Lengthless part, MkArtifacts (pf_path part) None))
      end
  end.

Definition create (target journal_dir : path) (total_length : option Z)
    (transfer_id validator_hash : list byte) (digest : option ContentDigest)
    : prog storage_op (result StorageSink SinkError) :=
  let!? created := create_backing target journal_dir total_length transfer_id validator_hash in
  let '(backing, artifacts) := created in
  let! started := call Now in
  Ret (Ok (MkStorageSink (Some backing) started artifacts digest)).

(** The backing moved to a blocking thread and back; it is lost when the thread panics. *)
Definition on_backing {T} (s : StorageSink)
    (operation : Backing → prog storage_op (result T SinkError * Backing))
    : prog storage_call (result T SinkError * StorageSink) :=
  match ss_backing s with
  | None => Ret (Err (SinkIo 0 io_other), s)
  | Some backing =>
      let! joined := call (Blocking (operation backing)) in
      match joined with
      | None => Ret (Err (SinkIo 0 io_other), with_backing s None)
      | Some (r, backing) => Ret (r, with_backing s (Some backing))
      end
  end.

Definition on_writer (s : StorageSink)
    (operation : Backing → prog storage_op (result unit SinkError * Backing))
    : prog storage_call (result unit SinkError * StorageSink) := on_backing s operation.

(** The journal goes only after verification and the rename. *)
Definition complete (s : StorageSink) (final_path : path)
    : prog storage_call (result (option Sealed) SinkError * StorageSink) :=
  let! '(r, s) := on_backing s
    (λ b, backing_complete b (art_part_path (ss_artifacts s)) final_path (ss_digest s)) in
  match r with
  | Err e => Ret (Err e, s)
  | Ok sealed =>
      match art_journal_path (ss_artifacts s) with
      | None => Ret (Ok sealed, s)
      | Some journal =>
          let! _ := call (Async (RemoveFile journal)) in
          Ret (Ok sealed,
               MkStorageSink (ss_backing s) (ss_started s)
                 (MkArtifacts (art_part_path (ss_artifacts s)) None) (ss_digest s))
      end
  end.

Definition durable_prefix_end (s : StorageSink) : Z :=
  match ss_backing s with
  | Some (Journalled _ m) =>
      match List.find (λ i, negb (bool_decide (state i = Complete))) (intervals m) with
      | Some i => start i
      | None => total_length m
      end
  | _ => 0
  end.

Definition write_at (s : StorageSink) (offset : Z) (bytes : list byte)
    : prog storage_call (result unit SinkError * StorageSink) :=
  let! clock := call (Async Now) in
  on_writer s (backing_write offset bytes (clock - ss_started s)).

#[export] Instance StorageTarget : SinkTarget storage_call StorageSink := {|
  target_write_at := write_at;
  target_verify_and_rename s final_path :=
    let! '(r, s) := complete s final_path in Ret (let? _ := r in Ok tt, s);
  target_durable_prefix_end := durable_prefix_end;
  target_sync s := on_writer s backing_sync;
|}.
End sink.

(** ** The writer's last resort

    A poisoned writer cannot have completed its map: the work that poisoned it is still owned. *)
Section poison.
Context {D J : Type} `{Checksum, Digest} `{DurableDataLaws D} `{!DurableJournal J}
  `{!DurableJournalLaws J}.
Implicit Types (d : D) (j : J) (w : DurableWriter) (m : IntervalMap).

Definition incomplete m : Prop := ∃ b, 0 ≤ b < total_length m ∧ state_at m b ≠ Some Complete.
Definition holed w m : Prop := dw_poisoned w = true → incomplete m.

Lemma owned_holed w m : owned (dw_staged w) m → dw_staged w ≠ [] → incomplete m.
Proof.
  intros [Hall _] Hne. destruct (dw_staged w) as [|sb staged]; [done|].
  apply Forall_cons in Hall as [(? & ? & Hown) _]. exists (r_start (sb_range sb)).
  split; [lia|]. rewrite Hown; [done|]. unfold in_range. lia.
Qed.

Lemma flush_poisons w m d j d' j' r w' m' :
  Writer.exec d j (flush w m) d' j' (Some (r, w', m')) → dw_poisoned w' = true →
  m' = m ∧ (dw_poisoned w = true ∨ dw_staged w ≠ []).
Proof.
  intros Hx Hp. destruct r as [completed|e].
  2: { destruct (flush_err _ _ _ _ _ _ _ _ _ Hx) as [-> _]. split; [done|]. revert Hx.
       unfold flush, ensure_usable. destruct (dw_poisoned w) eqn:Ew; [by left|].
       destruct (ensure_interval_identity w m); [|intros Hx; inversion Hx; subst; congruence].
       unfold has_staged_work. destruct (dw_staged w); [intros Hx; inversion Hx; subst; congruence|].
       intros _. by right. }
  exfalso. revert Hx. unfold flush, ensure_usable. destruct (dw_poisoned w) eqn:Ew; [by inversion 1|].
  destruct (ensure_interval_identity w m); [|by inversion 1].
  case_bool; [inversion 1; congruence|]. destruct (complete_all m (dw_staged w)); [|by inversion 1].
  destruct (checked_add64 _ _); [|by inversion 1].
  destruct (number_blocks _ _ _) as [[records done_]|]; [|by inversion 1].
  intros Hx. inversion Hx as [| | |? ? ? ans d1 ? ? ? _ He| |]; subst; clear Hx.
  destruct ans; [|by inversion He].
  apply Writer.exec_bind in He as [(ans & d2 & j2 & _ & He)|[_ ?]]; [|done].
  destruct ans; [|by inversion He].
  inversion He as [| | | | |? ? ? ans j3 ? ? ? _ He3]; subst.
  destruct ans; inversion He3; subst. cbn in Hp. congruence.
Qed.

Lemma flush_holed w m d j d' j' r w' m' :
  owned (dw_staged w) m → holed w m →
  Writer.exec d j (flush w m) d' j' (Some (r, w', m')) → holed w' m'.
Proof.
  intros Ho Hh Hx Hp. destruct (flush_poisons _ _ _ _ _ _ _ _ _ Hx Hp) as [-> [Hw|Hw]].
  - by apply Hh.
  - by apply (owned_holed w).
Qed.

Lemma stage_holed windows w m worker off bs now d j d' j' r w' m' :
  inv w m d j → owned (dw_staged w) m → holed w m → u64 off →
  Writer.exec d j (stage windows w m worker off bs now) d' j' (Some (r, w', m')) → holed w' m'.
Proof.
  intros Hi Ho Hh Hoff Hx Hp.
  pose proof (stage_wp windows w m worker off bs now d j Hi Ho Hoff _ _ _ Hx) as Hs.
  destruct Hs as (_ & new & _ & Hos & Hse & _). revert Hx. unfold stage.
  destruct (stage_checks w m worker off bs) as [[[range rl] nsb]|e] eqn:Ec.
  2: { inversion 1; subst. by apply Hh. }
  pose proof Hi as [Hmap _ _ _ _ _].
  destruct (stage_checks_Ok _ _ _ _ _ _ _ _ Hmap Hoff Ec)
    as (_ & _ & Hne & _ & _ & _ & Hin & Hown & _ & _).
  assert (Hlen : 0 < zlen bs)
    by (destruct bs; [done|]; rewrite zlen_cons; pose proof (zlen_nonneg bs); lia).
  assert (Hhole : incomplete m).
  { exists off. split; [ulia|]. rewrite Hown by lia. done. }
  intros Hx. inversion Hx as [| |? ? ? ? ? a d1 ? ? ? _ He| | |]; subst; clear Hx.
  assert (Hm : m' = m); [|by subst].
  destruct a as [[]|e].
  - revert He. case_bool; [|by inversion 1].
    intros He. by destruct (flush_poisons _ _ _ _ _ _ _ _ _ He Hp).
  - destruct (no_space_offset _ _ _); [|by inversion He].
    apply Writer.exec_bind in He as [([[r2 w2] m2] & d2 & j2 & Hf & He)|[_ ?]]; [|done].
    inversion He; subst. by destruct (flush_poisons _ _ _ _ _ _ _ _ _ Hf Hp).
Qed.
End poison.

(** ** The storage as a world

    A directory of names; the data file under its present name, the journal under the name it
    still has, both as the implementations of the writer's interfaces. *)
Section world.
Context {D J : Type} `{Checksum, Digest, Os, ServerDigests} `{DurableDataLaws D}
  `{!DurableJournal J} `{!DurableJournalLaws J}.

Record disk := MkDisk {
  dk_files : directory;
  dk_name : path;
  dk_data : option D;
  dk_jpath : option path;
  dk_journal : option J;
}.

Definition put_file (p : path) (content : list byte) (files : directory) : directory :=
  λ q, if String.eqb q p then Some content else files q.
Definition removed (p : path) (files : directory) : directory :=
  λ q, if String.eqb q p then None else files q.

Definition put_data (w : disk) (d : D) : disk :=
  MkDisk (put_file (dk_name w) (data_content d) (dk_files w)) (dk_name w) (Some d) (dk_jpath w)
    (dk_journal w).
Definition put_journal (w : disk) (j : J) : disk :=
  MkDisk (dk_files w) (dk_name w) (dk_data w) (dk_jpath w) (Some j).
Definition put_files (w : disk) (files : directory) : disk :=
  MkDisk files (dk_name w) (dk_data w) (dk_jpath w) (dk_journal w).

(** Creation is exclusive: it succeeds on a free name only, and a failed one leaves at most the
    new file. *)
Definition op_does {X} (op : storage_op X) (w : disk) : X → disk → Prop :=
  match op in storage_op X return X → disk → Prop with
  | WriteData offset bytes => λ r w', ∃ d d', dk_data w = Some d ∧
      Writer.write_all_at offset bytes d r d' ∧ w' = put_data w d'
  | SyncPart => λ r w', ∃ d d', dk_data w = Some d ∧ data_sync d r d' ∧ w' = put_data w d'
  | AppendRecord record => λ r w', ∃ j j', dk_journal w = Some j ∧ append record j r j' ∧
      w' = put_journal w j'
  | SyncJournal => λ r w', ∃ j j', dk_journal w = Some j ∧ journal_sync j r j' ∧
      w' = put_journal w j'
  | MeasureFile p => λ r w',
      (∀ n, r = Ok n → ∃ content, dk_files w p = Some content ∧ n = zlen content) ∧ w' = w
  | OpenFileAt p => λ r w',
      (∀ f, r = Ok f → ∃ content, dk_files w p = Some content ∧ delivers f content) ∧ w' = w
  | RenameFile from to_ => λ r w', w' =
      match r with
      | Ok _ => MkDisk (renamed from to_ (dk_files w))
                  (if String.eqb from (dk_name w) then to_ else dk_name w) (dk_data w)
                  (dk_jpath w) (dk_journal w)
      | Err _ => w
      end
  | RemoveFile p => λ r w', w' =
      match r with
      | Ok _ => MkDisk (removed p (dk_files w)) (dk_name w) (dk_data w)
                  (match dk_jpath w with
                   | Some q => if String.eqb q p then None else Some q
                   | None => None
                   end) (dk_journal w)
      | Err _ => w
      end
  | CreatePart target total_length => λ r w', ∃ opened,
      r = PartFile.PartFile.create opened target total_length ∧
      match r with
      | Ok part => ∃ d, dk_files w (pf_path part) = None ∧
          data_total_length d = pf_total_length part ∧
          w' = MkDisk (put_file (pf_path part) (data_content d) (dk_files w)) (pf_path part)
                 (Some d) (dk_jpath w) (dk_journal w)
      | Err _ => ∃ files, w' = put_files w files ∧
          ∀ p, files p = dk_files w p ∨ dk_files w p = None ∧ part_path_for target = Ok p
      end
  | CreateGrowable target => λ r w', ∃ opened, r = create_growable opened target ∧
      match r with
      | Ok part => dk_files w (pf_path part) = None ∧
          w' = put_files w (put_file (pf_path part) (f_content (pf_file part)) (dk_files w))
      | Err _ => w' = w
      end
  | CreateJournal p header => λ r w', ∃ opened write_all sync_all dir_opened dir_synced,
      r = JournalFile_create p header opened write_all sync_all dir_opened dir_synced ∧
      match r with
      | Ok _ => dk_files w p = None ∧ ∃ j, journal_header j = header ∧ journal_records j = [] ∧ journal_intact j ∧
          w' = MkDisk (dk_files w) (dk_name w) (dk_data w) (Some p) (Some j)
      | Err _ => w' = w
      end
  | OnPart part f => λ x w', x = f part ∧
      w' = put_files w (put_file (pf_path part) (f_content (pf_file (snd x))) (dk_files w))
  | Now => λ _ w', w' = w
  | StillReading => λ _ _, False
  end.

#[export] Instance storage_ops : World storage_op disk := λ X op w x w', op_does op w x w'.
#[export] Instance storage_calls : World storage_call disk := λ X call,
  match call in storage_call X return disk → X → disk → Prop with
  | Async op => λ w x w', op_does op w x w'
  | Blocking p => λ w o w', exec p w w' o
  end.

(** ** The writer and the completion inside it *)

(** [w'] is [w] with other data and journal behind the same names. *)
Record moved (w : disk) d' j' (w' : disk) : Prop := {
  mv_name : dk_name w' = dk_name w;
  mv_jpath : dk_jpath w' = dk_jpath w;
  mv_data : dk_data w' = Some d';
  mv_journal : dk_journal w' = Some j';
  mv_content : dk_files w' (dk_name w) = Some (data_content d');
  mv_files q : q ≠ dk_name w → dk_files w' q = dk_files w q;
}.

Lemma moved_refl w d j :
  dk_data w = Some d → dk_journal w = Some j → dk_files w (dk_name w) = Some (data_content d) →
  moved w d j w.
Proof. by split. Qed.

Lemma moved_trans w d1 j1 w1 d2 j2 w2 : moved w d1 j1 w1 → moved w1 d2 j2 w2 → moved w d2 j2 w2.
Proof.
  intros [N1 P1 _ _ _ F1] [N2 P2 D2 J2 C2 F2]. split; try congruence.
  intros q Hq. rewrite F2 by congruence. by apply F1.
Qed.

Lemma moved_data w d j d' : moved w d j w → moved w d' j (put_data w d').
Proof.
  intros []. split; try done; cbn; unfold put_file; [by rewrite String.eqb_refl|].
  intros q Hq. by apply String.eqb_neq in Hq as ->.
Qed.

Lemma moved_journal w d j j' : moved w d j w → moved w d j' (put_journal w j').
Proof. intros []. by split. Qed.

Lemma of_writer_exec {A} (p : Writer.prog A) w w' o d j :
  moved w d j w → exec (of_writer p) w w' o →
  ∃ d' j', Writer.exec d j p d' j' o ∧ moved w d' j' w'.
Proof.
  revert w d j. induction p as [a|off bs k IH|k IH|rec k IH|k IH]; cbn; intros w d j Hm Hx.
  { destruct Hx as [-> Ho]. exists d, j. split; [|done]. destruct Ho as [-> | ->]; constructor. }
  all: destruct Hx as [[-> ->]|(r & w1 & Hd & Hx)]; [exists d, j; split; [constructor|done]|].
  all: pose proof Hm as [_ _ Hdata Hjournal _ _]; destruct Hd as (a & a' & Ha & Hstep & ->);
    (assert (a = d) as -> by congruence) || (assert (a = j) as -> by congruence).
  1, 2: pose proof (moved_data w d j a' Hm) as Hm1.
  3, 4: pose proof (moved_journal w d j a' Hm) as Hm1.
  all: match type of Hm1 with moved _ ?d1 ?j1 ?w1 =>
         assert (Hm2 : moved w1 d1 j1 w1) by (destruct Hm1; by split);
         destruct (IH r w1 d1 j1 Hm2 Hx) as (d' & j' & Hx' & Hm')
       end; exists d', j'; (split; [by econstructor|by eapply moved_trans]).
Qed.

Lemma of_completion_exec {A} (p : Completion.prog A) w w' o j :
  dk_journal w = Some j → exec (of_completion p) w w' o →
  ∃ ok j', Completion.exec (dk_files w) j p ok (dk_files w') j' o ∧
    dk_journal w' = Some j' ∧ dk_data w' = dk_data w ∧ dk_jpath w' = dk_jpath w.
Proof.
  revert w j. induction p as [a|p k IH|p k IH|rec k IH|k IH|from to_ k IH]; cbn; intros w j Hj Hx.
  { destruct Hx as [-> Ho]. exists true, j. split; [|done]. destruct Ho as [-> | ->]; constructor. }
  all: destruct Hx as [[-> ->]|(r & w1 & Hd & Hx)];
    [exists true, j; split; [constructor|done]|].
  1, 2: destruct Hd as [Hd ->]; destruct (IH r w j Hj Hx) as (ok & j' & Hx' & ? & ? & ?);
    eexists _, j'; (split; [by econstructor|done]).
  1, 2: destruct Hd as (a & a' & Ha & Hstep & ->); assert (a = j) as -> by congruence;
    destruct (IH r (put_journal w a') a' eq_refl Hx) as (ok & j' & Hx' & ? & ? & ?);
    eexists _, j'; (split; [by econstructor|done]).
  assert (Hj1 : dk_journal w1 = Some j) by (destruct r; by subst).
  destruct (IH r w1 j Hj1 Hx) as (ok & j' & Hx' & ? & Hd1 & Hp1).
  eexists _, j'. split.
  { econstructor; [|exact Hx']. cbn in Hd. by destruct r; subst. }
  rewrite Hd1, Hp1. cbn in Hd. by destruct r; subst.
Qed.

(** *** The seal *)

Definition seal (seq : Z) (content : list byte) : FramedRecord :=
  FramedRecord_new seq (Format.Sealed (blake3 content)).

Lemma journal_count (j : J) :
  zlen (journal (journal_header j) (journal_records j)) < u64_modulus →
  zlen (journal_records j) < u64_modulus.
Proof.
  unfold journal. rewrite zlen_app. pose proof (zlen_frames_ge (journal_records j)).
  pose proof (zlen_nonneg (FileHeader_encode (journal_header j))). lia.
Qed.

(** What an append leaves true of a journal that is not too long to number. *)
Lemma append_stop record (a : result unit WriterError) (j j' : J) m d :
  fits record → record_backed d record → wf_record (fr_record record) →
  fr_sequence record = zlen (journal_records j) → append record j a j' →
  journal_intact j → stop_ok m d j → zlen (journal_records j') < u64_modulus → stop_ok m d j'.
Proof.
  intros Hfit Hback Hwf Hseq Ha Hint [Hs Hc] Hsize.
  destruct (append_law _ _ _ _ Ha Hfit Hint) as (Hh1 & Hs1 & Hco & Hr1).
  assert (Hr : journal_records j' = journal_records j ∨
    journal_records j' = journal_records j ++ [record]) by (destruct a; [right|]; tauto).
  destruct Hr as [Hr|Hr].
  { split; [destruct Hs; split; by rewrite ?Hh1, ?Hr|].
    eapply covered_mono; [done|by rewrite Hr|lia]. }
  assert (Hwff : wf_framed record).
  { split; [|done]. rewrite Hr, zlen_app, zlen_cons, zlen_nil in Hsize.
    pose proof (zlen_nonneg (journal_records j)). ulia. }
  destruct (append_all_exec d j [record] d j'
    (match a with Ok _ => Some (Ok tt) | Err e => Some (Err e) end))
    as (_ & Hsafe & Hsy & Hpre & _); try done; [|by constructor..|].
  - eapply Writer.exec_append; [exact Ha|]. destruct a as [[]|]; constructor.
  - split; [done|]. by eapply covered_mono; [|done|lia].
Qed.

Lemma sync_stop a (j j' : J) m d :
  journal_sync j a j' → journal_intact j → stop_ok m d j → stop_ok m d j'.
Proof.
  intros Hsync Hint [Hs Hc].
  destruct (journal_sync_law _ _ _ Hsync Hint) as (Hh & Hr & Hsy & Hco & _).
  split; [destruct Hs; split; by rewrite ?Hh, ?Hr|]. eapply covered_mono; [done|by rewrite Hr|done].
Qed.

Lemma restart_if (j : J) m d :
  (zlen (journal_records j) < u64_modulus → stop_ok m d j) → restart_ok m d j.
Proof.
  intros Hj img imgj Hd Hi Hsize. destruct (Hj (journal_count j Hsize)). by eapply safe_restart.
Qed.

(** Sealing keeps the journal true: whatever it leaves, a restart finds every complete byte. *)
Lemma seal_restart part final h outcome seq files (j : J) ok files' j' o m d :
  zlen h = 32 → journal_intact j → stop_ok m d j → seq = zlen (journal_records j) →
  Completion.exec files j (seal_and_rename part final h outcome seq) ok files' j' o →
  restart_ok m d j'.
Proof.
  intros Hh Hint Hstop Hseq Hx. unfold seal_and_rename in Hx.
  inversion Hx as [| | | |? ? ? ? a j1 ? ? ? ? Ha Hx1| |]; subst; clear Hx;
    [by apply restart_if|].
  assert (Hfit : fits (FramedRecord_new (zlen (journal_records j)) (Format.Sealed h)))
    by (unfold fits, payload_of, MAX_PAYLOAD_LEN; cbn; lia).
  assert (Hj1 : zlen (journal_records j1) < u64_modulus → stop_ok m d j1)
    by (by eapply append_stop).
  destruct (append_law _ _ _ _ Ha Hfit Hint) as (_ & _ & _ & Hr1).
  destruct a as [[]|e]; [|inversion Hx1; subst; by apply restart_if].
  destruct Hr1 as [_ Hint1].
  inversion Hx1 as [| | | | |? ? ? a j2 ? ? ? ? Hsync Hx2|]; subst; clear Hx1;
    [by apply restart_if|].
  destruct (journal_sync_law _ _ _ Hsync Hint1) as (_ & Hr2 & _).
  assert (Hj2 : zlen (journal_records j2) < u64_modulus → stop_ok m d j2).
  { intros Hz. eapply sync_stop; [done..|]. apply Hj1. by rewrite <- Hr2. }
  destruct a as [[]|e]; inversion Hx2 as [| | | | | |? ? ? ? ? a ? ? ? ? ? ? Hx3]; subst;
    try by apply restart_if.
  destruct a; inversion Hx3; subst; by apply restart_if.
Qed.

#[local] Opaque seal_and_rename.

Lemma uncovered_refused part final total m digest seq files (j : J) ok files' j' o e :
  check_coverage m total = Err e →
  Completion.exec files j (verify_and_rename part final total m digest seq) ok files' j' o →
  files' = files ∧ j' = j ∧ ∀ sealed, o ≠ Some (Some (Ok sealed)).
Proof.
  intros He Hx. unfold verify_and_rename in Hx.
  inversion Hx as [| |? ? ? ? r ? ? ? ? _ Hx1| | | |]; subst; [done|].
  destruct r as [n|]; [|by inversion Hx1; subst]. rewrite He in Hx1.
  case_bool; by inversion Hx1; subst.
Qed.

Lemma verify_restart part final total m digest seq files (j : J) ok files' j' o d :
  journal_intact j → stop_ok m d j → seq = zlen (journal_records j) →
  Completion.exec files j (verify_and_rename part final total m digest seq) ok files' j' o →
  restart_ok m d j'.
Proof.
  intros Hint Hstop Hseq Hx.
  assert (Hj : restart_ok m d j) by by apply restart_if.
  unfold verify_and_rename in Hx.
  inversion Hx as [| |? ? ? ? r ? ? ? ? _ Hx1| | | |]; subst; [done|].
  destruct r as [n|]; [|by inversion Hx1; subst].
  revert Hx1. case_bool; [by inversion 1; subst|].
  destruct (check_coverage m total); [|by inversion 1; subst]. unfold hash_file. cbn [Completion.bind].
  intros Hx1. inversion Hx1 as [| | |? ? ? ? r ? ? ? ? _ Hx2| | |]; subst; [done|].
  destruct r as [f|]; [|by inversion Hx2; subst]. cbv zeta in Hx2.
  destruct (hash_loop _ _ _ _ _) as [[[[b h256] h512]|e]|]; [|by inversion Hx2; subst..].
  cbn [Completion.bind] in Hx2. destruct (digest_outcome _ _); [|by inversion Hx2; subst].
  apply program_exec_bind in Hx2 as [(a & ok1 & ok2 & files1 & j1 & Hs & Hret & ->)|[Hs ->]];
    [inversion Hret; subst|]; (eapply seal_restart; [|done..|exact Hs]);
    unfold zlen, finalize; by rewrite blake3_len.
Qed.
#[local] Transparent seal_and_rename.

(** ** A sink in use *)

Section tended.
Context (windows : bool) (target journal_dir : path) (total : Z) (transfer_id validator_hash : list byte)
  (digest : option ContentDigest).
Definition journal_path : path := journal_path_for journal_dir transfer_id.

Inductive request := RqWrite (offset : Z) (bytes : list byte) | RqSync | RqComplete (final_path : path).
Definition request_args (rq : request) : Prop :=
  match rq with RqWrite offset _ => u64 offset | _ => True end.
Definition is_complete_request (rq : request) : bool :=
  match rq with RqComplete _ => true | _ => false end.

Definition submit (s : StorageSink) (rq : request)
    : prog storage_call (result unit SinkError * StorageSink) :=
  match rq with
  | RqWrite offset bytes => target_write_at (SinkTarget := StorageTarget windows) s offset bytes
  | RqSync => target_sync (SinkTarget := StorageTarget windows) s
  | RqComplete final => target_verify_and_rename (SinkTarget := StorageTarget windows) s final
  end.

(** Created on a disk without a download, then written and synchronised. *)
Inductive running : StorageSink → disk → Prop :=
| running_created s w0 w :
    dk_data w0 = None → dk_journal w0 = None →
    exec (create windows target journal_dir (Some total) transfer_id validator_hash digest) w0 w
      (Some (Ok s)) → running s w
| running_served s w rq r s' w' :
    running s w → request_args rq → is_complete_request rq = false →
    exec (submit s rq) w w' (Some (r, s')) → running s' w'.

(** A writer in good order over its own map. *)
Definition holding m d (j : J) (b : Backing) : Prop :=
  match b with
  | Journalled wr m' => m' = m ∧ inv wr m d j ∧ owned (dw_staged wr) m ∧ holed wr m
  | Lengthless _ => False
  end.

(** The storage between two calls: what a restart needs, and the backing the sink holds. *)
Record tended (part : path) (s : StorageSink) (m : IntervalMap) d (j : J) (w : disk) : Prop := {
  td_moved : moved w d j w;
  td_name : dk_name w = part;
  td_jpath : dk_jpath w = Some journal_path;
  td_artifacts : ss_artifacts s = MkArtifacts part (Some journal_path);
  td_digest : ss_digest s = digest;
  td_map : wf m ∧ total_length m = total;
  td_stop : stop_ok m d j;
  td_backing : match ss_backing s with Some b => holding m d j b | None => True end;
}.

(** What a call may do to what it found: [m'] is where the map stood at the end. *)
Record progress part m m' (w w' : disk) d (j : J) : Prop := {
  pg_moved : moved w d j w';
  pg_name : dk_name w = part;
  pg_jpath : dk_jpath w' = Some journal_path;
  pg_map : wf m' ∧ total_length m' = total;
  pg_stop : stop_ok m' d j;
  pg_keeps : ∀ b, state_at m b = Some Complete → state_at m' b = Some Complete;
}.

(** A writer's program run for the sink. *)
Lemma writer_wp {A} (p : Writer.prog A) (Q : A → disk → Prop) part wr m d j w :
  inv wr m d j → moved w d j w → dk_name w = part → dk_jpath w = Some journal_path →
  total_length m = total →
  WriterService.wp p (λ a d' j', ∀ w', moved w d' j' w' → Q a w') (stop_ok m) d j →
  wp (of_writer p) Q (λ w', ∃ d' j', progress part m m w w' d' j') w.
Proof.
  intros Hi Hm Hn Hp Ht Hw. apply prog_complete. intros w' o Hx.
  destruct (of_writer_exec p w w' o d j Hm Hx) as (d' & j' & Hx' & Hm').
  specialize (Hw _ _ _ Hx'). destruct o as [a|]; [by apply Hw|].
  exists d', j'. pose proof Hi as [? _ _ _ _ _]. split; try done.
  destruct Hm' as [_ -> _ _ _ _]. done.
Qed.

Definition served part m (w w' : disk) (b : Backing) : Prop :=
  ∃ m' d' j', progress part m m' w w' d' j' ∧ holding m' d' j' b.
Definition stopped part m (w w' : disk) : Prop := ∃ d' j', progress part m m w w' d' j'.

Lemma settled part blocks (wr' : DurableWriter) m m' (d' : D) (j' : J) w w' :
  wf m → dk_name w = part → dk_jpath w = Some journal_path → total_length m = total →
  inv wr' m' d' j' → owned blocks m → settles blocks wr' m m' → holed wr' m' →
  moved w d' j' w' → served part m w w' (Journalled wr' m').
Proof.
  intros Hwf Hn Hp Ht Hi Ho Hse Hh Hm. exists m', d', j'. pose proof Hi as [Hwf' _ _ _ _ _].
  split; [split; try done|].
  - destruct Hm as [_ -> _ _ _ _]. done.
  - destruct Hse as [-> _]. done.
  - by eapply inv_stop.
  - intros b. by eapply settles_complete.
  - split_and!; [done..|by eapply settles_owned|done].
Qed.

Lemma progress_stopped part m m' w w' d (j : J) :
  wf m → total_length m = total → progress part m m' w w' d j → stopped part m w w'.
Proof.
  intros Hwf Ht [? ? ? _ [Hs Hc] Hk]. exists d, j. split; try done. split; [done|].
  intros b Hb. by apply Hc, Hk.
Qed.

(** A program of the writer, kept track of by the sink. *)
Lemma tended_writer_wp part s wr m d j w (p : Writer.prog Writer.outcome)
    (k : Writer.outcome → prog storage_op (result unit SinkError * Backing)) K :
  tended part s m d j w → ss_backing s = Some (Journalled wr m) →
  (∀ d' j' o, Writer.exec d j p d' j' o →
     match o with
     | Some (_, wr', m') => inv wr' m' d' j' ∧ holed wr' m' ∧
         ∃ blocks, owned blocks m ∧ settles blocks wr' m m'
     | None => stop_ok m d' j'
     end) →
  (∀ r wr' m', k (r, wr', m') = Ret (K r, Journalled wr' m')) →
  wp (bind (of_writer p) k) (λ '(_, b) w', served part m w w' b) (stopped part m w) w.
Proof.
  intros [Hmv Hn Hp _ _ [Hwf Ht] _ Hb] Hs Hx Hk. rewrite Hs in Hb. destruct Hb as (_ & Hi & _ & _).
  apply prog_bind. eapply writer_wp; [done..|]. intros d' j' o Ho. specialize (Hx _ _ _ Ho).
  destruct o as [[[r wr'] m']|]; [|done]. destruct Hx as (Hi' & Hh & blocks & Hob & Hse). intros w' Hmv'.
  assert (Hserved : served part m w w' (Journalled wr' m')) by by eapply settled.
  rewrite Hk. apply prog_ret; [|done]. destruct Hserved as (m2 & d2 & j2 & Hpg & _).
  by eapply progress_stopped.
Qed.

Lemma write_serves part s wr m d j w offset bytes now :
  tended part s m d j w → ss_backing s = Some (Journalled wr m) → u64 offset →
  wp (backing_write windows offset bytes now (Journalled wr m))
    (λ '(_, b) w', served part m w w' b) (stopped part m w) w.
Proof.
  intros Htd Hs Hoff. pose proof Htd as [_ _ _ _ _ _ _ Hb]. rewrite Hs in Hb.
  destruct Hb as (_ & Hi & Ho & Hh).
  cbn [backing_write]. eapply (tended_writer_wp part s wr m d j w _ _
    (λ r, map_err (writer_error windows offset) (let? _ := r in Ok tt))); [done..| |done].
  intros d' j' o Hx.
  pose proof (stage_wp windows wr m SINGLE_STREAM_WORKER offset bytes now d j Hi Ho Hoff _ _ _ Hx) as Hst.
  destruct o as [[[r wr'] m']|]; [|done]. destruct Hst as (Hi' & new & _ & Ho' & Hse & _).
  split; [done|]. split; [exact (stage_holed _ _ _ _ _ _ _ _ _ _ _ _ _ _ Hi Ho Hh Hoff Hx)|by eexists].
Qed.

Lemma sync_serves part s wr m d j w :
  tended part s m d j w → ss_backing s = Some (Journalled wr m) →
  wp (backing_sync windows (Journalled wr m))
    (λ '(_, b) w', served part m w w' b) (stopped part m w) w.
Proof.
  intros Htd Hs. pose proof Htd as [_ _ _ _ _ _ _ Hb]. rewrite Hs in Hb.
  destruct Hb as (_ & Hi & Ho & Hh). cbn [backing_sync].
  eapply (tended_writer_wp part s wr m d j w _ _
    (λ r, map_err (writer_error windows 0) (let? _ := r in Ok tt))); [done..| |done].
  intros d' j' o Hx. pose proof (WriterService.flush_wp wr m d j Hi Ho _ _ _ Hx) as Hf.
  destruct o as [[[r wr'] m']|]; [|done]. destruct Hf as (Hi' & Hse & _).
  split; [done|]. split; [exact (flush_holed _ _ _ _ _ _ _ _ _ Ho Hh Hx)|by eexists].
Qed.

Lemma tended_keep part s s' m d (j : J) w :
  ss_backing s' = None → ss_artifacts s' = ss_artifacts s → ss_digest s' = ss_digest s →
  tended part s m d j w → tended part s' m d j w.
Proof. intros Hb Ha Hd []. split; rewrite ?Ha, ?Hd, ?Hb; done. Qed.

(** The sink after a call: in good order over a map that lost nothing. *)
Definition advanced part m (w : disk) (s' : StorageSink) (w' : disk) : Prop :=
  ∃ m' d' j', tended part s' m' d' j' w' ∧
    (∀ b, state_at m b = Some Complete → state_at m' b = Some Complete) ∧
    ∀ q, q ≠ part → dk_files w' q = dk_files w q.

Lemma on_writer_wp part s m d j w operation :
  tended part s m d j w →
  (∀ wr, ss_backing s = Some (Journalled wr m) →
     wp (operation (Journalled wr m)) (λ '(_, b) w', served part m w w' b) (stopped part m w) w) →
  wp (on_writer s operation) (λ '(_, s') w', advanced part m w s' w') (stopped part m w) w.
Proof.
  intros Htd Hop. pose proof Htd as [Hmv Hn Hp Hart Hdig Hmap Hstop Hb].
  assert (Hst : stopped part m w w) by (exists d, j; by split).
  unfold on_writer, on_backing. destruct (ss_backing s) as [[wr m'|]|] eqn:Es; [|done|].
  2: { apply prog_ret; [done|]. exists m, d, j. by split_and!. }
  destruct Hb as (-> & _). apply prog_vis; [done|]. intros x w' Hx.
  pose proof (prog_sound _ _ _ _ _ _ (Hop wr eq_refl) Hx) as Hq.
  assert (Hstop' : stopped part m w w').
  { destruct x as [[r b]|]; [|done]. destruct Hq as (m' & d' & j' & Hpg & _).
    by eapply progress_stopped; [apply Hmap..|]. }
  destruct x as [[r b]|]; apply prog_ret; try done.
  - destruct Hq as (m' & d' & j' & [] & Hh). exists m', d', j'.
    split; [|split; [done|intros q Hq; by apply pg_moved0; congruence]].
    split; cbn; try done; [|by destruct pg_moved0; congruence]. destruct pg_moved0. split; congruence.
  - destruct Hq as (d' & j' & []). exists m, d', j'.
    split; [|split; [done|intros q Hq; by apply pg_moved0; congruence]].
    split; cbn; try done; [|by destruct pg_moved0; congruence]. destruct pg_moved0. split; congruence.
Qed.

Lemma submit_wp part s m d j w rq :
  tended part s m d j w → request_args rq → is_complete_request rq = false →
  wp (submit s rq) (λ '(_, s') w', advanced part m w s' w') (stopped part m w) w.
Proof.
  intros Htd Hargs Hc. destruct rq as [offset bytes| |final]; [| |done]; cbn.
  - split; [pose proof Htd as []; exists d, j; by split|].
    intros now w' ->. eapply on_writer_wp; [done|]. intros wr Hs. by eapply write_serves.
  - eapply on_writer_wp; [done|]. intros wr Hs. by eapply sync_serves.
Qed.

Lemma prefix_complete part s m d j w b :
  tended part s m d j w → 0 ≤ b < durable_prefix_end s → state_at m b = Some Complete.
Proof.
  intros [_ _ _ _ _ [(_ & Ht & _) _] _ Hb]. unfold durable_prefix_end.
  destruct (ss_backing s) as [[wr m'|]|]; [|lia..]. destruct Hb as (-> & _).
  pose proof (first_gap_spec _ _ _ Ht) as Hg. unfold first_gap in Hg.
  destruct (List.find _ _); cbn in Hg; apply Hg.
Qed.

(** *** Completion *)

(** [final] was given to bytes that passed every check, under a seal that is durable. *)
Definition verified part m (w w' : disk) final : Prop :=
  ∃ content o (j : J) seq, earned (dk_files w) part total m digest content o ∧
    dk_journal w' = Some j ∧ seal seq content ∈ take (journal_synced j) (journal_records j) ∧
    ∀ q, q ≠ journal_path → dk_files w' q = renamed part final (dk_files w) q.

(** Nothing is named and the journal is where it was, or the file is verified. *)
Definition concluded part m (w w' : disk) final : Prop :=
  (dk_jpath w' = Some journal_path ∧ ∀ q, dk_files w' q = dk_files w q) ∨ verified part m w w' final.

Definition completing part m (w w' : disk) final : Prop :=
  ∃ d (j : J), dk_data w' = Some d ∧ dk_journal w' = Some j ∧ restart_ok m d j ∧
    concluded part m w w' final ∧ dk_jpath w' = Some journal_path.

Lemma sealed_verified part m (w w' : disk) final content o seq (j j' : J) :
  earned (dk_files w) part total m digest content o → dk_journal w' = Some j' →
  sealed_with seq content j j' → dk_files w' = renamed part final (dk_files w) →
  verified part m w w' final.
Proof.
  intros He Hj [Hr Hs] Hf. exists content, o, j', seq. split; [done|]. split; [done|]. split.
  - rewrite Hs, take_ge, Hr by done. apply elem_of_app. right. by left.
  - intros q _. by rewrite Hf.
Qed.

(** The verification of a tended download, stopped anywhere. *)
Lemma verification_exec part s wr m d j w w' ok j' o final :
  tended part s m d j w → ss_backing s = Some (Journalled wr m) →
  Completion.exec (dk_files w) j
    (verify_and_rename part final total m digest (dw_next_sequence wr)) ok (dk_files w') j' o →
  dk_journal w' = Some j' → dk_jpath w' = dk_jpath w →
  restart_ok m d j' ∧ concluded part m w w' final ∧
  match o with
  | Some None => False
  | Some (Some (Ok _)) => verified part m w w' final
  | _ => True
  end.
Proof.
  intros [_ _ Hp _ _ [Hwf Ht] Hstop Hb] Hs Hx Hj' Hp'. rewrite Hs in Hb.
  destruct Hb as (_ & Hi & _ & Hh). rewrite Hp in Hp'.
  pose proof (check_coverage_spec m total Hwf) as Hcov.
  destruct (check_coverage m total) as [[]|e] eqn:Ec.
  - assert (Hpoison : dw_poisoned wr = false).
    { destruct (dw_poisoned wr) eqn:E; [|done]. destruct (Hh E) as (b & ? & Hb).
      destruct Hcov as [_ Hcov]. destruct Hb. apply Hcov. lia. }
    destruct (iv_alive _ _ _ _ Hi Hpoison) as [Hint Hsy Hnx _ _].
    pose proof (verify_exec _ _ _ _ _ _ _ _ _ _ _ _ Hwf Hint Hx) as Hv.
    split; [by eapply verify_restart|].
    destruct o as [[[sealed|e]|]|].
    + destruct Hv as (content & oc & He & _ & Hf & Hseal).
      assert (verified part m w w' final) by by eapply sealed_verified. split; [by right|done].
    + destruct Hv as [Hf _]. split; [|done]. left. split; [done|]. by rewrite Hf.
    + done.
    + split; [|done]. destruct Hv as [Hf|(content & oc & He & Hf & Hseal)]; [left|right].
      * split; [done|]. by rewrite Hf.
      * by eapply sealed_verified.
  - destruct (uncovered_refused _ _ _ _ _ _ _ _ _ _ _ _ _ Ec Hx) as (Hf & -> & Hno).
    destruct Hstop. split; [by apply safe_restart|]. split; [left; split; [done|]; by rewrite Hf|].
    destruct o as [[[sealed|e']|]|]; [by destruct (Hno sealed)|done| |done].
    revert Hx. unfold verify_and_rename. inversion 1 as [| |? ? ? ? r ? ? ? ? _ Hx1| | | |]; subst.
    destruct r; [|inversion Hx1]. rewrite Ec in Hx1. revert Hx1. case_bool; by inversion 1.
Qed.

Lemma complete_serves part s wr m d j w final :
  tended part s m d j w → ss_backing s = Some (Journalled wr m) →
  wp (backing_complete (Journalled wr m) part final digest)
    (λ '(r, b) w', b = Journalled wr m ∧ completing part m w w' final ∧
       (is_ok r = true → verified part m w w' final))
    (λ w', completing part m w w' final) w.
Proof.
  intros Htd Hs. pose proof Htd as [Hmv _ Hp _ _ [_ Ht] [Hsafe Hcov] _].
  assert (Hsame : completing part m w w final).
  { exists d, j. split_and!; try apply Hmv; [by apply safe_restart| |done]. left. by split. }
  cbn [backing_complete]. destruct (has_staged_work wr); [by apply prog_ret|]. cbv zeta. rewrite Ht.
  apply prog_bind, prog_complete. intros w' o Hx.
  destruct (of_completion_exec _ _ _ _ j (mv_journal _ _ _ _ Hmv) Hx) as (ok & j' & Hx' & Hj' & Hd' & Hp').
  destruct (verification_exec _ _ _ _ _ _ _ _ _ _ _ _ Htd Hs Hx' Hj' Hp') as (Hr & Hc & Ho).
  assert (Hdone : completing part m w w' final).
  { exists d, j'. rewrite Hd', Hp'. split_and!; try done. apply Hmv. }
  destruct o as [[[sealed|e]|]|]; [|..|done]; cbn; split; try done.
Qed.

Definition finished part m (w w' : disk) final : Prop :=
  ∃ d (j : J), dk_data w' = Some d ∧ dk_journal w' = Some j ∧ restart_ok m d j ∧
    concluded part m w w' final.

Lemma completing_finished part m w w' final : completing part m w w' final → finished part m w w' final.
Proof. intros (d & j & ? & ? & ? & ? & _). by exists d, j. Qed.

Lemma journal_removed part m w w1 w2 final r :
  completing part m w w1 final → verified part m w w1 final → op_does (RemoveFile journal_path) w1 r w2 →
  finished part m w w2 final ∧ verified part m w w2 final.
Proof.
  intros (d & j & Hd & Hj & Hr & _ & _) (content & o & j' & seq & He & Hj' & Hs & Hf) Hrm. cbn in Hrm.
  assert (Hv : verified part m w w2 final).
  { exists content, o, j', seq. split; [done|]. destruct r; subst w2; cbn; [|done].
    split_and!; try done. intros q Hq. unfold removed. apply String.eqb_neq in Hq as Hq'.
    rewrite Hq'. by apply Hf. }
  split; [|done]. exists d, j. split_and!; [destruct r; by subst w2..|done|by right].
Qed.

Lemma complete_wp part s m d j w final :
  tended part s m d j w →
  wp (submit s (RqComplete final))
    (λ '(r, s') w', finished part m w w' final ∧ (r = Ok tt → verified part m w w' final) ∧
       (ss_backing s' = ss_backing s ∨ ss_backing s' = None))
    (λ w', finished part m w w' final) w.
Proof.
  intros Htd. pose proof Htd as [Hmv Hn Hp Hart Hdig _ [Hsafe Hcov] Hb].
  assert (Hst : finished part m w w final).
  { exists d, j. split_and!; try apply Hmv; [by apply safe_restart|]. left. by split. }
  cbn [submit target_verify_and_rename StorageTarget]. unfold complete, on_backing. rewrite Hart, Hdig.
  cbn [art_part_path]. destruct (ss_backing s) as [[wr m'|]|] eqn:Es; [|done|].
  2: { apply prog_ret; [done|]. split; [done|]. split; [done|]. by left. }
  destruct Hb as (-> & _). apply prog_vis; [done|]. intros x w1 Hx.
  pose proof (prog_sound _ _ _ _ _ _ (complete_serves part s wr m d j w final Htd Es) Hx) as Hq.
  destruct x as [[r b]|]; cbn [bind].
  2: { apply prog_ret; [by apply completing_finished|]. split; [by apply completing_finished|].
       split; [done|]. by right. }
  destruct Hq as (-> & Hc & Hv). pose proof (completing_finished _ _ _ _ _ Hc).
  destruct r as [sealed|e]; cbn [bind].
  2: { apply prog_ret; [done|]. split; [done|]. split; [done|]. by left. }
  specialize (Hv eq_refl). cbn [with_backing ss_artifacts]. rewrite Hart. cbn [art_journal_path].
  apply prog_vis; [done|]. intros r w2 Hrm.
  destruct (journal_removed _ _ _ _ _ _ _ Hc Hv Hrm). apply prog_ret; [done|].
  split; [done|]. split; [done|]. by left.
Qed.

(** *** Creation *)

Lemma string_app_list s1 s2 :
  String.list_ascii_of_string (s1 ++ s2) =
    String.list_ascii_of_string s1 ++ String.list_ascii_of_string s2.
Proof. induction s1 as [|c s1 IH]; cbn; [done|]. by rewrite IH. Qed.

Lemma string_app_assoc (a b c : string) : ((a ++ b) ++ c)%string = (a ++ (b ++ c))%string.
Proof. induction a as [|x a IH]; cbn; [done|]. by rewrite IH. Qed.

(** A part file's name ends in a [t], a journal's in a [j]. *)
Lemma journal_not_part part : part_path_for target = Ok part → part ≠ journal_path.
Proof.
  unfold part_path_for. destruct (file_name target); [|done]. intros [= <-] Heq.
  assert (Hj : ∃ x, journal_path = (x ++ ".dpj")%string).
  { unfold journal_path, journal_path_for, path_join. repeat case_match; [by eexists|..];
      rewrite <- ?string_app_assoc; by eexists. }
  destruct Hj as [x Hx]. rewrite Hx in Heq. apply (f_equal String.list_ascii_of_string) in Heq.
  rewrite !string_app_list in Heq. apply (f_equal last) in Heq.
  rewrite !last_app in Heq. cbn in Heq. done.
Qed.

Lemma created_part opened part n :
  PartFile.PartFile.create opened target n = Ok part →
  part_path_for target = Ok (pf_path part) ∧ pf_total_length part = n.
Proof.
  unfold PartFile.PartFile.create. destruct (i64_try_from n); [|done]. cbn [ok_or].
  destruct (part_path_for target); [|done]. destruct (create_new _ _ _); [|done].
  destruct (prepare _ _ _) as [p f]. destruct p; [|done]. by intros [= <-].
Qed.

Lemma granted_map_spec m w d (j : J) :
  u64 total → granted_map total = Ok m → inv w (Intervals.new total) d j → inv w m d j.
Proof.
  intros Hu Hg Hi. pose proof (new_wf total Hu) as Hwf. unfold granted_map in Hg.
  destruct (0 <? total); [|by injection Hg as <-].
  pose proof (grant_spec (Intervals.new total) (MkRange 0 total) SINGLE_STREAM_WORKER Hwf
    ltac:(split; cbn; ulia)) as Hs.
  destruct (grant _ _ _) as [[[]|e] m']; [|done]. injection Hg as <-.
  destruct Hs as (_ & Hpend & Hwf' & Ht & Hst). eapply inv_remap; [done..|].
  intros b. rewrite Hst. case_bool_decide as Hb; [|done]. rewrite (Hpend b Hb). done.
Qed.

Definition header : FileHeader := FileHeader_new transfer_id total 0 validator_hash.

(** The part file is there; then so is an empty journal. *)
Definition part_ready part d (w : disk) : Prop :=
  dk_name w = part ∧ dk_data w = Some d ∧ dk_files w part = Some (data_content d).
Definition journal_ready part d (journal : JournalFile) (w : disk) : Prop :=
  part_ready part d w ∧ jf_total_length journal = total ∧ dk_jpath w = Some journal_path ∧
  ∃ j, dk_journal w = Some j ∧ journal_header j = header ∧ journal_records j = [] ∧ journal_intact j.

Lemma journal_made part d w r w' :
  part_ready part d w → op_does (CreateJournal journal_path header) w r w' →
  match r with Ok journal => journal_ready part d journal w' | Err _ => w' = w end.
Proof.
  intros Hp (a1 & a2 & a3 & a4 & a5 & -> & Hr).
  destruct (JournalFile_create _ _ _ _ _ _ _) as [journal|e] eqn:Ej; [|done].
  destruct Hr as (_ & j & Hh & Hrec & Hi & ->). split; [exact Hp|].
  split; [|split; [done|by exists j]]. revert Ej. unfold JournalFile_create.
  destruct a1; [|case_bool; done]. destruct a2; [|done]. destruct a3; [|done].
  cbn. destruct (sync_parent _ _ _); [|done]. by intros [= <-].
Qed.

Lemma create_journal_wp part d w :
  part_path_for target = Ok part → part_ready part d w →
  wp (create_journal windows journal_path header)
    (λ r w', match r with Ok journal => journal_ready part d journal w' | Err _ => True end)
    (λ _, True) w.
Proof.
  intros Hpart Hp. pose proof (journal_not_part part Hpart) as Hne.
  unfold create_journal. apply prog_vis; [done|]. intros r w1 Hr.
  pose proof (journal_made _ _ _ _ _ Hp Hr) as Hm. clear Hr.
  destruct r as [journal|e]; [by apply prog_ret|]. subst w1.
  destruct e; try by apply prog_ret.
  apply prog_vis; [done|]. intros r w1 Hr. destruct r as [[]|e]; [|by apply prog_ret].
  assert (Hp1 : part_ready part d w1).
  { cbn in Hr. subst w1. destruct Hp as (? & ? & Hc). split_and!; try done. cbn. unfold removed.
    apply String.eqb_neq in Hne as ->. done. }
  apply prog_vis; [done|]. intros r w2 Hr2.
  pose proof (journal_made _ _ _ _ _ Hp1 Hr2) as Hm.
  destruct r; by apply prog_ret.
Qed.

Lemma ready_tended part d journal s wr m w :
  wf_header header → journal_ready part d journal w → data_total_length d = total →
  try_new total total 0 = Ok wr → granted_map total = Ok m →
  ss_backing s = Some (Journalled wr m) → ss_artifacts s = MkArtifacts part (Some journal_path) →
  ss_digest s = digest → ∃ j, tended part s m d j w.
Proof.
  intros Hwh ((Hn & Hd & Hc) & _ & Hp & j & Hj & Hh & Hr & Hint) Ht Hw Hg Hb Ha Hdig.
  exists j. pose proof (proj1 (proj2 Hwh)) as Hu. cbn in Hu.
  assert (Hi : inv wr (Intervals.new total) d j).
  { apply (fresh_inv (MkSys wr (Intervals.new total) d j)). split; cbn; rewrite ?Ht, ?Hh; done. }
  apply (granted_map_spec m) in Hi; [|done..].
  assert (Hw' : wr = MkWriter total 0 [] 0 None false None 0).
  { unfold try_new in Hw. rewrite Z.eqb_refl in Hw. by injection Hw as <-. }
  pose proof Hi as [Hwf Hl _ _ _ _].
  split; try done.
  - split; try done. by rewrite Hn.
  - split; [done|congruence].
  - by eapply inv_stop.
  - rewrite Hb. split_and!; [done|done| |]; subst wr; cbn; [by split; [constructor|]|done].
Qed.

Lemma create_wp w :
  wf_header header →
  wp (create windows target journal_dir (Some total) transfer_id validator_hash digest)
    (λ r w', match r with
     | Ok s => ∃ part m d j, part_path_for target = Ok part ∧ tended part s m d j w'
     | Err _ => True
     end) (λ _, True) w.
Proof.
  intros Hwh. unfold create, create_backing. apply prog_bind.
  apply prog_vis; [done|]. intros r w1 (opened & -> & Hr).
  destruct (PartFile.PartFile.create _ _ _) as [part|e] eqn:Ep; [|by apply prog_ret].
  apply created_part in Ep as [Hpart Hlen]. destruct Hr as (d & _ & Hdt & ->).
  cbv zeta. apply prog_bind. eapply prog_mono;
    [apply (create_journal_wp (pf_path part) d); [done|]|..].
  { split_and!; try done. cbn. unfold put_file. by rewrite String.eqb_refl. }
  - intros [journal|e] w2 Hq _; [|by apply prog_ret].
    pose proof Hq as (_ & Hjl & _). rewrite Hlen, Hjl.
    destruct (try_new total total 0) as [wr|e] eqn:Ew; [|by apply prog_ret].
    cbn [map_err]. destruct (granted_map total) as [m|e] eqn:Eg; [|by apply prog_ret].
    apply prog_ret; [done|]. apply prog_vis; [done|]. intros now w3 ->. apply prog_ret; [done|].
    destruct (ready_tended (pf_path part) d journal
      (MkStorageSink (Some (Journalled wr m)) now (MkArtifacts (pf_path part) (Some journal_path)) digest)
      wr m w2) as [j Hj]; try done; [congruence|]. by exists (pf_path part), m, d, j.
  - done.
Qed.

Lemma running_tended s w :
  wf_header header → running s w →
  ∃ part m d j, part_path_for target = Ok part ∧ tended part s m d j w.
Proof.
  intros Hwh. induction 1 as [s w0 w _ _ Hx|s w rq r s' w' _ (part & m & d & j & Hp & Htd) Ha Hc Hx].
  - exact (prog_sound _ _ _ _ _ _ (create_wp w0 Hwh) Hx).
  - pose proof (prog_sound _ _ _ _ _ _ (submit_wp part s m d j w rq Htd Ha Hc) Hx) as Hq.
    destruct Hq as (m' & d' & j' & Htd' & _). by exists part, m', d', j'.
Qed.

(** What holds of the disk wherever a call is stopped. *)
Definition promised part m (s : StorageSink) rq (w w' : disk) (o : option (result unit SinkError * StorageSink))
    : Prop :=
  (∃ d j, dk_data w' = Some d ∧ dk_journal w' = Some j ∧ restart_ok m d j) ∧
  (∀ b, 0 ≤ b < durable_prefix_end s → state_at m b = Some Complete) ∧
  (∀ r s' b, o = Some (r, s') → 0 ≤ b < durable_prefix_end s' → state_at m b = Some Complete) ∧
  (dk_jpath w' = Some journal_path ∧ (∀ q, q ≠ part → dk_files w' q = dk_files w q) ∨
   ∃ final, rq = RqComplete final ∧ verified part m w w' final) ∧
  (∀ final s', rq = RqComplete final → o = Some (Ok tt, s') → verified part m w w' final).

Lemma use_promised part s m d j w rq w' o :
  tended part s m d j w → request_args rq → is_complete_request rq = false →
  exec (submit s rq) w w' o → ∃ m', total_length m' = total ∧ promised part m' s rq w w' o.
Proof.
  intros Htd Ha Hc Hx.
  assert (Hno : ∀ final, rq ≠ RqComplete final) by (by destruct rq).
  pose proof (prog_sound _ _ _ _ _ _ (submit_wp part s m d j w rq Htd Ha Hc) Hx) as Hq.
  destruct o as [[r s']|].
  - destruct Hq as (m' & d' & j' & Htd' & Hk & Hf). exists m'.
    pose proof Htd' as [Hmv' _ Hp' _ _ [_ Ht'] [Hs' Hc'] _]. split; [done|].
    split; [|split; [|split; [|split]]].
    + exists d', j'. destruct Hmv'. split_and!; [done..|by apply safe_restart].
    + intros b Hb. by eapply Hk, prefix_complete.
    + intros r2 s2 b [= <- <-]. by eapply prefix_complete.
    + by left.
    + intros final s2 ->. by destruct (Hno final).
  - destruct Hq as (d' & j' & [Hmv' Hn' Hp' [_ Ht'] [Hs' Hc'] _]). exists m. split; [done|].
    split; [|split; [|split; [|split]]]; try done.
    + exists d', j'. destruct Hmv'. split_and!; [done..|by apply safe_restart].
    + intros b Hb. by eapply prefix_complete.
    + left. split; [done|]. intros q Hq. apply Hmv'. congruence.
Qed.

Lemma completion_promised part s m d j w final w' o :
  tended part s m d j w → exec (submit s (RqComplete final)) w w' o →
  promised part m s (RqComplete final) w w' o.
Proof.
  intros Htd Hx. pose proof (prog_sound _ _ _ _ _ _ (complete_wp part s m d j w final Htd) Hx) as Hq.
  assert (Hfin : finished part m w w' final) by (destruct o as [[r s']|]; tauto).
  destruct Hfin as (d' & j' & Hd' & Hj' & Hr & Hc).
  split; [by exists d', j'|]. split; [intros b Hb; by eapply prefix_complete|]. split; [|split].
  - intros r s' b -> Hb. destruct Hq as (_ & _ & Hs). eapply prefix_complete; [done|].
    unfold durable_prefix_end in *. destruct Hs as [<-|Hs]; [done|]. rewrite Hs in Hb. lia.
  - destruct Hc as [[? Hf]|Hv]; [left; split; [done|]; intros q _; apply Hf|right; by exists final].
  - intros final' s' [= <-] ->. by apply Hq.
Qed.
End tended.
End world.
Arguments disk D J : clear implicits.
Arguments MkDisk {D J}.

(** C25: The sink keeps its promises (I-1, I-4).  Create a sink for a representation of known length
    on storage that may fail any call, write and synchronise through it at will, and stop its next
    call anywhere.  Whatever a restart then finds, the journal replays, its blocks are in the part
    file, and every byte below the durable prefix the sink reported, before the call or after it,
    is among them.  No file but the part file changes and the journal keeps its name, unless the
    call was a completion: then the final name denotes the bytes of the part file, of the declared
    length, complete, in agreement with the server's digest, and sealed. *)
Theorem sink_keeps_its_promises {D J : Type} `{Checksum, Digest, Os, ServerDigests}
    `{DurableDataLaws D} `{!DurableJournal J} `{!DurableJournalLaws J} windows target journal_dir
    total transfer_id validator_hash digest s (w : disk D J) rq w' o :
  wf_header (header total transfer_id validator_hash) →
  running windows target journal_dir total transfer_id validator_hash digest s w →
  request_args rq → exec (submit windows s rq) w w' o →
  ∃ part m, part_path_for target = Ok part ∧ total_length m = total ∧
    promised journal_dir total transfer_id digest part m s rq w w' o.
Proof.
  intros Hwh Hrun Ha Hx.
  destruct (running_tended _ _ _ _ _ _ _ _ _ Hwh Hrun) as (part & m & d & j & Hp & Htd).
  destruct (is_complete_request rq) eqn:Erq.
  - destruct rq as [| |final]; try done. exists part, m.
    split_and!; [done|by destruct Htd as [_ _ _ _ _ [_ ?] _ _]|by eapply completion_promised].
  - destruct (use_promised _ _ _ _ _ _ _ _ _ _ _ _ _ _ Htd Ha Erq Hx) as (m' & ? & ?).
    by exists part, m'.
Qed.

(** ** A run *)

Module Example_sink.
#[local] Open Scope string_scope.
#[local] Open Scope Z_scope.
Import Concrete MemoryOs Example_run Example_completion.

Definition no_files : directory := λ _, None.
Definition dir : path := "state"%string.
Definition id : list byte := replicate 16 x11.
Definition hash : list byte := replicate 32 x22.
Definition jp : path := journal_path dir id.

Definition whole : IntervalMap := MkIntervalMap 8 [MkInterval 0 8 (InProgress w1)].
Definition half : IntervalMap :=
  MkIntervalMap 8 [MkInterval 0 4 Complete; MkInterval 4 8 (InProgress w1)].

Definition sink_with (wr : DurableWriter) (m : IntervalMap) : StorageSink :=
  MkStorageSink (Some (Journalled wr m)) 0 (MkArtifacts "a.dppart" (Some jp)) None.

Definition disk0 : disk PartDisk JournalDisk := MkDisk no_files "" None None None.
Definition disk_part : disk PartDisk JournalDisk :=
  MkDisk (put_file "a.dppart" (data_content part0) no_files) "a.dppart" (Some part0) None None.
Definition disk1 : disk PartDisk JournalDisk :=
  MkDisk (dk_files disk_part) "a.dppart" (Some part0) (Some jp) (Some journal0).
Definition disk2 : disk PartDisk JournalDisk := put_data disk1 part1.
Definition disk_synced : disk PartDisk JournalDisk := put_data disk2 part2.
Definition disk3 : disk PartDisk JournalDisk :=
  put_journal (put_journal disk_synced journal1) journal2.

Lemma sink_creates :
  exec (create false "a" dir (Some 8) id hash None) disk0 disk1 (Some (Ok (sink_with writer0 whole))).
Proof.
  eapply exec_call with (x := Ok (part_of (replicate 8 x00))) (w1 := disk_part).
  { exists (λ _, Ok (MkFile [] 0)). split; [vm_compute; reflexivity|]. by exists part0. }
  eapply exec_call with (x := Ok (MkJournalFile jp 8)) (w1 := disk1).
  { exists (Ok tt), (Ok tt), (Ok tt), (Ok tt), (Ok tt). split; [vm_compute; reflexivity|].
    split; [vm_compute; reflexivity|]. exists journal0. split_and!; done || exact journal0_intact. }
  eapply exec_call with (x := 0) (w1 := disk1); [done|]. apply exec_return.
Qed.

Lemma sink_writes :
  exec (submit false (sink_with writer0 whole) (RqWrite 0 block)) disk1 disk2
    (Some (Ok tt, sink_with writer1 whole)).
Proof.
  eapply exec_call with (x := 5) (w1 := disk1); [done|].
  eapply exec_call with (x := Some (Ok tt, Journalled writer1 whole)) (w1 := disk2);
    [|apply exec_return].
  eapply (exec_call (WriteData 0 block) _ (Ok tt)); [|apply exec_return].
  exists part0, part1. split; [done|]. split; [|done].
  exists memory, memory_laws, (Ok tt), (part_of (block ++ replicate 4 x00)).
  split_and!; [vm_compute; reflexivity|done..].
Qed.

Lemma sink_syncs :
  exec (submit false (sink_with writer1 whole) RqSync) disk2 disk3
    (Some (Ok tt, sink_with writer2 half)).
Proof.
  eapply exec_call with (x := Some (Ok tt, Journalled writer2 half)) (w1 := disk3);
    [|apply exec_return].
  eapply (exec_call SyncPart _ (Ok tt) disk2 disk_synced).
  { exists part1, part2. split; [done|]. split; [by exists memory|done]. }
  eapply (exec_call (AppendRecord record) _ (Ok tt) disk_synced (put_journal disk_synced journal1)).
  { exists journal0, journal1. split; [done|]. split; [|done].
    exists (Ok tt), 0%nat, (journal Example_run.header [record]). split; vm_compute; reflexivity. }
  eapply (exec_call SyncJournal _ (Ok tt) _ disk3); [|apply exec_return].
  exists journal1, journal2. split; [done|]. split; [|done].
  exists (Ok tt), 131%nat. split_and!; [done|vm_compute; lia|vm_compute; lia|].
  vm_compute. reflexivity.
Qed.

Lemma sink_running :
  running false "a" dir 8 id hash None (sink_with writer1 whole) disk2.
Proof.
  eapply running_served with (rq := RqWrite 0 block); [|by split|done|exact sink_writes].
  eapply running_created; [| |exact sink_creates]; done.
Qed.

Example sink_keeps_its_promises_witness :
  durable_prefix_end (sink_with writer2 half) = 4 ∧
  ∃ m, restart_ok m part2 journal2 ∧ ∀ b, 0 ≤ b < 4 → state_at m b = Some Complete.
Proof.
  split; [reflexivity|].
  destruct (sink_keeps_its_promises false "a" dir 8 id hash None _ _ RqSync _ _
    ltac:(split_and!; vm_compute; done) sink_running I sink_syncs)
    as (part & m & _ & _ & (d & j & Hd & Hj & Hr) & _ & Hb & _).
  injection Hd as <-. injection Hj as <-. exists m. split; [exact Hr|].
  intros b Hb'. exact (Hb _ _ b eq_refl Hb').
Defined.
End Example_sink.
End StorageSink.
