(* ===== verification/Download.v ===== *)
(** * [downpour-engine/src/download.rs]: the single-stream download

    Probe, fetch, make durable, verify and rename, retrying transient failures: over any protocol
    backend, into the storage sink. *)

From S2P Require Import Prelude Intervals Io Format PartFile Writer Str ContentRange Remote.
From S2P Require Import Completion Effects Sink Http Retry WriterService StorageSink.
From Stdlib Require Import String.
From stdpp Require Import list.
#[local] Open Scope Z_scope.

Module Download.
Import Io.Io Format.Format PartFile.PartFile Writer.Writer Str.Str ContentRange.ContentRange Remote.Remote
  Completion.Completion Intervals.Intervals Effects.Effects Sink.Sink StorageSink.StorageSink Http.Http.

Definition PART_EXTENSION : string := "dppart".
Definition JOURNAL_EXTENSION : string := "dpj".

Record StorageLayout := MkLayout { target_dir : path; journal_dir : path }.

(** A path component from a name: its bytes. *)
Definition os_str (name : str) : string := String.string_of_list_byte (as_bytes name).

Section download.
Context {Url Mime : Type}.

Inductive DownloadError :=
| DProbe (source : ProbeError Url)
| DTransfer (source : TransferError Url)
| Incomplete (p : path) (expected : option Z) (actual : Z)
| TargetExists (p : path)
| DSink (p : path) (source : SinkError)
| Unverified (p : path) (source : SinkError)
| DIo (p : path) (source : Error).

Definition DownloadError_kind (e : DownloadError) : string :=
  match e with
  | DProbe error => ProbeError_kind error
  | DTransfer error => TransferError_kind error
  | Incomplete _ _ _ => "incomplete"
  | TargetExists _ => "target_exists"
  | DSink _ _ => "sink"
  | Unverified _ _ => "unverified"
  | DIo _ _ => "io"
  end.

Definition transient_kind_of (error : DownloadError) : option Retry.TransientKind :=
  match error with
  | DProbe (ProbeTransport _ _) | DTransfer (TransferTransport _ _) => Some Retry.ConnectionReset
  | DProbe (ProbeTimeout _) | DTransfer (TransferTimeout _ _) => Some Retry.Timeout
  | DTransfer (TruncatedBody _ _ _) => Some Retry.TruncatedBody
  | Incomplete _ _ _ => Some Retry.TruncatedBody
  | DProbe (ProbeUnexpectedStatus _ status _) | DTransfer (TransferUnexpectedStatus _ status _) =>
      Retry.from_status status
  | _ => None
  end.

Definition retry_after_of (error : DownloadError) : option str :=
  match error with
  | DProbe (ProbeUnexpectedStatus _ _ retry_after)
  | DTransfer (TransferUnexpectedStatus _ _ retry_after) => retry_after
  | _ => None
  end.

Definition observed_status_of (error : TransferError Url) : option Z :=
  match error with
  | TransferUnexpectedStatus _ status _ | ValidatorMismatch _ _ status _ => Some status
  | _ => None
  end.

(** [Url::as_str], and the origin [scheme://authority]. *)
Class UrlText := { url_as_str : Url → str; url_origin : Url → str }.

Definition transfer_id_for `{UrlText, Digest} (final_url : Url) : list byte :=
  take 16 (blake3 (as_bytes (url_as_str final_url))).

Definition validator_hash_of `{Digest} (validator : Validator) : list byte :=
  match validator with
  | StrongETag value => blake3 (as_bytes (lit "etag:" ++ value))
  | LastModified value => blake3 (as_bytes (lit "last-modified:" ++ value))
  | NoValidator => replicate 32 x00
  end.

(** ** The session *)

Record Session := MkSession {
  s_sink : RangeSink StorageSink;
  s_validator : Validator;
  s_recorded : RemoteObject (Url := Url) (Mime := Mime);
  s_final_url : Url;
  s_total_length : option Z;
  s_final_path : path;
  s_artifacts : Artifacts;
  s_last_observed_status : option Z;
}.

Definition session_durable_prefix_end (held : Session) : Z :=
  durable_prefix_end (rs_target (s_sink held)).

Definition with_sink (held : Session) (sink : RangeSink StorageSink) : Session :=
  MkSession sink (s_validator held) (s_recorded held) (s_final_url held) (s_total_length held)
    (s_final_path held) (s_artifacts held) (s_last_observed_status held).
Definition with_status (held : Session) (status : option Z) : Session :=
  MkSession (s_sink held) (s_validator held) (s_recorded held) (s_final_url held)
    (s_total_length held) (s_final_path held) (s_artifacts held) status.
End download.
Arguments DownloadError Url : clear implicits.
Arguments UrlText Url : clear implicits.
Arguments Session Url Mime : clear implicits.

(** ** The calls *)

(** The metadata of a path without following links, the clocks, sleeping. *)
Inductive host_call : Type → Type :=
| SymlinkMetadata (p : path) : host_call (result unit Error)
| SystemNow : host_call Z
| RetryClock : host_call (Z * Z)
| SleepFor (delay : Z) : host_call unit.

Definition engine_call (N : Type → Type) : Type → Type := either N (either storage_call host_call).

(** A target whose calls are sent elsewhere. *)
Definition lift_target {E F T} (f : ∀ X, E X → F X) (target : SinkTarget E T) : SinkTarget F T := {|
  target_write_at t offset bytes := translate f (target_write_at t offset bytes);
  target_verify_and_rename t final_path := translate f (target_verify_and_rename t final_path);
  target_durable_prefix_end := target_durable_prefix_end;
  target_sync t := translate f (target_sync t);
|}.

Section single_stream.
Context {Url Mime : Type} {N : Type → Type} `{TransferProtocol Url Mime N, UrlText Url}
  `{Retry.HttpDate, EqDecision Url, Os, Digest, ServerDigests}.
Context (windows : bool) (policy : Retry.RetryPolicy) (reprobe : Retry.ReprobePolicy).
Notation engine_call := (engine_call N).
Notation Session := (Session Url Mime).
Notation DownloadError := (DownloadError Url).

Definition in_storage X (c : storage_call X) : engine_call X := Right_ (Left_ c).
Definition host {X} (c : host_call X) : prog engine_call X := call (Right_ (Right_ c)).
Definition storage {A} (p : prog storage_call A) : prog engine_call A := translate in_storage p.

#[local] Instance engine_target : SinkTarget engine_call StorageSink :=
  lift_target in_storage (StorageTarget windows).

(** What a fetch sends to the network, and what to the sink. *)
Definition fetch (request : RangeRequest Url) (sink : RangeSink StorageSink)
    : prog engine_call (result RangeOutcome (TransferError Url) * RangeSink StorageSink) :=
  feed (λ _, Left_) (backend_fetch_range (Mime := Mime) request) sink.
Definition probe_url (url : Url)
    : prog engine_call (result (RemoteObject (Url := Url) (Mime := Mime)) (ProbeError Url)) :=
  translate (λ _, Left_) (backend_probe (ProbeRequest_new url)).

(** Fetch into a session, make it durable, verify, and rename. *)
Definition run (held : Session) (request : RangeRequest Url)
    : prog engine_call (result path DownloadError * option Session) :=
  let part_path := art_part_path (s_artifacts held) in
  let! '(fetched, sink) := fetch request (s_sink held) in
  let! '(synced, sink) := sink_sync sink in
  let held := with_sink held sink in
  match synced with
  | Err source => Ret (Err (DSink part_path source), Some held)
  | Ok _ =>
      match fetched with
      | Err error =>
          Ret (Err (DTransfer error), Some (with_status held (observed_status_of error)))
      | Ok outcome =>
          let delivered := sink_next_offset sink in
          let total_length := s_total_length held in
          if match total_length with
             | Some expected => negb (delivered =? expected)
             | None => false
             end || ro_truncated outcome
          then Ret (Err (Incomplete part_path total_length delivered), Some held)
          else
            let! '(named, sink) := sink_verify_and_rename sink (s_final_path held) in
            match named with
            | Err source => Ret (Err (Unverified part_path source), Some (with_sink held sink))
            | Ok _ => Ret (Ok (s_final_path held), None)
            end
      end
  end.

Definition refresh_capabilities (held : Session) : prog engine_call (result Session DownloadError) :=
  let! probed := probe_url (s_final_url held) in
  match probed with
  | Err e => Ret (Err (DProbe e))
  | Ok fresh =>
      let changed :=
        negb (bool_decide (ro_validator fresh = s_validator held))
        || match ro_total_length fresh with
           | Some _ => negb (bool_decide (ro_total_length fresh = s_total_length held))
           | None => false
           end in
      if changed then
        Ret (Err (DTransfer (ValidatorMismatch (ro_final_url fresh) (session_durable_prefix_end held)
          200 (default (lit "<none recorded>") (if_range_value (s_validator held))))))
      else
        Ret (Ok (MkSession (s_sink held) (s_validator held) fresh (ro_final_url fresh)
                   (s_total_length held) (s_final_path held) (s_artifacts held) None))
  end.

(** Continue from the durable prefix, conditional on the validator.  A failed refresh drops the
    session. *)
Definition resume_planned (held : Session)
    : prog engine_call (result path DownloadError * option Session) :=
  let from := session_durable_prefix_end held in
  match if_range_value (s_validator held) with
  | None => Ret (Err (Incomplete (art_part_path (s_artifacts held)) None from), Some held)
  | Some validator =>
      let remaining := option_map (λ total, saturating_sub64 total from) (s_total_length held) in
      let held := with_sink held (rebase (s_sink held) from remaining) in
      run held (Http.Http.resume (s_final_url held) (From from) validator)
  end.

Definition resume (held : Session)
    : prog engine_call (result path DownloadError * option Session) :=
  let! now := host SystemNow in
  let plan := Retry.MkPlan (s_recorded held) now (s_final_url held) None
                (s_last_observed_status held) in
  match Retry.triggers reprobe plan with
  | [] => resume_planned held
  | _ =>
      let! refreshed := refresh_capabilities held in
      match refreshed with
      | Err e => Ret (Err e, None)
      | Ok held => resume_planned held
      end
  end.

(** A new attempt: probe, refuse an occupied target, create the artifacts, fetch everything. *)
Definition start_session (url : Url) (layout : StorageLayout)
    : prog engine_call (result Session DownloadError) :=
  let! probed := probe_url url in
  match probed with
  | Err e => Ret (Err (DProbe e))
  | Ok remote =>
      let name := default (lit "download") (ro_suggested_filename remote) in
      let final_path := path_join (target_dir layout) (os_str name) in
      let! metadata := host (SymlinkMetadata final_path) in
      match metadata with
      | Ok _ => Ret (Err (TargetExists final_path))
      | Err source =>
          if negb (bool_decide (kind source = NotFound)) then Ret (Err (DIo final_path source)) else
          let! created := storage (call (Blocking
            (create windows final_path (journal_dir layout) (ro_total_length remote)
               (transfer_id_for (ro_final_url remote)) (validator_hash_of (ro_validator remote))
               (ro_digest remote)))) in
          match created with
          | None => Ret (Err (DIo final_path io_other))
          | Some (Err source) => Ret (Err (DSink final_path source))
          | Some (Ok target) =>
              Ret (Ok (MkSession (sink_new target 0 (ro_total_length remote)) (ro_validator remote)
                         remote (ro_final_url remote) (ro_total_length remote) final_path
                         (ss_artifacts target) None))
          end
      end
  end.

Definition attempt (url : Url) (layout : StorageLayout) (session : option Session)
    : prog engine_call (result path DownloadError * option Session) :=
  match session with
  | Some existing => resume existing
  | None =>
      let! started := start_session url layout in
      match started with
      | Err e => Ret (Err e, None)
      | Ok held => run held (whole (s_final_url held))
      end
  end.

Definition remove_artifacts (artifacts : Artifacts) : prog engine_call unit :=
  let! _ := storage (call (Async (RemoveFile (art_part_path artifacts)))) in
  match art_journal_path artifacts with
  | Some journal => let! _ := storage (call (Async (RemoveFile journal))) in Ret tt
  | None => Ret tt
  end.

(** A session is kept for the next attempt only with a usable validator and durable bytes. *)
Definition resumable (session : option Session) : bool :=
  match session with
  | Some held =>
      match if_range_value (s_validator held) with
      | Some _ => 0 <? session_durable_prefix_end held
      | None => false
      end
  | None => false
  end.

Definition discard (session : option Session) : prog engine_call (option Session) :=
  if resumable session then Ret session else
  match session with
  | Some previous => let! _ := remove_artifacts (s_artifacts previous) in Ret None
  | None => Ret None
  end.

(** [None] when the fuel runs out. *)
Fixpoint download_loop (fuel : nat) (url : Url) (layout : StorageLayout) (origin : str)
    (retries : Retry.RetryState) (session : option Session)
    : prog engine_call (option (result path DownloadError)) :=
  match fuel with
  | O => Ret None
  | S fuel =>
      let! '(attempted, session) := attempt url layout session in
      match attempted with
      | Ok final_path => Ret (Some (Ok final_path))
      | Err error =>
          match transient_kind_of error with
          | None => Ret (Some (Err error))
          | Some kind =>
              let '(failures, retries) := Retry.record_failure retries origin in
              let attempt := saturating_sub64 failures 1 in
              let! '(now, jitter) := host RetryClock in
              match Retry.decide policy kind attempt (retry_after_of error) now jitter with
              | Retry.GiveUp => Ret (Some (Err error))
              | Retry.RetryAfter delay =>
                  let! session := discard session in
                  let! _ := host (SleepFor delay) in
                  download_loop fuel url layout origin retries session
              end
          end
      end
  end.

Definition download (fuel : nat) (url : Url) (layout : StorageLayout)
    : prog engine_call (option (result path DownloadError)) :=
  download_loop fuel url layout (url_origin url) ∅ None.

(** One attempt more than there are retries. *)
Definition download_fuel : nat := S (Z.to_nat (Retry.max_retries policy)).
End single_stream.

(** ** Announcements

    Any backend, made to say what it is asked to fetch and what its probes found. *)
Inductive announced (Url Mime : Type) (N : Type → Type) : Type → Type :=
| Fetching (request : RangeRequest Url) : announced Url Mime N unit
| Probed (answer : result (RemoteObject (Url := Url) (Mime := Mime)) (ProbeError Url))
    : announced Url Mime N unit
| Own {X} (e : N X) : announced Url Mime N X.
Arguments Fetching {Url Mime N} request.
Arguments Probed {Url Mime N} answer.
Arguments Own {Url Mime N X} e.

Definition own_call {Url Mime N} X (e : either N sink_op X) : either (announced Url Mime N) sink_op X :=
  match e with Left_ e => Left_ (Own e) | Right_ op => Right_ op end.

Definition announcing {Url Mime N} (backend : TransferProtocol Url Mime N)
    : TransferProtocol Url Mime (announced Url Mime N) := {|
  backend_probe request :=
    let! answer := translate (λ _, Own) (backend_probe request) in
    Vis (Probed answer) (λ _, Ret answer);
  backend_fetch_range request :=
    Vis (Left_ (Fetching request)) (λ _, translate own_call (backend_fetch_range (Mime := Mime) request));
  backend_capabilities := backend_capabilities;
|}.

(** ** The conversation with the server, as a state machine

    [Holding first recorded]: bytes fetched under the probe [first] are kept, and [recorded] is the
    last probe that agreed with it. *)
Section conversation.
Context {Url Mime : Type}.
Notation RemoteObject := (RemoteObject (Url := Url) (Mime := Mime)).

Inductive event :=
| Said (answer : result RemoteObject (ProbeError Url))
| Asked (request : RangeRequest Url).

Inductive phase := Idle | Pending (remote : RemoteObject) | Keeping (first recorded : RemoteObject).

(** The same representation, as far as a probe can tell. *)
Definition agrees (first remote : RemoteObject) : Prop :=
  ro_validator remote = ro_validator first ∧
  (ro_total_length remote = None ∨ ro_total_length remote = ro_total_length first).

Inductive turn : phase → event → phase → Prop :=
| turn_refused p e : turn p (Said (Err e)) Idle
| turn_probed p remote : turn p (Said (Ok remote)) (Pending remote)
| turn_started remote : turn (Pending remote) (Asked (whole (ro_final_url remote))) (Keeping remote remote)
| turn_refreshed first recorded remote :
    agrees first remote → turn (Keeping first recorded) (Said (Ok remote)) (Keeping first remote)
| turn_resumed first recorded from validator :
    if_range_value (ro_validator first) = Some validator → 0 < from →
    turn (Keeping first recorded)
      (Asked (Http.Http.resume (ro_final_url recorded) (From from) validator)) (Keeping first recorded).

Inductive spoken : list event → phase → Prop :=
| spoken_nothing : spoken [] Idle
| spoken_more log p e p' : spoken log p → turn p e p' → spoken (log ++ [e]) p'.

(** What is kept was probed. *)
Lemma spoken_keeping log p :
  spoken log p →
  match p with
  | Idle => True
  | Pending remote => Said (Ok remote) ∈ log
  | Keeping first _ => Said (Ok first) ∈ log
  end.
Proof.
  induction 1 as [|log p e p' _ IH Ht]; [done|].
  destruct Ht; cbn in *; [done|..]; apply elem_of_app; auto; right; by left.
Qed.
End conversation.
Arguments event Url Mime : clear implicits.
Arguments phase Url Mime : clear implicits.

(** ** The machine a download runs on

    The disk, what was said to the server, how often the download slept, and the names it found
    free. *)
Section site.
Context {Url Mime : Type} {N : Type → Type} {D J : Type}.
Context `{backend : TransferProtocol Url Mime N, UrlText Url, Retry.HttpDate, EqDecision Url}.
Context `{Checksum, Digest, Os, ServerDigests} `{DurableDataLaws D} `{!DurableJournal J}
  `{!DurableJournalLaws J}.
Context (windows : bool) (policy : Retry.RetryPolicy) (reprobe : Retry.ReprobePolicy).
Notation RemoteObject := (RemoteObject (Url := Url) (Mime := Mime)).
Notation calls := (engine_call (announced Url Mime N)).

Record site := MkSite {
  st_disk : disk D J;
  st_log : list (event Url Mime);
  st_sleeps : Z;
  st_free : list path;
}.
Definition with_disk (w : site) (d : disk D J) : site := MkSite d (st_log w) (st_sleeps w) (st_free w).
Definition heard (w : site) (e : event Url Mime) : site :=
  MkSite (st_disk w) (st_log w ++ [e]) (st_sleeps w) (st_free w).
Definition found (w : site) (p : path) (metadata : result unit Error) : site :=
  MkSite (st_disk w) (st_log w) (st_sleeps w)
    (match metadata with
     | Err e => if bool_decide (kind e = NotFound) then st_free w ++ [p] else st_free w
     | Ok _ => st_free w
     end).

(** A length is a [u64]. *)
Definition remote_args (answer : result RemoteObject (ProbeError Url)) : Prop :=
  match answer with
  | Ok remote => match ro_total_length remote with Some n => u64 n | None => True end
  | Err _ => True
  end.

(** A name without metadata is free. *)
Definition host_does {X} (c : host_call X) (w : site) : X → site → Prop :=
  match c in host_call X return X → site → Prop with
  | SymlinkMetadata p => λ r w', w' = found w p r ∧
      ∀ e, r = Err e → kind e = NotFound → dk_files (st_disk w) p = None
  | SleepFor _ => λ _ w', w' = MkSite (st_disk w) (st_log w) (st_sleeps w + 1) (st_free w)
  | SystemNow | RetryClock => λ _ w', w' = w
  end.

Definition site_does {X} (e : calls X) (w : site) (x : X) (w' : site) : Prop :=
  match e with
  | Left_ a =>
      match a with
      | Fetching request => w' = heard w (Asked request)
      | Probed answer => w' = heard w (Said answer) ∧ remote_args answer
      | Own _ => w' = w
      end
  | Right_ (Left_ c) => ∃ d, does c (st_disk w) x d ∧ w' = with_disk w d
  | Right_ (Right_ c) => host_does c w x w'
  end.
#[export] Instance site_world : World calls site := λ X, site_does (X := X).

(** *** The parts of a call *)

Lemma wp_true {E W A} `{World E W} (p : prog E A) w : wp p (λ _ _, True) (λ _, True) w.
Proof. apply prog_complete. by intros w' []. Qed.

(** A storage call changes the disk only. *)
Lemma storage_disk_wp {A} (p : prog storage_call A) (Q : A → disk D J → Prop) S w d :
  wp p Q S d →
  wp (storage (N := announced Url Mime N) p) (λ a w', ∃ d, w' = with_disk w d ∧ Q a d)
    (λ w', ∃ d, w' = with_disk w d ∧ S d) (with_disk w d).
Proof.
  revert d. induction p as [a|X e k IH]; intros d [HS Hp]; (split; [by exists d|]); [by exists d|].
  intros x w' (d' & Hd & ->). apply IH. by apply Hp.
Qed.

Lemma storage_wp {A} (p : prog storage_call A) (Q : A → disk D J → Prop) S w :
  wp p Q S (st_disk w) →
  wp (storage (N := announced Url Mime N) p) (λ a w', ∃ d, w' = with_disk w d ∧ Q a d)
    (λ w', ∃ d, w' = with_disk w d ∧ S d) w.
Proof. intros Hp. destruct w as [d l n free]. exact (storage_disk_wp p Q S (MkSite d l n free) d Hp). Qed.

(** The backend's own calls change nothing. *)
Lemma own_wp {A B} (p : prog N A) (k : A → prog (announced Url Mime N) B) Q S w :
  S w → (∀ a, wp (translate (λ _, Left_) (k a) : prog calls B) Q S w) →
  wp (translate (λ _, Left_) (bind (translate (λ _, Own) p) k) : prog calls B) Q S w.
Proof.
  intros HS Hk. induction p as [a|X e k' IH]; [apply Hk|]. split; [done|]. intros x w' ->. apply IH.
Qed.

Lemma probe_wp url Q S w :
  S w →
  (∀ answer, remote_args answer → S (heard w (Said answer)) ∧ Q answer (heard w (Said answer))) →
  wp (probe_url (H := announcing backend) url) Q S w.
Proof.
  intros HS HQ. unfold probe_url. apply own_wp; [done|]. intros answer. split; [done|].
  intros [] w' [-> Ha]. destruct (HQ answer Ha). by apply prog_ret.
Qed.

#[local] Instance target_here : SinkTarget calls StorageSink := engine_target windows.

Lemma own_feed_wp {A} (I : RangeSink StorageSink → site → Prop) (S : site → Prop) s w
    (p : prog (either N sink_op) A) :
  (∀ s w, I s w → S w) →
  (∀ s w bytes, I s w → wp (accept (E := calls) s bytes) (λ '(_, s') w', I s' w') S w) →
  I s w →
  wp (feed (E := calls) (λ _, Left_) (translate own_call p) s) (λ '(_, s') w', I s' w') S w.
Proof.
  intros HS Hacc. revert s w. induction p as [a|X e k IH]; intros s w HI.
  { apply prog_ret; [by eapply HS|done]. }
  destruct e as [e|op]; [|revert k IH; destruct op as [bytes]; intros k IH]; cbn.
  - split; [by eapply HS|]. intros x w' ->. by apply IH.
  - apply prog_bind. eapply prog_mono; [by apply Hacc| |done].
    intros [r s'] w' HI' _. by apply IH.
Qed.

(** *** The session *)

Context (layout : StorageLayout).
Definition id_of (first : RemoteObject) : list byte := transfer_id_for (ro_final_url first).
Definition path_of (first : RemoteObject) : path :=
  path_join (target_dir layout) (os_str (default (lit "download") (ro_suggested_filename first))).

(** The storage behind a session whose length is known. *)
Definition kept (first : RemoteObject) (s : StorageSink) (d : disk D J) : Prop :=
  match ro_total_length first with
  | Some total => ∃ part m data j,
      tended (journal_dir layout) total (id_of first) (ro_digest first) part s m data j d
  | None => True
  end.

(** What a finished download is: verified bytes under the final name. *)
Definition finished (first : RemoteObject) (final : path) (d : disk D J) : Prop :=
  final = path_of first ∧ ∀ total, ro_total_length first = Some total →
  ∃ content outcome (j : J) seq,
    (final ≠ journal_path (journal_dir layout) (id_of first) → dk_files d final = Some content) ∧
    zlen content = total ∧ judged (ro_digest first) content outcome ∧
    dk_journal d = Some j ∧ seal seq content ∈ take (journal_synced j) (journal_records j).

Lemma kept_use first s rq w :
  kept first s (st_disk w) → request_args rq → is_complete_request rq = false →
  wp (storage (N := announced Url Mime N) (submit windows s rq))
    (λ '(_, s') w', ∃ d, w' = with_disk w d ∧ kept first s' d)
    (λ w', ∃ d, w' = with_disk w d) w.
Proof.
  intros Hk Ha Hc. unfold kept in Hk. destruct (ro_total_length first) as [total|] eqn:Et.
  - destruct Hk as (part & m & data & j & Htd).
    eapply prog_mono; [apply storage_wp, (submit_wp windows _ _ _ _ _ _ _ _ _ _ _ Htd Ha Hc)|..].
    + intros [r s'] w' (d & -> & m' & data' & j' & Htd' & _) _. exists d. split; [done|].
      unfold kept. rewrite Et. by exists part, m', data', j'.
    + intros w' (d & -> & _). by exists d.
  - eapply prog_mono; [apply storage_wp, wp_true|..].
    + intros [r s'] w' (d & -> & _) _. exists d. split; [done|]. unfold kept. by rewrite Et.
    + intros w' (d & -> & _). by exists d.
Qed.

Lemma kept_finish first s w :
  kept first s (st_disk w) →
  wp (storage (N := announced Url Mime N) (submit windows s (RqComplete (path_of first))))
    (λ '(r, _) w', ∃ d, w' = with_disk w d ∧ (r = Ok tt → finished first (path_of first) d))
    (λ w', ∃ d, w' = with_disk w d) w.
Proof.
  intros Hk. unfold kept in Hk. destruct (ro_total_length first) as [total|] eqn:Et.
  - destruct Hk as (part & m & data & j & Htd).
    eapply prog_mono; [apply storage_wp, (complete_wp windows _ _ _ _ _ _ _ _ _ _ _ Htd)|..].
    + intros [r s'] w' (d & -> & _ & Hv & _) _. exists d. split; [done|]. intros ->.
      destruct (Hv eq_refl) as (content & o & j' & seq & [Hc Hl _ _ Hdig] & Hj & Hs & Hf).
      split; [done|]. rewrite Et. intros ? [= <-]. exists content, o, j', seq. split_and!; try done.
      intros Hne. rewrite (Hf _ Hne). unfold renamed. by rewrite String.eqb_refl.
    + intros w' (d & -> & _). by exists d.
  - eapply prog_mono; [apply storage_wp, wp_true|..].
    + intros [r s'] w' (d & -> & _) _. exists d. split; [done|]. intros _. split; [done|].
      by rewrite Et.
    + intros w' (d & -> & _). by exists d.
Qed.

(** A window on the sink that a fetch may use. *)
Record window (first : RemoteObject) (log : list (event Url Mime)) (n : Z) (sink : RangeSink StorageSink)
    (w : site) : Prop := {
  wi_base : 0 ≤ rs_base_offset sink;
  wi_written : 0 ≤ rs_written sink;
  wi_kept : kept first (rs_target sink) (st_disk w);
  wi_free : path_of first ∈ st_free w;
  wi_log : st_log w = log;
  wi_sleeps : st_sleeps w = n;
}.
Definition same_talk (log : list (event Url Mime)) (n : Z) (w : site) : Prop :=
  st_log w = log ∧ st_sleeps w = n.

Lemma accept_window first log n sink w bytes :
  window first log n sink w →
  wp (accept (E := calls) sink bytes) (λ '(_, sink') w', window first log n sink' w')
    (same_talk log n) w.
Proof.
  intros Hw. pose proof Hw as [Hb Hwr Hk Hfr Hl Hn]. pose proof (zlen_nonneg bytes).
  assert (Hs : same_talk log n w) by done.
  unfold accept. cbv zeta. case_match; [by apply prog_ret|].
  destruct (checked_add64 _ _) as [offset|] eqn:Eo; [|by apply prog_ret].
  apply checked_add64_Some in Eo as [-> ?]. apply prog_bind.
  eapply prog_mono; [apply (kept_use first (rs_target sink) (RqWrite _ bytes)); [done| |done]|..].
  { cbn. ulia. }
  - intros [r s'] w' (d & -> & Hk') _. destruct r; apply prog_ret; try done; split; cbn; try done.
    unfold saturating_add64. ulia.
  - intros w' (d & ->). done.
Qed.

Lemma fetch_window first log n request sink w :
  window first (log ++ [Asked request]) n sink (heard w (Asked request)) → same_talk log n w →
  wp (fetch (H := announcing backend) windows request sink)
    (λ '(_, sink') w', window first (log ++ [Asked request]) n sink' w')
    (λ w', same_talk log n w' ∨ same_talk (log ++ [Asked request]) n w') w.
Proof.
  intros Hw Hs. unfold fetch. split; [by left|]. intros [] w' ->.
  apply (own_feed_wp (window first (log ++ [Asked request]) n)); [| |done].
  - intros s w' [_ _ _ ? ?]. by right.
  - intros s w' bytes Hw'. eapply prog_mono; [by eapply accept_window|done|]. by right.
Qed.

Lemma sync_window first log n sink w :
  window first log n sink w →
  wp (sink_sync (E := calls) sink) (λ '(_, sink') w', window first log n sink' w')
    (same_talk log n) w.
Proof.
  intros [Hb Hwr Hk Hfr Hl Hn]. unfold sink_sync. apply prog_bind.
  eapply prog_mono; [apply (kept_use first (rs_target sink) RqSync); done|..].
  - intros [r s'] w' (d & -> & Hk') _. apply prog_ret; [done|]. by split.
  - intros w' (d & ->). done.
Qed.

(** A session whose bytes were fetched under [first]. *)
Record session_of (first : RemoteObject) (held : Session Url Mime) (w : site) : Prop := {
  so_validator : s_validator held = ro_validator first;
  so_total : s_total_length held = ro_total_length first;
  so_url : s_final_url held = ro_final_url (s_recorded held);
  so_path : s_final_path held = path_of first;
  so_base : 0 ≤ rs_base_offset (s_sink held);
  so_written : 0 ≤ rs_written (s_sink held);
  so_kept : kept first (rs_target (s_sink held)) (st_disk w);
  so_free : path_of first ∈ st_free w;
}.

(** The session an attempt left, and what was said. *)
Definition left_session (session : option (Session Url Mime)) (w : site) : Prop :=
  match session with
  | Some held => ∃ first, session_of first held w ∧ spoken (st_log w) (Keeping first (s_recorded held))
  | None => ∃ p, spoken (st_log w) p
  end.
Definition talking (n : Z) (w : site) : Prop := (∃ p, spoken (st_log w) p) ∧ st_sleeps w = n.

Definition attempted (n : Z) (r : result path (DownloadError Url) * option (Session Url Mime))
    (w : site) : Prop :=
  talking n w ∧
  match fst r with
  | Ok final => ∃ first, Said (Ok first) ∈ st_log w ∧ final ∈ st_free w ∧ finished first final (st_disk w)
  | Err e => transient_kind_of e ≠ None → left_session (snd r) w
  end.

Lemma left_talking n session w : left_session session w → st_sleeps w = n → talking n w.
Proof. intros Hl Hn. split; [|done]. destruct session as [held|]; [destruct Hl as (f & _ & ?)|]; eauto. Qed.

Lemma window_session first log n held sink w :
  s_validator held = ro_validator first → s_total_length held = ro_total_length first →
  s_final_url held = ro_final_url (s_recorded held) → s_final_path held = path_of first →
  window first log n sink w → session_of first (with_sink held sink) w.
Proof. intros ? ? ? ? []. by split. Qed.

Lemma run_wp first held request p n w :
  session_of first held w → spoken (st_log w) p →
  turn p (Asked request) (Keeping first (s_recorded held)) → st_sleeps w = n →
  wp (run (H := announcing backend) windows held request) (attempted n) (talking n) w.
Proof.
  intros [Hv Ht Hu Hp Hb Hwr Hk Hfr] Hsp Hturn Hn. set (log := st_log w) in *.
  assert (Hsp' : spoken (log ++ [Asked request]) (Keeping first (s_recorded held)))
    by by eapply spoken_more.
  assert (Hstop : ∀ w', same_talk (log ++ [Asked request]) n w' → talking n w')
    by (intros w' [Hl ?]; split; [rewrite Hl; by eexists|done]).
  assert (Hleft : ∀ sink w' status, window first (log ++ [Asked request]) n sink w' →
    left_session (Some (with_status (with_sink held sink) status)) w').
  { intros sink w' status Hw. exists first. pose proof Hw as [_ _ _ _ -> _]. split; [|done].
    destruct (window_session first _ n held sink w' Hv Ht Hu Hp Hw). by split. }
  assert (Hleft' : ∀ sink w', window first (log ++ [Asked request]) n sink w' →
    left_session (Some (with_sink held sink)) w').
  { intros sink w' Hw. exists first. pose proof Hw as [_ _ _ _ -> _]. split; [|done].
    by apply (window_session first _ n held sink w' Hv Ht Hu Hp Hw). }
  unfold run. cbv zeta. apply prog_bind. eapply prog_mono;
    [apply (fetch_window first log n request (s_sink held)); [by split|done]| |].
  2: { intros w' [[Hl ?]|?]; [|by apply Hstop]. split; [rewrite Hl; by eexists|done]. }
  intros [fetched sink1] w1 Hw1 _. apply prog_bind.
  eapply prog_mono; [by apply (sync_window first)| |done].
  intros [synced sink2] w2 Hw2 _. pose proof Hw2 as [_ _ Hk2 Hfr2 Hl2 Hn2].
  assert (Hs2 : talking n w2) by by apply Hstop.
  destruct synced as [[]|source].
  2: { apply prog_ret; [done|]. split; [done|]. intros _. by apply Hleft'. }
  destruct fetched as [outcome|error].
  2: { apply prog_ret; [done|]. split; [done|]. intros _. by apply Hleft. }
  case_match.
  { apply prog_ret; [done|]. split; [done|]. intros _. by apply Hleft'. }
  cbn [s_final_path with_sink]. rewrite Hp. unfold sink_verify_and_rename. apply prog_bind, prog_bind.
  eapply prog_mono; [by apply (kept_finish first (rs_target sink2))|..].
  - intros [r s'] w3 (d & -> & Hfin) _. change (talking n (with_disk w2 d)) in Hs2.
    apply prog_ret; [done|]. destruct r as [[]|source]; (apply prog_ret; [done|]); (split; [done|]);
      [|intros Hne; by destruct Hne].
    exists first. split; [|split; [exact Hfr2|by apply Hfin]].
    change (st_log (with_disk w2 d)) with (st_log w2). rewrite Hl2.
    by eapply (spoken_keeping _ (Keeping first _)).
  - intros w3 (d & ->). exact Hs2.
Qed.

Lemma refresh_wp first held n w :
  session_of first held w → spoken (st_log w) (Keeping first (s_recorded held)) → st_sleeps w = n →
  wp (refresh_capabilities (H := announcing backend) held)
    (λ r w', talking n w' ∧
       match r with
       | Ok held' => session_of first held' w' ∧ s_sink held' = s_sink held ∧
           spoken (st_log w') (Keeping first (s_recorded held'))
       | Err _ => True
       end) (talking n) w.
Proof.
  intros Hso Hsp Hn. assert (Hs : talking n w) by (split; [by eexists|done]).
  unfold refresh_capabilities. apply prog_bind. apply probe_wp; [done|]. intros answer Ha.
  destruct answer as [fresh|e].
  2: { assert (talking n (heard w (Said (Err e)))).
       { split; [|done]. eexists. eapply spoken_more; [done|by apply turn_refused]. }
       split; [done|]. by apply prog_ret. }
  assert (Hs1 : talking n (heard w (Said (Ok fresh)))).
  { split; [|done]. eexists. eapply spoken_more; [done|by apply turn_probed]. }
  split; [done|]. cbv zeta. destruct (negb _ || _) eqn:Ec; apply prog_ret; try done; split; try done.
  apply orb_false_iff in Ec as [Hv%negb_false_iff%bool_decide_eq_true Hl].
  destruct Hso as [Hval Htot Hurl Hpath ? ? ? ?]. split; [by split|]. split; [done|]. cbn.
  eapply spoken_more; [done|]. apply turn_refreshed. split; [congruence|].
  destruct (ro_total_length fresh); [right|by left]. rewrite <- Htot.
  by apply negb_false_iff, bool_decide_eq_true in Hl.
Qed.

Lemma resume_planned_wp first held n w :
  session_of first held w → spoken (st_log w) (Keeping first (s_recorded held)) → st_sleeps w = n →
  0 < session_durable_prefix_end held →
  wp (resume_planned (H := announcing backend) windows held) (attempted n) (talking n) w.
Proof.
  intros Hso Hsp Hn Hfrom. assert (Hs : talking n w) by (split; [by eexists|done]).
  unfold resume_planned. cbv zeta. destruct (if_range_value (s_validator held)) as [validator|] eqn:Ev.
  2: { apply prog_ret; [done|]. split; [done|]. intros _. by exists first. }
  pose proof Hso as [Hval Htot Hurl Hpath Hb Hw Hk Hfr].
  eapply (run_wp first); [|exact Hsp| |done].
  - split; try done. cbn. lia.
  - cbn. rewrite Hurl. apply turn_resumed; [congruence|done].
Qed.

Lemma resume_wp first held n w :
  session_of first held w → spoken (st_log w) (Keeping first (s_recorded held)) → st_sleeps w = n →
  0 < session_durable_prefix_end held →
  wp (resume (H := announcing backend) windows reprobe held) (attempted n) (talking n) w.
Proof.
  intros Hso Hsp Hn Hfrom. assert (Hs : talking n w) by (split; [by eexists|done]).
  unfold resume. split; [done|]. intros now w' ->. cbn [bind].
  destruct (Retry.triggers _ _); [by eapply resume_planned_wp|].
  apply prog_bind. eapply prog_mono; [by apply (refresh_wp first)| |done].
  intros [held'|e] w' [Hs' Hq] _.
  - destruct Hq as (Hso' & Hsink & Hsp'). eapply resume_planned_wp; [done|done|apply Hs'|].
    unfold session_durable_prefix_end. by rewrite Hsink.
  - apply prog_ret; [done|]. split; [done|]. intros _. apply Hs'.
Qed.

Lemma header_wf first total :
  u64 total → wf_header (header total (id_of first) (validator_hash_of (ro_validator first))).
Proof.
  intros Hu. assert (Hb : ∀ bs, zlen (blake3 bs) = 32) by (intros bs; unfold zlen; by rewrite blake3_len).
  split; [|split; [done|split; [done|]]].
  - unfold header, id_of, transfer_id_for. cbn [h_transfer_id]. rewrite zlen_take, Hb. done.
  - unfold header, validator_hash_of. cbn [h_validator_hash].
    destruct (ro_validator first); [apply Hb..|done].
Qed.

Lemma start_wp url n w p :
  spoken (st_log w) p → st_sleeps w = n →
  wp (start_session (H := announcing backend) windows url layout)
    (λ r w', talking n w' ∧
       match r with
       | Ok held => session_of (s_recorded held) held w' ∧
           spoken (st_log w') (Pending (s_recorded held))
       | Err _ => True
       end) (talking n) w.
Proof.
  intros Hsp Hn. assert (Hs : talking n w) by (split; [by eexists|done]).
  unfold start_session. apply prog_bind. apply probe_wp; [done|]. intros answer Ha.
  destruct answer as [remote|e].
  2: { assert (talking n (heard w (Said (Err e)))).
       { split; [|done]. eexists. eapply spoken_more; [done|by apply turn_refused]. }
       split; [done|]. by apply prog_ret. }
  assert (Hsp1 : spoken (st_log (heard w (Said (Ok remote)))) (Pending remote))
    by (eapply spoken_more; [done|by apply turn_probed]).
  set (w1 := heard w (Said (Ok remote))) in *.
  assert (Hs1 : talking n w1) by (split; [by eexists|done]).
  split; [done|]. cbv zeta. split; [done|]. intros metadata w' [-> _]. cbn [bind].
  destruct metadata as [[]|source]; [by apply prog_ret|]. case_match eqn:Hkind; [by apply prog_ret|].
  apply negb_false_iff in Hkind.
  fold (path_of remote). apply prog_bind. split; [done|]. intros created w2 (d & Hd & ->).
  assert (Hs2 : talking n (with_disk w1 d)) by exact Hs1.
  destruct created as [[target|source']|]; cbn; do 3 (split; [done|]); [|done..].
  split; [|exact Hsp1]. split; try done.
  2: { cbn. rewrite Hkind. apply elem_of_app. right. by left. }
  unfold kept. cbn [s_recorded s_sink rs_target sink_new].
  cbn in Ha. destruct (ro_total_length remote) as [total|] eqn:Et; [|done].
  pose proof (prog_sound _ _ _ _ _ _
    (create_wp windows _ _ _ _ _ _ (st_disk w1) (header_wf remote total Ha)) Hd)
    as (part & m & data & j & _ & Htd).
  by exists part, m, data, j.
Qed.

Lemma attempt_wp url session n w :
  left_session session w → st_sleeps w = n → (session = None ∨ resumable session = true) →
  wp (attempt (H := announcing backend) windows reprobe url layout session) (attempted n) (talking n) w.
Proof.
  intros Hl Hn Hres. destruct session as [held|]; cbn [attempt].
  - destruct Hres as [|Hres]; [done|]. destruct Hl as (first & Hso & Hsp).
    eapply resume_wp; [done..|]. cbn in Hres. destruct (if_range_value _); [|done]. lia.
  - destruct Hl as [p Hsp]. apply prog_bind. eapply prog_mono; [by eapply start_wp| |done].
    intros [held|e] w' [Hs' Hq] _.
    + destruct Hq as [Hso Hsp']. eapply run_wp; [done|done| |apply Hs'].
      pose proof Hso as [_ _ -> _ _ _ _ _]. apply turn_started.
    + apply prog_ret; [done|]. split; [done|]. intros _. apply Hs'.
Qed.

Lemma left_after session w w' :
  st_disk w' = st_disk w → st_log w' = st_log w → st_free w' = st_free w →
  left_session session w → left_session session w'.
Proof.
  intros Hd Hlog Hfr. destruct session as [held|]; cbn; rewrite Hlog; [|done].
  intros (first & [] & ?). exists first. split; [|done]. split; try done; [by rewrite Hd|by rewrite Hfr].
Qed.

Lemma storage_quiet {A} (p : prog storage_call A) w :
  wp (storage (N := announced Url Mime N) p) (λ _ w', ∃ d, w' = with_disk w d)
    (λ w', ∃ d, w' = with_disk w d) w.
Proof.
  eapply prog_mono; [apply storage_wp, wp_true|..].
  - intros a w' (d & -> & _) _. by exists d.
  - intros w' (d & -> & _). by exists d.
Qed.

(** What the next attempt starts from. *)
Definition next_from (n : Z) (session : option (Session Url Mime)) (w : site) : Prop :=
  left_session session w ∧ st_sleeps w = n ∧ (session = None ∨ resumable session = true).

Lemma discard_wp session n w :
  left_session session w → st_sleeps w = n →
  wp (discard (N := announced Url Mime N) session) (next_from n) (talking n) w.
Proof.
  intros Hl Hn. assert (Hs : talking n w) by by eapply left_talking. unfold discard.
  destruct (resumable session) eqn:Er; [apply prog_ret; [done|]; split_and!; by auto|].
  destruct Hs as [[p Hsp] _].
  assert (Hd : ∀ d, talking n (with_disk w d)) by (intros d; split; [by exists p|done]).
  assert (Hq : ∀ d, next_from n None (with_disk w d)) by (intros d; split_and!; [by exists p|done|by left]).
  destruct session as [previous|].
  2: { apply prog_ret; [by destruct w; apply (Hd st_disk0)|]. by destruct w; apply (Hq st_disk0). }
  unfold remove_artifacts. do 2 apply prog_bind.
  eapply prog_mono; [apply storage_quiet| |intros w' (d & ->); apply Hd].
  intros r w1 (d1 & ->) _. destruct (art_journal_path _); [|apply prog_ret; [apply Hd|apply prog_ret; auto]].
  apply prog_bind. eapply prog_mono; [apply storage_quiet| |intros w' (d & ->); apply Hd].
  intros r' w1 (d2 & ->) _. apply prog_ret; [apply (Hd d2)|]. apply prog_ret; [apply (Hd d2)|apply (Hq d2)].
Qed.

(** Within the retries of the policy. *)
Definition bounded_talk (w : site) : Prop :=
  (∃ p, spoken (st_log w) p) ∧ st_sleeps w ≤ Retry.max_retries policy.

Definition ended (o : option (result path (DownloadError Url))) (w : site) : Prop :=
  match o with
  | None => False
  | Some (Ok final) => ∃ first, Said (Ok first) ∈ st_log w ∧ final ∈ st_free w ∧ finished first final (st_disk w)
  | Some (Err _) => True
  end.

Lemma decide_within kind attempt retry_after now jitter delay :
  Retry.decide policy kind attempt retry_after now jitter = Retry.RetryAfter delay →
  attempt < Retry.max_retries policy.
Proof. unfold Retry.decide. case_bool; [done|]. lia. Qed.

Lemma loop_wp fuel url origin retries session n w :
  Retry.max_retries policy < u32_max → left_session session w → st_sleeps w = n →
  (session = None ∨ resumable session = true) → Retry.attempts retries origin = n →
  0 ≤ n ≤ Retry.max_retries policy → Retry.max_retries policy - n < Z.of_nat fuel →
  wp (download_loop (H := announcing backend) windows policy reprobe fuel url layout origin retries
        session) ended bounded_talk w.
Proof.
  intros Hmax. revert retries session n w.
  induction fuel as [|fuel IH]; intros retries session n w Hl Hn Hres Hatt Hr Hf; [lia|].
  assert (Hb : ∀ w', talking n w' → bounded_talk w') by (intros w' [? ?]; split; [done|lia]).
  cbn [download_loop]. apply prog_bind.
  eapply prog_mono; [by eapply attempt_wp| |by apply Hb]. intros [r session1] w1 [Hs1 Hq] _.
  destruct r as [final|error]; [apply prog_ret; [by apply Hb|done]|].
  destruct (transient_kind_of error) as [kind|] eqn:Ek; [|apply prog_ret; [by apply Hb|done]].
  cbn [fst snd] in Hq.
  assert (Hl1 : left_session session1 w1) by (apply Hq; cbn; congruence). clear Hq.
  destruct (Retry.record_failure retries origin) as [failures retries1] eqn:Erf.
  assert (Hfail : failures = n + 1 ∧ Retry.attempts retries1 origin = n + 1).
  { pose proof (Retry.attempts_record retries origin origin) as Hrec.
    rewrite bool_decide_eq_true_2, Hatt in Hrec by done. rewrite Erf in Hrec. cbn in Hrec.
    unfold Retry.record_failure in Erf. injection Erf as <- <-. rewrite Hatt in *.
    unfold saturating_add32 in *. rewrite Z.min_l in * by lia. done. }
  destruct Hfail as [-> Hatt1]. split; [by apply Hb|]. intros [now jitter] w' ->. cbn [bind].
  replace (saturating_sub64 (n + 1) 1) with n by (unfold saturating_sub64; lia).
  destruct (Retry.decide _ _ _ _ _ _) as [delay|] eqn:Ed; [|apply prog_ret; [by apply Hb|done]].
  apply decide_within in Ed. apply prog_bind.
  eapply prog_mono; [apply (discard_wp session1 n w1 Hl1), Hs1| |by apply Hb].
  intros session2 w2 (Hl2 & Hn2 & Hres2) Hs2. split; [by apply Hb|]. intros [] w' ->. cbn [bind].
  eapply (IH _ _ (n + 1)); [by apply (left_after _ w2)|cbn; lia|done|done|lia|lia].
Qed.

Lemma download_wp url w :
  0 ≤ Retry.max_retries policy < u32_max → st_log w = [] → st_sleeps w = 0 →
  wp (download (H := announcing backend) windows policy reprobe (download_fuel policy) url layout)
    ended bounded_talk w.
Proof.
  intros Hmax Hl Hn. eapply loop_wp; [lia| |done|by left|done|lia|unfold download_fuel; lia].
  exists Idle. rewrite Hl. constructor.
Qed.
End site.
Arguments site Url Mime D J : clear implicits.
Arguments MkSite {Url Mime D J}.

Section properties.
Context {Url Mime : Type} {N : Type → Type} {D J : Type}.
Context `{backend : TransferProtocol Url Mime N, UrlText Url, Retry.HttpDate, EqDecision Url}.
Context `{Checksum, Digest, Os, ServerDigests} `{DurableDataLaws D} `{!DurableJournal J}
  `{!DurableJournalLaws J}.
Context (windows : bool) (policy : Retry.RetryPolicy) (reprobe : Retry.ReprobePolicy).

(** C26: A download ends, and talks to the server in one way only (I-3).  Over any backend and any
    storage, with at most [max_retries] retries it returns a path or an error; and stopped
    anywhere, what it said is a run of the machine of [turn]: it fetches a whole representation
    only right after a probe, and asks for the rest of one only from a positive offset and only on
    the condition that the validator found by the probe that started the file still holds, however
    often it probed again in between. *)
Theorem resumes_are_conditional layout url (w0 w : site Url Mime D J) o :
  0 ≤ Retry.max_retries policy < u32_max → st_log w0 = [] → st_sleeps w0 = 0 →
  exec (download (H := announcing backend) windows policy reprobe (download_fuel policy) url layout)
    w0 w o →
  (∃ p, spoken (st_log w) p) ∧ st_sleeps w ≤ Retry.max_retries policy ∧ o ≠ Some None.
Proof.
  intros Hmax Hl Hn Hx. pose proof (download_wp windows policy reprobe layout url w0 Hmax Hl Hn) as Hwp.
  assert (Hs : bounded_talk policy w ∧ match o with Some a => ended layout a w | None => True end).
  { eapply prog_sound in Hx; [|eapply prog_mono; [exact Hwp|intros a w' Ha Hs; exact (conj Hs Ha)|done]].
    by destruct o. }
  destruct Hs as [[Hp Hb] He]. split; [done|]. split; [done|]. by intros ->.
Qed.

(** C27: A returned path names a verified file (I-1, I-4).  When a download returns a path, whatever
    failed and was resumed on the way: it is the one the name found by a successful probe gives, and
    was free when the download began; and if that probe found a length, the bytes under it have exactly that length, agree with the
    digest the server gave, and the journal holds, synchronised, the seal with their BLAKE3. *)
Theorem downloads_are_verified layout url (w0 w : site Url Mime D J) final :
  0 ≤ Retry.max_retries policy < u32_max → st_log w0 = [] → st_sleeps w0 = 0 →
  exec (download (H := announcing backend) windows policy reprobe (download_fuel policy) url layout)
    w0 w (Some (Some (Ok final))) →
  ∃ first, Said (Ok first) ∈ st_log w ∧ final = path_of layout first ∧ final ∈ st_free w ∧
    ∀ total, ro_total_length first = Some total →
    ∃ content outcome (j : J) seq,
      (final ≠ journal_path (journal_dir layout) (id_of first) → dk_files (st_disk w) final = Some content) ∧
      zlen content = total ∧ judged (ro_digest first) content outcome ∧
      dk_journal (st_disk w) = Some j ∧
      seal seq content ∈ take (journal_synced j) (journal_records j).
Proof.
  intros Hmax Hl Hn Hx. pose proof (download_wp windows policy reprobe layout url w0 Hmax Hl Hn) as Hwp.
  destruct (prog_sound _ _ _ _ _ _ Hwp Hx) as (first & Hin & Hfr & Hpath & Hf). by exists first.
Qed.
End properties.

(** ** A run *)

Module Example_download.
Import Replay.Replay Concrete MemoryOs Example_run Example_completion.
#[local] Open Scope string_scope.
#[local] Open Scope Z_scope.

Definition no_net (X : Type) : Type := False.
Definition full : list byte := block ++ block.
Definition remote : RemoteObject (Url := Z) (Mime := Z) :=
  MkRemote _ _ 0 [] (Some 8) Absent NoValidator None Http11 (Some (lit "a")) None 0.

(** A backend without a network: it probes one object and appends it. *)
#[local] Instance local_backend : TransferProtocol Z Z no_net := {|
  backend_probe _ := Ret (Ok remote);
  backend_fetch_range _ :=
    Vis (Right_ (Accept full)) (λ _, Ret (Ok (Http.Http.MkOutcome 8 200 None Http11 false)));
  backend_capabilities := MkCapabilities "local" [Http11] false true;
|}.
#[local] Instance local_text : UrlText Z := {| url_as_str _ := lit "u"; url_origin _ := lit "o" |}.
#[local] Instance no_dates : Retry.HttpDate := λ _, None.

Definition here : StorageLayout := MkLayout "" "".
Definition hdr : FileHeader := StorageSink.StorageSink.header 8 (id_of remote) (validator_hash_of NoValidator).
Definition jp : path := journal_path "" (id_of remote).

Definition rec : FramedRecord := FramedRecord_new 0 (BlockComplete 0 8 (blake3 full)).
Definition sealed : FramedRecord := seal 1 full.
Definition j0 : JournalDisk := MkJournalDisk hdr (journal hdr []) 72 [] 0.
Definition j1 : JournalDisk := MkJournalDisk hdr (journal hdr [rec]) 72 [rec] 0.
Definition j2 : JournalDisk := MkJournalDisk hdr (journal hdr [rec]) 131 [rec] 1.
Definition j3 : JournalDisk := MkJournalDisk hdr (journal hdr [rec; sealed]) 131 [rec; sealed] 1.
Definition j4 : JournalDisk := MkJournalDisk hdr (journal hdr [rec; sealed]) 178 [rec; sealed] 2.
Definition p1 : PartDisk := MkPartDisk (part_of full) [MkRange 0 8] (part_wf full eq_refl).
Definition p2 : PartDisk := MkPartDisk (part_of full) [] (part_wf full eq_refl).

Definition wr0 : DurableWriter := MkWriter 8 0 [] 0 None false None 0.
Definition wr1 : DurableWriter :=
  MkWriter 8 0 [MkStaged (MkRange 0 8) 8 w1 (blake3 full)] 8 (Some 5) false None 0.
Definition wr2 : DurableWriter := MkWriter 8 1 [] 0 None false None 8.
Definition whole_map : IntervalMap := MkIntervalMap 8 [MkInterval 0 8 (InProgress w1)].
Definition done_map : IntervalMap := MkIntervalMap 8 [MkInterval 0 8 Complete].
Definition sink_with (wr : DurableWriter) (m : IntervalMap) : StorageSink :=
  MkStorageSink (Some (Journalled wr m)) 0 (MkArtifacts "a.dppart" (Some jp)) None.

Definition d0 : disk PartDisk JournalDisk := MkDisk (λ _, None) "" None None None.
Definition d_part : disk PartDisk JournalDisk :=
  MkDisk (put_file "a.dppart" (data_content part0) (λ _, None)) "a.dppart" (Some part0) None None.
Definition d1 : disk PartDisk JournalDisk :=
  MkDisk (dk_files d_part) "a.dppart" (Some part0) (Some jp) (Some j0).
Definition d2 : disk PartDisk JournalDisk := put_data d1 p1.
Definition d_synced : disk PartDisk JournalDisk := put_data d2 p2.
Definition d3 : disk PartDisk JournalDisk := put_journal (put_journal d_synced j1) j2.
Definition d_sealed : disk PartDisk JournalDisk := put_journal (put_journal d3 j3) j4.
Definition d4 : disk PartDisk JournalDisk :=
  MkDisk (renamed "a.dppart" "a" (dk_files d_sealed)) "a" (Some p2) (Some jp) (Some j4).

Definition said : list (event Z Z) := [Said (Ok remote); Asked (whole 0)].
Definition at_ (d : disk PartDisk JournalDisk) log : site Z Z PartDisk JournalDisk := MkSite d log 0 [].
Definition by_ (d : disk PartDisk JournalDisk) log : site Z Z PartDisk JournalDisk := MkSite d log 0 ["a"].

Lemma download_creates :
  exec (create false "a" "" (Some 8) (id_of remote) (validator_hash_of NoValidator) None) d0 d1
    (Some (Ok (sink_with wr0 whole_map))).
Proof.
  eapply exec_call with (x := Ok (part_of (replicate 8 x00))) (w1 := d_part).
  { exists (λ _, Ok (MkFile [] 0)). split; [vm_compute; reflexivity|]. by exists part0. }
  eapply exec_call with (x := Ok (MkJournalFile jp 8)) (w1 := d1).
  { exists (Ok tt), (Ok tt), (Ok tt), (Ok tt), (Ok tt). split; [vm_compute; reflexivity|].
    split; [vm_compute; reflexivity|]. exists j0. by split_and!. }
  eapply exec_call with (x := 0) (w1 := d1); [done|]. apply exec_return.
Qed.

Lemma download_writes :
  exec (backing_write false 0 full 5 (Journalled wr0 whole_map)) d1 d2
    (Some (Ok tt, Journalled wr1 whole_map)).
Proof.
  eapply (exec_call (WriteData 0 full) _ (Ok tt)); [|apply exec_return].
  exists part0, p1. split; [done|]. split; [|done].
  exists memory, memory_laws, (Ok tt), (part_of full).
  split_and!; [vm_compute; reflexivity|done..].
Qed.

Lemma download_syncs :
  exec (backing_sync false (Journalled wr1 whole_map)) d2 d3 (Some (Ok tt, Journalled wr2 done_map)).
Proof.
  eapply (exec_call SyncPart _ (Ok tt) d2 d_synced).
  { exists p1, p2. split; [done|]. split; [by exists memory|done]. }
  eapply (exec_call (AppendRecord rec) _ (Ok tt) d_synced (put_journal d_synced j1)).
  { exists j0, j1. split; [done|]. split; [|done].
    exists (Ok tt), 0%nat, (journal hdr [rec]). split; vm_compute; reflexivity. }
  eapply (exec_call SyncJournal _ (Ok tt) _ d3); [|apply exec_return].
  exists j1, j2. split; [done|]. split; [|done].
  exists (Ok tt), 131%nat. split_and!; [done|vm_compute; lia|vm_compute; lia|].
  vm_compute. reflexivity.
Qed.

Definition verdict : Sealed := MkSealed "a" (blake3 full) NotOffered.
Lemma download_completes :
  exec (backing_complete (Journalled wr2 done_map) "a.dppart" "a" None) d3 d4
    (Some (Ok (Some verdict), Journalled wr2 done_map)).
Proof.
  eapply (exec_call (MeasureFile "a.dppart") _ (Ok 8) d3 d3).
  { split; [|done]. intros n [= <-]. by exists full. }
  eapply (exec_call (OpenFileAt "a.dppart") _ (Ok (cursor full)) d3 d3).
  { split; [|done]. intros f [= <-]. exists full. split; [done|].
    split; [exact (cursor_contents full)|by apply Forall_singleton]. }
  eapply (exec_call (AppendRecord sealed) _ (Ok tt) d3 (put_journal d3 j3)).
  { exists j2, j3. split; [done|]. split; [|done].
    exists (Ok tt), 0%nat, (journal hdr [rec; sealed]). split; vm_compute; reflexivity. }
  eapply (exec_call SyncJournal _ (Ok tt) _ d_sealed).
  { exists j3, j4. split; [done|]. split; [|done].
    exists (Ok tt), 178%nat. split_and!; [done|vm_compute; lia|vm_compute; lia|].
    vm_compute. reflexivity. }
  eapply (exec_call (RenameFile "a.dppart" "a") _ (Ok tt) d_sealed d4); [reflexivity|].
  apply exec_return.
Qed.

Definition d_end : disk PartDisk JournalDisk :=
  MkDisk (removed jp (dk_files d4)) "a" (Some p2) None (Some j4).

#[local] Instance local_site :
  World (engine_call (announced Z Z no_net)) (site Z Z PartDisk JournalDisk) := site_world.

Definition program : prog (engine_call (announced Z Z no_net))
    (option (result path (DownloadError Z))) :=
  download (H := announcing local_backend) false Retry.default_policy Retry.default_reprobe
    (download_fuel Retry.default_policy) 0 here.

(** One step of the storage, the rest of the machine unchanged. *)
Lemma storage_run {X} (c : storage_call X) (x : X) d d' log :
  does c d x d' →
  does (E := engine_call (announced Z Z no_net)) (Right_ (Left_ c)) (by_ d log) x (by_ d' log).
Proof. intros Hd. by exists d'. Qed.

Lemma run_download : exec program (at_ d0 []) (by_ d_end said) (Some (Some (Ok "a"))).
Proof.
  unfold program.
  eapply (exec_call (Left_ (Probed (Ok remote))) _ tt _ (at_ d0 [Said (Ok remote)])); [by split|].
  eapply (exec_call (Right_ (Right_ (SymlinkMetadata "a"))) _ (Err (MkError NotFound None))); [by split|].
  eapply exec_call with (x := Some (Ok (sink_with wr0 whole_map))) (w1 := by_ d1 [Said (Ok remote)]).
  { apply storage_run. exact download_creates. }
  eapply (exec_call (Left_ (Fetching (whole 0))) _ tt _ (by_ d1 said)); [done|].
  eapply exec_call with (x := 5) (w1 := by_ d1 said); [by apply storage_run|].
  eapply exec_call with (x := Some (Ok tt, Journalled wr1 whole_map)) (w1 := by_ d2 said).
  { apply storage_run. exact download_writes. }
  eapply exec_call with (x := Some (Ok tt, Journalled wr2 done_map)) (w1 := by_ d3 said).
  { apply storage_run. exact download_syncs. }
  eapply exec_call with (x := Some (Ok (Some verdict), Journalled wr2 done_map)) (w1 := by_ d4 said).
  { apply storage_run. exact download_completes. }
  eapply exec_call with (x := Ok tt) (w1 := by_ d_end said).
  { apply storage_run. vm_compute. reflexivity. }
  apply exec_return.
Qed.

Example resumes_are_conditional_witness :
  (∃ p, spoken said p) ∧ Some (Some (Ok (E := DownloadError Z) "a")) ≠ Some None.
Proof.
  destruct (resumes_are_conditional false Retry.default_policy Retry.default_reprobe here 0
    (at_ d0 []) (by_ d_end said) _ ltac:(vm_compute; split; [discriminate|reflexivity]) eq_refl eq_refl
    run_download) as (Hp & _ & Ho).
  split; [exact Hp|exact Ho].
Defined.

Example downloads_are_verified_witness :
  dk_files d_end "a" = Some full ∧ ∃ first, Said (Ok first) ∈ said ∧ "a" = path_of here first.
Proof.
  destruct (downloads_are_verified false Retry.default_policy Retry.default_reprobe here 0
    (at_ d0 []) (by_ d_end said) "a" ltac:(vm_compute; split; [discriminate|reflexivity]) eq_refl
    eq_refl run_download) as (first & Hin & Hpath & _).
  split; [vm_compute; reflexivity|]. exists first. split; [exact Hin|exact Hpath].
Defined.
End Example_download.
End Download.
