(* ===== verification/Footprint.v ===== *)
(** * What a download leaves alone

    A download creates, renames and removes files of a directory it shares with everything else the
    user keeps there.  The names it may change are few, and it takes them only when they are free:
    calls on the storage carry a contract over a set of names, every program of a download abides by
    it, and what abides by it leaves every other name as it was. *)

From S2P Require Import Prelude Intervals Io Format PartFile Writer Str Remote Completion Effects.
From S2P Require Import Sink Http Retry WriterService StorageSink Download.
From Stdlib Require Import String.
From stdpp Require Import list sets.
#[local] Open Scope Z_scope.

Module Footprint.
Import Io.Io PartFile.PartFile Writer.Writer Remote.Remote Completion.Completion Effects.Effects.
Import Sink.Sink StorageSink.StorageSink Http.Http Download.Download.

(** ** The storage

    [before] is the directory at the start, [mine] the names that may differ from it. *)
Section storage.
Context {D J : Type} `{Checksum, Digest, Os, ServerDigests} `{DurableDataLaws D} `{!DurableJournal J}
  `{!DurableJournalLaws J}.
Context (windows : bool) (before : directory) (mine : path → Prop).
Notation disk := (disk D J).

(** The rest is as before, and what is written goes to a name of [mine]. *)
Definition intact (w : disk) : Prop :=
  (∀ q, mine q ∨ dk_files w q = before q) ∧ (dk_data w = None ∨ mine (dk_name w)).

(** The part file of [target] is a name the download may take. *)
Definition takes (target : path) : Prop :=
  ∀ q, part_path_for target = Ok q → before q = None → mine q.

Definition within {X} (op : storage_op X) : Prop :=
  match op with
  | RenameFile from to_ => mine from ∧ mine to_
  | RemoveFile p | MeasureFile p | OpenFileAt p | CreateJournal p _ => mine p
  | CreatePart target _ | CreateGrowable target => takes target
  | OnPart part _ => mine (pf_path part)
  | _ => True
  end.

(** A part file that was created is under a name of [mine], and stays there. *)
Definition obtained {X} (op : storage_op X) : X → Prop :=
  match op in storage_op X return X → Prop with
  | CreatePart target _ => λ r, ∀ part, r = Ok part → mine (pf_path part)
  | CreateGrowable target => λ r, ∀ part, r = Ok part → mine (pf_path part)
  | OnPart part f => λ x, x = f part
  | _ => λ _, True
  end.

Lemma free_name w q : intact w → dk_files w q = None → (before q = None → mine q) → mine q.
Proof. intros [Hf _] Hq Hm. destruct (Hf q) as [|Hb]; [done|]. apply Hm. congruence. Qed.

Lemma intact_files w files name data jpath journal :
  intact w → (∀ q, mine q ∨ files q = dk_files w q) → data = None ∨ mine name →
  intact (MkDisk files name data jpath journal).
Proof.
  intros [Hf _] Hq Hn. split; [|done]. intros q. cbn. destruct (Hq q) as [|Hx]; [by left|].
  rewrite Hx. apply Hf.
Qed.

Lemma put_elsewhere p content (files : directory) : mine p →
  ∀ q, mine q ∨ put_file p content files q = files q.
Proof. intros Hp q. unfold put_file. destruct (String.eqb_spec q p) as [->|]; auto. Qed.

Lemma grown_part opened target part :
  create_growable opened target = Ok part → part_path_for target = Ok (pf_path part).
Proof.
  unfold create_growable. destruct (part_path_for target); [|done]. destruct (create_new _ _ _); [|done].
  by intros [= <-].
Qed.

Lemma op_intact {X} (op : storage_op X) w x w' :
  within op → intact w → op_does op w x w' → intact w' ∧ obtained op x.
Proof.
  intros Hin Hi. pose proof Hi as [Hf Hd]. destruct op; cbn [op_does obtained] in *.
  1, 2: intros (d & d' & Hx & _ & ->); (split; [|done]); destruct Hd as [|Hn]; [congruence|];
    (apply intact_files with w; [done|by apply put_elsewhere|by right]).
  1, 2: by intros (j & j' & _ & _ & ->).
  1, 2: by intros [_ ->].
  - intros ->. split; [|done]. destruct Hin as [Hm1 Hm2]. destruct x; [|done].
    apply intact_files with w; [done| |].
    + intros q. unfold renamed. destruct (String.eqb_spec q to_) as [->|]; [by left|].
      destruct (String.eqb_spec q from) as [->|]; [by left|by right].
    + destruct Hd as [|Hn]; [by left|]. right. by destruct (String.eqb from (dk_name w)).
  - intros ->. split; [|done]. destruct x; [|done]. apply intact_files with w; [done| |done].
    intros q. unfold removed. destruct (String.eqb_spec q p) as [->|]; [by left|by right].
  - intros (opened & -> & Hr). destruct (PartFile.PartFile.create _ _ _) as [part|e] eqn:Ep.
    + destruct Hr as (d & Hfree & _ & ->). pose proof (created_part _ _ _ _ Ep) as [Hpp _].
      assert (Hm : mine (pf_path part)) by (eapply free_name; [done..|by apply Hin]).
      split; [|by intros ? [= <-]]. apply intact_files with w; [done|by apply put_elsewhere|by right].
    + destruct Hr as (files & -> & Hq). split; [|done]. apply intact_files with w; [done| |done].
      intros q. destruct (Hq q) as [|[Hfree Hpp]]; [by right|]. left. by eapply free_name; [..|apply Hin].
  - intros (opened & -> & Hr). destruct (create_growable _ _) as [part|e] eqn:Ep; [|by subst].
    destruct Hr as [Hfree ->]. pose proof (grown_part _ _ _ Ep) as Hpp.
    assert (Hm : mine (pf_path part)) by (eapply free_name; [done..|by apply Hin]).
    split; [|by intros ? [= <-]]. apply intact_files with w; [done|by apply put_elsewhere|done].
  - intros (? & ? & ? & ? & ? & -> & Hr). split; [|done].
    destruct (JournalFile_create _ _ _ _ _ _ _); [|by subst]. by destruct Hr as (_ & j & _ & _ & _ & ->).
  - intros [-> ->]. split; [|done]. apply intact_files with w; [done|by apply put_elsewhere|done].
  - by intros ->.
  - done.
Qed.

#[export] Instance storage_contract : Contract storage_op := {|
  demands X op := within op;
  grants X op := obtained op;
|}.

Lemma storage_op_honoured X (op : storage_op X) w x w' :
  demands op → intact w → does op w x w' → intact w' ∧ grants op x.
Proof. apply op_intact. Qed.

(** *** The writer and the completion *)

Lemma writer_abides {A} (p : Writer.prog A) : abides (of_writer p) (λ _, True).
Proof. induction p; cbn; [done|..]; (split; [done|]; auto). Qed.

Fixpoint renames {A} (from to_ : path) (p : Completion.prog A) : Prop :=
  match p with
  | Completion.Ret _ => True
  | Metadata p k => p = from ∧ ∀ r, renames from to_ (k r)
  | OpenFile p k => p = from ∧ ∀ r, renames from to_ (k r)
  | Append _ k => ∀ r, renames from to_ (k r)
  | SyncData k => ∀ r, renames from to_ (k r)
  | Rename a b k => a = from ∧ b = to_ ∧ ∀ r, renames from to_ (k r)
  end.

Lemma completion_abides {A} from to_ (p : Completion.prog A) :
  mine from → mine to_ → renames from to_ p → abides (of_completion p) (λ _, True).
Proof.
  intros Hf Ht. induction p; cbn; [done|intros [-> Hp]|intros [-> Hp]|intros Hp|intros Hp|
    intros (-> & -> & Hp)]; (split; [done|]; auto).
Qed.

Lemma renames_bind {A B} from to_ (p : Completion.prog A) (f : A → Completion.prog B) :
  renames from to_ p → (∀ a, renames from to_ (f a)) → renames from to_ (Completion.bind p f).
Proof. intros Hp Hf. induction p; cbn in *; naive_solver. Qed.

Lemma verification_renames part final total m digest seq :
  renames part final (verify_and_rename part final total m digest seq).
Proof.
  unfold verify_and_rename. split; [done|]. intros [actual|]; [|done]. case_bool; [done|].
  destruct (check_coverage _ _); [|done]. apply renames_bind.
  - split; [done|]. intros [file|]; [|done]. cbn.
    by destruct (hash_loop _ _ _ _ _) as [[[[blake h256] h512]|e]|].
  - intros [[[final_blake3 server]|]|]; [|done..]. destruct (digest_outcome _ _); [|done].
    apply renames_bind; [|done]. intros [|]; [|done]. intros [|]; [|done].
    split; [done|]. split; [done|]. by intros [].
Qed.

(** *** The sink *)

Definition own_backing (b : Backing) : Prop :=
  match b with Lengthless part => mine (pf_path part) | Journalled _ _ => True end.
Definition own_artifacts (a : Artifacts) : Prop :=
  mine (art_part_path a) ∧ ∀ journal, art_journal_path a = Some journal → mine journal.
Definition own_sink (s : StorageSink) : Prop :=
  (∀ b, ss_backing s = Some b → own_backing b) ∧ own_artifacts (ss_artifacts s).

Lemma extended_path n part r part' : extend_to part n = (r, part') → pf_path part' = pf_path part.
Proof.
  unfold extend_to. repeat case_bool; try by intros [= <- <-].
  destruct (os_set_len _ _) as [[] ?]; by intros [= <- <-].
Qed.

Lemma written_path offset bytes part r part' :
  PartFile.PartFile.write_all_at part offset bytes = (r, part') → pf_path part' = pf_path part.
Proof.
  unfold PartFile.PartFile.write_all_at, write_all_at_with. case_bool; [by intros [= <- <-]|].
  destruct (os_pwrite_all _ _ _); by intros [= <- <-].
Qed.

Lemma write_abides offset bytes now b :
  own_backing b → abides (backing_write windows offset bytes now b) (λ x, own_backing (snd x)).
Proof.
  intros Hb. destruct b as [writer intervals|part]; cbn [backing_write].
  - eapply abides_bind; [apply writer_abides|]. intros [[r writer'] intervals'] _. done.
  - destruct (checked_add64 _ _) as [end_|]; [|done].
    split; [done|]. intros [r part1] Hp1. cbn in Hp1. symmetry in Hp1.
    apply extended_path in Hp1. cbn [bind]. destruct r as [[]|e]; [|cbn; by rewrite Hp1].
    split; [cbn; by rewrite Hp1|]. intros [r part2] Hp2. cbn in Hp2. symmetry in Hp2.
    apply written_path in Hp2. cbn. by rewrite Hp2, Hp1.
Qed.

Lemma backing_sync_abides b :
  own_backing b → abides (backing_sync windows b) (λ x, own_backing (snd x)).
Proof.
  intros Hb. destruct b as [writer intervals|part]; cbn [backing_sync].
  - eapply abides_bind; [apply writer_abides|]. intros [[r writer'] intervals'] _. done.
  - split; [done|]. intros [r part1] Hp1. by injection Hp1 as _ ->.
Qed.

Lemma backing_complete_abides b part final digest :
  own_backing b → mine part → mine final →
  abides (backing_complete b part final digest) (λ x, own_backing (snd x)).
Proof.
  intros Hb Hp Hf. destruct b as [writer intervals|grown]; cbn [backing_complete].
  - case_bool; [done|]. eapply abides_bind.
    + apply (completion_abides part final); [done..|apply verification_renames].
    + intros [verdict|] _; [done|]. by split.
  - split; [done|]. intros [|] _; done.
Qed.

Lemma journal_abides p header :
  mine p → abides (create_journal windows p header) (λ _, True).
Proof.
  intros Hp. unfold create_journal. split; [done|]. intros [journal|e] _; [done|].
  destruct e; try done. split; [done|]. intros [|] _; [|done].
  split; [done|]. intros r _. done.
Qed.

Lemma create_backing_abides target journal_dir total transfer_id validator_hash :
  takes target → mine (journal_path_for journal_dir transfer_id) →
  abides (create_backing windows target journal_dir total transfer_id validator_hash)
    (λ r, ∀ b artifacts, r = Ok (b, artifacts) → own_backing b ∧ own_artifacts artifacts).
Proof.
  intros Ht Hj. unfold create_backing. destruct total as [total|]; (split; [done|]);
    (intros [part|e] Hpart; [specialize (Hpart part eq_refl)|done]).
  - cbn [bind]. cbv zeta. eapply abides_bind; [by apply journal_abides|]. intros [journal|e] _; [|done].
    intros b artifacts. destruct (map_err _ _); [|done].
    destruct (granted_map _); [|done]. intros [= <- <-]. split; [done|]. split; [done|]. by intros ? [= <-].
  - by intros b artifacts [= <- <-].
Qed.

Lemma create_abides target journal_dir total transfer_id validator_hash digest :
  takes target → mine (journal_path_for journal_dir transfer_id) →
  abides (create windows target journal_dir total transfer_id validator_hash digest)
    (λ r, ∀ s, r = Ok s → own_sink s).
Proof.
  intros Ht Hj. unfold create. eapply abides_bind; [by apply create_backing_abides|].
  intros [[b artifacts]|e] Hr; [|done]. destruct (Hr b artifacts eq_refl).
  split; [done|]. intros started _. intros s [= <-].
  split; [|done]. by intros ? [= <-].
Qed.

(** *** Its calls

    A blocking thread may rely on whatever its program establishes. *)
#[export] Instance storage_call_contract : Contract storage_call := {|
  demands X c := match c with Async op => within op | Blocking p => abides p (λ _, True) end;
  grants X c := match c in storage_call X return X → Prop with
    | Async op => obtained op
    | Blocking p => λ o, ∀ a Q, o = Some a → abides p Q → Q a
    end;
|}.

Lemma storage_call_honoured X (c : storage_call X) (w : disk) x w' :
  demands c → intact w → does c w x w' → intact w' ∧ grants c x.
Proof.
  destruct c as [X op|A p]; [by apply op_intact|]. intros Hd Hi Hx.
  assert (Hs : ∀ Q, abides p Q → intact w' ∧ ∀ a, x = Some a → Q a).
  { intros Q HQ. exact (abides_sound intact p Q _ _ _ storage_op_honoured HQ Hi Hx). }
  split; [by apply (Hs _ Hd)|]. intros a Q Ha HQ. by apply (Hs Q HQ).
Qed.

Lemma on_backing_abides {T} s (operation : Backing → prog storage_op (result T SinkError * Backing)) :
  (∀ b, own_backing b → abides (operation b) (λ x, own_backing (snd x))) → own_sink s →
  abides (on_backing s operation)
    (λ x, own_sink (snd x) ∧ ss_artifacts (snd x) = ss_artifacts s).
Proof.
  intros Hop Hs. pose proof Hs as [Hb Ha]. unfold on_backing.
  destruct (ss_backing s) as [b|]; [|done].
  specialize (Hop b (Hb b eq_refl)). split; [by eapply abides_mono|].
  intros [[r b']|] Hj; (split; [|done]); (split; [|exact Ha]); [|done].
  intros ? [= <-]. exact (Hj _ _ eq_refl Hop).
Qed.

Lemma complete_abides s final :
  own_sink s → mine final → abides (complete s final) (λ x, own_sink (snd x)).
Proof.
  intros Hs Hf. pose proof Hs as [_ [Hp _]]. unfold complete. eapply abides_bind.
  { apply on_backing_abides; [|done]. intros b Hb. by apply backing_complete_abides. }
  intros [r s'] [Hs' _]. destruct r as [sealed|e]; [|done].
  destruct (art_journal_path _) as [journal|] eqn:Ej; [|done].
  destruct Hs' as [Hb [Hp' Hj]]. split; [by apply Hj|]. intros x _. split; [exact Hb|by split].
Qed.

(** Whatever is asked of the sink, it keeps to the names of [mine]. *)
Lemma submit_abides s rq :
  own_sink s → (∀ final, rq = RqComplete final → mine final) →
  abides (submit windows s rq) (λ x, own_sink (snd x)).
Proof.
  intros Hs Hf. destruct rq as [offset bytes| |final]; cbn.
  - split; [done|]. intros clock _.
    eapply abides_mono; [apply on_backing_abides; [by intros; apply write_abides|done]|]. by intros x [].
  - eapply abides_mono; [apply on_backing_abides; [by intros; apply backing_sync_abides|done]|].
    by intros x [].
  - eapply abides_bind; [apply complete_abides; [done|by apply Hf]|]. intros [r s'] Hs'.
    done.
Qed.
End storage.

(** ** What a site keeps *)

Section memory.
Context {Url Mime : Type} {N : Type → Type} {D J : Type} `{Os} `{DurableData D} `{!DurableJournal J}.
Notation site := (site Url Mime D J).
Notation calls := (engine_call (announced Url Mime N)).

(** A site forgets nothing. *)
Definition remembers (w w' : site) : Prop := st_log w ⊆ st_log w' ∧ st_free w ⊆ st_free w'.
Lemma remembers_refl w : remembers w w.
Proof. done. Qed.
Lemma remembers_trans w1 w2 w3 : remembers w1 w2 → remembers w2 w3 → remembers w1 w3.
Proof. unfold remembers. set_solver. Qed.

Lemma site_remembers {X} (c : calls X) (w : site) x w' : does c w x w' → remembers w w'.
Proof.
  destruct c as [a|[c|c]]; cbn.
  - destruct a as [request|answer|Y e]; [intros ->|intros [-> _]|by intros ->]; split; cbn; set_solver.
  - by intros (d & _ & ->).
  - destruct c; cbn; [intros [-> _]; split; cbn; [done|]|by intros ->..].
    case_match; [done|]. case_match; set_solver.
Qed.

Lemma run_remembers {A} (p : prog calls A) (w w' : site) o : exec p w w' o → remembers w w'.
Proof.
  revert w. induction p as [a|X c k IH]; intros w; cbn; [by intros [-> _]|].
  intros [[-> _]|(x & w1 & Hd & Hx)]; [done|].
  eapply remembers_trans; [by eapply site_remembers|by eapply IH].
Qed.
End memory.

(** ** The download *)

Section download.
Context {Url Mime : Type} {N : Type → Type}.
Context `{backend : TransferProtocol Url Mime N, UrlText Url, Retry.HttpDate, EqDecision Url}.
Context `{Checksum, Digest, Os, ServerDigests}.
Context (windows : bool) (policy : Retry.RetryPolicy) (reprobe : Retry.ReprobePolicy).
Context (layout : StorageLayout) (before : directory) (mine : path → Prop).
Context (known : RemoteObject (Url := Url) (Mime := Mime) → Prop).
Notation calls := (engine_call (announced Url Mime N)).
Notation RemoteObject := (RemoteObject (Url := Url) (Mime := Mime)).
Notation Session := (Session Url Mime).

(** The names of an announced object: the journal's, and where they were free that of the file and of
    its part file. *)
Definition name_of (first : RemoteObject) (q : path) : Prop :=
  q = journal_path (journal_dir layout) (id_of first) ∨
  before q = None ∧ (q = path_of layout first ∨ part_path_for (path_of layout first) = Ok q).

(** The names of an announced object ([known]) may be used once its file's name was found free. *)
#[export] Instance calls_contract : Contract calls := {|
  demands X e :=
    match e with
    | Left_ _ => True
    | Right_ (Left_ c) => demands (Contract := storage_call_contract before mine) c
    | Right_ (Right_ (SymlinkMetadata p)) => ∃ first, known first ∧ path_of layout first = p
    | Right_ (Right_ _) => True
    end;
  grants X e :=
    match e with
    | Left_ a =>
        match a in announced _ _ _ X return X → Prop with
        | Probed answer => λ _, ∀ first, answer = Ok first → known first
        | _ => λ _, True
        end
    | Right_ (Left_ c) => grants (Contract := storage_call_contract before mine) c
    | Right_ (Right_ c) =>
        match c in host_call X return X → Prop with
        | SymlinkMetadata p => λ r, ∀ e, r = Err e → kind e = NotFound → mine p ∧
            ∀ first q, known first → path_of layout first = p → name_of first q → mine q
        | _ => λ _, True
        end
    end;
|}.
#[local] Existing Instance storage_call_contract.

Lemma stored_abides {A} (p : prog storage_call A) Q :
  abides (H := storage_call_contract before mine) p Q →
  abides (storage (N := announced Url Mime N) p) Q.
Proof. by apply abides_translate. Qed.

Definition own_session (held : Session) : Prop :=
  own_sink mine (rs_target (s_sink held)) ∧ own_artifacts mine (s_artifacts held) ∧ mine (s_final_path held).
Definition own_left (session : option Session) : Prop := ∀ held, session = Some held → own_session held.
Definition ran {E} (x : result path E * option Session) : Prop :=
  (∀ final, fst x = Ok final → mine final) ∧ own_left (snd x).

Lemma ran_err {E} (e : E) session : own_left session → ran (Err e, session).
Proof. by split. Qed.
Lemma left_none : own_left None.
Proof. by intros held. Qed.
Lemma left_some held : own_session held → own_left (Some held).
Proof. by intros Hs ? [= <-]. Qed.
#[local] Hint Resolve ran_err left_none left_some : core.

#[local] Instance target_here : SinkTarget calls StorageSink := engine_target windows.

Lemma asked_abides held sink rq :
  own_session (with_sink held sink) → (∀ final, rq = RqComplete final → mine final) →
  abides (storage (N := announced Url Mime N) (submit windows (rs_target sink) rq))
    (λ x, own_session (with_sink held (with_target sink (snd x)))).
Proof.
  intros (Hs & Ha & Hf) Hrq. apply stored_abides.
  eapply abides_mono; [by apply submit_abides|]. by intros [r t] Ht.
Qed.

Lemma accept_abides held sink bytes :
  own_session (with_sink held sink) →
  abides (accept (E := calls) sink bytes) (λ x, own_session (with_sink held (snd x))).
Proof.
  intros Hs. unfold accept. cbv zeta. case_match; [done|].
  destruct (checked_add64 _ _) as [offset|]; [|done].
  eapply abides_bind; [by apply (asked_abides held sink (RqWrite offset bytes))|].
  by intros [[[]|] t] Ht.
Qed.

Lemma feed_abides held {A} (p : prog (either N sink_op) A) sink :
  own_session (with_sink held sink) →
  abides (feed (E := calls) (λ _, Left_) (translate own_call p) sink)
    (λ x, own_session (with_sink held (snd x))).
Proof.
  revert sink. induction p as [a|X e k IH]; intros sink Hs; [exact Hs|].
  destruct e as [e|op]; [|revert k IH; destruct op as [bytes]; intros k IH]; cbn.
  - split; [done|]. intros x _. by apply IH.
  - eapply abides_bind; [by apply (accept_abides held)|]. intros [r sink'] Hs'. by apply IH.
Qed.

Lemma fetch_abides held request :
  own_session held →
  abides (fetch (H := announcing backend) windows request (s_sink held))
    (λ x, own_session (with_sink held (snd x))).
Proof. intros Hs. split; [done|]. intros [] _. apply feed_abides. by destruct held. Qed.

Lemma probe_abides url :
  abides (probe_url (H := announcing backend) url)
    (λ answer, ∀ first, answer = Ok first → known first).
Proof.
  unfold probe_url. cbn [backend_probe announcing].
  induction (backend_probe (ProbeRequest_new url)) as [answer|X e k IH]; (split; [done|]).
  - by intros [] Ha.
  - intros x _. apply IH.
Qed.

Lemma sync_abides held sink :
  own_session (with_sink held sink) →
  abides (sink_sync (E := calls) sink) (λ x, own_session (with_sink held (snd x))).
Proof. intros Hs. eapply abides_bind; [by apply (asked_abides held sink RqSync)|]. by intros [r t] Ht. Qed.

Lemma verify_abides held sink :
  own_session (with_sink held sink) →
  abides (sink_verify_and_rename (E := calls) sink (s_final_path held))
    (λ x, own_session (with_sink held (snd x))).
Proof.
  intros Hs. eapply abides_bind; [apply (asked_abides held sink (RqComplete (s_final_path held)) Hs)|].
  - intros final [= <-]. apply Hs.
  - by intros [r t] Ht.
Qed.

Lemma run_abides held request :
  own_session held → abides (run (H := announcing backend) windows held request) ran.
Proof.
  intros Hs. unfold run. cbv zeta. eapply abides_bind; [by apply fetch_abides|].
  intros [fetched sink1] Hs1. eapply abides_bind; [by apply (sync_abides held)|].
  intros [synced sink2] Hs2. destruct synced as [[]|source]; [|by apply ran_err, left_some].
  destruct fetched as [outcome|error]; [|by apply ran_err, left_some].
  case_match; [by apply ran_err, left_some|]. eapply abides_bind; [by apply (verify_abides held)|].
  intros [[[]|source] sink3] Hs3; [|by apply ran_err, left_some].
  split; [|done]. intros ? [= <-]. apply Hs.
Qed.

Lemma refresh_abides held :
  own_session held →
  abides (refresh_capabilities (H := announcing backend) held)
    (λ r, ∀ held', r = Ok held' → own_session held').
Proof.
  intros Hs. unfold refresh_capabilities. eapply abides_bind; [apply probe_abides|].
  intros [fresh|e] _; [|done]. cbv zeta. case_match; [done|]. by intros ? [= <-].
Qed.

Lemma resume_planned_abides held :
  own_session held → abides (resume_planned (H := announcing backend) windows held) ran.
Proof.
  intros Hs. unfold resume_planned. cbv zeta. destruct (if_range_value _); [by apply run_abides|].
  by apply ran_err, left_some.
Qed.

Lemma resume_abides held :
  own_session held → abides (resume (H := announcing backend) windows reprobe held) ran.
Proof.
  intros Hs. split; [done|]. intros now _. cbn [bind].
  destruct (Retry.triggers _ _); [by apply resume_planned_abides|].
  eapply abides_bind; [by apply refresh_abides|].
  intros [held'|e] Hs'; [by apply resume_planned_abides, Hs'|by apply ran_err].
Qed.

(** The file's name and its part file's are taken only when they are free. *)
Lemma start_abides url :
  abides (start_session (H := announcing backend) windows url layout)
    (λ r, ∀ held, r = Ok held → own_session held).
Proof.
  unfold start_session. eapply abides_bind; [apply probe_abides|].
  intros [remote|e] Hknown; [|done]. specialize (Hknown remote eq_refl). cbv zeta.
  fold (path_of layout remote). split; [by exists remote|].
  intros [[]|source] Hfree; [done|]. cbn [bind]. case_match eqn:Hk; [done|].
  apply negb_false_iff, bool_decide_eq_true in Hk. destruct (Hfree source eq_refl Hk) as [Hfinal Hnames].
  assert (Hname : ∀ q, name_of remote q → mine q) by (intros q; by apply Hnames).
  assert (Hcreate : abides (H := storage_contract before mine)
    (create windows (path_of layout remote) (journal_dir layout) (ro_total_length remote)
       (transfer_id_for (ro_final_url remote)) (validator_hash_of (ro_validator remote)) (ro_digest remote))
    (λ r, ∀ s, r = Ok s → own_sink mine s)).
  { apply create_abides; [intros q Hq Hb|]; apply Hname; [by right; auto|by left]. }
  split; [by eapply abides_mono|]. intros created Hc.
  destruct created as [[target|source']|]; [|done..]. intros held [= <-].
  pose proof (Hc _ _ eq_refl Hcreate target eq_refl) as Hs. split; [exact Hs|]. split; [apply Hs|done].
Qed.

Lemma attempt_abides url session :
  own_left session → abides (attempt (H := announcing backend) windows reprobe url layout session) ran.
Proof.
  intros Hs. destruct session as [held|]; cbn [attempt]; [by apply resume_abides, Hs|].
  eapply abides_bind; [apply start_abides|].
  intros [held|e] Hs'; [by apply run_abides, Hs'|by apply ran_err].
Qed.

Lemma discard_abides session :
  own_left session → abides (discard (N := announced Url Mime N) session) own_left.
Proof.
  intros Hs. unfold discard. destruct (resumable session); [done|].
  destruct session as [previous|]; [|done]. destruct (Hs previous eq_refl) as (_ & [Hp Hj] & _).
  split; [done|]. intros r _. cbn [bind]. destruct (art_journal_path _) as [journal|]; [|apply left_none].
  split; [by apply Hj|]. intros r' _. apply left_none.
Qed.

Lemma loop_abides fuel url origin retries session :
  own_left session →
  abides (download_loop (H := announcing backend) windows policy reprobe fuel url layout origin retries session)
    (λ o, ∀ final, o = Some (Ok final) → mine final).
Proof.
  revert retries session. induction fuel as [|fuel IH]; intros retries session Hs; [done|].
  cbn [download_loop]. eapply abides_bind; [by apply attempt_abides|].
  intros [[final|error] session1] [Hf Hs1]; [by intros ? [= <-]; apply Hf|].
  destruct (transient_kind_of error); [|done].
  destruct (Retry.record_failure _ _) as [failures retries1]. split; [done|]. intros [now jitter] _.
  cbn [bind]. destruct (Retry.decide _ _ _ _ _ _); [|done].
  eapply abides_bind; [by apply discard_abides|]. intros session2 Hs2. split; [done|]. intros [] _. by apply IH.
Qed.

Lemma download_abides fuel url :
  abides (download (H := announcing backend) windows policy reprobe fuel url layout)
    (λ o, ∀ final, o = Some (Ok final) → mine final).
Proof. apply loop_abides, left_none. Qed.

(** ** On the machine of a download *)

Context {D J : Type} `{DurableDataLaws D} `{!DurableJournal J} `{!DurableJournalLaws J}.
Notation site := (site Url Mime D J).

(** All that was announced is known, and the names it gave are in [mine] once found free. *)
Definition claims_within (w : site) : Prop :=
  (∀ first, Said (Ok first) ∈ st_log w → known first) ∧
  ∀ first q, known first → path_of layout first ∈ st_free w → name_of first q → mine q.

Lemma claims_before w w' : remembers w w' → claims_within w' → claims_within w.
Proof. intros [Hl Hf] [Hs Hn]. split; eauto. Qed.

Lemma found_free (w : site) p e : kind e = NotFound → p ∈ st_free (found w p (Err e)).
Proof. intros Hk. cbn. rewrite bool_decide_eq_true_2 by done. apply elem_of_app. right. by left. Qed.

Lemma site_honoured X (c : calls X) (w : site) x w' :
  claims_within w' → demands c → intact before mine (st_disk w) → does c w x w' →
  intact before mine (st_disk w') ∧ grants c x.
Proof.
  intros [Hsaid Hclaim] Hd Hi. destruct c as [a|[c|c]]; cbn.
  - destruct a as [request|answer|Y e]; [by intros ->| |by intros ->]. intros [-> _]. split; [done|].
    intros first ->. apply Hsaid, elem_of_app. right. by left.
  - intros (d & Hx & ->). by apply (storage_call_honoured before mine _ c (st_disk w)).
  - destruct c; cbn; [|by intros ->..]. intros [-> Hfree]. split; [done|]. intros e -> Hk.
    destruct Hd as (first & Hknown & <-). pose proof (found_free w (path_of layout first) e Hk) as Hin.
    split; [|intros first' q Hknown' Hpath; by apply Hclaim; [|rewrite Hpath]].
    eapply free_name; [done|by eapply Hfree|]. intros Hb. apply (Hclaim first); [done..|]. right. auto.
Qed.

(** A program that abides leaves every other name as it was. *)
Lemma abides_intact {A} (p : prog calls A) Q (w w' : site) o :
  abides p Q → claims_within w' → intact before mine (st_disk w) → exec p w w' o →
  intact before mine (st_disk w').
Proof.
  intros Hp Hann. revert w Hp. induction p as [a|X c k IH]; intros w Hp Hi; cbn; [by intros [-> _]|].
  destruct Hp as [Hd Hk]. intros [[-> _]|(x & w1 & Hx & Ho)]; [done|].
  destruct (site_honoured X c w x w1) as [Hi1 Hg]; [|done..|by eapply IH; [apply Hk|..]].
  eapply claims_before; [by eapply run_remembers|exact Hann].
Qed.
End download.

(** ** A directory in common

    A download that abides by its names cannot tell a directory it shares from one of its own that
    agrees on them, and changes no other name of it. *)
Section sharing.
Context {Url Mime : Type} {N : Type → Type} {D J : Type}.
Context `{backend : TransferProtocol Url Mime N, UrlText Url, Retry.HttpDate, EqDecision Url}.
Context `{Checksum, Digest, Os, ServerDigests} `{DurableDataLaws D} `{!DurableJournal J}
  `{!DurableJournalLaws J}.
Context (layout : StorageLayout) (mine : path → Prop).
Context (known : RemoteObject (Url := Url) (Mime := Mime) → Prop).
Notation calls := (engine_call (announced Url Mime N)).
Notation disk := (disk D J).
Notation site := (site Url Mime D J).

(** The names of [mine] are the download's whether they were free or not. *)
Definition any_name : directory := λ _, None.

Record like (w v : disk) : Prop := {
  lk_name : dk_name v = dk_name w;
  lk_data : dk_data v = dk_data w;
  lk_jpath : dk_jpath v = dk_jpath w;
  lk_journal : dk_journal v = dk_journal w;
  lk_files q : mine q → dk_files v q = dk_files w q;
  lk_owned : dk_data w = None ∨ mine (dk_name w);
}.
Definition spares (files files' : directory) : Prop := ∀ q, mine q ∨ files' q = files q.

Lemma spares_trans f1 f2 f3 : spares f1 f2 → spares f2 f3 → spares f1 f3.
Proof. intros H12 H23 q. destruct (H12 q), (H23 q); auto. right. congruence. Qed.

Lemma within_any before {X} (op : storage_op X) : within any_name mine op → within before mine op.
Proof. destruct op; cbn; try done; unfold takes; auto. Qed.

(** What an operation does to what it is given and what it leaves apart from the files. *)
Lemma op_spares {X} (op : storage_op X) (w v : disk) x w' :
  within any_name mine op → like w v → op_does op w x w' →
  spares (dk_files w) (dk_files w') ∧ (dk_data w' = None ∨ mine (dk_name w')) ∧ obtained mine op x.
Proof.
  intros Hin [_ _ _ _ _ Ho] Hd.
  destruct (op_intact (dk_files w) mine op w x w') as [[Hs Ho'] Hg]; [by apply within_any| |done|done].
  split; [by right|exact Ho].
Qed.

Lemma like_put p content (f g : directory) :
  (∀ q, mine q → g q = f q) → ∀ q, mine q → put_file p content g q = put_file p content f q.
Proof. intros Hf q Hq. unfold put_file. destruct (String.eqb q p); auto. Qed.

Lemma like_create target total (w v : disk) x w' :
  takes any_name mine target → like w v → op_does (CreatePart target total) w x w' →
  dk_data w' = None ∨ mine (dk_name w') → (∀ part, x = Ok part → mine (pf_path part)) →
  ∃ v', op_does (CreatePart target total) v x v' ∧ like w' v'.
Proof.
  intros Hin [Hn Hd Hp Hj Hf _] (opened & -> & Hx) Ho Hg. cbn [op_does].
  destruct (PartFile.PartFile.create _ _ _) as [part|e] eqn:Ep.
  - destruct Hx as (d & Hfree & Ht & ->). specialize (Hg part eq_refl). eexists. split.
    + exists opened. rewrite Ep. split; [done|]. exists d. rewrite Hf by done. done.
    + split; cbn; try done. by apply like_put.
  - destruct Hx as (files & -> & Hq). set (own q := match part_path_for target with
      | Ok p => if String.eqb q p then files q else dk_files v q
      | Err _ => dk_files v q
      end). exists (put_files v own). split.
    + exists opened. rewrite Ep. split; [done|]. exists own. split; [done|]. intros q. unfold own.
      destruct (part_path_for target) as [p|] eqn:Hpp; [|by left].
      destruct (String.eqb_spec q p) as [->|]; [|by left].
      rewrite (Hf p (Hin p Hpp eq_refl)). destruct (Hq p) as [|[]]; auto.
    + split; cbn; try done. intros q Hm. unfold own. specialize (Hq q). rewrite (Hf q Hm).
      destruct (part_path_for target) as [p|] eqn:Hpp; [|by destruct Hq as [|[_ [=]]]].
      destruct (String.eqb_spec q p) as [->|Hne]; [done|]. by destruct Hq as [|[_ [= ->]]].
Qed.

Lemma like_op {X} (op : storage_op X) (w v : disk) x w' :
  within any_name mine op → like w v → op_does op w x w' → ∃ v', op_does op v x v' ∧ like w' v'.
Proof.
  intros Hin Hl Hx. pose proof (op_spares op w v x w' Hin Hl Hx) as (_ & Ho & Hg).
  pose proof Hl as [Hn Hd Hp Hj Hf _]. destruct op; cbn [op_does obtained within] in *.
  1, 2: destruct Hx as (d & d' & Hdd & Hw & ->); exists (put_data v d');
    (split; [exists d, d'; split_and!; congruence|]); split; cbn; try done; rewrite Hn; by apply like_put.
  1, 2: destruct Hx as (j & j' & Hjj & Hw & ->); exists (put_journal v j');
    (split; [exists j, j'; split_and!; congruence|by split]).
  1, 2: destruct Hx as [Hr ->]; exists v; (split; [|by split]); split; [by rewrite Hf|done].
  - subst w'. eexists. split; [reflexivity|]. destruct Hin as [Hfrom Hto]. destruct x; [|by split].
    split; cbn; try done; [by rewrite Hn|]. intros q Hq. unfold renamed.
    destruct (String.eqb q to_), (String.eqb q from); auto.
  - subst w'. eexists. split; [reflexivity|]. destruct x; [|by split]. split; cbn; try done; [by rewrite Hp|].
    intros q Hq. unfold removed. destruct (String.eqb q p); auto.
  - by eapply like_create.
  - destruct Hx as (opened & -> & Hx). destruct (create_growable _ _) as [part|e] eqn:Ep.
    + destruct Hx as [Hfree ->]. specialize (Hg part eq_refl). eexists. split.
      * exists opened. rewrite Ep. split; [done|]. rewrite Hf by done. done.
      * split; cbn; try done. by apply like_put.
    + subst w'. exists v. split; [|by split]. exists opened. by rewrite Ep.
  - destruct Hx as (a1 & a2 & a3 & a4 & a5 & -> & Hx).
    destruct (JournalFile_create _ _ _ _ _ _ _) as [journal|e] eqn:Ej.
    + destruct Hx as (Hfree & j & Hh & Hr & Hi & ->). eexists. split.
      * exists a1, a2, a3, a4, a5. rewrite Ej. split; [done|]. rewrite Hf by done. split; [done|].
        exists j. split_and!; done.
      * by split.
    + subst w'. exists v. split; [|by split]. exists a1, a2, a3, a4, a5. by rewrite Ej.
  - destruct Hx as [-> ->]. eexists. split; [split; reflexivity|]. split; cbn; try done. by apply like_put.
  - subst w'. exists v. by split.
  - done.
Qed.

#[local] Existing Instance storage_contract.
#[local] Existing Instance storage_call_contract.
Notation op_contract := (storage_contract any_name mine).
Notation call_contract := (storage_call_contract any_name mine).
Notation engine_contract := (calls_contract layout any_name mine known).

Lemma like_exec {A} (p : prog storage_op A) Q (w v w' : disk) o :
  abides (H := op_contract) p Q → like w v → exec p w w' o →
  (∃ v', exec p v v' o ∧ like w' v') ∧ spares (dk_files w) (dk_files w') ∧ ∀ a, o = Some a → Q a.
Proof.
  revert w v. induction p as [a|X op k IH]; cbn; intros w v Hp Hl.
  - intros [-> Ho]. split; [by exists v|]. split; [by right|]. destruct Ho as [-> | ->]; [by intros ? [= <-]|done].
  - destruct Hp as [Hin Hk]. intros [[-> ->]|(x & w1 & Hx & Ho)].
    { split; [exists v; split; [by left|done]|]. split; [by right|done]. }
    destruct (op_spares op w v x w1 Hin Hl Hx) as (Hs1 & _ & Hg).
    destruct (like_op op w v x w1 Hin Hl Hx) as (v1 & Hx' & Hl1).
    destruct (IH x w1 v1 (Hk x Hg) Hl1 Ho) as ((v' & Ho' & Hl') & Hs2 & HQ).
    split; [exists v'; split; [right; by exists x, v1|done]|]. split; [by eapply spares_trans|done].
Qed.

Lemma like_call {X} (c : storage_call X) (w v : disk) x w' :
  demands (Contract := call_contract) c → like w v → does c w x w' →
  (∃ v', does c v x v' ∧ like w' v') ∧ spares (dk_files w) (dk_files w') ∧
  grants (Contract := call_contract) c x.
Proof.
  destruct c as [X op|A p]; intros Hd Hl Hx.
  - destruct (op_spares op w v x w' Hd Hl Hx) as (? & _ & ?). by split; [apply (like_op op w)|].
  - destruct (like_exec p _ w v w' x Hd Hl Hx) as (? & ? & _). do 2 (split; [done|]).
    intros a Q Ha HQ. by apply (like_exec p Q w v w' x HQ Hl Hx).
Qed.

(** The machine of the download, and one with a directory of its own. *)
Definition like_site (s t : site) : Prop :=
  like (st_disk s) (st_disk t) ∧ st_log t = st_log s ∧ st_sleeps t = st_sleeps s ∧ st_free t = st_free s.

Lemma like_engine {X} (c : calls X) (s t : site) x s' :
  claims_within layout any_name mine known s' → demands (Contract := engine_contract) c →
  like_site s t → does c s x s' →
  (∃ t', does c t x t' ∧ like_site s' t') ∧ spares (dk_files (st_disk s)) (dk_files (st_disk s')) ∧
  grants (Contract := engine_contract) c x.
Proof.
  intros [Hsaid Hclaim] Hd Hs Hx. pose proof Hs as (Hl & Hlog & Hn & Hfr).
  assert (Hsame : ∀ f, spares f f) by (intros f q; by right).
  destruct c as [a|[c|c]]; cbn in Hx.
  - destruct a as [request|answer|Y e].
    + subst s'. split; [exists (heard t (Asked request)); split; [done|]|done]. split_and!; cbn; congruence || done.
    + destruct Hx as [-> Ha]. split; [exists (heard t (Said answer))|split; [done|]].
      * split; [done|]. split_and!; cbn; congruence || done.
      * intros first ->. apply Hsaid, elem_of_app. right. by left.
    + subst s'. split; [by exists t|done].
  - destruct Hx as (w' & Hx & ->). destruct (like_call c _ _ _ _ Hd Hl Hx) as ((v' & Hx' & Hl') & Hsp & Hg).
    split; [|done]. exists (with_disk t v'). split; [by exists v'|]. by split_and!.
  - destruct c; cbn in Hx.
    + destruct Hx as [-> Hfree], Hd as (first & Hknown & <-).
      assert (Hnames : ∀ e, x = Err e → kind e = NotFound → ∀ first' q, known first' →
        path_of layout first' = path_of layout first → name_of layout any_name first' q → mine q).
      { intros e -> Hk first' q Hk' Hp. apply Hclaim; [done|]. rewrite Hp. by apply found_free. }
      assert (Hfinal : ∀ e, x = Err e → kind e = NotFound → mine (path_of layout first)).
      { intros e He Hk. apply (Hnames e He Hk first); [done..|]. right. auto. }
      split; [|split; [done|intros e He Hk; eauto]].
      exists (found t (path_of layout first) x). split; [|split_and!; cbn; try done; by rewrite Hfr].
      split; [done|]. intros e He Hk. rewrite (lk_files _ _ Hl); eauto.
    + subst s'. split; [by exists t|done].
    + subst s'. split; [by exists t|done].
    + subst s'. split; [|done]. eexists. split; [reflexivity|]. split_and!; cbn; congruence || done.
Qed.
End sharing.

(** ** Properties *)

Section properties.
Context {Url Mime : Type} {N : Type → Type} {D J : Type}.
Context `{backend : TransferProtocol Url Mime N, UrlText Url, Retry.HttpDate, EqDecision Url}.
Context `{Checksum, Digest, Os, ServerDigests} `{DurableDataLaws D} `{!DurableJournal J}
  `{!DurableJournalLaws J}.
Context (windows : bool) (policy : Retry.RetryPolicy) (reprobe : Retry.ReprobePolicy).

(** C28: A download destroys nothing.  Over any backend, with any answer of the storage, stopped
    anywhere, after any number of attempts: a file that differs from what it was before belongs to
    an object the server announced and whose name beneath the target directory the download found
    free; it is that object's recovery journal, or was not there before and has the object's name
    or that of its part file.  So whatever else the directories held is still there, with the same
    bytes, and a download that is refused its name has changed nothing. *)
Theorem downloads_destroy_nothing layout fuel url (w0 w : site Url Mime D J) o q :
  dk_data (st_disk w0) = None →
  exec (download (H := announcing backend) windows policy reprobe fuel url layout) w0 w o →
  dk_files (st_disk w) q = dk_files (st_disk w0) q ∨
  ∃ first, Said (Ok first) ∈ st_log w ∧ path_of layout first ∈ st_free w ∧
    (q = journal_path (journal_dir layout) (id_of first) ∨
     dk_files (st_disk w0) q = None ∧ (q = path_of layout first ∨ part_path_for (path_of layout first) = Ok q)).
Proof.
  intros Hfree Hx. set (before := dk_files (st_disk w0)).
  set (known first := Said (Ok first) ∈ st_log w).
  set (mine q := ∃ first, known first ∧ path_of layout first ∈ st_free w ∧ name_of layout before first q).
  assert (Hi : intact before mine (st_disk w)).
  { refine (abides_intact layout before mine known _ _ w0 w o
      (download_abides windows policy reprobe layout before mine known fuel url) _ _ Hx).
    - split; [done|]. intros first q' Hin Hfound Hq. by exists first.
    - split; [by right|by left]. }
  destruct (proj1 Hi q) as [Hq|Hq]; [right; exact Hq|by left].
Qed.
End properties.

(** ** A run *)

Module Example_footprint.
Import Io.Io Concrete MemoryOs Completion.Example_completion Download.Example_download.
#[local] Existing Instances local_backend local_text no_dates local_site.
#[local] Open Scope string_scope.

Example downloads_destroy_nothing_witness :
  dk_files d_end "a" = Some full ∧
  ∀ q, q ≠ "a" → q ≠ "a.dppart" → q ≠ jp → dk_files d_end q = dk_files d0 q.
Proof.
  split; [vm_compute; reflexivity|]. intros q Ha Hp Hj.
  destruct (downloads_destroy_nothing false Retry.default_policy Retry.default_reprobe here
    (download_fuel Retry.default_policy) 0 (at_ d0 []) (by_ d_end said) _ q eq_refl run_download)
    as [Hq|(first & Hin & _ & Hq)]; [exact Hq|].
  assert (first = remote) as ->.
  { apply elem_of_cons in Hin as [[= ->]|[[=]|[]%elem_of_nil]%elem_of_cons]. reflexivity. }
  destruct Hq as [Hq|[_ [Hq|Hq]]]; [by destruct Hj|by destruct Ha|].
  vm_compute in Hq. injection Hq as <-. by destruct Hp.
Defined.
End Example_footprint.
End Footprint.
