(* ===== verification/Worker.v ===== *)
(** * [downpour-engine/src/worker_pool.rs]: one worker and its grant

    The plan chosen from probe evidence, and a worker that fetches exactly its grant through any
    backend and hands the bytes to the writer service. *)

From S2P Require Import Prelude Intervals Allocator Io Format PartFile Writer.
From S2P Require Import WriterService Effects Sink ContentRange Remote Http Retry.
From Stdlib Require Import String.
From stdpp Require Import list.
#[local] Open Scope Z_scope.

Module Worker.
Import Io.Io Format.Format PartFile.PartFile Writer.Writer WriterService.WriterService
  Allocator.Allocator Intervals.Intervals ContentRange.ContentRange Remote.Remote Effects.Effects Sink.Sink
  Http.Http.

Inductive SingleStreamReason :=
| ProtocolNotHttp11
| BackendCannotRange
| RangeNotProven
| LengthUnknown
| InconsistentLength
| LengthUnaddressable.
#[export] Instance SingleStreamReason_eq_dec : EqDecision SingleStreamReason.
Proof. solve_decision. Defined.

Inductive PoolPlan :=
| Segmented (total_length workers : Z)
| SingleStream (reason : SingleStreamReason).
#[export] Instance PoolPlan_eq_dec : EqDecision PoolPlan.
Proof. solve_decision. Defined.

(** Times are the answers of the clock. *)
Record WorkerReport := MkWorkerReport { wr_worker : WorkerId; wr_bytes : Z; wr_elapsed : Z }.
Record PoolReport := MkPoolReport { po_plan : PoolPlan; po_workers : list WorkerReport }.

Section errors.
Context {Url : Type}.
Inductive PoolError :=
| ZeroWorkers
| WrongPlan (plan : PoolPlan)
| PoolWriter (source : WriterServiceError)
| PoolTransfer (source : TransferError Url)
| PoolSink (source : SinkError)
| WorkerJoin
| WorkerIdOverflow (index : Z)
| WriterLengthMismatch (writer_length remote_length : Z)
| InvalidOutcome (worker : WorkerId) (reason : string)
| IncompletePoolCoverage.
End errors.
Arguments PoolError Url : clear implicits.

(** ** Planning *)

Definition single (reason : SingleStreamReason) : PoolPlan := SingleStream reason.

Definition i64_max : Z := 9223372036854775807.

Section plan.
Context {Url Mime : Type} {N : Type → Type} `{TransferProtocol Url Mime N}.

Definition FixedWorkerPool_new (workers : Z) : result Z (PoolError Url) :=
  if workers =? 0 then Err ZeroWorkers else Ok workers.

Definition plan (workers : Z) (remote : RemoteObject (Url := Url) (Mime := Mime)) : PoolPlan :=
  if negb (bool_decide (ro_protocol remote = Http11)) then single ProtocolNotHttp11 else
  if negb (bc_supports_ranges backend_capabilities) then single BackendCannotRange else
  match support_total_length (ro_range_support remote) with
  | None => single RangeNotProven
  | Some proven_length =>
      match ro_total_length remote with
      | None => single LengthUnknown
      | Some total_length =>
          if negb (total_length =? proven_length) then single InconsistentLength else
          if i64_max <? total_length then single LengthUnaddressable else
          Segmented total_length workers
      end
  end.
End plan.

Definition is_complete (i : Interval) : bool := bool_decide (state i = Complete).

Definition active_grants (a : SegmentAllocator) : list Grant :=
  omap (λ interval, match state interval with
                    | InProgress worker =>
                        Some (MkGrant worker (MkRange (start interval) (end_ interval)))
                    | _ => None
                    end) (sa_list a).

(** The sum is over [u64]. *)
Definition completed_bytes_inside (a : SegmentAllocator) (grant : Range) : Z :=
  fold_left (λ sum interval,
      sum + saturating_sub64 (Z.min (end_ interval) (r_end grant))
              (Z.max (start interval) (r_start grant)))
    (List.filter is_complete (sa_list a)) 0.

Definition retryable_worker_failure {Url} (error : PoolError Url) : option Retry.TransientKind :=
  match error with
  | PoolTransfer (TransferTransport _ _) => Some Retry.ConnectionReset
  | PoolTransfer (TransferTimeout _ _) => Some Retry.Timeout
  | PoolTransfer (TruncatedBody _ _ _) => Some Retry.TruncatedBody
  | _ => None
  end.

Definition content_range_matches (content_range : option ContentRange) (range : Range)
    (total_length : Z) : bool :=
  match content_range with
  | Some (Bytes first last (Some total)) =>
      (first =? r_start range) && bool_decide (checked_add64 last 1 = Some (r_end range))
      && (total =? total_length)
  | _ => false
  end.

(** ** Calls of the writer service, and the clock *)

Inductive service_call : Type → Type :=
| AskAllocate (worker : WorkerId) : service_call (delivery AllocationReceipt)
| AskWrite (write : Command) : service_call (delivery WriteReceipt)
| AskFlush : service_call (delivery (list DurableBlock))
| AskFlushIfDue (now : Z) : service_call (delivery (list DurableBlock))
| AskAbandon (worker : WorkerId) : service_call (delivery AbandonReceipt)
| AskSnapshot : service_call (delivery WriterSnapshot)
| Clock : service_call Z.

(** [GrantWriter::write]: nothing is sent when the write is refused; the clock is read for the
    command. *)
Definition grant_write (g : GrantWriter) (bytes : list byte)
    : prog service_call (result WriteReceipt WriterServiceError * GrantWriter) :=
  Vis Clock (λ now,
    match GrantWriter_command g bytes now with
    | Ok (command, _) =>
        Vis (AskWrite command) (λ d, Ret (GrantWriter_write (λ _, d) g bytes now))
    | Err e => Ret (Err e, g)
    end).

Definition writer_service_error (offset : Z) (error : WriterServiceError) : SinkError :=
  match error with
  | WriterService.BeyondGrant start end_ grant_start grant_end =>
      BeyondGrant (wsub64 grant_end grant_start) (saturating_sub64 start grant_start)
        (saturating_sub64 end_ start)
  | Writer_ (Writer.NoSpace offset) => NoSpace offset
  | _ => SinkIo offset io_other
  end.

(** [GrantTarget]: the sink target of one grant. *)
#[export] Instance GrantTarget {N : Type → Type} : SinkTarget (either N service_call) GrantWriter := {|
  target_write_at g offset bytes :=
    if negb (offset =? gw_next_offset g) then Ret (Err (SinkIo offset io_other), g) else
    bind (translate (λ _, Right_) (grant_write g bytes)) (λ '(r, g),
      Ret (match r with Ok _ => Ok tt | Err e => Err (writer_service_error offset e) end, g));
  target_verify_and_rename g final_path := default_verify_and_rename g final_path;
  target_durable_prefix_end g := default_durable_prefix_end g;
  target_sync g :=
    Vis (Right_ AskFlush) (λ d,
      Ret (match WriterService.send d with
           | Ok _ => Ok tt
           | Err e => Err (writer_service_error (gw_next_offset g) e)
           end, g));
|}.

(** ** The worker *)

Section worker.
Context {Url Mime : Type} {N : Type → Type} `{TransferProtocol Url Mime N}.

Definition invalid_outcome (worker : WorkerId) : PoolError Url :=
  InvalidOutcome worker "ranged response did not match its exact allocator grant".

Definition run_ranged_worker (worker : WorkerId) (grant : Grant) (url : Url) (total_length : Z)
    : prog (either N service_call) (result WorkerReport (PoolError Url)) :=
  Vis (Right_ Clock) (λ started,
    let range := g_range grant in
    let expected := wsub64 (r_end range) (r_start range) in
    match checked_sub64 (r_end range) 1 with
    | None => Ret (Err (InvalidOutcome worker "allocator issued an empty range"))
    | Some last =>
        let requested := FromTo (r_start range) last in
        let sink := sink_new (writer_for grant) (r_start range) (Some expected) in
        bind (feed (E := either N service_call) (λ _, Left_) (backend_fetch_range (Mime := Mime) (ranged url requested)) sink) (λ '(r, sink),
          match r with
          | Err e => Ret (Err (PoolTransfer e))
          | Ok outcome =>
              let observed := rs_written sink in
              if negb (ro_status outcome =? 206)
                 || negb (bool_decide (ro_outcome_protocol outcome = Http11))
                 || ro_truncated outcome
                 || negb (ro_bytes_delivered outcome =? expected)
                 || negb (observed =? expected)
                 || negb (content_range_matches (ro_content_range outcome) range total_length)
              then Ret (Err (invalid_outcome worker))
              else
                bind (sink_sync (E := either N service_call) sink) (λ '(r, sink),
                  match r with
                  | Err e => Ret (Err (PoolSink e))
                  | Ok _ =>
                      Vis (Right_ Clock) (λ now,
                        Ret (Ok (MkWorkerReport worker observed (now - started))))
                  end)
          end)
    end).

(** A whole response through one sink of any target. *)
Definition execute_single {E T} `{SinkTarget E T} (net : ∀ X, N X → E X) (clock : E Z)
    (workers : Z) (remote : RemoteObject (Url := Url) (Mime := Mime)) (sink : RangeSink T)
    : prog E (result PoolReport (PoolError Url) * RangeSink T) :=
  let plan := plan workers remote in
  match plan with
  | Segmented _ _ => Ret (Err (WrongPlan plan), sink)
  | SingleStream _ =>
      Vis clock (λ started,
        bind (feed net (backend_fetch_range (Mime := Mime) (whole (ro_final_url remote))) sink) (λ '(r, sink),
          match r with
          | Err e => Ret (Err (PoolTransfer e), sink)
          | Ok outcome =>
              let written := rs_written sink in
              if negb (ro_status outcome =? 200)
                 || bool_decide (ro_content_range outcome ≠ None)
                 || ro_truncated outcome
                 || negb (ro_bytes_delivered outcome =? written)
                 || match ro_total_length remote with
                    | Some total_length => negb (total_length =? written)
                    | None => false
                    end
              then Ret (Err (InvalidOutcome (WorkerId_new 0)
                     "whole response did not match its sink or known representation length"), sink)
              else
                bind (sink_sync (E := E) sink) (λ '(r, sink),
                  match r with
                  | Err e => Ret (Err (PoolSink e), sink)
                  | Ok _ =>
                      Vis clock (λ now,
                        Ret (Ok (MkPoolReport plan
                                   [MkWorkerReport (WorkerId_new 0) written (now - started)]), sink))
                  end)
          end))
  end.
End worker.

(** ** A running service as the world

    Between any two calls of a worker the service may answer other clients; a call may find it
    gone. *)

Definition command_of {X} (c : service_call X) : option Command :=
  match c with
  | AskAllocate worker => Some (Allocate worker)
  | AskWrite command => Some command
  | AskFlush => Some Flush
  | AskFlushIfDue now => Some (FlushIfDue now)
  | AskAbandon worker => Some (Abandon worker)
  | AskSnapshot => Some Snapshot
  | Clock => None
  end.

Definition undelivered {T} (d : delivery T) : Prop := d = SendFailed ∨ d = ReceiveFailed.

(** [x] is how the reply arrives; a lost one is none. *)
Definition answers {X} (c : service_call X) : X → option Reply → Prop :=
  match c in service_call X return X → option Reply → Prop with
  | AskAllocate _ => λ d reply,
      match reply with Some reply => ∃ r, reply = Allocated r ∧ d = Replied r | None => undelivered d end
  | AskWrite _ => λ d reply,
      match reply with Some reply => ∃ r, reply = Wrote r ∧ d = Replied r | None => undelivered d end
  | AskFlush | AskFlushIfDue _ => λ d reply,
      match reply with Some reply => ∃ r, reply = Flushed r ∧ d = Replied r | None => undelivered d end
  | AskAbandon _ => λ d reply,
      match reply with Some reply => ∃ r, reply = Abandoned r ∧ d = Replied r | None => undelivered d end
  | AskSnapshot => λ d reply,
      match reply with Some reply => ∃ r, reply = Snapped r ∧ d = Replied r | None => undelivered d end
  | Clock => λ _ reply, reply = None
  end.

Section world.
Context {D J : Type} `{Checksum, Digest} `{DurableDataLaws D} `{!DurableJournal J}
  `{!DurableJournalLaws J}.
Context {Url Mime : Type} {N : Type → Type} `{!TransferProtocol Url Mime N}.
Variable windows : bool.

(** The service, and the commands this client has sent. *)
Record site := MkSite { si_state : WriterService.state D J; si_sent : list Command }.

(** What a call of the client does, once the service has answered [others], which are [among] some
    commands. *)
Inductive asked_service (among : Command → Prop) {X} (c : service_call X) (w : site) (x : X)
    : site → Prop :=
| asked_clock others s :
    served windows (si_state w) others s → Forall (λ '(command, _), among command) others →
    command_of c = None → answers c x None →
    asked_service among c w x (MkSite s (si_sent w))
| asked_lost others s command :
    served windows (si_state w) others s → Forall (λ '(command, _), among command) others →
    command_of c = Some command → answers c x None →
    asked_service among c w x (MkSite s (si_sent w ++ [command]))
| asked_answered others s command reply s' :
    served windows (si_state w) others s → Forall (λ '(command, _), among command) others →
    command_of c = Some command →
    served windows s [(command, reply)] s' → answers c x (Some reply) →
    asked_service among c w x (MkSite s' (si_sent w ++ [command])).

(** Any other commands. *)
Definition anyone (_ : Command) : Prop := True.

#[export] Instance service_world : World (either N service_call) site :=
  λ X e w x w',
    match e with
    | Left_ _ => ∃ others s, served windows (si_state w) others s ∧ w' = MkSite s (si_sent w)
    | Right_ c => asked_service anyone c w x w'
    end.

(** ** Appending to a grant *)

(** The writes sent for [grant] when its cursor is [cursor]: each at the cursor, in the grant. *)
Inductive appending (grant : Grant) : Z → list Command → Prop :=
| appending_start : appending grant (r_start (g_range grant)) []
| appending_accepted cursor sent bytes now :
    appending grant cursor sent → cursor + zlen bytes ≤ r_end (g_range grant) →
    appending grant (cursor + zlen bytes) (sent ++ [Write (g_worker grant) cursor bytes now])
| appending_refused cursor sent bytes now :
    appending grant cursor sent → cursor + zlen bytes ≤ r_end (g_range grant) →
    appending grant cursor (sent ++ [Write (g_worker grant) cursor bytes now]).

Definition granted (grant : Grant) : Prop :=
  0 ≤ r_start (g_range grant) < r_end (g_range grant) ∧ r_end (g_range grant) < u64_modulus.

Lemma appending_range grant cursor sent :
  granted grant → appending grant cursor sent →
  r_start (g_range grant) ≤ cursor ≤ r_end (g_range grant) ∧
  Forall (λ command, ∃ offset bytes now, command = Write (g_worker grant) offset bytes now ∧
    r_start (g_range grant) ≤ offset ∧ offset + zlen bytes ≤ r_end (g_range grant)) sent.
Proof.
  intros [Hg _]. induction 1 as [|cursor sent bytes now _ [IH1 IH2] Hle|cursor sent bytes now _ [IH1 IH2] Hle].
  - split; [lia|done].
  - pose proof (zlen_nonneg bytes). split; [lia|]. apply Forall_app. split; [done|].
    constructor; [|done]. exists cursor, bytes, now. split_and!; [done|lia|lia].
  - split; [lia|]. apply Forall_app. split; [done|].
    constructor; [|done]. exists cursor, bytes, now. split_and!; [done|lia|lia].
Qed.

(** The service keeps what it secured. *)
Lemma served_keeps s h s' :
  served windows s h s' → state_serving s → state_serving s' ∧ ∀ b,
    (secured (st_actor s) b → secured (st_actor s') b) ∧
    (complete_at (st_actor s) b → complete_at (st_actor s') b).
Proof.
  induction 1 as [|s h s1 command reply a d j _ IH Ha Hx]; intros Hs; [by split|].
  destruct (IH Hs) as [Hs1 Hk]. destruct (served_step _ _ _ _ _ _ _ Hs1 Ha Hx) as [Hs' Ht].
  split; [exact Hs'|]. intros b. destruct (Hk b) as [Hk1 Hk2]. cbn.
  split; intros Hb; [by apply Ht, Hk1|by apply Ht, Hk2].
Qed.

Lemma served_one s command reply s' :
  served windows s [(command, reply)] s' → state_serving s →
  state_serving s' ∧ turn (st_actor s) command reply (st_actor s').
Proof.
  intros Hh. remember [(command, reply)] as l eqn:El.
  destruct Hh as [|s h s1 command' reply' a d j Hh Ha Hx]; [done|]. intros Hs.
  destruct h as [|? [|]]; try done. injection El as -> ->.
  remember [] as l eqn:El. destruct Hh as [|s [|] s1 ? ? ? ? ? _ _ _]; [|done..].
  by eapply served_step.
Qed.

(** The sink of [grant] at [cursor] in a service that secured everything before it. *)
Record sink_at (grant : Grant) (s : RangeSink GrantWriter) (w : site) : Prop := {
  sa_serving : state_serving (si_state w);
  sa_target : gw_grant (rs_target s) = grant;
  sa_base : rs_base_offset s = r_start (g_range grant);
  sa_limit : rs_limit s = Some (r_end (g_range grant) - r_start (g_range grant));
  sa_cursor : gw_next_offset (rs_target s) = r_start (g_range grant) + rs_written s;
  sa_sent : appending grant (r_start (g_range grant) + rs_written s) (si_sent w);
  sa_secured b : r_start (g_range grant) ≤ b < r_start (g_range grant) + rs_written s →
    secured (st_actor (si_state w)) b;
}.

(** What may be sent for a grant: appends inside it, each at the cursor, and a flush behind them. *)
Definition sends_for (grant : Grant) (w : site) : Prop :=
  (∃ cursor sent, appending grant cursor sent ∧ (si_sent w = sent ∨ si_sent w = sent ++ [Flush])) ∧
  Forall (λ command, command = Flush ∨
    ∃ offset bytes now, command = Write (g_worker grant) offset bytes now ∧
      r_start (g_range grant) ≤ offset ∧ offset + zlen bytes ≤ r_end (g_range grant))
    (si_sent w).

Lemma sink_at_sends grant s w : granted grant → sink_at grant s w → sends_for grant w.
Proof.
  intros Hg [_ _ _ _ _ Hs _]. split; [by eexists _, _; split; [|left]|].
  apply appending_range in Hs as [_ Hs]; [|done]. eapply Forall_impl; [exact Hs|]. auto.
Qed.

Lemma sink_at_others grant s w others s' :
  sink_at grant s w → served windows (si_state w) others s' →
  sink_at grant s (MkSite s' (si_sent w)).
Proof.
  intros [Hs Ht Hb Hl Hc Hse Hsec] Hh. destruct (served_keeps _ _ _ Hh Hs) as [Hs' Hk].
  split; try done. intros b Hb'. by apply Hk, Hsec.
Qed.

(** One answered command, with what it does exactly. *)
Lemma served_inv s command reply s' :
  served windows s [(command, reply)] s' →
  command_args command ∧ Writer.exec (st_data s) (st_journal s) (handle windows (st_actor s) command)
    (st_data s') (st_journal s') (Some (reply, st_actor s')).
Proof.
  intros Hh. remember [(command, reply)] as l eqn:El.
  destruct Hh as [|s h s1 command' reply' a d j Hh Ha Hx]; [done|].
  destruct h as [|? [|]]; try done. injection El as -> ->.
  remember [] as l eqn:El. by destruct Hh as [|s [|] s1 ? ? ? ? ? _ _ _].
Qed.

Lemma write_served s worker offset bytes now receipt s' :
  state_serving s →
  served windows s [(Write worker offset bytes now, Wrote (Ok receipt))] s' →
  wr_range receipt = MkRange offset (offset + zlen bytes).
Proof.
  intros Hs [Ha Hx]%served_inv. apply handle_effect in Hx; [|done..].
  by destruct Hx as (_ & _ & _ & _ & _ & _ & ? & _).
Qed.

(** What a write that is sent comes to. *)
Lemma write_answered grant s w bytes now d w' :
  sink_at grant s w → rs_written s + zlen bytes ≤ r_end (g_range grant) - r_start (g_range grant) →
  let cursor := r_start (g_range grant) + rs_written s in
  asked_service anyone (AskWrite (Write (g_worker grant) cursor bytes now)) w d w' →
  match WriterService.send d with
  | Err _ => sink_at grant s w'
  | Ok _ =>
      sink_at grant
        (MkSink (MkGrantWriter grant (cursor + zlen bytes)) (rs_base_offset s)
           (rs_written s + zlen bytes) (rs_limit s)) w'
  end.
Proof.
  intros Hat Hfit. cbv zeta. pose proof Hat as [Hs Ht Hb Hl Hc Hse Hsec].
  assert (Hlost : ∀ s', state_serving s' →
    (∀ b, secured (st_actor (si_state w)) b → secured (st_actor s') b) →
    sink_at grant s (MkSite s' (si_sent w ++
      [Write (g_worker grant) (r_start (g_range grant) + rs_written s) bytes now]))).
  { intros s' Hs' Hk. split; try done; [|by intros b Hb'; apply Hk, Hsec].
    apply appending_refused; [done|lia]. }
  intros [| others s1 command Hh _ E Hd|others s1 command reply s' Hh _ E Hone Hd]; [done|..];
    injection E as <-; destruct (served_keeps _ _ _ Hh Hs) as [Hs1 Hk1].
  - destruct Hd as [-> | ->]; cbn; (apply Hlost; [done|apply Hk1]).
  - destruct Hd as (r & -> & ->). destruct (served_one _ _ _ _ Hone Hs1) as [Hs' Ht'].
    assert (Hk : ∀ b, secured (st_actor (si_state w)) b → secured (st_actor s') b)
      by (intros b Hb'; by apply Ht', Hk1).
    destruct r as [receipt|e]; cbn [WriterService.send]; [|by apply Hlost].
    pose proof (write_served _ _ _ _ _ _ _ Hs1 Hone) as Hr. split; cbn; try done.
    + lia.
    + rewrite Z.add_assoc. apply appending_accepted; [done|lia].
    + intros b Hb'. destruct (decide (b < r_start (g_range grant) + rs_written s)); [by apply Hk, Hsec; lia|].
      apply (tn_accepts _ _ _ _ Ht'). cbn. rewrite Hr. unfold in_range. cbn. lia.
Qed.

Lemma command_spec g bytes now command end_ :
  GrantWriter_command g bytes now = Ok (command, end_) →
  command = Write (g_worker (gw_grant g)) (gw_next_offset g) bytes now ∧
  end_ = gw_next_offset g + zlen bytes ∧ end_ ≤ r_end (g_range (gw_grant g)).
Proof.
  unfold GrantWriter_command. destruct (_ <? zlen bytes); [done|].
  destruct (checked_add64 _ _) as [en|] eqn:Een; cbn [ok_or]; [|done].
  apply checked_add64_Some in Een as [-> _].
  destruct (Z.ltb_spec (r_end (g_range (gw_grant g))) (gw_next_offset g + zlen bytes)); [done|].
  by intros [= <- <-].
Qed.

Lemma accept_wp grant s w bytes :
  granted grant → sink_at grant s w →
  wp (accept (E := either N service_call) s bytes) (λ '(_, s') w', sink_at grant s' w')
    (sends_for grant) w.
Proof.
  intros Hg Hat. pose proof Hat as [Hs Ht Hb Hl Hc Hse Hsec].
  pose proof (sink_at_sends _ _ _ Hg Hat) as Hstop. pose proof (zlen_nonneg bytes).
  destruct (appending_range _ _ _ Hg Hse) as [Hcur _]. destruct Hg as [[Hg0 Hg1] Hg2].
  unfold accept. rewrite Hl. cbv zeta.
  destruct (Z.ltb_spec (r_end (g_range grant) - r_start (g_range grant))
              (saturating_add64 (rs_written s) (zlen bytes))) as [_|_].
  { by apply prog_ret. }
  assert (Hoff : checked_add64 (rs_base_offset s) (rs_written s) =
    Some (r_start (g_range grant) + rs_written s)) by (rewrite Hb; apply checked_add64_Some; lia).
  rewrite Hoff. cbn [target_write_at GrantTarget]. rewrite Hc, Z.eqb_refl. cbn [negb].
  apply prog_bind, prog_bind. cbn [grant_write translate]. apply prog_vis; [done|].
  intros now w1 Hclock. assert (Hat1 : sink_at grant s w1).
  { destruct Hclock as [others s1 Hh _ _ _| |]; [|done..]. by eapply sink_at_others. }
  pose proof (sink_at_sends _ _ _ (conj (conj Hg0 Hg1) Hg2) Hat1) as Hstop1.
  assert (Hsame : with_target s (rs_target s) = s) by by destruct s.
  destruct (GrantWriter_command (rs_target s) bytes now) as [[command end_]|e] eqn:Ec; cbn [translate].
  2: { repeat (apply prog_ret; [done|]). by rewrite Hsame. }
  destruct (command_spec _ _ _ _ _ Ec) as (-> & -> & Hend). rewrite Ht, Hc in Hend |- *.
  apply prog_vis; [done|]. intros d w2 Hd.
  pose proof (write_answered grant s w1 bytes now d w2 Hat1 ltac:(lia) Hd) as Hat2.
  cbn [translate]. unfold GrantWriter_write. rewrite Ec, Ht, Hc. destruct (WriterService.send d).
  - repeat (apply prog_ret; [by eapply sink_at_sends|]).
    unfold saturating_add64. rewrite Z.min_l by ulia. by rewrite Hl in Hat2.
  - repeat (apply prog_ret; [by eapply sink_at_sends|]). by rewrite Hsame.
Qed.

Lemma clock_step {A} (k : Z → prog (either N service_call) A) Q (S : site → Prop) w :
  S w → (∀ now others s, served windows (si_state w) others s → wp (k now) Q S (MkSite s (si_sent w))) →
  wp (Vis (Right_ Clock) k) Q S w.
Proof.
  intros HS Hk. apply prog_vis; [done|]. intros now w' [others s Hh _ _ _| |]; [by eapply Hk|done..].
Qed.

(** A flush that succeeds leaves nothing staged. *)
Lemma flush_answered w d w' :
  state_serving (si_state w) → asked_service anyone AskFlush w d w' →
  state_serving (si_state w') ∧ si_sent w' = si_sent w ++ [Flush] ∧
  ∀ durable, WriterService.send d = Ok durable →
    ∀ b, secured (st_actor (si_state w)) b → complete_at (st_actor (si_state w')) b.
Proof.
  intros Hs [| others s1 command Hh _ E Hd|others s1 command reply s' Hh _ E Hone Hd]; [done|..];
    injection E as <-; destruct (served_keeps _ _ _ Hh Hs) as [Hs1 Hk1]; cbn.
  - split; [done|]. split; [done|]. by destruct Hd as [-> | ->].
  - destruct Hd as (r & -> & ->). destruct (served_one _ _ _ _ Hone Hs1) as [Hs' Ht].
    split; [done|]. split; [done|]. intros durable Hr b Hb. cbn in Hr. subst r.
    destruct (tn_secured _ _ _ _ Ht b) as [|Hst]; [by apply Hk1|done|].
    unfold staged_at in Hst. rewrite (tn_fences _ _ _ _ Ht I) in Hst. by apply Exists_nil in Hst.
Qed.

Lemma checked_sub64_1 n : 1 ≤ n → checked_sub64 n 1 = Some (n - 1).
Proof. intros. by apply checked_sub64_Some. Qed.

(** What a worker may say, and what is then the case. *)
Definition worker_result (grant : Grant) (w : site)
    (r : result WorkerReport (PoolError Url)) : Prop :=
  match r with
  | Ok report =>
      wr_worker report = g_worker grant ∧
      wr_bytes report = r_end (g_range grant) - r_start (g_range grant) ∧
      (∀ b, in_range (g_range grant) b → complete_at (st_actor (si_state w)) b) ∧
      ∃ sent, si_sent w = sent ++ [Flush] ∧ appending grant (r_end (g_range grant)) sent
  | Err _ => True
  end.

Lemma sends_flush grant s w w' :
  granted grant → sink_at grant s w → si_sent w' = si_sent w ++ [Flush] → sends_for grant w'.
Proof.
  intros Hg Hat E. pose proof (sink_at_sends _ _ _ Hg Hat) as [_ Hall].
  destruct Hat as [_ _ _ _ _ Hs _]. split; [by eexists _, _; split; [|right]|].
  rewrite E. apply Forall_app. split; [done|]. constructor; [by left|done].
Qed.

(** After the backend returned: the checks, the flush and the report. *)
Lemma worker_ends grant s w started :
  granted grant → sink_at grant s w →
  rs_written s = r_end (g_range grant) - r_start (g_range grant) →
  wp (bind (sink_sync (E := either N service_call) s) (λ '(r, sink),
        match r with
        | Err e => Ret (Err (PoolSink e))
        | Ok _ =>
            Vis (Right_ Clock) (λ now,
              Ret (Ok (MkWorkerReport (g_worker grant) (rs_written s) (now - started))))
        end))
    (λ r w, worker_result grant w r) (sends_for grant) w.
Proof.
  intros Hg Hat Hall. pose proof (sink_at_sends _ _ _ Hg Hat) as Hstop. pose proof Hat as Hat0.
  destruct Hat as [Hs _ _ _ _ Hsent Hsec]. apply prog_bind, prog_bind.
  cbn [target_sync GrantTarget]. apply prog_vis; [done|]. intros d w1 Hd.
  destruct (flush_answered w d w1 Hs Hd) as (Hs1 & E1 & Hf).
  pose proof (sends_flush _ _ _ _ Hg Hat0 E1) as Hstop1.
  repeat (apply prog_ret; [done|]). destruct (WriterService.send d) as [durable|e];
    [|by apply prog_ret].
  apply clock_step; [done|]. intros now others s' Hh.
  destruct (served_keeps _ _ _ Hh Hs1) as [_ Hk]. apply prog_ret; [done|]. cbn.
  split_and!; [done|done| |].
  - intros b Hb. apply Hk, (Hf durable eq_refl), Hsec. unfold in_range in Hb. lia.
  - exists (si_sent w). split; [done|]. rewrite Hall in Hsent.
    by replace (r_end (g_range grant)) with
      (r_start (g_range grant) + (r_end (g_range grant) - r_start (g_range grant))) by lia.
Qed.

Lemma worker_wp grant url total_length w :
  granted grant → state_serving (si_state w) → si_sent w = [] →
  wp (run_ranged_worker (Mime := Mime) (g_worker grant) grant url total_length)
    (λ r w, worker_result grant w r) (sends_for grant) w.
Proof.
  intros Hg Hs E. pose proof Hg as [[Hg0 Hg1] Hg2]. unfold run_ranged_worker.
  apply clock_step.
  { unfold sends_for. rewrite E. split; [|done]. eexists _, []. split; [constructor|by left]. }
  intros started others s1 Hh. destruct (served_keeps _ _ _ Hh Hs) as [Hs1 _]. cbv zeta.
  rewrite checked_sub64_1 by lia. rewrite wsub64_small by ulia. apply prog_bind.
  eapply prog_mono;
    [apply (feed_wp (λ _, Left_) (sink_at grant) (sends_for grant))| |done].
  - intros s w'. by apply sink_at_sends.
  - intros s w' X n x w2 Hat (others' & s2 & Hh' & ->). by eapply sink_at_others.
  - intros s w' bytes. by apply accept_wp.
  - split; cbn; try done; [lia| |lia]. rewrite E, Z.add_0_r. constructor.
  - intros [[outcome|e] sink] w2 Hat Hstop2; [|by apply prog_ret].
    destruct (_ || _) eqn:Ec; [by apply prog_ret|].
    rewrite !orb_false_iff in Ec. destruct Ec as [[_ Hw%negb_false_iff%Z.eqb_eq] _].
    by apply worker_ends.
Qed.

(** C23: A worker delivers exactly its grant (I-1, I-2).  Run a worker for a grant, over any
    protocol backend — one that ignores the range, appends too much or too little, or lies about
    it — with other clients of the service in between, and stop it anywhere.  Everything it sent
    to the service was an append for its own identity inside the grant, each at the cursor (where the
    one before it ended, or where it began if it was refused), or one flush behind them.  If it reports success, it reports the length of its grant, the appends it sent cover
    the grant in order, and every byte of it is complete in the service: durable and proven. *)
Theorem worker_delivers_its_grant grant url total_length s0 s h w o :
  granted grant → started s0 → served windows s0 h s →
  exec (run_ranged_worker (Mime := Mime) (g_worker grant) grant url total_length)
    (MkSite s []) w o →
  sends_for grant w ∧ match o with Some r => worker_result grant w r | None => True end.
Proof.
  intros Hg Hs0 Hh Hx.
  assert (Hs : state_serving s) by (eapply served_serving; [done|by apply started_serving]).
  eapply prog_sound in Hx; [|eapply prog_mono;
    [by apply worker_wp|intros r w' Hr Hst; exact (conj Hst Hr)|done]].
  by destruct o.
Qed.
End world.
Arguments site D J : clear implicits.
Arguments MkSite {D J}.

(** ** A run *)

Module Example_worker.
Import Replay.Replay Concrete MemoryOs Example_run Example_service.

(** A backend without a network: it appends the block and says what a server would. *)
Definition no_net (X : Type) : Type := False.
Definition outcome : RangeOutcome := Http.MkOutcome 4 206 (Some (Bytes 0 3 (Some 8))) Http11 false.
#[local] Instance local_backend : TransferProtocol Z Z no_net := {|
  backend_probe url := Ret (Err (NeedsRefresh (pr_url url) 401));
  backend_fetch_range request :=
    Vis (Right_ (Accept block)) (λ r,
      Ret (match r with Ok _ => Ok outcome | Err e => Err (TransferSink (rr_url request) e) end));
  backend_capabilities := MkCapabilities "local" [Http11] false true;
|}.

Definition first_half : Grant := MkGrant w1 (MkRange 0 4).
Definition allocated : WriterService.state PartDisk JournalDisk := MkState actor1 part0 journal0.
Definition written : WriterService.state PartDisk JournalDisk := MkState actor2 part1 journal0.
Definition flushed : WriterService.state PartDisk JournalDisk := MkState actor3 part2 journal2.
Definition done_site : site PartDisk JournalDisk := MkSite flushed [Write w1 0 block 5; Flush].
Definition report : WorkerReport := MkWorkerReport w1 4 2.

Lemma flush_run :
  Writer.exec part1 journal0 (handle false actor2 Flush) part2 journal2
    (Some (List.nth 2 replies (Wrote (Err CursorOverflow)), actor3)).
Proof.
  eapply (exec_data_sync _ _ _ (Ok tt) part2); [by exists memory|].
  eapply (exec_append _ _ _ _ (Ok tt) journal1).
  { exists (Ok tt), 0%nat, (journal header [record]). split; vm_compute; reflexivity. }
  eapply (exec_journal_sync _ _ _ (Ok tt) journal2); [|apply exec_ret].
  exists (Ok tt), 131%nat. split_and!; [done|vm_compute; lia|vm_compute; lia|].
  vm_compute. reflexivity.
Qed.

#[local] Instance local_world : World (either no_net service_call) (site PartDisk JournalDisk) :=
  service_world false.
Definition program : prog (either no_net service_call) (result WorkerReport (PoolError Z)) :=
  run_ranged_worker (Mime := Z) w1 first_half 0 8.

Lemma clock_run sent s n :
  does (Right_ Clock) (MkSite s sent : site PartDisk JournalDisk) n (MkSite s sent).
Proof.
  exact (asked_clock false anyone Clock (MkSite s sent) n [] s (served_nil _ _) (Forall_nil_2 _)
           eq_refl eq_refl).
Qed.

Lemma worker_run : exec program (MkSite allocated []) done_site (Some (Ok report)).
Proof.
  eapply exec_call with (x := 3); [apply clock_run|].
  eapply exec_call with (x := 5); [apply clock_run|].
  eapply exec_call with (x := Replied (Ok (MkWriteReceipt (MkRange 0 4) []))).
  { apply (asked_answered false anyone (AskWrite (Write w1 0 block 5)) (MkSite allocated []) _ [] allocated
      (Write w1 0 block 5) (Wrote (Ok (MkWriteReceipt (MkRange 0 4) []))) written);
      [constructor|constructor|done| |by eexists].
    apply (served_snoc false allocated [] allocated); [constructor|done|exact run_write]. }
  eapply exec_call with (x := Replied (Ok [MkDurable 0 (MkRange 0 4) w1 (blake3 block)])).
  { apply (asked_answered false anyone AskFlush (MkSite written [Write w1 0 block 5]) _ [] written Flush
      (Flushed (Ok [MkDurable 0 (MkRange 0 4) w1 (blake3 block)])) flushed);
      [constructor|constructor|done| |by eexists].
    apply (served_snoc false written [] written); [constructor|done|exact flush_run]. }
  eapply exec_call with (x := 5); [apply clock_run|].
  vm_compute. split; [reflexivity|by left].
Qed.

Example worker_delivers_its_grant_witness :
  sends_for first_half done_site ∧ worker_result (Url := Z) first_half done_site (Ok report).
Proof.
  apply (worker_delivers_its_grant (Mime := Z) false first_half 0 8 state0 allocated
    [(Allocate w1, List.nth 0 replies (Wrote (Err CursorOverflow)))] done_site (Some (Ok report)));
    [by vm_compute|exact state0_started|exact served_allocate|exact worker_run].
Defined.
End Example_worker.

End Worker.
