(* ===== verification/Pool.v ===== *)
(** * [downpour-engine/src/worker_pool.rs]: the fixed worker pool

    The loop that allocates grants, runs one task per grant, drains them to move work to an idle
    worker, retries transient failures and returns everything after a failure. *)

From S2P Require Import Prelude Intervals Allocator Io Format PartFile Writer.
From S2P Require Import WriterService Effects Sink ContentRange Remote Http Retry Worker.
From Stdlib Require Import String.
From stdpp Require Import list.
#[local] Open Scope Z_scope.

Module Pool.
Import Io.Io Format.Format PartFile.PartFile Writer.Writer WriterService.WriterService
  ContentRange.ContentRange Remote.Remote Effects.Effects Sink.Sink Http.Http Allocator.Allocator
  Intervals.Intervals Worker.Worker.

(** ** [BTreeMap<WorkerId, V>]: associations in the order of their keys *)

Section btree.
Context {V : Type}.
Implicit Types m : list (WorkerId * V).

Fixpoint btree_insert (k : WorkerId) (v : V) m : list (WorkerId * V) :=
  match m with
  | [] => [(k, v)]
  | (k', v') :: m' =>
      if WorkerId_get k <? WorkerId_get k' then (k, v) :: m
      else if WorkerId_get k =? WorkerId_get k' then (k, v) :: m'
      else (k', v') :: btree_insert k v m'
  end.

Definition btree_get (k : WorkerId) m : option V :=
  option_map snd (List.find (λ '(k', _), bool_decide (k' = k)) m).
Definition btree_remove (k : WorkerId) m : list (WorkerId * V) :=
  List.filter (λ '(k', _), negb (bool_decide (k' = k))) m.
End btree.

Record RunningWorker := MkRunning { rw_cancel : bool; rw_grant : Grant; rw_started : Z }.

Section pool.
Context {Url Mime : Type} {N : Type → Type} `{TransferProtocol Url Mime N, Retry.HttpDate}.

Inductive WorkerEvent :=
| Finished (worker : WorkerId) (r : result WorkerReport (PoolError Url))
| Cancelled (worker : WorkerId).

(** What a joined task was: its event, or its panic or abortion. *)
Inductive joined := JoinOk (event : WorkerEvent) | JoinErr.

(** ** Calls of the runtime

    Tasks are spawned, cancelled, aborted and joined; [Select] waits for a task or the ticker. *)
Inductive selected := Joined (j : option joined) | Ticked (now : Z).
Inductive task_call : Type → Type :=
| Spawn (grant : Grant) : task_call unit
| Cancel (worker : WorkerId) : task_call unit
| AbortAll : task_call unit
| IsEmpty : task_call bool
| JoinNext : task_call (option joined)
| FirstTick : task_call unit
| Select : task_call selected
| Sleep (delay : Z) : task_call unit
| Jitter : task_call (Z * Z)
| StillRunning : task_call Empty_set.

Definition pool_call : Type → Type := either service_call task_call.

(** A command and its reply, as [.await?] sees them. *)
Definition ask {T} (c : service_call (delivery T)) : prog pool_call (result T (PoolError Url)) :=
  Vis (Left_ c) (λ d, Ret (map_err PoolWriter (WriterService.send d))).
Definition task {X} (c : task_call X) : prog pool_call X := call (Right_ c).
Definition clock : prog pool_call Z := call (Left_ Clock).
Definition still_running {A} : prog pool_call A :=
  Vis (Right_ StillRunning) (λ x, Empty_set_rect (λ _, prog pool_call A) x).

(** ** The state of the loop *)

Record pool := MkPool {
  p_running : list (WorkerId * RunningWorker);
  p_reports : list WorkerReport;
  p_candidate_idle : option WorkerId;
  p_draining : bool;
  p_cancelled_attempts : list RunningWorker;
  p_transient_failures : Z;
}.

Definition with_running (p : pool) (running : list (WorkerId * RunningWorker)) : pool :=
  MkPool running (p_reports p) (p_candidate_idle p) (p_draining p) (p_cancelled_attempts p)
    (p_transient_failures p).

Definition spawn_ranged_worker (p : pool) (grant : Grant) : prog pool_call pool :=
  let! started := clock in
  let! _ := task (Spawn grant) in
  Ret (with_running p (btree_insert (g_worker grant) (MkRunning true grant started) (p_running p))).

Fixpoint spawn_all (p : pool) (grants : list Grant) : prog pool_call pool :=
  match grants with
  | [] => Ret p
  | grant :: grants => let! p := spawn_ranged_worker p grant in spawn_all p grants
  end.

(** Sending on every channel that is still there. *)
Fixpoint cancel_all (running : list (WorkerId * RunningWorker))
    : prog pool_call (list (WorkerId * RunningWorker)) :=
  match running with
  | [] => Ret []
  | (worker, active) :: running =>
      let! _ := if rw_cancel active then task (Cancel worker) else Ret tt in
      let! rest := cancel_all running in
      Ret ((worker, MkRunning false (rw_grant active) (rw_started active)) :: rest)
  end.

(** ** The first grants *)

Fixpoint allocate_grants (workers : nat) (index : Z) (grants : list (WorkerId * Grant))
    : prog pool_call (result (list (WorkerId * Grant)) (PoolError Url)) :=
  match workers with
  | O => Ret (Ok grants)
  | S workers =>
      let worker := WorkerId_new index in
      let!? receipt := ask (AskAllocate worker) in
      match ar_allocation receipt with
      | None => Ret (Ok grants)
      | Some allocation =>
          let grants :=
            match a_shortened allocation with
            | Some shortened => btree_insert (g_worker shortened) shortened grants
            | None => grants
            end in
          allocate_grants workers (index + 1)
            (btree_insert worker (a_grant allocation) grants)
      end
  end.

Definition ensure_writer_identity (remote_length : Z)
    : prog pool_call (result unit (PoolError Url)) :=
  let!? snapshot := ask AskSnapshot in
  let writer_length :=
    match last (sa_list (ws_allocator snapshot)) with Some i => end_ i | None => 0 end in
  if negb (writer_length =? remote_length)
  then Ret (Err (WriterLengthMismatch writer_length remote_length)) else Ret (Ok tt).

(** ** Failure *)

Fixpoint drain_tasks (fuel : nat) : prog pool_call unit :=
  match fuel with
  | O => still_running
  | S fuel =>
      let! j := task JoinNext in
      match j with Some _ => drain_tasks fuel | None => Ret tt end
  end.

Fixpoint abandon_all (workers : list WorkerId) : prog pool_call (result unit (PoolError Url)) :=
  match workers with
  | [] => Ret (Ok tt)
  | worker :: workers => let!? _ := ask (AskAbandon worker) in abandon_all workers
  end.

Definition reclaim_after_failure (fuel : nat) (workers : list WorkerId)
    : prog pool_call (result unit (PoolError Url)) :=
  let! _ := task AbortAll in
  let! _ := drain_tasks fuel in
  abandon_all workers.

(** Reclaim, then fail. *)
Definition fail_after {A} (fuel : nat) (workers : list WorkerId) (e : PoolError Url)
    : prog pool_call (result A (PoolError Url)) :=
  let!? _ := reclaim_after_failure fuel workers in
  Ret (Err e).

(** ** The loop *)

Definition all_complete (a : SegmentAllocator) : bool := forallb is_complete (sa_list a).

(** What the cancelled attempts completed of their grants. *)
Fixpoint report_attempts (a : SegmentAllocator) (attempts : list RunningWorker)
    : prog pool_call (list WorkerReport) :=
  match attempts with
  | [] => Ret []
  | attempt :: attempts =>
      let bytes := completed_bytes_inside a (g_range (rw_grant attempt)) in
      if 0 <? bytes then
        let! now := clock in
        let! rest := report_attempts a attempts in
        Ret (MkWorkerReport (g_worker (rw_grant attempt)) bytes (now - rw_started attempt) :: rest)
      else report_attempts a attempts
  end.

Inductive flow := Break | Continue | Wait.

(** With no task left: everything is complete, or the idle worker gets work, or the drained grants
    run again. *)
Definition drained (p : pool) : prog pool_call (result (flow * pool) (PoolError Url)) :=
  let!? _ := ask AskFlush in
  let!? snapshot := ask AskSnapshot in
  let! attempts := report_attempts (ws_allocator snapshot) (p_cancelled_attempts p) in
  let p := MkPool (p_running p) (p_reports p ++ attempts) (p_candidate_idle p) (p_draining p) []
             (p_transient_failures p) in
  if all_complete (ws_allocator snapshot) then Ret (Ok (Break, p)) else
  match p_candidate_idle p with
  | None => Ret (Err IncompletePoolCoverage)
  | Some idle =>
      let p := MkPool (p_running p) (p_reports p) None false [] (p_transient_failures p) in
      let!? receipt := ask (AskAllocate idle) in
      match ar_allocation receipt with
      | Some allocation =>
          let! p := spawn_ranged_worker p (a_grant allocation) in
          Ret (Ok (Continue, p))
      | None =>
          let!? snapshot := ask AskSnapshot in
          let! p := spawn_all p (active_grants (ws_allocator snapshot)) in
          let! empty := task IsEmpty in
          if empty then Ret (Err IncompletePoolCoverage) else Ret (Ok (Wait, p))
      end
  end.

Definition worker_finished (p : pool) (worker : WorkerId) (report : WorkerReport)
    : prog pool_call (result pool (PoolError Url)) :=
  let running := btree_remove worker (p_running p) in
  let idle := match p_candidate_idle p with Some idle => idle | None => worker end in
  let p := MkPool running (p_reports p ++ [report]) (Some idle) (p_draining p)
             (p_cancelled_attempts p) (p_transient_failures p) in
  if bool_decide (running ≠ []) && negb (p_draining p) then
    let! running := cancel_all running in
    Ret (Ok (MkPool running (p_reports p) (p_candidate_idle p) true (p_cancelled_attempts p)
               (p_transient_failures p)))
  else Ret (Ok p).

Definition worker_failed (fuel : nat) (workers : list WorkerId) (p : pool) (worker : WorkerId)
    (error : PoolError Url) : prog pool_call (result pool (PoolError Url)) :=
  match btree_get worker (p_running p) with
  | None => fail_after fuel workers IncompletePoolCoverage
  | Some attempt =>
      let running := btree_remove worker (p_running p) in
      match retryable_worker_failure error with
      | None => fail_after fuel workers error
      | Some kind =>
          let! '(now, jitter) := task Jitter in
          match Retry.decide Retry.default_policy kind (p_transient_failures p) None now jitter with
          | Retry.GiveUp => fail_after fuel workers error
          | Retry.RetryAfter delay =>
              let!? _ := ask (AskAbandon worker) in
              let! running := cancel_all running in
              let! _ := task (Sleep delay) in
              Ret (Ok (MkPool running (p_reports p) (Some worker) true
                         (p_cancelled_attempts p ++ [attempt])
                         (saturating_add32 (p_transient_failures p) 1)))
          end
      end
  end.

Definition worker_joined (fuel : nat) (workers : list WorkerId) (p : pool) (j : option joined)
    : prog pool_call (result pool (PoolError Url)) :=
  match j with
  | None => fail_after fuel workers IncompletePoolCoverage
  | Some (JoinOk (Finished worker (Ok report))) => worker_finished p worker report
  | Some (JoinOk (Finished worker (Err error))) => worker_failed fuel workers p worker error
  | Some (JoinOk (Cancelled worker)) =>
      match btree_get worker (p_running p) with
      | None => fail_after fuel workers IncompletePoolCoverage
      | Some attempt =>
          Ret (Ok (MkPool (btree_remove worker (p_running p)) (p_reports p) (p_candidate_idle p)
                     (p_draining p) (p_cancelled_attempts p ++ [attempt])
                     (p_transient_failures p)))
      end
  | Some JoinErr => fail_after fuel workers WorkerJoin
  end.

(** One turn after another, for [fuel] of them. *)
Fixpoint pool_loop (fuel : nat) (workers : list WorkerId) (p : pool)
    : prog pool_call (result pool (PoolError Url)) :=
  match fuel with
  | O => still_running
  | S fuel =>
      let! empty := task IsEmpty in
      let!? step := if (empty : bool) then drained p else Ret (Ok (Wait, p)) in
      let '(flow, p) := step in
      match flow with
      | Break => Ret (Ok p)
      | Continue => pool_loop fuel workers p
      | Wait =>
          let! selected := task Select in
          let!? p :=
            match selected with
            | Joined j => worker_joined fuel workers p j
            | Ticked now => let!? _ := ask (AskFlushIfDue now) in Ret (Ok p)
            end in
          pool_loop fuel workers p
      end
  end.

(** Stable sorting by worker. *)
Fixpoint insert_report (r : WorkerReport) (l : list WorkerReport) : list WorkerReport :=
  match l with
  | [] => [r]
  | r' :: l' =>
      if WorkerId_get (wr_worker r) <? WorkerId_get (wr_worker r') then r :: l
      else r' :: insert_report r l'
  end.
Definition sort_reports (l : list WorkerReport) : list WorkerReport :=
  fold_left (λ sorted r, insert_report r sorted) l [].

Definition execute_segmented (fuel : nat) (workers : Z)
    (remote : RemoteObject (Url := Url) (Mime := Mime))
    : prog pool_call (result PoolReport (PoolError Url)) :=
  let plan := plan workers remote in
  match plan with
  | SingleStream _ => Ret (Err (WrongPlan plan))
  | Segmented total_length workers =>
      let!? _ := ensure_writer_identity total_length in
      let!? grants := allocate_grants (Z.to_nat workers) 0 [] in
      if bool_decide (grants = []) then Ret (Err IncompletePoolCoverage) else
      let allocated_workers := map fst grants in
      let! p := spawn_all (MkPool [] [] None false [] 0) (map snd grants) in
      let! _ := task FirstTick in
      let!? p := pool_loop fuel allocated_workers p in
      let!? _ := ask AskFlush in
      let!? snapshot := ask AskSnapshot in
      if negb (all_complete (ws_allocator snapshot)) then Ret (Err IncompletePoolCoverage) else
      Ret (Ok (MkPoolReport plan (sort_reports (p_reports p))))
  end.

(** ** The runtime and the service as the world *)

Definition join_step (j : option joined) (jobs jobs' : list WorkerId) : Prop :=
  match j with
  | None => jobs = [] ∧ jobs' = []
  | Some j => ∃ l1 worker l2, jobs = l1 ++ worker :: l2 ∧ jobs' = l1 ++ l2 ∧
      match j with
      | JoinOk (Finished worker' _) | JoinOk (Cancelled worker') => worker' = worker
      | JoinErr => True
      end
  end.

(** What a call does to the tasks that are not joined yet. *)
Definition task_step {X} (t : task_call X) : X → list WorkerId → list WorkerId → Prop :=
  match t in task_call X return X → list WorkerId → list WorkerId → Prop with
  | Spawn grant => λ _ jobs jobs', jobs' = jobs ++ [g_worker grant]
  | IsEmpty => λ empty jobs jobs', jobs' = jobs ∧ empty = bool_decide (jobs = [])
  | JoinNext => λ j jobs jobs', join_step j jobs jobs'
  | Select => λ selected jobs jobs',
      match selected with Joined j => join_step j jobs jobs' | Ticked _ => jobs' = jobs end
  | _ => λ _ jobs jobs', jobs' = jobs
  end.

(** The commands of tasks, also of those that were aborted with a command on its way. *)
Definition task_command (command : Command) : Prop :=
  match command with Write _ _ _ _ | Flush => True | _ => False end.

Section world.
Context {D J : Type} `{Checksum, Digest} `{DurableDataLaws D} `{!DurableJournal J}
  `{!DurableJournalLaws J}.
Variable windows : bool.

(** The service, the unjoined tasks, the tasks there were at each allocation, and how often the
    pool slept. *)
Record floor := MkFloor {
  fl_site : site D J;
  fl_jobs : list WorkerId;
  fl_allocations : list (list WorkerId);
  fl_sleeps : Z;
}.
Definition fl_actor (w : floor) : StateActor := st_actor (si_state (fl_site w)).

Definition floor_step {X} (e : pool_call X) (w : floor) (x : X) (w' : floor) : Prop :=
  match e with
  | Left_ c => λ x,
      asked_service windows task_command c (fl_site w) x (fl_site w') ∧
      fl_jobs w' = fl_jobs w ∧ fl_sleeps w' = fl_sleeps w ∧
      fl_allocations w' = fl_allocations w ++
        match command_of c with Some (Allocate _) => [fl_jobs w] | _ => [] end
  | Right_ t => λ x,
      (∃ others s, served windows (si_state (fl_site w)) others s ∧
         Forall (λ '(command, _), task_command command) others ∧
         fl_site w' = MkSite s (si_sent (fl_site w))) ∧
      task_step t x (fl_jobs w) (fl_jobs w') ∧ fl_allocations w' = fl_allocations w ∧
      fl_sleeps w' = fl_sleeps w + match t with Sleep _ => 1 | _ => 0 end
  end x.
#[export] Instance floor_world : World pool_call floor := λ X, floor_step (X := X).

(** ** What the pool keeps *)

Definition owns (w : floor) (worker : WorkerId) (b : Z) : Prop :=
  state_at (actor_map (fl_actor w)) b = Some (InProgress worker).
Definition fl_length (w : floor) : Z := total_length (actor_map (fl_actor w)).

(** The pool's own workers are numbered from 0. *)
Definition staffed (size : Z) (worker : WorkerId) : Prop := 0 ≤ WorkerId_get worker < size.

Section team.
Variable size : Z.

(** Only the workers of [team] run or own anything; no allocation while a task runs; no more waiting than
    the policy allows. *)
Record orderly (team : list WorkerId) (total failures : Z) (w : floor) : Prop := {
  od_serving : state_serving (si_state (fl_site w));
  od_owned worker b : owns w worker b → worker ∈ team;
  od_jobs worker : worker ∈ fl_jobs w → worker ∈ team;
  od_length : fl_length w = total;
  od_allocations : Forall (λ jobs, jobs = []) (fl_allocations w);
  od_sleeps : fl_sleeps w = failures;
  od_bound : 0 ≤ failures ≤ Retry.max_retries Retry.default_policy;
  od_team worker : worker ∈ team → staffed size worker;
}.
Definition orderly_stop (w : floor) : Prop := ∃ team total failures, orderly team total failures w.

Lemma orderly_stops team total failures w : orderly team total failures w → orderly_stop w.
Proof. intros Hw. by exists team, total, failures. Qed.

Lemma orderly_sub team team' total failures w :
  orderly team total failures w → (∀ worker, worker ∈ team → worker ∈ team') →
  (∀ worker, worker ∈ team' → staffed size worker) → orderly team' total failures w.
Proof. intros [Hs Ho Hj Ht Ha Hsl Hb _] Hsub Hst. split; eauto. Qed.

(** No new owner. *)
Definition disowns (w w' : floor) : Prop := ∀ worker b, owns w' worker b → owns w worker b.

Lemma served_owners s h s' :
  served windows s h s' → state_serving s →
  total_length (actor_map (st_actor s')) = total_length (actor_map (st_actor s)) ∧
  (Forall (λ '(command, _), ∀ worker, command ≠ Allocate worker) h →
   ∀ b worker, state_at (actor_map (st_actor s')) b = Some (InProgress worker) →
     state_at (actor_map (st_actor s)) b = Some (InProgress worker)).
Proof.
  induction 1 as [|s h s1 command reply a d j Hh IH Ha Hx]; intros Hs; [done|].
  destruct (IH Hs) as [Ht Hown]. destruct (served_keeps _ _ _ _ Hh Hs) as [Hs1 _].
  apply handle_effect, effect_owners in Hx as [Ht' Hnew _]; [|done..].
  split; [cbn; congruence|]. intros [Hn Hc]%Forall_app b worker Hb.
  apply Forall_cons in Hc as [Hc _]. apply Hown; [done|].
  destruct (Hnew b worker Hb) as [|E]; [done|]. by destruct (Hc worker).
Qed.

Lemma task_commands others :
  Forall (λ '(command, _), task_command command) others →
  Forall (λ '(command, reply), ∀ worker, command ≠ Allocate worker) (others : history).
Proof. intros Ho. eapply Forall_impl; [exact Ho|]. by intros [command reply] Hc worker ->. Qed.

(** One command, with the owners it leaves. *)
Lemma served_one_owners s command reply s' :
  state_serving s → served windows s [(command, reply)] s' →
  state_serving s' ∧ owners (st_actor s) command reply (st_actor s') ∧
  effect (st_actor s) command (st_data s) (st_journal s) reply (st_actor s') (st_data s') (st_journal s').
Proof.
  intros Hs Hh. destruct (served_one _ _ _ _ _ Hh Hs) as [Hs' _]. split; [done|].
  apply served_inv in Hh as [Ha Hx]. pose proof (handle_effect _ _ _ _ _ _ _ _ _ Hs Ha Hx) as He.
  split; [by eapply effect_owners|done].
Qed.

Lemma others_step w others s :
  state_serving (si_state (fl_site w)) → served windows (si_state (fl_site w)) others s →
  Forall (λ '(command, _), task_command command) others →
  state_serving s ∧ total_length (actor_map (st_actor s)) = fl_length w ∧
  ∀ b worker, state_at (actor_map (st_actor s)) b = Some (InProgress worker) → owns w worker b.
Proof.
  intros Hs Hh Ho. destruct (served_owners _ _ _ Hh Hs) as [Ht Hown].
  split; [by destruct (served_keeps _ _ _ _ Hh Hs)|]. split; [done|]. by apply Hown, task_commands.
Qed.

(** A call of the service. *)
Lemma service_step {X} (c : service_call X) team total failures w x w' :
  orderly team total failures w → floor_step (Left_ c) w x w' →
  (∀ worker, command_of c = Some (Allocate worker) → fl_jobs w = [] ∧ worker ∈ team) →
  orderly team total failures w' ∧ fl_jobs w' = fl_jobs w ∧
  ((∀ worker, command_of c ≠ Some (Allocate worker)) → disowns w w').
Proof.
  intros [Hs Howned Hjobs Ht Ha Hsl Hbound Hstaff] (Hask & Hj & Hsl' & Ha') Hidle.
  assert (Halloc : Forall (λ jobs, jobs = []) (fl_allocations w')).
  { rewrite Ha'. apply Forall_app. split; [done|].
    destruct (command_of c) as [[]|] eqn:E; try constructor; [by eapply Hidle|done]. }
  assert (Hdone : ∀ s sent, fl_site w' = MkSite s sent → state_serving s →
    total_length (actor_map (st_actor s)) = total →
    (∀ worker b, state_at (actor_map (st_actor s)) b = Some (InProgress worker) →
       owns w worker b ∨ command_of c = Some (Allocate worker)) →
    orderly team total failures w' ∧ fl_jobs w' = fl_jobs w ∧
    ((∀ worker, command_of c ≠ Some (Allocate worker)) → disowns w w')).
  { intros s sent E Hs' Ht' Hown. split; [|split; [done|]].
    - split; rewrite ?E; try done; try congruence.
      + intros worker b Hb. unfold owns, fl_actor in Hb. rewrite E in Hb.
        destruct (Hown worker b Hb); [by eapply Howned|by apply Hidle].
      + rewrite Hj. done.
      + unfold fl_length, fl_actor. by rewrite E.
    - intros Hna worker b Hb. unfold owns, fl_actor in Hb. rewrite E in Hb.
      destruct (Hown worker b Hb) as [|E']; [done|by destruct (Hna worker)]. }
  remember (fl_site w') as site' eqn:E. symmetry in E.
  destruct Hask as [others s Hh Ho Ec _|others s command Hh Ho Ec _|others s command reply s' Hh Ho Ec Hone _];
    destruct (others_step _ _ _ Hs Hh Ho) as (Hs1 & Ht1 & Hown1).
  1, 2: eapply Hdone; [done..|congruence|by intros worker b Hb; left; apply Hown1].
  destruct (served_one_owners _ _ _ _ Hs1 Hone) as (Hs2 & [Hlen Hnew _] & _).
  eapply Hdone; [done..|congruence|]. intros worker b Hb.
  destruct (Hnew b worker Hb) as [|E']; [left; by apply Hown1|right; by rewrite Ec, E'].
Qed.

Lemma abandon_step worker team total failures w d w' receipt :
  orderly team total failures w → floor_step (Left_ (AskAbandon worker)) w d w' →
  WriterService.send d = Ok receipt → ∀ b, ¬ owns w' worker b.
Proof.
  intros [Hs _ _ _ _ _ _ _] (Hask & _) Hd b Hb. unfold owns, fl_actor in Hb.
  destruct Hask as [|others s command Hh Ho Ec Hlost|others s command reply s' Hh Ho Ec Hone Hrep]; [done|..].
  - by destruct Hlost as [-> | ->].
  - injection Ec as <-. destruct Hrep as (r & -> & ->). cbn in Hd. subst r.
    destruct (others_step _ _ _ Hs Hh Ho) as (Hs1 & _).
    destruct (served_one_owners _ _ _ _ Hs1 Hone) as (_ & [_ _ Hnone] & _). by eapply Hnone.
Qed.

Lemma snapshot_step team total failures w d w' snapshot :
  orderly team total failures w → floor_step (Left_ AskSnapshot) w d w' →
  WriterService.send d = Ok snapshot → ws_allocator snapshot = allocator (fl_actor w').
Proof.
  intros [Hs _ _ _ _ _ _ _] (Hask & _) Hd. unfold fl_actor.
  destruct Hask as [|others s command Hh Ho Ec Hlost|others s command reply s' Hh Ho Ec Hone Hrep]; [done|..].
  - by destruct Hlost as [-> | ->].
  - injection Ec as <-. destruct Hrep as (r & -> & ->). cbn in Hd. subst r.
    destruct (others_step _ _ _ Hs Hh Ho) as (Hs1 & _).
    destruct (served_one_owners _ _ _ _ Hs1 Hone) as (_ & _ & He). cbn in He.
    destruct He as ([= ->] & E & _). cbn. by rewrite E.
Qed.

Lemma join_step_jobs j jobs jobs' worker : join_step j jobs jobs' → worker ∈ jobs' → worker ∈ jobs.
Proof.
  destruct j as [j|]; cbn; [|by intros [_ ->] ?%elem_of_nil].
  intros (l1 & worker' & l2 & -> & -> & _). rewrite !elem_of_app, elem_of_cons. tauto.
Qed.

Lemma task_step_jobs {X} (t : task_call X) x (jobs jobs' team : list WorkerId) (worker : WorkerId) :
  task_step t x jobs jobs' → (∀ worker, worker ∈ jobs → worker ∈ team) →
  match t with Spawn grant => g_worker grant ∈ team | _ => True end →
  worker ∈ jobs' → worker ∈ team.
Proof.
  intros Ht Hj Hs Hw. destruct t; cbn in Ht; try (subst jobs'; by apply Hj).
  - subst jobs'. apply elem_of_app in Hw as [Hw|Hw%list_elem_of_singleton]; [by apply Hj|by subst].
  - destruct Ht as [-> _]. by apply Hj.
  - by eapply Hj, join_step_jobs.
  - destruct x as [j|now]; [by eapply Hj, join_step_jobs|subst jobs'; by apply Hj].
Qed.

(** A call of the runtime; sleeping needs the budget. *)
Definition naps {X} (t : task_call X) : Z := match t with Sleep _ => 1 | _ => 0 end.
Lemma runtime_step {X} (t : task_call X) team total failures w x w' :
  orderly team total failures w → floor_step (Right_ t) w x w' →
  failures + naps t ≤ Retry.max_retries Retry.default_policy →
  match t with Spawn grant => g_worker grant ∈ team | _ => True end →
  orderly team total (failures + naps t) w' ∧ task_step t x (fl_jobs w) (fl_jobs w').
Proof.
  intros [Hs Howned Hjobs Ht Ha Hsl Hbound Hstaff] ((others & s & Hh & Ho & E) & Hj & Ha' & Hsl') Hn Hspawn.
  destruct (others_step _ _ _ Hs Hh Ho) as (Hs1 & Ht1 & Hown1).
  assert (0 ≤ naps t) by by destruct t. split; [|done].
  split; rewrite ?E; [done| | | |by rewrite Ha'|unfold naps; lia|lia|done].
  - intros worker b Hb'. eapply Howned, Hown1. unfold owns, fl_actor in Hb'. by rewrite E in Hb'.
  - intros worker Hw. by eapply (task_step_jobs t x (fl_jobs w)).
  - unfold fl_length, fl_actor. rewrite E. cbn. congruence.
Qed.

(** ** Rules *)

Lemma ask_then {T A} (c : service_call (delivery T)) (k : T → prog pool_call (result A (PoolError Url)))
    team total failures w Q :
  orderly team total failures w →
  (∀ worker, command_of c = Some (Allocate worker) → fl_jobs w = [] ∧ worker ∈ team) →
  (∀ e w', orderly team total failures w' → Q (Err (PoolWriter e)) w') →
  (∀ d x w', floor_step (Left_ c) w d w' → WriterService.send d = Ok x →
     orderly team total failures w' → fl_jobs w' = fl_jobs w →
     ((∀ worker, command_of c ≠ Some (Allocate worker)) → disowns w w') →
     wp (k x) Q orderly_stop w') →
  wp (let!? x := ask c in k x) Q orderly_stop w.
Proof.
  intros Hw Hidle He Hk. pose proof (orderly_stops _ _ _ _ Hw) as Hstop.
  apply prog_bind. apply prog_vis; [done|]. intros d w' Hd.
  destruct (service_step _ _ _ _ _ _ _ Hw Hd Hidle) as (Hw' & Hj & Hdis).
  pose proof (orderly_stops _ _ _ _ Hw') as Hstop'. apply prog_ret; [done|].
  destruct (WriterService.send d) as [x|e] eqn:E; cbn [map_err].
  - by eapply Hk.
  - apply prog_ret; [done|]. by apply He.
Qed.

Lemma nap_then {X A} (t : task_call X) (k : X → prog pool_call A) team total failures w Q :
  orderly team total failures w → failures + naps t ≤ Retry.max_retries Retry.default_policy →
  match t with Spawn grant => g_worker grant ∈ team | _ => True end →
  (∀ x w', task_step t x (fl_jobs w) (fl_jobs w') → orderly team total (failures + naps t) w' →
     wp (k x) Q orderly_stop w') →
  wp (let! x := task t in k x) Q orderly_stop w.
Proof.
  intros Hw Hn Hs Hk. pose proof (orderly_stops _ _ _ _ Hw) as Hstop.
  apply prog_bind. apply prog_vis; [done|]. intros x w' Hd.
  destruct (runtime_step _ _ _ _ _ _ _ Hw Hd Hn Hs) as (Hw' & Ht).
  apply prog_ret; [by eapply orderly_stops|]. by apply Hk.
Qed.

Lemma task_then {X A} (t : task_call X) (k : X → prog pool_call A) team total failures w Q :
  naps t = 0 → orderly team total failures w →
  match t with Spawn grant => g_worker grant ∈ team | _ => True end →
  (∀ x w', task_step t x (fl_jobs w) (fl_jobs w') → orderly team total failures w' →
     wp (k x) Q orderly_stop w') →
  wp (let! x := task t in k x) Q orderly_stop w.
Proof.
  intros Hn Hw Hs Hk.
  eapply nap_then; [done|rewrite Hn, Z.add_0_r; by destruct Hw as [_ _ _ _ _ _ [_ ?] _]|done|].
  intros x w' Ht Hw'. rewrite Hn, Z.add_0_r in Hw'. by apply Hk.
Qed.

Lemma clock_then {A} (k : Z → prog pool_call A) team total failures w Q :
  orderly team total failures w →
  (∀ now w', orderly team total failures w' → fl_jobs w' = fl_jobs w → wp (k now) Q orderly_stop w') →
  wp (let! now := clock in k now) Q orderly_stop w.
Proof.
  intros Hw Hk. pose proof (orderly_stops _ _ _ _ Hw) as Hstop.
  apply prog_bind. apply prog_vis; [done|]. intros now w' Hd.
  destruct (service_step _ _ _ _ _ _ _ Hw Hd ltac:(done)) as (Hw' & Hj & _).
  apply prog_ret; [by eapply orderly_stops|]. by apply Hk.
Qed.

Lemma return_wp {A} (a : A) (Q : A → floor → Prop) team total failures w :
  orderly team total failures w → Q a w → wp (Ret a) Q orderly_stop w.
Proof. intros Hw HQ. apply prog_ret; [by eapply orderly_stops|done]. Qed.

Lemma then_wp {A B} (p : prog pool_call A) (f : A → prog pool_call B) (P : A → floor → Prop) Q w :
  wp p P orderly_stop w → (∀ a w, P a w → wp (f a) Q orderly_stop w) →
  wp (bind p f) Q orderly_stop w.
Proof. intros Hp Hf. apply prog_bind. eapply prog_mono; [done| |done]. intros a w' HP _. by apply Hf. Qed.

(** ** The state of the loop *)

(** The program's part of what the pool keeps. *)
Definition kept (team : list WorkerId) (total : Z) (p : pool) (w : floor) : Prop :=
  orderly team total (p_transient_failures p) w ∧
  ∀ idle, p_candidate_idle p = Some idle → idle ∈ team.

Lemma spawn_wp p grant team total w :
  kept team total p w → g_worker grant ∈ team →
  wp (spawn_ranged_worker p grant) (kept team total) orderly_stop w.
Proof.
  intros [Hw Hi] Hg. eapply clock_then; [done|]. intros now w1 Hw1 _.
  eapply task_then; [done..|]. intros [] w2 _ Hw2. by eapply return_wp.
Qed.

Lemma spawn_all_wp grants p team total w :
  kept team total p w → Forall (λ grant, g_worker grant ∈ team) grants →
  wp (spawn_all p grants) (kept team total) orderly_stop w.
Proof.
  revert p w. induction grants as [|grant grants IH]; intros p w Hp Hg.
  { eapply return_wp; [by destruct Hp|done]. }
  apply Forall_cons in Hg as [Hg Hgs].
  eapply then_wp; [by apply spawn_wp|]. intros p1 w1 Hp1. by apply IH.
Qed.

Lemma cancel_all_wp running team total failures w :
  orderly team total failures w →
  wp (cancel_all running) (λ _ w', orderly team total failures w') orderly_stop w.
Proof.
  revert w. induction running as [|[worker active] running IH]; intros w Hw; [by eapply return_wp|].
  cbn [cancel_all].
  assert (Hrest : ∀ w, orderly team total failures w →
    wp (let! rest := cancel_all running in
        Ret ((worker, MkRunning false (rw_grant active) (rw_started active)) :: rest))
      (λ _ w', orderly team total failures w') orderly_stop w).
  { intros w1 Hw1. eapply then_wp; [by apply IH|]. intros rest w2 Hw2. cbv beta in Hw2.
    by eapply return_wp. }
  destruct (rw_cancel active); [|by apply Hrest].
  eapply task_then; [done..|]. intros [] w1 _ Hw1. by apply Hrest.
Qed.

Lemma report_attempts_wp a attempts team total failures w :
  orderly team total failures w →
  wp (report_attempts a attempts) (λ _ w', orderly team total failures w' ∧ fl_jobs w' = fl_jobs w)
    orderly_stop w.
Proof.
  revert w. induction attempts as [|attempt attempts IH]; intros w Hw; [by eapply return_wp|].
  cbn [report_attempts]. destruct (_ <? _); [|by apply IH].
  eapply clock_then; [done|]. intros now w1 Hw1 Hj.
  eapply then_wp; [by apply IH|]. intros rest w2 [Hw2 Hj2]. eapply return_wp; [done|].
  split; [done|congruence].
Qed.

(** ** Failure *)

(** No task runs and nothing is in progress. *)
Definition released (w : floor) : Prop := fl_jobs w = [] ∧ ∀ worker b, ¬ owns w worker b.

Definition freed (workers : list WorkerId) (w : floor) : Prop :=
  fl_jobs w = [] ∧ ∀ worker b, worker ∈ workers → ¬ owns w worker b.

Lemma drain_tasks_wp fuel team total failures w :
  orderly team total failures w →
  wp (drain_tasks fuel) (λ _ w', orderly team total failures w' ∧ fl_jobs w' = []) orderly_stop w.
Proof.
  revert w. induction fuel as [|fuel IH]; intros w Hw; cbn [drain_tasks].
  { apply prog_vis; [by eapply orderly_stops|by intros []]. }
  eapply task_then; [done..|]. intros j w1 Hj Hw1. destruct j as [j|]; [by apply IH|].
  eapply return_wp; [done|]. split; [done|]. by destruct Hj.
Qed.

Lemma abandon_all_wp workers done_ team total failures w :
  orderly team total failures w → freed done_ w →
  wp (abandon_all workers)
    (λ r w', orderly team total failures w' ∧
       match r with Ok _ => freed (workers ++ done_) w' | Err e => ∃ e', e = PoolWriter e' end)
    orderly_stop w.
Proof.
  revert done_ w. induction workers as [|worker workers IH]; intros done_ w Hw [Hj Hf];
    cbn [abandon_all]; [by eapply return_wp|].
  eapply ask_then; [done|done|intros e w' Hw'; by eauto|]. intros d receipt w1 Hd Hs Hw1 Hj1 Hdis.
  eapply prog_mono; [apply (IH (worker :: done_)); [done|]| |done].
  - split; [congruence|]. intros x b [->|Hx]%elem_of_cons.
    + exact (abandon_step _ _ _ _ _ _ _ _ Hw Hd Hs b).
    + intros Hb. apply (Hf x b Hx). by apply Hdis.
  - intros r w2 [Hw2 Hr] _. split; [done|]. destruct r; [|done]. destruct Hr as [? Hn]. split; [done|].
    intros x b Hx. apply Hn. rewrite elem_of_app, elem_of_cons.
    rewrite elem_of_app, elem_of_cons in Hx. tauto.
Qed.

(** Where an error leaves the pool.  Everything is given back unless the service refused the pool a
    command, or coverage was found incomplete with no task left to wait for. *)
Definition failure (e : PoolError Url) (w : floor) : Prop :=
  match e with
  | PoolWriter _ => True
  | IncompletePoolCoverage => fl_jobs w = []
  | _ => released w
  end.
Lemma released_failure e w : released w → failure e w.
Proof. intros Hr. destruct e; try done. by destruct Hr. Qed.

Definition failed (total : Z) (e : PoolError Url) (w : floor) : Prop :=
  (∃ team failures, orderly team total failures w) ∧ failure e w.

Definition looped (team : list WorkerId) (total : Z) (r : result pool (PoolError Url)) (w : floor)
    : Prop :=
  match r with Ok p => kept team total p w | Err e => failed total e w end.

Lemma failed_writer team total e failures w :
  orderly team total failures w → failed total (PoolWriter e) w.
Proof. intros Hw. split; [by eexists _, _|done]. Qed.

Lemma failed_incomplete team total failures w :
  orderly team total failures w → fl_jobs w = [] → failed total IncompletePoolCoverage w.
Proof. intros Hw Hj. split; [by eexists _, _|done]. Qed.

Lemma fail_after_wp fuel team e total failures w :
  orderly team total failures w →
  wp (fail_after (A := pool) fuel team e) (looped team total) orderly_stop w.
Proof.
  intros Hw. unfold fail_after, reclaim_after_failure. apply prog_bind.
  eapply task_then; [done..|]. intros [] w1 _ Hw1.
  eapply then_wp; [by apply drain_tasks_wp|]. intros [] w2 [Hw2 Hj].
  eapply prog_mono; [apply (abandon_all_wp team []); [done|]| |done].
  { split; [done|]. by intros worker b ?%elem_of_nil. }
  intros [[]|e'] w3 [Hw3 Hr] _; (eapply return_wp; [done|]); (split; [by eexists _, _|]).
  - rewrite app_nil_r in Hr. destruct Hr as [Hj3 Hr].
    assert (released w3).
    { split; [done|]. intros worker b Hb. apply (Hr worker b); [|done]. by eapply od_owned. }
    by apply released_failure.
  - by destruct Hr as [? ->].
Qed.

(** ** The loop *)

Lemma orderly_wf team total failures w :
  orderly team total failures w → wf (actor_map (fl_actor w)).
Proof. by intros [[_ (Hwf & _) _] _ _ _ _ _ _ _]. Qed.

Lemma active_grants_owned team total failures w :
  orderly team total failures w →
  Forall (λ grant, g_worker grant ∈ team) (active_grants (allocator (fl_actor w))).
Proof.
  intros Hw. pose proof (orderly_wf _ _ _ _ Hw) as (_ & Ht & _). apply Forall_forall. intros grant Hg.
  apply list_elem_of_omap in Hg as (i & Hi & Hg). destruct (state i) as [|worker|] eqn:E; try done.
  injection Hg as <-. apply (od_owned _ _ _ _ Hw worker (start i)).
  destruct (tiles_bounds _ _ _ _ Ht Hi) as (? & ? & ?).
  unfold owns, state_at. rewrite <- E. eapply state_in_elem; [done|done|lia].
Qed.

Lemma all_complete_covers a b :
  wf (sa_intervals a) → all_complete a = true → 0 ≤ b < total_length (sa_intervals a) →
  state_at (sa_intervals a) b = Some Complete.
Proof.
  intros (_ & Ht & _) Hall Hb. destruct (state_in_is_Some _ _ _ _ Ht Hb) as [s Hs].
  unfold state_at. rewrite Hs. apply state_in_inv in Hs as (i & Hi & _ & <-).
  unfold all_complete in Hall. rewrite forallb_forall in Hall.
  specialize (Hall i (proj1 (list_elem_of_In _ _) Hi)). unfold is_complete in Hall.
  by apply bool_decide_eq_true in Hall as ->.
Qed.

(** A split leaves its source something. *)
Lemma allocated_shortened a worker al a' :
  wf_alloc a → allocate a worker = (Ok (Some al), a') →
  g_worker (a_grant al) = worker ∧
  match a_shortened al with
  | Some shortened => ∃ b, a_state_at a' b = Some (InProgress (g_worker shortened))
  | None => True
  end.
Proof.
  intros Ha Hal. pose proof (allocate_spec a worker Ha) as Hsp. rewrite Hal in Hsp.
  destruct Hsp as (_ & _ & _ & _ & Hworker & Hst & Hsp). split; [done|].
  destruct Hsp as [(i & _ & _ & ->)|(_ & i & source & (Hi & _) & E & _ & Hrange & -> & Hmin & _)]; [done|].
  pose proof Ha as ((_ & Ht & _) & Hpos & _). exists (start i). rewrite Hst, Hrange.
  destruct (tiles_bounds _ _ _ _ Ht Hi) as (? & ? & ?).
  rewrite bool_decide_eq_false_2 by (unfold in_range; cbn; lia). cbn. rewrite <- E.
  eapply state_in_elem; [done|done|lia].
Qed.

(** What an answered allocation grants. *)
Lemma allocate_step worker team total failures w d w' receipt :
  orderly team total failures w → floor_step (Left_ (AskAllocate worker)) w d w' →
  WriterService.send d = Ok receipt →
  match ar_allocation receipt with
  | Some allocation => g_worker (a_grant allocation) = worker ∧
      match a_shortened allocation with
      | Some shortened => ∃ b, owns w' (g_worker shortened) b
      | None => True
      end
  | None => disowns w w'
  end.
Proof.
  intros [Hs _ _ _ _ _ _ _] (Hask & _) Hd. unfold disowns, owns, fl_actor.
  destruct Hask as [|others s command Hh Ho Ec Hlost|others s command reply s' Hh Ho Ec Hone Hrep]; [done|..].
  { by destruct Hlost as [-> | ->]. }
  injection Ec as <-. destruct Hrep as (r & -> & ->). cbn in Hd. subst r.
  destruct (others_step _ _ _ Hs Hh Ho) as (Hs1 & _ & Hown1).
  destruct (served_one_owners _ _ _ _ Hs1 Hone) as (_ & _ & He). cbn [effect] in He.
  destruct He as (_ & a1 & Hf & _ & Ha1 & Hal & _).
  pose proof (allocate_spec (allocator a1) worker Ha1) as Hsp. rewrite Hal in Hsp.
  destruct (ar_allocation receipt) as [allocation|]; [by eapply allocated_shortened|].
  destruct Hsp as (E & _). cbn. intros x b Hb. apply Hown1.
  apply only_completes_fenced in Hf. apply (only_completes_owned _ _ _ _ Hf).
  unfold actor_map in *. by rewrite <- E.
Qed.

Lemma drained_wp p team total w :
  kept team total p w → fl_jobs w = [] →
  wp (drained p)
    (λ r w', match r with
             | Ok (flow, p) => kept team total p w' ∧ (flow = Break → fl_jobs w' = [])
             | Err e => failed total e w'
             end)
    orderly_stop w.
Proof.
  intros [Hw Hidle] Hj. unfold drained.
  eapply ask_then; [done|done|intros e w' Hw'; by eapply failed_writer|].
  intros _ _ w1 _ _ Hw1 Hj1 _.
  eapply ask_then; [done|done|intros e w' Hw'; by eapply failed_writer|].
  intros _ snapshot w2 _ _ Hw2 Hj2 _.
  eapply then_wp; [by apply report_attempts_wp|]. intros attempts w3 [Hw3 Hj3].
  destruct (all_complete _); [by eapply return_wp; [|split; [split|congruence]]|].
  cbn [p_candidate_idle]. destruct (p_candidate_idle p) as [idle|] eqn:Ei.
  2: { eapply return_wp; [done|]. eapply failed_incomplete; [done|congruence]. }
  eapply ask_then; [done| |intros e w' Hw'; by eapply failed_writer|].
  { intros worker [= <-]. split; [congruence|by apply Hidle]. }
  intros d receipt w4 Hd Hs Hw4 _ _. apply (allocate_step idle _ _ _ _ _ _ _ Hw3 Hd) in Hs.
  destruct (ar_allocation receipt) as [allocation|].
  - destruct Hs as [Hs _]. eapply then_wp; [apply spawn_wp; [by split|rewrite Hs; by apply Hidle]|].
    intros p' w5 Hp5. eapply return_wp; [by destruct Hp5|done].
  - eapply ask_then; [done|done|intros e w' Hw'; by eapply failed_writer|].
    intros d' snapshot' w5 Hd' Hs' Hw5 _ _.
    pose proof (snapshot_step _ _ _ _ _ _ _ Hw4 Hd' Hs') as ->.
    eapply then_wp; [apply spawn_all_wp; [by split|by eapply active_grants_owned]|].
    intros p' w6 [Hw6 Hi6].
    eapply task_then; [done..|]. intros empty w7 [Hj7 He] Hw7. destruct empty; (eapply return_wp; [done|]).
    + symmetry in He. apply bool_decide_eq_true in He. eapply failed_incomplete; [done|congruence].
    + by split.
Qed.

Lemma retry_bound kind failures now jitter delay :
  Retry.decide Retry.default_policy kind failures None now jitter = Retry.RetryAfter delay →
  failures < Retry.max_retries Retry.default_policy.
Proof.
  unfold Retry.decide. destruct (Z.leb_spec (Retry.max_retries Retry.default_policy) failures); [|done].
  by rewrite orb_true_r.
Qed.

Lemma worker_failed_wp fuel team p worker error total w :
  kept team total p w → worker ∈ team →
  wp (worker_failed fuel team p worker error) (looped team total) orderly_stop w.
Proof.
  intros [Hw Hidle] Hworker. unfold worker_failed.
  destruct (btree_get _ _) as [attempt|]; [|by eapply fail_after_wp].
  destruct (retryable_worker_failure error) as [kind|]; [|by eapply fail_after_wp].
  eapply task_then; [done..|]. intros [now jitter] w1 _ Hw1.
  destruct (Retry.decide _ _ _ _ _ _) as [delay|] eqn:E; [|by eapply fail_after_wp].
  apply retry_bound in E.
  eapply ask_then; [done|done|intros e w' Hw'; by eapply failed_writer|].
  intros _ _ w2 _ _ Hw2 _ _.
  eapply then_wp; [by apply cancel_all_wp|]. intros running w3 Hw3. cbv beta in Hw3.
  eapply nap_then; [done|cbn [naps]; lia|done|]. intros [] w4 _ Hw4. eapply return_wp; [done|].
  split; [|by intros idle [= <-]].
  cbn [p_transient_failures]. unfold saturating_add32. destruct Hw3 as [_ _ _ _ _ _ Hb _].
  rewrite Z.min_l; [done|]. cbn in E. unfold u32_max. lia.
Qed.

(** A joined task ran for a worker of the team. *)
Definition joined_in (team : list WorkerId) (j : option joined) : Prop :=
  match j with
  | Some (JoinOk (Finished worker _)) | Some (JoinOk (Cancelled worker)) => worker ∈ team
  | _ => True
  end.

Lemma join_step_in j jobs jobs' (team : list WorkerId) :
  join_step j jobs jobs' → (∀ worker, worker ∈ jobs → worker ∈ team) → joined_in team j.
Proof.
  destruct j as [[[worker r|worker]|]|]; cbn; try done; intros (l1 & worker' & l2 & -> & _ & ->) Hin;
    apply Hin, elem_of_app; right; by left.
Qed.

Lemma worker_joined_wp fuel team p j total w :
  kept team total p w → joined_in team j →
  wp (worker_joined fuel team p j) (looped team total) orderly_stop w.
Proof.
  intros Hp Hj. pose proof Hp as [Hw Hidle]. unfold worker_joined.
  destruct j as [[[worker [report|error]|worker]|]|]; cbn in Hj; try by eapply fail_after_wp.
  - unfold worker_finished. cbv zeta.
    assert (Hidle' : match p_candidate_idle p with Some idle => idle | None => worker end ∈ team)
      by (destruct (p_candidate_idle p); [by apply Hidle|done]).
    destruct (_ && _).
    + eapply then_wp; [by apply cancel_all_wp|]. intros running w1 Hw1. cbv beta in Hw1.
      eapply return_wp; [done|]. split; [done|]. by intros idle [= <-].
    + eapply return_wp; [done|]. split; [done|]. by intros idle [= <-].
  - by apply worker_failed_wp.
  - destruct (btree_get _ _); [by eapply return_wp|by eapply fail_after_wp].
Qed.

Lemma pool_loop_wp fuel team p total w :
  kept team total p w →
  wp (pool_loop fuel team p)
    (λ r w', looped team total r w' ∧ ∀ p', r = Ok p' → fl_jobs w' = []) orderly_stop w.
Proof.
  revert p w. induction fuel as [|fuel IH]; intros p w Hp; cbn [pool_loop].
  { apply prog_vis; [destruct Hp as [Hp _]; by eapply orderly_stops|by intros []]. }
  pose proof Hp as [Hw Hidle].
  eapply task_then; [done..|]. intros empty w1 [Hj E] Hw1.
  eapply (then_wp _ _
    (λ r w', match r with
             | Ok (flow, p) => kept team total p w' ∧ (flow = Break → fl_jobs w' = [])
             | Err e => failed total e w'
             end)).
  { destruct empty; [|by eapply return_wp]. apply drained_wp; [done|].
    rewrite Hj. symmetry in E. by apply bool_decide_eq_true in E. }
  intros [[flow p1]|e] w2 Hw2; cbv beta iota in Hw2.
  2: { pose proof Hw2 as [(t & n & Ho) _]. by eapply return_wp. }
  destruct Hw2 as [Hp2 Hbreak]. pose proof Hp2 as [Ho Hi].
  destruct flow; [eapply return_wp; [done|]; by split; [|intros ? _; apply Hbreak]|by apply IH|].
  eapply task_then; [done..|]. intros selected w3 Hsel Hw3.
  eapply (then_wp _ _ (looped team total)).
  { destruct selected as [j|now].
    - apply worker_joined_wp; [done|]. eapply join_step_in; [exact Hsel|]. by destruct Ho.
    - eapply ask_then; [done|done|intros e w' Hw'; by eapply failed_writer|].
      intros _ _ w4 _ _ Hw4 _ _. by eapply return_wp. }
  intros [p2|e] w4 Hw4; [by apply IH|].
  pose proof Hw4 as [(t & n & Ho') _]. by eapply return_wp.
Qed.

(** ** From the first grants to the report *)

Lemma btree_insert_keys {V} k (v : V) m worker :
  worker = k ∨ worker ∈ map fst m → worker ∈ map fst (btree_insert k v m).
Proof.
  induction m as [|[k' v'] m IH]; cbn [btree_insert map fst].
  - intros [->|?%elem_of_nil]; [by left|done].
  - destruct (_ <? _); [cbn; rewrite !elem_of_cons; tauto|].
    destruct (Z.eqb_spec (WorkerId_get k) (WorkerId_get k')) as [E|].
    + assert (k = k') as -> by (destruct k, k'; cbn in E; congruence).
      cbn. rewrite !elem_of_cons. tauto.
    + cbn. rewrite !elem_of_cons. tauto.
Qed.

Lemma btree_insert_keys_inv {V} k (v : V) m worker :
  worker ∈ map fst (btree_insert k v m) → worker = k ∨ worker ∈ map fst m.
Proof.
  induction m as [|[k' v'] m IH]; cbn [btree_insert map fst]; [rewrite !elem_of_cons; tauto|].
  destruct (_ <? _); [|destruct (_ =? _)]; cbn; rewrite !elem_of_cons; tauto.
Qed.

Definition keyed (grants : list (WorkerId * Grant)) : Prop :=
  Forall (λ '(worker, grant), g_worker grant = worker) grants.

Lemma btree_insert_keyed k grant m : keyed m → g_worker grant = k → keyed (btree_insert k grant m).
Proof.
  intros Hm Hk. induction Hm as [|[k' v'] m Hk' Hm IH]; cbn [btree_insert]; [by constructor|].
  destruct (_ <? _); [by repeat constructor|]. destruct (_ =? _); by constructor.
Qed.

Lemma keyed_team grants : keyed grants → Forall (λ grant, g_worker grant ∈ map fst grants) (map snd grants).
Proof.
  intros Hk. apply Forall_forall. intros grant ([worker g] & -> & Hin)%list_elem_of_fmap.
  unfold keyed in Hk. rewrite Forall_forall in Hk. specialize (Hk _ Hin). cbn in Hk. cbn. subst worker.
  apply list_elem_of_fmap. by exists (g_worker g, g).
Qed.

Lemma allocate_grants_wp (workers : nat) index grants total w :
  orderly (map fst grants) total 0 w → fl_jobs w = [] → keyed grants →
  0 ≤ index ∧ index + Z.of_nat workers ≤ size →
  wp (allocate_grants workers index grants)
    (λ r w', match r with
             | Ok grants => orderly (map fst grants) total 0 w' ∧ fl_jobs w' = [] ∧ keyed grants
             | Err e => failed total e w'
             end) orderly_stop w.
Proof.
  revert index grants w. induction workers as [|workers IH]; intros index grants w Hw Hj Hk Hindex;
    cbn [allocate_grants]; [by eapply return_wp|]. cbv zeta.
  set (worker := WorkerId_new index). assert (Hworker : staffed size worker) by (unfold staffed; cbn; lia).
  assert (Hw' : orderly (worker :: map fst grants) total 0 w)
    by (eapply orderly_sub; [done|by right|intros x [->|Hx]%elem_of_cons; [done|by eapply od_team]]).
  eapply ask_then; [exact Hw'| |intros e w' Hx; by eapply failed_writer|].
  { intros x [= <-]. split; [done|by left]. }
  intros d receipt w1 Hd Hs Hw1 Hj1 _.
  apply (allocate_step worker _ _ _ _ _ _ _ Hw' Hd) in Hs.
  destruct (ar_allocation receipt) as [allocation|].
  - destruct Hs as [Hs Hshort]. apply IH; [|congruence| |lia].
    + eapply orderly_sub; [exact Hw1| |].
      * intros x Hx. apply btree_insert_keys. apply elem_of_cons in Hx as [->|Hx]; [by left|right].
        destruct (a_shortened allocation); [|done]. apply btree_insert_keys. by right.
      * intros x [->|Hx]%btree_insert_keys_inv; [done|]. apply (od_team _ _ _ _ Hw1).
        destruct (a_shortened allocation) as [shortened|]; [|by right].
        apply btree_insert_keys_inv in Hx as [->|Hx]; [|by right].
        destruct Hshort as [b Hb]. by eapply od_owned.
    + apply btree_insert_keyed; [|done].
      destruct (a_shortened allocation); [by apply btree_insert_keyed|done].
  - destruct Hw1 as [? _ _ ? ? ? ? ?], Hw as [_ Ho _ _ _ _ _ ?]. eapply (return_wp _ _ (worker :: map fst grants)).
    { split; try done; [intros x b Hb; right; by eapply Ho, Hs|]. rewrite Hj1, Hj. by intros ? ?%elem_of_nil. }
    split; [|split; [congruence|done]]. split; try done; [intros x b Hb; by eapply Ho, Hs|].
    rewrite Hj1, Hj. by intros ? ?%elem_of_nil.
Qed.

Lemma tiles_last c l t : tiles c l t → match last l with Some i => end_ i | None => c end = t.
Proof.
  destruct l as [|i l _] using rev_ind; [done|]. rewrite last_snoc, tiles_snoc. by intros (_ & _ & ?).
Qed.

Lemma ensure_wp remote_length team total failures w :
  orderly team total failures w → released w →
  wp (ensure_writer_identity remote_length)
    (λ r w', orderly team total failures w' ∧ fl_jobs w' = fl_jobs w ∧
       match r with Ok _ => total = remote_length | Err e => failed total e w' end) orderly_stop w.
Proof.
  intros Hw [Hj0 Hn]. unfold ensure_writer_identity.
  apply prog_bind, prog_vis; [by eapply orderly_stops|]. intros d w1 Hd.
  destruct (service_step _ _ _ _ _ _ _ Hw Hd ltac:(done)) as (Hw1 & Hj & Hdis).
  eapply return_wp; [done|]. destruct (WriterService.send d) as [snapshot|e] eqn:E; cbn [map_err].
  - apply (snapshot_step _ _ _ _ _ _ _ Hw Hd) in E as ->.
    pose proof (orderly_wf _ _ _ _ Hw1) as (_ & Ht & _). apply tiles_last in Ht.
    unfold sa_list. change (intervals (sa_intervals (allocator (fl_actor w1))))
      with (intervals (actor_map (fl_actor w1))). rewrite Ht.
    replace (total_length (actor_map (fl_actor w1))) with total by (by destruct Hw1).
    destruct (Z.eqb_spec total remote_length); cbn [negb]; (eapply return_wp; [done|]).
    + done.
    + split; [done|]. split; [done|]. split; [by eexists _, _|]. split; [congruence|].
      intros worker b Hb. by eapply Hn, Hdis.
  - eapply return_wp; [done|]. split; [done|]. split; [done|]. by eapply failed_writer.
Qed.

(** A pool that has not started: nothing runs, nobody owns anything. *)
Record idle_floor (w : floor) : Prop := {
  if_state : ∃ s h, started s ∧ served windows s h (si_state (fl_site w));
  if_owners : ∀ worker b, ¬ owns w worker b;
  if_jobs : fl_jobs w = [];
  if_allocations : fl_allocations w = [];
  if_sleeps : fl_sleeps w = 0;
}.

Lemma idle_orderly w : idle_floor w → orderly [] (fl_length w) 0 w.
Proof.
  intros [(s & h & Hs & Hh) Ho Hj Ha Hsl]. split; try done.
  - by eapply served_serving; [|apply started_serving].
  - intros worker b Hb. by destruct (Ho worker b).
  - by rewrite Hj.
  - by rewrite Ha.
  - by intros ? ?%elem_of_nil.
Qed.

Lemma plan_workers workers remote total n :
  plan workers remote = Segmented total n → n = workers.
Proof. unfold plan. repeat case_match; naive_solver. Qed.

Lemma idle_released w : idle_floor w → released w.
Proof. intros [_ Ho Hj _ _]. by split. Qed.

(** What is the case when the pool returns. *)
Definition pool_result (plan : PoolPlan) (r : result PoolReport (PoolError Url)) (w : floor) : Prop :=
  match r with
  | Ok report => po_plan report = plan ∧ fl_jobs w = [] ∧ ∃ total workers, plan = Segmented total workers ∧
      ∀ b, 0 ≤ b < total → complete_at (fl_actor w) b
  | Err e => failure e w
  end.

Lemma failed_return {A} total e (Q : result A (PoolError Url) → floor → Prop) w :
  failed total e w → (failure e w → Q (Err e) w) → wp (Ret (Err e)) Q orderly_stop w.
Proof. intros [(team & n & Ho) He] HQ. eapply return_wp; [done|by apply HQ]. Qed.

Lemma execute_segmented_wp fuel workers remote w :
  idle_floor w → Z.max 0 workers ≤ size →
  wp (execute_segmented fuel workers remote) (pool_result (plan workers remote)) orderly_stop w.
Proof.
  intros Hidle Hsize. pose proof (idle_orderly w Hidle) as Hw. pose proof (if_jobs w Hidle) as Hj0.
  unfold execute_segmented. destruct (plan workers remote) as [total n|reason] eqn:Eplan.
  2: { eapply return_wp; [done|]. by apply idle_released. }
  apply plan_workers in Eplan as ->.
  eapply then_wp; [by apply ensure_wp; [|apply idle_released]|]. intros [[]|e] w1 (Hw1 & Hj1 & E).
  2: { by eapply failed_return. }
  rewrite E in Hw1. clear E Hw.
  eapply then_wp; [apply (allocate_grants_wp _ _ []); [done|congruence|constructor|lia]|].
  intros [grants|e] w2 Hw2; cbv beta iota in Hw2.
  2: { by eapply failed_return. }
  destruct Hw2 as (Hw2 & Hj2 & Hk). case_bool_decide; [by eapply return_wp|].
  eapply then_wp; [apply spawn_all_wp; [by split|by apply keyed_team]|]. intros p w3 [Hw3 Hi3].
  eapply task_then; [done..|]. intros [] w4 _ Hw4.
  eapply then_wp; [by apply pool_loop_wp|]. intros [p'|e] w5 [Hw5 Hj5].
  2: { by eapply failed_return. }
  destruct Hw5 as [Hw5 _]. specialize (Hj5 _ eq_refl).
  eapply ask_then; [done|done|done|]. intros _ _ w6 _ _ Hw6 Hj6 _.
  eapply ask_then; [done|done|done|]. intros d snapshot w7 Hd Hs Hw7 Hj7 _.
  apply (snapshot_step _ _ _ _ _ _ _ Hw6 Hd) in Hs as ->.
  assert (Hj : fl_jobs w7 = []) by congruence.
  destruct (all_complete _) eqn:Eall; cbn [negb]; (eapply return_wp; [done|]); [|done].
  split; [done|]. split; [done|]. exists total, workers. split; [done|]. intros b Hb.
  apply (all_complete_covers _ b (orderly_wf _ _ _ _ Hw7) Eall).
  change (total_length (sa_intervals (allocator (fl_actor w7)))) with (fl_length w7).
  by rewrite (od_length _ _ _ _ Hw7).
Qed.
End team.

(** C24: The pool hands out work safely and reclaims it after a worker's failure (I-1, I-2).  Run the
    pool on a service where nothing is in progress, over any tasks: they may finish, fail, be
    cancelled or panic in any order, and write whatever the service accepts; let the storage fail
    too, and stop it anywhere.  At that point ownership has only ever been given out while no task was
    running, so no task ever wrote through a grant that was split under it; only the pool's own
    workers run or own anything; and the pool retried no more often than its policy allows.  When
    it returns a report, no task runs and every byte of the file is complete in the service.  When it
    fails, no task runs any more and nothing is in progress, but for two errors: after incomplete
    coverage no task runs, but a worker may still own bytes; and when the service refused one of the
    pool's own commands ([PoolWriter]) the error is returned at once: what was in progress may still
    be, and tasks may still run until the pool's handle on them is dropped. *)
Theorem pool_hands_out_safely fuel workers remote w0 w o :
  idle_floor w0 → exec (execute_segmented fuel workers remote) w0 w o →
  Forall (λ jobs, jobs = []) (fl_allocations w) ∧
  (∀ worker, worker ∈ fl_jobs w → staffed workers worker) ∧
  (∀ worker b, owns w worker b → staffed workers worker) ∧
  fl_sleeps w ≤ Retry.max_retries Retry.default_policy ∧
  match o with Some r => pool_result (plan workers remote) r w | None => True end.
Proof.
  intros Hidle Hx.
  assert (Hs : orderly_stop (Z.max 0 workers) w ∧
    match o with Some r => pool_result (plan workers remote) r w | None => True end).
  { eapply prog_sound in Hx; [|eapply prog_mono;
      [by apply (execute_segmented_wp (Z.max 0 workers))|intros r w' Hr Hst; exact (conj Hst Hr)|done]].
    by destruct o. }
  destruct Hs as [(team & total & n & [_ Ho Hj _ Ha Hsl [_ Hb] Hst]) Hr].
  assert (Hstaff : ∀ worker, worker ∈ team → staffed workers worker)
    by (intros worker [? ?]%Hst; split; lia).
  split_and!; [done|by auto|by eauto|lia|done].
Qed.
End world.
End pool.
Arguments WorkerEvent Url : clear implicits.
Arguments floor D J : clear implicits.
Arguments MkFloor {D J}.

(** ** A run *)

Module Example_pool.
Import Replay.Replay Concrete MemoryOs Example_run Example_service Example_worker.

#[local] Existing Instance local_backend.
#[local] Instance no_dates : Retry.HttpDate := λ _, None.
#[local] Instance local_floor : World (pool_call (Url := Z)) (floor PartDisk JournalDisk) :=
  floor_world false.

Definition w0 : WorkerId := WorkerId_new 0.
Definition remote : RemoteObject (Url := Z) (Mime := Z) :=
  MkRemote _ _ 0 [0] (Some 8)
    (Proven (MkProof 8 (Bytes 0 0 (Some 8)) (FromTo 0 0) (RangeObservation_new (FromTo 0 0) 206 None None 1)))
    NoValidator None Http11 None None 0.
Definition granted_actor : StateActor :=
  MkActor writer0 (MkAllocator (MkIntervalMap 8 [MkInterval 0 8 (InProgress w0)]) 4).
Definition granted_state : WriterService.state PartDisk JournalDisk :=
  MkState granted_actor part0 journal0.
Definition refusal : PoolError Z := PoolTransfer (TransferUnexpectedStatus 0 404 None).
Definition program : prog (pool_call (Url := Z)) (result PoolReport (PoolError Z)) :=
  execute_segmented (N := no_net) 3 1 remote.

Definition at_ state sent jobs (allocations : nat) : floor PartDisk JournalDisk :=
  MkFloor (MkSite state sent) jobs (replicate allocations []) 0.

Lemma state0_idle : idle_floor false (at_ state0 [] [] 0).
Proof.
  split; try done; [exists state0, []; split; [exact state0_started|constructor]|].
  intros worker b Hb. cbv [owns fl_actor actor_map] in Hb. cbn in Hb. by case_bool_decide.
Qed.

(** A service call without other clients. *)
Lemma service_run {X} (c : service_call X) x state state' sent jobs n n' command reply :
  command_of c = Some command → command_args command →
  Writer.exec (st_data state) (st_journal state) (handle false (st_actor state) command)
    (st_data state') (st_journal state') (Some (reply, st_actor state')) →
  answers c x (Some reply) →
  replicate n' [] = replicate n [] ++ match Some command with Some (Allocate _) => [jobs] | _ => [] end →
  does (Left_ c) (at_ state sent jobs n) x (at_ state' (sent ++ [command]) jobs n').
Proof.
  intros Hc Ha Hx Hr Hn. split; [|split; [done|split; [done|by rewrite Hc]]].
  apply (asked_answered false task_command c (MkSite state sent) x [] state command reply state');
    [constructor|constructor|done| |done].
  destruct state' as [a d j]. by apply (served_snoc false state [] state); [constructor|..].
Qed.

Lemma runtime_run {X} (t : task_call X) x state sent jobs jobs' n :
  task_step t x jobs jobs' → naps t = 0 →
  does (Right_ t) (at_ state sent jobs n) x (at_ state sent jobs' n).
Proof.
  intros Ht Hn. split; [exists [], state; split_and!; [constructor|constructor|done]|].
  split; [done|]. split; [done|]. cbn. fold (naps t). by rewrite Hn.
Qed.

Definition sent : list Command := [Snapshot; Allocate w0; Abandon w0].

(** One worker, whose server answers 404. *)
Lemma pool_run : exec program (at_ state0 [] [] 0) (at_ state0 sent [] 1) (Some (Err refusal)).
Proof.
  eapply exec_call with (x := Replied (Ok (MkSnapshot (allocator actor0)))).
  { eapply (service_run AskSnapshot _ state0 state0 [] [] 0 0); [done|done|apply exec_ret|by eexists|done]. }
  eapply exec_call with
    (x := Replied (Ok (MkAllocationReceipt (Some (MkAllocation (MkGrant w0 (MkRange 0 8)) None)) []))).
  { eapply (service_run (AskAllocate w0) _ state0 granted_state _ [] 0 1);
      [done|done|apply exec_ret|by eexists|done]. }
  eapply exec_call with (x := 3).
  { split; [|done].
    exact (asked_clock false task_command Clock (MkSite granted_state [Snapshot; Allocate w0]) 3 []
      granted_state (served_nil _ _) (Forall_nil_2 _) eq_refl eq_refl). }
  eapply exec_call with (x := tt); [by eapply (runtime_run (Spawn (MkGrant w0 (MkRange 0 8))))|].
  eapply exec_call with (x := tt); [by eapply (runtime_run FirstTick)|].
  eapply exec_call with (x := false); [by eapply (runtime_run IsEmpty)|].
  eapply exec_call with (x := Joined (Some (JoinOk (Finished w0 (Err refusal))))).
  { eapply (runtime_run Select); [|done]. by exists [], w0, []. }
  eapply exec_call with (x := tt); [by eapply (runtime_run AbortAll)|].
  eapply exec_call with (x := None); [by eapply (runtime_run JoinNext)|].
  eapply exec_call with (x := Replied (Ok (MkAbandonReceipt 8 []))).
  { eapply (service_run (AskAbandon w0) _ granted_state state0 _ [] 1 1);
      [done|done|apply exec_ret|by eexists|done]. }
  vm_compute. split; [reflexivity|by left].
Qed.

Example pool_hands_out_safely_witness :
  Forall (λ jobs, jobs = []) (fl_allocations (at_ state0 sent [] 1)) ∧
  released (at_ state0 sent [] 1).
Proof.
  destruct (pool_hands_out_safely (N := no_net) false 3 1 remote (at_ state0 [] [] 0)
    (at_ state0 sent [] 1) (Some (Err refusal)) state0_idle pool_run) as (Ha & _ & _ & _ & Hr).
  split; [exact Ha|exact Hr].
Defined.
End Example_pool.

End Pool.
