(* ===== verification/Token.v ===== *)
(** * Values as tokens

    Values as sequences of integers and those as bytes: the concrete codecs of the examples are
    built from these. *)

From S2P Require Import Prelude.
From stdpp Require Import list.
#[local] Open Scope Z_scope.

Module Token.

(** A value as integers, read back from the front of any sequence. *)
Class Tok (A : Type) := {
  put : A → list Z;
  get : list Z → option (A * list Z);
  get_put a rest : get (put a ++ rest) = Some (a, rest);
}.

#[refine, export] Instance tok_Z : Tok Z := {
  put z := [z];
  get l := match l with z :: l => Some (z, l) | [] => None end;
}.
Proof. done. Defined.

(** Through an injection. *)
Definition tok_via {A B} `{Tok A} (f : B → A) (g : A → option B) (Hfg : ∀ b, g (f b) = Some b) : Tok B.
Proof.
  refine {| put b := put (f b);
            get l := match get l with
                     | Some (a, l) => match g a with Some b => Some (b, l) | None => None end
                     | None => None
                     end |}.
  intros b rest. by rewrite get_put, Hfg.
Defined.

#[export] Instance tok_bool : Tok bool :=
  tok_via (λ b : bool, if b then 1 else 0) (λ z, Some (z =? 1)) ltac:(by intros []).
#[export] Instance tok_byte : Tok byte :=
  tok_via byte_val (λ z, Some (byte_of z)) (λ b, f_equal Some (byte_of_val b)).

#[refine, export] Instance tok_pair {A B} `{Tok A, Tok B} : Tok (A * B) := {
  put p := put (fst p) ++ put (snd p);
  get l := match get l with
           | Some (a, l) => match get l with Some (b, l) => Some ((a, b), l) | None => None end
           | None => None
           end;
}.
Proof. intros [a b] rest. cbn. by rewrite <- app_assoc, !get_put. Defined.

#[refine, export] Instance tok_option {A} `{Tok A} : Tok (option A) := {
  put o := match o with Some a => 1 :: put a | None => [0] end;
  get l := match l with
           | 1 :: l => match get l with Some (a, l) => Some (Some a, l) | None => None end
           | 0 :: l => Some (None, l)
           | _ => None
           end;
}.
Proof. intros [a|] rest; cbn; [by rewrite get_put|done]. Defined.

Fixpoint get_n {A} `{Tok A} (n : nat) (l : list Z) : option (list A * list Z) :=
  match n with
  | O => Some ([], l)
  | S n =>
      match get l with
      | Some (a, l) => match get_n n l with Some (r, l) => Some (a :: r, l) | None => None end
      | None => None
      end
  end.
#[refine, export] Instance tok_list {A} `{Tok A} : Tok (list A) := {
  put l := zlen l :: flat_map put l;
  get l := match l with n :: l => get_n (Z.to_nat n) l | [] => None end;
}.
Proof.
  intros l rest. cbn. unfold zlen. rewrite Nat2Z.id. induction l as [|a l IH]; cbn; [done|].
  by rewrite <- app_assoc, get_put, IH.
Defined.

(** Tokens as bytes, nine each. *)
Definition tok_fits (z : Z) : bool := (-u64_modulus <=? z) && (z <? u64_modulus).
Definition tok_bytes (z : Z) : list byte := to_le_bytes 9 (z + u64_modulus).
Fixpoint tok_list_of (n : nat) (bs : list byte) : list Z :=
  match n with
  | O => []
  | S n => (from_le_bytes (take 9 bs) - u64_modulus) :: tok_list_of n (drop 9 bs)
  end.

Lemma length_tok_bytes l : length (flat_map tok_bytes l) = (9 * length l)%nat.
Proof. induction l as [|z l IH]; [done|]. cbn [flat_map length]. rewrite length_app, IH. unfold tok_bytes. rewrite length_to_le_bytes. lia. Qed.
Lemma tok_list_bytes l : forallb tok_fits l = true → tok_list_of (length l) (flat_map tok_bytes l) = l.
Proof.
  induction l as [|z l IH]; [done|]. cbn [forallb flat_map length tok_list_of].
  intros [Hz Hl]%andb_prop. apply andb_prop in Hz as [?%Z.leb_le ?%Z.ltb_lt].
  rewrite take_app_length', drop_app_length' by (unfold tok_bytes; by rewrite length_to_le_bytes).
  rewrite IH by done. unfold tok_bytes. rewrite from_to_le_bytes; [f_equal; lia|].
  change (256 ^ Z.of_nat 9) with (256 * u64_modulus). unfold u64_modulus in *. lia.
Qed.

Definition toks_of (bytes : list byte) : list Z := tok_list_of (length bytes / 9) bytes.
Lemma toks_of_bytes l : forallb tok_fits l = true → toks_of (flat_map tok_bytes l) = l.
Proof.
  intros Hl. unfold toks_of. rewrite length_tok_bytes, (Nat.mul_comm 9), Nat.div_mul by done.
  by apply tok_list_bytes.
Qed.
End Token.
