(* ===== verification/Ipc.v ===== *)
(** * [downpour-ipc/src/{types,token,codec,session}.rs]: the client boundary

    The wire types, the session token, the bounded frames around JSON-RPC messages, and the
    session that admits commands only after an authenticated hello.  JSON itself is [serde]'s. *)

From S2P Require Import Prelude Io Str Effects Token.
From Stdlib Require Import String.
From stdpp Require Import list countable.
#[local] Open Scope Z_scope.

Module Ipc.
Import Io.Io Str.Str Effects.Effects.

(** ** Wire types *)

Definition PROTOCOL_VERSION : Z := 1.

(** Secret-bearing text: its formatting is redacted, which is not modelled. *)
Record SecretString := SecretString_new { expose : str }.

(** [is_ascii_hexdigit] and not [is_ascii_uppercase]. *)
Definition is_lower_hex (b : byte) : bool :=
  let c := byte_val b in
  (is_ascii_digit c || ((97 <=? c) && (c <=? 102)) || ((65 <=? c) && (c <=? 70)))
  && negb (is_ascii_uppercase c).

(** The check of [DownloadId::new] on the bytes of the text. *)
Definition well_formed_id (raw : str) : bool :=
  (str_len raw =? 32) && forallb is_lower_hex (as_bytes raw).

(** The field is private: an identity only comes out of the check. *)
Record DownloadId := MkDownloadId { id_text : str; id_checked : Is_true (well_formed_id id_text) }.

Definition DownloadId_new (raw : str) : result DownloadId string :=
  match decide (Is_true (well_formed_id raw)) with
  | left checked => Ok (MkDownloadId raw checked)
  | right _ => Err "download id must be exactly 32 lowercase hexadecimal characters"%string
  end.

Lemma DownloadId_ext (a b : DownloadId) : id_text a = id_text b → a = b.
Proof. destruct a as [a ca], b as [b cb]. cbn. intros ->. f_equal. apply proof_irrel. Qed.
#[export] Instance DownloadId_eq_dec : EqDecision DownloadId.
Proof.
  refine (λ a b, cast_if (decide (id_text a = id_text b))); [by apply DownloadId_ext|congruence].
Defined.
Lemma DownloadId_reads_back (i : DownloadId) : ok (DownloadId_new (id_text i)) = Some i.
Proof.
  destruct i as [raw checked]. cbn. unfold DownloadId_new. destruct decide; [|done].
  cbn. f_equal. by apply DownloadId_ext.
Qed.
#[export] Instance DownloadId_countable : Countable DownloadId :=
  inj_countable id_text (λ raw, ok (DownloadId_new raw)) DownloadId_reads_back.

Record HelloParams := MkHello { hp_protocol_version : Z; hp_client : str; hp_token : SecretString }.
Record HelloResult := MkHelloResult {
  hr_protocol_version : Z;
  hr_daemon_version : str;
  hr_capabilities : list str;
}.
Record AddOptions := MkAddOptions { ao_connections : option Z }.
Record AddParams := MkAdd {
  ap_protocol_version : Z;
  ap_url : SecretString;
  ap_target : option str;
  ap_options : AddOptions;
}.
Record IdParams := MkIdParams { ip_protocol_version : Z; ip_id : DownloadId }.
Record VersionParams := MkVersion { vp_protocol_version : Z }.

Inductive Request :=
| Hello (params : HelloParams)
| DownloadAdd (params : AddParams)
| DownloadGet (params : IdParams)
| DownloadResume (params : IdParams)
| SystemStatus_ (params : VersionParams).

Inductive WireState :=
| Submitted | Probing | Planned | Transferring | Paused | Stalled | Verifying | Completed | Failed.
#[export] Instance WireState_eq_dec : EqDecision WireState.
Proof. solve_decision. Defined.

Record StateResult := MkStateResult { sr_protocol_version : Z; sr_id : DownloadId; sr_state : WireState }.
Record DownloadView := MkView {
  dv_protocol_version : Z;
  dv_id : DownloadId;
  dv_state : WireState;
  dv_covered : Z;
  dv_total : option Z;
  dv_error_kind : option str;
}.
Record SystemStatus := MkStatus {
  ss_protocol_version : Z;
  ss_version : str;
  ss_uptime_seconds : Z;
  ss_active : Z;
  ss_queued : Z;
  ss_throughput : Z;
}.
Record ErrorData := MkErrorData {
  ed_protocol_version : Z;
  ed_kind : str;
  ed_download_id : option DownloadId;
  ed_recoverable : bool;
  ed_suggestion : option str;
}.
Record RpcError := MkRpcError { re_code : Z; re_message : str; re_data : ErrorData }.

Inductive Response :=
| HelloResponse (result : HelloResult)
| Added (result : StateResult)
| DownloadResponse (result : DownloadView)
| Resumed (result : StateResult)
| StatusResponse (result : SystemStatus)
| ErrorResponse (error : RpcError).

Inductive ResponseKind := KHello | KAdded | KDownload | KResumed | KStatus.

(** ** The token *)

(** [[u8; 32]]. *)
Record SessionToken := SessionToken_from_bytes { token_bytes : list byte }.

(** [entropy] is the answer of the operating system's random source. *)
Definition SessionToken_generate (entropy : option (list byte)) : option SessionToken :=
  option_map SessionToken_from_bytes entropy.

Definition decode_lower_hex (b : byte) : option Z :=
  let v := byte_val b in
  if (48 <=? v) && (v <=? 57) then Some (v - 48)
  else if (97 <=? v) && (v <=? 102) then Some (v - 97 + 10)
  else None.

(** The loop over the token's bytes; [high << 4 | low] is a byte. *)
Fixpoint difference_loop (expected candidate : list byte) (difference : byte) : option byte :=
  match expected, candidate with
  | [], _ => Some difference
  | e :: expected, h :: l :: candidate =>
      match decode_lower_hex h with
      | None => None
      | Some high =>
          match decode_lower_hex l with
          | None => None
          | Some low =>
              difference_loop expected candidate
                (byte_or difference (byte_xor e (byte_of (Z.lor (Z.shiftl high 4) low))))
          end
      end
  | _, _ => None
  end.

Definition matches_wire (t : SessionToken) (candidate : str) : bool :=
  let bytes := as_bytes candidate in
  if negb (zlen bytes =? 64) then false else
  match difference_loop (token_bytes t) bytes x00 with
  | Some difference => bool_decide (difference = x00)
  | None => false
  end.

Definition HEX : str := lit "0123456789abcdef".
Definition hex_char (n : Z) : Z := nth (Z.to_nat n) HEX 0.
Definition to_wire (t : SessionToken) : SecretString :=
  SecretString_new (flat_map (λ b,
    [hex_char (Z.shiftr (byte_val b) 4); hex_char (Z.land (byte_val b) 15)]) (token_bytes t)).

(** ** The codec *)

Definition MAX_FRAME_BYTES : Z := 1024 * 1024.

Inductive CodecError :=
| FrameTooLarge (declared maximum : Z)
| TruncatedHeader
| TruncatedBody
| InvalidMessage.

(** The envelopes, as [serde] sees them. *)
Record RequestEnvelope {V : Type} := MkRequestEnvelope {
  qe_jsonrpc : str; qe_id : Z; qe_method : str; qe_params : V }.
Record SuccessEnvelope {V : Type} := MkSuccessEnvelope { se_jsonrpc : str; se_id : Z; se_result : V }.
Record ErrorEnvelope := MkErrorEnvelope { ee_jsonrpc : str; ee_id : Z; ee_error : RpcError }.
Arguments RequestEnvelope V : clear implicits.
Arguments MkRequestEnvelope {V}.
Arguments SuccessEnvelope V : clear implicits.
Arguments MkSuccessEnvelope {V}.

(** What the derived implementations for [T] and [serde_json] do between values and [T]: reading
    is strict, and reads back what was written. *)
Class Serde (V T : Type) := {
  to_value : T → option V;
  from_value : V → option T;
  serde_reads_back t v : to_value t = Some v → from_value v = Some t;
}.

(** Text to values and back; [has_error] is [value.get("error").is_some()]. *)
Class Json (V : Type) := {
  to_vec : V → option (list byte);
  from_slice : list byte → option V;
  has_error : V → bool;
  json_reads_back v bytes : to_vec v = Some bytes → from_slice bytes = Some v;
}.

(** Of the two shapes of a response only an error envelope has an [error] member. *)
Class Envelopes (V : Type) `{Json V, Serde V (RequestEnvelope V), Serde V (SuccessEnvelope V),
    Serde V ErrorEnvelope} := {
  success_has_no_error (e : SuccessEnvelope V) v : to_value e = Some v → has_error v = false;
  error_has_error (e : ErrorEnvelope) v : to_value e = Some v → has_error v = true;
}.

Definition jsonrpc_version : str := lit "2.0".

Section codec.
Context {V : Type} `{Json V, Serde V HelloParams, Serde V AddParams, Serde V IdParams,
  Serde V VersionParams, Serde V HelloResult, Serde V StateResult, Serde V DownloadView,
  Serde V SystemStatus, Serde V (RequestEnvelope V), Serde V (SuccessEnvelope V),
  Serde V ErrorEnvelope}.

Definition encode_json {T} `{Serde V T} (value : T) : result (list byte) CodecError :=
  let? payload := ok_or (to_value value ≫= to_vec) InvalidMessage in
  let len := zlen payload in
  if MAX_FRAME_BYTES <? len then Err (FrameTooLarge len MAX_FRAME_BYTES)
  else if u32_max <? len then Err (FrameTooLarge len MAX_FRAME_BYTES)
  else Ok (to_le_bytes 4 len ++ payload).

Definition method_of (request : Request) : str * option V :=
  match request with
  | Hello params => (lit "hello", to_value params)
  | DownloadAdd params => (lit "download.add", to_value params)
  | DownloadGet params => (lit "download.get", to_value params)
  | DownloadResume params => (lit "download.resume", to_value params)
  | SystemStatus_ params => (lit "system.status", to_value params)
  end.

Definition encode_request (id : Z) (request : Request) : result (list byte) CodecError :=
  let '(method, params) := method_of request in
  let? params := ok_or params InvalidMessage in
  encode_json (MkRequestEnvelope jsonrpc_version id method params).

Definition decode_params {T} `{Serde V T} (value : V) : result T CodecError :=
  ok_or (from_value value) InvalidMessage.

(** [serde_json::from_slice] at a type. *)
Definition parse_json {T} `{Serde V T} (payload : list byte) : result T CodecError :=
  ok_or (from_slice payload ≫= from_value) InvalidMessage.

Definition decode_request (payload : list byte) : result (Z * Request) CodecError :=
  let? envelope := (parse_json payload : result (RequestEnvelope V) CodecError) in
  if negb (bool_decide (qe_jsonrpc envelope = jsonrpc_version)) then Err InvalidMessage else
  let method := qe_method envelope in
  let params := qe_params envelope in
  let? request :=
    if bool_decide (method = lit "hello") then let? p := decode_params params in Ok (Hello p)
    else if bool_decide (method = lit "download.add")
    then let? p := decode_params params in Ok (DownloadAdd p)
    else if bool_decide (method = lit "download.get")
    then let? p := decode_params params in Ok (DownloadGet p)
    else if bool_decide (method = lit "download.resume")
    then let? p := decode_params params in Ok (DownloadResume p)
    else if bool_decide (method = lit "system.status")
    then let? p := decode_params params in Ok (SystemStatus_ p)
    else Err InvalidMessage in
  Ok (qe_id envelope, request).

Definition encode_success {T} `{Serde V T} (id : Z) (result : T) : Prelude.result (list byte) CodecError :=
  let? value := ok_or (to_value result) InvalidMessage in
  encode_json (MkSuccessEnvelope jsonrpc_version id value).

Definition encode_response (id : Z) (response : Response) : result (list byte) CodecError :=
  match response with
  | ErrorResponse error => encode_json (MkErrorEnvelope jsonrpc_version id error)
  | HelloResponse result => encode_success id result
  | Added result | Resumed result => encode_success id result
  | DownloadResponse result => encode_success id result
  | StatusResponse result => encode_success id result
  end.

Definition decode_response (payload : list byte) (expected : ResponseKind)
    : result (Z * Response) CodecError :=
  let? value := ok_or (from_slice payload) InvalidMessage in
  if has_error value then
    let? envelope := (decode_params value : result ErrorEnvelope CodecError) in
    if negb (bool_decide (ee_jsonrpc envelope = jsonrpc_version)) then Err InvalidMessage
    else Ok (ee_id envelope, ErrorResponse (ee_error envelope))
  else
    let? envelope := (decode_params value : result (SuccessEnvelope V) CodecError) in
    if negb (bool_decide (se_jsonrpc envelope = jsonrpc_version)) then Err InvalidMessage else
    let? response :=
      match expected with
      | KHello => let? r := decode_params (se_result envelope) in Ok (HelloResponse r)
      | KAdded => let? r := decode_params (se_result envelope) in Ok (Added r)
      | KDownload => let? r := decode_params (se_result envelope) in Ok (DownloadResponse r)
      | KResumed => let? r := decode_params (se_result envelope) in Ok (Resumed r)
      | KStatus => let? r := decode_params (se_result envelope) in Ok (StatusResponse r)
      end in
    Ok (se_id envelope, response).

(** [read_exact] answers nothing at the end of the stream or on an error; a failed [write_all]
    may have written any part of the frame. *)
Inductive stream_call : Type → Type :=
| ReadExact (n : Z) : stream_call (option (list byte))
| WriteAll (frame : list byte) : stream_call (result unit Error).

Definition read_frame : prog stream_call (result (list byte) CodecError) :=
  let! header := call (ReadExact 4) in
  match header with
  | None => Ret (Err TruncatedHeader)
  | Some header =>
      let declared := from_le_bytes header in
      if MAX_FRAME_BYTES <? declared then Ret (Err (FrameTooLarge declared MAX_FRAME_BYTES)) else
      let! payload := call (ReadExact declared) in
      match payload with
      | None => Ret (Err TruncatedBody)
      | Some payload => Ret (Ok payload)
      end
  end.

(** [LocalStream::receive] and [send]. *)
Inductive TransportError := TrIo (e : Error) | TrCodec (e : CodecError) | InvalidTokenFile.

Definition receive : prog stream_call (result (list byte) TransportError) :=
  let! r := read_frame in Ret (map_err TrCodec r).
Definition send (frame : list byte) : prog stream_call (result unit TransportError) :=
  let! r := call (WriteAll frame) in Ret (map_err TrIo r).

(** ** The session *)

(** What an authenticated command reaches: a program over the handler's own calls. *)
Class CommandHandler (E : Type → Type) := handle : Request → prog E Response.

Inductive SessionError :=
| SCodec (e : CodecError)
| AuthenticationRequired
| AuthenticationFailed
| UnsupportedVersion (requested supported : Z)
| HelloRepeated.

Record Session := MkSession { s_token : SessionToken; s_authenticated : bool }.
Definition Session_new (token : SessionToken) : Session := MkSession token false.

Definition request_version (request : Request) : Z :=
  match request with
  | Hello params => hp_protocol_version params
  | DownloadAdd params => ap_protocol_version params
  | DownloadGet params | DownloadResume params => ip_protocol_version params
  | SystemStatus_ params => vp_protocol_version params
  end.

Definition ensure_version (requested : Z) : result unit SessionError :=
  if requested =? PROTOCOL_VERSION then Ok tt
  else Err (UnsupportedVersion requested PROTOCOL_VERSION).

(** [CARGO_PKG_VERSION]: the build's own. *)
Context (pkg_version : str).

Definition handle_payload {E} `{CommandHandler E} (s : Session) (payload : list byte)
    : prog E (result (Z * Response) SessionError * Session) :=
  match decode_request payload with
  | Err e => Ret (Err (SCodec e), s)
  | Ok (id, request) =>
      match request with
      | Hello params =>
          if s_authenticated s then Ret (Err HelloRepeated, s) else
          match ensure_version (hp_protocol_version params) with
          | Err e => Ret (Err e, s)
          | Ok _ =>
              if negb (matches_wire (s_token s) (expose (hp_token params)))
              then Ret (Err AuthenticationFailed, s)
              else Ret (Ok (id, HelloResponse (MkHelloResult PROTOCOL_VERSION pkg_version
                                  [lit "h1-segments"])),
                        MkSession (s_token s) true)
          end
      | _ =>
          if negb (s_authenticated s) then Ret (Err AuthenticationRequired, s) else
          match ensure_version (request_version request) with
          | Err e => Ret (Err e, s)
          | Ok _ => let! response := handle request in Ret (Ok (id, response), s)
          end
      end
  end.
End codec.

(** ** Hexadecimal text *)

Definition hex_text (bytes : list byte) : str := expose (to_wire (SessionToken_from_bytes bytes)).

Lemma hex_text_cons b bytes :
  hex_text (b :: bytes)
  = hex_char (Z.shiftr (byte_val b) 4) :: hex_char (Z.land (byte_val b) 15) :: hex_text bytes.
Proof. done. Qed.

(** A property of finitely many integers, by evaluation. *)
Lemma forallb_seqZ (P : Z → bool) a n x :
  forallb P (seqZ a n) = true → a ≤ x < a + n → P x = true.
Proof.
  intros HP Hx. apply forallb_forall with (x := x) in HP; [done|].
  apply list_elem_of_In, elem_of_seqZ. lia.
Qed.

Lemma decode_hex_char n : 0 ≤ n < 16 → decode_lower_hex (byte_of (hex_char n)) = Some n.
Proof.
  intros Hn.
  pose proof (forallb_seqZ (λ n, bool_decide (decode_lower_hex (byte_of (hex_char n)) = Some n))
    0 16 n eq_refl ltac:(lia)) as H.
  by apply bool_decide_eq_true in H.
Qed.

Lemma decode_lower_hex_spec b n :
  decode_lower_hex b = Some n ↔ b = byte_of (hex_char n) ∧ 0 ≤ n < 16.
Proof.
  split; [|by intros [-> ?%decode_hex_char]].
  destruct b; vm_compute; intros [= <-]; done.
Qed.

(** The two digits of a byte, and the byte of two digits. *)
Lemma nibbles b :
  0 ≤ Z.shiftr (byte_val b) 4 < 16 ∧ 0 ≤ Z.land (byte_val b) 15 < 16 ∧
  byte_of (Z.lor (Z.shiftl (Z.shiftr (byte_val b) 4) 4) (Z.land (byte_val b) 15)) = b.
Proof. destruct b; vm_compute; repeat split; congruence. Qed.

Lemma byte_of_nibbles h l b : 0 ≤ h < 16 → 0 ≤ l < 16 →
  byte_of (Z.lor (Z.shiftl h 4) l) = b → h = Z.shiftr (byte_val b) 4 ∧ l = Z.land (byte_val b) 15.
Proof.
  intros Hh Hl <-.
  set (P h l := bool_decide (h = Z.shiftr (byte_val (byte_of (Z.lor (Z.shiftl h 4) l))) 4)
            && bool_decide (l = Z.land (byte_val (byte_of (Z.lor (Z.shiftl h 4) l))) 15)).
  enough (P h l = true) by (unfold P in *; bool_to_prop; done).
  apply (forallb_seqZ _ 0 16); [|lia].
  by apply (forallb_seqZ (λ h, forallb (P h) (seqZ 0 16)) 0 16).
Qed.

Lemma difference_loop_zero expected candidate d :
  length candidate = (2 * length expected)%nat →
  difference_loop expected candidate d = Some x00 ↔
  d = x00 ∧ candidate = map byte_of (hex_text expected).
Proof.
  revert candidate d. induction expected as [|e expected IH]; intros candidate d Hlen.
  - destruct candidate; [|done]. cbn. naive_solver.
  - destruct candidate as [|h [|l candidate]]; [simpl in *; lia..|].
    cbn [difference_loop]. rewrite hex_text_cons. cbn [map].
    destruct (nibbles e) as (Hh & Hl & He).
    destruct (decode_lower_hex h) as [high|] eqn:Eh; cycle 1.
    { split; [done|]. intros [_ [= -> _ _]]. by rewrite decode_hex_char in Eh. }
    destruct (decode_lower_hex l) as [low|] eqn:El; cycle 1.
    { split; [done|]. intros [_ [= _ -> _]]. by rewrite decode_hex_char in El. }
    apply decode_lower_hex_spec in Eh as [-> Hhigh], El as [-> Hlow].
    rewrite IH by (simpl in *; lia). rewrite byte_or_zero, byte_xor_zero. split.
    + intros [[-> Heq] ->]. symmetry in Heq.
      apply byte_of_nibbles in Heq as [<- <-]; done.
    + intros [-> [= Eh El ->]]. split; [split|]; [done| |done].
      apply (f_equal decode_lower_hex) in Eh, El.
      rewrite !decode_hex_char in Eh, El by done. by simplify_eq.
Qed.

(** Bytes that are all non-zero ASCII are the encoding of one text only. *)
Definition ascii_text (t : str) : Prop := Forall (λ c, 0 < c < 128) t.

Lemma byte_val_of_cases z : byte_val (byte_of z) = z ∨ byte_val (byte_of z) = 0.
Proof.
  unfold byte_of, byte_val. destruct (Byte.of_N (Z.to_N z)) as [b|] eqn:E; [|by right].
  apply Byte.to_of_N in E. cbn. rewrite E. lia.
Qed.

Lemma as_bytes_ascii t : ascii_text t → as_bytes t = map byte_of t.
Proof.
  induction 1 as [|c t Hc _ IH]; [done|]. cbn. rewrite <- IH.
  unfold char_bytes. by destruct (Z.ltb_spec c 128); [|lia].
Qed.

Lemma as_bytes_inj_ascii s t : ascii_text t → as_bytes s = map byte_of t → s = t.
Proof.
  intros Ht. revert s. induction Ht as [|c t Hc Ht IH]; intros s.
  - destruct s as [|x s]; [done|]. cbn. unfold char_bytes. repeat case_bool; done.
  - destruct s as [|x s]; [done|]. cbn [as_bytes flat_map map].
    assert (Hhead : ∀ z bs, byte_of z :: bs = byte_of c :: map byte_of t → z = c).
    { intros z bs [= Hz _]. apply (f_equal byte_val) in Hz.
      rewrite (byte_val_of c) in Hz by lia. destruct (byte_val_of_cases z); lia. }
    unfold char_bytes. destruct (Z.ltb_spec x 128) as [|Hx].
    + cbn. intros Heq. pose proof (Hhead _ _ Heq) as ->. f_equal. apply IH. by injection Heq.
    + repeat case_bool; bool_to_prop; cbn; intros Heq; apply Hhead in Heq;
        match type of Heq with _ + x / ?d = _ => pose proof (Z.div_pos x d) end; lia.
Qed.

Lemma hex_text_ascii bytes : ascii_text (hex_text bytes).
Proof.
  induction bytes as [|b bytes IH]; [constructor|]. rewrite hex_text_cons.
  destruct (nibbles b) as (Hh & Hl & _).
  set (P n := (0 <? hex_char n) && (hex_char n <? 128)).
  assert (HP : ∀ n, 0 ≤ n < 16 → 0 < hex_char n < 128).
  { intros n Hn. pose proof (forallb_seqZ P 0 16 n eq_refl ltac:(lia)) as H.
    unfold P in H. bool_to_prop. lia. }
  repeat constructor; auto; by apply HP.
Qed.

Lemma length_hex_text bytes : length (hex_text bytes) = (2 * length bytes)%nat.
Proof. induction bytes; [done|]. rewrite hex_text_cons. simpl in *. lia. Qed.

Lemma as_bytes_hex bytes : as_bytes (hex_text bytes) = map byte_of (hex_text bytes).
Proof. apply as_bytes_ascii, hex_text_ascii. Qed.

(** A token accepts its own text and no other. *)
Lemma matches_wire_spec t candidate : length (token_bytes t) = 32%nat →
  matches_wire t candidate = true ↔ candidate = expose (to_wire t).
Proof.
  intros Hlen. change (expose (to_wire t)) with (hex_text (token_bytes t)). unfold matches_wire.
  set (bytes := as_bytes candidate). destruct (Z.eqb_spec (zlen bytes) 64) as [Hz|Hz].
  - assert (Hd : length bytes = (2 * length (token_bytes t))%nat) by (unfold zlen in Hz; lia).
    pose proof (difference_loop_zero (token_bytes t) bytes x00 Hd) as Hloop. cbn [negb].
    transitivity (bytes = map byte_of (hex_text (token_bytes t))).
    + destruct (difference_loop _ _ _) as [d|]; [|naive_solver].
      rewrite bool_decide_eq_true. naive_solver.
    + subst bytes. split; [apply as_bytes_inj_ascii, hex_text_ascii|].
      intros ->. apply as_bytes_hex.
  - split; [done|]. intros ->. subst bytes. rewrite as_bytes_hex in Hz.
    unfold zlen in Hz. rewrite length_map, length_hex_text in Hz. lia.
Qed.

(** ** The byte stream between client and daemon

    [inbound] is what arrives before the stream ends or fails; [outbound] what was written. *)
Record wire := MkWire { inbound : list byte; outbound : list byte }.

Definition stream_does {X} (c : stream_call X) (w : wire) : X → wire → Prop :=
  match c in stream_call X return X → wire → Prop with
  | ReadExact n => λ x w',
      if n <=? zlen (inbound w)
      then x = Some (take (Z.to_nat n) (inbound w))
           ∧ w' = MkWire (drop (Z.to_nat n) (inbound w)) (outbound w)
      else x = None ∧ w' = MkWire [] (outbound w)
  | WriteAll frame => λ x w',
      match x with
      | Ok _ => w' = MkWire (inbound w) (outbound w ++ frame)
      | Err _ => ∃ n, w' = MkWire (inbound w) (outbound w ++ take n frame)
      end
  end.
#[export] Instance wire_world : World stream_call wire := @stream_does.

(** A payload with its header in front. *)
Definition framed (payload : list byte) : list byte := to_le_bytes 4 (zlen payload) ++ payload.

(** What a read says about the stream before it, [stream], and after it, [rest]. *)
Definition frame_read (stream : list byte) (r : result (list byte) CodecError) (rest : list byte)
    : Prop :=
  match r with
  | Ok payload => zlen payload ≤ MAX_FRAME_BYTES ∧ stream = framed payload ++ rest
  | Err (FrameTooLarge declared maximum) =>
      maximum = MAX_FRAME_BYTES ∧ maximum < declared ∧ u32 declared ∧ stream = to_le_bytes 4 declared ++ rest
  | Err TruncatedHeader => zlen stream < 4
  | Err TruncatedBody => ∃ declared body, 0 ≤ declared ≤ MAX_FRAME_BYTES ∧
      stream = to_le_bytes 4 declared ++ body ∧ zlen body < declared
  | Err InvalidMessage => False
  end.

Lemma header_split stream : 4 <= zlen stream →
  ∃ declared, u32 declared ∧ from_le_bytes (take 4 stream) = declared ∧
    stream = to_le_bytes 4 declared ++ drop 4 stream.
Proof.
  intros Hlen. exists (from_le_bytes (take 4 stream)).
  assert (Hl : length (take 4 stream) = 4%nat) by (rewrite length_take; unfold zlen in *; lia).
  split; [|split; [done|]].
  { pose proof (from_le_bytes_range (take 4 stream)) as Hr. rewrite Hl in Hr. done. }
  rewrite <- Hl at 1. by rewrite to_from_le_bytes, take_drop.
Qed.

Lemma read_frame_wp (S : wire → Prop) w :
  (∀ rest, S (MkWire rest (outbound w))) →
  wp read_frame (λ r w', frame_read (inbound w) r (inbound w') ∧ outbound w' = outbound w) S w.
Proof.
  intros HS. destruct w as [stream out]. cbn [inbound outbound] in *.
  unfold read_frame. apply prog_bind, prog_call; [apply HS|].
  intros x w' Hd. cbn [does wire_world stream_does inbound outbound] in Hd.
  destruct (Z.leb_spec 4 (zlen stream)) as [Hlen|Hlen]; destruct Hd as [-> ->]; cycle 1.
  { split; [apply HS|]. split; [apply HS|]. by split. }
  split; [apply HS|]. change (Z.to_nat 4) with 4%nat. cbv beta iota zeta.
  destruct (header_split stream Hlen) as (declared & Hpos & -> & Heq).
  destruct (Z.ltb_spec MAX_FRAME_BYTES declared).
  { split; [apply HS|]. by split. }
  apply prog_bind, prog_call; [apply HS|].
  intros x w' Hd. cbn [does wire_world stream_does inbound outbound] in Hd.
  destruct (Z.leb_spec declared (zlen (drop 4 stream))) as [Hbody|Hbody]; destruct Hd as [-> ->];
    (split; [apply HS|split; [apply HS|split; [|done]]]).
  - split.
    + rewrite zlen_take. unfold u32 in Hpos. lia.
    + unfold framed. unfold u32 in Hpos. rewrite zlen_take, Z2Nat.id, Z.min_l by lia.
      rewrite <- app_assoc. cbn [inbound]. by rewrite take_drop.
  - exists declared, (drop 4 stream). unfold u32 in Hpos. split; [lia|done].
Qed.

(** A stream that begins with a frame is read as that frame. *)
Lemma frame_read_framed payload rest r rest' : zlen payload ≤ MAX_FRAME_BYTES →
  frame_read (framed payload ++ rest) r rest' → r = Ok payload ∧ rest' = rest.
Proof.
  unfold framed. intros Hmax. pose proof (zlen_nonneg payload).
  assert (Hu : 0 ≤ zlen payload < 256 ^ Z.of_nat 4).
  { unfold MAX_FRAME_BYTES in Hmax. change (256 ^ Z.of_nat 4) with 4294967296. lia. }
  assert (Hhead : ∀ d body rest', to_le_bytes 4 (zlen payload) ++ body = to_le_bytes 4 d ++ rest' →
    from_le_bytes (to_le_bytes 4 d) = zlen payload ∧ body = rest').
  { intros d body rest2 Heq. apply app_inj_1 in Heq as [Hh ->]; [|by rewrite !length_to_le_bytes].
    by rewrite <- Hh, from_to_le_bytes. }
  rewrite <- app_assoc. destruct r as [p|[d m| | |]]; cbn [frame_read].
  - intros [Hp Heq]. unfold framed in Heq. rewrite <- app_assoc in Heq.
    apply Hhead in Heq as [Hlen Heq]. rewrite from_to_le_bytes in Hlen.
    + apply app_inj_1 in Heq as [-> ->]; [done|]. unfold zlen in Hlen. lia.
    + unfold MAX_FRAME_BYTES in Hp. change (256 ^ Z.of_nat 4) with 4294967296.
      pose proof (zlen_nonneg p). lia.
  - intros (-> & Hd & Hr & Heq). exfalso. apply Hhead in Heq as [Hlen _].
    rewrite from_to_le_bytes in Hlen by (unfold u32, u32_modulus in Hr; exact Hr). lia.
  - rewrite zlen_app, zlen_to_le_bytes. pose proof (zlen_nonneg (payload ++ rest)). lia.
  - intros (d & body & Hd & Heq & Hshort). exfalso. apply Hhead in Heq as [Hlen <-].
    rewrite from_to_le_bytes in Hlen.
    + rewrite zlen_app in Hshort. pose proof (zlen_nonneg rest). lia.
    + unfold MAX_FRAME_BYTES in Hd. change (256 ^ Z.of_nat 4) with 4294967296. lia.
  - done.
Qed.

Lemma read_frame_runs payload rest out : zlen payload ≤ MAX_FRAME_BYTES →
  exec read_frame (MkWire (framed payload ++ rest) out) (MkWire rest out) (Some (Ok payload)).
Proof.
  intros Hmax. pose proof (zlen_nonneg payload).
  assert (Hu : 0 ≤ zlen payload < 256 ^ Z.of_nat 4).
  { unfold MAX_FRAME_BYTES in Hmax. change (256 ^ Z.of_nat 4) with 4294967296. lia. }
  unfold framed. rewrite <- app_assoc.
  eapply (exec_call (ReadExact 4) _ (Some (to_le_bytes 4 (zlen payload))) _
            (MkWire (payload ++ rest) out)).
  - cbn. rewrite !zlen_app, zlen_to_le_bytes. pose proof (zlen_nonneg rest).
    destruct (Z.leb_spec 4 (Z.of_nat 4 + (zlen payload + zlen rest))); [|lia].
    change (Z.to_nat 4) with 4%nat. rewrite take_app_length', drop_app_length'
      by by rewrite length_to_le_bytes. done.
  - cbn [bind]. rewrite from_to_le_bytes by done.
    destruct (Z.ltb_spec MAX_FRAME_BYTES (zlen payload)); [lia|].
    eapply (exec_call (ReadExact (zlen payload)) _ (Some payload) _ (MkWire rest out));
      [|apply exec_return].
    cbn. rewrite zlen_app. pose proof (zlen_nonneg rest).
    destruct (Z.leb_spec (zlen payload) (zlen payload + zlen rest)); [|lia].
    unfold zlen. rewrite Nat2Z.id, take_app_length, drop_app_length. done.
Qed.

Lemma receive_wp (S : wire → Prop) w :
  (∀ rest, S (MkWire rest (outbound w))) →
  wp receive (λ r w', outbound w' = outbound w ∧
    match r with
    | Ok payload => zlen payload ≤ MAX_FRAME_BYTES ∧ inbound w = framed payload ++ inbound w'
    | Err _ => True
    end) S w.
Proof.
  intros HS. unfold receive. apply prog_bind. eapply prog_mono; [by apply read_frame_wp| |done].
  intros r w' [Hr Ho] Hw'. apply prog_ret; [done|]. split; [done|].
  by destruct r.
Qed.

(** Stopped anywhere, a part of the frame was written. *)
Lemma send_wp frame w :
  wp (send frame)
    (λ r w', inbound w' = inbound w ∧
       match r with Ok _ => outbound w' = outbound w ++ frame | Err _ => True end)
    (λ w', inbound w' = inbound w ∧ ∃ n, outbound w' = outbound w ++ take n frame) w.
Proof.
  assert (Hw : ∃ n, outbound w = outbound w ++ take n frame) by (exists 0%nat; by rewrite app_nil_r).
  unfold send. apply prog_bind, prog_call; [done|]. intros x w' Hd. cbn in Hd.
  destruct x as [[]|e]; [subst w'|destruct Hd as [n ->]]; (split; [cbn|apply prog_ret; cbn]); try done;
    (split; [done|]); [exists (length frame)|exists (length frame)|by exists n|by exists n];
    by rewrite firstn_all.
Qed.

(** ** Messages *)

(** The request a response answers, as its reader registered it. *)
Definition answers (kind : ResponseKind) (response : Response) : bool :=
  match response, kind with
  | HelloResponse _, KHello | Added _, KAdded | DownloadResponse _, KDownload
  | Resumed _, KResumed | StatusResponse _, KStatus | ErrorResponse _, _ => true
  | _, _ => false
  end.

Section messages.
Context {V : Type} `{Json V, Serde V HelloParams, Serde V AddParams, Serde V IdParams,
  Serde V VersionParams, Serde V HelloResult, Serde V StateResult, Serde V DownloadView,
  Serde V SystemStatus, !Serde V (RequestEnvelope V), !Serde V (SuccessEnvelope V),
  !Serde V ErrorEnvelope, !Envelopes V}.

Lemma ok_or_Ok {T E} (o : option T) (e : E) t : ok_or o e = Ok t ↔ o = Some t.
Proof. destruct o; cbn; naive_solver. Qed.

Lemma encode_json_spec {T} `{Serde V T} (value : T) frame :
  encode_json value = Ok frame ↔
  ∃ v payload, to_value value = Some v ∧ to_vec v = Some payload ∧
    zlen payload ≤ MAX_FRAME_BYTES ∧ frame = framed payload.
Proof.
  unfold encode_json. destruct (ok_or _ _) as [payload|e] eqn:E.
  - apply ok_or_Ok, bind_Some in E as (v & Hv & Hp).
    destruct (Z.ltb_spec MAX_FRAME_BYTES (zlen payload)); [split; [done|]; naive_solver lia|].
    destruct (Z.ltb_spec u32_max (zlen payload)).
    { unfold MAX_FRAME_BYTES, u32_max in *. lia. }
    naive_solver.
  - split; [done|]. intros (v & p & Hv & Hp & _).
    destruct (to_value value); simplify_eq/=. by rewrite Hp in E.
Qed.

Lemma parse_json_spec {T} `{Serde V T} (value : T) v payload :
  to_value value = Some v → to_vec v = Some payload →
  (parse_json payload : result T CodecError) = Ok value.
Proof.
  intros Hv Hp. unfold parse_json. rewrite (json_reads_back _ _ Hp). cbn.
  by rewrite (serde_reads_back _ _ Hv).
Qed.

Lemma decode_params_spec {T} `{Serde V T} (value : T) v :
  to_value value = Some v → (decode_params v : result T CodecError) = Ok value.
Proof. intros Hv. unfold decode_params. by rewrite (serde_reads_back _ _ Hv). Qed.

Lemma request_reads_back id request frame : encode_request id request = Ok frame →
  ∃ payload, frame = framed payload ∧ zlen payload ≤ MAX_FRAME_BYTES ∧
    decode_request payload = Ok (id, request).
Proof.
  unfold encode_request. destruct (method_of request) as [method params] eqn:Em.
  destruct params as [v|]; [|done]. cbn.
  intros (w & payload & Hw & Hp & Hmax & ->)%encode_json_spec.
  exists payload. split; [done|split; [done|]]. unfold decode_request.
  rewrite (parse_json_spec _ _ _ Hw Hp). cbn.
  destruct request; injection Em as <- Hv; cbn; by rewrite (decode_params_spec _ _ Hv).
Qed.

Lemma encode_success_spec {T} `{Serde V T} id (value : T) frame :
  encode_success id value = Ok frame → ∃ v w payload,
    to_value value = Some v ∧ to_value (MkSuccessEnvelope jsonrpc_version id v) = Some w ∧
    to_vec w = Some payload ∧ zlen payload ≤ MAX_FRAME_BYTES ∧ frame = framed payload.
Proof.
  unfold encode_success. destruct (to_value value) as [v|] eqn:Ev; [|done]. cbn.
  intros (w & payload & Hw & Hp & Hmax & ->)%encode_json_spec. by exists v, w, payload.
Qed.

Lemma response_reads_back id response kind frame :
  encode_response id response = Ok frame → answers kind response = true →
  ∃ payload, frame = framed payload ∧ zlen payload ≤ MAX_FRAME_BYTES ∧
    decode_response payload kind = Ok (id, response).
Proof.
  intros Henc Hkind.
  destruct response as [r|r|r|r|r|r]; cbn [encode_response] in Henc.
  6: { apply encode_json_spec in Henc as (w & payload & Hw & Hp & Hmax & ->).
       exists payload. split; [done|split; [done|]]. unfold decode_response.
       rewrite (json_reads_back _ _ Hp). cbn. rewrite (error_has_error _ _ Hw).
       by rewrite (decode_params_spec _ _ Hw). }
  all: apply encode_success_spec in Henc as (v & w & payload & Hv & Hw & Hp & Hmax & ->);
    destruct kind; try done;
    exists payload; (split; [done|split; [done|]]); unfold decode_response;
    rewrite (json_reads_back _ _ Hp); cbn; rewrite (success_has_no_error _ _ Hw),
      (decode_params_spec _ _ Hw); cbn; by rewrite (decode_params_spec _ _ Hv).
Qed.
End messages.

(** ** Properties *)

Section properties.
Context {V : Type} `{Json V, Serde V HelloParams, Serde V AddParams, Serde V IdParams,
  Serde V VersionParams, Serde V HelloResult, Serde V StateResult, Serde V DownloadView,
  Serde V SystemStatus, !Serde V (RequestEnvelope V), !Serde V (SuccessEnvelope V),
  !Serde V ErrorEnvelope, !Envelopes V}.

(** Reading a stream that begins with [frame] takes the frame, gives [payload], and leaves what
    follows. *)
Definition delivers (frame payload : list byte) : Prop := ∀ rest out,
  exec read_frame (MkWire (frame ++ rest) out) (MkWire rest out) (Some (Ok payload)) ∧
  ∀ w r, exec read_frame (MkWire (frame ++ rest) out) w (Some r) →
    w = MkWire rest out ∧ r = Ok payload.

(** Messages cross the boundary unchanged (I-11).  What a client encodes, the daemon reads from the
    stream as exactly that request, whatever follows it, and leaves what follows; and every
    response is read back under the request it answers.  From any stream at all a read takes one
    whole frame of at most [MAX_FRAME_BYTES], refuses a longer one after its header, before any
    byte of its body, or reports where the stream ended; it writes nothing. *)
Theorem messages_read_back :
  (∀ id request frame, encode_request id request = Ok frame → ∃ payload,
     delivers frame payload ∧ decode_request payload = Ok (id, request)) ∧
  (∀ id response kind frame,
     encode_response id response = Ok frame → answers kind response = true → ∃ payload,
     delivers frame payload ∧ decode_response payload kind = Ok (id, response)) ∧
  (∀ w w' r, exec read_frame w w' (Some r) →
     frame_read (inbound w) r (inbound w') ∧ outbound w' = outbound w).
Proof.
  assert (Hread : ∀ w w' r, exec read_frame w w' (Some r) →
     frame_read (inbound w) r (inbound w') ∧ outbound w' = outbound w).
  { intros w w' r Hx. exact (prog_sound _ _ _ _ _ _ (read_frame_wp (λ _, True) w ltac:(done)) Hx). }
  assert (Hframe : ∀ payload, zlen payload ≤ MAX_FRAME_BYTES → delivers (framed payload) payload).
  { intros payload Hmax rest out. split; [by apply read_frame_runs|].
    intros [inb outb] r [Hf Ho]%Hread. cbn in *.
    by destruct (frame_read_framed _ _ _ _ Hmax Hf) as [-> ->]; subst. }
  split_and!; [..|done].
  - intros id request frame (payload & -> & Hmax & Hd)%request_reads_back. eauto.
  - intros id response kind frame Henc Hk.
    destruct (response_reads_back _ _ _ _ Henc Hk) as (payload & -> & Hmax & Hd). eauto.
Qed.
End properties.

(** ** A codec

    Values are tokens, tagged with whether they are an error envelope. *)

Module Example_json.
Import Token.Token.

Definition value : Type := bool * list Z.
#[export] Instance tok_value : Tok value := tok_pair.

#[export] Program Instance json : Json value := {|
  to_vec v :=
    if forallb tok_fits (snd v)
    then Some ((if fst v then x01 else x00) :: flat_map tok_bytes (snd v)) else None;
  from_slice bytes :=
    match bytes with
    | b :: bytes => Some (bool_decide (b = x01), toks_of bytes)
    | [] => None
    end;
  has_error v := fst v;
|}.
Next Obligation.
  intros [t l] bytes. cbn [fst snd]. destruct (forallb tok_fits l) eqn:Ef; [|done].
  intros [= <-]. rewrite toks_of_bytes by done. by destruct t.
Qed.

Definition tagged {T} `{Tok T} (tag : bool) : Serde value T.
Proof.
  refine {| to_value t := Some (tag, put t);
            from_value v := if eqb (fst v) tag then option_map fst (get (snd v)) else None |}.
  intros t v [= <-]. cbn. rewrite eqb_reflx. pose proof (get_put t []) as Hg.
  rewrite app_nil_r in Hg. by rewrite Hg.
Defined.

#[export] Instance tok_secret : Tok SecretString :=
  tok_via expose (λ t, Some (SecretString_new t)) ltac:(by intros []).
#[export] Instance tok_id : Tok DownloadId :=
  tok_via id_text (λ raw, ok (DownloadId_new raw)) DownloadId_reads_back.
#[export] Instance tok_hello : Tok HelloParams :=
  tok_via (λ r, (hp_protocol_version r, hp_client r, hp_token r)) (λ '(v, c, t), Some (MkHello v c t)) ltac:(by intros []).
#[export] Instance tok_options : Tok AddOptions :=
  tok_via ao_connections (λ n, Some (MkAddOptions n)) ltac:(by intros []).
#[export] Instance tok_add : Tok AddParams :=
  tok_via (λ r, (ap_protocol_version r, ap_url r, ap_target r, ap_options r)) (λ '(v, u, t, o), Some (MkAdd v u t o)) ltac:(by intros []).
#[export] Instance tok_id_params : Tok IdParams :=
  tok_via (λ r, (ip_protocol_version r, ip_id r)) (λ '(v, i), Some (MkIdParams v i)) ltac:(by intros []).
#[export] Instance tok_version : Tok VersionParams :=
  tok_via vp_protocol_version (λ v, Some (MkVersion v)) ltac:(by intros []).
#[export] Instance tok_hello_result : Tok HelloResult :=
  tok_via (λ r, (hr_protocol_version r, hr_daemon_version r, hr_capabilities r)) (λ '(v, d, c), Some (MkHelloResult v d c)) ltac:(by intros []).

Definition state_code (s : WireState) : Z :=
  match s with
  | Submitted => 0 | Probing => 1 | Planned => 2 | Transferring => 3 | Paused => 4 | Stalled => 5
  | Verifying => 6 | Completed => 7 | Failed => 8
  end.
Definition state_of (n : Z) : WireState :=
  nth (Z.to_nat n)
    [Submitted; Probing; Planned; Transferring; Paused; Stalled; Verifying; Completed] Failed.
#[export] Instance tok_state : Tok WireState :=
  tok_via state_code (λ n, Some (state_of n)) ltac:(by intros []).
#[export] Instance tok_state_result : Tok StateResult :=
  tok_via (λ r, (sr_protocol_version r, sr_id r, sr_state r)) (λ '(v, i, s), Some (MkStateResult v i s)) ltac:(by intros []).
#[export] Instance tok_view : Tok DownloadView :=
  tok_via (λ r, (dv_protocol_version r, dv_id r, dv_state r, (dv_covered r, dv_total r), dv_error_kind r)) (λ '(v, i, s, (c, t), e), Some (MkView v i s c t e)) ltac:(by intros []).
#[export] Instance tok_status : Tok SystemStatus :=
  tok_via (λ r, (ss_protocol_version r, ss_version r, ss_uptime_seconds r, (ss_active r, ss_queued r), ss_throughput r)) (λ '(v, d, u, (a, q), t), Some (MkStatus v d u a q t)) ltac:(by intros []).
#[export] Instance tok_request : Tok (RequestEnvelope value) :=
  tok_via (λ r : RequestEnvelope value, (qe_jsonrpc r, qe_id r, qe_method r, qe_params r)) (λ '(j, i, m, p), Some (MkRequestEnvelope j i m p)) ltac:(by intros []).
#[export] Instance tok_success : Tok (SuccessEnvelope value) :=
  tok_via (λ r : SuccessEnvelope value, (se_jsonrpc r, se_id r, se_result r)) (λ '(j, i, r), Some (MkSuccessEnvelope j i r)) ltac:(by intros []).
#[export] Instance tok_error_data : Tok ErrorData :=
  tok_via (λ r, (ed_protocol_version r, ed_kind r, ed_download_id r, ed_recoverable r, ed_suggestion r)) (λ '(v, k, o, b, s), Some (MkErrorData v k o b s)) ltac:(by intros []).
#[export] Instance tok_rpc_error : Tok RpcError :=
  tok_via (λ r, (re_code r, re_message r, re_data r)) (λ '(c, m, d), Some (MkRpcError c m d)) ltac:(by intros []).
#[export] Instance tok_error : Tok ErrorEnvelope :=
  tok_via (λ r, (ee_jsonrpc r, ee_id r, ee_error r)) (λ '(j, i, e), Some (MkErrorEnvelope j i e)) ltac:(by intros []).

#[export] Instance hello_serde : Serde value HelloParams := tagged false.
#[export] Instance add_serde : Serde value AddParams := tagged false.
#[export] Instance id_serde : Serde value IdParams := tagged false.
#[export] Instance version_serde : Serde value VersionParams := tagged false.
#[export] Instance hello_result_serde : Serde value HelloResult := tagged false.
#[export] Instance state_serde : Serde value StateResult := tagged false.
#[export] Instance view_serde : Serde value DownloadView := tagged false.
#[export] Instance status_serde : Serde value SystemStatus := tagged false.
#[export] Instance request_serde : Serde value (RequestEnvelope value) := tagged false.
#[export] Instance success_serde : Serde value (SuccessEnvelope value) := tagged false.
#[export] Instance error_serde : Serde value ErrorEnvelope := tagged true.
#[export] Instance envelopes : Envelopes value.
Proof. split; by intros e v [= <-]. Qed.

Definition secret : SessionToken := SessionToken_from_bytes (replicate 32 x5a).
Definition greeting : Request := Hello (MkHello 1 (lit "dp") (to_wire secret)).
Definition frame_or_nothing (r : result (list byte) CodecError) : list byte :=
  match r with Ok frame => frame | Err _ => [] end.
Definition greeting_frame : list byte := frame_or_nothing (encode_request 7 greeting).

Lemma messages_read_back_witness :
  encode_request 7 greeting = Ok greeting_frame ∧
  ∃ payload, delivers greeting_frame payload ∧ decode_request payload = Ok (7, greeting).
Proof.
  assert (Henc : encode_request 7 greeting = Ok greeting_frame) by (vm_compute; reflexivity).
  split; [exact Henc|]. exact (proj1 messages_read_back 7 greeting greeting_frame Henc).
Defined.

End Example_json.

End Ipc.
