(* ===== verification/Transport.v ===== *)
(** * [downpour-ipc/src/transport.rs]: the daemon's endpoint, on Unix

    What both platforms share, over an interface the platform modules implement; and the Unix one:
    the private runtime directory, the listener, the session token installed by an atomic
    replacement, and how a client finds all three; run by any number of daemons that start beneath
    one runtime root, over a file system of named nodes. *)

From S2P Require Import Prelude Io Str Effects PartFile StorageSink Download Ipc.
From Stdlib Require Import String.
From stdpp Require Import list gmap strings.
#[local] Open Scope Z_scope.

Module Transport.
#[local] Notation path := PartFile.PartFile.path.
#[local] Notation path_join := StorageSink.StorageSink.path_join.
#[local] Notation os_str := Download.Download.os_str.
Import Io.Io Str.Str Effects.Effects Ipc.Ipc.

(** ** What the platforms share

    The items [use windows::{..}] or their Unix namesakes bring into the module: over the platform's
    calls [E], its root paths and its [EndpointPaths]. *)

Class Platform (E : Type → Type) (Root Paths : Type) := {
  platform_prepare_paths : Root → prog E (result Paths TransportError);
  platform_client_paths : Root → prog E (result Paths TransportError);
  platform_create_listener : Paths → prog E (result unit TransportError);
  platform_provision_token : Paths → SessionToken → prog E (result unit TransportError);
  platform_drop_listener : Paths → E unit;
  platform_fill_random : E (option (list byte));
  platform_read_token_file : Paths → E (result str Error);
}.

Record LocalListener (Paths : Type) := MkListener { ll_paths : Paths; ll_token : SessionToken }.
Arguments MkListener {Paths}.
Arguments ll_paths {Paths}.
Arguments ll_token {Paths}.

(** [io::Error::other]. *)
Definition other : TransportError := TrIo (MkError Other None).

Section platform.
Context {E : Type → Type}.

(** A call whose error becomes a [TransportError] through [?]. *)
Definition os {X} (c : E (result X Error)) : prog E (result X TransportError) :=
  let! r := call c in Ret (map_err TrIo r).

(** [SessionToken::generate] with its error mapped. *)
Definition generate_from (fill : E (option (list byte))) : prog E (result SessionToken TransportError) :=
  let! entropy := call fill in
  Ret (ok_or (SessionToken_generate entropy) other).

Context {Root Paths : Type} `{Platform E Root Paths}.

(** [bind] once the listener exists; on an error it is dropped. *)
Definition install (paths : Paths) : prog E (result (LocalListener Paths) TransportError) :=
  let! installed :=
    (let!? token := generate_from platform_fill_random in
     let!? _ := platform_provision_token paths token in
     Ret (Ok (MkListener paths token))) in
  match installed with
  | Ok listener => Ret (Ok listener)
  | Err error => let! _ := call (platform_drop_listener paths) in Ret (Err error)
  end.

Definition LocalListener_bind (runtime_root : Root)
    : prog E (result (LocalListener Paths) TransportError) :=
  let!? paths := platform_prepare_paths runtime_root in
  let!? _ := platform_create_listener paths in
  install paths.

Definition read_client_token (paths : Paths) : prog E (result SecretString TransportError) :=
  let!? wire := os (platform_read_token_file paths) in
  if negb (str_len wire =? 64) || negb (forallb is_lower_hex (as_bytes wire))
  then Ret (Err InvalidTokenFile)
  else Ret (Ok (SecretString_new wire)).
End platform.

Definition token_text (t : SessionToken) : str := expose (to_wire t).
Definition permission_denied : TransportError := TrIo (MkError PermissionDenied None).

(** ** The calls *)

Inductive FileType := Directory | Regular | Symlink | Socket.
#[export] Instance FileType_eq_dec : EqDecision FileType.
Proof. solve_decision. Defined.

(** [std::fs::Metadata]: what the code reads of it. *)
Record Metadata := MkMetadata { file_type : FileType; mode : Z; uid : Z }.

(** The operating system's, and the listener's of the [interprocess] crate; the file of [FileWriteAll]
    and [FileSyncAll] is the one that [OpenNew] opened at that path. *)
Inductive os_call : Type → Type :=
| DirCreate (p : path) (mode : Z) : os_call (result unit Error)
| SymlinkMetadata (p : path) : os_call (result Metadata Error)
| FsMetadata (p : path) : os_call (result Metadata Error)
| ToFsName (p : path) : os_call (result unit Error)
| CreateTokio (p : path) (mode : Z) : os_call (result unit Error)
| DropListener (p : path) : os_call unit
| FillRandom : os_call (option (list byte))
| OpenNew (p : path) (mode : Z) : os_call (result unit Error)
| FileWriteAll (p : path) (bytes : list byte) : os_call (result unit Error)
| FileSyncAll (p : path) : os_call (result unit Error)
| Rename (from to : path) : os_call (result unit Error)
| RemoveFile (p : path) : os_call (result unit Error)
| ReadToString (p : path) : os_call (result str Error).

(** ** The endpoint *)

Record EndpointPaths := MkPaths { runtime_dir : path; token_file : path; socket_path : path }.

Definition endpoint_paths (runtime_dir : path) : EndpointPaths :=
  MkPaths runtime_dir (path_join runtime_dir "session.token") (path_join runtime_dir "daemon.sock").

(** The checks both sides make of an existing runtime directory: real, [0o700], and owned by the
    owner of its root. *)
Definition check_private (runtime_root runtime_dir : path)
    : prog os_call (result unit TransportError) :=
  let!? metadata := os (SymlinkMetadata runtime_dir) in
  if negb (bool_decide (file_type metadata = Directory)) || negb (Z.land (mode metadata) 511 =? 448)
  then Ret (Err permission_denied) else
  let!? root_metadata := os (FsMetadata runtime_root) in
  if negb (uid metadata =? uid root_metadata) then Ret (Err permission_denied) else Ret (Ok tt).

Definition prepare_paths (runtime_root : path)
    : prog os_call (result EndpointPaths TransportError) :=
  let runtime_dir := path_join runtime_root "downpour" in
  let! created := call (DirCreate runtime_dir 448) in
  match created with
  | Ok _ => Ret (Ok (endpoint_paths runtime_dir))
  | Err error =>
      if bool_decide (kind error = AlreadyExists) then
        let!? _ := check_private runtime_root runtime_dir in
        Ret (Ok (endpoint_paths runtime_dir))
      else Ret (Err (TrIo error))
  end.

(** [EndpointPaths::discover]. *)
Definition client_paths (runtime_root : path)
    : prog os_call (result EndpointPaths TransportError) :=
  let runtime_dir := path_join runtime_root "downpour" in
  let!? _ := check_private runtime_root runtime_dir in
  Ret (Ok (endpoint_paths runtime_dir)).

Definition native_name (paths : EndpointPaths) : prog os_call (result unit TransportError) :=
  os (ToFsName (socket_path paths)).

Definition create_listener (paths : EndpointPaths) : prog os_call (result unit TransportError) :=
  let!? _ := native_name paths in
  os (CreateTokio (socket_path paths) 384).

Definition generate : prog os_call (result SessionToken TransportError) := generate_from FillRandom.

Definition temporary_name (runtime_dir : path) (nonce : SessionToken) : path :=
  path_join runtime_dir (".session.token." ++ os_str (token_text nonce)).

Definition provision_token (paths : EndpointPaths) (token : SessionToken)
    : prog os_call (result unit TransportError) :=
  let!? nonce := generate in
  let temporary := temporary_name (runtime_dir paths) nonce in
  let!? _ := os (OpenNew temporary 384) in
  let!? _ := os (FileWriteAll temporary (as_bytes (token_text token))) in
  let!? _ := os (FileSyncAll temporary) in
  let! renamed := call (Rename temporary (token_file paths)) in
  match renamed with
  | Ok _ => Ret (Ok tt)
  | Err error =>
      let! cleanup := call (RemoveFile temporary) in
      match cleanup with
      | Err _ => Ret (Err other)
      | Ok _ => Ret (Err (TrIo error))
      end
  end.

#[export] Instance unix : Platform os_call path EndpointPaths := {|
  platform_prepare_paths := prepare_paths;
  platform_client_paths := client_paths;
  platform_create_listener := create_listener;
  platform_provision_token := provision_token;
  platform_drop_listener paths := DropListener (socket_path paths);
  platform_fill_random := FillRandom;
  platform_read_token_file paths := ReadToString (token_file paths);
|}.

(** ** The file system

    Nodes by their path; a [creator]'s identity and mask for what is made. *)

Record Node := MkNode { nd_metadata : Metadata; nd_bytes : list byte; nd_target : path }.
Record fs := MkFs { nodes : gmap path Node; process_uid : Z; umask : Z }.

Definition with_nodes (f : gmap path Node → gmap path Node) (w : fs) : fs :=
  MkFs (f (nodes w)) (process_uid w) (umask w).
Definition create (p : path) (type : FileType) (m : Z) (w : fs) : fs :=
  with_nodes <[p := MkNode (MkMetadata type m (process_uid w)) [] EmptyString]> w.

(** Through symbolic links, of which Linux follows 40. *)
Fixpoint follow (fuel : nat) (w : fs) (p : path) : option Node :=
  match nodes w !! p with
  | Some n =>
      if bool_decide (file_type (nd_metadata n) = Symlink) then
        match fuel with O => None | S fuel => follow fuel w (nd_target n) end
      else Some n
  | None => None
  end.
Definition resolve : fs → path → option Node := follow 40.

(** The permissions [m] grants nothing beyond [bound]. *)
Definition within (m bound : Z) : Prop := Z.land m (Z.lnot bound) = 0.

(** What a call may answer, and what it does: a failed write may have written any part, and a
    listener that failed may have left its name; nothing else changes on an error.  A name is only
    created where there was none, and a listener's name is removed when it is dropped, if at all. *)
Definition fs_does {X} (c : os_call X) (w : fs) : X → fs → Prop :=
  match c in os_call X return X → fs → Prop with
  | DirCreate p m => λ x w',
      match x with
      | Ok _ => nodes w !! p = None ∧ w' = create p Directory (Z.land m (Z.lnot (umask w))) w
      | Err e => w' = w ∧ (kind e = AlreadyExists → is_Some (nodes w !! p))
      end
  | SymlinkMetadata p => λ x w', w' = w ∧
      ∀ md, x = Ok md → ∃ n, nodes w !! p = Some n ∧ md = nd_metadata n
  | FsMetadata p => λ x w', w' = w ∧
      ∀ md, x = Ok md → ∃ n, resolve w p = Some n ∧ md = nd_metadata n
  | ToFsName _ => λ _ w', w' = w
  | CreateTokio p m => λ x w',
      w' = w ∧ is_ok x = false ∨
      nodes w !! p = None ∧ ∃ m', within m' m ∧ w' = create p Socket m' w
  | DropListener p => λ _ w', w' = w ∨ w' = with_nodes (delete p) w
  | FillRandom => λ x w', w' = w ∧ ∀ bytes, x = Some bytes → length bytes = 32%nat
  | OpenNew p m => λ x w',
      match x with
      | Ok _ => nodes w !! p = None ∧ w' = create p Regular (Z.land m (Z.lnot (umask w))) w
      | Err _ => w' = w
      end
  | FileWriteAll p bytes => λ x w', ∃ k, (x = Ok tt → take k bytes = bytes) ∧
      w' = with_nodes (alter (λ n, MkNode (nd_metadata n) (nd_bytes n ++ take k bytes) (nd_target n)) p) w
  | FileSyncAll _ => λ _ w', w' = w
  | Rename p q => λ x w',
      match x with
      | Ok _ => ∃ n, nodes w !! p = Some n ∧ w' = with_nodes (λ m, <[q := n]> (delete p m)) w
      | Err _ => w' = w
      end
  | RemoveFile p => λ x w',
      match x with Ok _ => w' = with_nodes (delete p) w | Err _ => w' = w end
  | ReadToString p => λ x w', w' = w ∧
      ∀ t, x = Ok t → ∃ n, resolve w p = Some n ∧ nd_bytes n = as_bytes t
  end.
#[export] Instance fs_world : World os_call fs := @fs_does.

(** ** Daemons that start together *)

Notation thread := (prog os_call (result (LocalListener EndpointPaths) TransportError)).

(** Any of them makes its next call, or none ever again. *)
Inductive step : fs * list thread → fs * list thread → Prop :=
| Step i X (e : os_call X) (k : X → thread) x w w' ts :
    ts !! i = Some (Vis e k) → does e w x w' → step (w, ts) (w', <[i := k x]> ts).

(** ** Names *)

Definition relative (name : string) : Prop := String.prefix "/" name = false.

Lemma string_app_length (a b : string) : String.length (a ++ b) = (String.length a + String.length b)%nat.
Proof. induction a as [|x a IH]; [done|]. exact (f_equal S IH). Qed.

Lemma path_join_before d : d ≠ EmptyString →
  ∃ before, (String.length d <= String.length before)%nat ∧
    ∀ name, relative name → path_join d name = (before ++ name)%string.
Proof.
  intros Hd. unfold path_join, relative.
  destruct (String.eqb_spec d EmptyString) as [|_]; [done|].
  destruct (String.eqb _ "/").
  - exists d. split; [done|]. by intros name ->.
  - exists (d ++ "/")%string. split; [rewrite string_app_length; lia|]. intros name ->.
    by rewrite StorageSink.StorageSink.string_app_assoc.
Qed.
Lemma path_join_inj d a b : d ≠ EmptyString → relative a → relative b →
  path_join d a = path_join d b → a = b.
Proof.
  intros Hd Ha Hb. destruct (path_join_before d Hd) as (before & _ & Hj). rewrite !Hj by done.
  apply (inj (String.append before)).
Qed.
Lemma path_join_longer d a : d ≠ EmptyString → relative a → a ≠ EmptyString → path_join d a ≠ d.
Proof.
  intros Hd Ha Hne. destruct (path_join_before d Hd) as (before & Hl & Hj). rewrite Hj by done.
  intros Heq%(f_equal String.length). rewrite string_app_length in Heq. destruct a; cbn in *; [done|lia].
Qed.
Lemma path_join_nonempty d a : relative a → a ≠ EmptyString → path_join d a ≠ EmptyString.
Proof.
  intros Ha Hne. destruct (decide (d = EmptyString)) as [->|Hd].
  { unfold path_join. by rewrite Ha. }
  destruct (path_join_before d Hd) as (before & _ & Hj). rewrite Hj by done.
  intros Heq%(f_equal String.length). rewrite string_app_length in Heq. destruct a; cbn in *; [done|lia].
Qed.

Section endpoint.
Context (runtime_root : path) (w0 : fs).

Definition the_dir : path := path_join runtime_root "downpour".
Definition the_paths : EndpointPaths := endpoint_paths the_dir.
Definition the_token : path := token_file the_paths.
Definition the_socket : path := socket_path the_paths.

Lemma the_dir_nonempty : the_dir ≠ EmptyString.
Proof. by apply path_join_nonempty. Qed.
Lemma token_not_dir : the_token ≠ the_dir.
Proof. by apply path_join_longer; [apply the_dir_nonempty|..]. Qed.
Lemma socket_not_dir : the_socket ≠ the_dir.
Proof. by apply path_join_longer; [apply the_dir_nonempty|..]. Qed.
Lemma socket_not_token : the_socket ≠ the_token.
Proof. intros Heq. by apply path_join_inj in Heq; [|apply the_dir_nonempty|..]. Qed.
Lemma temporary_apart t : let p := temporary_name the_dir t in
  p ≠ the_dir ∧ p ≠ the_token ∧ p ≠ the_socket.
Proof.
  pose proof the_dir_nonempty. split; [by apply path_join_longer|].
  split; intros Heq; by apply path_join_inj in Heq.
Qed.

(** ** What a starting daemon keeps *)

(** A file that only this user may read. *)
Definition private (n : Node) : Prop :=
  file_type (nd_metadata n) = Regular ∧ within (mode (nd_metadata n)) 384 ∧
  uid (nd_metadata n) = process_uid w0.

(** A whole token in a private file. *)
Definition holds_token (t : SessionToken) (n : Node) : Prop :=
  private n ∧ length (token_bytes t) = 32%nat ∧ nd_bytes n = as_bytes (token_text t).

Definition made_dir : Node :=
  MkNode (MkMetadata Directory (Z.land 448 (Z.lnot (umask w0))) (process_uid w0)) [] EmptyString.

(** What may have become of the file system [w0]: the directory was made, the name of the socket
    was taken where it was free, and only then a whole token was installed; any other path is as it
    was, unless it is a new private temporary file. *)
Record kept (w : fs) : Prop := {
  kept_process : process_uid w = process_uid w0 ∧ umask w = umask w0;
  kept_dir : nodes w !! the_dir = nodes w0 !! the_dir ∨
    nodes w0 !! the_dir = None ∧ nodes w !! the_dir = Some made_dir;
  kept_socket : is_Some (nodes w0 !! the_socket) → nodes w !! the_socket = nodes w0 !! the_socket;
  kept_token : nodes w !! the_token = nodes w0 !! the_token ∨
    nodes w0 !! the_socket = None ∧ ∃ t n, nodes w !! the_token = Some n ∧ holds_token t n;
  kept_rest p : p ≠ the_dir → p ≠ the_token → p ≠ the_socket →
    nodes w !! p = nodes w0 !! p ∨
    nodes w0 !! p = None ∧ (∃ t, p = temporary_name the_dir t) ∧
      ∀ n, nodes w !! p = Some n → private n;
}.

(** The listener is bound, by someone who started after [w0]. *)
Definition bound (w : fs) : Prop :=
  nodes w0 !! the_socket = None ∧
  ∃ n, nodes w !! the_socket = Some n ∧ file_type (nd_metadata n) = Socket ∧
    within (mode (nd_metadata n)) 384 ∧ uid (nd_metadata n) = process_uid w0.
Definition has_dir (w : fs) : Prop := is_Some (nodes w !! the_dir).
Definition held (w : fs) : Prop := kept w ∧ bound w ∧ has_dir w.

Definition installed (l : LocalListener EndpointPaths) (w : fs) : Prop :=
  ll_paths l = the_paths ∧ ∃ n, nodes w !! the_token = Some n ∧ holds_token (ll_token l) n.

(** *** Changes of one node *)

Lemma kept_temporary w t f : let p := temporary_name the_dir t in
  nodes w0 !! p = None → (∀ n, f (nodes w !! p) = Some n → private n) →
  held w → held (with_nodes (partial_alter f p) w).
Proof.
  intros p H0 Hf [[Hp Hd Hs Ht Hr] [[Hb0 Hb] Hdir]].
  destruct (temporary_apart t) as (Hpd & Hpt & Hps). fold p in Hpd, Hpt, Hps.
  assert (Hne : ∀ q, q ≠ p → nodes (with_nodes (partial_alter f p) w) !! q = nodes w !! q).
  { intros q Hq. cbn. by rewrite lookup_partial_alter_ne. }
  split; [|split].
  - constructor; rewrite ?Hne by done; try done. intros q Hq1 Hq2 Hq3.
    destruct (decide (q = p)) as [->|Hq]; [|rewrite Hne by done; by apply Hr].
    right. split; [done|]. split; [by exists t|]. cbn. by rewrite lookup_partial_alter_eq.
  - unfold bound. by rewrite Hne.
  - unfold has_dir. by rewrite Hne.
Qed.

Lemma kept_installed w n t : held w → holds_token t n →
  held (with_nodes <[the_token := n]> w).
Proof.
  intros [[Hp Hd Hs Ht Hr] [[Hb0 Hb] Hdir]] Hn.
  assert (Hne : ∀ q, q ≠ the_token → nodes (with_nodes <[the_token := n]> w) !! q = nodes w !! q).
  { intros q Hq. cbn. by rewrite lookup_insert_ne. }
  pose proof token_not_dir. pose proof socket_not_token.
  split; [|split].
  - constructor; rewrite ?Hne by done; try done.
    + right. split; [done|]. exists t, n. cbn. by rewrite lookup_insert_eq.
    + intros q Hq1 Hq2 Hq3. rewrite Hne by done. by apply Hr.
  - unfold bound. by rewrite Hne.
  - unfold has_dir. by rewrite Hne.
Qed.

(** ** The daemon that has the listener *)

(** Its own temporary file, with what it has written of it. *)
Definition writing (t : SessionToken) (bytes : list byte) (w : fs) : Prop :=
  let p := temporary_name the_dir t in
  held w ∧ nodes w0 !! p = None ∧ ∃ n, nodes w !! p = Some n ∧ private n ∧ nd_bytes n = bytes.

Lemma within_mask m mask : within (Z.land m mask) m.
Proof.
  unfold within. rewrite (Z.land_comm m), <- Z.land_assoc, Z.land_lnot_diag. apply Z.land_0_r.
Qed.

Lemma opened w t u w' :
  held w → does (OpenNew (temporary_name the_dir t) 384) w (Ok u) w' → writing t [] w'.
Proof.
  intros Hh [Hp ->]. pose proof Hh as [Hk _]. destruct (temporary_apart t) as (Hd & Ht & Hs).
  set (n := MkNode (MkMetadata Regular (Z.land 384 (Z.lnot (umask w))) (process_uid w)) [] EmptyString).
  assert (Hn : private n).
  { split; [done|]. split; [apply within_mask|]. apply (kept_process _ Hk). }
  assert (H0 : nodes w0 !! temporary_name the_dir t = None).
  { destruct (kept_rest _ Hk (temporary_name the_dir t)) as [<-|[? _]]; done. }
  split; [|split; [done|]].
  - apply (kept_temporary w t (λ _, Some n)); [done| |done]. by intros ? [= <-].
  - exists n. split; [|done]. cbn. apply lookup_insert_eq.
Qed.

Lemma wrote w t bs bytes r w' :
  writing t bs w → does (FileWriteAll (temporary_name the_dir t) bytes) w r w' →
  ∃ k, writing t (bs ++ take k bytes) w' ∧ (r = Ok tt → take k bytes = bytes).
Proof.
  intros (Hh & H0 & n & Hp & Hn & Hb) (k & Hk & ->). exists k. split; [|done].
  split; [|split; [done|]].
  - apply kept_temporary; [done| |done]. rewrite Hp. by intros ? [= <-].
  - exists (MkNode (nd_metadata n) (bs ++ take k bytes) (nd_target n)). split; [|done].
    cbn [nodes with_nodes]. by rewrite lookup_alter_eq, Hp, <- Hb.
Qed.

Lemma renamed w t token u w' :
  writing t (as_bytes (token_text token)) w → length (token_bytes token) = 32%nat →
  does (Rename (temporary_name the_dir t) the_token) w (Ok u) w' →
  held w' ∧ installed (MkListener the_paths token) w'.
Proof.
  intros (Hh & H0 & n & Hp & Hn & Hb) Hl (n' & Hp' & ->). rewrite Hp' in Hp.
  injection Hp as ->. split.
  - change (held (with_nodes <[the_token := n]> (with_nodes (delete (temporary_name the_dir t)) w))).
    apply (kept_installed _ n token); [|done].
    by apply (kept_temporary w t (λ _, None)).
  - split; [done|]. exists n. split; [|done]. apply lookup_insert_eq.
Qed.

Lemma removed w t bs r w' :
  writing t bs w → does (RemoveFile (temporary_name the_dir t)) w r w' → held w'.
Proof.
  intros (Hh & H0 & _). destruct r; intros ->; [|done]. by apply (kept_temporary w t (λ _, None)).
Qed.

Lemma os_wp {X} (c : os_call (result X Error)) Q (S : fs → Prop) w : S w →
  (∀ x w', does c w x w' → S w' ∧ Q (map_err TrIo x) w') → wp (os c) Q S w.
Proof. intros HS Hd. apply prog_bind, prog_call; [done|]. intros x w' [? ?]%Hd. by split. Qed.

Lemma generate_wp (Q : result SessionToken TransportError → fs → Prop) (S : fs → Prop) w : S w →
  Q (Err other) w → (∀ t, length (token_bytes t) = 32%nat → Q (Ok t) w) → wp generate Q S w.
Proof.
  intros HS He Hok. apply prog_bind, prog_call; [done|]. intros x w' [-> Hx].
  split; [done|]. apply prog_ret; [done|]. destruct x as [bytes|]; [|done]. by apply Hok, Hx.
Qed.

Lemma provision_wp token w : length (token_bytes token) = 32%nat → held w →
  wp (provision_token the_paths token)
    (λ r w', r = Ok tt → installed (MkListener the_paths token) w') held w.
Proof.
  intros Hl Hh. assert (Hw : ∀ t bs w', writing t bs w' → held w') by (by intros ??? [? _]).
  apply prog_bind, generate_wp; [done|by apply prog_ret|]. intros nonce _. cbv beta iota zeta.
  apply prog_bind, os_wp; [done|]. intros r w1 H1. change (runtime_dir the_paths) with the_dir in *.
  destruct r as [u|e]; cycle 1. { cbn in H1. subst w1. split; [done|]. by apply prog_ret. }
  apply opened in H1; [|done]. split; [by eapply Hw|].
  apply prog_bind, os_wp; [by eapply Hw|]. intros r w2 H2.
  eapply wrote in H2 as (k & H2 & Hk); [|exact H1]. split; [by eapply Hw|].
  destruct r as [[]|e]; [rewrite (Hk eq_refl) in H2|apply prog_ret; [by eapply Hw|done]].
  apply prog_bind, os_wp; [by eapply Hw|]. intros r w3 ->. split; [by eapply Hw|].
  destruct r as [u'|e]; [|apply prog_ret; [by eapply Hw|done]].
  apply prog_bind, prog_call; [by eapply Hw|]. intros [v|e] w3 H3.
  - eapply renamed in H3 as [? ?]; [|exact H2|done]. split; [done|]. by apply prog_ret.
  - cbn in H3. subst w3. split; [by eapply Hw|]. apply prog_bind, prog_call; [by eapply Hw|].
    intros r w3 H3. eapply removed in H3; [|exact H2]. split; [done|].
    destruct r; by apply prog_ret.
Qed.

Definition is_drop {X} (c : os_call X) : bool := match c with DropListener _ => true | _ => false end.
Fixpoint drop_free {A} (p : prog os_call A) : Prop :=
  match p with
  | Ret _ => True
  | Vis e k => is_drop e = false ∧ ∀ x, drop_free (k x)
  end.

(** A thread that has the listener: it stays in [held], installs its token, or drops the listener as
    the last thing it does. *)
Fixpoint holding (p : thread) (w : fs) : Prop :=
  held w ∧
  match p with
  | Ret r => ∃ l, r = Ok l ∧ installed l w
  | Vis e k => ∀ x w', does e w x w' →
      if is_drop e then kept w' ∧ has_dir w' ∧ ∃ err, k x = Ret (Err err) else holding (k x) w'
  end.

Lemma holding_bind {A} (p : prog os_call A) (f : A → thread) w :
  drop_free p → wp p (λ a w, holding (f a) w) held w → holding (Effects.bind p f) w.
Proof.
  revert w. induction p as [a|X e k IH]; intros w Hd [Hh Hp]; [done|].
  destruct Hd as [He Hk]. split; [done|]. intros x w' Hx. rewrite He. apply IH; [done|by apply Hp].
Qed.

Lemma dropped w x w' : held w → does (DropListener the_socket) w x w' → kept w' ∧ has_dir w'.
Proof.
  intros [[Hp Hd Hs Ht Hr] [[Hb0 _] Hdir]] [-> | ->]; [done|].
  assert (Hne : ∀ q, q ≠ the_socket → nodes (with_nodes (delete the_socket) w) !! q = nodes w !! q).
  { intros q Hq. cbn [nodes with_nodes]. by rewrite lookup_delete_ne. }
  pose proof socket_not_dir. pose proof socket_not_token. split.
  - constructor; rewrite ?Hne by done; try done.
    + intros [? Hq]. by rewrite Hb0 in Hq.
    + intros q ???. rewrite Hne by done. by apply Hr.
  - unfold has_dir. by rewrite Hne.
Qed.

Lemma drop_free_generate : drop_free generate.
Proof. by split. Qed.
Lemma drop_free_bind {A B} (p : prog os_call A) (f : A → prog os_call B) :
  drop_free p → (∀ a, drop_free (f a)) → drop_free (Effects.bind p f).
Proof. induction p as [a|X e k IH]; cbn; [auto|]. intros [? ?] Hf. split; [done|]. intros x. by apply IH. Qed.
Lemma drop_free_os {X} (c : os_call (result X Error)) : is_drop c = false → drop_free (os c).
Proof. by split. Qed.
Lemma drop_free_provision paths token : drop_free (provision_token paths token).
Proof.
  apply drop_free_bind; [apply drop_free_generate|]. intros [nonce|]; [|done].
  do 3 (apply drop_free_bind; [by apply drop_free_os|]; intros [?|]; [|done]).
  split; [done|]. intros [?|]; [done|]. split; [done|]. by intros [?|].
Qed.

Lemma install_holds w : held w → holding (install the_paths) w.
Proof.
  intros Hh. apply holding_bind.
  { apply drop_free_bind; [apply drop_free_generate|]. intros [token|]; [|done].
    apply drop_free_bind; [apply drop_free_provision|]. by intros [?|]. }
  assert (Hend : ∀ e w', held w' → holding (let! _ := call (DropListener the_socket) in Ret (Err e)) w').
  { intros e w' Hw. split; [done|]. intros x w1 Hd. cbn [is_drop].
    destruct (dropped _ _ _ Hw Hd). split; [done|]. split; [done|]. by exists e. }
  apply prog_bind, generate_wp; [done|by apply prog_ret, Hend|]. intros token Hl.
  apply prog_bind. eapply prog_mono; [by apply provision_wp| |done].
  intros r w' Hr Hw. destruct r as [[]|e]; apply prog_ret; [done| |done|by apply Hend].
  split; [done|]. exists (MkListener the_paths token). split; [done|by apply Hr].
Qed.

(** ** A daemon that does not have it yet *)

Definition fresh_call {X} (c : os_call X) (seen : bool) : (X → bool → Prop) → (X → Prop) → Prop :=
  match c in os_call X return (X → bool → Prop) → (X → Prop) → Prop with
  | DirCreate p m => λ next _, p = the_dir ∧ m = 448 ∧ ∀ x,
      next x (match x with Ok _ => true | Err e => seen || bool_decide (kind e = AlreadyExists) end)
  | SymlinkMetadata _ => λ next _, ∀ x, next x seen
  | FsMetadata _ => λ next _, ∀ x, next x seen
  | ToFsName _ => λ next _, ∀ x, next x seen
  | CreateTokio p m => λ next has, seen = true ∧ p = the_socket ∧ m = 384 ∧ ∀ x,
      match x with Ok _ => has x | Err _ => next x seen end
  | _ => λ _ _, False
  end.

(** [seen]: it knows that the runtime directory exists. *)
Fixpoint fresh (seen : bool) (p : thread) : Prop :=
  match p with
  | Ret r => is_ok r = false
  | Vis e k => fresh_call e seen (λ x seen, fresh seen (k x)) (λ x, k x = install the_paths)
  end.

Lemma fresh_bind : fresh false (LocalListener_bind runtime_root).
Proof.
  split; [done|]. split; [done|].
  assert (Hlisten : fresh true (let!? _ := create_listener the_paths in install the_paths)).
  { intros [u|e]; [|done]. split; [done|]. split; [done|]. split; [done|]. by intros [u'|e]. }
  intros [u|e]; [done|]. cbn. case_bool_decide as He; [|done]. cbn.
  intros [md|e']; [|done]. cbn. destruct (negb _ || negb _); [done|].
  intros [rmd|e']; [|done]. cbn. destruct (negb _); [done|]. exact Hlisten.
Qed.

Lemma made_directory w u w' :
  kept w → does (DirCreate the_dir 448) w (Ok u) w' → kept w' ∧ has_dir w' ∧ ¬ has_dir w.
Proof.
  intros [Hp Hd Hs Ht Hr] [Hnone ->].
  set (n := MkNode (MkMetadata Directory (Z.land 448 (Z.lnot (umask w))) (process_uid w)) [] EmptyString).
  assert (Hne : ∀ q, q ≠ the_dir → nodes (create the_dir Directory (Z.land 448 (Z.lnot (umask w))) w) !! q
    = nodes w !! q).
  { intros q Hq. cbn [nodes with_nodes create]. by rewrite lookup_insert_ne. }
  assert (Heq : nodes (create the_dir Directory (Z.land 448 (Z.lnot (umask w))) w) !! the_dir = Some n)
    by apply lookup_insert_eq.
  pose proof token_not_dir. pose proof socket_not_dir. split; [|split].
  - constructor; rewrite ?Hne by done; try done.
    + right. split; [destruct Hd as [<-|[? _]]; done|]. rewrite Heq. unfold n, made_dir.
      by destruct Hp as [-> ->].
    + intros q ???. rewrite Hne by done. by apply Hr.
  - by exists n.
  - intros [? Hq]. by rewrite Hq in Hnone.
Qed.

Lemma took_name w m : kept w → nodes w !! the_socket = None → within m 384 →
  let w' := create the_socket Socket m w in
  kept w' ∧ bound w' ∧ (has_dir w → has_dir w') ∧ ¬ held w.
Proof.
  intros [Hp Hd Hs Ht Hr] Hnone Hm w'.
  assert (Hne : ∀ q, q ≠ the_socket → nodes w' !! q = nodes w !! q).
  { intros q Hq. cbn [nodes with_nodes create w']. by rewrite lookup_insert_ne. }
  assert (H0 : nodes w0 !! the_socket = None).
  { destruct (nodes w0 !! the_socket) as [n|] eqn:E; [|done]. rewrite Hs in Hnone by done. congruence. }
  pose proof socket_not_token. pose proof socket_not_dir. split; [|split; [|split]].
  - constructor; rewrite ?Hne by done; try done.
    + intros [? Hq]. congruence.
    + intros q ???. rewrite Hne by done. by apply Hr.
  - split; [done|]. eexists. split; [apply lookup_insert_eq|]. by destruct Hp as [<- _].
  - unfold has_dir. by rewrite Hne.
  - intros (_ & [_ (n & Hn & _)] & _). congruence.
Qed.

(** One step of a thread without the listener. *)
Lemma fresh_step w X (e : os_call X) k x w' seen :
  kept w → (seen = true → has_dir w) → fresh seen (Vis e k) → does e w x w' →
  kept w' ∧ (has_dir w → has_dir w') ∧ (held w → w' = w) ∧
  ((∃ seen', fresh seen' (k x) ∧ (seen' = true → has_dir w')) ∨
   (k x = install the_paths ∧ held w' ∧ ¬ held w)).
Proof.
  intros Hk Hseen Hf Hd. cbn [fresh] in Hf. destruct e; cbn [fresh_call] in Hf; try done.
  - destruct Hf as (-> & -> & Hf). specialize (Hf x). destruct x as [u|e].
    + destruct (made_directory _ _ _ Hk Hd) as (Hk' & Hdir & Hno). split; [done|]. split; [done|].
      split; [by intros (_ & _ & ?)|]. left. by exists true.
    + destruct Hd as [-> Hd]. split; [done|]. split; [done|]. split; [done|]. left. eexists.
      split; [exact Hf|]. intros [Hs|He]%orb_true_iff; [by apply Hseen|].
      apply Hd. by case_bool_decide.
  - destruct Hd as [-> _]. split; [done|]. split; [done|]. split; [done|]. left. by exists seen.
  - destruct Hd as [-> _]. split; [done|]. split; [done|]. split; [done|]. left. by exists seen.
  - cbn in Hd. subst w'. split; [done|]. split; [done|]. split; [done|]. left. by exists seen.
  - destruct Hf as (-> & -> & -> & Hf). specialize (Hf x).
    destruct Hd as [[-> Hx]|(Hnone & m & Hm & ->)].
    + split; [done|]. split; [done|]. split; [done|]. left. destruct x; [done|]. by exists true.
    + destruct (took_name _ _ Hk Hnone Hm) as (Hk' & Hb & Hdir & Hno). split; [done|].
      split; [done|]. split; [by intros ?%Hno|]. destruct x as [u|e].
      * right. split; [done|]. split; [|done]. split; [done|]. split; [done|]. by apply Hdir, Hseen.
      * left. exists true. split; [done|]. intros _. by apply Hdir, Hseen.
Qed.

(** ** Any interleaving *)

(** The thread [h], if any, has the listener; no other thread does. *)
Definition phase (w : fs) (h : option nat) (i : nat) (t : thread) : Prop :=
  if decide (h = Some i) then holding t w
  else ∃ seen, fresh seen t ∧ (seen = true → has_dir w).
Definition sound (s : fs * list thread) : Prop :=
  let '(w, ts) := s in
  kept w ∧ ∃ h, (is_Some h → held w) ∧ ∀ i t, ts !! i = Some t → phase w h i t.

Lemma holding_held p w : holding p w → held w.
Proof. destruct p; cbn; tauto. Qed.

Lemma step_sound s s' : sound s → step s s' → sound s'.
Proof.
  intros Hs Hstep. destruct Hstep as [i X e k x w w' ts Hi Hd].
  destruct Hs as (Hk & h & Hheld & Hall). pose proof (Hall _ _ Hi) as Hme. unfold phase in Hme.
  assert (Hlt : (i < length ts)%nat) by (by eapply lookup_lt_Some).
  assert (Hothers : ∀ P : nat → thread → Prop, (∀ j t, j ≠ i → ts !! j = Some t → P j t) →
    P i (k x) → ∀ j t, <[i := k x]> ts !! j = Some t → P j t).
  { intros P Hp Hx j t Hj. destruct (decide (j = i)) as [->|Hne].
    - rewrite list_lookup_insert_eq in Hj by done. by injection Hj as <-.
    - rewrite list_lookup_insert_ne in Hj by done. by apply Hp. }
  destruct (decide (h = Some i)) as [->|Hne].
  - assert (Hrest : has_dir w' → ∀ h', (∀ j, h' = Some j → j = i) →
      ∀ j t, j ≠ i → ts !! j = Some t → phase w' h' j t).
    { intros Hdir h' Hh' j t Hj Ht. specialize (Hall _ _ Ht). unfold phase in *.
      destruct (decide (Some i = Some j)); [congruence|].
      destruct (decide (h' = Some j)) as [He|_]; [by apply Hh' in He|].
      destruct Hall as (seen & Hf & _). by exists seen. }
    destruct Hme as [Hw Hme]. specialize (Hme x w' Hd). destruct (is_drop e).
    + destruct Hme as (Hk' & Hdir & err & Hx). split; [done|]. exists None. split; [by intros []|].
      apply Hothers; [by apply Hrest|]. rewrite Hx. by exists false.
    + pose proof (holding_held _ _ Hme) as Hw'. split; [apply Hw'|]. exists (Some i).
      split; [done|]. apply Hothers; [apply Hrest; [apply Hw'|by intros ? [= ->]]|].
      unfold phase. by rewrite decide_True.
  - destruct Hme as (seen & Hf & Hseen).
    destruct (fresh_step _ _ _ _ _ _ _ Hk Hseen Hf Hd) as (Hk' & Hdir & Hsame & Hnext).
    split; [done|]. destruct Hnext as [(seen' & Hf' & Hseen')|(Hx & Hw' & Hno)].
    + exists h. split; [intros Hh; rewrite Hsame; auto|]. apply Hothers.
      * intros j t _ Ht. specialize (Hall _ _ Ht). unfold phase in *.
        destruct (decide (h = Some j)) as [->|]; [rewrite Hsame by (by apply Hheld); done|].
        destruct Hall as (s & ? & ?). exists s. auto.
      * unfold phase. rewrite decide_False by done. by exists seen'.
    + assert (h = None) as -> by (destruct h; [exfalso; by apply Hno, Hheld|done]).
      exists (Some i). split; [done|]. apply Hothers.
      * intros j t Hj Ht. specialize (Hall _ _ Ht). unfold phase in *.
        rewrite decide_False in Hall by done. rewrite decide_False by congruence.
        destruct Hall as (s & ? & ?). exists s. auto.
      * unfold phase. rewrite decide_True by done. rewrite Hx. by apply install_holds.
Qed.

Lemma start_sound n : sound (w0, replicate n (LocalListener_bind runtime_root)).
Proof.
  split; [by constructor; auto|]. exists None. split; [by intros []|].
  intros i t [-> _]%lookup_replicate. exists false. split; [apply fresh_bind|done].
Qed.

Lemma runs_sound n s :
  rtc step (w0, replicate n (LocalListener_bind runtime_root)) s → sound s.
Proof.
  intros Hr. pose proof (start_sound n) as Hs. induction Hr; [done|]. eauto using step_sound.
Qed.

(** A thread that runs alone. *)
Lemma thread_runs i (p : thread) w w' r ts :
  (i < length ts)%nat → exec p w w' (Some r) → rtc step (w, <[i := p]> ts) (w', <[i := Ret r]> ts).
Proof.
  intros Hi. revert w. induction p as [a|X e k IH]; intros w.
  - by intros [-> [[= ->]|]].
  - intros [[_ ?]|(x & w1 & Hd & Hx)]; [done|]. eapply rtc_l; [|by apply IH].
    rewrite <- (list_insert_insert_eq ts i (k x) (Vis e k)).
    eapply Step; [by apply list_lookup_insert_eq|done].
Qed.

(** ** The client's side *)

(** The runtime directory is a real directory only its owner can use, who owns the root too. *)
Definition trusted (w : fs) : Prop :=
  ∃ n root, nodes w !! the_dir = Some n ∧ file_type (nd_metadata n) = Directory ∧
    Z.land (mode (nd_metadata n)) 511 = 448 ∧
    resolve w runtime_root = Some root ∧ uid (nd_metadata n) = uid (nd_metadata root).

Lemma read_only {A} (p : prog os_call A) Q w w' o :
  wp p Q (eq w) w → exec p w w' o → w' = w ∧ ∀ r, o = Some r → Q r w.
Proof.
  intros Hp Hx. apply (prog_sound _ (λ r w', w = w' ∧ Q r w) (eq w)) in Hx.
  - destruct o as [a|]; [destruct Hx as [<- ?]|by subst]. split; [done|]. by intros r [= <-].
  - eapply prog_mono; [exact Hp| |done]. by intros a w2 ? <-.
Qed.

Lemma discover_wp w :
  wp (client_paths runtime_root) (λ r w', ∀ paths, r = Ok paths → paths = the_paths ∧ trusted w) (eq w) w.
Proof.
  apply prog_bind. unfold check_private. apply prog_bind, os_wp; [done|]. intros r w' [-> Hn].
  split; [done|]. destruct r as [md|e]; [|by split; [|split]].
  destruct (Hn md eq_refl) as (n & Hp & ->). cbn [map_err].
  destruct (bool_decide _) eqn:Ht; [apply bool_decide_eq_true in Ht|by split; [|split]].
  destruct (Z.eqb_spec (Z.land (mode (nd_metadata n)) 511) 448) as [Hm|]; [|by split; [|split]].
  cbn [negb orb]. apply prog_bind, os_wp; [done|]. intros r w' [-> Hr].
  split; [done|]. destruct r as [rmd|e]; [|by split; [|split]].
  destruct (Hr rmd eq_refl) as (root & Hroot & ->). cbn [map_err].
  destruct (Z.eqb_spec (uid (nd_metadata n)) (uid (nd_metadata root))); [|by split; [|split]].
  split; [done|]. apply prog_ret; [done|]. intros paths [= <-]. split; [done|]. by exists n, root.
Qed.

Definition canonical (t : str) : Prop := str_len t = 64 ∧ forallb is_lower_hex (as_bytes t) = true.

Lemma read_token_wp paths w :
  wp (read_client_token paths)
    (λ r w', match r with
             | Ok secret => canonical (expose secret) ∧
                 ∃ n, resolve w (token_file paths) = Some n ∧ nd_bytes n = as_bytes (expose secret)
             | Err InvalidTokenFile =>
                 ∃ n t, resolve w (token_file paths) = Some n ∧ nd_bytes n = as_bytes t ∧ ¬ canonical t
             | Err _ => True
             end) (eq w) w.
Proof.
  apply prog_bind, os_wp; [done|]. intros r w' [-> Hn]. split; [done|].
  destruct r as [t|e]; [|by split]. destruct (Hn t eq_refl) as (n & Hp & Hb). cbn [map_err].
  unfold canonical. destruct (Z.eqb_spec (str_len t) 64) as [Hl|Hl]; cbn [negb orb];
    [|split; [done|]; exists n, t; split; [done|]; split; [done|]; by intros [? _]].
  destruct (forallb is_lower_hex (as_bytes t)) eqn:Ef; cbn [negb]; (split; [done|]).
  - split; [done|]. by exists n.
  - exists n, t. split; [done|]. split; [done|]. intros [_ ?]. congruence.
Qed.

Lemma str_len_ascii t : ascii_text t → str_len t = zlen t.
Proof.
  induction 1 as [|c t Hc _ IH]; [done|]. rewrite str_len_cons, zlen_cons, IH.
  unfold len_utf8. by rewrite (proj2 (Z.ltb_lt c 128)) by lia.
Qed.

Lemma token_text_canonical t : length (token_bytes t) = 32%nat → canonical (token_text t).
Proof.
  intros Hl. change (token_text t) with (hex_text (token_bytes t)). split.
  - rewrite str_len_ascii by apply hex_text_ascii. unfold zlen. rewrite length_hex_text. lia.
  - rewrite as_bytes_hex. clear Hl. induction (token_bytes t) as [|b bytes IH]; [done|].
    rewrite hex_text_cons. cbn [map forallb]. rewrite IH. destruct (nibbles b) as (Hh & Hlow & _).
    assert (HP : ∀ n, 0 ≤ n < 16 → is_lower_hex (byte_of (hex_char n)) = true).
    { intros n. by apply (forallb_seqZ (λ n, is_lower_hex (byte_of (hex_char n))) 0 16). }
    by rewrite !HP.
Qed.

(** What a client reads of a private token file is the token. *)
Lemma installed_token l w n : installed l w → resolve w the_token = Some n →
  ∀ text, nd_bytes n = as_bytes text → text = token_text (ll_token l).
Proof.
  intros (_ & n' & Hn' & (Ht & _ & _) & _ & Hb) Hr text Htext. unfold resolve in Hr.
  cbn [follow] in Hr. rewrite Hn', bool_decide_eq_false_2 in Hr by by rewrite Ht.
  injection Hr as ->. rewrite Hb in Htext.
  change (token_text (ll_token l)) with (hex_text (token_bytes (ll_token l))) in *.
  apply as_bytes_inj_ascii; [apply hex_text_ascii|]. by rewrite <- Htext, as_bytes_hex.
Qed.

Lemma trusted_discovers w : trusted w →
  exec (client_paths runtime_root) w w (Some (Ok the_paths)).
Proof.
  intros (n & root & Hn & Ht & Hm & Hr & Hu). unfold client_paths, check_private, os.
  eapply (exec_call (SymlinkMetadata the_dir) _ (Ok (nd_metadata n)) w w).
  { split; [done|]. intros md [= <-]. by exists n. }
  cbn [Effects.bind map_err]. rewrite bool_decide_eq_true_2, Hm by done. cbn [negb orb Z.eqb Pos.eqb].
  eapply (exec_call (FsMetadata runtime_root) _ (Ok (nd_metadata root)) w w).
  { split; [done|]. intros md [= <-]. by exists root. }
  cbn [Effects.bind map_err]. rewrite Hu, Z.eqb_refl. apply exec_return.
Qed.

Lemma installed_reads l w : installed l w →
  exec (read_client_token the_paths) w w (Some (Ok (to_wire (ll_token l)))).
Proof.
  intros (_ & n & Hn & (Ht & _ & _) & Hl & Hb). unfold read_client_token, os.
  eapply (exec_call (ReadToString the_token) _ (Ok (token_text (ll_token l))) w w).
  { split; [done|]. intros t [= <-]. exists n. split; [|done]. unfold resolve. cbn [follow].
    by rewrite Hn, bool_decide_eq_false_2 by by rewrite Ht. }
  cbn [Effects.bind map_err]. destruct (token_text_canonical _ Hl) as [-> ->].
  cbn [Z.eqb negb orb]. unfold token_text. destruct (to_wire (ll_token l)). apply exec_return.
Qed.

Lemma finished w ts i l : sound (w, ts) → ts !! i = Some (Ret (Ok l)) →
  held w ∧ installed l w ∧ ∀ j l', ts !! j = Some (Ret (Ok l')) → j = i.
Proof.
  intros (_ & h & Hheld & Hall) Hi.
  assert (Hh : ∀ j l', ts !! j = Some (Ret (Ok l')) → h = Some j ∧ installed l' w).
  { intros j l' Hj. specialize (Hall _ _ Hj). unfold phase in Hall. case_decide as Hd.
    - destruct Hall as [_ (l2 & [= ->] & ?)]. done.
    - by destruct Hall as (seen & [=] & _). }
  destruct (Hh _ _ Hi) as [-> Hinst]. split; [by apply Hheld|]. split; [done|].
  intros j l' [[= ->] _]%Hh. done.
Qed.

(** A directory that was made under a mask that spares its owner is trusted, if who made it owns the
    root. *)
Lemma made_dir_trusted w root : held w → nodes w0 !! the_dir = None → Z.land (umask w0) 448 = 0 →
  resolve w runtime_root = Some root → uid (nd_metadata root) = process_uid w0 → trusted w.
Proof.
  intros [[_ Hd _ _ _] [_ [n Hn]]] H0 Hu Hr Hroot. exists made_dir, root.
  split; [destruct Hd as [Hd|[_ Hd]]; [congruence|done]|]. split; [done|]. split; [|done].
  cbn [made_dir nd_metadata mode]. replace (Z.land 448 (Z.lnot (umask w0))) with 448; [done|].
  symmetry. apply Z.bits_inj'. intros k Hk. rewrite Z.land_spec, Z.lnot_spec by done.
  apply (f_equal (λ z, Z.testbit z k)) in Hu. rewrite Z.land_spec, Z.bits_0 in Hu.
  destruct (Z.testbit 448 k), (Z.testbit (umask w0) k); done.
Qed.
End endpoint.

(** ** Properties *)

(** C37: One daemon holds the endpoint.  However many daemons start beneath one runtime root, in any
    interleaving of their calls, with any of the calls failing and any daemon killed anywhere: at
    most one [bind] succeeds, and its socket is bound with mode [0o600] at most and its token is
    whole in a file only its user may read.  At every moment the token file is the one that was
    there before, or a whole token in a private file; it is the former as long as another daemon
    has the socket's name; and no other path that existed is ever touched. *)
Theorem one_daemon_holds_the_endpoint runtime_root w0 n w ts :
  rtc step (w0, replicate n (LocalListener_bind runtime_root)) (w, ts) →
  kept runtime_root w0 w ∧
  ∀ i l, ts !! i = Some (Ret (Ok l)) →
    bound runtime_root w0 w ∧ installed runtime_root w0 l w ∧
    ∀ j l', ts !! j = Some (Ret (Ok l')) → j = i.
Proof.
  intros Hs%runs_sound. split; [apply Hs|]. intros i l Hi.
  destruct (finished _ _ _ _ _ _ Hs Hi) as ((_ & Hb & _) & Hinst & Huniq). done.
Qed.

(** C38: Clients find their daemon and trust nothing else.  Wherever a client is stopped, looking for the
    endpoint and reading its token changes nothing; an endpoint is accepted only beneath a real
    directory of mode [0o700] whose owner owns the runtime root, and a token only if it is 64
    lowercase hexadecimal digits, any other text being refused as malformed.  After a daemon has
    bound, the token a client reads is accepted by that daemon, and a client whose calls succeed
    finds the daemon's paths and its token: if the directory is trusted, as it is when the daemon
    made it under a mask that spares its owner and owns the root. *)
Theorem clients_find_the_daemon runtime_root w :
  (∀ w' o, exec (client_paths runtime_root) w w' o → w' = w ∧
     ∀ paths, o = Some (Ok paths) → paths = the_paths runtime_root ∧ trusted runtime_root w) ∧
  (∀ paths w' o, exec (read_client_token paths) w w' o → w' = w ∧
     (∀ secret, o = Some (Ok secret) → canonical (expose secret)) ∧
     (o = Some (Err InvalidTokenFile) → ∃ n t, resolve w (token_file paths) = Some n ∧
        nd_bytes n = as_bytes t ∧ ¬ canonical t)) ∧
  ∀ w0 n ts i l,
    rtc step (w0, replicate n (LocalListener_bind runtime_root)) (w, ts) →
    ts !! i = Some (Ret (Ok l)) →
    (∀ w' secret, exec (read_client_token (ll_paths l)) w w' (Some (Ok secret)) →
       matches_wire (ll_token l) (expose secret) = true) ∧
    exec (read_client_token (ll_paths l)) w w (Some (Ok (to_wire (ll_token l)))) ∧
    (trusted runtime_root w →
       exec (client_paths runtime_root) w w (Some (Ok (ll_paths l)))) ∧
    (∀ root, nodes w0 !! the_dir runtime_root = None → Z.land (umask w0) 448 = 0 →
       resolve w runtime_root = Some root → uid (nd_metadata root) = process_uid w0 →
       trusted runtime_root w).
Proof.
  split; [|split].
  - intros w' o Hx. eapply read_only in Hx as [-> Hq]; [|apply discover_wp]. split; [done|].
    intros paths Ho. by apply (Hq _ Ho).
  - intros paths w' o Hx. eapply read_only in Hx as [-> Hq]; [|apply read_token_wp].
    split; [done|]. split; [intros secret Ho; apply (Hq _ Ho)|]. intros Ho. apply (Hq _ Ho).
  - intros w0 n ts i l Hs%runs_sound Hi.
    destruct (finished _ _ _ _ _ _ Hs Hi) as (Hh & Hinst & _). pose proof Hinst as (-> & m & _ & _ & Hl & _).
    split; [|split; [|split]].
    + intros w' secret Hx. eapply read_only in Hx as [-> Hq]; [|apply read_token_wp].
      destruct (Hq _ eq_refl) as (_ & k & Hk & Hb).
      apply matches_wire_spec; [done|]. eapply installed_token in Hb; [|done..]. done.
    + by eapply installed_reads.
    + apply trusted_discovers.
    + intros root. by eapply made_dir_trusted.
Qed.

(** ** Two daemons beneath one root, and a client *)

Module Example_start.
Definition root : path := "/run"%string.
Definition dir_node : Node := MkNode (MkMetadata Directory 448 1000) [] EmptyString.
Definition before : fs := MkFs {[root := dir_node]} 1000 18.
Definition secret : SessionToken := SessionToken_from_bytes (replicate 32 xa5).
Definition nonce : SessionToken := SessionToken_from_bytes (replicate 32 x5a).
Definition listener : LocalListener EndpointPaths := MkListener (the_paths root) secret.
Definition in_use : Error := MkError Other (Some 98).
Definition temporary : path := temporary_name (the_dir root) nonce.
Definition token_node : Node :=
  MkNode (MkMetadata Regular 384 1000) (as_bytes (token_text secret)) EmptyString.
Definition after_listen : fs :=
  create (the_socket root) Socket 384 (create (the_dir root) Directory 448 before).
Definition after : fs := with_nodes <[the_token root := token_node]> after_listen.

Lemma first_starts : exec (LocalListener_bind root) before after (Some (Ok listener)).
Proof.
  eapply (exec_call (DirCreate (the_dir root) 448) _ (Ok tt)); [by split|].
  eapply (exec_call (ToFsName (the_socket root)) _ (Ok tt)); [done|].
  eapply (exec_call (CreateTokio (the_socket root) 384) _ (Ok tt)).
  { right. split; [by vm_compute|]. by exists 384. }
  eapply (exec_call FillRandom _ (Some (token_bytes secret))); [split; [done|by intros ? [= <-]]|].
  eapply (exec_call FillRandom _ (Some (token_bytes nonce))); [split; [done|by intros ? [= <-]]|].
  eapply (exec_call (OpenNew temporary 384) _ (Ok tt)); [split; [by vm_compute|done]|].
  eapply (exec_call (FileWriteAll temporary (as_bytes (token_text secret))) _ (Ok tt)).
  { exists 64%nat. split; [by vm_compute|done]. }
  eapply (exec_call (FileSyncAll temporary) _ (Ok tt)); [done|].
  eapply (exec_call (Rename temporary (the_token root)) _ (Ok tt)).
  { exists token_node. split; [by vm_compute|done]. }
  split; [|by left]. vm_compute. reflexivity.
Qed.

Lemma second_is_refused : exec (LocalListener_bind root) after after (Some (Err (TrIo in_use))).
Proof.
  eapply (exec_call (DirCreate (the_dir root) 448) _ (Err (MkError AlreadyExists None))).
  { split; [done|]. intros _. by eexists. }
  eapply (exec_call (SymlinkMetadata (the_dir root)) _ (Ok (nd_metadata dir_node)) _ after).
  { split; [done|]. intros md [= <-]. by exists dir_node. }
  eapply (exec_call (FsMetadata root) _ (Ok (nd_metadata dir_node)) _ after).
  { split; [done|]. intros md [= <-]. by exists dir_node. }
  eapply (exec_call (ToFsName (the_socket root)) _ (Ok tt)); [done|].
  eapply (exec_call (CreateTokio (the_socket root) 384) _ (Err in_use)); [by left|].
  apply exec_return.
Qed.

Lemma both_start : rtc step (before, replicate 2 (LocalListener_bind root))
  (after, [Ret (Ok listener); Ret (Err (TrIo in_use))]).
Proof.
  etransitivity.
  - apply (thread_runs 0 (LocalListener_bind root) before after (Ok listener) [LocalListener_bind root; LocalListener_bind root]);
      [cbn; lia|apply first_starts].
  - apply (thread_runs 1 (LocalListener_bind root) after after (Err (TrIo in_use)) [Ret (Ok listener); LocalListener_bind root]);
      [cbn; lia|apply second_is_refused].
Qed.

Lemma one_daemon_holds_the_endpoint_witness :
  kept root before after ∧ bound root before after ∧ installed root before listener after.
Proof.
  destruct (one_daemon_holds_the_endpoint root before 2 _ _ both_start) as [Hk Hl].
  destruct (Hl 0%nat listener eq_refl) as (Hb & Hi & _). done.
Defined.

Lemma clients_find_the_daemon_witness :
  exec (client_paths root) after after (Some (Ok (ll_paths listener))) ∧
  exec (read_client_token (ll_paths listener)) after after (Some (Ok (to_wire secret))) ∧
  matches_wire secret (expose (to_wire secret)) = true.
Proof.
  destruct (clients_find_the_daemon root after) as (_ & _ & Hl).
  destruct (Hl before 2%nat _ 0%nat listener both_start eq_refl) as (Hm & Hr & Hd & Ht).
  split; [|split; [done|by eapply Hm]]. apply Hd, (Ht dir_node); by vm_compute.
Defined.
End Example_start.
End Transport.
