(* ===== verification/Windows.v ===== *)
(** * [downpour-ipc/src/transport/windows.rs]: the daemon's endpoint on Windows

    The current user's SID, the security descriptor made of it, the runtime directory, named pipe
    and token file under that descriptor; the other implementation of [Transport]'s [Platform]. *)

From S2P Require Import Prelude Io Str Effects Ipc Transport.
From Stdlib Require Import String.
From stdpp Require Import list gmap.
#[local] Open Scope Z_scope.

Module Windows.
Import Io.Io Str.Str Effects.Effects Ipc.Ipc.
Import Transport.Transport (Platform, LocalListener, MkListener, ll_paths, ll_token, other, generate_from,
  install, LocalListener_bind, read_client_token, token_text, permission_denied, platform_prepare_paths,
  platform_client_paths, platform_create_listener, platform_provision_token, platform_drop_listener,
  platform_fill_random, platform_read_token_file).

(** ** Wide strings

    UTF-16 code units; a path is the units of its [OsStr]. *)

Definition wide := list Z.
Notation wpath := wide.

Definition encode_utf16_char (c : Z) : wide :=
  if c <? 65536 then [c] else [55296 + (c - 65536) / 1024; 56320 + (c - 65536) mod 1024].
(** [str::encode_utf16]. *)
Definition encode_utf16 (s : str) : wide := flat_map encode_utf16_char s.

(** [String::from_utf16]: a surrogate only as the half of a pair. *)
Fixpoint from_utf16 (units : wide) : option str :=
  match units with
  | [] => Some []
  | u :: rest =>
      if (u <? 55296) || (57344 <=? u) then cons_char u (from_utf16 rest)
      else if 56320 <=? u then None
      else match rest with
           | low :: rest =>
               if (56320 <=? low) && (low <? 57344)
               then cons_char (65536 + (u - 55296) * 1024 + (low - 56320)) (from_utf16 rest)
               else None
           | [] => None
           end
  end.

Definition wide_path (p : wpath) : wide := p ++ [0].

Definition is_separator (u : Z) : bool := (u =? 92) || (u =? 47).
Definition drive_only (p : wpath) : bool :=
  match p with
  | [letter; colon] => (is_ascii_lowercase letter || is_ascii_uppercase letter) && (colon =? 58)
  | _ => false
  end.
(** [Path::join] of one plain component to a path without a verbatim prefix. *)
Definition wide_join (dir : wpath) (name : wide) : wpath :=
  match last dir with
  | None => name
  | Some u => if is_separator u || drive_only dir then dir ++ name else dir ++ 92 :: name
  end.

(** ** The calls

    [SD] is the [interprocess] crate's security descriptor.  A false [bool] is the zero by which a
    call of the API reports that it failed, leaving its error to [LastOsError]. *)

Section windows.
Context {SD : Type}.

Inductive win_call : Type → Type :=
| OpenProcessToken : win_call bool
| QueryTokenSize : win_call Z
| QueryTokenUser (capacity : Z) : win_call (option (list byte))
| ConvertSidToStringSid (sid : list byte) : win_call (option (option wide))
| LocalFree (pointer : option wide) : win_call bool
| LastOsError : win_call Error
| Deserialize (sddl : wide) : win_call (result SD Error)
| CreateDirectory (p : wide) (sd : SD) : win_call bool
| GetFileAttributes (p : wide) : win_call Z
| SetFileSecurity (p : wide) (information : Z) (sd : SD) : win_call bool
| Canonicalize (p : wpath) : win_call (result wpath Error)
| ToNsName (name : str) : win_call (result unit Error)
| CreateTokio (name : str) (sd : SD) : win_call (result unit Error)
| DropListener (name : str) : win_call unit
| FillRandom : win_call (option (list byte))
| CreateFile (p : wide) (sd : SD) : win_call bool
| FileWriteAll (p : wide) (bytes : list byte) : win_call (result unit Error)
| FileSyncAll (p : wide) : win_call (result unit Error)
| MoveFileEx (from to_ : wide) (flags : Z) : win_call bool
| RemoveFile (p : wpath) : win_call (result unit Error)
| ReadToString (p : wpath) : win_call (result str Error).

Definition last_os_error {A} : prog win_call (result A Error) :=
  let! error := call LastOsError in Ret (Err error).
(** The call succeeded, or its error. *)
Definition checked (c : win_call bool) : prog win_call (result unit Error) :=
  let! done := call c in if done : bool then Ret (Ok tt) else last_os_error.

(** [?] from [io::Error] to [TransportError]. *)
Definition io {A} (p : prog win_call (result A Error)) : prog win_call (result A TransportError) :=
  let! r := p in Ret (map_err TrIo r).

(** ** The user *)

(** Up to the terminator, which the allocation holds. *)
Fixpoint until_nul (units : wide) : wide :=
  match units with
  | [] => []
  | u :: units => if u =? 0 then [] else u :: until_nul units
  end.

Definition copy_local_wide_string (pointer : option wide) : result str Error :=
  match pointer with
  | None => Err invalid_data
  | Some units => ok_or (from_utf16 (until_nul units)) invalid_data
  end.

Definition current_user_sid : prog win_call (result str Error) :=
  let!? _ := checked OpenProcessToken in
  let! required := call QueryTokenSize in
  if required =? 0 then last_os_error else
  let! user := call (QueryTokenUser required) in
  match user with
  | None => last_os_error
  | Some sid =>
      let! converted := call (ConvertSidToStringSid sid) in
      match converted with
      | None => last_os_error
      | Some string_sid =>
          let sid_result := copy_local_wide_string string_sid in
          let!? _ := checked (LocalFree string_sid) in
          Ret sid_result
      end
  end.

(** The descriptor's text: owned by the user, a protected list that grants the user everything. *)
Definition sddl (sid : str) : str :=
  lit "O:" ++ sid ++ lit "G:" ++ sid ++ lit "D:P(A;;GA;;;" ++ sid ++ lit ")".

(** What the widestring crate does: the units of a text without a NUL. *)
Class WideStrings := {
  U16CString_from_str : str → option wide;
  U16CString_from_str_units s units : U16CString_from_str s = Some units → units = encode_utf16 s;
}.
Context `{WideStrings, Digest}.

Definition descriptor_for_sid (sid : str) : prog win_call (result SD Error) :=
  match U16CString_from_str (sddl sid) with
  | None => Ret (Err (MkError Other None))
  | Some sddl => call (Deserialize sddl)
  end.

(** ** The runtime directory *)

Definition FILE_ATTRIBUTE_DIRECTORY : Z := 16.
Definition FILE_ATTRIBUTE_REPARSE_POINT : Z := 1024.
Definition INVALID_FILE_ATTRIBUTES : Z := 4294967295.
(** [OWNER_SECURITY_INFORMATION | DACL_SECURITY_INFORMATION | PROTECTED_DACL_SECURITY_INFORMATION]. *)
Definition owner_and_protected_dacl : Z := Z.lor (Z.lor 1 4) 2147483648.

Definition denied : Error := MkError PermissionDenied None.

(** Neither a file nor a reparse point. *)
Definition real_directory (flags : Z) : bool :=
  negb (Z.land flags FILE_ATTRIBUTE_DIRECTORY =? 0) && (Z.land flags FILE_ATTRIBUTE_REPARSE_POINT =? 0).

(** The attributes of a path that must be a real directory. *)
Definition check_directory (wide : wide) : prog win_call (result unit Error) :=
  let! flags := call (GetFileAttributes wide) in
  if flags =? INVALID_FILE_ATTRIBUTES then last_os_error
  else if real_directory flags then Ret (Ok tt) else Ret (Err denied).

Definition create_or_secure_directory (p : wpath) (descriptor : SD)
    : prog win_call (result unit Error) :=
  let wide := wide_path p in
  let! created := call (CreateDirectory wide descriptor) in
  if created : bool then Ret (Ok tt) else
  let! error := call LastOsError in
  if negb (bool_decide (kind error = AlreadyExists)) then Ret (Err error) else
  let!? _ := check_directory wide in
  checked (SetFileSecurity wide owner_and_protected_dacl descriptor).

(** ** The endpoint *)

Record EndpointPaths := MkPaths { runtime_dir : wpath; token_file : wpath; pipe : str }.

(** [to_le_bytes] of every code unit. *)
Definition wide_bytes (units : wide) : list byte := flat_map (to_le_bytes 2) units.

Definition pipe_name (runtime_dir : wpath) (sid : str) : prog win_call (result str Error) :=
  let!? canonical := call (Canonicalize runtime_dir) in
  let digest := hex_text (blake3 (wide_bytes canonical)) in
  Ret (Ok (lit "downpour-" ++ sid ++ lit "-" ++ take_bytes 32 digest)).

Definition paths_of (runtime_dir : wpath) (pipe : str) : EndpointPaths :=
  MkPaths runtime_dir (wide_join runtime_dir (lit "session.token")) pipe.

Definition prepare_paths (runtime_root : wpath) : prog win_call (result EndpointPaths TransportError) :=
  let!? sid := io current_user_sid in
  let!? descriptor := io (descriptor_for_sid sid) in
  let runtime_dir := wide_join runtime_root (lit "downpour") in
  let!? _ := io (create_or_secure_directory runtime_dir descriptor) in
  let!? pipe := io (pipe_name runtime_dir sid) in
  Ret (Ok (paths_of runtime_dir pipe)).

Definition client_paths (runtime_root : wpath) : prog win_call (result EndpointPaths TransportError) :=
  let!? sid := io current_user_sid in
  let runtime_dir := wide_join runtime_root (lit "downpour") in
  let!? _ := io (check_directory (wide_path runtime_dir)) in
  let!? pipe := io (pipe_name runtime_dir sid) in
  Ret (Ok (paths_of runtime_dir pipe)).

Definition native_name (paths : EndpointPaths) : prog win_call (result unit TransportError) :=
  io (call (ToNsName (pipe paths))).

Definition create_listener (paths : EndpointPaths) : prog win_call (result unit TransportError) :=
  let!? sid := io current_user_sid in
  let!? descriptor := io (descriptor_for_sid sid) in
  let!? _ := native_name paths in
  io (call (CreateTokio (pipe paths) descriptor)).

(** ** The token *)

Definition create_secure_file (p : wpath) (descriptor : SD) : prog win_call (result unit Error) :=
  checked (CreateFile (wide_path p) descriptor).

(** [MOVEFILE_REPLACE_EXISTING | MOVEFILE_WRITE_THROUGH]. *)
Definition replace_through : Z := Z.lor 1 8.

Definition temporary_name (runtime_dir : wpath) (nonce : SessionToken) : wpath :=
  wide_join runtime_dir (lit ".session.token." ++ token_text nonce).

(** The file of a handle is named by the path it was created at. *)
Definition provision_token (paths : EndpointPaths) (token : SessionToken)
    : prog win_call (result unit TransportError) :=
  let!? sid := io current_user_sid in
  let!? descriptor := io (descriptor_for_sid sid) in
  let!? nonce := generate_from FillRandom in
  let temporary := temporary_name (runtime_dir paths) nonce in
  let!? _ := io (create_secure_file temporary descriptor) in
  let!? _ := io (call (FileWriteAll (wide_path temporary) (as_bytes (token_text token)))) in
  let!? _ := io (call (FileSyncAll (wide_path temporary))) in
  let! installed := call (MoveFileEx (wide_path temporary) (wide_path (token_file paths)) replace_through) in
  if installed : bool then Ret (Ok tt) else
  let! error := call LastOsError in
  let! cleanup := call (RemoveFile temporary) in
  match cleanup with
  | Err _ => Ret (Err other)
  | Ok _ => Ret (Err (TrIo error))
  end.

#[export] Instance windows_platform : Platform win_call wpath EndpointPaths := {|
  platform_prepare_paths := prepare_paths;
  platform_client_paths := client_paths;
  platform_create_listener := create_listener;
  platform_provision_token := provision_token;
  platform_drop_listener paths := DropListener (pipe paths);
  platform_fill_random := FillRandom;
  platform_read_token_file paths := ReadToString (token_file paths);
|}.
(** ** The machine

    The namespace of files and of pipes, and the calling thread's last error.  The machine has one
    user; the text of a SID, what a descriptor's text means and the final name of a path do not
    change. *)

Record Node := MkNode { nd_attributes : Z; nd_descriptor : SD; nd_bytes : list byte }.
Record win := MkWin { nodes : gmap wide Node; pipes : gmap str SD; last_error : Error }.

Context (user : list byte) (sid_text : list byte → wide) (sd_parse : wide → option SD)
  (final_name : wpath → wpath).

Definition with_nodes (f : gmap wide Node → gmap wide Node) (w : win) : win :=
  MkWin (f (nodes w)) (pipes w) (last_error w).
Definition with_pipes (f : gmap str SD → gmap str SD) (w : win) : win :=
  MkWin (nodes w) (f (pipes w)) (last_error w).
(** Nothing but the last error changed. *)
Definition failed (w w' : win) : Prop := nodes w' = nodes w ∧ pipes w' = pipes w.

(** What a call may answer, and what it does.  A name is only created where there was none; a failed
    write may have written any part; nothing else changes on an error. *)
Definition win_does {X} (c : win_call X) (w : win) : X → win → Prop :=
  match c in win_call X return X → win → Prop with
  | OpenProcessToken => λ ok w', if ok : bool then w' = w else failed w w'
  | QueryTokenSize => λ _ w', failed w w'
  | QueryTokenUser _ => λ x w', match x with Some sid => sid = user ∧ w' = w | None => failed w w' end
  | ConvertSidToStringSid sid => λ x w',
      match x with
      | Some pointer => w' = w ∧
          ∀ units, pointer = Some units → ∃ rest, units = sid_text sid ++ 0 :: rest
      | None => failed w w'
      end
  | LocalFree _ => λ ok w', if ok : bool then w' = w else failed w w'
  | LastOsError => λ x w', x = last_error w ∧ w' = w
  | Deserialize sddl => λ x w', w' = w ∧ ∀ sd, x = Ok sd → sd_parse sddl = Some sd
  | CreateDirectory p sd => λ ok w',
      if ok : bool then nodes w !! until_nul p = None ∧
        w' = with_nodes <[until_nul p := MkNode FILE_ATTRIBUTE_DIRECTORY sd []]> w
      else failed w w' ∧ (kind (last_error w') = AlreadyExists → is_Some (nodes w !! until_nul p))
  | GetFileAttributes p => λ flags w',
      if flags =? INVALID_FILE_ATTRIBUTES then failed w w'
      else w' = w ∧ ∃ n, nodes w !! until_nul p = Some n ∧ flags = nd_attributes n
  | SetFileSecurity p information sd => λ ok w',
      if ok : bool then ∃ sd', (information = owner_and_protected_dacl → sd' = sd) ∧
        w' = with_nodes (alter (λ n, MkNode (nd_attributes n) sd' (nd_bytes n)) (until_nul p)) w
      else failed w w'
  | Canonicalize p => λ x w', w' = w ∧ ∀ q, x = Ok q → q = final_name p
  | ToNsName _ => λ _ w', w' = w
  | CreateTokio name sd => λ x w',
      match x with
      | Ok _ => pipes w !! name = None ∧ w' = with_pipes <[name := sd]> w
      | Err _ => w' = w
      end
  | DropListener name => λ _ w', w' = with_pipes (delete name) w
  | FillRandom => λ x w', w' = w ∧ ∀ bytes, x = Some bytes → length bytes = 32%nat
  | CreateFile p sd => λ ok w',
      if ok : bool then nodes w !! until_nul p = None ∧
        w' = with_nodes <[until_nul p := MkNode 128 sd []]> w
      else failed w w'
  | FileWriteAll p bytes => λ x w', ∃ k, (x = Ok tt → take k bytes = bytes) ∧
      w' = with_nodes (alter (λ n, MkNode (nd_attributes n) (nd_descriptor n) (nd_bytes n ++ take k bytes))
             (until_nul p)) w
  | FileSyncAll _ => λ _ w', w' = w
  | MoveFileEx from to_ flags => λ ok w',
      if ok : bool then ∃ n, nodes w !! until_nul from = Some n ∧
        w' = with_nodes (λ m, <[until_nul to_ := n]> (delete (until_nul from) m)) w
      else failed w w'
  | RemoveFile p => λ x w', match x with Ok _ => w' = with_nodes (delete p) w | Err _ => w' = w end
  | ReadToString p => λ x w', w' = w ∧
      ∀ t, x = Ok t → ∃ n, nodes w !! p = Some n ∧ nd_bytes n = as_bytes t
  end.
#[export] Instance win_world : World win_call win := @win_does.

(** *** Names *)

Lemma until_nul_path p : 0 ∉ p → until_nul (wide_path p) = p.
Proof.
  unfold wide_path. induction p as [|u p IH]; intros Hp; cbn; [done|].
  rewrite (proj2 (Z.eqb_neq u 0)) by set_solver. f_equal. apply IH. set_solver.
Qed.

Lemma wide_join_app dir : dir ≠ [] → ∃ before, (length dir <= length before)%nat ∧
  (0 ∉ dir → 0 ∉ before) ∧ ∀ name, wide_join dir name = before ++ name.
Proof.
  intros Hd. unfold wide_join. destruct (last dir) as [u|] eqn:E; [|by apply last_None in E].
  destruct (_ || _).
  - by exists dir.
  - exists (dir ++ [92]). rewrite length_app. split; [lia|]. split; [set_solver|].
    intros name. by rewrite <- app_assoc.
Qed.
Lemma wide_join_inj dir a b : dir ≠ [] → wide_join dir a = wide_join dir b → a = b.
Proof. intros Hd. destruct (wide_join_app dir Hd) as (before & _ & _ & Hj). rewrite !Hj. apply (inj _). Qed.
Lemma wide_join_longer dir a : dir ≠ [] → a ≠ [] → wide_join dir a ≠ dir.
Proof.
  intros Hd Ha. destruct (wide_join_app dir Hd) as (before & Hl & _ & Hj). rewrite Hj.
  intros Heq%(f_equal length). rewrite length_app in Heq. destruct a; cbn in *; [done|lia].
Qed.
Lemma wide_join_nonempty dir a : a ≠ [] → wide_join dir a ≠ [].
Proof.
  intros Ha. destruct (decide (dir = [])) as [->|Hd]; [done|].
  destruct (wide_join_app dir Hd) as (before & _ & _ & Hj). rewrite Hj. by destruct before.
Qed.
Lemma wide_join_nul dir a : 0 ∉ dir → 0 ∉ a → 0 ∉ wide_join dir a.
Proof.
  intros Hd Ha. destruct (decide (dir = [])) as [->|Hne]; [done|].
  destruct (wide_join_app dir Hne) as (before & _ & Hb & Hj). rewrite Hj. set_solver.
Qed.
(** ** What a starting daemon keeps *)

Section endpoint.
Context (runtime_root : wpath) (w0 : win).
Hypothesis Hroot : 0 ∉ runtime_root.

(** The user's SID as text; the descriptor made of it, which is the only one the daemon sets. *)
Definition user_sid : option str := from_utf16 (until_nul (sid_text user)).
Definition ours (sd : SD) : Prop :=
  ∃ sid, user_sid = Some sid ∧ sd_parse (encode_utf16 (sddl sid)) = Some sd.

Definition the_dir : wpath := wide_join runtime_root (lit "downpour").
Definition the_pipe (sid : str) : str :=
  lit "downpour-" ++ sid ++ lit "-" ++ take_bytes 32 (hex_text (blake3 (wide_bytes (final_name the_dir)))).
Definition the_paths (sid : str) : EndpointPaths := paths_of the_dir (the_pipe sid).
Definition the_token : wpath := wide_join the_dir (lit "session.token").

(** A real directory of the user's. *)
Definition owned_dir (w : win) : Prop :=
  ∃ n, nodes w !! the_dir = Some n ∧ real_directory (nd_attributes n) = true ∧ ours (nd_descriptor n).

(** A whole token in a file of the user's. *)
Definition holds_token (t : SessionToken) (n : Node) : Prop :=
  ours (nd_descriptor n) ∧ length (token_bytes t) = 32%nat ∧ nd_bytes n = as_bytes (token_text t).

(** What may have become of the machine [w0]: the directory was made the user's, where it was a real
    one or none; and only then a pipe of the user's was opened under a free name, a whole token
    installed, or a temporary file of the user's made. *)
Record kept (w : win) : Prop := {
  kept_dir : nodes w !! the_dir = nodes w0 !! the_dir ∨ owned_dir w ∧
    ∀ n0, nodes w0 !! the_dir = Some n0 → real_directory (nd_attributes n0) = true ∧
      ∃ n, nodes w !! the_dir = Some n ∧ nd_attributes n = nd_attributes n0 ∧ nd_bytes n = nd_bytes n0;
  kept_token : nodes w !! the_token = nodes w0 !! the_token ∨
    owned_dir w ∧ ∃ t n, nodes w !! the_token = Some n ∧ holds_token t n;
  kept_rest p : p ≠ the_dir → p ≠ the_token → nodes w !! p = nodes w0 !! p ∨
    owned_dir w ∧ nodes w0 !! p = None ∧ (∃ t, p = temporary_name the_dir t) ∧
    ∀ n, nodes w !! p = Some n → ours (nd_descriptor n);
  kept_pipes name : pipes w !! name = pipes w0 !! name ∨
    owned_dir w ∧ pipes w0 !! name = None ∧ ∀ sd, pipes w !! name = Some sd → ours sd;
}.
Definition ready (w : win) : Prop := kept w ∧ owned_dir w.

Lemma wide_dir_nonempty : the_dir ≠ [].
Proof. by apply wide_join_nonempty. Qed.
Lemma wide_token_not_dir : the_token ≠ the_dir.
Proof. by apply wide_join_longer; [apply wide_dir_nonempty|]. Qed.
Lemma wide_temporary_apart t : let p := temporary_name the_dir t in p ≠ the_dir ∧ p ≠ the_token.
Proof.
  pose proof wide_dir_nonempty. split; [by apply wide_join_longer|].
  intros Heq. by apply wide_join_inj in Heq.
Qed.
Lemma the_dir_nul : 0 ∉ the_dir.
Proof. apply wide_join_nul; [done|]. by vm_compute; set_solver. Qed.
Lemma token_nul : 0 ∉ the_token.
Proof. apply wide_join_nul; [apply the_dir_nul|]. by vm_compute; set_solver. Qed.
Lemma temporary_nul t : 0 ∉ temporary_name the_dir t.
Proof.
  apply wide_join_nul; [apply the_dir_nul|]. rewrite not_elem_of_app. split; [by vm_compute; set_solver|].
  change (token_text t) with (hex_text (token_bytes t)).
  induction (token_bytes t) as [|b bytes IH]; [set_solver|]. rewrite hex_text_cons.
  assert (HP : ∀ n, 0 ≤ n < 16 → negb (hex_char n =? 0) = true).
  { intros n. by apply (forallb_seqZ (λ n, negb (hex_char n =? 0)) 0 16). }
  destruct (nibbles b) as (Hh & Hlow & _). apply HP in Hh, Hlow.
  rewrite !not_elem_of_cons. split_and!; [lia|lia|done].
Qed.

Lemma failed_refl w : failed w w.
Proof. done. Qed.
Lemma failed_kept w w' : failed w w' → kept w → kept w'.
Proof.
  intros [Hn Hp] [Hd Ht Hr Hps]. by split; unfold owned_dir in *; rewrite ?Hn, ?Hp.
Qed.
Lemma failed_ready w w' : failed w w' → ready w → ready w'.
Proof. intros Hf [Hk Hd]. split; [by eapply failed_kept|]. destruct Hf as [Hn _]. unfold owned_dir. by rewrite Hn. Qed.
(** *** The parts of a call *)

(** What a call of the API that failed leaves to report. *)
Lemma last_error_wp {A} (Q : result A Error → win → Prop) (S : win → Prop) w :
  S w → Q (Err (last_error w)) w → wp last_os_error Q S w.
Proof. intros HS HQ. apply prog_bind, prog_call; [done|]. intros x w' [-> ->]. split; [done|]. by apply prog_ret. Qed.

Lemma checked_wp (c : win_call bool) (Q : result unit Error → win → Prop) (S : win → Prop) w : S w →
  (∀ (ok : bool) w', does c w ok w' → S w' ∧ Q (if ok then Ok tt else Err (last_error w')) w') →
  wp (checked c) Q S w.
Proof.
  intros HS Hc. apply prog_bind, prog_call; [done|]. intros ok w' [HS' HQ]%Hc. split; [done|].
  destruct ok; [by apply prog_ret|by apply last_error_wp].
Qed.

Lemma io_wp {A} (p : prog win_call (result A Error)) (Q : result A TransportError → win → Prop) S w :
  wp p (λ r w', Q (map_err TrIo r) w') S w → wp (io p) Q S w.
Proof. intros Hp. apply prog_bind. eapply prog_mono; [exact Hp| |done]. intros r w' HQ HS. by apply prog_ret. Qed.

Lemma failed_trans w w1 w2 : failed w w1 → failed w1 w2 → failed w w2.
Proof. intros [? ?] [? ?]. split; congruence. Qed.

Lemma until_nul_stop a rest : until_nul (a ++ 0 :: rest) = until_nul a.
Proof. induction a as [|u a IH]; cbn; [done|]. by rewrite IH. Qed.

Lemma user_wp w : wp current_user_sid
  (λ r w', failed w w' ∧ ∀ sid, r = Ok sid → user_sid = Some sid) (failed w) w.
Proof.
  assert (Hlast : ∀ w', failed w w' →
    wp last_os_error (λ r w', failed w w' ∧ ∀ sid, r = Ok sid → user_sid = Some sid) (failed w) w').
  { intros w' Hw'. by apply last_error_wp. }
  apply prog_bind, checked_wp; [done|]. intros [] w1 H1; cbn in H1; [subst w1|by split; [|apply prog_ret]].
  split; [done|]. cbv beta iota.
  apply prog_bind, prog_call; [done|]. intros required w1 H1. cbn in H1. split; [done|].
  destruct (required =? 0); [by apply Hlast|].
  apply prog_bind, prog_call; [done|]. intros [sid|] w2 H2; cbn in H2.
  2: { assert (failed w w2) by by eapply failed_trans. split; [done|]. by apply Hlast. }
  destruct H2 as [-> ->]. split; [done|].
  apply prog_bind, prog_call; [done|]. intros [pointer|] w2 H2; cbn in H2.
  2: { assert (failed w w2) by by eapply failed_trans. split; [done|]. by apply Hlast. }
  destruct H2 as [-> Hp]. split; [done|]. apply prog_bind, checked_wp; [done|].
  intros [] w2 H2; cbn in H2.
  2: { assert (failed w w2) by by eapply failed_trans. split; [done|]. by apply prog_ret. }
  subst w2. split; [done|]. cbv beta iota. apply prog_ret; [done|]. split; [done|]. intros text.
  destruct pointer as [units|]; [|done]. destruct (Hp _ eq_refl) as [rest ->]. cbn.
  rewrite until_nul_stop. unfold user_sid. by destruct (from_utf16 _) as [t|]; [intros [= ->]|].
Qed.

Lemma descriptor_wp sid w : user_sid = Some sid →
  wp (descriptor_for_sid sid) (λ r w', w' = w ∧ ∀ sd, r = Ok sd → ours sd) (eq w) w.
Proof.
  intros Hu. unfold descriptor_for_sid. destruct (U16CString_from_str (sddl sid)) as [units|] eqn:E;
    [|by apply prog_ret].
  apply U16CString_from_str_units in E as ->. apply prog_call; [done|]. intros r w' [-> Hr].
  split; [done|]. split; [done|]. intros sd ->. exists sid. split; [done|]. by apply Hr.
Qed.

(** The user and the descriptor, where nothing but the last error matters. *)
Lemma identified_wp {A} (f : str → SD → prog win_call (result A TransportError)) (I : win → Prop) Q S w :
  (∀ w w', failed w w' → I w → I w') → (∀ w, I w → S w) → I w →
  (∀ e w, I w → Q (Err e) w) →
  (∀ sid sd w, user_sid = Some sid → ours sd → I w → wp (f sid sd) Q S w) →
  wp (let!? sid := io current_user_sid in let!? sd := io (descriptor_for_sid sid) in f sid sd) Q S w.
Proof.
  intros HI HS Hw He Hf. apply prog_bind, io_wp. eapply prog_mono; [apply user_wp|..].
  2: { intros w' Hw'. by eapply HS, HI. }
  intros r w1 [H1 Hsid] _. assert (I w1) by by eapply HI.
  destruct r as [sid|e]; cbn [map_err]; [|by apply prog_ret; auto].
  apply prog_bind, io_wp. eapply prog_mono; [by apply descriptor_wp, Hsid|..].
  2: { intros w' <-. auto. }
  intros r w' [-> Hsd] _. destruct r as [sd|e]; cbn [map_err]; [|by apply prog_ret; auto]. auto.
Qed.

(** *** Changes of one name *)

(** Everything but one path is as before. *)
Definition apart (p : wpath) (w w' : win) : Prop :=
  (∀ q, q ≠ p → nodes w' !! q = nodes w !! q) ∧ pipes w' = pipes w.

Lemma apart_alter p f w : apart p w (with_nodes (partial_alter f p) w).
Proof. split; [|done]. intros q Hq. cbn. by rewrite lookup_partial_alter_ne. Qed.

Lemma owned_apart p w w' : apart p w w' → p ≠ the_dir → owned_dir w → owned_dir w'.
Proof. intros [Hn _] Hp. unfold owned_dir. by rewrite Hn. Qed.

Lemma dir_changed w w' n : kept w → apart the_dir w w' → nodes w' !! the_dir = Some n →
  real_directory (nd_attributes n) = true → ours (nd_descriptor n) →
  (∀ n0, nodes w0 !! the_dir = Some n0 → real_directory (nd_attributes n0) = true ∧
     nd_attributes n = nd_attributes n0 ∧ nd_bytes n = nd_bytes n0) → ready w'.
Proof.
  intros [Hd Ht Hr Hp] [Hq Hpipes] Hn Hreal Hours Hold. pose proof wide_token_not_dir.
  assert (Hown : owned_dir w') by by exists n. split; [|done]. split.
  - right. split; [done|]. intros n0 Hn0. destruct (Hold _ Hn0) as (? & ? & ?). split; [done|]. by exists n.
  - rewrite Hq by done. destruct Ht as [Ht|[_ Ht]]; auto.
  - intros q Hq1 Hq2. rewrite Hq by done. destruct (Hr q) as [|[_ ?]]; auto.
  - intros name. rewrite Hpipes. destruct (Hp name) as [|[_ ?]]; auto.
Qed.

Lemma temporary_changed w w' t : let p := temporary_name the_dir t in
  ready w → apart p w w' → nodes w0 !! p = None →
  (∀ n, nodes w' !! p = Some n → ours (nd_descriptor n)) → ready w'.
Proof.
  intros p [[Hd Ht Hr Hp] Hown] Ha Hold Hours. destruct (wide_temporary_apart t) as [Hpd Hpt]. fold p in Hpd, Hpt.
  assert (Hown' : owned_dir w') by by eapply owned_apart. destruct Ha as [Hq Hpipes].
  split; [|done]. split.
  - rewrite Hq by done. destruct Hd as [|[_ ?]]; auto.
  - rewrite Hq by done. destruct Ht as [|[_ ?]]; auto.
  - intros q Hq1 Hq2. destruct (decide (q = p)) as [->|Hne].
    + right. split; [done|]. split; [done|]. split; [by exists t|done].
    + rewrite Hq by done. destruct (Hr q) as [|[_ ?]]; auto.
  - intros name. rewrite Hpipes. destruct (Hp name) as [|[_ ?]]; auto.
Qed.

Lemma token_changed w w' t n : ready w → apart the_token w w' → nodes w' !! the_token = Some n →
  holds_token t n → ready w'.
Proof.
  intros [[Hd Ht Hr Hp] Hown] Ha Hn Ht'. pose proof wide_token_not_dir.
  assert (Hown' : owned_dir w') by by eapply owned_apart. destruct Ha as [Hq Hpipes].
  split; [|done]. split.
  - rewrite Hq by done. destruct Hd as [|[_ ?]]; auto.
  - right. split; [done|]. by exists t, n.
  - intros q Hq1 Hq2. rewrite Hq by done. destruct (Hr q) as [|[_ ?]]; auto.
  - intros name. rewrite Hpipes. destruct (Hp name) as [|[_ ?]]; auto.
Qed.

(** A pipe comes or goes. *)
Lemma pipe_changed w name f : ready w → pipes w0 !! name = None →
  (∀ sd, f (pipes w !! name) = Some sd → ours sd) → ready (with_pipes (partial_alter f name) w).
Proof.
  intros [[Hd Ht Hr Hp] Hown] Hold Hf. split; [|done]. split; try done.
  intros q. cbn [pipes with_pipes]. destruct (decide (q = name)) as [->|Hne].
  - rewrite lookup_partial_alter_eq. by right.
  - rewrite lookup_partial_alter_ne by done. apply Hp.
Qed.

(** *** The runtime directory *)

Lemma check_directory_wp p w : 0 ∉ p →
  wp (check_directory (wide_path p))
    (λ r w', failed w w' ∧ (r = Ok tt →
       ∃ n, nodes w !! p = Some n ∧ real_directory (nd_attributes n) = true)) (failed w) w.
Proof.
  intros Hp. apply prog_bind, prog_call; [done|]. intros flags w1 H1. cbn in H1.
  rewrite until_nul_path in H1 by done.
  destruct (flags =? INVALID_FILE_ATTRIBUTES); [split; [done|]; by apply last_error_wp|].
  destruct H1 as [-> (n & Hn & ->)]. split; [done|].
  destruct (real_directory (nd_attributes n)) eqn:E; apply prog_ret; try done.
  split; [done|]. by exists n.
Qed.

Lemma directory_wp sd w : kept w → ours sd →
  wp (create_or_secure_directory the_dir sd) (λ r w', kept w' ∧ (r = Ok tt → ready w')) kept w.
Proof.
  intros Hk Hours. pose proof the_dir_nul as Hnul. unfold create_or_secure_directory.
  apply prog_bind, prog_call; [done|]. intros [] w1 H1; cbn in H1; rewrite until_nul_path in H1 by done.
  - destruct H1 as [Hnone ->]. assert (Hr : ready (with_nodes
      <[the_dir := MkNode FILE_ATTRIBUTE_DIRECTORY sd []]> w)).
    { eapply dir_changed; [done|by apply apart_alter|by apply lookup_insert_eq|done|done|].
      intros n0 Hn0. destruct (kept_dir _ Hk) as [Hd|[(n & Hn & _) _]]; congruence. }
    split; [apply Hr|]. apply prog_ret; [apply Hr|]. by split; [apply Hr|].
  - destruct H1 as [Hf _]. pose proof (failed_kept _ _ Hf Hk) as Hk1. split; [done|].
    apply prog_bind, prog_call; [done|]. intros error w' [_ ->]. split; [done|].
    destruct (negb _); [by apply prog_ret|].
    apply prog_bind. eapply prog_mono; [by apply check_directory_wp| |].
    2: { intros w' Hw'. by eapply failed_kept. }
    intros r w2 [Hf2 Hreal] _. pose proof (failed_kept _ _ Hf2 Hk1) as Hk2.
    destruct r as [[]|e]; [|by apply prog_ret]. destruct (Hreal eq_refl) as (n & Hn & Hdir).
    apply checked_wp; [done|]. intros [] w3 H3; cbn in H3; rewrite ?until_nul_path in H3 by done.
    2: { pose proof (failed_kept _ _ H3 Hk2). by split. }
    destruct H3 as (sd' & Hsd & ->). rewrite (Hsd eq_refl). clear Hsd sd'.
    destruct Hf2 as [Hf2 _]. rewrite <- Hf2 in Hn.
    assert (Hr : ready (with_nodes (alter (λ n, MkNode (nd_attributes n) sd (nd_bytes n)) the_dir) w2)).
    { eapply dir_changed; [done|by apply apart_alter|cbn; by rewrite lookup_alter_eq, Hn|done|done|].
      intros n0 Hn0. cbn. destruct (kept_dir _ Hk2) as [Hd|[_ Hd]].
      - rewrite Hd, Hn0 in Hn. by injection Hn as ->.
      - destruct (Hd _ Hn0) as (? & n' & Hn' & ? & ?). rewrite Hn in Hn'. by injection Hn' as <-. }
    split; [apply Hr|]. by split; [apply Hr|].
Qed.

Lemma pipe_name_wp sid w :
  wp (pipe_name the_dir sid) (λ r w', w' = w ∧ ∀ pipe, r = Ok pipe → pipe = the_pipe sid) (eq w) w.
Proof.
  apply prog_bind, prog_call; [done|]. intros r w' [-> Hr]. split; [done|].
  destruct r as [q|e]; apply prog_ret; try done. split; [done|]. intros pipe [= <-].
  by rewrite (Hr q eq_refl).
Qed.

Lemma prepare_wp w : kept w →
  wp (prepare_paths runtime_root) (λ r w', kept w' ∧ ∀ paths, r = Ok paths →
    ready w' ∧ ∃ sid, user_sid = Some sid ∧ paths = the_paths sid) kept w.
Proof.
  intros Hk. apply (identified_wp _ kept); [by apply failed_kept|done|done|by split|].
  intros sid sd w1 Hsid Hours Hk1. apply prog_bind, io_wp.
  eapply prog_mono; [by apply directory_wp| |done]. intros r w2 [Hk2 Hr] _.
  destruct r as [[]|e]; cbn [map_err]; [|by apply prog_ret]. specialize (Hr eq_refl).
  apply prog_bind, io_wp. eapply prog_mono; [apply pipe_name_wp|..]; [|by intros w' <-].
  intros r w' [-> Hp] _. destruct r as [pipe|e]; cbn [map_err]; apply prog_ret; try done.
  split; [done|]. intros paths [= <-]. split; [done|]. exists sid. by rewrite (Hp pipe eq_refl).
Qed.
(** *** The daemon that has the pipe *)

Section held.
Context (sid : str).

Definition bound (w : win) : Prop :=
  pipes w0 !! the_pipe sid = None ∧ ∃ sd, pipes w !! the_pipe sid = Some sd ∧ ours sd.
Definition held (w : win) : Prop := ready w ∧ bound w.
Definition installed (token : SessionToken) (w : win) : Prop :=
  ∃ n, nodes w !! the_token = Some n ∧ holds_token token n.

Lemma failed_held w w' : failed w w' → held w → held w'.
Proof.
  intros Hf [Hr Hb]. split; [by eapply failed_ready|]. destruct Hf as [_ Hp]. unfold bound.
  by rewrite Hp.
Qed.

Lemma listener_wp w : ready w →
  wp (create_listener (the_paths sid)) (λ r w', ready w' ∧ (r = Ok tt → bound w')) ready w.
Proof.
  intros Hw. apply (identified_wp _ ready); [by apply failed_ready|done|done|by split|].
  intros sid' sd w1 _ Hours Hw1. apply prog_bind, io_wp, prog_call; [done|]. intros r w' ->.
  split; [done|]. destruct r as [u|e]; cbn [map_err]; [|by apply prog_ret].
  apply io_wp, prog_call; [done|]. intros [[]|e] w' Hd; cbn in Hd; [|subst w'; by split].
  destruct Hd as [Hnone ->]. assert (Hfree : pipes w0 !! the_pipe sid = None).
  { destruct Hw1 as [Hk _]. destruct (kept_pipes _ Hk (the_pipe sid)) as [<-|(_ & ? & _)]; done. }
  assert (Hr : ready (with_pipes <[the_pipe sid := sd]> w1)).
  { apply (pipe_changed _ _ (λ _, Some sd)); [done|done|]. by intros ? [= <-]. }
  split; [done|]. split; [done|]. intros _. split; [done|]. exists sd. split; [|done].
  cbn. apply lookup_insert_eq.
Qed.

(** Its own temporary file, with what it has written of it. *)
Definition writing (t : SessionToken) (bytes : list byte) (w : win) : Prop :=
  let p := temporary_name the_dir t in
  held w ∧ nodes w0 !! p = None ∧ ∃ n, nodes w !! p = Some n ∧ ours (nd_descriptor n) ∧ nd_bytes n = bytes.

Lemma held_temporary w t f : let p := temporary_name the_dir t in
  held w → nodes w0 !! p = None → (∀ n, f (nodes w !! p) = Some n → ours (nd_descriptor n)) →
  held (with_nodes (partial_alter f p) w).
Proof.
  intros p [Hr Hb] Hfree Hf. split; [|done]. eapply temporary_changed; [done|apply apart_alter|done|].
  intros n. cbn. rewrite lookup_partial_alter_eq. apply Hf.
Qed.

Lemma created w t sd : held w → ours sd → nodes w !! temporary_name the_dir t = None →
  writing t [] (with_nodes <[temporary_name the_dir t := MkNode 128 sd []]> w).
Proof.
  intros Hw Hours Hnone. destruct (wide_temporary_apart t) as [Hpd Hpt].
  assert (Hfree : nodes w0 !! temporary_name the_dir t = None).
  { destruct Hw as [[Hk _] _]. destruct (kept_rest _ Hk (temporary_name the_dir t)) as [<-|(_ & ? & _)]; done. }
  split; [|split; [done|]].
  - apply (held_temporary w t (λ _, Some _)); [done|done|]. by intros n [= <-].
  - eexists. split; [cbn; apply lookup_insert_eq|]. by split.
Qed.

Lemma handle_wrote w t bs bytes r w' : writing t bs w →
  does (FileWriteAll (wide_path (temporary_name the_dir t)) bytes) w r w' →
  ∃ k, writing t (bs ++ take k bytes) w' ∧ (r = Ok tt → take k bytes = bytes).
Proof.
  intros (Hw & Hfree & n & Hn & Hours & Hb) (k & Hk & ->). exists k. split; [|done].
  rewrite until_nul_path by apply temporary_nul. split; [|split; [done|]].
  - apply held_temporary; [done|done|]. rewrite Hn. by intros ? [= <-].
  - eexists. cbn [nodes with_nodes]. rewrite lookup_alter_eq, Hn. split; [done|]. cbn. by rewrite Hb.
Qed.

Lemma moved w t token w' : writing t (as_bytes (token_text token)) w → length (token_bytes token) = 32%nat →
  does (MoveFileEx (wide_path (temporary_name the_dir t)) (wide_path the_token) replace_through) w true w' →
  held w' ∧ installed token w'.
Proof.
  intros (Hw & Hfree & n & Hn & Hours & Hb) Hl (n' & Hn' & ->).
  rewrite !until_nul_path in * by (apply temporary_nul || apply token_nul).
  rewrite Hn' in Hn. injection Hn as ->.
  assert (Ht : holds_token token n) by done. split.
  - assert (Hd : held (with_nodes (delete (temporary_name the_dir t)) w)).
    { by apply (held_temporary w t (λ _, None)). }
    destruct Hd as [Hr Hbound]. split; [|done].
    change (ready (with_nodes <[the_token := n]> (with_nodes (delete (temporary_name the_dir t)) w))).
    by eapply (token_changed _ _ token n Hr); [apply apart_alter|apply lookup_insert_eq|].
  - exists n. split; [|done]. apply lookup_insert_eq.
Qed.

Lemma nonce_wp (Q : result SessionToken TransportError → win → Prop) (S : win → Prop) w : S w →
  Q (Err other) w → (∀ t, length (token_bytes t) = 32%nat → Q (Ok t) w) →
  wp (generate_from FillRandom) Q S w.
Proof.
  intros HS He Hok. apply prog_bind, prog_call; [done|]. intros x w' [-> Hx].
  split; [done|]. apply prog_ret; [done|]. destruct x as [bytes|]; [|done]. by apply Hok, Hx.
Qed.

Lemma windows_provision_wp token w : length (token_bytes token) = 32%nat → held w →
  wp (provision_token (the_paths sid) token) (λ r w', held w' ∧ (r = Ok tt → installed token w')) held w.
Proof.
  intros Hl Hw. apply (identified_wp _ held); [by apply failed_held|done|done|by split|].
  clear w Hw. intros sid' sd w _ Hours Hw.
  assert (Hwr : ∀ t bs w', writing t bs w' → held w') by (by intros ??? [? _]).
  apply prog_bind, nonce_wp; [done|by apply prog_ret|]. intros nonce _. cbv beta iota zeta.
  change (runtime_dir (the_paths sid)) with the_dir. apply prog_bind, io_wp, checked_wp; [done|].
  intros [] w1 H1; cbn in H1; rewrite ?until_nul_path in H1 by apply temporary_nul.
  2: { pose proof (failed_held _ _ H1 Hw). split; [done|]. by apply prog_ret. }
  destruct H1 as [Hnone ->]. pose proof (created _ _ _ Hw Hours Hnone) as Hc. cbn [map_err].
  split; [by eapply Hwr|]. apply prog_bind, io_wp, prog_call; [by eapply Hwr|]. intros r w2 H2.
  eapply handle_wrote in H2 as (k & H2 & Hk); [|exact Hc]. split; [by eapply Hwr|].
  destruct r as [[]|e]; cbn [map_err]; [rewrite (Hk eq_refl) in H2|apply prog_ret; [by eapply Hwr|by split; [eapply Hwr|]]].
  apply prog_bind, io_wp, prog_call; [by eapply Hwr|]. intros r w3 ->. split; [by eapply Hwr|].
  destruct r as [u|e]; cbn [map_err]; [|apply prog_ret; [by eapply Hwr|by split; [eapply Hwr|]]].
  apply prog_bind, prog_call; [by eapply Hwr|]. change (token_file (the_paths sid)) with the_token.
  intros [] w3 H3.
  - eapply moved in H3 as [? ?]; [|exact H2|done]. split; [done|]. by apply prog_ret.
  - pose proof (failed_held _ _ H3 (Hwr _ _ _ H2)) as Hw3. split; [done|].
    apply prog_bind, prog_call; [done|]. intros error w' [_ ->]. split; [done|].
    apply prog_bind, prog_call; [done|]. intros r w4 H4.
    assert (held w4).
    { destruct H2 as (_ & Hfree & _). destruct r; cbn in H4; subst w4; [|done].
      by apply (held_temporary w3 nonce (λ _, None)). }
    split; [done|]. destruct r; by apply prog_ret.
Qed.

Lemma install_wp w : held w →
  wp (install (the_paths sid)) (λ r w', kept w' ∧ ∀ l, r = Ok l →
    held w' ∧ ll_paths l = the_paths sid ∧ installed (ll_token l) w') kept w.
Proof.
  assert (Hkept : ∀ w, held w → kept w) by by intros ? [[? _] _].
  assert (Hdrop : ∀ (e : TransportError) w', held w' →
    wp (let! _ := call (DropListener (the_pipe sid)) in Ret (Err e)) (λ r w', kept w' ∧
      ∀ l : LocalListener EndpointPaths, r = Ok l →
        held w' ∧ ll_paths l = the_paths sid ∧ installed (ll_token l) w') kept w').
  { intros e w' Hw'. apply prog_bind, prog_call; [by apply Hkept|]. intros u w1 ->.
    assert (kept (with_pipes (delete (the_pipe sid)) w')).
    { destruct Hw' as [Hr [Hfree _]]. by apply (pipe_changed w' (the_pipe sid) (λ _, None)). }
    split; [done|]. by apply prog_ret. }
  intros Hw. unfold install. apply prog_bind, prog_bind, nonce_wp; [by apply Hkept| |].
  { apply prog_ret; [by apply Hkept|]. by apply Hdrop. }
  intros token Hl. apply prog_bind. eapply prog_mono; [by apply windows_provision_wp|..|by apply Hkept].
  intros r w' [Hw' Hr] _. destruct r as [[]|e]; (apply prog_ret; [by apply Hkept|]); [|by apply Hdrop].
  apply prog_ret; [by apply Hkept|]. split; [by apply Hkept|]. intros l [= <-]. by auto.
Qed.
End held.

Lemma windows_bind_wp : wp (LocalListener_bind runtime_root) (λ r w', kept w' ∧ ∀ l, r = Ok l →
  ∃ sid, user_sid = Some sid ∧ ll_paths l = the_paths sid ∧ held sid w' ∧ installed (ll_token l) w') kept w0.
Proof.
  assert (Hk : kept w0) by (constructor; auto).
  apply prog_bind. eapply prog_mono; [by apply prepare_wp| |done].
  intros [paths|e] w1 [Hk1 Hp] _; [|by apply prog_ret].
  destruct (Hp paths eq_refl) as [Hr (sid & Hsid & ->)].
  apply prog_bind. eapply prog_mono; [by apply (listener_wp sid)| |by intros ? []].
  intros [[]|e] w2 [Hr2 Hb] _; [|by apply prog_ret; [apply Hr2|split; [apply Hr2|]]].
  eapply prog_mono; [apply (install_wp sid); by split; [|apply Hb]| |done].
  intros r w3 [Hk3 Hl] _. split; [done|]. intros l Hr3. destruct (Hl l Hr3) as (? & ? & ?). by exists sid.
Qed.
(** ** The client's side *)

Lemma windows_discover_wp w : wp (client_paths runtime_root)
  (λ r w', failed w w' ∧ ∀ paths, r = Ok paths → ∃ sid n, user_sid = Some sid ∧ paths = the_paths sid ∧
     nodes w !! the_dir = Some n ∧ real_directory (nd_attributes n) = true) (failed w) w.
Proof.
  apply prog_bind, io_wp. eapply prog_mono; [apply user_wp| |done].
  intros r w1 [H1 Hsid] _. destruct r as [sid|e]; cbn [map_err]; [|by apply prog_ret].
  specialize (Hsid sid eq_refl). apply prog_bind, io_wp.
  eapply prog_mono; [apply check_directory_wp, the_dir_nul|..].
  2: { intros w' Hw'. by eapply failed_trans. }
  intros r w2 [H2 Hreal] _. assert (failed w w2) by by eapply failed_trans.
  destruct r as [[]|e]; cbn [map_err]; [|by apply prog_ret]. destruct (Hreal eq_refl) as (n & Hn & Hd).
  apply prog_bind, io_wp. eapply prog_mono; [apply pipe_name_wp| |by intros w' <-].
  intros r w' [-> Hp] _. destruct r as [pipe|e]; cbn [map_err]; apply prog_ret; try done.
  split; [done|]. intros paths [= <-]. exists sid, n. destruct H1 as [H1 _]. rewrite H1 in Hn.
  by rewrite (Hp pipe eq_refl).
Qed.

Lemma client_runs w n sid : user_sid = Some sid → nodes w !! the_dir = Some n →
  real_directory (nd_attributes n) = true →
  exec (client_paths runtime_root) w w (Some (Ok (the_paths sid))).
Proof.
  intros Hsid Hn Hd. eapply (exec_call OpenProcessToken _ true); [done|].
  eapply (exec_call QueryTokenSize _ 1); [by split|].
  eapply (exec_call (QueryTokenUser 1) _ (Some user)); [by split|].
  eapply (exec_call (ConvertSidToStringSid user) _ (Some (Some (sid_text user ++ [0])))).
  { split; [done|]. intros units [= <-]. by exists []. }
  eapply (exec_call (LocalFree _) _ true); [done|].
  unfold copy_local_wide_string. rewrite until_nul_stop. unfold user_sid in Hsid. rewrite Hsid.
  cbn [Effects.bind map_err ok_or io].
  assert (Hflags : (nd_attributes n =? INVALID_FILE_ATTRIBUTES) = false).
  { apply Z.eqb_neq. intros Heq. by rewrite Heq in Hd. }
  eapply (exec_call (GetFileAttributes (wide_path the_dir)) _ (nd_attributes n)).
  { cbn. rewrite Hflags, until_nul_path by apply the_dir_nul. split; [done|]. by exists n. }
  rewrite Hflags, Hd. cbn [Effects.bind map_err].
  eapply (exec_call (Canonicalize the_dir) _ (Ok (final_name the_dir))); [split; [done|]; by intros ? [= <-]|].
  apply exec_return.
Qed.

Lemma token_read w w' token sid secret : installed token w →
  exec (read_client_token (the_paths sid)) w w' (Some (Ok secret)) →
  matches_wire token (expose secret) = true.
Proof.
  intros (n & Hn & _ & Hl & Hb). set (paths := the_paths sid).
  assert (Hwp : wp (read_client_token paths) (λ r _, ∀ s, r = Ok s →
    as_bytes (expose s) = as_bytes (token_text token)) (λ _, True) w).
  { apply prog_bind, prog_bind, prog_call; [done|]. intros r w1 [-> Hr]. split; [done|].
    apply prog_ret; [done|]. destruct r as [t|e]; cbn [map_err]; [|by apply prog_ret].
    destruct (Hr t eq_refl) as (n' & Hn' & Hb'). change (token_file paths) with the_token in Hn'.
    rewrite Hn in Hn'. injection Hn' as <-. destruct (_ || _); apply prog_ret; try done.
    intros s [= <-]. change (as_bytes t = as_bytes (token_text token)). congruence. }
  intros Hx. pose proof (prog_sound _ _ _ _ _ _ Hwp Hx secret eq_refl) as Heq.
  apply matches_wire_spec; [done|].
  change (token_text token) with (hex_text (token_bytes token)) in Heq. rewrite as_bytes_hex in Heq.
  change (expose secret = hex_text (token_bytes token)).
  apply as_bytes_inj_ascii; [apply hex_text_ascii|done].
Qed.
End endpoint.
(** ** Properties *)

(** C39: The endpoint on Windows is the user's alone.  Stopped anywhere in [bind], with any call of the
    API failing: the runtime directory is as it was, or it carries the descriptor made of the
    user's SID, and a directory that was there is taken over only if it is a real one, with its
    attributes and contents; only in a directory so secured are there changes: a pipe under a name
    that was free, a whole token in the token file, a temporary file under a name that was free,
    each with that descriptor; no other path or pipe is touched.  Where a file or a reparse point
    stands in the directory's place, nothing changes and [bind] fails.  When it succeeds, the pipe
    the user's clients compute is open, and the token they read is whole. *)
Theorem windows_endpoint_is_private runtime_root w0 w o : 0 ∉ runtime_root →
  exec (LocalListener_bind runtime_root) w0 w o →
  kept runtime_root w0 w ∧
  (∀ n, nodes w0 !! the_dir runtime_root = Some n → real_directory (nd_attributes n) = false →
     nodes w = nodes w0 ∧ pipes w = pipes w0 ∧ ∀ l, o ≠ Some (Ok l)) ∧
  ∀ l, o = Some (Ok l) → ∃ sid, user_sid = Some sid ∧ ll_paths l = the_paths runtime_root sid ∧
    owned_dir runtime_root w ∧ bound runtime_root w0 sid w ∧ installed runtime_root (ll_token l) w.
Proof.
  intros Hroot Hx. pose proof (windows_bind_wp runtime_root w0 Hroot) as Hwp.
  apply (prog_sound _ _ _ _ _ _ Hwp) in Hx.
  assert (Hkept : kept runtime_root w0 w) by (destruct o; [apply Hx|done]).
  assert (Hl : ∀ l, o = Some (Ok l) → ∃ sid, user_sid = Some sid ∧
    ll_paths l = the_paths runtime_root sid ∧ owned_dir runtime_root w ∧
    bound runtime_root w0 sid w ∧ installed runtime_root (ll_token l) w).
  { intros l ->. destruct Hx as [_ Hx]. destruct (Hx l eq_refl) as (sid & ? & ? & [[_ ?] ?] & ?). by exists sid. }
  split; [done|]. split; [|done]. intros n Hn Hreal.
  assert (Hno : ¬ owned_dir runtime_root w).
  { intros (n' & Hn' & Hreal' & _). destruct (kept_dir _ _ _ Hkept) as [Hd|[_ Hd]].
    - rewrite Hd, Hn in Hn'. injection Hn' as <-. congruence.
    - destruct (Hd _ Hn) as [? _]. congruence. }
  destruct Hkept as [Hd Ht Hr Hp]. split; [|split].
  - apply map_eq. intros q. destruct (decide (q = the_dir runtime_root)) as [->|Hq1]; [destruct Hd as [|[]]; done|].
    destruct (decide (q = the_token runtime_root)) as [->|Hq2]; [destruct Ht as [|[]]; done|].
    destruct (Hr q) as [|[]]; done.
  - apply map_eq. intros name. destruct (Hp name) as [|[]]; done.
  - intros l Ho. destruct (Hl l Ho) as (? & _ & _ & ? & _). done.
Qed.

(** The clients of a user find the user's daemon.  Looking for the endpoint changes nothing and accepts
    only a real directory; after a [bind], a client of the same user computes the daemon's paths, and
    the token it reads is accepted. *)
Theorem windows_clients_find_the_daemon runtime_root : 0 ∉ runtime_root →
  (∀ w w' o, exec (client_paths runtime_root) w w' o → failed w w' ∧
     ∀ paths, o = Some (Ok paths) → ∃ sid n, user_sid = Some sid ∧ paths = the_paths runtime_root sid ∧
       nodes w !! the_dir runtime_root = Some n ∧ real_directory (nd_attributes n) = true) ∧
  ∀ w0 w l, exec (LocalListener_bind runtime_root) w0 w (Some (Ok l)) →
    exec (client_paths runtime_root) w w (Some (Ok (ll_paths l))) ∧
    ∀ w' secret, exec (read_client_token (ll_paths l)) w w' (Some (Ok secret)) →
      matches_wire (ll_token l) (expose secret) = true.
Proof.
  intros Hroot. split.
  - intros w w' o Hx. eapply prog_sound in Hx;
      [|eapply prog_mono; [by apply windows_discover_wp|intros r w1 Hr Hf; exact (conj Hf (proj2 Hr))|done]].
    destruct o as [r|]; [destruct Hx as [Hf Hr]|done]. split; [done|]. intros paths [= ->]. by apply Hr.
  - intros w0 w l Hx. apply (prog_sound _ _ _ _ _ _ (windows_bind_wp runtime_root w0 Hroot)) in Hx as [_ Hl].
    destruct (Hl l eq_refl) as (sid & Hsid & -> & [[_ (n & Hn & Hd & _)] _] & Hi). split.
    + by eapply client_runs.
    + intros w' secret. by apply token_read.
Qed.
End windows.
(** ** A start on an empty disk *)

Module Example_windows.
Import Concrete.

#[local] Program Instance units : WideStrings :=
  {| U16CString_from_str s := if forallb (λ c, negb (c =? 0)) s then Some (encode_utf16 s) else None |}.
Next Obligation. intros s units. cbn. destruct (forallb _ _); [by intros [= <-]|done]. Qed.

Definition someone : list byte := [x01].
Definition text : list byte → wide := λ _, lit "S-1-5-21-7".
#[local] Instance here : World (win_call (SD := wide)) (win (SD := wide)) := win_world someone text Some id.

Definition root : wide := lit "C:\run".
Definition sid : str := lit "S-1-5-21-7".
Definition sd : wide := encode_utf16 (sddl sid).
Definition before : win (SD := wide) := MkWin ∅ ∅ (MkError Other None).
Definition secret : SessionToken := SessionToken_from_bytes (replicate 32 xa5).
Definition nonce : SessionToken := SessionToken_from_bytes (replicate 32 x5a).
Definition dir : wide := the_dir root.
Definition temporary : wide := temporary_name dir nonce.
Definition paths : EndpointPaths := the_paths id root sid.
Definition listener : LocalListener EndpointPaths := MkListener paths secret.
Definition token_node : Node (SD := wide) := MkNode 128 sd (as_bytes (token_text secret)).
Definition with_dir : win := with_nodes <[dir := MkNode FILE_ATTRIBUTE_DIRECTORY sd []]> before.
Definition after_listen : win := with_pipes <[pipe paths := sd]> with_dir.
Definition after : win := with_nodes <[token_file paths := token_node]> after_listen.

(** The user and the descriptor are found. *)
Lemma identified {A} (f : str → wide → prog (win_call (SD := wide)) (result A TransportError)) w w' o :
  exec (f sid sd) w w' o →
  exec (let!? sid := io current_user_sid in let!? sd := io (descriptor_for_sid sid) in f sid sd) w w' o.
Proof.
  intros Hx. eapply (exec_call OpenProcessToken _ true); [done|].
  eapply (exec_call QueryTokenSize _ 1); [by split|].
  eapply (exec_call (QueryTokenUser 1) _ (Some someone)); [by split|].
  eapply (exec_call (ConvertSidToStringSid someone) _ (Some (Some (sid ++ [0])))).
  { split; [done|]. intros u [= <-]. by exists []. }
  eapply (exec_call (LocalFree _) _ true); [done|].
  change (copy_local_wide_string _) with (Ok (E := Error) sid).
  eapply (exec_call (Deserialize sd) _ (Ok sd)); [split; [done|]; by intros ? [= <-]|]. exact Hx.
Qed.

Lemma it_starts : exec (LocalListener_bind root) before after (Some (Ok listener)).
Proof.
  assert (Hfinal : after = with_nodes (λ m, <[token_file paths := token_node]> (delete temporary m))
    (with_nodes <[temporary := token_node]> after_listen)) by (vm_compute; reflexivity).
  apply (exec_then _ _ before with_dir after (Ok paths)).
  { apply identified.
    eapply (exec_call (CreateDirectory (wide_path dir) sd) _ true _ with_dir).
    { split; [by vm_compute|vm_compute; reflexivity]. }
    eapply (exec_call (Canonicalize dir) _ (Ok dir)); [split; [done|]; by intros ? [= <-]|].
    apply exec_return. }
  cbv beta iota. apply (exec_then _ _ with_dir after_listen after (Ok tt)).
  { apply identified. eapply (exec_call (ToNsName (pipe paths)) _ (Ok tt)); [done|].
    eapply (exec_call (CreateTokio (pipe paths) sd) _ (Ok tt)); [by split|]. apply exec_return. }
  cbv beta iota. apply (exec_then _ _ after_listen after after (Ok listener)); [|apply exec_return].
  eapply (exec_call FillRandom _ (Some (token_bytes secret))); [split; [done|by intros ? [= <-]]|].
  apply (exec_then _ _ after_listen after after (Ok tt)); [|apply exec_return].
  apply identified. 
  eapply (exec_call FillRandom _ (Some (token_bytes nonce))); [split; [done|by intros ? [= <-]]|].
  eapply (exec_call (CreateFile (wide_path temporary) sd) _ true _
    (with_nodes <[temporary := MkNode 128 sd []]> after_listen)).
  { split; [by vm_compute|vm_compute; reflexivity]. }
  eapply (exec_call (FileWriteAll (wide_path temporary) (as_bytes (token_text secret))) _ (Ok tt) _
    (with_nodes <[temporary := token_node]> after_listen)).
  { exists 64%nat. split; [by vm_compute|vm_compute; reflexivity]. }
  eapply (exec_call (FileSyncAll (wide_path temporary)) _ (Ok tt)); [done|].
  eapply (exec_call (MoveFileEx (wide_path temporary) (wide_path (token_file paths)) replace_through) _ true _ after).
  { exists token_node. split; [by vm_compute|]. rewrite Hfinal. vm_compute. reflexivity. }
  apply exec_return.
Qed.

Lemma windows_endpoint_is_private_witness :
  kept someone text Some root before after ∧ owned_dir someone text Some root after ∧
  installed someone text Some root secret after.
Proof.
  destruct (windows_endpoint_is_private someone text Some id root before after (Some (Ok listener)))
    as (Hk & _ & Hl).
  - vm_compute. set_solver.
  - exact it_starts.
  - destruct (Hl listener eq_refl) as (s & _ & _ & Hd & _ & Hi). done.
Defined.
End Example_windows.
End Windows.
