(* ===== verification/Daemon.v ===== *)
(** * [downpour-daemon/src/server.rs]: the transfer registry and its clients

    The daemon's registry of downloads, the commands of authenticated clients, the task behind
    every download, and the loop that serves one connection. *)

From S2P Require Import Prelude Intervals Io Format PartFile Writer Str ContentRange Remote.
From S2P Require Import Completion Effects Sink Http Retry WriterService StorageSink Download Ipc.
From Stdlib Require Import String.
From stdpp Require Import list gmap.
#[local] Open Scope Z_scope.

Module Daemon.
#[local] Notation path := PartFile.PartFile.path.
Import Io.Io Str.Str Effects.Effects Ipc.Ipc.

(** ** Serving one connection *)

Inductive ServerError :=
| SvTransport (e : TransportError)
| SvSession (e : SessionError)
| SvCodec (e : CodecError).

(** The calls of the loop: the stream's, the handler's own; [StillServing] has no answer. *)
Inductive connection_call (E : Type → Type) : Type → Type :=
| OnStream {X} (c : stream_call X) : connection_call E X
| OnHandler {X} (c : E X) : connection_call E X
| StillServing : connection_call E Empty_set.
Arguments OnStream {E X} c.
Arguments OnHandler {E X} c.
Arguments StillServing {E}.

Section serving.
Context {V : Type} `{Json V, Serde V HelloParams, Serde V AddParams, Serde V IdParams,
  Serde V VersionParams, Serde V HelloResult, Serde V StateResult, Serde V DownloadView,
  Serde V SystemStatus, !Serde V (RequestEnvelope V), !Serde V (SuccessEnvelope V),
  !Serde V ErrorEnvelope}.
Context (pkg_version : str).
Context {E : Type → Type} `{CommandHandler E}.

Definition on_stream {A} (p : prog stream_call A) : prog (connection_call E) A :=
  translate (λ _, OnStream) p.
Definition on_handler {A} (p : prog E A) : prog (connection_call E) A :=
  translate (λ _, OnHandler) p.

(** One turn: receive, handle, reply; the error that ends the connection. *)
Definition serve_one (session : Session) : prog (connection_call E) (result Session ServerError) :=
  let! received := on_stream receive in
  match received with
  | Err e => Ret (Err (SvTransport e))
  | Ok payload =>
      let! '(handled, session) := on_handler (handle_payload pkg_version session payload) in
      match handled with
      | Err e => Ret (Err (SvSession e))
      | Ok (id, response) =>
          match encode_response id response with
          | Err e => Ret (Err (SvCodec e))
          | Ok frame =>
              let! sent := on_stream (send frame) in
              match sent with
              | Err e => Ret (Err (SvTransport e))
              | Ok _ => Ret (Ok session)
              end
          end
      end
  end.

Fixpoint serve_loop (fuel : nat) (session : Session)
    : prog (connection_call E) (result unit ServerError) :=
  match fuel with
  | O => Vis StillServing (λ x, Empty_set_rect (λ _, prog (connection_call E) _) x)
  | S fuel =>
      let! served := serve_one session in
      match served with
      | Err e => Ret (Err e)
      | Ok session => serve_loop fuel session
      end
  end.

Definition serve_connection (fuel : nat) (token : SessionToken)
    : prog (connection_call E) (result unit ServerError) :=
  serve_loop fuel (Session_new token).
End serving.

(** ** The registry *)

Record DownloadRecord := MkRecord {
  dr_state : WireState;
  dr_covered : Z;
  dr_total : option Z;
  dr_error_kind : option str;
}.
Notation Registry := (gmap DownloadId DownloadRecord).

Record TransferConfig := MkConfig {
  cf_target_dir : path;
  cf_journal_dir : path;
  cf_transport_mode : Http.Http.TransportMode;
}.

Definition rpc_error (kind message : string) (recoverable : bool)
    (download_id : option DownloadId) : Response :=
  ErrorResponse (MkRpcError (-32000) (lit message)
    (MkErrorData PROTOCOL_VERSION (lit kind) download_id recoverable
       (if recoverable then Some (lit "retry") else None))).

(** [&s[..n]], which panics outside a character boundary. *)
Definition str_to (n : Z) (s : str) : option str :=
  let p := take_bytes n s in if str_len p =? n then Some p else None.

(** [entropy] is the answer of the random source; [None] is a panic. *)
Definition fresh_download_id (entropy : option (list byte)) : option (result DownloadId string) :=
  match SessionToken_generate entropy with
  | None => Some (Err "OS random source refused an ID"%string)
  | Some token => option_map DownloadId_new (str_to 32 (expose (to_wire token)))
  end.

(** [update_state] under the lock. *)
Definition update_record (id : DownloadId) (record : DownloadRecord) (registry : Registry)
    : unit * Registry :=
  (tt, match registry !! id with Some _ => <[id := record]> registry | None => registry end).

Definition is_active (record : DownloadRecord) : bool :=
  match dr_state record with Probing | Planned | Transferring | Verifying => true | _ => false end.
Definition is_queued (record : DownloadRecord) : bool := bool_decide (dr_state record = Submitted).

Definition records (registry : Registry) : list DownloadRecord := snd <$> map_to_list registry.
(** [u32::try_from(n).unwrap_or(u32::MAX)]. *)
Definition clamp_u32 (n : Z) : Z := if n <? u32_modulus then n else u32_max.

(** What the url crate does. *)
Class UrlParse (Url : Type) := { url_parse : str → option Url; url_scheme : Url → str }.

(** What a spawned task owns. *)
Record Transfer (Url : Type) := MkTransfer {
  tr_id : DownloadId;
  tr_url : Url;
  tr_layout : Download.Download.StorageLayout;
  tr_mode : Http.Http.TransportMode;
}.
Arguments MkTransfer {Url}.
Arguments tr_id {Url}.
Arguments tr_url {Url}.
Arguments tr_layout {Url}.
Arguments tr_mode {Url}.

(** The calls of commands and tasks.  [Locked] runs under the registry's lock, or finds it
    poisoned; [Engine] is a call of the download; [StillDownloading] has no answer. *)
Inductive daemon_call (Url : Type) (N : Type → Type) : Type → Type :=
| FillRandom : daemon_call Url N (option (list byte))
| Locked {X} (f : Registry → X * Registry) : daemon_call Url N (option X)
| Spawn (task : Transfer Url) : daemon_call Url N unit
| Elapsed : daemon_call Url N Z
| NewBackend (mode : Http.Http.TransportMode) : daemon_call Url N bool
| Engine {X} (c : Download.Download.engine_call N X) : daemon_call Url N X
| FileLength (p : path) : daemon_call Url N (option Z)
| Panicked : daemon_call Url N Empty_set
| StillDownloading : daemon_call Url N Empty_set.
Arguments FillRandom {Url N}.
Arguments Locked {Url N X} f.
Arguments Spawn {Url N} task.
Arguments Elapsed {Url N}.
Arguments NewBackend {Url N} mode.
Arguments Engine {Url N X} c.
Arguments FileLength {Url N} p.
Arguments Panicked {Url N}.
Arguments StillDownloading {Url N}.

Section daemon.
Context {Url Mime : Type} {N : Type → Type}.
Context `{backend : Http.Http.TransferProtocol Url Mime N, !Download.Download.UrlText Url, !UrlParse Url}.
Context `{Retry.HttpDate, EqDecision Url, Os, Digest, Completion.Completion.ServerDigests}.
Context (windows : bool) (policy : Retry.RetryPolicy) (reprobe : Retry.ReprobePolicy).
Context (pkg_version : str) (config : TransferConfig).
Notation daemon_call := (daemon_call Url N).

Definition never {A} (call : daemon_call Empty_set) : prog daemon_call A :=
  Vis call (λ x, Empty_set_rect (λ _, prog daemon_call A) x).

Definition ask {X} (c : daemon_call X) : prog daemon_call X := call c.
Definition registering {X} (f : Registry → X * Registry) : prog daemon_call (option X) :=
  ask (Locked f).
Definition update_state (id : DownloadId) (state : WireState) (covered : Z) (total : option Z)
    (error_kind : option str) : prog daemon_call unit :=
  let! _ := registering (update_record id (MkRecord state covered total error_kind)) in Ret tt.

Definition on_engine {A} (p : prog (Download.Download.engine_call N) A) : prog daemon_call A :=
  translate (λ _, Engine) p.

(** The body of the spawned task. *)
Definition transfer (task : Transfer Url) : prog daemon_call unit :=
  let! _ := update_state (tr_id task) Probing 0 None None in
  let! built := ask (NewBackend (tr_mode task)) in
  if built then
    let! outcome := on_engine (Download.Download.download (Mime := Mime) windows policy reprobe
      (Download.Download.download_fuel policy) (tr_url task) (tr_layout task)) in
    match outcome with
    | None => never StillDownloading
    | Some (Ok p) =>
        let! length := ask (FileLength p) in
        update_state (tr_id task) Completed (default 0 length) length None
    | Some (Err error) =>
        update_state (tr_id task) Failed 0 None
          (Some (lit (Download.Download.DownloadError_kind error)))
    end
  else update_state (tr_id task) Failed 0 None (Some (lit "backend_unavailable")).

Definition submitted : DownloadRecord := MkRecord Submitted 0 None None.

Definition is_http (url : Url) : bool :=
  bool_decide (url_scheme url = lit "http") || bool_decide (url_scheme url = lit "https").

(** [add] from the new identity on. *)
Definition accept (params : AddParams) (url : Url) : prog daemon_call Response :=
  let! entropy := ask FillRandom in
  match fresh_download_id entropy with
  | None => never Panicked
  | Some (Err message) => Ret (rpc_error "id_generation_failed" message true None)
  | Some (Ok id) =>
      let target_dir := match ap_target params with
                        | Some target => Download.Download.os_str target
                        | None => cf_target_dir config
                        end in
      let layout := Download.Download.MkLayout target_dir (cf_journal_dir config) in
      let! inserted := registering (λ registry, (tt, <[id := submitted]> registry)) in
      match inserted with
      | None => Ret (rpc_error "state_unavailable" "daemon transfer state is unavailable" true None)
      | Some _ =>
          let! _ := ask (Spawn (MkTransfer id url layout (cf_transport_mode config))) in
          Ret (Added (MkStateResult PROTOCOL_VERSION id Submitted))
      end
  end.

Definition add (params : AddParams) : prog daemon_call Response :=
  match url_parse (expose (ap_url params)) with
  | None => Ret (rpc_error "invalid_url" "download URL is not HTTP(S)" false None)
  | Some url =>
      if negb (is_http url)
      then Ret (rpc_error "invalid_url" "download URL is not HTTP(S)" false None) else
      match ao_connections (ap_options params) with
      | None => accept params url
      | Some n =>
          if n =? 0 then
            Ret (rpc_error "invalid_connections" "connection count must be greater than zero"
                   false None)
          else if n =? 1 then accept params url
          else
            Ret (rpc_error "segmented_execution_not_ready"
                   "daemon completion is not yet wired to the segmented worker pool" false None)
      end
  end.

Definition get (id : DownloadId) : prog daemon_call Response :=
  let! found := registering (λ registry, (registry !! id, registry)) in
  match found with
  | None =>
      Ret (rpc_error "state_unavailable" "daemon transfer state is unavailable" true (Some id))
  | Some None => Ret (rpc_error "not_found" "download was not found" false (Some id))
  | Some (Some record) =>
      Ret (DownloadResponse (MkView PROTOCOL_VERSION id (dr_state record) (dr_covered record)
             (dr_total record) (dr_error_kind record)))
  end.

Definition status : prog daemon_call Response :=
  let! counted := registering (λ registry,
    ((zlen (List.filter is_active (records registry)), zlen (List.filter is_queued (records registry))),
     registry)) in
  match counted with
  | None => Ret (rpc_error "state_unavailable" "daemon transfer state is unavailable" true None)
  | Some (active, queued) =>
      let! uptime := ask Elapsed in
      Ret (StatusResponse (MkStatus PROTOCOL_VERSION pkg_version uptime (clamp_u32 active)
             (clamp_u32 queued) 0))
  end.

#[export] Instance TransferDaemon : CommandHandler daemon_call := λ request,
  match request with
  | DownloadAdd params => add params
  | DownloadGet params => get (ip_id params)
  | DownloadResume params =>
      Ret (rpc_error "resume_not_ready" "cross-process resume is not available until S3-T9" true
             (Some (ip_id params)))
  | SystemStatus_ _ => status
  | Hello _ =>
      Ret (rpc_error "invalid_dispatch" "hello must be handled by the authenticated session" false
             None)
  end.
End daemon.

(** ** What a connection did

    The handler that only asks; every other is this one with its answers filled in. *)
Inductive dispatch : Type → Type := Dispatch (request : Request) : dispatch Response.
#[export] Instance dispatcher : CommandHandler dispatch := λ request, call (Dispatch request).

(** The byte stream, and the commands that reached the handler with its answers. *)
Record conn := MkConn { cn_wire : wire; cn_commands : list (Request * Response) }.

Definition conn_does {X} (c : connection_call dispatch X) (w : conn) : X → conn → Prop :=
  match c in connection_call _ X return X → conn → Prop with
  | OnStream c => λ x w', ∃ s, does c (cn_wire w) x s ∧ w' = MkConn s (cn_commands w)
  | OnHandler d =>
      match d in dispatch X return X → conn → Prop with
      | Dispatch request => λ response w',
          w' = MkConn (cn_wire w) (cn_commands w ++ [(request, response)])
      end
  | StillServing => λ _ _, False
  end.
#[export] Instance conn_world : World (connection_call dispatch) conn := @conn_does.

Section conversation.
Context {V : Type} `{Json V, Serde V HelloParams, Serde V AddParams, Serde V IdParams,
  Serde V VersionParams, Serde V HelloResult, Serde V StateResult, Serde V DownloadView,
  Serde V SystemStatus, !Serde V (RequestEnvelope V), !Serde V (SuccessEnvelope V),
  !Serde V ErrorEnvelope}.
Context (pkg_version : str) (token : SessionToken).
Hypothesis Htoken : length (token_bytes token) = 32%nat.

(** A payload is a greeting with the daemon's own token; a payload is the command dispatched. *)
Definition greets (payload : list byte) (id : Z) : Prop :=
  ∃ params, decode_request payload = Ok (id, Hello params) ∧
    hp_protocol_version params = PROTOCOL_VERSION ∧
    expose (hp_token params) = expose (to_wire token).
Definition is_command (request : Request) : bool :=
  match request with Hello _ => false | _ => true end.
Definition commands_as (payload : list byte) (dispatched : Request * Response) : Prop :=
  ∃ id, decode_request payload = Ok (id, fst dispatched) ∧ is_command (fst dispatched) = true ∧
    request_version (fst dispatched) = PROTOCOL_VERSION.

Definition written (r : result (list byte) CodecError) : list byte :=
  match r with Ok frame => frame | Err _ => [] end.
Definition hello_reply (id : Z) : list byte :=
  written (encode_response id (HelloResponse
    (MkHelloResult PROTOCOL_VERSION pkg_version [lit "h1-segments"]))).
Definition reply (answered : list byte * (Request * Response)) : list byte :=
  match decode_request (fst answered) with
  | Ok (id, _) => written (encode_response id (snd (snd answered)))
  | Err _ => []
  end.

(** What was read, dispatched and replied after the greeting [hello]. *)
Record spoken (stream : list byte) (w : conn) (hello : list byte) (id : Z) (ps : list (list byte))
    (tail : list byte) : Prop := {
  sp_greeting : greets hello id;
  sp_read : stream = mjoin (framed <$> hello :: ps) ++ tail;
  sp_commands : Forall2 commands_as ps (cn_commands w);
  sp_bounded : Forall (λ p, zlen p ≤ MAX_FRAME_BYTES) (hello :: ps);
}.
Definition replies (id : Z) (ps : list (list byte)) (w : conn) : list byte :=
  hello_reply id ++ mjoin (reply <$> zip ps (cn_commands w)).

Definition served (stream : list byte) (w : conn) : Prop :=
  (cn_commands w = [] ∧ outbound (cn_wire w) = []) ∨
  ∃ hello id ps tail, spoken stream w hello id ps tail ∧
    outbound (cn_wire w) `prefix_of` replies id ps w.

(** Between two turns of the loop. *)
Definition waiting (stream : list byte) (s : Session) (w : conn) : Prop :=
  s_token s = token ∧
  if s_authenticated s then
    ∃ hello id ps, spoken stream w hello id ps (inbound (cn_wire w)) ∧
      outbound (cn_wire w) = replies id ps w
  else w = MkConn (MkWire stream []) [].

Lemma waiting_served stream s w : waiting stream s w → served stream w.
Proof.
  intros [_ Hw]. destruct (s_authenticated s); [|left; by subst w].
  destruct Hw as (hello & id & ps & Hsp & Ho). right. exists hello, id, ps, (inbound (cn_wire w)).
  by rewrite Ho.
Qed.

Lemma on_stream_wp {A} (p : prog stream_call A) Q S w :
  wp p Q S (cn_wire w) →
  wp (on_stream (E := dispatch) p) (λ a w', ∃ s, w' = MkConn s (cn_commands w) ∧ Q a s)
    (λ w', ∃ s, w' = MkConn s (cn_commands w) ∧ S s) w.
Proof.
  destruct w as [s cs]. apply (translate_wp _ (λ s, MkConn s cs)). intros X e s1 x w' (s' & Hd & ->).
  by exists s'.
Qed.

(** One payload: nothing, the greeting, or one command with its answer. *)
Definition dispatched (s : Session) (payload : list byte) (id : Z) (response : Response)
    (w w' : conn) : Prop :=
  s_authenticated s = true ∧ ∃ request, decode_request payload = Ok (id, request) ∧
    commands_as payload (request, response) ∧
    w' = MkConn (cn_wire w) (cn_commands w ++ [(request, response)]).

Lemma handled_wp s payload w : s_token s = token →
  wp (on_handler (handle_payload pkg_version s payload))
    (λ '(r, s') w', s_token s' = token ∧
       match r with
       | Err _ => w' = w
       | Ok (id, response) => s_authenticated s' = true ∧
           (s_authenticated s = false ∧ greets payload id ∧ w' = w ∧
              written (encode_response id response) = hello_reply id
            ∨ dispatched s payload id response w w')
       end)
    (λ w', w' = w ∨ ∃ id response, dispatched s payload id response w w') w.
Proof.
  intros Ht. unfold handle_payload.
  destruct (decode_request payload) as [[id request]|e] eqn:Ed;
    [|apply prog_ret; [by left|done]].
  assert (Hcmd : is_command request = true →
    wp (on_handler (E := dispatch)
          (if negb (s_authenticated s) then Ret (Err AuthenticationRequired, s) else
           match ensure_version (request_version request) with
           | Err e => Ret (Err e, s)
           | Ok _ => let! response := handle request in Ret (Ok (id, response), s)
           end))
      (λ '(r, s') w', s_token s' = token ∧
         match r with
         | Err _ => w' = w
         | Ok (id, response) => s_authenticated s' = true ∧
             (s_authenticated s = false ∧ greets payload id ∧ w' = w ∧
                written (encode_response id response) = hello_reply id
              ∨ dispatched s payload id response w w')
         end)
      (λ w', w' = w ∨ ∃ id response, dispatched s payload id response w w') w).
  { intros Hc. destruct (s_authenticated s) eqn:Ea; [|apply prog_ret; [by left|done]]. cbn [negb].
    unfold ensure_version.
    destruct (Z.eqb_spec (request_version request) PROTOCOL_VERSION) as [Hv|];
      [|apply prog_ret; [by left|done]].
    split; [by left|]. intros response w' Hd. cbn in Hd. subst w'.
    assert (Hdone : dispatched s payload id response w
              (MkConn (cn_wire w) (cn_commands w ++ [(request, response)]))).
    { split; [done|]. exists request. split; [done|]. split; [|done]. by exists id. }
    cbn [bind on_handler translate]. apply prog_ret; [right; by exists id, response|].
    split; [done|]. split; [done|]. by right. }
  destruct request as [params| | | |]; try (by apply Hcmd).
  destruct (s_authenticated s) eqn:Ea; [apply prog_ret; [by left|done]|].
  unfold ensure_version.
  destruct (Z.eqb_spec (hp_protocol_version params) PROTOCOL_VERSION) as [Hv|];
    [|apply prog_ret; [by left|done]].
  destruct (matches_wire (s_token s) (expose (hp_token params))) eqn:Em; cbn [negb];
    [|apply prog_ret; [by left|done]].
  apply prog_ret; [by left|]. split; [done|]. split; [done|]. left. split; [done|].
  split; [|done]. exists params. split; [done|split; [done|]].
  rewrite Ht in Em. by apply matches_wire_spec in Em.
Qed.

Lemma mjoin_snoc {A} (l : list (list A)) x : mjoin (l ++ [x]) = mjoin l ++ x.
Proof. rewrite join_app. cbn. by rewrite app_nil_r. Qed.

(** One more command after [ps]. *)
Lemma spoken_snoc stream w hello id ps payload cid request response s rest :
  spoken stream w hello id ps (framed payload ++ rest) → zlen payload ≤ MAX_FRAME_BYTES →
  decode_request payload = Ok (cid, request) → commands_as payload (request, response) →
  spoken stream (MkConn s (cn_commands w ++ [(request, response)])) hello id (ps ++ [payload]) rest ∧
  replies id (ps ++ [payload]) (MkConn s (cn_commands w ++ [(request, response)]))
  = replies id ps w ++ written (encode_response cid response).
Proof.
  intros [Hg Hr Hc Hb] Hmax Hd Hp. split.
  - split; [done| | |].
    + rewrite Hr, app_comm_cons, fmap_app. cbn [fmap list_fmap]. by rewrite mjoin_snoc, <- app_assoc.
    + cbn. apply Forall2_app; [done|]. by constructor.
    + rewrite app_comm_cons. apply Forall_app. split; [done|]. by constructor.
  - unfold replies. cbn [cn_commands]. rewrite zip_with_app by by eapply Forall2_length.
    rewrite fmap_app, join_app, app_assoc. f_equal. cbn. unfold reply. cbn.
    by rewrite Hd, app_nil_r.
Qed.

Lemma served_anywhere stream w rest :
  served stream w → served stream (MkConn (MkWire rest (outbound (cn_wire w))) (cn_commands w)).
Proof.
  intros [Hn|(hello & id & ps & tail & [] & Hp)]; [by left|].
  right. exists hello, id, ps, tail. by split.
Qed.

(** The payload is handled and [frame] is to be sent. *)
Definition answering (stream : list byte) (s : Session) (frame : list byte) (w : conn) : Prop :=
  s_token s = token ∧ s_authenticated s = true ∧ ∃ hello id ps,
    spoken stream w hello id ps (inbound (cn_wire w)) ∧
    replies id ps w = outbound (cn_wire w) ++ frame.

Lemma answering_served stream s frame w : answering stream s frame w → served stream w.
Proof.
  intros (_ & _ & hello & id & ps & Hsp & Hr). right. exists hello, id, ps, (inbound (cn_wire w)).
  split; [done|]. rewrite Hr. by apply prefix_app_r.
Qed.

Lemma dispatched_answering stream s s' payload id response w w1 w' :
  waiting stream s w → s_token s' = token → s_authenticated s' = true →
  zlen payload ≤ MAX_FRAME_BYTES → inbound (cn_wire w) = framed payload ++ inbound (cn_wire w1) →
  outbound (cn_wire w1) = outbound (cn_wire w) → cn_commands w1 = cn_commands w →
  dispatched s payload id response w1 w' →
  answering stream s' (written (encode_response id response)) w'.
Proof.
  intros [_ Hw] Ht Hs Hmax Hin Hout Hcs (Ha & request & Hd & Hc & ->). rewrite Ha in Hw.
  destruct Hw as (hello & hid & ps & Hsp & Ho). rewrite Hin in Hsp.
  destruct (spoken_snoc _ _ _ _ _ _ _ _ _ (cn_wire w1) _ Hsp Hmax Hd Hc) as [Hsp' Hr].
  split; [done|split; [done|]]. exists hello, hid, (ps ++ [payload]).
  rewrite Hcs. split; [done|]. rewrite Hr. cbn. by rewrite Hout, Ho.
Qed.

Lemma greeted_answering stream s s' payload id response w w1 :
  waiting stream s w → s_token s' = token → s_authenticated s' = true →
  s_authenticated s = false → greets payload id →
  zlen payload ≤ MAX_FRAME_BYTES → inbound (cn_wire w) = framed payload ++ inbound (cn_wire w1) →
  outbound (cn_wire w1) = outbound (cn_wire w) → cn_commands w1 = cn_commands w →
  written (encode_response id response) = hello_reply id →
  answering stream s' (written (encode_response id response)) w1.
Proof.
  intros [_ Hw] Ht Hs Ha Hg Hmax Hin Hout Hcs Hr. rewrite Ha in Hw. subst w. cbn in *.
  split; [done|split; [done|]]. exists payload, id, []. split.
  - split; [done| |by rewrite Hcs|by constructor]. cbn. by rewrite app_nil_r.
  - unfold replies. rewrite Hcs, Hout, Hr. cbn. by rewrite app_nil_r.
Qed.

Lemma send_answering stream s frame w : answering stream s frame w →
  wp (on_stream (E := dispatch) (send frame))
    (λ r w', match r with Ok _ => waiting stream s w' | Err _ => True end) (served stream) w.
Proof.
  intros (Ht & Hs & hello & id & ps & Hsp & Hr).
  eapply prog_mono; [apply on_stream_wp, send_wp|..].
  - intros r w' (w1 & -> & Hin & Hout) _. destruct r as [_|]; [|done]. split; [done|]. rewrite Hs.
    exists hello, id, ps. cbn. rewrite Hin. split; [by destruct Hsp; split|].
    rewrite Hout, <- Hr. done.
  - intros w' (w1 & -> & _ & n & Hp). right. exists hello, id, ps, (inbound (cn_wire w)). cbn.
    split; [by destruct Hsp; split|]. rewrite Hp. change (replies id ps _) with (replies id ps w).
    rewrite Hr. apply prefix_app.
    rewrite <- (take_drop n frame) at 2. by apply prefix_app_r.
Qed.

Lemma serve_one_wp stream s w : waiting stream s w →
  wp (serve_one pkg_version s)
    (λ r w', match r with Ok s' => waiting stream s' w' | Err _ => True end) (served stream) w.
Proof.
  intros Hw. pose proof (waiting_served _ _ _ Hw) as Hserved.
  unfold serve_one. apply prog_bind. eapply prog_mono.
  { apply on_stream_wp, (receive_wp (λ s1, served stream (MkConn s1 (cn_commands w)))).
    intros rest. by apply served_anywhere. }
  2: { by intros w' (s1 & -> & Hs). }
  intros r w1 (s1 & -> & Hout & Hread) (s2 & [= <-] & Hs1).
  destruct r as [payload|e]; [destruct Hread as [Hmax Hread]|by apply prog_ret].
  apply prog_bind. eapply prog_mono; [by apply handled_wp; destruct Hw| |].
  2: { intros w' [->|(id & response & Hd)]; [done|].
       eapply answering_served, (dispatched_answering _ s (MkSession token true) _ _ _ w
         (MkConn s1 (cn_commands w)));
         [exact Hw|done|done|exact Hmax|exact Hread|exact Hout|done|exact Hd]. }
  intros [handled s'] w' [Ht Hh] Hs'. destruct handled as [[id response]|e];
    [|subst w'; by apply prog_ret].
  destruct Hh as [Ha Hh].
  assert (Hans : answering stream s' (written (encode_response id response)) w').
  { destruct Hh as [(Hno & Hg & -> & Hr)|Hd].
    - by eapply (greeted_answering _ s _ _ _ _ w).
    - by eapply (dispatched_answering _ s _ _ _ _ w (MkConn s1 (cn_commands w))). }
  pose proof (answering_served _ _ _ _ Hans) as Hsv.
  destruct (encode_response id response) as [frame|e]; [|by apply prog_ret].
  apply prog_bind. eapply prog_mono; [by apply send_answering| |done].
  intros [u|e] w2 Hw2 Hs2; by apply prog_ret.
Qed.

Lemma serve_loop_wp fuel stream s w : waiting stream s w →
  wp (serve_loop pkg_version fuel s) (λ r w', is_ok r = false) (served stream) w.
Proof.
  revert s w. induction fuel as [|fuel IH]; intros s w Hw; cbn [serve_loop].
  { split; [by eapply waiting_served|]. intros x. destruct x. }
  apply prog_bind. eapply prog_mono; [by apply serve_one_wp| |done].
  intros [s'|e] w' Hw' Hs; [by apply IH|by apply prog_ret].
Qed.

(** *** A client that is served *)

Lemma on_stream_exec {A} (p : prog stream_call A) s s' cs (a : A) :
  exec p s s' (Some a) →
  exec (on_stream (E := dispatch) p) (MkConn s cs) (MkConn s' cs) (Some a).
Proof. apply (translate_exec _ (λ s, MkConn s cs)). intros X e s1 x s2 Hd. by exists s2. Qed.

Lemma receive_exec payload rest out : zlen payload ≤ MAX_FRAME_BYTES →
  exec receive (MkWire (framed payload ++ rest) out) (MkWire rest out) (Some (Ok payload)).
Proof. intros Hmax. eapply exec_then; [by apply read_frame_runs|apply exec_return]. Qed.

Lemma send_exec frame inb out :
  exec (send frame) (MkWire inb out) (MkWire inb (out ++ frame)) (Some (Ok tt)).
Proof. by eapply (exec_call (WriteAll frame) _ (Ok tt)); [|apply exec_return]. Qed.

(** Some payload within bounds is handled with some reply that can be encoded. *)
Lemma serve_one_exec s s' payload rest out id response cs cs' :
  zlen payload ≤ MAX_FRAME_BYTES → is_ok (encode_response id response) = true →
  exec (on_handler (handle_payload pkg_version s payload)) (MkConn (MkWire rest out) cs)
    (MkConn (MkWire rest out) cs') (Some (Ok (id, response), s')) →
  exec (serve_one pkg_version s) (MkConn (MkWire (framed payload ++ rest) out) cs)
    (MkConn (MkWire rest (out ++ written (encode_response id response))) cs') (Some (Ok s')).
Proof.
  intros Hmax Hok Hh. unfold serve_one.
  eapply exec_then; [by apply on_stream_exec, receive_exec|].
  eapply exec_then; [exact Hh|]. cbv beta iota.
  destruct (encode_response id response) as [frame|e]; [|done].
  eapply exec_then; [by apply on_stream_exec, send_exec|]. apply exec_return.
Qed.

Lemma greeting_exec payload id rest out : greets payload id → zlen payload ≤ MAX_FRAME_BYTES →
  is_ok (encode_response id (HelloResponse
    (MkHelloResult PROTOCOL_VERSION pkg_version [lit "h1-segments"]))) = true →
  exec (serve_one pkg_version (Session_new token)) (MkConn (MkWire (framed payload ++ rest) out) [])
    (MkConn (MkWire rest (out ++ hello_reply id)) []) (Some (Ok (MkSession token true))).
Proof.
  intros (params & Hd & Hv & Ht) Hmax Hok. apply serve_one_exec; [done..|].
  unfold handle_payload. rewrite Hd. unfold Session_new, ensure_version.
  cbn [s_authenticated s_token]. rewrite Hv, Z.eqb_refl.
  rewrite (proj2 (matches_wire_spec token _ Htoken) Ht). apply exec_return.
Qed.

Lemma command_exec payload request response rest out cs : 
  commands_as payload (request, response) → zlen payload ≤ MAX_FRAME_BYTES →
  is_ok (encode_response (default 0 (fst <$> ok (decode_request payload))) response) = true →
  exec (serve_one pkg_version (MkSession token true))
    (MkConn (MkWire (framed payload ++ rest) out) cs)
    (MkConn (MkWire rest (out ++ reply (payload, (request, response)))) (cs ++ [(request, response)]))
    (Some (Ok (MkSession token true))).
Proof.
  intros (id & Hd & Hc & Hv) Hmax Hok. cbn [fst] in *. unfold reply. cbn [fst snd].
  rewrite Hd in *. cbn in Hok. apply serve_one_exec; [done..|].
  unfold handle_payload. rewrite Hd.
  destruct request; try done; cbn [s_authenticated negb]; unfold ensure_version;
    rewrite Hv, Z.eqb_refl;
    by (eapply (exec_call (OnHandler (Dispatch _)) _ response); [done|apply exec_return]).
Qed.

(** A command that is answered within bounds. *)
Definition answerable (payload : list byte) (d : Request * Response) : Prop :=
  commands_as payload d ∧ zlen payload ≤ MAX_FRAME_BYTES ∧
  is_ok (encode_response (default 0 (fst <$> ok (decode_request payload))) (snd d)) = true.

(** The stream has ended. *)
Definition stream_ended : ServerError := SvTransport (TrCodec TruncatedHeader).

Lemma ended_exec fuel s out cs :
  exec (serve_loop pkg_version (E := dispatch) (S fuel) s) (MkConn (MkWire [] out) cs)
    (MkConn (MkWire [] out) cs) (Some (Err stream_ended)).
Proof.
  cbn [serve_loop]. set (w := MkConn (MkWire [] out) cs).
  apply (exec_then _ _ _ w _ (Err stream_ended)); [|apply exec_return]. unfold serve_one.
  apply (exec_then _ _ _ w _ (Err (TrCodec TruncatedHeader))); [|apply exec_return].
  apply on_stream_exec. by eapply (exec_call (ReadExact 4) _ None); [|apply exec_return].
Qed.

Lemma commands_exec ps ds out cs : Forall2 answerable ps ds →
  exec (serve_loop pkg_version (length ps + 1) (MkSession token true))
    (MkConn (MkWire (mjoin (framed <$> ps)) out) cs)
    (MkConn (MkWire [] (out ++ mjoin (reply <$> zip ps ds))) (cs ++ ds))
    (Some (Err stream_ended)).
Proof.
  intros Ha. revert out cs. induction Ha as [|p [request response] ps ds (Hc & Hm & Hok) _ IH];
    intros out cs; cbn [length Nat.add mjoin list_join fmap list_fmap zip zip_with].
  { rewrite !app_nil_r. apply ended_exec. }
  cbn [serve_loop]. eapply exec_then; [by apply command_exec|].
  rewrite (app_assoc out). change (cs ++ (request, response) :: ds) with (cs ++ [(request, response)] ++ ds).
  rewrite (app_assoc cs). apply IH.
Qed.

Lemma connection_exec hello id ps ds : greets hello id → zlen hello ≤ MAX_FRAME_BYTES →
  is_ok (encode_response id (HelloResponse
    (MkHelloResult PROTOCOL_VERSION pkg_version [lit "h1-segments"]))) = true →
  Forall2 answerable ps ds →
  exec (serve_connection pkg_version (length ps + 2) token)
    (MkConn (MkWire (mjoin (framed <$> hello :: ps)) []) [])
    (MkConn (MkWire [] (hello_reply id ++ mjoin (reply <$> zip ps ds))) ds) (Some (Err stream_ended)).
Proof.
  intros Hg Hm Hok Ha. unfold serve_connection.
  replace (length ps + 2)%nat with (S (length ps + 1)) by lia. cbn [serve_loop].
  eapply exec_then; [by apply greeting_exec|]. by apply (commands_exec ps ds _ []).
Qed.
End conversation.

(** ** The running daemon

    Threads are the commands being answered and the tasks that were spawned; they share the
    registry.  Any client may issue any command at any time, and go away at any time: a command
    is not tied to the connection it came from. *)
Section lifecycle.
Context {Url Mime : Type} {N : Type → Type}.
Context `{backend : Http.Http.TransferProtocol Url Mime N, !Download.Download.UrlText Url, !UrlParse Url}.
Context `{Retry.HttpDate, EqDecision Url, Os, Digest, Completion.Completion.ServerDigests}.
Context (windows : bool) (policy : Retry.RetryPolicy) (reprobe : Retry.ReprobePolicy).
Context (pkg_version : str) (config : TransferConfig).
Notation dcall := (daemon_call Url N).
Notation thread := (prog dcall unit).
Notation body := (transfer (Mime := Mime) windows policy reprobe).

(** [sy_given]: the identities the random source has given; it gives none twice. *)
Record system := MkSystem {
  sy_registry : Registry;
  sy_poisoned : bool;
  sy_given : gset DownloadId;
  sy_threads : list thread;
}.

(** The command of one request; its reply goes to its client. *)
Definition command (request : Request) : thread :=
  let! _ := TransferDaemon pkg_version config request in Ret tt.

(** An answer to a call, what it makes of registry and given identities, and what it spawns. *)
Definition answer {X} (c : dcall X) (registry : Registry) (poisoned : bool)
    (given : gset DownloadId) : X → Registry → gset DownloadId → list thread → Prop :=
  match c in daemon_call _ _ X return X → Registry → gset DownloadId → list thread → Prop with
  | FillRandom => λ x registry' given' spawned, registry' = registry ∧ spawned = [] ∧
      match x with
      | None => given' = given
      | Some bytes => length bytes = 32%nat ∧ ∃ id,
          fresh_download_id x = Some (Ok id) ∧ id ∉ given ∧ given' = {[id]} ∪ given
      end
  | Locked f => λ x registry' given' spawned, spawned = [] ∧ given' = given ∧
      if poisoned : bool then x = None ∧ registry' = registry
      else x = Some (fst (f registry)) ∧ registry' = snd (f registry)
  | Spawn task => λ _ registry' given' spawned,
      registry' = registry ∧ given' = given ∧ spawned = [body task]
  | Panicked | StillDownloading => λ _ _ _ _, False
  | _ => λ _ registry' given' spawned, registry' = registry ∧ given' = given ∧ spawned = []
  end.

(** A call that goes to the engine may take long: what is left of it is another call. *)
Inductive step : system → system → Prop :=
| step_command registry poisoned given threads request :
    step (MkSystem registry poisoned given threads)
         (MkSystem registry poisoned given (threads ++ [command request]))
| step_call registry poisoned given l X (c : dcall X) k r x registry' given' spawned :
    answer c registry poisoned given x registry' given' spawned →
    step (MkSystem registry poisoned given (l ++ Vis c k :: r))
         (MkSystem registry' poisoned given' (l ++ k x :: r ++ spawned))
| step_proceeds registry poisoned given l X (c c' : Download.Download.engine_call N X) k r :
    step (MkSystem registry poisoned given (l ++ Vis (Engine c) k :: r))
         (MkSystem registry poisoned given (l ++ Vis (Engine c') k :: r))
| step_poison registry poisoned given threads :
    step (MkSystem registry poisoned given threads) (MkSystem registry true given threads).

Definition started : system := MkSystem ∅ false ∅ [].

(** *** What a record can be, and how it moves *)

Definition terminal (record : DownloadRecord) : bool :=
  match dr_state record with Completed | Failed => true | _ => false end.

(** Counts and errors go with the state; of the nine states the daemon uses four. *)
Definition well_formed (record : DownloadRecord) : Prop :=
  match dr_state record with
  | Submitted | Probing => dr_covered record = 0 ∧ dr_total record = None ∧ dr_error_kind record = None
  | Completed => dr_covered record = default 0 (dr_total record) ∧ dr_error_kind record = None
  | Failed => dr_covered record = 0 ∧ dr_total record = None ∧ dr_error_kind record ≠ None
  | _ => False
  end.

Definition moves (from : WireState) (record : DownloadRecord) : Prop :=
  well_formed record ∧
  match from with
  | Submitted => dr_state record = Probing
  | Probing => terminal record = true
  | _ => False
  end.

(** One step of the registry: nothing, one new download, or one download moving on. *)
Inductive evolves : Registry → Registry → Prop :=
| stays registry : evolves registry registry
| enters registry id : registry !! id = None → evolves registry (<[id := submitted]> registry)
| goes_on registry id old new :
    registry !! id = Some old → moves (dr_state old) new → evolves registry (<[id := new]> registry).

(** *** Claims

    What a thread relies on: nothing, an identity no one else has, or the one record it moves. *)
Inductive claim := Free | Reserved (id : DownloadId) | Owns (id : DownloadId) (state : WireState).

Definition claimed (c : claim) : option DownloadId :=
  match c with Free => None | Reserved id | Owns id _ => Some id end.
Definition holds (registry : Registry) (c : claim) : Prop :=
  match c with
  | Free => True
  | Reserved id => registry !! id = None
  | Owns id state => ∃ record, registry !! id = Some record ∧ dr_state record = state
  end.
Definition settled (c : claim) : Prop :=
  match c with
  | Free | Owns _ (Completed | Failed) => True
  | _ => False
  end.

(** What a thread may do to the registry under its claim, and its claim afterwards. *)
Inductive uses : claim → Registry → claim → Registry → Prop :=
| uses_nothing c registry : uses c registry c registry
| uses_reserved id registry :
    uses (Reserved id) registry (Owns id Submitted) (<[id := submitted]> registry)
| uses_owned id state new registry : moves state new →
    uses (Owns id state) registry (Owns id (dr_state new)) (<[id := new]> registry).

Definition careful_call {X} (c : dcall X) (cl : claim) : (X → claim → Prop) → Prop :=
  match c in daemon_call _ _ X return (X → claim → Prop) → Prop with
  | FillRandom => λ Q, Q None cl ∧ ∀ bytes id,
      fresh_download_id (Some bytes) = Some (Ok id) → cl = Free ∧ Q (Some bytes) (Reserved id)
  | Locked f => λ Q, ∀ registry, holds registry cl → ∃ cl',
      uses cl registry cl' (snd (f registry)) ∧ Q (Some (fst (f registry))) cl'
  | Spawn task => λ Q, cl = Owns (tr_id task) Submitted ∧ Q tt Free
  | _ => λ Q, ∀ x, Q x cl
  end.

(** Whatever its calls answer, the thread keeps to its claim and settles it before it ends. *)
Fixpoint careful (cl : claim) (p : thread) : Prop :=
  match p with
  | Ret _ => settled cl
  | Vis c k => careful_call c cl (λ x cl', careful cl' (k x))
  end.

Lemma engine_careful {A} (p : prog (Download.Download.engine_call N) A) cl (k : A → thread) :
  (∀ a, careful cl (k a)) → careful cl (bind (on_engine p) k).
Proof. intros Hk. induction p as [a|X e k' IH]; cbn; [done|]. intros x. apply IH. Qed.

Lemma update_careful id state record (k : option unit → thread) :
  moves state record → careful (Owns id (dr_state record)) (k (Some tt)) →
  careful (Owns id state) (Vis (Locked (update_record id record)) k).
Proof.
  intros Hm Hk registry (old & Hold & _). exists (Owns id (dr_state record)).
  cbn [update_record fst snd]. rewrite Hold. split; [by constructor|done].
Qed.

Lemma transfer_careful task : careful (Owns (tr_id task) Submitted) (body task).
Proof.
  unfold transfer, update_state, registering, ask, call. cbn [bind].
  apply update_careful; [done|]. cbn. intros [].
  - apply engine_careful. intros [[p|error]|].
    + intros length. cbv beta. by apply update_careful.
    + by apply update_careful.
    + cbn. intros [].
  - by apply update_careful.
Qed.

Lemma accepted_careful params url :
  careful Free (
    let! response := accept config params url in Ret tt).
Proof.
  unfold accept, ask, registering, call. cbn [bind]. split; [done|].
  intros bytes id Hid. split; [done|]. rewrite Hid. intros registry Hnone. eexists.
  split; [by constructor|]. cbn. by split.
Qed.

Lemma command_careful request : careful Free (command request).
Proof.
  destruct request as [params|params|params|params|params]; cbn; try done.
  - unfold add. destruct (url_parse _) as [url|]; [|done]. destruct (negb _); [done|].
    destruct (ao_connections _) as [n|]; [|apply accepted_careful].
    destruct (n =? 0); [done|]. destruct (n =? 1); [apply accepted_careful|done].
  - intros registry _. exists Free. split; [constructor|]. by destruct (registry !! _).
  - intros registry _. exists Free. by split; [constructor|].
Qed.

(** *** The invariant *)

Definition live (record : DownloadRecord) : Prop := terminal record = false.

Record owned (registry : Registry) (given : gset DownloadId) (threads : list thread)
    (claims : list claim) : Prop := {
  ow_careful : Forall2 careful claims threads;
  ow_holds : Forall (holds registry) claims;
  ow_apart : NoDup (omap claimed claims);
  ow_given : ∀ id, is_Some (registry !! id) ∨ id ∈ omap claimed claims → id ∈ given;
  ow_live : ∀ id record, registry !! id = Some record → live record →
    Owns id (dr_state record) ∈ claims;
}.

Definition all_well_formed (registry : Registry) : Prop :=
  ∀ id record, registry !! id = Some record → well_formed record.

Definition sound (s : system) : Prop :=
  all_well_formed (sy_registry s) ∧
  (sy_poisoned s = false →
   ∃ claims, owned (sy_registry s) (sy_given s) (sy_threads s) claims).

Lemma uses_evolves cl registry cl' registry' :
  uses cl registry cl' registry' → holds registry cl → evolves registry registry'.
Proof.
  intros [c r|id r|id state new r Hm] Hh; [constructor|by constructor|].
  destruct Hh as (old & Hold & <-). by econstructor.
Qed.

Lemma evolves_well_formed registry registry' :
  evolves registry registry' → all_well_formed registry → all_well_formed registry'.
Proof.
  intros He Hw. destruct He as [r|r id Hid|r id old new Hold [Hnew _]]; [done|..];
    intros i record; rewrite lookup_insert_Some; intros [[<- <-]|[_ Hi]]; try done; by eapply Hw.
Qed.

(** A claim that changes nothing another thread relies on. *)
Lemma uses_others cl registry cl' registry' other :
  uses cl registry cl' registry' → (∀ id, claimed cl = Some id → claimed other ≠ Some id) →
  holds registry other → holds registry' other.
Proof.
  intros Hu Hne Ho. destruct Hu as [c r|id r|id state new r _]; [done|..];
    specialize (Hne id eq_refl);
    (destruct other as [|i|i st]; cbn in *; [done|..]; rewrite lookup_insert_ne by congruence; done).
Qed.

Lemma uses_claimed cl registry cl' registry' :
  uses cl registry cl' registry' → claimed cl' = claimed cl.
Proof. by intros []. Qed.

Lemma uses_holds cl registry cl' registry' :
  uses cl registry cl' registry' → holds registry cl → holds registry' cl'.
Proof. intros [c r|id r|id state new r Hm] Hh; [done|..]; cbn; rewrite lookup_insert_eq; eauto. Qed.

Lemma omap_claimed_swap l cl cl' r :
  claimed cl' = claimed cl → omap claimed (l ++ cl' :: r) = omap claimed (l ++ cl :: r).
Proof. intros Hc. rewrite !omap_app. cbn. by rewrite Hc. Qed.

Lemma omap_apart {A B} (f : A → option B) l x r y b :
  NoDup (omap f (l ++ x :: r)) → f x = Some b → y ∈ l ++ r → f y ≠ Some b.
Proof.
  rewrite omap_app. cbn. intros Hnd Hx Hin Hy. rewrite Hx in Hnd. cbn in Hnd.
  apply NoDup_app in Hnd as (_ & Hl & Hr). apply NoDup_cons in Hr as [Hr _].
  assert (Hb : b ∈ omap f l ∨ b ∈ omap f r).
  { apply elem_of_app in Hin as [Hin|Hin]; [left|right]; apply list_elem_of_omap; eauto. }
  destruct Hb as [Hb|Hb]; [|done]. apply (Hl _ Hb). by left.
Qed.

(** One thread uses the registry under its claim. *)
Lemma owned_uses registry given l p r lc cl rc cl' registry' p' :
  owned registry given (l ++ p :: r) (lc ++ cl :: rc) → length lc = length l →
  uses cl registry cl' registry' → careful cl' p' →
  owned registry' given (l ++ p' :: r) (lc ++ cl' :: rc).
Proof.
  intros [Hcare Hh Hnd Hg Hl] Hlen Hu Hp'.
  apply Forall2_app_inv in Hcare as [Hcl Hcr]; [|done].
  inversion Hcr as [|? ? ? ? Hp Hcr']; subst.
  apply Forall_app in Hh as [Hhl Hhr]. apply Forall_cons in Hhr as [Hhc Hhr].
  assert (Hother : ∀ other, other ∈ lc ++ rc → holds registry other → holds registry' other).
  { intros other Hin. eapply uses_others; [done|]. intros id Hid.
    by eapply omap_apart. }
  pose proof (uses_claimed _ _ _ _ Hu) as Hc.
  split.
  - apply Forall2_app; [done|]. by constructor.
  - apply Forall_app. split; [|constructor; [by eapply uses_holds|]].
    + apply Forall_forall. intros o Ho. apply Hother; [set_solver|]. by eapply Forall_forall in Hhl.
    + apply Forall_forall. intros o Ho. apply Hother; [set_solver|]. by eapply Forall_forall in Hhr.
  - by rewrite (omap_claimed_swap _ cl).
  - intros id Hid. rewrite (omap_claimed_swap _ cl) in Hid by done. apply Hg.
    destruct Hid as [Hid|Hid]; [|by right].
    destruct Hu as [c rg|i rg|i st new rg Hm]; [by left|..];
      (destruct (decide (i = id)) as [->|Hne];
       [right; rewrite omap_app; cbn; set_solver|left; by rewrite lookup_insert_ne in Hid]).
  - intros id record Hr Hlive.
    destruct Hu as [c rg|i rg|i st new rg Hm]; [by apply Hl|..];
      (apply lookup_insert_Some in Hr as [[<- <-]|[Hne Hr]]; [set_solver|];
       specialize (Hl _ _ Hr Hlive); apply elem_of_app in Hl as [Hl|[Hl|Hl]%elem_of_cons];
       [set_solver|congruence|set_solver]).
Qed.

(** A thread's claim is replaced, one thread more runs. *)
Lemma owned_spawn registry given l p r lc id st rc p' q :
  owned registry given (l ++ p :: r) (lc ++ Owns id st :: rc) → length lc = length l →
  careful Free p' → careful (Owns id st) q →
  owned registry given (l ++ p' :: r ++ [q]) (lc ++ Free :: rc ++ [Owns id st]).
Proof.
  intros [Hcare Hh Hnd Hg Hl] Hlen Hp' Hq.
  apply Forall2_app_inv in Hcare as [Hcl Hcr]; [|done].
  inversion Hcr as [|? ? ? ? Hp Hcr']; subst.
  assert (Hperm : lc ++ Owns id st :: rc ≡ₚ lc ++ rc ++ [Owns id st]).
  { apply Permutation_app_head. by rewrite (Permutation_app_comm rc). }
  assert (Homap : omap claimed (lc ++ Free :: rc ++ [Owns id st])
                  ≡ₚ omap claimed (lc ++ Owns id st :: rc)).
  { rewrite !omap_app. cbn. rewrite omap_app. cbn. apply Permutation_app_head.
    by rewrite (Permutation_app_comm (omap claimed rc)). }
  split.
  - apply Forall2_app; [done|]. constructor; [done|]. apply Forall2_app; [done|]. by constructor.
  - rewrite Hperm in Hh. repeat rewrite ?Forall_app, ?Forall_cons in *. cbn in *. tauto.
  - by rewrite Homap.
  - intros i Hi. apply Hg. by rewrite Homap in Hi.
  - intros i record Hr Hlive. specialize (Hl _ _ Hr Hlive). rewrite Hperm in Hl. set_solver.
Qed.

(** A thread reserves an identity. *)
Lemma owned_reserve registry given l p r lc rc p' id :
  owned registry given (l ++ p :: r) (lc ++ Free :: rc) → length lc = length l →
  careful (Reserved id) p' → id ∉ given →
  owned registry ({[id]} ∪ given) (l ++ p' :: r) (lc ++ Reserved id :: rc).
Proof.
  intros [Hcare Hh Hnd Hg Hl] Hlen Hp' Hid.
  apply Forall2_app_inv in Hcare as [Hcl Hcr]; [|done].
  inversion Hcr as [|? ? ? ? Hp Hcr']; subst.
  assert (Homap : omap claimed (lc ++ Reserved id :: rc) ≡ₚ id :: omap claimed (lc ++ Free :: rc)).
  { rewrite !omap_app. cbn. by rewrite Permutation_middle. }
  split.
  - apply Forall2_app; [done|]. by constructor.
  - rewrite !Forall_app, !Forall_cons in *. split; [tauto|]. split; [|tauto]. cbn.
    destruct (registry !! id) as [record|] eqn:E; [|done]. exfalso. apply Hid, Hg. left. eauto.
  - rewrite Homap. apply NoDup_cons. split; [|done]. intros Hin. apply Hid, Hg. by right.
  - intros i. rewrite Homap, elem_of_cons. intros [Hi|[->|Hi]]; [|set_solver|].
    + apply elem_of_union_r, Hg. by left.
    + apply elem_of_union_r, Hg. by right.
  - intros i record Hr Hlive. specialize (Hl _ _ Hr Hlive). set_solver.
Qed.

Lemma owned_command registry given threads claims request :
  owned registry given threads claims →
  owned registry given (threads ++ [command request]) (claims ++ [Free]).
Proof.
  intros [Hcare Hh Hnd Hg Hl].
  assert (Ho : omap claimed (claims ++ [Free]) = omap claimed claims)
    by (rewrite omap_app; cbn; apply app_nil_r).
  split; rewrite ?Ho; try done.
  - apply Forall2_app; [done|]. constructor; [apply command_careful|done].
  - apply Forall_app. by repeat constructor.
  - intros id record Hr Hlive. apply elem_of_app. left. by apply Hl.
Qed.

(** A claim does not depend on what the engine has left to do. *)
Lemma owned_proceeds registry given l X (c c' : Download.Download.engine_call N X) k r claims :
  owned registry given (l ++ Vis (Engine c) k :: r) claims →
  owned registry given (l ++ Vis (Engine c') k :: r) claims.
Proof.
  intros [Hcare Hh Hnd Hg Hl]. split; try done.
  apply Forall2_app_inv_r in Hcare as (lc & rest & Hcl & Hcr & ->).
  apply Forall2_cons_inv_r in Hcr as (cl & rc & Hc & Hcr & ->).
  apply Forall2_app; [done|]. by constructor.
Qed.

Lemma answer_poisoned {X} (c : dcall X) registry given x registry' given' spawned :
  answer c registry true given x registry' given' spawned → registry' = registry.
Proof. destruct c; cbn; naive_solver. Qed.

Lemma sound_call registry given l X (c : dcall X) k r x registry' given' spawned :
  answer c registry false given x registry' given' spawned →
  sound (MkSystem registry false given (l ++ Vis c k :: r)) →
  evolves registry registry' ∧
  ∃ claims, owned registry' given' (l ++ k x :: r ++ spawned) claims.
Proof.
  intros Ha [_ Hown]. destruct (Hown eq_refl) as [claims How]. cbn in How. clear Hown.
  pose proof (ow_careful _ _ _ _ How) as Hcare.
  apply Forall2_app_inv_r in Hcare as (lc & claims' & Hcl & Hcr & ->).
  apply Forall2_cons_inv_r in Hcr as (cl & rc & Hc & Hcr & ->).
  pose proof (Forall2_length _ _ _ Hcl) as Hlen.
  assert (Hquiet : ∀ cl', careful cl' (k x) → cl' = cl → registry' = registry → given' = given →
    spawned = [] → evolves registry registry' ∧
    ∃ claims, owned registry' given' (l ++ k x :: r ++ spawned) claims).
  { intros cl' Hcare -> -> -> ->. split; [constructor|]. rewrite app_nil_r.
    eexists. by eapply (owned_uses _ _ _ _ _ _ cl), Hcare; [..|constructor]. }
  destruct c as [|Y f|task| |mode|Y e|p| |]; cbn [answer] in Ha; cbn [careful careful_call] in Hc; try done.
  - destruct Ha as (-> & -> & Hx). destruct Hc as [Hnone Hsome].
    destruct x as [bytes|]; [|by eapply Hquiet].
    destruct Hx as (_ & id & Hid & Hfresh & ->). destruct (Hsome _ _ Hid) as [-> Hcare].
    split; [constructor|]. rewrite app_nil_r. eexists. by eapply owned_reserve.
  - destruct Ha as (-> & -> & -> & ->).
    assert (Hh : holds registry cl).
    { pose proof (ow_holds _ _ _ _ How) as Hh. apply Forall_app in Hh as [_ Hh].
      by apply Forall_cons in Hh as [? _]. }
    destruct (Hc registry Hh) as (cl' & Hu & Hcare).
    split; [by eapply uses_evolves|]. rewrite app_nil_r. eexists. by eapply owned_uses.
  - destruct Ha as (-> & -> & ->), Hc as [-> Hcare]. split; [constructor|].
    destruct x. eexists. eapply owned_spawn; [done..|]. apply transfer_careful.
  - destruct Ha as (-> & -> & ->). by eapply Hquiet.
  - destruct Ha as (-> & -> & ->). by eapply Hquiet.
  - destruct Ha as (-> & -> & ->). by eapply Hquiet.
  - destruct Ha as (-> & -> & ->). by eapply Hquiet.
Qed.

Lemma sound_step s s' : step s s' → sound s →
  sound s' ∧ evolves (sy_registry s) (sy_registry s').
Proof.
  intros Hstep Hs. destruct Hstep as [registry poisoned given threads request
    |registry poisoned given l X c k r x registry' given' spawned Ha
    |registry poisoned given l X c c' k r|registry poisoned given threads].
  - split; [|constructor]. destruct Hs as [Hw Ho]. split; [done|]. intros Hp.
    destruct (Ho Hp) as [claims How]. eexists. by apply owned_command.
  - destruct poisoned.
    + pose proof (answer_poisoned _ _ _ _ _ _ _ Ha) as ->. split; [|constructor].
      split; [apply Hs|done].
    + destruct (sound_call _ _ _ _ _ _ _ _ _ _ _ Ha Hs) as [He Ho].
      split; [|done]. split; [|done]. eapply evolves_well_formed; [done|apply Hs].
  - split; [|constructor]. destruct Hs as [Hw Ho]. split; [done|]. intros Hp.
    destruct (Ho Hp) as [claims How]. exists claims. by eapply owned_proceeds.
  - split; [|constructor]. split; [apply Hs|done].
Qed.

Lemma sound_reachable s : rtc step started s → sound s.
Proof.
  intros Hr. assert (Hstart : sound started).
  { split; [intros id record; cbn; by rewrite lookup_empty|]. intros _. exists []. split; cbn.
    - constructor.
    - constructor.
    - constructor.
    - intros id [Hid|Hid]; [rewrite lookup_empty in Hid; by destruct Hid|set_solver].
    - intros id record; by rewrite lookup_empty. }
  revert Hstart. induction Hr as [|s1 s2 s3 Hstep _ IH]; intros Hstart; [done|].
  apply IH. by eapply sound_step.
Qed.
End lifecycle.

(** ** One task on its machine

    The task of one download among others: they may change the registry, but not its record. *)
Section task.
Import Download.Download.
Context {Url Mime : Type} {N : Type → Type} {D J : Type}.
Context `{backend : Http.Http.TransferProtocol Url Mime N, !UrlText Url, !UrlParse Url}.
Context `{Retry.HttpDate, EqDecision Url}.
Context `{Checksum, Digest, Os, Completion.Completion.ServerDigests} `{Writer.Writer.DurableDataLaws D}
  `{!Writer.Writer.DurableJournal J} `{!Writer.Writer.DurableJournalLaws J}.
Context (windows : bool) (policy : Retry.RetryPolicy) (reprobe : Retry.ReprobePolicy).
Notation dcall := (daemon_call Url (announced Url Mime N)).
Notation site := (site Url Mime D J).
Context (id : DownloadId).

Record place := MkPlace { pl_registry : Registry; pl_site : site }.

Definition place_does {X} (c : dcall X) (w : place) : X → place → Prop :=
  match c in daemon_call _ _ X return X → place → Prop with
  | Locked f => λ x w', ∃ registry, registry !! id = pl_registry w !! id ∧
      (x = None ∧ w' = MkPlace registry (pl_site w) ∨
       x = Some (fst (f registry)) ∧ w' = MkPlace (snd (f registry)) (pl_site w))
  | Engine c => λ x w', pl_registry w' = pl_registry w ∧ does c (pl_site w) x (pl_site w')
  | FileLength p => λ x w', w' = w ∧
      ∀ n, x = Some n → ∃ content,
        StorageSink.StorageSink.dk_files (st_disk (pl_site w)) p = Some content ∧ n = zlen content
  | Panicked | StillDownloading => λ _ _, False
  | _ => λ _ w', w' = w
  end.
#[export] Instance place_world : World dcall place := @place_does.

Definition entry (w : place) : option DownloadRecord := pl_registry w !! id.
Definition not_completed (w : place) : Prop :=
  ∀ record, entry w = Some record → dr_state record ≠ Completed.

(** What [Completed] says of a task that was given [layout]. *)
Definition delivered (layout : StorageLayout) (record : DownloadRecord) (w : site) : Prop :=
  ∃ first final, Said (Ok first) ∈ st_log w ∧ final = path_of layout first ∧ final ∈ st_free w ∧
    ∀ total, Remote.Remote.ro_total_length first = Some total →
    ∃ content outcome (j : J) seq,
      zlen content = total ∧
      Completion.Completion.judged (Remote.Remote.ro_digest first) content outcome ∧
      StorageSink.StorageSink.dk_journal (st_disk w) = Some j ∧
      StorageSink.StorageSink.seal seq content
        ∈ take (Writer.Writer.journal_synced j) (Writer.Writer.journal_records j) ∧
      (final ≠ StorageSink.StorageSink.journal_path (journal_dir layout) (id_of first) →
       StorageSink.StorageSink.dk_files (st_disk w) final = Some content ∧
       ∀ n, dr_total record = Some n → n = total ∧ dr_covered record = total).

Lemma engine_wp {A} (p : prog (engine_call (announced Url Mime N)) A) Q S w :
  wp p Q S (pl_site w) →
  wp (on_engine p) (λ a w', pl_registry w' = pl_registry w ∧ Q a (pl_site w'))
    (λ w', pl_registry w' = pl_registry w) w.
Proof.
  intros Hp. destruct w as [registry s]. eapply prog_mono.
  - apply (translate_wp (E := engine_call (announced Url Mime N)) (λ _, Engine) (λ s, MkPlace registry s));
      [|exact Hp].
    intros X e s1 x [registry' s'] [Hr Hd]. cbn in Hr. subst registry'. by exists s'.
  - by intros a w' (s' & -> & HQ) _.
  - by intros w' (s' & -> & _).
Qed.

Lemma update_wp state covered total error (Q : unit → place → Prop) (S : place → Prop) w :
  S w →
  (∀ registry, registry !! id = pl_registry w !! id → S (MkPlace registry (pl_site w)) ∧
     Q tt (MkPlace registry (pl_site w))) →
  (∀ registry old, pl_registry w !! id = Some old →
     registry !! id = Some (MkRecord state covered total error) →
     S (MkPlace registry (pl_site w)) ∧ Q tt (MkPlace registry (pl_site w))) →
  wp (update_state id state covered total error) Q S w.
Proof.
  intros HS Hno Hyes. unfold update_state, registering, ask. split; [done|].
  intros x w' (registry & Hr & [[-> ->]|[-> ->]]).
  - by apply prog_ret; apply Hno.
  - cbn [bind]. unfold update_record. cbn [snd].
    destruct (registry !! id) as [old|] eqn:E.
    + destruct (Hyes (<[id:=MkRecord state covered total error]> registry) old) as [? ?];
        [done|apply lookup_insert_eq|by apply prog_ret].
    + destruct (Hno registry) as [? ?]; [by rewrite E|by apply prog_ret].
Qed.

Definition honest (layout : StorageLayout) (w : place) : Prop :=
  ∀ record, entry w = Some record → dr_state record = Completed →
  delivered layout record (pl_site w).

Lemma not_completed_honest layout w : not_completed w → honest layout w.
Proof. intros Hn record Hr Hc. by destruct (Hn record Hr). Qed.

Lemma not_completed_eq w w' : pl_registry w' !! id = pl_registry w !! id →
  not_completed w → not_completed w'.
Proof. unfold not_completed, entry. by intros ->. Qed.

Lemma update_honest layout state covered total error w :
  state ≠ Completed → not_completed w →
  wp (update_state id state covered total error) (λ _ w', not_completed w' ∧ pl_site w' = pl_site w)
    (honest layout) w.
Proof.
  intros Hs Hn. apply update_wp; [by apply not_completed_honest|..].
  - intros registry Hr. assert (not_completed (MkPlace registry (pl_site w)))
      by by eapply not_completed_eq. split; [by apply not_completed_honest|done].
  - intros registry old _ Hr. assert (not_completed (MkPlace registry (pl_site w))).
    { intros record. unfold entry. cbn. rewrite Hr. by intros [= <-]. }
    split; [by apply not_completed_honest|done].
Qed.

Lemma transfer_wp task w :
  tr_id task = id → 0 ≤ Retry.max_retries policy < u32_max →
  st_log (pl_site w) = [] → st_sleeps (pl_site w) = 0 → not_completed w →
  wp (transfer (backend := announcing backend) windows policy reprobe task)
    (λ _, honest (tr_layout task)) (honest (tr_layout task)) w.
Proof.
  intros Hid Hmax Hlog Hsleeps Hn. unfold transfer. rewrite Hid.
  apply prog_bind. eapply prog_mono; [by apply update_honest| |done].
  intros [] w1 [Hn1 Hs1] _. rewrite <- Hs1 in Hlog, Hsleeps. clear Hn Hs1 w.
  apply prog_bind, prog_call; [by apply not_completed_honest|]. intros built w' ->.
  split; [by apply not_completed_honest|].
  assert (Hfail : ∀ w kind, not_completed w →
    wp (update_state id Failed 0 None (Some kind)) (λ _, honest (tr_layout task))
      (honest (tr_layout task)) w).
  { intros w kind Hw. eapply prog_mono; [by apply update_honest|by intros|done]. }
  destruct built; [|by apply Hfail].
  apply prog_bind. eapply prog_mono; [by eapply engine_wp, (download_wp windows policy reprobe (tr_layout task))| |].
  2: { intros w2 Hr. apply not_completed_honest. by eapply not_completed_eq; [rewrite Hr|]. }
  intros [[final|error]|] w2 [Hr Hended] Hr'; cbn in Hended; [|by apply Hfail; eapply not_completed_eq; [rewrite Hr|]|done].
  assert (Hn2 : not_completed w2) by (eapply not_completed_eq; [by rewrite Hr|done]).
  destruct Hended as (first & Hsaid & Hfree & Hpath & Hfin).
  apply prog_bind, prog_call; [by apply not_completed_honest|]. intros length w' [-> Hlen].
  split; [by apply not_completed_honest|].
  apply update_wp; [by apply not_completed_honest|..].
  - intros registry Hreg. assert (not_completed (MkPlace registry (pl_site w2)))
      by by eapply not_completed_eq. split; by apply not_completed_honest.
  - intros registry old _ Hreg. assert (Hh : honest (tr_layout task) (MkPlace registry (pl_site w2))).
    { intros record. unfold entry. cbn. rewrite Hreg. intros [= <-] _.
      exists first, final. do 3 (split; [done|]). intros total Ht.
      destruct (Hfin total Ht) as (content & outcome & j & seq & Hf & Hl & Hj & Hd & Hs).
      exists content, outcome, j, seq. do 4 (split; [done|]). intros Hne.
      specialize (Hf Hne). split; [done|]. cbn. intros n ->.
      destruct (Hlen n eq_refl) as (content' & Hc & ->). rewrite Hf in Hc.
      injection Hc as <-. by rewrite Hl. }
    by split.
Qed.
End task.

(** ** Properties *)

Section properties.
Context {V : Type} `{Json V, Serde V HelloParams, Serde V AddParams, Serde V IdParams,
  Serde V VersionParams, Serde V HelloResult, Serde V StateResult, Serde V DownloadView,
  Serde V SystemStatus, !Serde V (RequestEnvelope V), !Serde V (SuccessEnvelope V),
  !Serde V ErrorEnvelope}.
Context (pkg_version : str).

(** C29: A connection serves a client that greeted it, and no one else.  Whatever arrives, and wherever
    the connection is stopped: nothing was dispatched and nothing written, or the first frame was
    a hello with this daemon's token and protocol version, every later frame whose command was
    dispatched was, in order, a typed command of that version and never a hello, and what was
    written is a prefix of the replies to exactly these frames; it ends with an error only.  A
    client that greets and then sends commands gets the reply to each, until it closes. *)
Theorem connections_serve_the_greeted token : length (token_bytes token) = 32%nat →
  (∀ fuel stream w o,
     exec (serve_connection pkg_version fuel token) (MkConn (MkWire stream []) []) w o →
     served pkg_version token stream w ∧ ∀ r, o = Some r → is_ok r = false) ∧
  (∀ hello id ps ds, greets token hello id → zlen hello ≤ MAX_FRAME_BYTES →
     is_ok (encode_response id (HelloResponse
       (MkHelloResult PROTOCOL_VERSION pkg_version [lit "h1-segments"]))) = true →
     Forall2 answerable ps ds →
     exec (serve_connection pkg_version (length ps + 2) token)
       (MkConn (MkWire (mjoin (framed <$> hello :: ps)) []) [])
       (MkConn (MkWire [] (hello_reply pkg_version id ++ mjoin (reply <$> zip ps ds))) ds)
       (Some (Err stream_ended))).
Proof.
  intros Htoken. split; [|by apply connection_exec].
  intros fuel stream w o Hx.
  assert (Hw : waiting pkg_version token stream (Session_new token) (MkConn (MkWire stream []) []))
    by by split.
  pose proof (serve_loop_wp pkg_version token Htoken fuel stream _ _ Hw) as Hwp.
  eapply prog_sound in Hx;
    [|eapply prog_mono; [exact Hwp|intros r w' Hr Hs; exact (conj Hs Hr)|done]].
  destruct o as [r|]; [destruct Hx; split; [done|]; by intros ? [= <-]|done].
Qed.
End properties.

Section lifecycle_property.
Context {Url Mime : Type} {N : Type → Type}.
Context `{backend : Http.Http.TransferProtocol Url Mime N, !Download.Download.UrlText Url, !UrlParse Url}.
Context `{Retry.HttpDate, EqDecision Url, Os, Digest, Completion.Completion.ServerDigests}.
Context (windows : bool) (policy : Retry.RetryPolicy) (reprobe : Retry.ReprobePolicy).
Context (pkg_version : str) (config : TransferConfig).

(** C30: The registry is well formed and every download goes one way (I-12).  However the commands of
    any clients and the tasks they spawned interleave: every record's counts and error fit its
    state, one of [Submitted], [Probing], [Completed] and [Failed]; as long as the lock is not
    poisoned, a download that is not finished has a thread that still runs, whatever became of
    its client; and one step enters one new download as [Submitted], or moves one download from
    [Submitted] to [Probing] or from there to an end it never leaves, or changes nothing. *)
Theorem registry_lifecycle (s : system) :
  rtc (step (Mime := Mime) windows policy reprobe pkg_version config) started s →
  (∀ id record, sy_registry s !! id = Some record → well_formed record) ∧
  (sy_poisoned s = false → ∀ id record,
     sy_registry s !! id = Some record → terminal record = false →
     ∃ thread, thread ∈ sy_threads s ∧ ∀ u, thread ≠ Ret u) ∧
  (∀ s', step (Mime := Mime) windows policy reprobe pkg_version config s s' →
     evolves (sy_registry s) (sy_registry s')).
Proof.
  intros Hr. pose proof (sound_reachable _ _ _ _ _ _ Hr) as Hs.
  split_and!; [apply Hs| |intros s' Hstep; by eapply sound_step].
  intros Hp id record Hid Hlive. destruct Hs as [_ Hs], (Hs Hp) as [claims How].
  pose proof (ow_live _ _ _ _ How _ _ Hid Hlive) as Hin.
  apply list_elem_of_lookup in Hin as [i Hi].
  destruct (Forall2_lookup_l _ _ _ _ _ (ow_careful _ _ _ _ How) Hi) as (p & Hpi & Hc).
  exists p. split; [by eapply list_elem_of_lookup_2|]. intros u ->. cbn in Hc.
  unfold terminal in Hlive. by destruct (dr_state record).
Qed.
End lifecycle_property.

Section task_property.
Import Download.Download.
Context {Url Mime : Type} {N : Type → Type} {D J : Type}.
Context `{backend : Http.Http.TransferProtocol Url Mime N, !UrlText Url, !UrlParse Url}.
Context `{Retry.HttpDate, EqDecision Url}.
Context `{Checksum, Digest, Os, Completion.Completion.ServerDigests} `{Writer.Writer.DurableDataLaws D}
  `{!Writer.Writer.DurableJournal J} `{!Writer.Writer.DurableJournalLaws J}.
Context (windows : bool) (policy : Retry.RetryPolicy) (reprobe : Retry.ReprobePolicy).

(** [Completed] means verified (I-4).  Over any backend, any storage, and any other tasks of the
    daemon: wherever a task is stopped, if its download is recorded as [Completed] then the
    download found its object by a successful probe, and if that gave a length, the bytes under
    the final name have exactly that length, agree with the server's digest and are sealed in the
    journal, and the recorded counts are that length. *)
Theorem completed_means_verified (task : Transfer Url) (w0 w : place (D := D) (J := J)) o :
  0 ≤ Retry.max_retries policy < u32_max →
  st_log (pl_site w0) = [] → st_sleeps (pl_site w0) = 0 →
  not_completed (tr_id task) w0 →
  exec (H := place_world (tr_id task))
    (transfer (backend := announcing backend) windows policy reprobe task) w0 w o →
  ∀ record, pl_registry w !! tr_id task = Some record → dr_state record = Completed →
  delivered (tr_layout task) record (pl_site w).
Proof.
  intros Hmax Hl Hs Hn Hx.
  pose proof (transfer_wp windows policy reprobe (tr_id task) task w0 eq_refl Hmax Hl Hs Hn) as Hwp.
  pose proof (prog_sound _ _ _ _ _ _ Hwp Hx) as Hh. by destruct o.
Qed.
End task_property.

(** ** Runs *)

Module Example_connection.
Import Example_json.

Definition build : str := lit "0.1.0".
Definition asking : Request := SystemStatus_ (MkVersion 1).
Definition telling : Response := StatusResponse (MkStatus 1 build 3 0 0 0).
Definition payload_of (request : Request) : list byte :=
  drop 4 (frame_or_nothing (encode_request 7 request)).
Definition hello : list byte := payload_of greeting.
Definition ask_status : list byte := payload_of asking.

Lemma hello_greets : greets secret hello 7.
Proof. exists (MkHello 1 (lit "dp") (to_wire secret)). by split; [vm_compute; reflexivity|]. Qed.

Lemma status_answerable : answerable ask_status (asking, telling).
Proof.
  split; [exists 7; split; [vm_compute; reflexivity|done]|].
  by split; [vm_compute; discriminate|vm_compute; reflexivity].
Qed.

Lemma connections_serve_the_greeted_witness :
  length (token_bytes secret) = 32%nat ∧
  served build secret (mjoin (framed <$> [hello; ask_status]))
    (MkConn (MkWire [] (hello_reply build 7 ++ mjoin (reply <$> [(ask_status, (asking, telling))])))
       [(asking, telling)]).
Proof.
  split; [reflexivity|].
  destruct (connections_serve_the_greeted build secret eq_refl) as [Hsafe Hserved].
  refine (proj1 (Hsafe 3%nat _ _ _ (Hserved hello 7 [ask_status] [(asking, telling)] hello_greets _ _ _))).
  - vm_compute; discriminate.
  - vm_compute; reflexivity.
  - apply Forall2_cons; split; [exact status_answerable|apply Forall2_nil; exact I].
Defined.
End Example_connection.

Module Example_lifecycle.
Import Download.Download.Example_download Completion.Completion.Example_completion.
Import Concrete MemoryOs Writer.Writer.Example_run.

#[local] Existing Instances local_backend local_text no_dates local_site.
#[local] Instance any_url : UrlParse Z := {| url_parse _ := Some 0; url_scheme _ := lit "https" |}.
Definition settings : TransferConfig := MkConfig EmptyString EmptyString Http.Http.Negotiated.
Definition params : AddParams := MkAdd 1 (SecretString_new (lit "u")) None (MkAddOptions None).
Definition entropy : list byte := replicate 32 xab.
Definition the_id : DownloadId := MkDownloadId (take 32 (hex_text entropy)) I.

Notation stepping := (step (Mime := Z) (backend := local_backend) false Retry.default_policy
  Retry.default_reprobe (lit "0.1.0") settings).
Notation after_add threads := (MkSystem {[the_id := submitted]} false {[the_id]} threads).

Lemma fresh_entropy : fresh_download_id (Some entropy) = Some (Ok the_id).
Proof. vm_compute. reflexivity. Qed.

Lemma run_add : ∃ threads, rtc stepping started (after_add threads).
Proof.
  eexists. eapply rtc_l; [apply (step_command _ _ _ _ _ _ _ _ _ (DownloadAdd params))|].
  eapply rtc_l.
  { eapply (step_call _ _ _ _ _ _ _ _ [] _ FillRandom _ [] (Some entropy)).
    split; [done|]. split; [done|]. split; [done|]. exists the_id.
    split; [exact fresh_entropy|]. split; [set_solver|done]. }
  cbv beta iota zeta. rewrite fresh_entropy. eapply rtc_once.
  rewrite union_empty_r_L, <- insert_empty.
  eapply (step_call _ _ _ _ _ _ _ _ [] _ (Locked (λ registry, (tt, <[the_id := submitted]> registry)))
            _ [] (Some tt)).
  by split.
Qed.

Lemma registry_lifecycle_witness :
  ∃ threads, rtc stepping started (after_add threads) ∧ ∃ thread, thread ∈ threads ∧ ∀ u, thread ≠ Ret u.
Proof.
  destruct run_add as [threads Hrun]. exists threads. split; [exact Hrun|].
  destruct (registry_lifecycle _ _ _ _ _ _ Hrun) as (_ & Hlive & _).
  exact (Hlive eq_refl the_id submitted eq_refl eq_refl).
Defined.
End Example_lifecycle.

Module Example_task.
Import Download.Download.Example_download Completion.Completion.Example_completion.
Import Concrete MemoryOs Writer.Writer.Example_run Example_lifecycle.
Import Io.Io PartFile.PartFile Writer.Writer Completion.Completion Download.Download Effects.Effects Ipc.Ipc.
#[local] Existing Instances local_backend local_text no_dates local_site any_url.

Definition task : Transfer Z := MkTransfer the_id 0 here Http.Http.Negotiated.
Definition place_at registry s := MkPlace (Url := Z) (Mime := Z) (D := PartDisk) (J := JournalDisk) registry s.
Definition probing : DownloadRecord := MkRecord Probing 0 None None.
Definition completed : DownloadRecord := MkRecord Completed 8 (Some 8) None.
Definition p_start := place_at {[the_id := submitted]} (at_ d0 []).
Definition p_probing := place_at {[the_id := probing]} (at_ d0 []).
Definition p_downloaded := place_at {[the_id := probing]} (by_ d_end said).
Definition p_end := place_at {[the_id := completed]} (by_ d_end said).

#[local] Instance here_world :
  World (daemon_call Z (announced Z Z no_net)) (place (Url := Z) (Mime := Z)) :=
  place_world (D := PartDisk) (J := JournalDisk) the_id.

Lemma engine_exec {A} (p : prog (engine_call (announced Z Z no_net)) A) registry s s' a :
  exec p s s' (Some a) →
  exec (on_engine p) (place_at registry s) (place_at registry s') (Some a).
Proof.
  apply (translate_exec (E := engine_call (announced Z Z no_net)) (λ _, Engine) (λ s, place_at registry s)).
  by split.
Qed.

Lemma run_task :
  exec (transfer (backend := announcing local_backend) false Retry.default_policy
          Retry.default_reprobe task) p_start p_end (Some tt).
Proof.
  eapply (exec_call (Locked (update_record the_id probing)) _ (Some tt) _ p_probing).
  { exists {[the_id := submitted]}. split; [done|]. right. by split. }
  eapply (exec_call (NewBackend _) _ true _ p_probing); [done|]. cbv beta iota.
  eapply exec_then; [by apply engine_exec, run_download|].
  eapply (exec_call (FileLength _) _ (Some 8) _ p_downloaded).
  { split; [done|]. intros n [= <-]. exists full. by split. }
  eapply (exec_call (Locked (update_record the_id completed)) _ (Some tt) _ p_end).
  { exists {[the_id := probing]}. split; [done|]. right. by split. }
  apply exec_return.
Qed.

Lemma completed_means_verified_witness :
  pl_registry p_end !! the_id = Some completed ∧ delivered here completed (pl_site p_end).
Proof.
  split; [vm_compute; reflexivity|].
  refine (completed_means_verified false Retry.default_policy Retry.default_reprobe task p_start p_end
    (Some tt) _ eq_refl eq_refl _ run_task completed eq_refl eq_refl).
  - vm_compute; split; [discriminate|reflexivity].
  - intros record Hr. vm_compute in Hr. injection Hr as <-. discriminate.
Defined.
End Example_task.

End Daemon.
