(* ===== verification/Process.v ===== *)
(** * [downpour-daemon/src/main.rs]: the daemon's process

    Where the daemon keeps its state, the endpoint it binds, and the loop that gives every accepted
    stream the endpoint's token and the one registry; in the file system of [Transport]. *)

From S2P Require Import Prelude Io Str Effects PartFile StorageSink Http Ipc Transport Daemon.
From Stdlib Require Import String.
From stdpp Require Import list gmap strings.
#[local] Open Scope Z_scope.

Module Process.
#[local] Notation path := PartFile.PartFile.path.
#[local] Notation path_join := StorageSink.StorageSink.path_join.
Import Io.Io Str.Str Effects.Effects Ipc.Ipc Transport.Transport.
Import Daemon.Daemon.

(** The contexts of [run]'s errors. *)
Inductive RunError :=
| NoRuntimeRoot
| NoDataRoot
| CreatingRuntimeRoot (e : Error)
| CreatingJournalDir (e : Error)
| ResolvingTarget (e : Error)
| Binding (e : TransportError)
| Accepting (e : TransportError).

(** [DataDir] is the [directories] crate's; [ServeConnection] spawns [serve_connection] over the
    accepted stream; [StillAccepting] has no answer. *)
Inductive process_call : Type → Type :=
| BuildRuntime : process_call bool
| VarOs (name : string) : process_call (option path)
| DataDir : process_call (option path)
| CreateDirAll (p : path) : process_call (result unit Error)
| CurrentDir : process_call (result path Error)
| OnOs {X} (c : os_call X) : process_call X
| Accept : process_call (result unit Error)
| ServeConnection (token : SessionToken) (config : TransferConfig) : process_call unit
| Eprintln : process_call unit
| StillAccepting : process_call Empty_set.

Definition on_os {A} (p : prog os_call A) : prog process_call A := translate (λ _, OnOs) p.

Definition runtime_root : prog process_call (result path RunError) :=
  let! overridden := call (VarOs "DOWNPOUR_RUNTIME_ROOT") in
  match overridden with
  | Some p => Ret (Ok p)
  | None => let! found := call (VarOs "XDG_RUNTIME_DIR") in Ret (ok_or found NoRuntimeRoot)
  end.

Definition data_root : prog process_call (result path RunError) :=
  let! overridden := call (VarOs "DOWNPOUR_DATA_ROOT") in
  match overridden with
  | Some p => Ret (Ok p)
  | None => let! found := call DataDir in Ret (ok_or found NoDataRoot)
  end.

Definition with_context {A E} (f : E → RunError) (p : prog process_call (result A E))
    : prog process_call (result A RunError) :=
  let! r := p in Ret (map_err f r).

Fixpoint accept_loop (fuel : nat) (token : SessionToken) (config : TransferConfig)
    : prog process_call (result unit RunError) :=
  match fuel with
  | O => Vis StillAccepting (λ x, Empty_set_rect (λ _, prog process_call _) x)
  | S fuel =>
      let!? _ := with_context (λ e, Accepting (TrIo e)) (call Accept) in
      let! _ := call (ServeConnection token config) in
      accept_loop fuel token config
  end.

Definition transfer_config (target_dir data_root : path) : TransferConfig :=
  MkConfig target_dir (path_join data_root "journals") Http.Http.Negotiated.

Definition run (fuel : nat) : prog process_call (result unit RunError) :=
  let!? runtime_root := runtime_root in
  let!? data_root := data_root in
  let!? _ := with_context CreatingRuntimeRoot (call (CreateDirAll runtime_root)) in
  let!? _ := with_context CreatingJournalDir (call (CreateDirAll (path_join data_root "journals"))) in
  let!? target_dir := with_context ResolvingTarget (call CurrentDir) in
  let!? listener := with_context Binding (on_os (LocalListener_bind runtime_root)) in
  accept_loop fuel (ll_token listener) (transfer_config target_dir data_root).

(** The exit code of [main]. *)
Definition main (fuel : nat) : prog process_call Z :=
  let! built := call BuildRuntime in
  if negb built then let! _ := call Eprintln in Ret 1 else
  let! result := run fuel in
  match result with
  | Ok _ => Ret 0
  | Err _ => let! _ := call Eprintln in Ret 1
  end.

(** ** The process in its file system

    What making directories leaves is arbitrary; the connections remember what they were given. *)
Record proc := MkProc { pr_fs : fs; pr_served : list (SessionToken * TransferConfig) }.
Definition proc_does {X} (c : process_call X) (w : proc) : X → proc → Prop :=
  match c in process_call X return X → proc → Prop with
  | OnOs c => λ x w', ∃ f, does c (pr_fs w) x f ∧ w' = MkProc f (pr_served w)
  | CreateDirAll _ => λ _ w', ∃ f, w' = MkProc f (pr_served w)
  | ServeConnection token config => λ _ w', w' = MkProc (pr_fs w) (pr_served w ++ [(token, config)])
  | StillAccepting => λ _ _, False
  | _ => λ _ w', w' = w
  end.
#[export] Instance proc_world : World process_call proc := @proc_does.

(** Nobody is served before the endpoint is there; then everyone with the token on disk. *)
Definition serving (w : proc) : Prop :=
  pr_served w = [] ∨
  ∃ root w0 listener config,
    bound root w0 (pr_fs w) ∧ installed root w0 listener (pr_fs w) ∧
    Forall (λ served, served = (ll_token listener, config)) (pr_served w).

Lemma in_files_wp {A} (p : prog os_call A) Q S w :
  wp p Q S (pr_fs w) →
  wp (on_os p) (λ a w', ∃ f, w' = MkProc f (pr_served w) ∧ Q a f)
    (λ w', ∃ f, w' = MkProc f (pr_served w) ∧ S f) w.
Proof.
  destruct w as [f served]. apply (translate_wp _ (λ f, MkProc f served)).
  intros X e f1 x w' (f' & Hd & ->). by exists f'.
Qed.

Lemma bind_wp root w0 :
  wp (LocalListener_bind root)
    (λ r w, ∀ l, r = Ok l → bound root w0 w ∧ installed root w0 l w) (λ _, True) w0.
Proof.
  apply prog_complete. intros w [r|] Hx; [|done]. intros l ->.
  pose proof (thread_runs 0 _ _ _ _ [LocalListener_bind root] ltac:(cbn; lia) Hx) as Hrun.
  apply (runs_sound root w0 1) in Hrun.
  destruct (finished root w0 w _ 0 l Hrun eq_refl) as ((_ & Hb & _) & Hi & _). done.
Qed.

Lemma accept_loop_wp fuel root w0 listener config w :
  bound root w0 (pr_fs w) → installed root w0 listener (pr_fs w) →
  Forall (λ served, served = (ll_token listener, config)) (pr_served w) →
  wp (accept_loop fuel (ll_token listener) config) (λ r _, is_ok r = false) serving w.
Proof.
  revert w. induction fuel as [|fuel IH]; intros w Hb Hi Hs; cbn [accept_loop];
    (assert (Hw : serving w) by (right; by exists root, w0, listener, config)).
  { split; [done|]. intros x. destruct x. }
  apply prog_bind, prog_bind, prog_call; [done|]. intros [u|e] w' ->; (split; [done|]);
    (apply prog_ret; [done|]); [|by apply prog_ret].
  apply prog_bind, prog_call; [done|]. intros v w' ->.
  assert (Hs' : Forall (λ served, served = (ll_token listener, config))
    (pr_served w ++ [(ll_token listener, config)])) by (apply Forall_app; split; [done|by constructor]).
  split; [right; by exists root, w0, listener, config|]. by apply IH.
Qed.

(** A step of the start that serves nobody. *)
Definition starting {A} (p : prog process_call A) : Prop :=
  ∀ w, pr_served w = [] → wp p (λ _ w', pr_served w' = []) (λ w', pr_served w' = []) w.

Lemma starting_bind {A B} (p : prog process_call (result A RunError))
    (f : A → prog process_call (result B RunError)) w :
  starting p → pr_served w = [] →
  (∀ a w, pr_served w = [] → wp (f a) (λ r _, is_ok r = false) serving w) →
  wp (let!? x := p in f x) (λ r _, is_ok r = false) serving w.
Proof.
  intros Hp Hw Hf. apply prog_bind. eapply prog_mono; [by apply Hp| |intros w' ?; by left].
  intros [a|e] w' Hr _; [by apply Hf|]. apply prog_ret; [by left|done].
Qed.
Lemma starting_call {X} (c : process_call X) :
  (∀ w x w', pr_served w = [] → does c w x w' → pr_served w' = []) → starting (call c).
Proof. intros Hc w Hw. apply prog_call; [done|]. intros x w' Hd. split; by eapply Hc. Qed.
Lemma starting_context {A E} (f : E → RunError) (p : prog process_call (result A E)) :
  starting p → starting (with_context f p).
Proof.
  intros Hp w Hw. apply prog_bind. eapply prog_mono; [by apply Hp| |done].
  intros r w' Hr _. by apply prog_ret.
Qed.

Lemma process_wp fuel w : pr_served w = [] → wp (run fuel) (λ r _, is_ok r = false) serving w.
Proof.
  assert (Hquiet : ∀ X (c : process_call X), (∀ w x w', does c w x w' → w' = w) → starting (call c)).
  { intros X c Hc. apply starting_call. by intros w1 x w' Hw ->%Hc. }
  assert (Hdirs : ∀ p, starting (call (CreateDirAll p))).
  { intros p. apply starting_call. by intros w1 x w' Hw (f & ->). }
  assert (Hlook : ∀ name (c : process_call (option path)) e, (∀ w x w', does c w x w' → w' = w) →
    starting (let! overridden := call (VarOs name) in
      match overridden with
      | Some p => Ret (Ok p)
      | None => let! found := call c in Ret (ok_or found e)
      end : prog process_call (result path RunError))).
  { intros name c e Hc w1 Hw1. apply prog_bind, prog_call; [done|]. intros [p|] w' ->; (split; [done|]);
      [by apply prog_ret|]. apply prog_bind, prog_call; [done|]. intros x w' ->%Hc.
    split; [done|]. by apply prog_ret. }
  intros Hw. apply starting_bind; [by apply Hlook|done|]. clear w Hw. intros root w Hw.
  apply starting_bind; [by apply Hlook|done|]. clear w Hw. intros data w Hw.
  apply starting_bind; [by apply starting_context, Hdirs|done|]. clear w Hw. intros _ w Hw.
  apply starting_bind; [by apply starting_context, Hdirs|done|]. clear w Hw. intros _ w Hw.
  apply starting_bind; [by apply starting_context, Hquiet|done|]. clear w Hw. intros target w Hw.
  apply prog_bind, prog_bind. eapply prog_mono; [apply in_files_wp, bind_wp|..].
  2: { intros w' (f & -> & _). by left. }
  intros r w' (f & -> & Hf) _. apply prog_ret; [by left|]. destruct r as [listener|e]; cbn [map_err].
  - destruct (Hf _ eq_refl) as [Hb Hi]. eapply accept_loop_wp; [exact Hb|exact Hi|].
    cbn. by rewrite Hw.
  - apply prog_ret; [by left|done].
Qed.

(** The process serves whoever it accepts with the token that a client finds.  Wherever it is stopped,
    it has served nobody, or its endpoint is bound and its token is whole in the private token file,
    and every connection was given that token and the one configuration; and it ends with a
    failure only. *)
Theorem process_serves_the_installed_token fuel f w o :
  exec (main fuel) (MkProc f []) w o → serving w ∧ ∀ code, o = Some code → code = 1.
Proof.
  assert (Hwp : wp (main fuel) (λ code _, code = 1) serving (MkProc f [])).
  { assert (Hs : serving (MkProc f [])) by by left.
    apply prog_bind, prog_call; [done|]. intros [] w' ->; (split; [done|]); cbn [negb].
    - apply prog_bind. eapply prog_mono; [by apply process_wp| |done]. intros r w' Hr Hw.
      destruct r as [u|e]; [done|]. apply prog_bind, prog_call; [done|]. intros v w2 ->.
      split; [done|]. by apply prog_ret.
    - apply prog_bind, prog_call; [done|]. intros v w2 ->. split; [done|]. by apply prog_ret. }
  intros Hx. eapply prog_sound in Hx;
    [|eapply prog_mono; [exact Hwp|intros r w' Hr Hs; exact (conj Hs Hr)|done]].
  destruct o as [code|]; [|done]. destruct Hx as [Hw ->]. split; [done|]. by intros ? [= <-].
Qed.
End Process.
