(* ===== verification/Client.v ===== *)
(** * [downpour-cli/src/main.rs]: the command-line client

    [dp add]: finding the daemon, the numbered calls over one stream, submitting a download and
    watching it to its end, and the exit code. *)

From S2P Require Import Prelude Io Str Effects PartFile Ipc Transport Daemon.
From Stdlib Require Import String.
From stdpp Require Import list.
#[local] Open Scope Z_scope.

Module Client.
#[local] Notation path := PartFile.PartFile.path.
Import Io.Io Str.Str Effects.Effects Ipc.Ipc Transport.Transport.

(** ** Errors and calls *)

(** The causes the messages name. *)
Inductive GeneralCause := NoCurrentDir (e : Error) | UnrepresentableDir | Encoding (e : CodecError).
Inductive DaemonCause :=
| NoRuntimeRoot
| Discovering (e : TransportError)
| ReadingToken (e : TransportError)
| Connecting (e : TransportError)
| Sending (e : TransportError)
| Receiving (e : TransportError)
| Decoding (e : CodecError)
| WrongResponseId (found expected : Z)
| UnexpectedResponse.
Inductive ClientError :=
| General (cause : GeneralCause)
| Daemon (cause : DaemonCause)
| DownloadFailed (kind : str).

(** [ExitCode::FAILURE] is 1. *)
Definition exit_code (e : ClientError) : Z :=
  match e with General _ => 1 | Daemon _ => 3 | DownloadFailed _ => 4 end.

(** [BuildRuntime] and [Connect] are the runtime's and the socket's; printing to a closed standard
    output panics, which is a stop; [StillWaiting] has no answer. *)
Inductive client_call : Type → Type :=
| BuildRuntime : client_call bool
| CurrentDir : client_call (result path Error)
| VarOs (name : string) : client_call (option path)
| OnOs {X} (c : os_call X) : client_call X
| Connect (p : path) : client_call (result unit Error)
| OnStream {X} (c : stream_call X) : client_call X
| Sleep (ms : Z) : client_call unit
| Println (line : str) : client_call unit
| Eprintln : client_call unit
| StillWaiting : client_call Empty_set.

Inductive Command := Add (url : str) (output_dir : option path) (connections : option Z).

(** ** The client *)

Section client.
Context {V : Type} `{Json V, Serde V HelloParams, Serde V AddParams, Serde V IdParams,
  Serde V VersionParams, Serde V HelloResult, Serde V StateResult, Serde V DownloadView,
  Serde V SystemStatus, !Serde V (RequestEnvelope V), !Serde V (SuccessEnvelope V),
  !Serde V ErrorEnvelope}.
(** [CARGO_PKG_VERSION]. *)
Context (pkg_version : str).

Definition on_os {A} (p : prog os_call A) : prog client_call A := translate (λ _, OnOs) p.
Definition on_stream {A} (p : prog stream_call A) : prog client_call A := translate (λ _, OnStream) p.

Record IpcClient := MkClient { next_id : Z }.

Definition runtime_root : prog client_call (result path ClientError) :=
  let! overridden := call (VarOs "DOWNPOUR_RUNTIME_ROOT") in
  match overridden with
  | Some p => Ret (Ok p)
  | None =>
      let! found := call (VarOs "XDG_RUNTIME_DIR") in
      Ret (ok_or found (Daemon NoRuntimeRoot))
  end.

(** [LocalStream::connect]. *)
Definition stream_connect (paths : EndpointPaths) : prog client_call (result unit TransportError) :=
  let!? _ := on_os (native_name paths) in
  let! r := call (Connect (socket_path paths)) in
  Ret (map_err TrIo r).

Definition response_error (response : Response) : ClientError :=
  match response with
  | ErrorResponse error => DownloadFailed (ed_kind (re_data error))
  | _ => Daemon UnexpectedResponse
  end.

(** One call; the client is left with the next number. *)
Definition call_daemon (client : IpcClient) (request : Request) (expected : ResponseKind)
    : prog client_call (result Response ClientError * IpcClient) :=
  let id := next_id client in
  let client := MkClient (saturating_add64 id 1) in
  match encode_request id request with
  | Err e => Ret (Err (General (Encoding e)), client)
  | Ok frame =>
      let! sent := on_stream (send frame) in
      match sent with
      | Err e => Ret (Err (Daemon (Sending e)), client)
      | Ok _ =>
          let! received := on_stream receive in
          match received with
          | Err e => Ret (Err (Daemon (Receiving e)), client)
          | Ok payload =>
              match decode_response payload expected with
              | Err e => Ret (Err (Daemon (Decoding e)), client)
              | Ok (response_id, response) =>
                  if negb (response_id =? id)
                  then Ret (Err (Daemon (WrongResponseId response_id id)), client)
                  else Ret (Ok response, client)
              end
          end
      end
  end.

Definition hello (token : SecretString) : Request :=
  Hello (MkHello PROTOCOL_VERSION (lit "dp/" ++ pkg_version) token).

Definition on_error {A} (f : TransportError → DaemonCause) (p : prog client_call (result A TransportError))
    : prog client_call (result A ClientError) :=
  let! r := p in Ret (map_err (λ e, Daemon (f e)) r).

(** [IpcClient::connect]. *)
Definition connect : prog client_call (result IpcClient ClientError) :=
  let!? runtime_root := runtime_root in
  let!? paths := on_error Discovering (on_os (client_paths runtime_root)) in
  let!? token := on_error ReadingToken (on_os (read_client_token paths)) in
  let!? _ := on_error Connecting (stream_connect paths) in
  let! '(called, client) := call_daemon (MkClient 1) (hello token) KHello in
  match called with
  | Err e => Ret (Err e)
  | Ok (HelloResponse _) => Ret (Ok client)
  | Ok response => Ret (Err (response_error response))
  end.

(** [Path::to_str]. *)
Definition to_str (p : path) : option str := from_utf8 (String.list_byte_of_string p).

Definition get_request (id : DownloadId) : Request := DownloadGet (MkIdParams PROTOCOL_VERSION id).

(** The loop of [run]. *)
Fixpoint watch (fuel : nat) (client : IpcClient) (id : DownloadId)
    : prog client_call (result unit ClientError) :=
  match fuel with
  | O => Vis StillWaiting (λ x, Empty_set_rect (λ _, prog client_call _) x)
  | S fuel =>
      let! '(called, client) := call_daemon client (get_request id) KDownload in
      match called with
      | Err e => Ret (Err e)
      | Ok (DownloadResponse view) =>
          if bool_decide (dv_state view = Completed) then
            let! _ := call (Println (id_text id)) in Ret (Ok tt)
          else if bool_decide (dv_state view = Failed) then
            Ret (Err (DownloadFailed (default (lit "unknown") (dv_error_kind view))))
          else let! _ := call (Sleep 25) in watch fuel client id
      | Ok other => Ret (Err (response_error other))
      end
  end.

Definition add_request (url : str) (target : str) (connections : option Z) : Request :=
  DownloadAdd (MkAdd PROTOCOL_VERSION (SecretString_new url) (Some target) (MkAddOptions connections)).

Definition run (fuel : nat) (command : Command) : prog client_call (result unit ClientError) :=
  let '(Add url output_dir connections) := command in
  let!? output_dir :=
    match output_dir with
    | Some dir => Ret (Ok dir)
    | None => let! dir := call CurrentDir in Ret (map_err (λ e, General (NoCurrentDir e)) dir)
    end in
  match to_str output_dir with
  | None => Ret (Err (General UnrepresentableDir))
  | Some target =>
      let!? client := connect in
      let! '(called, client) := call_daemon client (add_request url target connections) KAdded in
      match called with
      | Err e => Ret (Err e)
      | Ok (Added added) => watch fuel client (sr_id added)
      | Ok response => Ret (Err (response_error response))
      end
  end.

(** [main] after the arguments are parsed: the exit code. *)
Definition main (fuel : nat) (command : Command) : prog client_call Z :=
  let! built := call BuildRuntime in
  if negb built then let! _ := call Eprintln in Ret 1 else
  let! result := run fuel command in
  match result with
  | Ok _ => Ret 0
  | Err error => let! _ := call Eprintln in Ret (exit_code error)
  end.

(** ** The conversation

    The protocol as the machine a client goes through: what it asks next, and where an answer takes
    it. *)

Inductive phase :=
| Greeting (token : SecretString)
| Adding
| Watching (id : DownloadId)
| Done (r : result DownloadId ClientError).

Section conversation.
Context (url target : str) (connections : option Z).

Definition asks (ph : phase) : option (Request * ResponseKind) :=
  match ph with
  | Greeting token => Some (hello token, KHello)
  | Adding => Some (add_request url target connections, KAdded)
  | Watching id => Some (get_request id, KDownload)
  | Done _ => None
  end.

Definition advance (ph : phase) (response : Response) : phase :=
  match ph, response with
  | Greeting _, HelloResponse _ => Adding
  | Adding, Added added => Watching (sr_id added)
  | Watching id, DownloadResponse view =>
      if bool_decide (dv_state view = Completed) then Done (Ok id)
      else if bool_decide (dv_state view = Failed)
      then Done (Err (DownloadFailed (default (lit "unknown") (dv_error_kind view))))
      else Watching id
  | _, _ => Done (Err (response_error response))
  end.

(** The number of the [n]-th call, from 0. *)
Definition call_id (n : nat) : Z := Z.min (Z.of_nat n + 1) u64_max.

Record exchange := MkExchange {
  ex_request : Request;
  ex_kind : ResponseKind;
  ex_frame : list byte;
  ex_payload : list byte;
  ex_response : Response;
}.

(** The exchanges so far, from the first call with [token], and the phase they lead to. *)
Inductive talk (token : SecretString) : list exchange → phase → Prop :=
| talk_start : talk token [] (Greeting token)
| talk_turn xs ph request kind frame payload response :
    talk token xs ph →
    asks ph = Some (request, kind) →
    encode_request (call_id (length xs)) request = Ok frame →
    decode_response payload kind = Ok (call_id (length xs), response) →
    zlen payload ≤ MAX_FRAME_BYTES →
    talk token (xs ++ [MkExchange request kind frame payload response]) (advance ph response).

Definition sent (xs : list exchange) : list byte := mjoin (ex_frame <$> xs).
Definition received (xs : list exchange) : list byte := mjoin ((framed ∘ ex_payload) <$> xs).

Lemma sent_snoc xs x : sent (xs ++ [x]) = sent xs ++ ex_frame x.
Proof. unfold sent. rewrite fmap_app, join_app. cbn. by rewrite app_nil_r. Qed.
Lemma received_snoc xs x : received (xs ++ [x]) = received xs ++ framed (ex_payload x).
Proof. unfold received. rewrite fmap_app, join_app. cbn. by rewrite app_nil_r. Qed.

(** ** The world: the stream to the daemon and the standard output *)

Record cli := MkCli { cl_wire : wire; cl_printed : list str }.
Definition cli_does {X} (c : client_call X) (w : cli) : X → cli → Prop :=
  match c in client_call X return X → cli → Prop with
  | OnStream c => λ x w', ∃ s, does c (cl_wire w) x s ∧ w' = MkCli s (cl_printed w)
  | Println line => λ _ w', w' = MkCli (cl_wire w) (cl_printed w ++ [line])
  | StillWaiting => λ _ _, False
  | _ => λ _ w', w' = w
  end.
#[export] Instance cli_world : World client_call cli := @cli_does.

(** What arrives on the stream, once there is one. *)
Context (stream : list byte).

(** Nothing is under way. *)
Definition exact (xs : list exchange) (w : cli) : Prop :=
  outbound (cl_wire w) = sent xs ∧ stream = received xs ++ inbound (cl_wire w).
Definition settled (token : SecretString) (xs : list exchange) (ph : phase) (client : IpcClient)
    (w : cli) : Prop :=
  talk token xs ph ∧ next_id client = call_id (length xs) ∧ exact xs w ∧ cl_printed w = [].

(** Wherever it is stopped, it has sent its finished calls and a part of the one the protocol asks
    for next; it has printed nothing, or the identity of the download that completed. *)
Definition anywhere (w : cli) : Prop :=
  ∃ token xs ph, talk token xs ph ∧ received xs `prefix_of` stream ∧
    (outbound (cl_wire w) = sent xs ∨
     ∃ request kind frame, asks ph = Some (request, kind) ∧
       encode_request (call_id (length xs)) request = Ok frame ∧
       ∃ n, outbound (cl_wire w) = sent xs ++ take n frame) ∧
    (cl_printed w = [] ∨ ∃ id, ph = Done (Ok id) ∧ cl_printed w = [id_text id]).

(** How it ends. *)
Definition concluded (r : result unit ClientError) (w : cli) : Prop :=
  match r with
  | Ok _ => ∃ token xs id,
      talk token xs (Done (Ok id)) ∧ exact xs w ∧ cl_printed w = [id_text id]
  | Err (DownloadFailed kind) => ∃ token xs,
      talk token xs (Done (Err (DownloadFailed kind))) ∧ exact xs w ∧ cl_printed w = []
  | Err _ => cl_printed w = []
  end.

Definition is_failed (e : ClientError) : bool :=
  match e with DownloadFailed _ => true | _ => false end.

Lemma settled_anywhere token xs ph client w : settled token xs ph client w → anywhere w.
Proof.
  intros (Ht & _ & [Ho Hi] & Hp). exists token, xs, ph. split; [done|]. split; [|by auto].
  rewrite Hi. by apply prefix_app_r.
Qed.

Lemma speak_wp {A} (p : prog stream_call A) Q S w :
  wp p Q S (cl_wire w) →
  wp (on_stream p) (λ a w', ∃ s, w' = MkCli s (cl_printed w) ∧ Q a s)
    (λ w', ∃ s, w' = MkCli s (cl_printed w) ∧ S s) w.
Proof.
  destruct w as [s out]. apply (translate_wp _ (λ s, MkCli s out)). intros X e s1 x w' (s' & Hd & ->).
  by exists s'.
Qed.

(** Calls that neither use the stream nor print. *)
Lemma silent_os {A} (p : prog os_call A) w : wp (on_os p) (λ _, eq w) (eq w) w.
Proof. induction p as [a|X e k IH]; [done|]. split; [done|]. intros x w' ->. apply IH. Qed.

Lemma silent_call {X} (c : client_call X) w :
  (∀ x w', does c w x w' → w' = w) → wp (call c) (λ _, eq w) (eq w) w.
Proof. intros Hc. apply prog_call; [done|]. by intros x w' ->%Hc. Qed.

Lemma silent_bind {A B} (p : prog client_call A) (f : A → prog client_call B) Q (S : cli → Prop) w :
  wp p (λ _, eq w) (eq w) w → S w → (∀ a, wp (f a) Q S w) → wp (Effects.bind p f) Q S w.
Proof.
  intros Hp HS Hf. apply prog_bind. eapply prog_mono; [exact Hp| |by intros ? <-].
  intros a w' <- _. apply Hf.
Qed.

Lemma call_id_next n : saturating_add64 (call_id n) 1 = call_id (S n).
Proof. unfold saturating_add64, call_id. lia. Qed.

(** One call: it takes the conversation one turn, or ends it with an error that is not the
    download's. *)
Lemma call_wp token xs ph client request kind w :
  settled token xs ph client w → asks ph = Some (request, kind) →
  wp (call_daemon client request kind)
    (λ '(r, client') w', match r with
       | Ok response => ∃ x, settled token (xs ++ [x]) (advance ph response) client' w'
       | Err e => is_failed e = false ∧ cl_printed w' = []
       end) anywhere w.
Proof.
  intros Hs Hasks. pose proof (settled_anywhere _ _ _ _ _ Hs) as Hany.
  destruct Hs as (Ht & Hid & [Ho Hi] & Hp). unfold call_daemon. rewrite Hid.
  destruct (encode_request _ request) as [frame|e] eqn:Ee; [|by apply prog_ret].
  assert (Hmid : ∀ s n, outbound s = sent xs ++ take n frame → anywhere (MkCli s (cl_printed w))).
  { intros s n Hout. exists token, xs, ph. split; [done|]. split; [rewrite Hi; by apply prefix_app_r|].
    split; [right|by left]. exists request, kind, frame. eauto. }
  apply prog_bind. eapply prog_mono; [apply speak_wp, send_wp|..].
  2: { intros w' (s & -> & _ & n & Hn). apply (Hmid _ n). by rewrite Hn, Ho. }
  intros r w1 (s1 & -> & Hin & Hout) (s1' & [= <-] & _ & n1 & Hn1). rewrite Ho in Hn1.
  destruct r as [u|e]; [|apply prog_ret; [by apply (Hmid _ n1)|done]]. rewrite Ho in Hout.
  assert (Hsent : ∀ s, outbound s = sent xs ++ frame → anywhere (MkCli s (cl_printed w))).
  { intros s Hos. apply (Hmid _ (length frame)). by rewrite firstn_all. }
  apply prog_bind. eapply prog_mono; [apply speak_wp, (receive_wp (λ s, outbound s = sent xs ++ frame))|..].
  { intros rest. done. }
  2: { intros w' (s & -> & Hos). by apply Hsent. }
  intros r w2 (s2 & -> & Hout2 & Hread) _. cbn [cl_wire cl_printed] in *. rewrite Hout in Hout2.
  pose proof (Hsent _ Hout2) as Hany2.
  destruct r as [payload|e]; [|by apply prog_ret]. destruct Hread as [Hmax Hread].
  destruct (decode_response payload kind) as [[response_id response]|e] eqn:Ed; [|by apply prog_ret].
  destruct (Z.eqb_spec response_id (call_id (length xs))) as [->|]; [|by apply prog_ret].
  apply prog_ret; [done|]. exists (MkExchange request kind frame payload response).
  split; [by constructor|]. split; [by rewrite length_app, Nat.add_1_r, <- call_id_next|].
  split; [|done]. split; [by rewrite sent_snoc|]. rewrite received_snoc, <- app_assoc.
  cbn [ex_payload cl_wire]. by rewrite Hi, <- Hread, Hin.
Qed.

(** An answer that ends the conversation in an error. *)
Lemma refused token xs client w response :
  settled token xs (Done (Err (response_error response))) client w →
  concluded (Err (response_error response)) w.
Proof.
  intros (Ht & _ & Hx & Hp). unfold response_error in *. destruct response; try done.
  by exists token, xs.
Qed.

Lemma watch_wp fuel token xs client id w :
  settled token xs (Watching id) client w → wp (watch fuel client id) concluded anywhere w.
Proof.
  revert xs client w. induction fuel as [|fuel IH]; intros xs client w Hs; cbn [watch].
  { split; [by eapply settled_anywhere|]. intros x. destruct x. }
  apply prog_bind. eapply prog_mono; [by apply (call_wp _ _ _ _ _ _ _ Hs)| |done].
  intros [r client'] w' Hr Hany. destruct r as [response|e].
  2: { apply prog_ret; [done|]. destruct Hr as [He Hp]. by destruct e. }
  destruct Hr as [x Hs']. cbn [advance] in Hs'.
  destruct response as [r|r|view|r|r|r]; try (apply prog_ret; [done|]; by eapply refused).
  destruct (bool_decide (dv_state view = Completed)).
  - destruct Hs' as (Ht & Hid & Hx & Hp).
    assert (Hend : concluded (Ok tt) (MkCli (cl_wire w') (cl_printed w' ++ [id_text id]))).
    { exists token, (xs ++ [x]), id. rewrite Hp. by repeat split; try apply Hx. }
    apply prog_bind, prog_call; [done|]. intros u w2 ->. split.
    + exists token, (xs ++ [x]), (Done (Ok id)). destruct Hx as [Ho Hi]. split; [done|].
      split; [rewrite Hi; by apply prefix_app_r|]. split; [by left|]. right. exists id.
      cbn. by rewrite Hp.
    + apply prog_ret; [|done]. exists token, (xs ++ [x]), (Done (Ok id)). destruct Hx as [Ho Hi].
      split; [done|]. split; [rewrite Hi; by apply prefix_app_r|]. split; [by left|]. right.
      exists id. cbn. by rewrite Hp.
  - destruct (bool_decide (dv_state view = Failed)).
    + apply prog_ret; [done|]. destruct Hs' as (Ht & Hid & Hx & Hp). by exists token, (xs ++ [x]).
    + apply silent_bind; [by apply silent_call|done|]. intros u. by apply IH in Hs'.
Qed.

Definition start : cli := MkCli (MkWire stream []) [].
Lemma start_settled token : settled token [] (Greeting token) (MkClient 1) start.
Proof. by repeat split; constructor. Qed.
Lemma start_anywhere : anywhere start.
Proof. eapply settled_anywhere, (start_settled (SecretString_new [])). Qed.

(** A step before the conversation: it leaves everything as it is, and its error is not the
    download's. *)
Definition harmless {A} (p : prog client_call (result A ClientError)) : Prop :=
  wp p (λ r w, w = start ∧ ∀ e, r = Err e → is_failed e = false) (eq start) start.

Lemma harmless_bind {A B} (p : prog client_call (result A ClientError))
    (f : A → prog client_call (result B ClientError)) Q :
  harmless p → (∀ a, wp (f a) Q anywhere start) → (∀ e, is_failed e = false → Q (Err e) start) →
  wp (let!? x := p in f x) Q anywhere start.
Proof.
  intros Hp Hf He. apply prog_bind.
  eapply prog_mono; [exact Hp| |intros ? <-; apply start_anywhere].
  intros r w [-> Hr] _. destruct r as [a|e]; [apply Hf|]. apply prog_ret; [apply start_anywhere|].
  by apply He, Hr.
Qed.
Lemma harmless_error {A} f (p : prog client_call (result A TransportError)) :
  wp p (λ _, eq start) (eq start) start → harmless (on_error f p).
Proof.
  intros Hp. apply silent_bind; [done|done|]. intros r. apply prog_ret; [done|]. split; [done|].
  destruct r; [done|]. by intros e' [= <-].
Qed.
Lemma harmless_root : harmless runtime_root.
Proof.
  apply silent_bind; [by apply silent_call|done|]. intros [p|]; [by apply prog_ret|].
  apply silent_bind; [by apply silent_call|done|]. intros [p|]; apply prog_ret; try done.
  split; [done|]. by intros e [= <-].
Qed.
Lemma silent_connect paths : wp (stream_connect paths) (λ _, eq start) (eq start) start.
Proof.
  apply silent_bind; [apply silent_os|done|]. intros [u|e]; [|by apply prog_ret].
  apply silent_bind; [by apply silent_call|done|]. intros r. by apply prog_ret.
Qed.

Definition connected (r : result IpcClient ClientError) (w : cli) : Prop :=
  match r with
  | Ok client => ∃ token xs, settled token xs Adding client w
  | Err e => concluded (Err e) w
  end.

Lemma quiet_error (e : ClientError) w : is_failed e = false → cl_printed w = [] →
  concluded (Err e) w.
Proof. by destruct e. Qed.

Lemma quiet_start e : is_failed e = false → connected (Err e) start.
Proof. intros He. by apply quiet_error. Qed.

Lemma connect_wp : wp connect connected anywhere start.
Proof.
  apply harmless_bind; [apply harmless_root| |exact quiet_start]. intros root.
  apply harmless_bind; [apply harmless_error, silent_os| |exact quiet_start]. intros paths.
  apply harmless_bind; [apply harmless_error, silent_os| |exact quiet_start]. intros token.
  apply harmless_bind; [apply harmless_error, silent_connect| |exact quiet_start]. intros _.
  apply prog_bind. eapply prog_mono; [by apply (call_wp _ _ _ _ _ _ _ (start_settled token))| |done].
  intros [r client] w Hr Hany. destruct r as [response|e];
    [|apply prog_ret; [done|destruct Hr; by apply quiet_error]].
  destruct Hr as [x Hs]. cbn [advance] in Hs. destruct response; apply prog_ret; try done;
    [by eexists _, _|by eapply refused..].
Qed.

(** [run] from the connection on. *)
Lemma submission_wp fuel :
  wp (let!? client := connect in
      let! '(called, client) := call_daemon client (add_request url target connections) KAdded in
      match called with
      | Err e => Ret (Err e)
      | Ok (Added added) => watch fuel client (sr_id added)
      | Ok response => Ret (Err (response_error response))
      end) concluded anywhere start.
Proof.
  apply prog_bind. eapply prog_mono; [apply connect_wp| |done].
  intros [client|e] w Hr Hany; [|by apply prog_ret]. destruct Hr as (token & xs & Hs).
  apply prog_bind. eapply prog_mono; [by apply (call_wp _ _ _ _ _ _ _ Hs)| |done].
  intros [r client'] w' Hr Hany'. destruct r as [response|e];
    [|apply prog_ret; [done|destruct Hr; by apply quiet_error]].
  destruct Hr as [x Hs']. cbn [advance] in Hs'.
  destruct response; try (apply prog_ret; [done|by eapply refused]). by eapply watch_wp.
Qed.
End conversation.

Lemma add_wp fuel url output_dir connections stream :
  let target_of target := ∀ d, output_dir = Some d → to_str d = Some target in
  wp (run fuel (Add url output_dir connections))
    (λ r w, (∃ e, r = Err e ∧ is_failed e = false ∧ w = start stream) ∨
       ∃ target, target_of target ∧ concluded url target connections stream r w)
    (λ w, w = start stream ∨ ∃ target, target_of target ∧ anywhere url target connections stream w)
    (start stream).
Proof.
  intros target_of. unfold run.
  assert (Hrest : ∀ d, (∀ d', output_dir = Some d' → d' = d) →
    wp (match to_str d with
        | None => Ret (Err (General UnrepresentableDir))
        | Some target =>
            let!? client := connect in
            let! '(called, client) := call_daemon client (add_request url target connections) KAdded in
            match called with
            | Err e => Ret (Err e)
            | Ok (Added added) => watch fuel client (sr_id added)
            | Ok response => Ret (Err (response_error response))
            end
        end)
    (λ r w, (∃ e, r = Err e ∧ is_failed e = false ∧ w = start stream) ∨
       ∃ target, target_of target ∧ concluded url target connections stream r w)
    (λ w, w = start stream ∨ ∃ target, target_of target ∧ anywhere url target connections stream w)
    (start stream)).
  { intros d Hd. destruct (to_str d) as [target|] eqn:Ed.
    - assert (Ht : target_of target) by (intros d' Hd'; by rewrite (Hd _ Hd')).
      eapply prog_mono; [apply (submission_wp url target)|intros r w Hr _|intros w Hw]; right; by exists target.
    - apply prog_ret; [by left|]. left. by eexists. }
  apply prog_bind. destruct output_dir as [d|].
  - apply prog_ret; [by left|]. apply Hrest. by intros d' [= ->].
  - apply prog_bind, prog_call; [by left|]. intros [d|e] w ->; (split; [by left|]); apply prog_ret.
    + by left.
    + by apply Hrest.
    + by left.
    + apply prog_ret; [by left|]. left. by eexists.
Qed.

(** Wherever [dp add] is stopped; and how it ends, by its exit code. *)
Definition underway (url : str) (output_dir : option path) (connections : option Z)
    (stream : list byte) (w : cli) : Prop :=
  w = start stream ∨
  ∃ target, (∀ d, output_dir = Some d → to_str d = Some target) ∧
    anywhere url target connections stream w.
Definition exited (url : str) (output_dir : option path) (connections : option Z)
    (stream : list byte) (code : Z) (w : cli) : Prop :=
  let ended r := ∃ target, (∀ d, output_dir = Some d → to_str d = Some target) ∧
    concluded url target connections stream r w in
  code = 0 ∧ ended (Ok tt) ∨
  code = 4 ∧ (∃ kind, ended (Err (DownloadFailed kind))) ∨
  (code = 1 ∨ code = 3) ∧ cl_printed w = [].

Lemma main_wp fuel url output_dir connections stream :
  wp (main fuel (Add url output_dir connections)) (exited url output_dir connections stream)
    (underway url output_dir connections stream) (start stream).
Proof.
  assert (Hs : underway url output_dir connections stream (start stream)) by by left.
  apply prog_bind, prog_call; [done|]. intros built w ->. split; [done|]. destruct built; cbn [negb].
  - apply prog_bind. eapply prog_mono; [apply add_wp| |done]. intros r w Hr Hu. destruct r as [[]|e].
    + apply prog_ret; [done|]. left. split; [done|].
      destruct Hr as [(e & [=] & _)|(target & Ht & Hc)]. by exists target.
    + apply prog_bind, prog_call; [done|]. intros u w' ->. split; [done|]. apply prog_ret; [done|].
      destruct Hr as [(e' & [= <-] & He & ->)|(target & Ht & Hc)].
      * right; right. split; [|done]. destruct e; [by left|by right|done].
      * right. destruct e as [c|c|kind]; [by right; split; [left|]|by right; split; [right|]|].
        left. split; [done|]. by exists kind, target.
  - apply prog_bind, prog_call; [done|]. intros u w ->. split; [done|]. apply prog_ret; [done|].
    right; right. by split; [left|].
Qed.

(** ** What both ends of the stream agree on *)

(** The kind of response a request is answered with. *)
Definition kind_of (request : Request) : ResponseKind :=
  match request with
  | Hello _ => KHello
  | DownloadAdd _ => KAdded
  | DownloadGet _ => KDownload
  | DownloadResume _ => KResumed
  | SystemStatus_ _ => KStatus
  end.

(** Both streams are sequences of frames, which nothing else can be. *)
Lemma framed_prefix a b x y : zlen a ≤ MAX_FRAME_BYTES → zlen b ≤ MAX_FRAME_BYTES →
  framed a ++ x `prefix_of` framed b ++ y → a = b ∧ x `prefix_of` y.
Proof.
  intros Ha Hb [z Heq]. rewrite <- app_assoc in Heq.
  destruct (frame_read_framed b y (Ok a) (x ++ z) Hb) as [[= ->] <-]; [by split|].
  split; [done|]. by apply prefix_app_r.
Qed.
Lemma framed_not_nil a x : ¬ framed a ++ x `prefix_of` [].
Proof. intros Hp%prefix_length. unfold framed in Hp. rewrite !length_app, length_to_le_bytes in Hp. cbn in Hp. lia. Qed.

Lemma frames_prefix ps qs rest :
  Forall (λ p, zlen p ≤ MAX_FRAME_BYTES) ps → Forall (λ p, zlen p ≤ MAX_FRAME_BYTES) qs →
  mjoin (framed <$> ps) ++ rest `prefix_of` mjoin (framed <$> qs) → ps `prefix_of` qs.
Proof.
  intros Hps. revert qs. induction Hps as [|p ps Hp _ IH]; intros qs Hqs Hpre; [apply prefix_nil|].
  cbn in Hpre. rewrite <- app_assoc in Hpre. destruct Hqs as [|q qs Hq Hqs].
  { by apply framed_not_nil in Hpre. }
  apply framed_prefix in Hpre as [-> Hpre]; [|done..]. by apply prefix_cons, IH.
Qed.

(** Pieces that are frames or empty: as many frames as there are pieces leave none empty. *)
Definition piece (p : list byte) : Prop :=
  p = [] ∨ ∃ q, p = framed q ∧ zlen q ≤ MAX_FRAME_BYTES.
Lemma pieces_enough qs pieces rest :
  Forall (λ q, zlen q ≤ MAX_FRAME_BYTES) qs → Forall piece pieces →
  mjoin (framed <$> qs) ++ rest `prefix_of` mjoin pieces → (length qs <= length pieces)%nat.
Proof.
  intros Hqs Hps. revert qs Hqs. induction Hps as [|p pieces Hp _ IH]; intros qs Hqs Hpre.
  - destruct qs as [|q qs]; [done|]. cbn in Hpre. rewrite <- app_assoc in Hpre.
    by apply framed_not_nil in Hpre.
  - destruct Hp as [->|(p' & -> & Hp)]; [apply IH in Hpre; [cbn; lia|done]|].
    destruct Hqs as [|q qs Hq Hqs]; [cbn; lia|]. cbn in Hpre. rewrite <- app_assoc in Hpre.
    apply framed_prefix in Hpre as [_ Hpre]; [|done..]. apply IH in Hpre; [cbn; lia|done].
Qed.
Lemma pieces_align qs pieces rest :
  Forall (λ q, zlen q ≤ MAX_FRAME_BYTES) qs → Forall piece pieces →
  (length pieces <= length qs)%nat →
  mjoin (framed <$> qs) ++ rest `prefix_of` mjoin pieces → pieces = framed <$> qs.
Proof.
  intros Hqs. revert pieces. induction Hqs as [|q qs Hq Hqs IH]; intros pieces Hps Hlen Hpre.
  - by destruct pieces; cbn in Hlen; [|lia].
  - destruct Hps as [|p pieces Hp Hps].
    { cbn in Hpre. rewrite <- app_assoc in Hpre. by apply framed_not_nil in Hpre. }
    destruct Hp as [->|(p' & -> & Hp)].
    { apply (pieces_enough (q :: qs) pieces) in Hpre; [cbn in *; lia|by constructor|done]. }
    cbn in Hpre. rewrite <- app_assoc in Hpre.
    apply framed_prefix in Hpre as [-> Hpre]; [|done..]. cbn. f_equal. apply IH; [done|cbn in *; lia|done].
Qed.

(** *** One conversation, from both ends *)

Import Daemon.Daemon.
Context `{!Envelopes V}.

(** What the client asked and heard. *)
Definition heard (xs : list exchange) : list (Request * Response) :=
  (λ x, (ex_request x, ex_response x)) <$> xs.

(** The payload of a request as the daemon reads it. *)
Definition asked (x : exchange) (payload : list byte) : Prop :=
  ex_frame x = framed payload ∧ zlen payload ≤ MAX_FRAME_BYTES ∧
  ∃ id, decode_request payload = Ok (id, ex_request x).
(** A response is read as its request's. *)
Definition answered (x : exchange) : Prop :=
  zlen (ex_payload x) ≤ MAX_FRAME_BYTES ∧
  ∃ id, decode_response (ex_payload x) (kind_of (ex_request x)) = Ok (id, ex_response x).
Definition answers_in_kind (d : Request * Response) : Prop :=
  answers (kind_of (fst d)) (snd d) = true.

Lemma talk_turns url target connections token xs ph : talk url target connections token xs ph →
  Forall answered xs ∧ ∃ payloads, Forall2 asked xs payloads.
Proof.
  induction 1 as [|xs ph request kind frame payload response _ [Ha (qs & Hq)] Hasks Hf Hp Hmax].
  { split; [done|]. by exists []. }
  split.
  - apply Forall_app. split; [done|]. constructor; [|done]. split; [done|]. cbn.
    replace (kind_of request) with kind by (by destruct ph; simplify_eq/=). by eexists.
  - apply request_reads_back in Hf as (q & Hfq & Hqm & Hd). exists (qs ++ [q]).
    apply Forall2_app; [done|]. constructor; [|done]. split; [done|]. split; [done|]. by eexists.
Qed.

Lemma sent_payloads xs qs : Forall2 asked xs qs → sent xs = mjoin (framed <$> qs).
Proof.
  induction 1 as [|x q xs qs (Hf & _) _ IH]; [done|].
  change (ex_frame x ++ sent xs = framed q ++ mjoin (framed <$> qs)). by rewrite Hf, IH.
Qed.
Lemma received_payloads xs : received xs = mjoin (framed <$> (ex_payload <$> xs)).
Proof. unfold received. by rewrite <- list_fmap_compose. Qed.

Lemma written_piece id response : piece (written (encode_response id response)).
Proof.
  destruct (encode_response id response) as [frame|e] eqn:E; [|by left]. right.
  assert (∃ kind, answers kind response = true) as [kind Hk].
  { destruct response; [by exists KHello|by exists KAdded|by exists KDownload|by exists KResumed|
      by exists KStatus|by exists KHello]. }
  destruct (response_reads_back _ _ _ _ E Hk) as (q & -> & Hq & _). by exists q.
Qed.

Lemma framed_inj a b : zlen a ≤ MAX_FRAME_BYTES → zlen b ≤ MAX_FRAME_BYTES →
  framed a = framed b → a = b.
Proof.
  intros Ha Hb Heq. apply (framed_prefix a b [] []); [done..|]. by rewrite Heq.
Qed.

(** The client heard exactly what the handler answered. *)
Lemma replies_agree xs ps ds :
  Forall answered xs → Forall2 asked xs ps → Forall2 commands_as ps ds → Forall answers_in_kind ds →
  reply <$> zip ps ds = framed <$> (ex_payload <$> xs) → ds = heard xs.
Proof.
  intros Ha Hq. revert ds. induction Hq as [|x p xs ps (_ & _ & id & Hd) _ IH]; intros ds Hc Hk Hr.
  { by inversion Hc. }
  apply Forall_cons in Ha as [[Hmax (id' & Hx)] Ha].
  apply Forall2_cons_inv_l in Hc as ([request response] & ds' & (id2 & Hd2 & _) & Hc' & ->).
  apply Forall_cons in Hk as [Hk Hks]. cbn in Hr. injection Hr as Hhead Hr.
  rewrite Hd in Hd2. injection Hd2 as <- Hreq. cbn [fst] in Hreq.
  unfold reply in Hhead. cbn [fst snd] in Hhead. rewrite Hd in Hhead.
  destruct (encode_response id response) as [frame|e] eqn:Ee; cbn [written] in Hhead; cycle 1.
  { unfold framed in Hhead. apply (f_equal length) in Hhead.
    rewrite length_app, length_to_le_bytes in Hhead. cbn in Hhead. lia. }
  destruct (response_reads_back _ _ _ _ Ee Hk) as (payload & -> & Hpm & Hdec).
  apply framed_inj in Hhead as ->; [|done..]. cbn [fst snd] in Hdec. rewrite <- Hreq, Hx in Hdec.
  injection Hdec as _ <-. rewrite <- Hreq. unfold heard. cbn [fmap list_fmap]. f_equal.
  by apply IH.
Qed.

Lemma both_ends daemon_version token up down s url target connections secret xs ph :
  served daemon_version token up s → talk url target connections secret xs ph → xs ≠ [] →
  up `prefix_of` sent xs → received xs ++ down `prefix_of` outbound (cn_wire s) →
  Forall answers_in_kind (cn_commands s) → cn_commands s = heard (tail xs).
Proof.
  intros Hserved Ht Hne Hup Hdown Hk. destruct (talk_turns _ _ _ _ _ _ Ht) as [Ha (qs & Hqs)].
  destruct xs as [|x xs]; [done|]. rewrite received_payloads in Hdown.
  destruct Hserved as [[_ Ho]|(hello & id & ps & rest & [_ Hread Hcs Hb] & Hpre)].
  { rewrite Ho in Hdown. cbn in Hdown. rewrite <- app_assoc in Hdown.
    by apply framed_not_nil in Hdown. }
  assert (Hqm : Forall (λ q, zlen q ≤ MAX_FRAME_BYTES) qs).
  { clear -Hqs. induction Hqs as [|? ? ? ? (_ & ? & _)]; by constructor. }
  rewrite (sent_payloads _ _ Hqs), Hread in Hup. apply frames_prefix in Hup; [|done..].
  set (pieces := hello_reply daemon_version id :: (reply <$> zip ps (cn_commands s))).
  assert (Hlen : length pieces = length (hello :: ps)).
  { cbn. by rewrite length_fmap, length_zip_with_l_eq by by eapply Forall2_length. }
  assert (Hpieces : pieces = framed <$> (ex_payload <$> (x :: xs))).
  { apply (pieces_align _ _ down).
    - apply Forall_fmap. eapply Forall_impl; [exact Ha|]. by intros y [? _].
    - constructor; [apply written_piece|]. apply Forall_fmap, Forall_true. intros [p [rq rs]].
      cbn. unfold reply. cbn. destruct (decode_request p) as [[? ?]|]; [apply written_piece|by left].
    - rewrite Hlen, length_fmap, (Forall2_length _ _ _ Hqs). by apply prefix_length.
    - etransitivity; [exact Hdown|]. exact Hpre. }
  assert (Heq : hello :: ps = qs).
  { destruct Hup as [k ->]. apply (f_equal length) in Hpieces.
    rewrite Hlen, !length_fmap, (Forall2_length _ _ _ Hqs), length_app in Hpieces.
    destruct k; [by rewrite app_nil_r|]. cbn in Hpieces. lia. }
  subst qs. inversion Hqs as [|? ? ? ? _ Hqs']; subst. apply Forall_cons in Ha as [_ Ha].
  cbn [tail]. injection Hpieces as _ Hpieces. by eapply replies_agree.
Qed.

Definition watched (added : StateResult) (views : list DownloadView) : list (Request * Response) :=
  (λ view, (get_request (sr_id added), DownloadResponse view)) <$> views.
Definition unfinished (view : DownloadView) : Prop :=
  dv_state view ≠ Completed ∧ dv_state view ≠ Failed.

Definition story (url target : str) (connections : option Z) (ph : phase) (xs : list exchange) : Prop :=
  let told added views := xs ≠ [] ∧ heard (tail xs)
    = (add_request url target connections, Added added) :: watched added views in
  match ph with
  | Greeting _ => xs = []
  | Adding => ∃ x, xs = [x]
  | Watching id => ∃ added views, told added views ∧ id = sr_id added ∧ Forall unfinished views
  | Done (Ok id) => ∃ added views final, told added (views ++ [final]) ∧ id = sr_id added ∧
      Forall unfinished views ∧ dv_state final = Completed
  | Done (Err _) => True
  end.

Lemma heard_snoc xs x : xs ≠ [] →
  heard (tail (xs ++ [x])) = heard (tail xs) ++ [(ex_request x, ex_response x)].
Proof. destruct xs as [|x0 xs]; [done|]. intros _. cbn [app tail]. unfold heard. by rewrite fmap_app. Qed.

Lemma talk_story url target connections token xs ph :
  talk url target connections token xs ph → story url target connections ph xs.
Proof.
  induction 1 as [|xs ph request kind frame payload response _ IH Hasks _ _ _]; [done|].
  set (x := MkExchange request kind frame payload response).
  assert (Hne : xs ++ [x] ≠ []) by by destruct xs.
  destruct ph as [t| |id|r]; [..|done]; cbn [story] in IH; injection Hasks as <- <-.
  - subst xs. destruct response; try done. by exists x.
  - destruct IH as [x0 ->]. destruct response as [|added| | | |]; try done. by exists added, [].
  - destruct IH as (added & views & [Hx Hh] & -> & Hu).
    assert (Htold : ∀ view, response = DownloadResponse view →
      xs ++ [x] ≠ [] ∧ heard (tail (xs ++ [x])) = (add_request url target connections, Added added)
        :: watched added (views ++ [view])).
    { intros view ->. split; [done|]. rewrite heard_snoc by done. rewrite Hh. unfold watched.
      by rewrite fmap_app. }
    destruct response as [| |view| | |]; try done. cbn [advance].
    destruct (bool_decide (dv_state view = Completed)) eqn:Ec;
      [apply bool_decide_eq_true in Ec; exists added, views, view; auto|].
    destruct (bool_decide (dv_state view = Failed)) eqn:Ef; [done|].
    apply bool_decide_eq_false in Ec, Ef. exists added, (views ++ [view]). split; [by apply Htold|].
    split; [done|]. apply Forall_app. split; [done|]. by constructor.
Qed.
End client.

(** ** A client that is served *)

Section served.
Context {V : Type} `{Json V, Serde V HelloParams, Serde V AddParams, Serde V IdParams,
  Serde V VersionParams, Serde V HelloResult, Serde V StateResult, Serde V DownloadView,
  Serde V SystemStatus, !Serde V (RequestEnvelope V), !Serde V (SuccessEnvelope V),
  !Serde V ErrorEnvelope}.
Context (pkg_version : str).

Lemma speak_exec {A} (p : prog stream_call A) s s' out (a : A) :
  exec p s s' (Some a) → exec (on_stream p) (MkCli s out) (MkCli s' out) (Some a).
Proof. apply (translate_exec _ (λ s, MkCli s out)). intros X e s1 x s2 Hd. by exists s2. Qed.
(** The operating system may answer the client as the file system does. *)
Lemma on_os_exec {A} (p : prog os_call A) (f f' : fs) w (a : A) :
  exec p f f' (Some a) → exec (on_os p) w w (Some a).
Proof. by apply (translate_exec (λ _, OnOs) (λ _, w)). Qed.

Lemma answered_exec id request kind frame payload response rest out printed :
  encode_request id request = Ok frame → decode_response payload kind = Ok (id, response) →
  zlen payload ≤ MAX_FRAME_BYTES →
  exec (call_daemon (MkClient id) request kind)
    (MkCli (MkWire (framed payload ++ rest) out) printed) (MkCli (MkWire rest (out ++ frame)) printed)
    (Some (Ok response, MkClient (saturating_add64 id 1))).
Proof.
  intros He Hd Hmax. unfold call_daemon. cbn [next_id]. rewrite He.
  eapply exec_then; [by apply speak_exec, Daemon.Daemon.send_exec|]. cbv beta iota.
  eapply exec_then; [by apply speak_exec, Daemon.Daemon.receive_exec|]. cbv beta iota.
  rewrite Hd, Z.eqb_refl. apply exec_return.
Qed.

Lemma connect_exec root f frame payload result rest :
  exec (client_paths root) f f (Some (Ok (the_paths root))) →
  ∀ token, exec (read_client_token (the_paths root)) f f (Some (Ok token)) →
  encode_request 1 (hello pkg_version token) = Ok frame →
  decode_response payload KHello = Ok (1, HelloResponse result) → zlen payload ≤ MAX_FRAME_BYTES →
  exec (connect pkg_version) (start (framed payload ++ rest)) (MkCli (MkWire rest frame) [])
    (Some (Ok (MkClient 2))).
Proof.
  intros Hpaths token Htok He Hd Hmax. set (w := start (framed payload ++ rest)).
  apply (exec_then _ _ w w _ (Ok root)).
  { eapply (exec_call (VarOs _) _ (Some root)); [done|apply exec_return]. }
  apply (exec_then _ _ w w _ (Ok (the_paths root))).
  { eapply exec_then; [by eapply on_os_exec|apply exec_return]. }
  apply (exec_then _ _ w w _ (Ok token)).
  { eapply exec_then; [by eapply on_os_exec|apply exec_return]. }
  apply (exec_then _ _ w w _ (Ok tt)).
  { eapply (exec_call (OnOs (ToFsName _)) _ (Ok tt)); [done|].
    eapply (exec_call (Connect _) _ (Ok tt)); [done|apply exec_return]. }
  eapply exec_then; [by apply (answered_exec 1)|]. apply exec_return.
Qed.
End served.

(** ** Properties *)

Section properties.
Context {V : Type} `{Json V, Serde V HelloParams, Serde V AddParams, Serde V IdParams,
  Serde V VersionParams, Serde V HelloResult, Serde V StateResult, Serde V DownloadView,
  Serde V SystemStatus, !Serde V (RequestEnvelope V), !Serde V (SuccessEnvelope V),
  !Serde V ErrorEnvelope}.
Context (pkg_version : str).
Import Daemon.Daemon.

(** C40: [dp add] follows the protocol.  Whatever the environment answers and whatever arrives on the
    stream, stopped anywhere, the client has sent the frames of the calls it finished, in the order
    the protocol asks for them and numbered from 1, and at most a part of the next one's: the hello
    with the token it read, one submission, then only questions about the download it was given.
    Each was sent after the answer to the one before, under the same number.  It prints the
    identity of the download once the daemon reported it completed, and nothing else; it exits
    with 0 after just that, with 4 only after the daemon reported a failure or answered with an
    error, and otherwise, having printed nothing, with 1 or 3. *)
Theorem client_follows_the_protocol fuel url output_dir connections stream w o :
  exec (main pkg_version fuel (Add url output_dir connections)) (start stream) w o →
  underway pkg_version url output_dir connections stream w ∧
  ∀ code, o = Some code → exited pkg_version url output_dir connections stream code w.
Proof.
  intros Hx. pose proof (main_wp pkg_version fuel url output_dir connections stream) as Hwp.
  eapply prog_sound in Hx;
    [|eapply prog_mono; [exact Hwp|intros r w' Hr Hs; exact (conj Hs Hr)|done]].
  destruct o as [code|]; [destruct Hx; split; [done|]; by intros ? [= <-]|done].
Qed.

(** What a success is worth.  Join the client's stream to a connection of the daemon: what the daemon
    reads is what the client wrote, what the client reads is what the daemon wrote, each as far as
    it was delivered.  If [dp add] exits with 0, the commands the connection dispatched are exactly
    the submission of this URL, target and connection count, answered with an identity, and
    questions about that identity, the last of which, and no other, was answered with [Completed];
    and that identity is what was printed. *)
Lemma success_story `{!Envelopes V} daemon_version token fuel fuel' url output_dir connections up down
    s os c : length (token_bytes token) = 32%nat →
  exec (serve_connection daemon_version fuel token)
    (MkConn (MkWire up []) []) s os →
  exec (main pkg_version fuel' (Add url output_dir connections)) (start down) c (Some 0) →
  up `prefix_of` outbound (cl_wire c) → down `prefix_of` outbound (cn_wire s) →
  Forall answers_in_kind (cn_commands s) →
  ∃ target added views final,
    (∀ d, output_dir = Some d → to_str d = Some target) ∧
    cn_commands s
      = (add_request url target connections, Added added) :: watched added (views ++ [final]) ∧
    Forall unfinished views ∧ dv_state final = Completed ∧
    cl_printed c = [id_text (sr_id added)].
Proof.
  intros Htoken Hserver Hclient Hup Hdown Hk.
  assert (Hserved : served daemon_version token up s).
  { assert (Hw : waiting daemon_version token up (Session_new token)
      (MkConn (MkWire up []) [])) by by split.
    pose proof (serve_loop_wp daemon_version token Htoken fuel up _ _ Hw) as Hwp.
    eapply prog_sound in Hserver;
      [|eapply prog_mono; [exact Hwp|intros r w' Hr Hs; exact Hs|done]].
    by destruct os. }
  apply (prog_sound _ _ _ _ _ _ (main_wp pkg_version fuel' url output_dir connections down)) in Hclient.
  destruct Hclient as [[_ (target & Ht & secret & xs & id & Htalk & [Ho Hi] & Hp)]|
    [[[=] _]|[[[=]|[=]] _]]].
  pose proof (talk_story _ _ _ _ _ _ _ Htalk) as (added & views & final & [Hne Hh] & -> & Hu & Hf).
  exists target, added, views, final. split; [done|]. split; [|done]. rewrite <- Hh.
  rewrite Ho in Hup. rewrite Hi in Hdown. by eapply both_ends.
Qed.

End properties.

(** ** One download, from both ends *)

Module Example_download.
Import Ipc.Example_json Transport.Example_start Daemon.Daemon.
#[local] Notation secret := Transport.Example_start.secret.

Definition build : str := lit "0.1.0".
Definition the_url : str := lit "https://example.org/f".
(** The current directory, as the empty path. *)
Definition folder : path := EmptyString.
Definition the_id : DownloadId := MkDownloadId (take 32 (hex_text (replicate 32 xab))) I.
Definition added : StateResult := MkStateResult 1 the_id Submitted.
Definition probing : DownloadView := MkView 1 the_id Probing 0 None None.
Definition completed : DownloadView := MkView 1 the_id Completed 8 (Some 8) None.
Definition dispatched_commands : list (Request * Response) :=
  (add_request the_url (lit "") None, Added added) :: watched added [probing; completed].
Definition greeting_reply : Response :=
  HelloResponse (MkHelloResult PROTOCOL_VERSION build [lit "h1-segments"]).

Definition payload_of (r : result (list byte) CodecError) : list byte := drop 4 (frame_or_nothing r).
Definition hello_payload : list byte := payload_of (encode_request 1 (hello build (to_wire secret))).
Definition command_payloads : list (list byte) :=
  imap (λ i d, payload_of (encode_request (Z.of_nat i + 2) (fst d))) dispatched_commands.
Definition upstream : list byte := mjoin (framed <$> hello_payload :: command_payloads).
Definition downstream : list byte :=
  hello_reply build 1 ++ mjoin (reply <$> zip command_payloads dispatched_commands).

Lemma server_side : exec (serve_connection build (length command_payloads + 2) secret)
  (MkConn (MkWire upstream []) []) (MkConn (MkWire [] downstream) dispatched_commands)
  (Some (Err stream_ended)).
Proof.
  assert (Hans : ∀ i d, nth_error dispatched_commands i = Some d →
    answerable (payload_of (encode_request (Z.of_nat i + 2) (fst d))) d).
  { intros i d Hd. do 3 (destruct i as [|i]; [injection Hd as <-;
      split; [eexists; split; [vm_compute; reflexivity|done]|];
      by split; [vm_compute; discriminate|vm_compute; reflexivity]|]). by destruct i. }
  apply connection_exec; [done| |by vm_compute|by vm_compute|].
  - exists (MkHello 1 (lit "dp/0.1.0") (to_wire secret)). by split; [vm_compute; reflexivity|].
  - unfold command_payloads, dispatched_commands. cbn [imap watched fmap list_fmap].
    constructor; [exact (Hans 0%nat _ eq_refl)|]. constructor; [exact (Hans 1%nat _ eq_refl)|].
    constructor; [exact (Hans 2%nat _ eq_refl)|done].
Qed.

Definition frames : list byte :=
  mjoin ((λ p, frame_or_nothing (encode_request (fst p) (snd p))) <$>
    [(1, hello build (to_wire secret)); (2, add_request the_url (lit "") None);
     (3, get_request the_id); (4, get_request the_id)]).
Definition at_end : cli := MkCli (MkWire [] frames) [id_text the_id].

Lemma after_is_trusted : trusted root after.
Proof.
  exists dir_node, dir_node. split; [by vm_compute|]. split; [done|]. split; [done|]. by split; vm_compute.
Qed.
Lemma after_is_installed : installed root before listener after.
Proof.
  split; [done|]. exists token_node. split; [by vm_compute|]. split; [|done].
  split; [done|]. by split; vm_compute.
Qed.

Definition response_payload (id : Z) (response : Response) : list byte :=
  payload_of (encode_response id response).
Lemma downstream_frames : downstream =
  framed (response_payload 1 greeting_reply) ++ framed (response_payload 2 (Added added)) ++
  framed (response_payload 3 (DownloadResponse probing)) ++
  framed (response_payload 4 (DownloadResponse completed)) ++ [].
Proof. vm_compute. reflexivity. Qed.

Lemma client_side : exec (main build 2 (Add the_url (Some folder) None)) (start downstream) at_end (Some 0).
Proof.
  rewrite downstream_frames. eapply (exec_call BuildRuntime _ true); [done|]. cbn [negb].
  apply (exec_then _ _ _ at_end _ (Ok tt)); [|apply exec_return]. unfold run. cbn [Effects.bind].
  change (to_str folder) with (Some (lit "")). cbv beta iota.
  eapply exec_then.
  { eapply (connect_exec build root after); [apply trusted_discovers, after_is_trusted|
      eapply installed_reads, after_is_installed|by vm_compute|by vm_compute|by vm_compute]. }
  cbv beta iota. eapply exec_then; [eapply (answered_exec 2); by vm_compute|].
  cbv beta iota. cbn [watch]. eapply exec_then; [eapply (answered_exec 3); by vm_compute|].
  cbv beta iota. cbn [dv_state probing]. rewrite !bool_decide_eq_false_2 by done.
  eapply (exec_call (Sleep 25) _ tt); [done|].
  eapply exec_then; [eapply (answered_exec 4); by vm_compute|].
  cbv beta iota. cbn [dv_state completed]. rewrite bool_decide_eq_true_2 by done.
  eapply (exec_call (Println _) _ tt); [done|]. split; [|by left]. vm_compute. reflexivity.
Qed.

Lemma client_follows_the_protocol_witness :
  exec (main build 2 (Add the_url (Some folder) None)) (start downstream) at_end (Some 0) ∧
  exited build the_url (Some folder) None downstream 0 at_end.
Proof.
  split; [exact client_side|].
  exact (proj2 (client_follows_the_protocol build 2 the_url (Some folder) None downstream _ _
    client_side) 0 eq_refl).
Defined.

End Example_download.
End Client.
