(* ===== verification/System.v ===== *)
(** * The daemon and its downloads, each with a storage of its own

    The daemon of [Daemon] with the storage of every download: commands and tasks interleave over
    the registry, and each task works on the files of its own download, operation by operation.  It
    refines the daemon of the registry alone, its commands answer what is on record, and what is
    recorded as completed is a verified file. *)

From S2P Require Import Prelude Io Str PartFile Writer Remote Completion Effects Http Retry.
From S2P Require Import StorageSink Download Footprint Ipc Transport Daemon Client.
From Stdlib Require Import String.
From stdpp Require Import list gmap.
#[local] Open Scope Z_scope.

Module System.
#[local] Notation path := PartFile.PartFile.path.
Import Io.Io Str.Str Effects.Effects Ipc.Ipc StorageSink.StorageSink Download.Download Daemon.Daemon.

Section machine.
Context {Url Mime : Type} {N : Type → Type} {D J : Type}.
Context `{backend : Http.Http.TransferProtocol Url Mime N, !UrlText Url, !UrlParse Url}.
Context `{Retry.HttpDate, EqDecision Url}.
Context `{Checksum, Digest, Os, Completion.Completion.ServerDigests} `{Writer.Writer.DurableDataLaws D}
  `{!Writer.Writer.DurableJournal J} `{!Writer.Writer.DurableJournalLaws J}.
Context (windows : bool) (policy : Retry.RetryPolicy) (reprobe : Retry.ReprobePolicy).
Context (daemon_version : str) (config : TransferConfig).
Notation dcall := (daemon_call Url (announced Url Mime N)).
Notation site := (site Url Mime D J).
Notation task := (Transfer Url).
Notation body := (transfer (backend := announcing backend) windows policy reprobe).
Notation handler := (TransferDaemon (N := announced Url Mime N) daemon_version config).
Notation Registry := (gmap DownloadId DownloadRecord).

(** ** The machine *)

(** A command that is being answered, or a spawned task. *)
Inductive thread :=
| Serving (request : Request) (p : prog dcall Response)
| Running (t : task) (p : prog dcall unit).

Record machine := MkMachine {
  mc_registry : Registry;
  mc_poisoned : bool;
  mc_given : gset DownloadId;
  mc_sites : DownloadId → site;
  mc_threads : list thread;
}.

(** What a call does to the files of its download. *)
Definition on_site {X} (c : dcall X) (s : site) : X → site → Prop :=
  match c in daemon_call _ _ X return X → site → Prop with
  | Engine c => λ x s', does c s x s'
  | FileLength p => λ x s', s' = s ∧
      ∀ n, x = Some n → ∃ content,
        StorageSink.StorageSink.dk_files (st_disk s) p = Some content ∧ n = zlen content
  | _ => λ _ s', s' = s
  end.
Definition hires {X} (c : dcall X) : list task := match c with Spawn t => [t] | _ => [] end.
Definition hired {X} (c : dcall X) : list thread := (λ t, Running t (body t)) <$> hires c.

(** What a blocking thread is asked to do, or has left to do. *)
Definition blocking {A} (p : prog storage_op A) : dcall (option A) := Engine (Right_ (Left_ (Blocking p))).

(** The answers of [Daemon]; only a task touches files, and only those of its own download: with all
    of a call at once, or one operation of its blocking thread after the other. *)
Inductive step : machine → machine → Prop :=
| step_arrives registry poisoned given sites threads request :
    step (MkMachine registry poisoned given sites threads)
         (MkMachine registry poisoned given sites (threads ++ [Serving request (handler request)]))
| step_serves registry poisoned given sites l request X (c : dcall X) k r x registry' given' spawned :
    answer (backend := announcing backend) windows policy reprobe c registry poisoned given x
      registry' given' spawned →
    step (MkMachine registry poisoned given sites (l ++ Serving request (Vis c k) :: r))
         (MkMachine registry' poisoned given' sites (l ++ Serving request (k x) :: r ++ hired c))
| step_runs registry poisoned given sites l t X (c : dcall X) k r x registry' given' spawned s' :
    answer (backend := announcing backend) windows policy reprobe c registry poisoned given x
      registry' given' spawned →
    on_site c (sites (tr_id t)) x s' →
    step (MkMachine registry poisoned given sites (l ++ Running t (Vis c k) :: r))
         (MkMachine registry' poisoned given' (λ id, if decide (id = tr_id t) then s' else sites id)
            (l ++ Running t (k x) :: r ++ hired c))
| step_works registry poisoned given sites l t A X (op : storage_op X) (kp : X → prog storage_op A) k r x d :
    does op (st_disk (sites (tr_id t))) x d →
    step (MkMachine registry poisoned given sites (l ++ Running t (Vis (blocking (Vis op kp)) k) :: r))
         (MkMachine registry poisoned given
            (λ id, if decide (id = tr_id t) then with_disk (sites (tr_id t)) d else sites id)
            (l ++ Running t (Vis (blocking (kp x)) k) :: r))
| step_poisons registry poisoned given sites threads :
    step (MkMachine registry poisoned given sites threads)
         (MkMachine registry true given sites threads).

Definition opened (sites : DownloadId → site) : machine := MkMachine ∅ false ∅ sites [].

(** The answer a command gave. *)
Definition replied (m : machine) (d : Request * Response) : Prop :=
  Serving (fst d) (Ret (snd d)) ∈ mc_threads m.
(** ** It refines the daemon of the registry alone *)

Definition erase_thread (th : thread) : prog dcall unit :=
  match th with
  | Serving _ p => let! _ := p in Ret tt
  | Running _ p => p
  end.
Definition erase (m : machine) : system :=
  MkSystem (mc_registry m) (mc_poisoned m) (mc_given m) (erase_thread <$> mc_threads m).
Notation daemon_step := (Daemon.Daemon.step (backend := announcing backend) windows policy reprobe
  daemon_version config).

Lemma erase_hired X (c : dcall X) registry poisoned given x registry' given' spawned :
  answer (backend := announcing backend) windows policy reprobe c registry poisoned given x
    registry' given' spawned →
  spawned = erase_thread <$> hired c.
Proof. destruct c; cbn; naive_solver. Qed.

Lemma erase_step m m' : step m m' → daemon_step (erase m) (erase m').
Proof.
  intros [registry poisoned given sites threads request
    |registry poisoned given sites l request X c k r x registry' given' spawned Ha
    |registry poisoned given sites l t X c k r x registry' given' spawned s' Ha _
    |registry poisoned given sites l t A X op kp k r x d _
    |registry poisoned given sites threads]; unfold erase; cbn.
  - rewrite fmap_app. constructor.
  - pose proof Ha as ->%erase_hired. rewrite !fmap_app, !fmap_cons, fmap_app.
    by apply (step_call _ _ _ _ _ _ _ _ _ _ _ (λ x, let! _ := k x in Ret tt)).
  - pose proof Ha as ->%erase_hired. rewrite !fmap_app, !fmap_cons, fmap_app.
    by apply (step_call _ _ _ _ _ _ _ _ _ _ _ k).
  - rewrite !fmap_app, !fmap_cons. constructor.
  - constructor.
Qed.

Lemma erase_run sites m : rtc step (opened sites) m → rtc daemon_step started (erase m).
Proof.
  change started with (erase (opened sites)). induction 1; [constructor|].
  eapply rtc_l; [by apply erase_step|done].
Qed.
(** ** Tickets

    Every thread changes the record of one download at most: a command that of an identity it drew
    itself, which it hands to the task it spawns; a task its own. *)
Inductive ticket := Idle | Drawn (id : DownloadId) | Working (id : DownloadId).
Definition ticket_id (tk : ticket) : option DownloadId :=
  match tk with Idle => None | Drawn id | Working id => Some id end.

(** A download that was only drawn has not completed. *)
Definition fresh (registry : Registry) (tk : ticket) : Prop :=
  match tk with
  | Drawn id => ∀ record, registry !! id = Some record → dr_state record ≠ Completed
  | _ => True
  end.

Definition keeps_call {X} (c : dcall X) (tk : ticket) : (X → ticket → Prop) → Prop :=
  match c in daemon_call _ _ X return (X → ticket → Prop) → Prop with
  | FillRandom => λ Q, (∀ id, tk ≠ Working id) ∧ Q None tk ∧
      ∀ bytes id, fresh_download_id (Some bytes) = Some (Ok id) → Q (Some bytes) (Drawn id)
  | Locked f => λ Q, (∀ registry,
        (∀ id, ticket_id tk ≠ Some id → snd (f registry) !! id = registry !! id) ∧
        (fresh registry tk → fresh (snd (f registry)) tk)) ∧
      ∀ x, Q x tk
  | Spawn t => λ Q, tk = Drawn (tr_id t) ∧ Q tt Idle
  | _ => λ Q, ∀ x, Q x tk
  end.
Fixpoint keeps {A} (tk : ticket) (p : prog dcall A) : Prop :=
  match p with
  | Ret _ => True
  | Vis c k => keeps_call c tk (λ x tk', keeps tk' (k x))
  end.

Lemma engine_keeps {A B} (p : prog (engine_call (announced Url Mime N)) A) tk (k : A → prog dcall B) :
  (∀ a, keeps tk (k a)) → keeps tk (bind (on_engine p) k).
Proof. intros Hk. induction p as [a|X e k' IH]; cbn; [done|]. intros x. apply IH. Qed.

Lemma update_keeps {B} id state covered total error (k : unit → prog dcall B) :
  (∀ u, keeps (Working id) (k u)) →
  keeps (Working id) (bind (update_state id state covered total error) k).
Proof.
  intros Hk. split; [|intros x; apply Hk]. intros registry. split; [|done].
  intros i Hi. cbn in *. destruct (registry !! id); [|done]. rewrite lookup_insert_ne; [done|congruence].
Qed.

Lemma transfer_keeps t : keeps (Working (tr_id t)) (body t).
Proof.
  assert (Hlast : ∀ state covered total error,
    keeps (Working (tr_id t)) (update_state (N := announced Url Mime N) (tr_id t) state covered total error)).
  { intros state covered total error. by apply (update_keeps _ _ _ _ _ (λ u, Ret u)). }
  apply update_keeps. intros _. cbn. intros []; [|apply Hlast].
  apply engine_keeps. intros [[final|error]|]; [intros length; apply Hlast|apply Hlast|]. by intros [].
Qed.

Lemma accept_keeps params url : keeps Idle (accept (N := announced Url Mime N) config params url).
Proof.
  unfold accept, ask, registering, call. cbn [bind].
  split; [done|]. split; [done|]. intros bytes id Hid. rewrite Hid. split.
  - intros registry. split.
    + intros i Hi. cbn in *. apply lookup_insert_ne. congruence.
    + intros _ record. cbn. rewrite lookup_insert_eq. by intros [= <-].
  - by intros [[]|].
Qed.

Lemma handler_keeps request : keeps Idle (handler request).
Proof.
  destruct request as [params|params|params|params|params]; cbn; try done.
  - unfold add. destruct (url_parse _) as [url|]; [|done]. destruct (negb _); [done|].
    destruct (ao_connections _) as [n|]; [|apply accept_keeps].
    destruct (n =? 0); [done|]. destruct (n =? 1); [apply accept_keeps|done].
  - split; [done|]. by intros [[record|]|].
  - split; [done|]. by intros [[active queued]|].
Qed.

(** What an answer makes of the ticket. *)
Inductive passes {X} (c : dcall X) (given given' : gset DownloadId) : ticket → ticket → Prop :=
| passes_on tk : hires c = [] → given' = given → passes c given given' tk tk
| passes_draws tk id : hires c = [] → (∀ i, tk ≠ Working i) → id ∉ given → given' = {[id]} ∪ given →
    passes c given given' tk (Drawn id)
| passes_hires t : hires c = [t] → given' = given → passes c given given' (Drawn (tr_id t)) Idle.

Lemma keeps_answer {X} (c : dcall X) registry poisoned given x registry' given' spawned tk Q :
  answer (backend := announcing backend) windows policy reprobe c registry poisoned given x
    registry' given' spawned →
  keeps_call c tk Q → fresh registry tk → (∀ id, is_Some (registry !! id) → id ∈ given) →
  ∃ tk', Q x tk' ∧ passes c given given' tk tk' ∧ (fresh registry' tk ∧ fresh registry' tk') ∧
    ∀ id, ticket_id tk ≠ Some id → registry' !! id = registry !! id.
Proof.
  intros Ha Hk Hf Hg. destruct c as [|Y f|t| |mode|Y e|p| |]; cbn [answer keeps_call] in Ha, Hk; try done.
  2: { destruct Ha as (-> & -> & Ha), Hk as [Hk HQ]. exists tk. split; [apply HQ|]. split; [by constructor|].
       destruct poisoned; destruct Ha as [-> ->]; [done|]. destruct (Hk registry) as [Ho Hfr].
       split; [split; by apply Hfr|done]. }
  2: { destruct Ha as (-> & -> & _), Hk as [-> HQ]. destruct x. exists Idle.
       split; [done|]. by split; [econstructor|]. }
  2-5: (destruct Ha as (-> & -> & _); exists tk; split; [apply Hk|]; by split; [constructor|]).
  destruct Ha as (-> & _ & Ha), Hk as (Hw & Hnone & Hsome). destruct x as [bytes|].
  - destruct Ha as (_ & id & Hid & Hn & ->). exists (Drawn id). split; [by apply Hsome|].
    split; [by constructor|]. split; [|done]. split; [done|]. intros record Hr. exfalso. eauto.
  - subst given'. exists tk. split; [done|]. by split; [constructor|].
Qed.
(** ** What a command says

    Seen from a command: the registry, in which only what has ended stays, and the tasks spawned so
    far. *)
Record desk := MkDesk { ds_registry : Registry; ds_tasks : list task }.
Definition lasts (registry registry' : Registry) : Prop :=
  ∀ id record, registry !! id = Some record → terminal record = true → registry' !! id = Some record.
Definition grows (d d' : desk) : Prop :=
  ds_tasks d ⊆ ds_tasks d' ∧ lasts (ds_registry d) (ds_registry d').
#[export] Instance grows_preorder : PreOrder grows.
Proof.
  split; [intros d; by split; [|intros id]|]. intros d1 d2 d3 [Ht1 Hr1] [Ht2 Hr2]. split; [by transitivity (ds_tasks d2)|].
  intros id record Hr Ht. by apply Hr2, Ht; apply Hr1.
Qed.

(** Others go on before and after every call. *)
Definition desk_does {X} (c : dcall X) (d : desk) : X → desk → Prop :=
  match c in daemon_call _ _ X return X → desk → Prop with
  | Locked f => λ x d', ∃ d1, grows d d1 ∧ grows d1 d' ∧
      (x = None ∨ x = Some (fst (f (ds_registry d1))))
  | Spawn t => λ _ d', grows d d' ∧ t ∈ ds_tasks d'
  | Panicked | StillDownloading => λ _ _, False
  | _ => λ _ d', grows d d'
  end.
#[local] Instance desk_world : World dcall desk := @desk_does.

Definition layout_of (params : AddParams) : StorageLayout :=
  MkLayout (match ap_target params with Some target => os_str target | None => cf_target_dir config end)
    (cf_journal_dir config).

(** An identity that was given out has its task; a completion that was reported is on record. *)
Definition right (request : Request) (response : Response) (d : desk) : Prop :=
  answers (Client.Client.kind_of request) response = true ∧
  match request, response with
  | DownloadAdd params, Added added => ∃ t, t ∈ ds_tasks d ∧ tr_id t = sr_id added ∧
      url_parse (expose (ap_url params)) = Some (tr_url t) ∧ tr_layout t = layout_of params
  | DownloadGet params, DownloadResponse view => dv_state view = Completed →
      ds_registry d !! ip_id params =
        Some (MkRecord Completed (dv_covered view) (dv_total view) (dv_error_kind view))
  | _, _ => True
  end.

Lemma right_grows request response d d' : grows d d' → right request response d → right request response d'.
Proof.
  intros [Ht Hr] [Hk Hd]. split; [done|].
  destruct request, response; try done.
  - destruct Hd as (t & Hin & Hd). exists t. split; [by apply Ht|done].
  - intros Hc. by apply Hr; [apply Hd|].
Qed.

Lemma desk_stable (p : prog dcall Response) request d d' :
  grows d d' → wp p (right request) (λ _, True) d → wp p (right request) (λ _, True) d'.
Proof.
  intros Hg. destruct p as [response|X c k]; cbn.
  - intros [_ Hp]. split; [done|]. by eapply right_grows.
  - intros [_ Hp]. split; [done|]. intros x w Hd. apply Hp. destruct c; cbn in *; try done.
    all: try (by etransitivity). 
    + destruct Hd as (d1 & Hg1 & Hd). exists d1. split; [by etransitivity|done].
    + destruct Hd as [Hg1 Hin]. split; [by etransitivity|done].
Qed.

Lemma accept_right params url d :
  url_parse (expose (ap_url params)) = Some url →
  wp (accept (N := announced Url Mime N) config params url) (right (DownloadAdd params)) (λ _, True) d.
Proof.
  intros Hurl. apply prog_bind, prog_call; [done|]. intros entropy d1 _. split; [done|].
  destruct (fresh_download_id entropy) as [[id|message]|]; [|by apply prog_ret|].
  - apply prog_bind, prog_call; [done|]. intros [u|] d2 _; (split; [done|]); [|by apply prog_ret].
    apply prog_bind, prog_call; [done|]. intros u' d3 [_ Hin]. split; [done|]. apply prog_ret; [done|].
    split; [done|]. by eexists.
  - split; [done|]. intros [].
Qed.

Lemma handler_right request d : wp (handler request) (right request) (λ _, True) d.
Proof.
  destruct request as [p|p|p|p|p]; [by apply prog_ret|..].
  - cbn. unfold add. destruct (url_parse _) as [url|] eqn:Hurl; [|by apply prog_ret].
    destruct (negb (is_http url)); [by apply prog_ret|].
    destruct (ao_connections _) as [n|]; [|by apply accept_right].
    destruct (n =? 0); [by apply prog_ret|].
    destruct (n =? 1); [by apply accept_right|by apply prog_ret].
  - apply prog_bind, prog_call; [done|]. intros x d' (d1 & _ & Hg & Hx). split; [done|].
    destruct Hx as [->| ->]; [by apply prog_ret|]. cbn [fst].
    destruct (ds_registry d1 !! ip_id p) as [record|] eqn:E; [|by apply prog_ret].
    apply prog_ret; [done|]. split; [done|]. cbn. intros Hc. apply Hg; [|done].
    rewrite E. destruct record. cbn in *. by subst.
  - by apply prog_ret.
  - apply prog_bind, prog_call; [done|]. intros [[active queued]|] d1 _; (split; [done|]); [|by apply prog_ret].
    apply prog_bind, prog_call; [done|]. intros uptime d2 _. split; [done|]. by apply prog_ret.
Qed.

(** ** What a task does in its place *)

(** Other tasks may go on. *)
Lemma place_stable id {A} (p : prog dcall A) Q (S : place → Prop) registry registry' (s : site) :
  (∀ a r r' s, r' !! id = r !! id → Q a (MkPlace r s) → Q a (MkPlace r' s)) →
  (∀ r r' s, r' !! id = r !! id → S (MkPlace r s) → S (MkPlace r' s)) →
  registry' !! id = registry !! id →
  wp (H := place_world id) p Q S (MkPlace registry s) →
  wp (H := place_world id) p Q S (MkPlace registry' s).
Proof.
  intros HQ HS. revert registry registry' s. induction p as [a|X c k IH]; intros registry registry' s Hr;
    intros [Hstop Hp]; (split; [by eapply HS|]); [by eapply HQ|].
  intros x w' Hd. destruct c as [|Y f|t| |mode|Y e|q| |]; cbn in Hd; try done.
  all: try (subst w'; eapply IH; [exact Hr|]; by apply Hp).
  - apply Hp. destruct Hd as (r & Hr' & Hd). exists r. split; [|done]. by rewrite Hr'.
  - destruct Hd as [Hr' Hd], w' as [r s']. cbn in *. subst r. eapply IH; [exact Hr|].
    by apply (Hp x (MkPlace registry s')).
  - destruct Hd as [-> Hd]. eapply IH; [exact Hr|]. by apply Hp.
Qed.

Lemma honest_stable id layout r r' (s : site) : r' !! id = r !! id →
  honest id layout (MkPlace r s) → honest id layout (MkPlace r' s).
Proof. unfold honest, entry. cbn. by intros ->. Qed.

(** An answer of the machine is one of the place. *)
Lemma place_answer {X} (c : dcall X) id registry poisoned given x registry' given' spawned s s' :
  answer (backend := announcing backend) windows policy reprobe c registry poisoned given x
    registry' given' spawned →
  on_site c s x s' →
  does (World := place_world id) c (MkPlace registry s) x (MkPlace registry' s').
Proof.
  intros Ha Hs. destruct c as [|Y f|t| |mode|Y e|q| |]; cbn in *; try done.
  all: try (destruct Ha as [-> _]; by subst s').
  - destruct Ha as (_ & _ & Ha). exists registry. split; [done|].
    subst s'. destruct poisoned; destruct Ha as [-> ->]; [by left|by right].
  - by destruct Ha as [-> _].
  - destruct Ha as [-> _], Hs as [-> Hs]. by split.
Qed.
(** ** The invariant *)

Definition tasks_of (threads : list thread) : list task :=
  omap (λ th, match th with Running t _ => Some t | Serving _ _ => None end) threads.

Lemma elem_of_tasks_of t threads : t ∈ tasks_of threads ↔ ∃ p, Running t p ∈ threads.
Proof.
  unfold tasks_of. rewrite list_elem_of_omap. split.
  - intros ([request p|t' p] & Hin & [= ->]). by exists p.
  - intros [p Hin]. by exists (Running t p).
Qed.

Definition holds_ticket (tk : ticket) (th : thread) : Prop :=
  match th with
  | Serving _ p => keeps tk p ∧ ∀ id, tk ≠ Working id
  | Running t p => keeps tk p ∧ tk = Working (tr_id t)
  end.

(** A task leaves its download honest, wherever it is; a command answers right. *)
Definition behaves (registry : Registry) (sites : DownloadId → site) (employed : list task) (th : thread) : Prop :=
  match th with
  | Serving request p => wp p (right request) (λ _, True) (MkDesk registry employed)
  | Running t p => wp (H := place_world (tr_id t)) p
      (λ _, honest (tr_id t) (tr_layout t)) (honest (tr_id t) (tr_layout t))
      (MkPlace registry (sites (tr_id t)))
  end.

Definition unused (s : site) : Prop := st_log s = [] ∧ st_sleeps s = 0.

Record safe_with (registry : Registry) (given : gset DownloadId) (sites : DownloadId → site)
    (threads : list thread) (tickets : list ticket) : Prop := {
  sf_tickets : Forall2 holds_ticket tickets threads;
  sf_apart : NoDup (omap ticket_id tickets);
  sf_drawn : ∀ id, id ∈ omap ticket_id tickets → id ∈ given;
  sf_fresh : Forall (fresh registry) tickets;
  sf_given : ∀ id, is_Some (registry !! id) → id ∈ given;
  sf_behaves : Forall (behaves registry sites (tasks_of threads)) threads;
  sf_unused : ∀ id, (∀ t, t ∈ tasks_of threads → tr_id t ≠ id) → unused (sites id);
}.
Definition safe (m : machine) : Prop :=
  sound (erase m) ∧
  ∃ tickets, safe_with (mc_registry m) (mc_given m) (mc_sites m) (mc_threads m) tickets.

Lemma tasks_of_step l th th' r hs : 
  (∀ t, (∃ p, th = Running t p) ↔ (∃ p, th' = Running t p)) →
  tasks_of (l ++ th' :: r ++ hs) = tasks_of (l ++ th :: r) ++ tasks_of hs.
Proof.
  intros Ht. unfold tasks_of. rewrite !omap_app. cbn. rewrite omap_app.
  destruct th as [request p|t p], th' as [request' p'|t' p'].
  - by rewrite <- app_assoc.
  - destruct (proj2 (Ht t') (ex_intro _ p' eq_refl)) as [? [=]].
  - destruct (proj1 (Ht t) (ex_intro _ p eq_refl)) as [? [=]].
  - destruct (proj1 (Ht t) (ex_intro _ p eq_refl)) as [? [= <- _]]. cbn. by rewrite <- app_assoc.
Qed.

Lemma tasks_of_hired X (c : dcall X) : tasks_of (hired c) = hires c.
Proof. by destruct c. Qed.

(** A terminal record stays. *)
Lemma evolves_lasts (registry registry' : Registry) : evolves registry registry' → lasts registry registry'.
Proof.
  intros He id record Hr Ht. destruct He as [r|r i Hn|r i old new Ho [_ Hm]]; [done|..].
  - rewrite lookup_insert_ne; [done|]. intros ->. by rewrite Hn in Hr.
  - rewrite lookup_insert_ne; [done|]. intros ->. rewrite Hr in Ho. injection Ho as ->.
    unfold terminal in Ht. by destruct (dr_state old).
Qed.

(** Any other thread goes on as before. *)
Lemma others_behave registry registry' sites sites' employed employed' lt tk rt l th r other :
  Forall2 holds_ticket (lt ++ tk :: rt) (l ++ th :: r) → length lt = length l →
  NoDup (omap ticket_id (lt ++ tk :: rt)) →
  grows (MkDesk registry employed) (MkDesk registry' employed') →
  (∀ id, ticket_id tk ≠ Some id → registry' !! id = registry !! id) →
  (∀ id, ticket_id tk ≠ Some id → sites' id = sites id) →
  other ∈ l ++ r → behaves registry sites employed other → behaves registry' sites' employed' other.
Proof.
  intros Hh Hlen Hnd Hg Hreg Hsites Hin.
  apply Forall2_app_inv in Hh as [Hl Hr]; [|done]. inversion Hr as [|? ? ? ? _ Hr']; subst.
  assert (Ho : Forall2 holds_ticket (lt ++ rt) (l ++ r)) by by apply Forall2_app.
  apply list_elem_of_lookup in Hin as [i Hi].
  destruct (Forall2_lookup_r _ _ _ _ _ Ho Hi) as (tk' & Htk & Hh).
  destruct other as [request p|t p]; cbn; [by apply desk_stable|].
  destruct Hh as [_ ->]. apply list_elem_of_lookup_2 in Htk.
  assert (Hne : ticket_id tk ≠ Some (tr_id t)).
  { intros Heq. by eapply (omap_apart ticket_id lt tk rt (Working (tr_id t))). }
  rewrite Hsites by done. apply place_stable; [|by apply honest_stable|by apply Hreg].
  intros _. by apply honest_stable.
Qed.
Lemma passes_tickets X (c : dcall X) given given' lt tk rt tk' :
  passes c given given' tk tk' →
  NoDup (omap ticket_id (lt ++ tk :: rt)) → (∀ id, id ∈ omap ticket_id (lt ++ tk :: rt) → id ∈ given) →
  let tickets := lt ++ tk' :: rt ++ ((λ t, Working (tr_id t)) <$> hires c) in
  NoDup (omap ticket_id tickets) ∧ (∀ id, id ∈ omap ticket_id tickets → id ∈ given').
Proof.
  intros Hp Hnd Hin tickets. unfold tickets. rewrite !omap_app in *. cbn in *.
  destruct Hp as [tk Hc ->|tk id Hc _ Hn ->|t Hc ->]; rewrite Hc, omap_app; cbn [fmap list_fmap omap list_omap ticket_id];
    rewrite ?app_nil_r; [done|..].
  - assert (Hsub : ∀ i, i ∈ omap ticket_id lt ++ omap ticket_id rt → i ∈ given).
    { intros i Hi. apply Hin. destruct (ticket_id tk); set_solver. }
    split; [|set_solver]. rewrite <- Permutation_middle. apply NoDup_cons.
    split; [intros Hi; by apply Hn, Hsub|].
    destruct (ticket_id tk); [|done]. rewrite <- Permutation_middle in Hnd. by apply NoDup_cons in Hnd as [_ ?].
  - cbn [ticket_id] in *. split; [by rewrite (Permutation_app_comm (omap ticket_id rt))|set_solver].
Qed.

Lemma fresh_others registry registry' tk other :
  (∀ id, ticket_id tk ≠ Some id → registry' !! id = registry !! id) →
  (∀ id, ticket_id tk = Some id → ticket_id other ≠ Some id) →
  fresh registry other → fresh registry' other.
Proof.
  intros Hr Ho Hf. destruct other as [|id|id]; try done. cbn in *. rewrite Hr; [done|].
  intros Heq. by apply (Ho id).
Qed.

(** A new task starts well. *)
Lemma hired_behaves registry sites employed t :
  0 ≤ Retry.max_retries policy < u32_max →
  fresh registry (Drawn (tr_id t)) → unused (sites (tr_id t)) →
  behaves registry sites employed (Running t (body t)).
Proof.
  intros Hmax Hf [Hlog Hsleeps]. cbn. by apply transfer_wp.
Qed.

(** Nobody works yet on a download that was only drawn. *)
Lemma drawn_unemployed lt id rt threads t :
  Forall2 holds_ticket (lt ++ Drawn id :: rt) threads → NoDup (omap ticket_id (lt ++ Drawn id :: rt)) →
  t ∈ tasks_of threads → tr_id t ≠ id.
Proof.
  intros Hh Hnd [p Hin]%elem_of_tasks_of Heq. apply list_elem_of_lookup in Hin as [i Hi].
  destruct (Forall2_lookup_r _ _ _ _ _ Hh Hi) as (tk & Htk & _ & ->). subst id.
  apply list_elem_of_lookup_2 in Htk.
  apply (omap_apart ticket_id lt (Drawn (tr_id t)) rt (Working (tr_id t)) (tr_id t)); try done.
  set_solver.
Qed.

Lemma call_grows registry registry' employed X (c : dcall X) : lasts registry registry' →
  grows (MkDesk registry employed) (MkDesk registry' (employed ++ hires c)).
Proof. intros Hl. split; [set_solver|exact Hl]. Qed.

(** *** One thread makes one call

    [th] becomes [th'] and its ticket [tk] becomes [tk']. *)
Section one_call.
Context (registry registry' : Registry) (given given' : gset DownloadId) (sites sites' : DownloadId → site).
Context (l r : list thread) (th th' : thread) (lt rt : list ticket) (tk tk' : ticket).
Context {X : Type} (c : dcall X).
Hypothesis Hs : safe_with registry given sites (l ++ th :: r) (lt ++ tk :: rt).
Hypothesis Hl : Forall2 holds_ticket lt l.
Hypothesis Hr : Forall2 holds_ticket rt r.
Hypothesis Htk : holds_ticket tk th.
Hypothesis Htk' : holds_ticket tk' th'.
Hypothesis Hp : passes c given given' tk tk'.
Hypothesis Hf : fresh registry' tk ∧ fresh registry' tk'.
Hypothesis Hreg : ∀ id, ticket_id tk ≠ Some id → registry' !! id = registry !! id.
Hypothesis Hsites : ∀ id, (∀ t p, th = Running t p → tr_id t ≠ id) → sites' id = sites id.

Definition next_tickets : list ticket := lt ++ tk' :: rt ++ ((λ t, Working (tr_id t)) <$> hires c).
Definition employed : list task := tasks_of (l ++ th :: r).

Lemma call_tickets : Forall2 holds_ticket next_tickets (l ++ th' :: r ++ hired c) ∧
  NoDup (omap ticket_id next_tickets) ∧ (∀ id, id ∈ omap ticket_id next_tickets → id ∈ given') ∧
  Forall (fresh registry') next_tickets ∧ ∀ id, is_Some (registry' !! id) → id ∈ given'.
Proof.
  destruct Hs as [_ Hnd Hin Hfresh Hgiven _ _].
  destruct (passes_tickets _ _ _ _ _ _ _ _ Hp Hnd Hin) as [Hnd' Hin'].
  split; [|split; [done|split; [done|split]]].
  - apply Forall2_app; [done|]. constructor; [done|]. apply Forall2_app; [done|].
    unfold hired. destruct c; cbn; constructor; [|constructor]. by split; [apply transfer_keeps|].
  - assert (Hother : ∀ tks, tks ⊆ lt ++ rt → Forall (fresh registry) tks → Forall (fresh registry') tks).
    { intros tks Htks Hall. apply Forall_forall. intros o Ho. eapply fresh_others; [exact Hreg| |].
      - intros id Hid. eapply omap_apart; [exact Hnd|done|by apply Htks].
      - by eapply Forall_forall in Hall. }
    apply Forall_app in Hfresh as [Hfl Hfr]. apply Forall_cons in Hfr as [_ Hfr].
    apply Forall_app. split; [apply Hother; [set_solver|done]|]. constructor; [apply Hf|].
    apply Forall_app. split; [apply Hother; [set_solver|done]|]. by apply Forall_fmap, Forall_true.
  - assert (Hsub : given ⊆ given') by (destruct Hp; set_solver).
    intros id Hid. destruct (decide (ticket_id tk = Some id)) as [Heq|Hne].
    + apply Hsub, Hin. rewrite omap_app. cbn. rewrite Heq. set_solver.
    + rewrite Hreg in Hid by done. by apply Hsub, Hgiven.
Qed.

Hypothesis Hmax : 0 ≤ Retry.max_retries policy < u32_max.
Hypothesis Hsame : ∀ t, (∃ p, th = Running t p) ↔ (∃ p, th' = Running t p).
Hypothesis Hlasts : lasts registry registry'.
Hypothesis Hth : behaves registry sites employed th → behaves registry' sites' (employed ++ hires c) th'.

Lemma call_tasks : tasks_of (l ++ th' :: r ++ hired c) = employed ++ hires c.
Proof. rewrite (tasks_of_step _ th), tasks_of_hired; done. Qed.

Lemma call_behaves :
  Forall (behaves registry' sites' (employed ++ hires c)) (l ++ th' :: r ++ hired c).
Proof.
  destruct Hs as [Hh Hnd _ _ _ Hb Hun].
  assert (Hother : ∀ ths, ths ⊆ l ++ r → Forall (behaves registry sites employed) ths →
    Forall (behaves registry' sites' (employed ++ hires c)) ths).
  { intros ths Hths Hall. apply Forall_forall. intros o Ho. eapply Forall_forall in Hall; [|exact Ho].
    eapply others_behave; [exact Hh|by eapply Forall2_length|done|by apply call_grows|done| |by apply Hths|done].
    intros id Hid. apply Hsites. intros t p -> Heq. destruct Htk as [_ ->]. by subst id. }
  apply Forall_app in Hb as [Hbl Hbr]. apply Forall_cons in Hbr as [Hbth Hbr].
  apply Forall_app. split; [apply Hother; [set_solver|done]|].
  constructor; [by apply Hth|]. apply Forall_app. split; [apply Hother; [set_solver|done]|].
  unfold hired. apply Forall_fmap, Forall_forall. intros t Ht. destruct Hf as [Hf1 _].
  destruct Hp as [? Hc|? ? Hc|t' Hc]; rewrite Hc in Ht; [set_solver..|].
  apply list_elem_of_singleton in Ht as ->. apply hired_behaves; [done..|].
  rewrite Hsites; [|by intros t p ->; destruct Htk].
  apply Hun. intros t Ht. by eapply drawn_unemployed.
Qed.

Lemma safe_call : safe_with registry' given' sites' (l ++ th' :: r ++ hired c) next_tickets.
Proof.
  destruct call_tickets as (Hh & Hnd & Hin & Hfresh & Hgiven). split; try done.
  - rewrite call_tasks. apply call_behaves.
  - rewrite call_tasks. intros id Hid. rewrite Hsites.
    + apply (sf_unused _ _ _ _ _ Hs). intros t Ht. apply Hid. set_solver.
    + intros t p ->. apply Hid, elem_of_app. left. apply elem_of_tasks_of. exists p. set_solver.
Qed.
End one_call.

Definition desk_of (m : machine) : desk := MkDesk (mc_registry m) (tasks_of (mc_threads m)).

Lemma desk_answer {X} (c : dcall X) registry poisoned given x registry' given' spawned employed :
  answer (backend := announcing backend) windows policy reprobe c registry poisoned given x
    registry' given' spawned →
  let d := MkDesk registry employed in let d' := MkDesk registry' (employed ++ hires c) in
  grows d d' → does c d x d'.
Proof.
  intros Ha d d' Hg. destruct c as [|Y f|t| |mode|Y e|q| |]; cbn in Ha |- *; try done.
  - exists d. split; [done|]. split; [done|]. destruct Ha as (_ & _ & Ha).
    destruct poisoned; destruct Ha as [-> _]; auto.
  - split; [done|]. set_solver.
Qed.

Lemma safe_arrives registry given sites threads tickets request :
  safe_with registry given sites threads tickets →
  safe_with registry given sites (threads ++ [Serving request (handler request)]) (tickets ++ [Idle]).
Proof.
  assert (Ht : tasks_of (threads ++ [Serving request (handler request)]) = tasks_of threads).
  { unfold tasks_of. rewrite omap_app. apply app_nil_r. }
  assert (Ho : omap ticket_id (tickets ++ [Idle]) = omap ticket_id tickets).
  { rewrite omap_app. apply app_nil_r. }
  intros [Hh Hnd Hin Hf Hg Hb Hu]. split; rewrite ?Ho, ?Ht; try done.
  - apply Forall2_app; [done|]. constructor; [|done]. split; [apply handler_keeps|done].
  - apply Forall_app. by repeat constructor.
  - apply Forall_app. split; [done|]. constructor; [apply handler_right|done].
Qed.

Lemma safe_serves registry poisoned given sites l request X (c : dcall X) k r x registry' given' spawned
    tickets : 0 ≤ Retry.max_retries policy < u32_max →
  answer (backend := announcing backend) windows policy reprobe c registry poisoned given x
    registry' given' spawned → lasts registry registry' →
  safe_with registry given sites (l ++ Serving request (Vis c k) :: r) tickets →
  ∃ tickets', safe_with registry' given' sites (l ++ Serving request (k x) :: r ++ hired c) tickets'.
Proof.
  intros Hmax Ha Hlast Hs. pose proof (sf_tickets _ _ _ _ _ Hs) as Hh.
  apply Forall2_app_inv_r in Hh as (lt & rest & Hl & Hr & ->).
  apply Forall2_cons_inv_r in Hr as (tk & rt & [Hk Hw] & Hr & ->).
  pose proof (sf_fresh _ _ _ _ _ Hs) as Hf. apply Forall_app in Hf as [_ Hf].
  apply Forall_cons in Hf as [Hf _].
  destruct (keeps_answer _ _ _ _ _ _ _ _ _ _ Ha Hk Hf (sf_given _ _ _ _ _ Hs))
    as (tk' & Hk' & Hp & Hf' & Hreg).
  eexists. eapply safe_call; try done.
  - split; [done|]. by destruct Hp.
  - intros t. by split; intros [? [=]].
  - intros [_ Hb]. apply Hb. eapply desk_answer; [done|by apply call_grows].
Qed.

Lemma safe_runs registry poisoned given sites l t X (c : dcall X) k r x registry' given' spawned s'
    tickets : 0 ≤ Retry.max_retries policy < u32_max →
  answer (backend := announcing backend) windows policy reprobe c registry poisoned given x
    registry' given' spawned → lasts registry registry' → on_site c (sites (tr_id t)) x s' →
  safe_with registry given sites (l ++ Running t (Vis c k) :: r) tickets →
  ∃ tickets', safe_with registry' given' (λ id, if decide (id = tr_id t) then s' else sites id)
    (l ++ Running t (k x) :: r ++ hired c) tickets'.
Proof.
  intros Hmax Ha Hlast Hd Hs. pose proof (sf_tickets _ _ _ _ _ Hs) as Hh.
  apply Forall2_app_inv_r in Hh as (lt & rest & Hl & Hr & ->).
  apply Forall2_cons_inv_r in Hr as (tk & rt & [Hk ->] & Hr & ->).
  destruct (keeps_answer _ _ _ _ _ _ _ _ _ _ Ha Hk I (sf_given _ _ _ _ _ Hs))
    as (tk' & Hk' & Hp & Hf' & Hreg).
  assert (Htk' : tk' = Working (tr_id t)).
  { inversion Hp as [| ? ? ? Hno|]; [done|by destruct (Hno (tr_id t))]. }
  eexists. eapply safe_call; try done.
  - intros id Hid. rewrite decide_False; [done|]. intros ->. by eapply Hid.
  - intros t'. split; intros [? [= <- _]]; by eexists.
  - intros [_ Hb]. cbn. rewrite decide_True by done. apply Hb. by eapply place_answer.
Qed.

Lemma safe_works registry given sites l t A X (op : storage_op X) (kp : X → prog storage_op A) k r x d
    tickets : 0 ≤ Retry.max_retries policy < u32_max →
  does op (st_disk (sites (tr_id t))) x d →
  safe_with registry given sites (l ++ Running t (Vis (blocking (Vis op kp)) k) :: r) tickets →
  ∃ tickets', safe_with registry given
    (λ id, if decide (id = tr_id t) then with_disk (sites (tr_id t)) d else sites id)
    (l ++ Running t (Vis (blocking (kp x)) k) :: r) tickets'.
Proof.
  intros Hmax Hd Hs. pose proof (sf_tickets _ _ _ _ _ Hs) as Hh.
  apply Forall2_app_inv_r in Hh as (lt & rest & Hl & Hr & ->).
  apply Forall2_cons_inv_r in Hr as (tk & rt & [Hk ->] & Hr & ->). eexists.
  rewrite <- (app_nil_r r). apply (safe_call registry registry given given sites _ l r
    (Running t (Vis (blocking (Vis op kp)) k)) _ lt rt (Working (tr_id t)) (Working (tr_id t)) Elapsed); try done.
  - by constructor.
  - intros id Hid. rewrite decide_False; [done|]. intros ->. by eapply Hid.
  - intros t'. split; intros [? [= <- _]]; by eexists.
  - by intros id.
  - intros [_ Hb]. cbn. rewrite decide_True by done.
    assert (Hgo : ∀ o w, exec (kp x) d w o → wp (H := place_world (tr_id t)) (k o)
      (λ _, honest (tr_id t) (tr_layout t)) (honest (tr_id t) (tr_layout t))
      (MkPlace registry (with_disk (sites (tr_id t)) w))).
    { intros o w Hx. apply Hb. split; [done|]. exists w. split; [|done]. by eapply exec_call. }
    split; [by eapply prog_stop, Hgo, exec_stopped|].
    intros o [registry' s'] [Hreg (w & Hx & Hw)]. cbn in Hreg, Hw, Hx. subst. by apply Hgo.
Qed.

Lemma step_lasts m m' : step m m' → sound (erase m) →
  sound (erase m') ∧ lasts (mc_registry m) (mc_registry m').
Proof.
  intros Hstep%erase_step Hs. destruct (sound_step _ _ _ _ _ _ _ Hstep Hs) as [? Hev].
  split; [done|]. by apply evolves_lasts.
Qed.

Lemma safe_step m m' : 0 ≤ Retry.max_retries policy < u32_max → step m m' → safe m → safe m'.
Proof.
  intros Hmax Hstep [Hsound [tickets Hs]]. destruct (step_lasts _ _ Hstep Hsound) as [Hsound' Hlast].
  split; [done|]. destruct Hstep; cbn in *.
  - eexists. by apply safe_arrives.
  - by eapply safe_serves.
  - by eapply safe_runs.
  - by eapply safe_works.
  - by exists tickets.
Qed.

Lemma safe_reachable sites m : 0 ≤ Retry.max_retries policy < u32_max →
  (∀ id, unused (sites id)) → rtc step (opened sites) m → safe m.
Proof.
  intros Hmax Hun Hr. assert (Hstart : safe (opened sites)).
  { split; [by eapply sound_reachable, (erase_run sites)|].
    exists []. split; cbn; try done; try constructor.
    - intros id Hid. set_solver.
    - intros id Hid. rewrite lookup_empty in Hid. by destruct Hid. }
  revert Hstart. induction Hr as [|m1 m2 m3 Hstep _ IH]; intros Hstart; [done|].
  apply IH. by eapply safe_step.
Qed.

(** A task's download is honest. *)
Lemma safe_honest m t p : safe m → Running t p ∈ mc_threads m →
  honest (tr_id t) (tr_layout t) (MkPlace (mc_registry m) (mc_sites m (tr_id t))).
Proof.
  intros [_ [tickets Hs]] Hin. pose proof (sf_behaves _ _ _ _ _ Hs) as Hb.
  eapply Forall_forall in Hb; [|exact Hin]. by apply prog_stop in Hb.
Qed.
Lemma safe_right m d : safe m → replied m d → right (fst d) (snd d) (desk_of m).
Proof.
  intros [_ [tickets Hs]] Hin. pose proof (sf_behaves _ _ _ _ _ Hs) as Hb.
  eapply Forall_forall in Hb; [|exact Hin]. by destruct Hb.
Qed.
(** Nobody is dismissed, nothing that was said forgotten, and what has ended stays. *)
Lemma step_employs m m' : step m m' → tasks_of (mc_threads m) ⊆ tasks_of (mc_threads m').
Proof.
  intros Hstep t. rewrite !elem_of_tasks_of.
  destruct Hstep; cbn; intros [p' Hin]; try (exists p'; set_solver);
    (apply elem_of_app in Hin as [Hin|[Heq|Hin]%elem_of_cons];
     [exists p'; set_solver|injection Heq as -> _; eexists; apply elem_of_app; right; by left
     |exists p'; set_solver]).
Qed.

Lemma call_remembers {X} (c : dcall X) (s : site) x s' :
  on_site c s x s' → Footprint.Footprint.remembers s s'.
Proof.
  destruct c; cbn; intros Hd; try (destruct_and?; subst; apply Footprint.Footprint.remembers_refl).
  by eapply Footprint.Footprint.site_remembers.
Qed.

Lemma step_remembers m m' i :
  step m m' → Footprint.Footprint.remembers (mc_sites m i) (mc_sites m' i).
Proof.
  destruct 1 as [| |registry poisoned given sites l t X c k r x registry' given' spawned s' _ Hs| |]; cbn;
    [done|done| | |done]; (case_decide as Hi; [subst i|done]); [by eapply call_remembers|done].
Qed.

Lemma run_grows m m' : 0 ≤ Retry.max_retries policy < u32_max →
  rtc step m m' → safe m → safe m' ∧ grows (desk_of m) (desk_of m').
Proof.
  intros Hmax. induction 1 as [m|m1 m2 m3 Hstep _ IH]; intros Hs; [done|].
  destruct (step_lasts _ _ Hstep (proj1 Hs)) as [_ Hlast].
  destruct IH as [Hs' Hg]; [by eapply safe_step|]. split; [done|]. etransitivity; [|exact Hg].
  split; [by apply step_employs|exact Hlast].
Qed.
End machine.
End System.
