(* ===== verification/Shared.v ===== *)
(** * The whole program over one directory: from the client's success to the file

    The downloads of [System] work in one directory, operation by operation.  Each one abides by its
    own names, so as long as no two downloads lay claim to one name, every run is also a run in
    which each has a directory of its own; what holds of those holds here. *)

From S2P Require Import Prelude Io Str PartFile Writer Remote Completion Effects Http Retry.
From S2P Require Import StorageSink Download Footprint Ipc Transport Daemon Client System.
From Stdlib Require Import String.
From stdpp Require Import list gmap.
#[local] Open Scope Z_scope.

Module Shared.
#[local] Notation path := PartFile.PartFile.path.
Import Io.Io Str.Str Completion.Completion Effects.Effects Ipc.Ipc StorageSink.StorageSink.
Import Download.Download Footprint.Footprint Daemon.Daemon System.System.

Section machine.
Context {Url Mime : Type} {N : Type → Type} {D J : Type}.
Context `{backend : Http.Http.TransferProtocol Url Mime N, !UrlText Url, !UrlParse Url}.
Context `{Retry.HttpDate, EqDecision Url}.
Context `{Checksum, Digest, Os, Completion.Completion.ServerDigests} `{Writer.Writer.DurableDataLaws D}
  `{!Writer.Writer.DurableJournal J} `{!Writer.Writer.DurableJournalLaws J}.
Context (windows : bool) (policy : Retry.RetryPolicy) (reprobe : Retry.ReprobePolicy).
Context (daemon_version : str) (config : TransferConfig).
Notation dcall := (daemon_call Url (announced Url Mime N)).
Notation site := (site Url Mime D J).
Notation task := (Transfer Url).
Notation RemoteObject := (Remote.Remote.RemoteObject (Url := Url) (Mime := Mime)).
Notation body := (transfer (backend := announcing backend) windows policy reprobe).
Notation machine := (machine (Url := Url) (Mime := Mime) (N := N) (D := D) (J := J)).
Notation alone := (step (backend := backend) (Mime := Mime) (D := D) (J := J) windows policy reprobe
  daemon_version config).

(** ** The machine

    After every step the directory of the download that moved is the directory of all. *)
Definition in_directory (files : directory) (s : site) : site :=
  MkSite (put_files (st_disk s) files) (st_log s) (st_sleeps s) (st_free s).
Definition files_at (m : machine) (id : DownloadId) : directory := dk_files (st_disk (mc_sites m id)).
Definition publish (id : DownloadId) (m : machine) : machine :=
  MkMachine (mc_registry m) (mc_poisoned m) (mc_given m)
    (λ i, in_directory (files_at m id) (mc_sites m i)) (mc_threads m).

Inductive together : machine → machine → Prop :=
| together_moves m m1 id :
    alone m m1 → (∀ i, i ≠ id → mc_sites m1 i = mc_sites m i) → together m (publish id m1).

(** The daemon starts over a directory in which no download is in progress. *)
Definition new_site (files : directory) : site := MkSite (MkDisk files EmptyString None None None) [] 0 [].
Definition opened_over (files : directory) : machine := opened (λ _, new_site files).

(** The names a download claims: those of an object the server announced for it, once it found the
    name of the file free. *)
Definition told (m : machine) (id : DownloadId) (first : RemoteObject) : Prop :=
  Said (Ok first) ∈ st_log (mc_sites m id).
Definition owns (m : machine) (id : DownloadId) (q : path) : Prop :=
  ∃ t first, t ∈ tasks_of (mc_threads m) ∧ tr_id t = id ∧ told m id first ∧
    path_of (tr_layout t) first ∈ st_free (mc_sites m id) ∧ name_of (tr_layout t) any_name first q.
Definition apart (m : machine) : Prop := ∀ i j q, owns m i q → owns m j q → i = j.

(** ** A task abides by its names *)

Definition task_contract (layout : StorageLayout) (mine : path → Prop) (known : RemoteObject → Prop)
    : Contract dcall := {|
  demands X c :=
    match c with
    | Engine c => demands (Contract := calls_contract layout any_name mine known) c
    | FileLength p => mine p
    | _ => True
    end;
  grants X c :=
    match c in daemon_call _ _ X return X → Prop with
    | Engine c => grants (Contract := calls_contract layout any_name mine known) c
    | _ => λ _, True
    end;
|}.

Lemma transfer_abides t mine known :
  abides (H := task_contract (tr_layout t) mine known) (body t) (λ _, True).
Proof.
  split; [done|]. intros u _. cbn [bind]. split; [done|]. intros [] _; cbn [bind]; [|by split].
  eapply (abides_bind (H := task_contract (tr_layout t) mine known)).
  - apply (abides_translate (H := calls_contract (tr_layout t) any_name mine known)); [done..|].
    apply download_abides.
  - intros [[final|error]|] Hf; [|by split|by split].
    split; [by apply Hf|]. intros length _. by split.
Qed.

(** Calls of a task in the common directory, and in one of its own. *)
Lemma like_on_site {X} (c : dcall X) layout mine known (s t : site) x s' :
  claims_within layout any_name mine known s' → demands (Contract := task_contract layout mine known) c →
  like_site mine s t → on_site c s x s' →
  (∃ t', on_site c t x t' ∧ like_site mine s' t') ∧
  spares mine (dk_files (st_disk s)) (dk_files (st_disk s')) ∧
  grants (Contract := task_contract layout mine known) c x.
Proof.
  intros Hann Hd Hl Hx. assert (Hsame : ∀ f, spares mine f f) by (intros f q; by right).
  destruct c; cbn in Hx; try (subst s'; split; [by exists t|by split]).
  - by apply (like_engine layout).
  - destruct Hx as [-> Hx]. split; [|by split]. exists t. split; [split; [done|]|done].
    cbn in Hd. by rewrite (lk_files _ _ _ (proj1 Hl)).
Qed.

(** ** A run over one directory is a run over many

    [m] with the sites of [sites'] instead of its own. *)
Definition with_sites (m : machine) (sites' : DownloadId → site) : machine :=
  MkMachine (mc_registry m) (mc_poisoned m) (mc_given m) sites' (mc_threads m).

Section mirror.
Context (mine : DownloadId → path → Prop) (mine_apart : ∀ i j q, mine i q → mine j q → i = j).
Context (known : DownloadId → RemoteObject → Prop).
Notation contract_of t := (task_contract (tr_layout t) (mine (tr_id t)) (known (tr_id t))).

Definition abiding (threads : list (thread (Url := Url) (Mime := Mime) (N := N))) : Prop :=
  ∀ t p, Running t p ∈ threads → abides (H := contract_of t) p (λ _, True).

Record mirrors (m : machine) (sites' : DownloadId → site) : Prop := {
  mi_sites id : like_site (mine id) (mc_sites m id) (sites' id);
  mi_common i j : files_at m i = files_at m j;
  mi_abide : abiding (mc_threads m);
}.

(** What was claimed is in [mine]. *)
Definition all_within (m : machine) : Prop :=
  ∀ t, t ∈ tasks_of (mc_threads m) →
  claims_within (tr_layout t) any_name (mine (tr_id t)) (known (tr_id t)) (mc_sites m (tr_id t)).

Lemma in_same_directory files s : dk_files (st_disk s) = files → in_directory files s = s.
Proof. destruct s as [[] ? ?]. cbn. by intros <-. Qed.

(** One download moved, the others see its directory. *)
Lemma mirrors_publish m m1 id i0 sites' t' :
  mirrors m sites' → abiding (mc_threads m1) →
  (∀ i, i ≠ i0 → mc_sites m1 i = mc_sites m i) → (∀ i, i ≠ id → mc_sites m1 i = mc_sites m i) →
  like_site (mine i0) (mc_sites m1 i0) t' → spares (mine i0) (files_at m i0) (files_at m1 i0) →
  mirrors (publish id m1) (λ i, if decide (i = i0) then t' else sites' i).
Proof.
  intros [Hl Hc _] Ha Hi0 Hid Ht Hsp.
  assert (Hf : files_at m1 id = files_at m1 i0).
  { destruct (decide (i0 = id)) as [->|Hne]; [done|]. unfold files_at. rewrite (Hid i0 Hne), (Hi0 id) by done.
    apply Hc. }
  split; [|done|exact Ha]. intros i. cbn. rewrite Hf. case_decide as Hi; [subst i|].
  - by rewrite in_same_directory.
  - rewrite (Hi0 i Hi). destruct (Hl i) as ([Hn Hd Hp Hj Hfs Ho] & Hlog & Hsl). split; [|done].
    split; cbn; try done. intros q Hq. rewrite (Hfs q Hq).
    destruct (Hsp q) as [Hm|Hsame]; [by destruct Hi; eapply mine_apart|]. rewrite Hsame. by rewrite (Hc i0 i).
Qed.

Lemma mirrors_quiet m m1 id sites' :
  mirrors m sites' → abiding (mc_threads m1) → mc_sites m1 = mc_sites m →
  mirrors (publish id m1) sites'.
Proof.
  intros [Hl Hc _] Ha Hs. split; [|done|exact Ha]. intros i. cbn. unfold files_at. rewrite Hs.
  rewrite in_same_directory; [apply Hl|apply Hc].
Qed.

Lemma abiding_next l th th' r X (c : dcall X) :
  abiding (l ++ th :: r) → abiding [th'] →
  abiding (l ++ th' :: r ++ hired (backend := backend) windows policy reprobe c).
Proof.
  intros Ha Hn t p Hin. apply elem_of_app in Hin as [Hin|[Heq|[Hin|Hin]%elem_of_app]%elem_of_cons].
  - apply Ha. set_solver.
  - apply Hn. rewrite Heq. by left.
  - apply Ha. set_solver.
  - apply list_elem_of_fmap in Hin as (t' & [= -> ->] & _). apply transfer_abides.
Qed.

Lemma task_at l t (p : prog dcall unit) r : t ∈ tasks_of (l ++ Running t p :: r).
Proof. apply elem_of_tasks_of. exists p. set_solver. Qed.

Lemma abiding_at l t p r :
  abiding (l ++ Running t p :: r) → abides (H := contract_of t) p (λ _, True).
Proof. intros Ha. apply Ha. set_solver. Qed.

Lemma abiding_one t p :
  abides (H := contract_of t) p (λ _, True) → abiding [Running t p].
Proof. intros Hp t' p' [= -> ->]%list_elem_of_singleton. done. Qed.

(** A task makes a call at once. *)
Lemma mirror_runs registry poisoned given sites l t X (c : dcall X) k r x registry' given' spawned s' id sites' :
  let m := MkMachine registry poisoned given sites (l ++ Running t (Vis c k) :: r) in
  let m1 := MkMachine registry' poisoned given' (λ i, if decide (i = tr_id t) then s' else sites i)
    (l ++ Running t (k x) :: r ++ hired windows policy reprobe c) in
  answer (backend := announcing backend) windows policy reprobe c registry poisoned given x
    registry' given' spawned →
  on_site c (sites (tr_id t)) x s' → (∀ i, i ≠ id → mc_sites m1 i = mc_sites m i) →
  mirrors m sites' → all_within (publish id m1) →
  ∃ sites'', alone (with_sites m sites') (with_sites (publish id m1) sites'') ∧
    mirrors (publish id m1) sites''.
Proof.
  intros m m1 Ha Hx Hid Hm Hann. pose proof (mi_abide _ _ Hm) as Hab. cbn in Hab.
  pose proof (abiding_at _ _ _ _ Hab) as [Hd Hk].
  specialize (Hann t (task_at l t (k x) _)). cbn in Hann. rewrite decide_True in Hann by done.
  destruct (like_on_site c _ _ _ _ _ x s' Hann Hd (mi_sites _ _ Hm (tr_id t)) Hx)
    as ((t' & Hx' & Hl) & Hsp & Hg).
  exists (λ i, if decide (i = tr_id t) then t' else sites' i). split.
  - apply (step_runs windows policy reprobe daemon_version config _ _ _ _ _ _ _ _ _ _ _ _ _ spawned); done.
  - apply (mirrors_publish m); [done|..].
    + eapply abiding_next; [exact Hab|]. by apply abiding_one, Hk.
    + intros i Hi. cbn. by rewrite decide_False.
    + exact Hid.
    + cbn. by rewrite decide_True.
    + unfold files_at. cbn. by rewrite decide_True.
Qed.

(** Its blocking thread performs one operation. *)
Lemma mirror_works registry poisoned given sites l t A X (op : storage_op X) (kp : X → prog storage_op A) k r x d
    id sites' :
  let m := MkMachine registry poisoned given sites (l ++ Running t (Vis (blocking (Vis op kp)) k) :: r) in
  let m1 := MkMachine registry poisoned given
    (λ i, if decide (i = tr_id t) then with_disk (sites (tr_id t)) d else sites i)
    (l ++ Running t (Vis (blocking (kp x)) k) :: r) in
  does op (st_disk (sites (tr_id t))) x d → (∀ i, i ≠ id → mc_sites m1 i = mc_sites m i) →
  mirrors m sites' →
  ∃ sites'', alone (with_sites m sites') (with_sites (publish id m1) sites'') ∧
    mirrors (publish id m1) sites''.
Proof.
  intros m m1 Hx Hid Hm. pose proof (mi_abide _ _ Hm) as Hab. cbn in Hab.
  pose proof (abiding_at _ _ _ _ Hab) as [[Hin Hkp] Hk].
  destruct (mi_sites _ _ Hm (tr_id t)) as (Hl & Hlog & Hsl & Hfr). cbn in Hl, Hlog, Hsl, Hfr.
  destruct (op_spares _ op _ _ _ _ Hin Hl Hx) as (Hsp & _ & Hg).
  destruct (like_op _ op _ _ _ _ Hin Hl Hx) as (v' & Hx' & Hl').
  exists (λ i, if decide (i = tr_id t) then with_disk (sites' (tr_id t)) v' else sites' i). split.
  - by apply (step_works windows policy reprobe daemon_version config).
  - apply (mirrors_publish m); [done|..].
    + pose proof (abiding_next l _ (Running t (Vis (blocking (kp x)) k)) r _ Elapsed Hab) as Hnext.
      cbn in Hnext. rewrite app_nil_r in Hnext. apply Hnext, abiding_one.
      split; [by apply Hkp|]. intros o Ho. apply Hk. intros a Q Ha [_ HQ]. apply (Ho a Q Ha), HQ, Hg.
    + intros i Hi. cbn. by rewrite decide_False.
    + exact Hid.
    + cbn. rewrite decide_True by done. by split_and!.
    + unfold files_at. cbn. by rewrite decide_True.
Qed.

Lemma mirror_step m m' sites' :
  together m m' → mirrors m sites' → all_within m' →
  ∃ sites'', alone (with_sites m sites') (with_sites m' sites'') ∧ mirrors m' sites''.
Proof.
  intros [m0 m1 id Hstep Hid] Hm Hann. pose proof (mi_abide _ _ Hm) as Hab. destruct Hstep; cbn in Hab.
  - exists sites'. split; [apply step_arrives|]. eapply mirrors_quiet; [done| |done].
    intros t p [Hin|Hin]%elem_of_app; [by apply Hab|set_solver].
  - exists sites'. split; [by eapply step_serves|]. eapply mirrors_quiet; [done| |done].
    eapply abiding_next; [exact Hab|]. intros t p. set_solver.
  - by eapply mirror_runs.
  - by eapply mirror_works.
  - exists sites'. split; [apply step_poisons|]. by eapply mirrors_quiet.
Qed.

Lemma together_employs m m' : together m m' → tasks_of (mc_threads m) ⊆ tasks_of (mc_threads m').
Proof. intros [m0 m1 id Hstep _]. exact (step_employs _ _ _ _ _ _ _ Hstep). Qed.

Lemma together_remembers m m' i : together m m' → remembers (mc_sites m i) (mc_sites m' i).
Proof. intros [m0 m1 id Hstep _]. exact (step_remembers _ _ _ _ _ _ _ i Hstep). Qed.

Lemma all_before m m' : together m m' → all_within m' → all_within m.
Proof.
  intros Hstep Hann t Ht. eapply claims_before; [by apply together_remembers|].
  apply Hann. by eapply together_employs.
Qed.

Lemma mirrors_opened files : mirrors (opened_over files) (λ _, new_site files).
Proof.
  split; [intros id; split_and!; try done; split; auto|done|]. intros t p Hin. by apply elem_of_nil in Hin.
Qed.

Lemma mirror_run files m : rtc together (opened_over files) m → all_within m →
  ∃ sites', rtc alone (opened_over files) (with_sites m sites') ∧ mirrors m sites'.
Proof.
  intros Hr. pattern m. revert m Hr. apply rtc_ind_r; [intros Hann|intros m1 m2 _ Hstep IH Hann].
  - exists (λ _, new_site files). split; [constructor|apply mirrors_opened].
  - destruct (IH (all_before _ _ Hstep Hann)) as (sites1 & Hr1 & Hm1).
    destruct (mirror_step _ _ _ Hstep Hm1 Hann) as (sites2 & Hstep2 & Hm2).
    exists sites2. split; [by eapply rtc_r|done].
Qed.
End mirror.

(** The names claimed at the end serve from the start. *)
Lemma owned_run files m : rtc together (opened_over files) m → apart m →
  ∃ sites', rtc alone (opened_over files) (with_sites m sites') ∧ mirrors (owns m) (told m) m sites'.
Proof.
  intros Hr Ha. apply mirror_run; [exact Ha|exact Hr|].
  intros t Ht. split; [done|]. intros first q Htold Hfree Hq. by exists t, first.
Qed.

(** What the registry and the commands see does not depend on the files. *)
Lemma together_grows m m' : rtc together m m' → sound (erase m) →
  sound (erase m') ∧ grows (desk_of m) (desk_of m').
Proof.
  induction 1 as [m|m1 m2 m3 Hstep _ IH]; intros Hs; [by split|].
  pose proof (together_employs _ _ Hstep) as Hemp. destruct Hstep as [m1 m2 id Hstep _].
  destruct (step_lasts _ _ _ _ _ _ _ Hstep Hs) as [Hs' Hlast].
  destruct (IH Hs') as [Hs3 Hg]. split; [done|]. etransitivity; [|exact Hg]. by split.
Qed.

(** A file that was delivered in a directory of its own is there. *)
Lemma delivered_like layout record mine (s t : site) :
  like_site mine s t →
  (∀ first q, Said (Ok first) ∈ st_log s → path_of layout first ∈ st_free s →
     name_of layout any_name first q → mine q) →
  delivered layout record t → delivered layout record s.
Proof.
  intros (Hl & Hlog & _ & Hfr) Hown (first & final & Hin & -> & Hfree & Hdel). rewrite Hlog in Hin.
  rewrite Hfr in Hfree. exists first, (path_of layout first). do 3 (split; [done|]). intros total Htotal.
  destruct (Hdel total Htotal) as (content & outcome & j & seq & Hlen & Hjudged & Hj & Hseal & Hfile).
  exists content, outcome, j, seq. rewrite (lk_journal _ _ _ Hl) in Hj. do 4 (split; [done|]).
  intros Hne. destruct (Hfile Hne) as [Hc Hn]. split; [|done]. rewrite <- Hc. symmetry.
  apply (lk_files _ _ _ Hl), (Hown first); [done..|]. right. by auto.
Qed.

Lemma shared_delivered files m t p record :
  0 ≤ Retry.max_retries policy < u32_max → rtc together (opened_over files) m → apart m →
  Running t p ∈ mc_threads m → mc_registry m !! tr_id t = Some record → dr_state record = Completed →
  delivered (tr_layout t) record (mc_sites m (tr_id t)).
Proof.
  intros Hmax Hr Ha Hin Hrec Hc. destruct (owned_run _ _ Hr Ha) as (sites' & Hr' & Hm).
  assert (Hs : safe config (with_sites m sites'))
    by (eapply (safe_reachable _ _ _ _ _ (λ _, new_site files)); [exact Hmax|done|exact Hr']).
  eapply delivered_like; [apply (mi_sites _ _ _ _ Hm)| |].
  - intros first q Hsaid Hfree Hq. exists t, first. split; [|done]. apply elem_of_tasks_of. by exists p.
  - by apply (safe_honest _ _ t p Hs).
Qed.
(** *** A task that runs alone *)

Definition reaches (P : machine → Prop) (m : machine) : Prop := ∃ m', rtc together m m' ∧ P m'.

(** Only the site of [id] matters. *)
Lemma reaches_step P m m1 id :
  alone m m1 → (∀ i, i ≠ id → mc_sites m1 i = mc_sites m i) →
  (∀ sites', sites' id = mc_sites m1 id → reaches P (with_sites m1 sites')) → reaches P m.
Proof.
  intros Hstep Hid HP. destruct (HP (mc_sites (publish id m1))) as (m2 & Hr & HP2).
  { cbn. by rewrite in_same_directory. }
  exists m2. split; [|exact HP2]. eapply rtc_l; [by apply (together_moves _ _ id Hstep)|exact Hr].
Qed.

Lemma reaches_quiet P registry poisoned given sites threads registry' poisoned' given' threads' id :
  alone (MkMachine registry poisoned given sites threads)
    (MkMachine registry' poisoned' given' sites threads') →
  (∀ sites', sites' id = sites id →
     reaches P (MkMachine registry' poisoned' given' sites' threads')) →
  reaches P (MkMachine registry poisoned given sites threads).
Proof. intros Hstep. by apply (reaches_step P _ _ id Hstep). Qed.

Lemma reaches_task P registry poisoned given sites l t X (c : dcall X) k r x registry' s' :
  answer (backend := announcing backend) windows policy reprobe c registry poisoned given x
    registry' given [] →
  on_site c (sites (tr_id t)) x s' →
  (∀ sites', sites' (tr_id t) = s' →
     reaches P (MkMachine registry' poisoned given sites' (l ++ Running t (k x) :: r))) →
  reaches P (MkMachine registry poisoned given sites (l ++ Running t (Vis c k) :: r)).
Proof.
  intros Ha Hd HP.
  pose proof (step_runs windows policy reprobe daemon_version config _ _ _ _ l t X c k r _ _ _ _ _ Ha Hd) as Hstep.
  assert (Hn : hired windows policy reprobe c = []) by (destruct c; try done; cbn in Ha; naive_solver).
  rewrite Hn, app_nil_r in Hstep. apply (reaches_step P _ _ (tr_id t) Hstep).
  - intros i Hi. cbn. by rewrite decide_False.
  - intros sites'. cbn. rewrite decide_True by done. apply HP.
Qed.

Lemma reaches_engine P {A} (p : prog (engine_call (announced Url Mime N)) A) (k : A → prog dcall unit)
    registry poisoned given sites l t r s (a : A) :
  exec p (sites (tr_id t)) s (Some a) →
  (∀ sites', sites' (tr_id t) = s →
     reaches P (MkMachine registry poisoned given sites' (l ++ Running t (k a) :: r))) →
  reaches P (MkMachine registry poisoned given sites (l ++ Running t (bind (on_engine p) k) :: r)).
Proof.
  intros Hx HP. revert sites Hx. induction p as [b|X e kp IH]; intros sites.
  - intros [-> [[= ->]|]]; [by apply HP|done].
  - intros [[_ ?]|(x & s1 & Hd & Hx)]; [done|].
    apply (reaches_task P registry poisoned given sites l t X (Engine e)
      (λ x, bind (on_engine (kp x)) k) r x registry s1); [done..|].
    intros sites' <-. by apply IH.
Qed.
End machine.

(** ** Properties *)

Section properties.
Context {V : Type} `{Json V, Serde V HelloParams, Serde V AddParams, Serde V IdParams,
  Serde V VersionParams, Serde V HelloResult, Serde V StateResult, Serde V DownloadView,
  Serde V SystemStatus, !Serde V (RequestEnvelope V), !Serde V (SuccessEnvelope V),
  !Serde V ErrorEnvelope, !Envelopes V}.
Context {Url Mime : Type} {N : Type → Type} {D J : Type}.
Context `{backend : Http.Http.TransferProtocol Url Mime N, !UrlText Url, !UrlParse Url}.
Context `{Retry.HttpDate, EqDecision Url}.
Context `{Checksum, Digest, Os, Completion.Completion.ServerDigests} `{Writer.Writer.DurableDataLaws D}
  `{!Writer.Writer.DurableJournal J} `{!Writer.Writer.DurableJournalLaws J}.
Context (windows : bool) (policy : Retry.RetryPolicy) (reprobe : Retry.ReprobePolicy).
Context (client_version daemon_version : str) (config : TransferConfig).
Notation site := (site Url Mime D J).
Notation running := (together (Mime := Mime) (D := D) (J := J) (backend := backend) windows policy reprobe
  daemon_version config).
Import Client.Client.

(** C1: A success means a verified file.  Start the daemon over a directory; run any clients' commands
    and any downloads interleaved, operation by operation, all in that directory; join the stream
    of [dp add] to a connection whose commands this daemon answered.  As long as no two downloads
    lay claim to one name: if [dp add] exits with 0, the identity it printed is that of a task the
    daemon spawned for this URL and this target directory, its download is recorded as [Completed]
    and delivered: if a length was announced, the bytes under the final name have exactly that
    length, agree with the server's digest and are sealed in the journal; and so it stays, whatever
    the daemon does next. *)
Theorem success_means_a_verified_file token fuel fuel' url output_dir connections up down files m s os c :
  length (token_bytes token) = 32%nat → 0 ≤ Retry.max_retries policy < u32_max →
  rtc running (opened_over files) m → apart m →
  exec (serve_connection daemon_version fuel token) (MkConn (MkWire up []) []) s os →
  exec (main client_version fuel' (Add url output_dir connections)) (start down) c (Some 0) →
  up `prefix_of` outbound (cl_wire c) → down `prefix_of` outbound (cn_wire s) →
  Forall (replied m) (cn_commands s) →
  ∃ t target record,
    cl_printed c = [id_text (tr_id t)] ∧ t ∈ tasks_of (mc_threads m) ∧
    url_parse url = Some (tr_url t) ∧ (∀ d, output_dir = Some d → to_str d = Some target) ∧
    tr_layout t = MkLayout (os_str target) (cf_journal_dir config) ∧ dr_state record = Completed ∧
    ∀ m', rtc running m m' → apart m' → mc_registry m' !! tr_id t = Some record ∧
      delivered (tr_layout t) record (mc_sites m' (tr_id t)).
Proof.
  intros Htoken Hmax Hrun Hapart Hserver Hclient Hup Hdown Hans.
  destruct (owned_run _ _ _ _ _ _ _ Hrun Hapart) as (sites' & Hrun' & _).
  pose proof (safe_reachable _ _ _ _ _ (λ _, new_site files) _ Hmax ltac:(done) Hrun') as Hsafe.
  assert (Hright : ∀ d, d ∈ cn_commands s → right config (fst d) (snd d) (desk_of m)).
  { intros d Hd. apply (safe_right _ _ _ Hsafe). by eapply Forall_forall in Hans. }
  destruct (success_story client_version daemon_version token fuel fuel' url output_dir connections
    up down s os c) as (target & added & views & final & Ht & Hc & _ & Hf & Hp); try done.
  { apply Forall_forall. intros d Hd. by apply Hright. }
  destruct (Hright (add_request url target connections, Added added)) as (_ & t & Hin & Hid & Hurl & Hl).
  { rewrite Hc. by left. }
  destruct (Hright (get_request (sr_id added), DownloadResponse final)) as (_ & Hr).
  { rewrite Hc. unfold watched. set_solver. }
  specialize (Hr Hf). cbn in Hr. rewrite <- Hid in Hr, Hp.
  exists t, target, (MkRecord Completed (dv_covered final) (dv_total final) (dv_error_kind final)).
  do 6 (split; [done|]). intros m' Hm Hapart'.
  destruct (together_grows _ _ _ _ _ _ _ Hm (proj1 Hsafe)) as [_ [Htasks Hlast]].
  specialize (Hlast _ _ Hr eq_refl). split; [exact Hlast|]. apply Htasks in Hin.
  apply elem_of_tasks_of in Hin as [p Hin].
  eapply shared_delivered; try done. by etransitivity.
Qed.
End properties.
(** ** The whole run of one download *)

Module Example_whole.
Import Ipc.Example_json Client.Client Client.Client.Example_download.
Import Download.Download.Example_download Completion.Completion.Example_completion.
Import Concrete MemoryOs Writer.Writer.Example_run Example_lifecycle Example_task.
Import Io.Io PartFile.PartFile Writer.Writer Completion.Completion Download.Download Effects.Effects Ipc.Ipc.
#[local] Existing Instances local_backend local_text no_dates local_site Example_lifecycle.any_url.
#[local] Notation secret := Transport.Transport.Example_start.secret.
#[local] Notation the_id := Client.Client.Example_download.the_id.
#[local] Notation settings := Daemon.Daemon.Example_lifecycle.settings.
#[local] Notation probing := Daemon.Daemon.Example_task.probing.
#[local] Notation completed := Daemon.Daemon.Example_task.completed.
Notation running := (together (Mime := Z) (D := PartDisk) (J := JournalDisk) (backend := local_backend) false
  Retry.default_policy Retry.default_reprobe build settings).
Notation machine := (machine (Url := Z) (Mime := Z) (N := no_net) (D := PartDisk) (J := JournalDisk)).
Notation thread := (thread (Url := Z) (Mime := Z) (N := no_net)).

Definition submission : Request := add_request the_url (lit "") None.
Definition asking : Request := get_request the_id.
Definition shown (view : DownloadView) : thread := Serving asking (Ret (DownloadResponse view)).
Definition accepted : thread := Serving submission (Ret (Added added)).

Notation m_at record sites threads :=
  (MkMachine {[the_id := record]} false {[the_id]} sites threads : machine).

Notation reaching := (reaches (backend := local_backend) false Retry.default_policy Retry.default_reprobe
  build settings).
Notation serving := (step_serves false Retry.default_policy Retry.default_reprobe build settings).

Lemma run_submission P (sites : DownloadId → site Z Z PartDisk JournalDisk) :
  (∀ sites', sites' the_id = sites the_id → reaching P
     (m_at submitted sites' [accepted; Running Example_task.task (transfer (backend := announcing local_backend)
        false Retry.default_policy Retry.default_reprobe Example_task.task)])) →
  reaching P (MkMachine ∅ false ∅ sites [] : machine).
Proof.
  intros HP. eapply (reaches_quiet _ _ _ _ _ _ _ _ _ _ _ _ _ _ _ the_id);
    [apply (step_arrives _ _ _ _ _ _ _ _ _ _ submission)|]. intros s1 H1.
  eapply (reaches_quiet _ _ _ _ _ _ _ _ _ _ _ _ _ _ _ the_id).
  { eapply (serving _ _ _ _ [] _ _ FillRandom _ [] (Some entropy)).
    split; [done|]. split; [done|]. split; [done|]. exists the_id.
    split; [exact fresh_entropy|]. split; [set_solver|done]. }
  intros s2 H2. cbv beta iota zeta. rewrite fresh_entropy. rewrite union_empty_r_L.
  eapply (reaches_quiet _ _ _ _ _ _ _ _ _ _ _ _ _ _ _ the_id).
  { eapply (serving _ _ _ _ [] _ _ (Locked (λ registry, (tt, <[the_id := submitted]> registry))) _ [] (Some tt)).
    by split. }
  intros s3 H3. eapply (reaches_quiet _ _ _ _ _ _ _ _ _ _ _ _ _ _ _ the_id).
  { exact (serving (<[the_id := submitted]> ∅) false {[the_id]} s3 [] submission unit (Spawn Example_task.task)
      (λ _, Ret (Added added)) [] tt (<[the_id := submitted]> ∅) {[the_id]} _
      (conj eq_refl (conj eq_refl eq_refl))). }
  intros s4 H4. rewrite insert_empty. apply HP. congruence.
Qed.

Lemma run_asking P record view sites l :
  view = MkView PROTOCOL_VERSION the_id (dr_state record) (dr_covered record) (dr_total record)
    (dr_error_kind record) →
  (∀ sites', sites' the_id = sites the_id → reaching P (m_at record sites' (l ++ [shown view]))) →
  reaching P (m_at record sites l).
Proof.
  intros -> HP. eapply (reaches_quiet _ _ _ _ _ _ _ _ _ _ _ _ _ _ _ the_id);
    [apply (step_arrives _ _ _ _ _ _ _ _ _ _ asking)|]. intros s1 H1.
  eapply (reaches_quiet _ _ _ _ _ _ _ _ _ _ _ _ _ _ _ the_id).
  { pose proof (serving {[the_id := record]} false {[the_id]} s1 l asking _
      (Locked (λ registry, (registry !! the_id, registry)))
      (λ found, match found with
       | None => Ret (rpc_error "state_unavailable" "daemon transfer state is unavailable" true (Some the_id))
       | Some None => Ret (rpc_error "not_found" "download was not found" false (Some the_id))
       | Some (Some record) => Ret (DownloadResponse (MkView PROTOCOL_VERSION the_id (dr_state record)
           (dr_covered record) (dr_total record) (dr_error_kind record)))
       end) [] (Some (Some record)) {[the_id := record]} {[the_id]} []) as Hstep.
    apply Hstep. split; [done|]. split; [done|]. split; [|done]. cbn. by rewrite lookup_insert_eq. }
  intros s2 H2. apply HP. congruence.
Qed.

Notation task_here p := (Running Example_task.task p : thread).
Notation task_body := (transfer (backend := announcing local_backend) false Retry.default_policy
  Retry.default_reprobe Example_task.task).
Notation told_probing := (shown Client.Client.Example_download.probing).
Notation told_completed := (shown Client.Client.Example_download.completed).

Lemma recording old new : answer (backend := announcing local_backend) false Retry.default_policy
  Retry.default_reprobe (Locked (update_record the_id new)) {[the_id := old]} false {[the_id]}
  (Some tt) {[the_id := new]} {[the_id]} [].
Proof. by repeat split. Qed.

Definition finished (m : machine) : Prop :=
  mc_registry m = {[the_id := completed]} ∧ mc_sites m the_id = by_ d_end said ∧
  mc_threads m = [accepted; task_here (Ret tt); told_probing; told_completed].

Lemma run_task_here sites : sites the_id = at_ d0 [] →
  reaching finished (m_at submitted sites [accepted; task_here task_body]).
Proof.
  intros H0. apply (reaches_task _ _ _ _ _ _ _ _ _ _ [accepted] _ _ (Locked (update_record the_id probing)) _ []
    (Some tt) {[the_id := probing]} (at_ d0 [])); [apply recording|by symmetry|]. intros s1 H1.
  apply (run_asking _ probing Client.Client.Example_download.probing s1); [reflexivity|]. intros s1' H1'.
  apply (reaches_task _ _ _ _ _ _ _ _ _ _ [accepted] _ _ (NewBackend Http.Http.Negotiated) _ [told_probing]
    true {[the_id := probing]} (at_ d0 [])); [by repeat split|symmetry; etransitivity; [exact H1'|exact H1]|].
  intros s2 H2.
  apply (reaches_engine _ _ _ _ _ _ program _ _ _ _ _ [accepted] _ [told_probing] (by_ d_end said)
    (Some (Ok "a"%string))).
  { rewrite H2. apply run_download. }
  intros s3 H3.
  apply (reaches_task _ _ _ _ _ _ _ _ _ _ [accepted] _ _ (FileLength "a"%string) _ [told_probing]
    (Some 8) {[the_id := probing]} (by_ d_end said)); [by repeat split| |].
  { rewrite H3. split; [done|]. intros n [= <-]. exists full. by split. }
  intros s4 H4.
  apply (reaches_task _ _ _ _ _ _ _ _ _ _ [accepted] _ _ (Locked (update_record the_id completed)) _
    [told_probing] (Some tt) {[the_id := completed]} (by_ d_end said)); [apply recording|by symmetry|].
  intros s5 H5.
  apply (run_asking _ completed Client.Client.Example_download.completed s5); [reflexivity|]. intros s6 H6.
  eexists. split; [constructor|]. split; [done|]. split; [|done]. etransitivity; [exact H6|exact H5].
Qed.

Definition no_files : Completion.Completion.directory := λ _, None.

Lemma success_means_a_verified_file_witness :
  ∃ (m : machine) (t : Transfer Z) record, rtc running (opened_over no_files) m ∧
    cl_printed at_end = [id_text (tr_id t)] ∧
    mc_registry m !! tr_id t = Some record ∧ dr_state record = Completed ∧
    delivered (tr_layout t) record (mc_sites m (tr_id t)).
Proof.
  destruct (run_submission finished (λ _, new_site no_files)) as (m & Hm & Hreg & Hsite & Hthreads).
  { intros s1 H1. apply run_task_here. exact H1. }
  assert (Hapart : apart m).
  { intros i j q (ti & fi & Hi & <- & _) (tj & fj & Hj & <- & _). rewrite Hthreads in Hi, Hj.
    apply list_elem_of_singleton in Hi as ->. by apply list_elem_of_singleton in Hj as ->. }
  destruct (success_means_a_verified_file false Retry.default_policy Retry.default_reprobe build build settings
    secret (length command_payloads + 2) 2 the_url (Some folder) None upstream downstream no_files m
    (MkConn (MkWire [] downstream) dispatched_commands) (Some (Err stream_ended)) at_end)
    as (t & target & record & Hp & _ & _ & _ & _ & Hc & Hstays).
  - reflexivity.
  - vm_compute; split; [discriminate|reflexivity].
  - exact Hm.
  - exact Hapart.
  - exact server_side.
  - exact client_side.
  - exists []. vm_compute. reflexivity.
  - reflexivity.
  - unfold replied. rewrite Hthreads. repeat constructor.
  - exists m, t, record. destruct (Hstays m ltac:(constructor) Hapart) as [Hr Hd]. by split_and!.
Defined.
End Example_whole.
End Shared.
