(* ===== verification/Startup.v ===== *)
(** * [downpour-daemon/src/startup.rs]: recovering every download when the daemon starts

    Every download that is not terminal is reconciled, in store order; one that cannot be is
    recorded and does not stop the others; nothing is resumed. *)

From S2P Require Import Prelude Intervals Io Format JournalState Replay PartFile Str Remote Metadata.
From S2P Require Import Completion Recovery StorageSink.
From Stdlib Require Import String.
From stdpp Require Import list.
#[local] Open Scope Z_scope.

Module Startup.
Import Io.Io Format.Format PartFile.PartFile Metadata.Metadata Recovery.Recovery.

Record RecoveredDownload := MkRecovered {
  rd_id : DownloadId;
  rd_outcome : result Reconciliation RecoveryError;
}.

Definition is_recovered (d : RecoveredDownload) : bool :=
  match rd_outcome d with
  | Ok rec => bool_decide (rec_state rec = Paused)
  | Err _ => false
  end.

Record RecoverySummary := MkSummary { sm_downloads : list RecoveredDownload; sm_skipped : Z }.
Definition sm_recovered (s : RecoverySummary) : Z := zlen (List.filter is_recovered (sm_downloads s)).
Definition sm_failed (s : RecoverySummary) : Z := zlen (sm_downloads s) - sm_recovered s.

(** [StartupError::Metadata]. *)
Definition StartupError : Type := MetadataError.

(** The query of [load_downloads]: the keys of the rows, in byte order. *)
Class DownloadIds (S : Type) := load_ids : S → result (list (list byte)) MetadataError.

(** [<journal_dir>/<id>.dpj]. *)
Definition journal_path_for (journal_dir : path) (id : DownloadId) : path :=
  StorageSink.StorageSink.path_join journal_dir
    (String.concat EmptyString (map StorageSink.StorageSink.hex_byte (as_bytes id)) ++ ".dpj")%string.

(** What the file system answers about the files of one download, by the journal's path: the calls
    of its reconciliation, and the bytes of its journal. *)
Definition Files : Type := DownloadMetadata → path → Calls * list byte.

Section startup.
Context {S : Type} `{MetadataStore S, DownloadIds S} `{Checksum} `{Os}.

(** [load_downloads]. *)
Fixpoint load_each (store : S) (ids : list (list byte))
    : result (list DownloadMetadata) MetadataError :=
  match ids with
  | [] => Ok []
  | bytes :: ids =>
      let? id := download_id_from_slice bytes in
      let? loaded := load_download id store in
      let? metadata := ok_or loaded (InvalidValue "downloads.id") in
      let? all := load_each store ids in
      Ok (metadata :: all)
  end.
Definition load_downloads (store : S) : result (list DownloadMetadata) MetadataError :=
  let? ids := load_ids store in load_each store ids.

Definition terminal (metadata : DownloadMetadata) : bool :=
  bool_decide (md_state metadata = Completed ∨ md_state metadata = Failed).

(** What the pass did: its summary, the store, and the files of each download it touched. *)
Record Pass := MkPass {
  ps_downloads : list RecoveredDownload;
  ps_skipped : Z;
  ps_store : S;
  ps_files : list (option File * list byte);
}.

Context (files : Files) (fuel : nat) (journal_dir : path) (now_ms : Z).

(** One download; [None] when the journal's replay runs out of fuel. *)
Definition recover_one (pass : Pass) (metadata : DownloadMetadata) : option Pass :=
  if terminal metadata
  then Some (MkPass (ps_downloads pass) (ps_skipped pass + 1) (ps_store pass) (ps_files pass))
  else
    let '(calls, journal) := files metadata (journal_path_for journal_dir (md_id metadata)) in
    match reconcile_download (ps_store pass) (md_id metadata) calls journal now_ms fuel with
    | None => None
    | Some (outcome, after) =>
        Some (MkPass (ps_downloads pass ++ [MkRecovered (md_id metadata) outcome]) (ps_skipped pass)
                (af_store after) (ps_files pass ++ [(af_part after, af_journal after)]))
    end.

Fixpoint recover_each (pass : Pass) (all : list DownloadMetadata) : option Pass :=
  match all with
  | [] => Some pass
  | metadata :: all =>
      match recover_one pass metadata with
      | None => None
      | Some pass => recover_each pass all
      end
  end.

Definition recover_all (store : S) : option (result RecoverySummary StartupError * Pass) :=
  match load_downloads store with
  | Err e => Some (Err e, MkPass [] 0 store [])
  | Ok all =>
      match recover_each (MkPass [] 0 store []) all with
      | None => None
      | Some pass => Some (Ok (MkSummary (ps_downloads pass) (ps_skipped pass)), pass)
      end
  end.
End startup.
Arguments Pass S : clear implicits.

(** ** What the store promises

    A statement about one download touches the rows of that download only, and no identity is
    listed twice. *)
Class PrivateRows (S : Type) `{MetadataStore S, DownloadIds S} := {
  save_download_private md store r store' : save_download md store = (r, store') →
    ∀ id, id ≠ md_id md → load_download id store' = load_download id store ∧
      load_checkpoint id store' = load_checkpoint id store;
  save_checkpoint_private id seq now cp store r store' :
    save_checkpoint id seq now cp store = (r, store') →
    ∀ id', id' ≠ id → load_checkpoint id' store' = load_checkpoint id' store;
  ids_distinct store ids : load_ids store = Ok ids → NoDup ids;
}.

Section facts.
Context {S : Type} `{MetadataStoreLaws S} `{!DownloadIds S, !PrivateRows S} `{Checksum} `{OsLaws}.

Definition same_rows (id : DownloadId) (s s' : S) : Prop :=
  load_download id s' = load_download id s ∧ load_checkpoint id s' = load_checkpoint id s.
Lemma same_rows_trans id s1 s2 s3 : same_rows id s1 s2 → same_rows id s2 s3 → same_rows id s1 s3.
Proof. intros [Ha Hb] [Hc Hd]. split; congruence. Qed.
Lemma same_rows_refl id s : same_rows id s s.
Proof. by split. Qed.

Lemma fail_private store md kind now r store' :
  fail store md kind now = (r, store') → ∀ id, id ≠ md_id md → same_rows id store store'.
Proof.
  unfold fail. intros Hf id Hid. destruct (DownloadErrorKind_new _); [|by injection Hf as _ <-].
  destruct (save_download _ store) as [saved s'] eqn:Es.
  pose proof (save_download_private _ _ _ _ Es id Hid) as Hs.
  destruct saved; by injection Hf as _ <-.
Qed.

Lemma fail_saves store id md kind now rec store' :
  load_download id store = Ok (Some md) → 0 ≤ now →
  fail store md kind now = (Ok rec, store') →
  rec_state rec = Failed ∧ ∃ md', load_download (md_id md) store' = Ok (Some md') ∧ md_state md' = Failed.
Proof.
  intros Hload Hn. unfold fail. destruct (DownloadErrorKind_new _) as [k|] eqn:Ek; [|done].
  destruct (save_download _ store) as [[[]|e] s'] eqn:Es; [|done]. intros [= <- <-].
  split; [done|].
  pose proof (save_download_law _ _ _ _ _ _ Hload (failed_revision _ _ _ _ Ek Hn) Es) as Hl.
  by eexists.
Qed.

Lemma persist_private store md rec eff now r store' :
  persist store md rec eff now = (r, store') → ∀ id, id ≠ md_id md → same_rows id store store'.
Proof.
  unfold persist. intros Hf id Hid. destruct (save_download _ store) as [saved s1] eqn:Es.
  pose proof (save_download_private _ _ _ _ Es id Hid) as Hs.
  destruct saved; [|by injection Hf as _ <-].
  destruct (let? cs := _ in _) as [cp|e]; [|by injection Hf as _ <-].
  destruct (save_checkpoint _ _ _ _ s1) as [saved s2] eqn:Ec.
  assert (Hs2 : same_rows id s1 s2).
  { split; [exact (save_checkpoint_law _ _ _ _ _ _ _ Ec id)|].
    exact (save_checkpoint_private _ _ _ _ _ _ _ Ec id Hid). }
  destruct saved; injection Hf as _ <-; by eapply same_rows_trans.
Qed.

(** Reconciling one download leaves the rows of every other. *)
Lemma reconcile_private store id md calls bytes now fuel r after :
  load_download id store = Ok (Some md) →
  reconcile_download store id calls bytes now fuel = Some (r, after) →
  ∀ id', id' ≠ id → same_rows id' store (af_store after).
Proof.
  intros Hload Hrec id' Hid'. rewrite <- (loaded_id _ _ _ Hload) in Hid'. revert Hrec.
  unfold reconcile_download. rewrite Hload.
  case_bool_decide; [by intros [= _ <-]|].
  assert (Hfail : ∀ kind p j,
    (let '(r, s) := fail store md kind now in Some (r, MkAfter s p j)) = Some (r, after) →
    same_rows id' store (af_store after)).
  { intros kind p j. destruct (fail store md kind now) as [r' s'] eqn:Ef. intros [= -> <-].
    by eapply fail_private. }
  assert (Hpersist : ∀ rec eff p j,
    (let '(r, s) := persist store md rec eff now in Some (r, MkAfter s p j)) = Some (r, after) →
    same_rows id' store (af_store after)).
  { intros rec eff p j. destruct (persist store md rec eff now) as [r' s'] eqn:Ef. intros [= -> <-].
    by eapply persist_private. }
  destruct (call_exists calls); cbn [negb]; [|by apply Hfail].
  destruct (md_total_length md) as [total|]; [|by apply Hfail].
  destruct (open_existing _ _ _) as [[rp|pe] part]; [|by intros [= _ <-]].
  destruct (Replay.Replay.recover_journal _ _ _ _ _) as [[replayed j]|]; [|done].
  unfold reconcile_journal. destruct replayed as [out|[fe|io]]; [|by apply Hfail|].
  - case_bool; [by apply Hfail|].
    destruct (JournalState.JournalState.effective_state _ _) as [st|]; [|by apply Hfail].
    destruct (let? merged := _ in _) as [[merged [m c]]|e]; [|by intros [= _ <-]]. by apply Hpersist.
  - case_bool_decide; [by apply Hpersist|by intros [= _ <-]].
Qed.

(** What a reconciled download is afterwards is in the store. *)
Lemma reconcile_saved store id md calls bytes now fuel rec after :
  recoverable store id md → sound_calls calls bytes fuel → 0 ≤ now →
  reconcile_download store id calls bytes now fuel = Some (Ok rec, after) →
  (rec_state rec = Paused ∨ rec_state rec = Failed) ∧
  ∃ md', load_download id (af_store after) = Ok (Some md') ∧ md_state md' = rec_state rec.
Proof.
  intros Hrc Hs Hnow Hrec. pose proof (proj1 Hrc) as Hload.
  pose proof (loaded_id _ _ _ Hload) as Hid.
  assert (Hgoal : rec_state rec = Paused ∨ rec_state rec = Failed ∧
    ∃ md', load_download id (af_store after) = Ok (Some md') ∧ md_state md' = Failed).
  2: { destruct Hgoal as [Hp|[Hf Hmd]]; [|rewrite Hf; by auto].
       destruct (paused_ranges _ _ _ _ _ _ _ _ _ Hrc Hs Hrec Hp) as [Hlen Hcov].
       destruct (paused_record _ _ _ _ _ _ _ _ _ Hload Hrec Hp Hnow Hlen Hcov)
         as (md' & Hl & Hst & _).
       split; [by left|]. exists md'. by rewrite Hp. }
  revert Hrec. unfold reconcile_download. rewrite Hload.
  case_bool_decide; [done|].
  assert (Hfail : ∀ kind p j,
    (let '(r, s) := fail store md kind now in Some (r, MkAfter s p j)) = Some (Ok rec, after) →
    rec_state rec = Paused ∨ rec_state rec = Failed ∧
    ∃ md', load_download id (af_store after) = Ok (Some md') ∧ md_state md' = Failed).
  { intros kind p j. destruct (fail store md kind now) as [r' s'] eqn:Ef. intros [= -> <-].
    right. rewrite <- Hid. by eapply fail_saves. }
  assert (Hpersist : ∀ rec0 eff p j, rec_state rec0 = Paused →
    (let '(r, s) := persist store md rec0 eff now in Some (r, MkAfter s p j)) = Some (Ok rec, after) →
    rec_state rec = Paused).
  { intros rec0 eff p j Hp. destruct (persist store md rec0 eff now) as [r' s'] eqn:Ef.
    intros [= -> <-]. by apply persist_ok in Ef as ->. }
  destruct (call_exists calls); cbn [negb]; [|by apply Hfail].
  destruct (md_total_length md) as [total|]; [|by apply Hfail].
  destruct (open_existing _ _ _) as [[rp|pe] part]; [|done].
  destruct (Replay.Replay.recover_journal _ _ _ _ _) as [[replayed j]|]; [|done].
  unfold reconcile_journal. destruct replayed as [out|[fe|io]]; [|by apply Hfail|].
  - case_bool; [by apply Hfail|].
    destruct (JournalState.JournalState.effective_state _ _) as [st|]; [|by apply Hfail].
    destruct (let? merged := _ in _) as [[merged [m c]]|e]; [|done].
    intros Hx. left. revert Hx. by apply Hpersist.
  - case_bool_decide; [|done]. intros Hx. left. revert Hx. by apply Hpersist.
Qed.
End facts.

(** ** The pass *)

Lemma Forall2_mono_in {A B} (P Q : A → B → Prop) l k :
  Forall2 P l k → (∀ x y, x ∈ l → P x y → Q x y) → Forall2 Q l k.
Proof.
  induction 1 as [|x y l k Hxy _ IH]; intros HQ; constructor.
  - apply HQ; [left|done].
  - apply IH. intros a b Ha. apply HQ. by right.
Qed.

Section pass.
Context {S : Type} `{MetadataStoreLaws S} `{!DownloadIds S, !PrivateRows S} `{Checksum} `{OsLaws}.
Context (files : Files) (fuel : nat) (journal_dir : path) (now_ms : Z).

Definition pending (all : list DownloadMetadata) : list DownloadMetadata :=
  List.filter (λ md, negb (terminal md)) all.
Definition files_of (md : DownloadMetadata) : Calls * list byte :=
  files md (journal_path_for journal_dir (md_id md)).

(** The files of a download are sound, and the fuel covers its journal. *)
Definition ready (md : DownloadMetadata) : Prop :=
  sound_calls (fst (files_of md)) (snd (files_of md)) fuel ∧
  ∀ total, md_total_length md = Some total → u64 total.

(** [d] is what reconciling [md] alone gives: on a store with the rows [s0] has for it, and what it
    saved there is what [s1] has. *)
Definition alone (s0 s1 : S) (md : DownloadMetadata) (d : RecoveredDownload) : Prop :=
  rd_id d = md_id md ∧ ∃ s after, same_rows (md_id md) s0 s ∧
    reconcile_download s (md_id md) (fst (files_of md)) (snd (files_of md)) now_ms fuel
      = Some (rd_outcome d, after) ∧
    same_rows (md_id md) (af_store after) s1 ∧
    ∀ rec, rd_outcome d = Ok rec →
      (rec_state rec = Paused ∨ rec_state rec = Failed) ∧
      ∃ md', load_download (md_id md) s1 = Ok (Some md') ∧ md_state md' = rec_state rec.

Definition in_store (s : S) (md : DownloadMetadata) : Prop :=
  load_download (md_id md) s = Ok (Some md).

Lemma load_each_spec store ids all : load_each store ids = Ok all →
  (λ md, as_bytes (md_id md)) <$> all = ids ∧ Forall (in_store store) all.
Proof.
  revert all. induction ids as [|bytes ids IH]; cbn [load_each]; intros all.
  { by intros [= <-]. }
  destruct (download_id_from_slice bytes) as [id|] eqn:Eid; [|done].
  assert (as_bytes id = bytes) as <-.
  { revert Eid. unfold download_id_from_slice, DownloadId_try_from_bytes. repeat case_bool; try done.
    all: by intros [= <-]. }
  destruct (load_download id store) as [[md|]|e] eqn:El; cbn; [|done..].
  destruct (load_each store ids) as [l|e]; [|done]. intros [= <-].
  destruct (IH l eq_refl) as [<- Hl]. pose proof (loaded_id _ _ _ El) as Hid. cbn.
  rewrite Hid. split; [done|]. constructor; [|done]. unfold in_store. by rewrite Hid.
Qed.

Lemma load_downloads_spec store all : load_downloads store = Ok all →
  NoDup (md_id <$> all) ∧ Forall (in_store store) all.
Proof.
  unfold load_downloads. destruct (load_ids store) as [ids|e] eqn:Ei; [|done].
  intros [<- Hall]%load_each_spec. split; [|done]. apply ids_distinct in Ei.
  rewrite (list_fmap_compose md_id as_bytes) in Ei. by eapply NoDup_fmap_1.
Qed.

Lemma alone_mono s0 s1 s2 md d :
  alone s0 s1 md d → same_rows (md_id md) s1 s2 → alone s0 s2 md d.
Proof.
  intros (Hid & s & after & Hs & Hr & Ha & Hst) Hs2. split; [done|]. exists s, after.
  split; [done|]. split; [done|]. split; [by eapply same_rows_trans|]. intros rec Hrec.
  destruct (Hst rec Hrec) as (Hstate & md' & Hl & Hmd). split; [done|]. exists md'.
  by rewrite (proj1 Hs2).
Qed.
Lemma alone_from s0 s1 s2 md d : same_rows (md_id md) s0 s1 → alone s1 s2 md d → alone s0 s2 md d.
Proof.
  intros H01 (Hid & s & after & Hs & Hrest). split; [done|]. exists s, after.
  split; [by eapply same_rows_trans|done].
Qed.

Lemma terminal_false md : terminal md = false → md_state md ≠ Completed ∧ md_state md ≠ Failed.
Proof. unfold terminal. rewrite bool_decide_eq_false. tauto. Qed.

Lemma recover_one_spec pass md : 0 ≤ now_ms → in_store (ps_store pass) md → ready md → terminal md = false →
  ∃ d pass', recover_one files fuel journal_dir now_ms pass md = Some pass' ∧
    ps_downloads pass' = ps_downloads pass ++ [d] ∧ ps_skipped pass' = ps_skipped pass ∧
    alone (ps_store pass) (ps_store pass') md d ∧
    ∀ id, id ≠ md_id md → same_rows id (ps_store pass) (ps_store pass').
Proof.
  intros Hnow Hin [Hs Hu] Ht. unfold recover_one. rewrite Ht. fold (files_of md).
  assert (Hrc : recoverable (ps_store pass) (md_id md) md).
  { destruct (terminal_false _ Ht). by split_and!. }
  destruct (files_of md) as [calls journal] eqn:Ef. cbn [fst snd] in Hs.
  pose proof (reconcile_spec _ _ _ _ _ now_ms _ Hrc Hs) as Hspec.
  destruct (reconcile_download _ _ _ _ _ _) as [[outcome after]|] eqn:Er; [|done].
  eexists _, _. split; [done|]. split; [done|]. split; [done|]. cbn [ps_store]. split.
  - split; [done|]. exists (ps_store pass), after. rewrite Ef. cbn [fst snd rd_outcome].
    split; [done|]. split; [done|]. split; [done|]. intros rec ->. by eapply reconcile_saved.
  - by eapply reconcile_private.
Qed.

Lemma recover_each_spec pass all : 0 ≤ now_ms →
  Forall (in_store (ps_store pass)) all → Forall ready (pending all) → NoDup (md_id <$> all) →
  ∃ ds pass', recover_each files fuel journal_dir now_ms pass all = Some pass' ∧
    ps_downloads pass' = ps_downloads pass ++ ds ∧
    ps_skipped pass' = ps_skipped pass + (zlen all - zlen (pending all)) ∧
    Forall2 (alone (ps_store pass) (ps_store pass')) (pending all) ds ∧
    ∀ id, id ∉ md_id <$> pending all → same_rows id (ps_store pass) (ps_store pass').
Proof.
  intros Hnow. revert pass. induction all as [|md all IH]; intros pass Hin Hready Hnd.
  { exists [], pass. rewrite app_nil_r. split_and!; try done. cbn. lia. }
  apply Forall_cons in Hin as [Hmd Hin]. cbn [fmap list_fmap] in Hnd.
  apply NoDup_cons in Hnd as [Hnew Hnd]. cbn [pending List.filter] in Hready |- *.
  fold (pending all) in Hready |- *. cbn [recover_each].
  destruct (terminal md) eqn:Et; cbn [negb] in Hready |- *.
  - unfold recover_one. rewrite Et.
    destruct (IH (MkPass (ps_downloads pass) (ps_skipped pass + 1) (ps_store pass) (ps_files pass))
                Hin Hready Hnd) as (ds & pass' & -> & Hd & Hsk & Hal & Hs).
    exists ds, pass'. split_and!; try done. rewrite Hsk, zlen_cons. cbn. lia.
  - apply Forall_cons in Hready as [Hr Hready].
    destruct (recover_one_spec pass md Hnow Hmd Hr Et) as (d & pass1 & -> & Hd1 & Hsk1 & Hal1 & Hs1).
    assert (Hin1 : Forall (in_store (ps_store pass1)) all).
    { apply Forall_forall. intros md' Hmd'. unfold in_store.
      rewrite Forall_forall in Hin. assert (Hne : md_id md' ≠ md_id md).
      { intros Heq. apply Hnew. rewrite <- Heq. by apply list_elem_of_fmap_2. }
      rewrite (proj1 (Hs1 _ Hne)). by apply Hin. }
    destruct (IH pass1 Hin1 Hready Hnd) as (ds & pass' & -> & Hd & Hsk & Hal & Hs).
    assert (Hsub : ∀ md', md' ∈ pending all → md_id md' ≠ md_id md).
    { intros md' Hmd' Heq. apply Hnew. rewrite <- Heq. apply list_elem_of_fmap_2.
      apply list_elem_of_In in Hmd'. apply filter_In in Hmd' as [Hmd' _]. by apply list_elem_of_In. }
    exists (d :: ds), pass'. split; [done|]. split; [by rewrite Hd, Hd1, <- app_assoc|].
    split; [rewrite Hsk, Hsk1, !zlen_cons; lia|]. split.
    + constructor.
      * eapply alone_mono; [done|]. apply Hs. intros Hx. apply list_elem_of_fmap in Hx as (md' & Heq & Hx).
        by apply (Hsub md' Hx).
      * eapply Forall2_mono_in; [exact Hal|]. intros md' d' Hmd' Ha.
        eapply alone_from; [|exact Ha]. by apply Hs1, Hsub.
    + intros id Hid. cbn [fmap list_fmap] in Hid. apply not_elem_of_cons in Hid as [Hne Hid].
      eapply same_rows_trans; [by apply Hs1|by apply Hs].
Qed.
Lemma recover_all_spec (store : S) :
  match load_downloads store with
  | Err e => recover_all files fuel journal_dir now_ms store = Some (Err e, MkPass [] 0 store [])
  | Ok all =>
      Forall ready (pending all) → 0 ≤ now_ms →
      ∃ summary pass, recover_all files fuel journal_dir now_ms store = Some (Ok summary, pass) ∧
        Forall2 (alone store (ps_store pass)) (pending all)
          (sm_downloads summary) ∧
        sm_skipped summary = zlen all - zlen (pending all) ∧
        0 ≤ sm_failed summary ≤ zlen (pending all) ∧
        ∀ md, md ∈ all → terminal md = true →
          load_download (md_id md) (ps_store pass) = Ok (Some md)
  end.
Proof.
  unfold recover_all. destruct (load_downloads store) as [all|e] eqn:El; [|done]. intros Hready Hnow.
  destruct (load_downloads_spec _ _ El) as [Hnd Hin].
  destruct (recover_each_spec (MkPass [] 0 store []) all Hnow Hin Hready Hnd)
    as (ds & pass & Hp & Hd & Hsk & Hal & Hs).
  rewrite Hp. cbn in Hd, Hsk, Hal, Hs. eexists _, pass. split; [done|]. cbn. rewrite Hd, Hsk.
  split; [done|]. split; [lia|]. split.
  - unfold sm_failed, sm_recovered. cbn. apply Forall2_length in Hal.
    pose proof (List.filter_length_le is_recovered ds). unfold zlen. lia.
  - intros md Hmd Ht. rewrite Forall_forall in Hin. rewrite <- (Hin md Hmd). apply Hs.
    intros Hx. apply list_elem_of_fmap in Hx as (md' & Heq & Hx).
    apply list_elem_of_In, filter_In in Hx as [Hx Ht']. apply list_elem_of_In in Hx.
    pose proof (Hin md Hmd) as Hl. pose proof (Hin md' Hx) as Hl'. unfold in_store in Hl, Hl'.
    rewrite <- Heq, Hl in Hl'. injection Hl' as <-. by rewrite Ht in Ht'.
Qed.
End pass.

(** ** Properties *)

(** C31: Start-up recovery is complete, separate and final.  When the store can list its downloads, the
    pass ends with a summary: the terminal downloads are counted and their rows untouched; every
    other one, in store order, is recorded with exactly the outcome that reconciling it alone
    gives, whatever became of those before it; and what was reconciled is stored as paused or
    failed, never as running.  It fails only when the store cannot list them. *)
Theorem startup_recovers_everything {S} `{MetadataStoreLaws S} `{!DownloadIds S, !PrivateRows S}
    `{Checksum} `{OsLaws} (files : Files) fuel journal_dir now_ms (store : S) :
  match load_downloads store with
  | Err e => recover_all files fuel journal_dir now_ms store = Some (Err e, MkPass [] 0 store [])
  | Ok all =>
      Forall (ready files fuel journal_dir) (pending all) → 0 ≤ now_ms →
      ∃ summary pass, recover_all files fuel journal_dir now_ms store = Some (Ok summary, pass) ∧
        Forall2 (alone files fuel journal_dir now_ms store (ps_store pass)) (pending all)
          (sm_downloads summary) ∧
        sm_skipped summary = zlen all - zlen (pending all) ∧
        0 ≤ sm_failed summary ≤ zlen (pending all) ∧
        ∀ md, md ∈ all → terminal md = true →
          load_download (md_id md) (ps_store pass) = Ok (Some md)
  end.
Proof.
  exact (recover_all_spec files fuel journal_dir now_ms store).
Qed.

(** ** A run

    The download of [Example_recovery], found by the daemon at start. *)
Module Example_startup.
Import Concrete MemoryOs Example_recovery.

(** A store of rows and cached checkpoints, the latest first. *)
Record Table := MkTable {
  tb_rows : list DownloadMetadata;
  tb_cache : list (DownloadId * PersistedCheckpoint);
}.
#[local] Instance id_eq_dec : EqDecision DownloadId.
Proof. solve_decision. Defined.

#[refine] Instance table_store : MetadataStore Table := {
  load_download id s := Ok (List.find (λ md, bool_decide (md_id md = id)) (tb_rows s));
  save_download md s := (Ok tt, MkTable (md :: tb_rows s) (tb_cache s));
  load_checkpoint id s :=
    Ok (option_map snd (List.find (λ c, bool_decide (fst c = id)) (tb_cache s)));
  save_checkpoint id seq now cp s :=
    (Ok true, MkTable (tb_rows s) ((id, MkPersisted seq now cp) :: tb_cache s));
}.
Defined.
#[local] Instance table_laws : MetadataStoreLaws Table.
Proof.
  split; cbn.
  - intros id s md [= Hf]. apply find_some in Hf as [_ Hf]. by apply bool_decide_eq_true in Hf.
  - intros id s0 md0 md s s' _ _ [= <-]. cbn. by rewrite bool_decide_eq_true_2.
  - intros id seq now cp s r s' [= _ <-] id'. done.
Qed.
#[local] Instance table_ids : DownloadIds Table := λ s, Ok (remove_dups ((λ md, as_bytes (md_id md)) <$> tb_rows s)).
#[local] Instance table_private : PrivateRows Table.
Proof.
  split; cbn.
  - intros md s r s' [= _ <-] id Hid. cbn. by rewrite bool_decide_eq_false_2.
  - intros id seq now cp s r s' [= _ <-] id' Hid. cbn. by rewrite bool_decide_eq_false_2.
  - intros s ids [= <-]. apply NoDup_remove_dups.
Qed.

(** One download interrupted, one completed. *)
Definition done_metadata : DownloadMetadata :=
  MkMetadata (MkDownloadId (replicate 6 x22 ++ [x72; x22; x92] ++ replicate 7 x22)) Completed 1 2 "b"%string "b.dppart"%string (Some 8) 8
    None 0 None true ex_identity [].
Definition two : Table := MkTable [ex_metadata; done_metadata] [].
Definition on_disk : Files := λ _ _, (calls_on short_part, ex_journal).

Lemma startup_recovers_everything_witness :
  load_downloads two = Ok [ex_metadata; done_metadata] ∧
  ∃ summary pass, recover_all on_disk 400 EmptyString 10 two = Some (Ok summary, pass) ∧
    sm_skipped summary = 1 ∧
    load_download (md_id done_metadata) (ps_store pass) = Ok (Some done_metadata).
Proof.
  assert (Hl : load_downloads two = Ok [ex_metadata; done_metadata]) by (vm_compute; reflexivity).
  split; [exact Hl|].
  pose proof (startup_recovers_everything on_disk 400 EmptyString 10 two) as Hall.
  rewrite Hl in Hall.
  destruct Hall as (summary & pass & Hr & _ & Hsk & _ & Hdone).
  - apply Forall_cons. split; [|apply Forall_nil; exact I].
    split; [apply ex_sound; vm_compute; discriminate|].
    intros total Ht. injection Ht as <-. split; [discriminate|reflexivity].
  - lia.
  - exists summary, pass. split; [exact Hr|]. split; [exact Hsk|].
    apply Hdone; [right; left|vm_compute; reflexivity].
Defined.
End Example_startup.

End Startup.
