(* ===== verification/Identity.v ===== *)
(** * [downpour-storage/src/metadata.rs]: URLs, native paths and the identity snapshot

    How a working URL becomes a public one and a keyring locator, how a native path is carried
    losslessly, and the complete snapshot that a journal [IdentityUpdate] record holds.  The [url]
    crate and [ciborium] are not code of this repository. *)

From S2P Require Import Prelude Format PartFile Str ContentRange Remote Metadata.
From Stdlib Require Import String.
From stdpp Require Import list.
#[local] Open Scope Z_scope.

Module Identity.
Import PartFile.PartFile Str.Str ContentRange.ContentRange Remote.Remote Metadata.Metadata.

(** ** URLs *)

(** The operations of [url::Url] used here; a setter that refuses returns [None]. *)
Class UrlCrate (Url : Type) := {
  Url_parse : str → option Url;
  url_str : Url → str;
  scheme : Url → str;
  username : Url → str;
  password : Url → option str;
  query : Url → option str;
  fragment : Url → option str;
  clear_username : Url → option Url;
  clear_password : Url → option Url;
  clear_query : Url → Url;
  clear_fragment : Url → Url;
}.

Section url.
Context {Url : Type} `{UrlCrate Url}.

Definition http_scheme (url : Url) : bool :=
  bool_decide (scheme url = lit "http") || bool_decide (scheme url = lit "https").
Definition has_private_component (url : Url) : bool :=
  negb (bool_decide (username url = [])) || bool_decide (is_Some (password url)) ||
  bool_decide (is_Some (query url)) || bool_decide (is_Some (fragment url)).

(** A [PublicUrl] is kept as its text. *)
Definition try_from_url (url : Url) : result str MetadataError :=
  if negb (http_scheme url) then Err (InvalidPublicUrl "scheme is not HTTP or HTTPS")
  else if has_private_component url
  then Err (InvalidPublicUrl "userinfo, query, or fragment is present")
  else
    let? _ := check_len "public_url" (url_str url) MAX_URL_BYTES in
    Ok (url_str url).

Definition PublicUrl_parse (raw : str) : result str MetadataError :=
  let? url := ok_or (Url_parse raw) (InvalidPublicUrl "URL does not parse") in
  try_from_url url.

Definition UrlReference_parse (raw : str) (secret : option SecretRef)
    : result UrlReference MetadataError :=
  let? url := ok_or (Url_parse raw) (InvalidPublicUrl "URL does not parse") in
  if negb (http_scheme url) then Err (InvalidPublicUrl "scheme is not HTTP or HTTPS")
  else if has_private_component url && bool_decide (secret = None)
  then Err SecretReferenceRequired
  else
    let? url :=
      if has_private_component url then
        let? url := ok_or (clear_username url) (InvalidPublicUrl "URL userinfo cannot be removed") in
        let? url := ok_or (clear_password url) (InvalidPublicUrl "URL password cannot be removed") in
        Ok (clear_fragment (clear_query url))
      else Ok url in
    let? public := try_from_url url in
    Ok (MkUrlReference public secret).

(** [Option::map] of a fallible function, transposed. *)
Definition transpose_map {A B E} (f : A → result B E) (o : option A) : result (option B) E :=
  match o with Some a => let? b := f a in Ok (Some b) | None => Ok None end.
(** [map] of a fallible function, collected. *)
Fixpoint collect_map {A B E} (f : A → result B E) (l : list A) : result (list B) E :=
  match l with
  | [] => Ok []
  | a :: l => let? b := f a in let? bs := collect_map f l in Ok (b :: bs)
  end.

Definition optional_secret_text (reference : option SecretRef) : option str :=
  option_map secret_text reference.
Definition optional_url_parts (url : option UrlReference) : option str * option str :=
  match url with
  | Some url => (Some (public_url url), optional_secret_text (secret_ref url))
  | None => (None, None)
  end.
Definition url_reference_from_parts (public : str) (reference : option str)
    : result UrlReference MetadataError :=
  let? public := PublicUrl_parse public in
  let? secret := transpose_map SecretRef_new reference in
  Ok (MkUrlReference public secret).
Definition optional_url_reference_from_parts (public reference : option str)
    : result (option UrlReference) MetadataError :=
  match public, reference with
  | Some public, reference =>
      let? r := url_reference_from_parts public reference in Ok (Some r)
  | None, None => Ok None
  | None, Some _ => Err (InvalidValue "URL reference without public URL")
  end.
End url.

(** ** Native paths, on Unix *)

Record PathWire := MkPathWire { pw_kind : Z; pw_bytes : list byte }.

(** [Path::to_str] is [Some] exactly for UTF-8. *)
Definition path_bytes (p : path) : list byte := list_byte_of_string p.
Definition path_to_wire (p : path) : result PathWire MetadataError :=
  let bytes := path_bytes p in
  let? _ := check_path_len (zlen bytes) in
  if bool_decide (is_Some (from_utf8 bytes)) then Ok (MkPathWire 0 bytes)
  else Ok (MkPathWire 1 bytes).

Definition unix_path_from_bytes (bytes : list byte) : result path MetadataError :=
  Ok (string_of_list_byte bytes).
Definition windows_path_from_bytes (_ : list byte) : result path MetadataError :=
  Err (UnsupportedPathEncoding 2).

Definition path_from_wire (wire : PathWire) : result path MetadataError :=
  let? _ := check_path_len (zlen (pw_bytes wire)) in
  match pw_kind wire with
  | 0 =>
      match from_utf8 (pw_bytes wire) with
      | Some _ => Ok (string_of_list_byte (pw_bytes wire))
      | None => Err (InvalidEncoding FNativePath "portable path is not UTF-8")
      end
  | 1 => unix_path_from_bytes (pw_bytes wire)
  | 2 => windows_path_from_bytes (pw_bytes wire)
  | encoding => Err (UnsupportedPathEncoding encoding)
  end.

Section path_codec.
Context `{Cbor PathWire}.
Definition encode_path (p : path) : result (list byte) MetadataError :=
  let? wire := path_to_wire p in encode_wire wire FNativePath.
Definition decode_path (encoded : list byte) : result path MetadataError :=
  let? _ := check_payload_len FNativePath (zlen encoded) (MAX_PATH_BYTES + 16) in
  let? wire := decode_wire encoded FNativePath in
  let? _ := require_canonical encoded wire FNativePath in
  path_from_wire wire.
End path_codec.

(** ** Bounded collections

    [BoundedVec]'s visitor over the elements the decoder yields: a definite length within the
    limit is required, and the limit is checked again at every element. *)
Section bounded.
Context {T : Type} (maximum : Z).

Fixpoint visit_elements (values : list T) (sequence : list (result T string))
    : result (list T) string :=
  match sequence with
  | [] => Ok values
  | Err e :: _ => Err e
  | Ok value :: sequence =>
      if zlen values =? maximum then Err "collection limit exceeded"%string
      else visit_elements (values ++ [value]) sequence
  end.

Definition visit_seq (size_hint : option Z) (sequence : list (result T string))
    : result (list T) string :=
  match size_hint with
  | None => Err "indefinite arrays are forbidden"%string
  | Some size =>
      if maximum <? size then Err "collection limit exceeded"%string
      else visit_elements [] sequence
  end.
End bounded.

(** ** The snapshot's wire form *)

Definition UrlReferenceWire : Type := str * option str.
Definition HistoryWire : Type := UrlReferenceWire * Z.

Record IdentityWire := MkIdentityWire {
  iw_current_url : UrlReferenceWire;
  iw_final_url : option UrlReferenceWire;
  iw_redirect_chain : list UrlReferenceWire;
  iw_page_url : option UrlReferenceWire;
  iw_origin : str;
  iw_validator : ValidatorWire;
  iw_digest : option DigestWire;
  iw_content_type : option str;
  iw_suggested_filename : option str;
  iw_request_context_ref : option str;
  iw_probed_at_ms : Z;
  iw_protocol : Z;
  iw_range_state : Z;
  iw_range_observation : option (list byte);
}.

Record IdentitySnapshotWireV1 := MkSnapshotWire {
  sw_version : Z;
  sw_id : list byte;
  sw_state : Z;
  sw_created_at_ms : Z;
  sw_updated_at_ms : Z;
  sw_target_path : PathWire;
  sw_part_path : PathWire;
  sw_total_length : option Z;
  sw_covered_bytes : Z;
  sw_queue_position : option Z;
  sw_priority : Z;
  sw_error_kind : option str;
  sw_space_reserved : bool;
  sw_identity : IdentityWire;
  sw_url_history : list HistoryWire;
}.

Definition from_reference (r : UrlReference) : UrlReferenceWire :=
  (public_url r, optional_secret_text (secret_ref r)).
Definition into_reference {Url} `{UrlCrate Url} (w : UrlReferenceWire)
    : result UrlReference MetadataError := url_reference_from_parts (fst w) (snd w).

Section snapshot.
Context {Url : Type} `{UrlCrate Url, Cbor RangeObservationWireV1, Cbor IdentitySnapshotWireV1}.

Definition range_support_to_wire (r : RangeSupport)
    : result (Z * option (list byte)) MetadataError :=
  match r with
  | Proven proof => let? bytes := encode_range_observation (observation proof) in Ok (0, Some bytes)
  | Absent => Ok (1, None)
  | Unknown => Ok (2, None)
  end.

Definition range_support_from_wire (state : Z) (encoded : option (list byte))
    : result RangeSupport MetadataError :=
  match state, encoded with
  | 0, Some encoded =>
      let? o := decode_range_observation encoded in
      let? proof :=
        map_err InvalidRangeObservation
          (from_observed_response (o_requested o) (o_status o) (o_content_range o)
             (o_content_encoding o) (o_body_len o)) in
      Ok (Proven proof)
  | 1, None => Ok Absent
  | 2, None => Ok Unknown
  | _, _ => Err (InvalidValue "identity.range_support")
  end.

Definition from_metadata (m : DownloadMetadata) : result IdentitySnapshotWireV1 MetadataError :=
  let i := md_identity m in
  let? '(range_state, range_observation) := range_support_to_wire (range_support i) in
  let identity :=
    MkIdentityWire (from_reference (current_url i)) (option_map from_reference (final_url i))
      (map from_reference (redirect_chain i)) (option_map from_reference (page_url i)) (origin i)
      (from_validator (validator i)) (option_map from_digest (server_digest i)) (content_type i)
      (suggested_filename i) (option_map secret_text (request_context_ref i)) (probed_at_ms i)
      (protocol_code (protocol i)) range_state range_observation in
  let? target_path := path_to_wire (md_target_path m) in
  let? part_path := path_to_wire (md_part_path m) in
  Ok (MkSnapshotWire 1 (as_bytes (md_id m)) (state_code (md_state m)) (md_created_at_ms m)
        (md_updated_at_ms m) target_path part_path (md_total_length m) (md_covered_bytes m)
        (md_queue_position m) (md_priority m) (option_map kind_text (md_error_kind m))
        (md_space_reserved m) identity
        (map (λ e, (from_reference (h_url e), h_seen_at_ms e)) (md_url_history m))).

Definition history_from_wire (w : HistoryWire) : result UrlHistoryEntry MetadataError :=
  let? url := into_reference (fst w) in Ok (MkHistory url (snd w)).

Definition identity_from_wire (w : IdentityWire) (range_support : RangeSupport)
    : result IdentityMetadata MetadataError :=
  let? current_url := into_reference (iw_current_url w) in
  let? final_url := transpose_map into_reference (iw_final_url w) in
  let? redirect_chain := collect_map into_reference (iw_redirect_chain w) in
  let? page_url := transpose_map into_reference (iw_page_url w) in
  let? origin := PublicUrl_parse (iw_origin w) in
  let? validator := into_validator (iw_validator w) in
  let? server_digest := transpose_map into_digest (iw_digest w) in
  let? request_context_ref := transpose_map SecretRef_new (iw_request_context_ref w) in
  let? protocol := protocol_from_code (iw_protocol w) in
  Ok (MkIdentity current_url final_url redirect_chain page_url origin validator server_digest
        (iw_content_type w) (iw_suggested_filename w) request_context_ref (iw_probed_at_ms w)
        protocol range_support).

Definition into_metadata (w : IdentitySnapshotWireV1) : result DownloadMetadata MetadataError :=
  let i := sw_identity w in
  let? range_support := range_support_from_wire (iw_range_state i) (iw_range_observation i) in
  let? id := download_id_from_slice (sw_id w) in
  let? state := state_from_code (sw_state w) in
  let? target_path := path_from_wire (sw_target_path w) in
  let? part_path := path_from_wire (sw_part_path w) in
  let? error_kind := transpose_map DownloadErrorKind_new (sw_error_kind w) in
  let? identity := identity_from_wire i range_support in
  let? url_history := collect_map history_from_wire (sw_url_history w) in
  Ok (MkMetadata id state (sw_created_at_ms w) (sw_updated_at_ms w) target_path part_path
        (sw_total_length w) (sw_covered_bytes w) (sw_queue_position w) (sw_priority w) error_kind
        (sw_space_reserved w) identity url_history).

Definition encode_identity_snapshot (m : DownloadMetadata) : result (list byte) MetadataError :=
  let? _ := validate_metadata m in
  let? wire := from_metadata m in
  let? encoded := encode_wire wire FIdentitySnapshot in
  let? _ := check_payload_len FIdentitySnapshot (zlen encoded) Format.MAX_PAYLOAD_LEN in
  Ok encoded.

Definition decode_identity_snapshot (encoded : list byte)
    : result DownloadMetadata MetadataError :=
  let? _ := peek_version encoded FIdentitySnapshot Format.MAX_PAYLOAD_LEN in
  let? wire := decode_wire encoded FIdentitySnapshot in
  let? _ := require_canonical encoded wire FIdentitySnapshot in
  let? metadata := into_metadata wire in
  let? _ := validate_metadata metadata in
  Ok metadata.
End snapshot.

(** ** What the libraries promise *)

(** A URL's text is the URL. *)
Class UrlLaws (Url : Type) `{UrlCrate Url} := url_reparse u : Url_parse (url_str u) = Some u.

(** [serde] and [ciborium], of a value with a definite encoding: what was written is read back,
    consumed to its end, provided the collections keep their limits. *)
Class CborReads (W : Type) `{Cbor W} (bounded : W → Prop) :=
  cbor_reads w bs : into_writer w = Ok bs → bounded w → from_reader bs = Ok (w, zlen bs).
(** Of a tuple whose first field is the version: the head of the encoding. *)
Class CborVersioned (W : Type) `{Cbor W} (fields : Z) (version : W → Z) :=
  cbor_version w bs : into_writer w = Ok bs →
    ∃ rest, bs = cbor_head 4 fields ++ cbor_head 0 (version w) ++ rest.

Definition snapshot_bounded (w : IdentitySnapshotWireV1) : Prop :=
  zlen (iw_redirect_chain (sw_identity w)) ≤ MAX_REDIRECTS ∧
  zlen (sw_url_history w) ≤ MAX_HISTORY_ENTRIES.

(** ** The collecting adaptors *)

Lemma collect_map_id {A B E} (f : A → result B E) (g : B → A) (l : list B) :
  Forall (λ x, f (g x) = Ok x) l → collect_map f (map g l) = Ok l.
Proof. induction 1 as [|x l Hx _ IH]; cbn; [done|]. by rewrite Hx, IH. Qed.
Lemma transpose_map_id {A B E} (f : A → result B E) (g : B → A) (o : option B) :
  match o with Some x => f (g x) = Ok x | None => True end →
  transpose_map f (option_map g o) = Ok o.
Proof. destruct o; cbn; [by intros ->|done]. Qed.

(** A bounded vector never holds more than its limit, and a sequence within it is read whole. *)
Lemma visit_elements_bound {T} maximum (values l : list T) sequence :
  zlen values ≤ maximum → visit_elements maximum values sequence = Ok l →
  zlen l ≤ maximum ∧ ∃ rest, sequence = map Ok rest ∧ l = values ++ rest.
Proof.
  revert values. induction sequence as [|[v|e] sequence IH]; intros values Hv; cbn; [|case_bool|done].
  - intros [= <-]. split; [done|]. exists []. by rewrite app_nil_r.
  - done.
  - intros Hl. apply IH in Hl as (Hm & rest & -> & ->).
    + split; [done|]. exists (v :: rest). by rewrite <- app_assoc.
    + zlen.
Qed.
Lemma visit_elements_whole {T} maximum (values rest : list T) :
  zlen values + zlen rest ≤ maximum →
  visit_elements maximum values (map Ok rest) = Ok (values ++ rest).
Proof.
  revert values. induction rest as [|v rest IH]; intros values Hv; cbn.
  { by rewrite app_nil_r. }
  rewrite zlen_cons in Hv. pose proof (zlen_nonneg rest).
  destruct (Z.eqb_spec (zlen values) maximum); [lia|].
  rewrite IH by (zlen). by rewrite <- app_assoc.
Qed.

(** A limit is enforced, and below it nothing is lost. *)
Lemma visit_seq_spec {T} maximum (sequence : list (result T string)) (l : list T) :
  0 ≤ maximum →
  visit_seq maximum (Some (zlen sequence)) sequence = Ok l ↔ sequence = map Ok l ∧ zlen l ≤ maximum.
Proof.
  intros Hm. unfold visit_seq. split.
  - case_bool; [done|]. intros Hv. apply visit_elements_bound in Hv as (Hl & rest & -> & ->); [done|done].
  - intros [-> Hl]. assert (Hz : zlen (map (@Ok T string) l) = zlen l) by (unfold zlen; by rewrite length_map).
    rewrite Hz, (proj2 (Z.ltb_ge _ _)) by done. by apply visit_elements_whole.
Qed.

(** ** Versioned payloads *)

Lemma cbor_head_length n : zlen (cbor_head 4 n) ≤ 9.
Proof.
  unfold cbor_head, to_be_bytes. unfold zlen.
  repeat case_bool; cbn [length]; rewrite ?length_reverse, ?length_to_le_bytes; lia.
Qed.

Section versioned.
Context {W : Type} `{Cbor W} {bounded : W → Prop} {fields : Z} {version : W → Z}.
Context `{!CborReads W bounded, !CborVersioned W fields version}.

Lemma decode_encode_wire w bs format :
  encode_wire w format = Ok bs → bounded w →
  decode_wire bs format = Ok w ∧ require_canonical bs w format = Ok tt.
Proof using CborReads0.
  unfold encode_wire. destruct (into_writer w) as [enc|] eqn:Ee; [|done]. intros [= ->] Hb.
  unfold decode_wire, require_canonical, encode_wire. rewrite (cbor_reads _ _ Ee Hb), Ee.
  cbn [map_err]. by rewrite Z.eqb_refl, bool_decide_eq_true_2.
Qed.

Lemma peek_encoded w bs format maximum :
  u64 fields → version w = 1 → encode_wire w format = Ok bs → zlen bs ≤ maximum →
  peek_version bs format maximum = Ok tt.
Proof using CborVersioned0.
  unfold encode_wire. intros Hf Hv. destruct (into_writer w) as [enc|] eqn:Ee; [|done]. intros [= ->] Hl.
  destruct (cbor_version _ _ Ee) as [rest ->]. rewrite Hv in Hl |- *.
  rewrite peek_version_head; (done || ulia).
Qed.
End versioned.

(** ** Paths *)

Lemma path_bytes_back p : string_of_list_byte (path_bytes p) = p.
Proof. apply string_of_list_byte_of_string. Qed.

Lemma path_from_to_wire p w : path_to_wire p = Ok w → path_from_wire w = Ok p.
Proof.
  unfold path_to_wire, path_from_wire, check_path_len.
  destruct (Z.ltb_spec MAX_PATH_BYTES (zlen (path_bytes p))) as [|Hl]; [done|]. cbn.
  case_bool_decide as Hu; intros [= <-]; cbn [pw_kind pw_bytes];
    rewrite (proj2 (Z.ltb_ge _ _)) by done; cbn.
  - destruct (from_utf8 _); [by rewrite path_bytes_back|by destruct Hu].
  - unfold unix_path_from_bytes. by rewrite path_bytes_back.
Qed.

Lemma path_to_wire_length p w : path_to_wire p = Ok w → pw_bytes w = path_bytes p ∧ zlen (pw_bytes w) ≤ MAX_PATH_BYTES.
Proof.
  unfold path_to_wire, check_path_len.
  destruct (Z.ltb_spec MAX_PATH_BYTES (zlen (path_bytes p))); [done|]. cbn.
  case_bool_decide; by intros [= <-].
Qed.

(** A path's encoding adds at most sixteen bytes to it: the array, the kind, the string's head. *)
Class PathWireSize `{Cbor PathWire} :=
  path_wire_size w bs : into_writer w = Ok bs → zlen bs ≤ zlen (pw_bytes w) + 16.

Lemma decode_encode_path `{Cbor PathWire, !CborReads PathWire (λ _, True), !PathWireSize} p bs :
  encode_path p = Ok bs → decode_path bs = Ok p.
Proof.
  unfold encode_path, decode_path. destruct (path_to_wire p) as [w|] eqn:Ew; [|done]. intros He.
  destruct (path_to_wire_length _ _ Ew) as [_ Hl].
  assert (Hs : zlen bs ≤ zlen (pw_bytes w) + 16).
  { unfold encode_wire in He. destruct (into_writer w) as [enc|] eqn:E; [|done].
    injection He as <-. by apply path_wire_size. }
  unfold check_payload_len. rewrite (proj2 (Z.ltb_ge _ _)) by lia.
  destruct (decode_encode_wire _ _ _ He I) as [-> ->]. by apply path_from_to_wire.
Qed.

(** ** Values the program can hold

    What the private constructors of Rust's types guarantee of a record's fields. *)

Section representable.
Context {Url : Type} `{UrlCrate Url}.

Definition secret_ok (s : SecretRef) : Prop := SecretRef_new (secret_text s) = Ok s.
Definition public_ok (t : str) : Prop := PublicUrl_parse t = Ok t.
Definition on_some {A} (P : A → Prop) (o : option A) : Prop :=
  match o with Some x => P x | None => True end.
Definition reference_ok (r : UrlReference) : Prop :=
  public_ok (public_url r) ∧ on_some secret_ok (secret_ref r).
Definition range_ok (r : RangeSupport) : Prop :=
  match r with
  | Proven p => ∃ requested status content_range content_encoding body_len, wf_request requested ∧
      from_observed_response requested status content_range content_encoding body_len = Ok p
  | _ => True
  end.
Definition id_ok (id : DownloadId) : Prop := download_id_from_slice (as_bytes id) = Ok id.
Definition kind_ok (k : DownloadErrorKind) : Prop := DownloadErrorKind_new (kind_text k) = Ok k.
Definition i32 (z : Z) : Prop := -2147483648 ≤ z ≤ 2147483647.

Record identity_ok (i : IdentityMetadata) : Prop := {
  ok_current : reference_ok (current_url i);
  ok_final : on_some reference_ok (final_url i);
  ok_redirects : Forall reference_ok (redirect_chain i);
  ok_page : on_some reference_ok (page_url i);
  ok_origin : public_ok (origin i);
  ok_context : on_some secret_ok (request_context_ref i);
  ok_probed : 0 ≤ probed_at_ms i;
  ok_range : range_ok (range_support i);
}.

Record representable (m : DownloadMetadata) : Prop := {
  ok_id : id_ok (md_id m);
  ok_created : 0 ≤ md_created_at_ms m;
  ok_updated : 0 ≤ md_updated_at_ms m;
  ok_total : on_some (λ t, 0 ≤ t) (md_total_length m);
  ok_covered : 0 ≤ md_covered_bytes m;
  ok_queue : on_some (λ q, 0 ≤ q) (md_queue_position m);
  ok_priority : i32 (md_priority m);
  ok_kind : on_some kind_ok (md_error_kind m);
  ok_identity : identity_ok (md_identity m);
  ok_history : Forall (λ e, reference_ok (h_url e) ∧ 0 ≤ h_seen_at_ms e) (md_url_history m);
}.

Lemma id_ok_length id : id_ok id → zlen (as_bytes id) = 16.
Proof. unfold id_ok, download_id_from_slice. destruct (Z.eqb_spec (zlen (as_bytes id)) 16); done. Qed.

(** What a constructor returned, it returns again. *)
Lemma SecretRef_new_ok raw s : SecretRef_new raw = Ok s → secret_text s = raw ∧ secret_ok s.
Proof.
  intros Hs. assert (secret_text s = raw) as Ht.
  { revert Hs. unfold SecretRef_new. case_bool; [done|]. destruct (strip_prefix _ _); [|done].
    destruct (_ || _); [done|]. by intros [= <-]. }
  split; [done|]. unfold secret_ok. by rewrite Ht.
Qed.
Lemma DownloadErrorKind_new_ok raw k : DownloadErrorKind_new raw = Ok k → kind_ok k.
Proof.
  intros Hk. assert (kind_text k = raw) as Ht.
  { revert Hk. unfold DownloadErrorKind_new. destruct (_ || _); [done|]. destruct (negb _); [done|].
    by intros [= <-]. }
  unfold kind_ok. by rewrite Ht.
Qed.
Lemma download_id_from_slice_ok bytes id :
  download_id_from_slice bytes = Ok id → as_bytes id = bytes ∧ id_ok id.
Proof.
  intros Hid. assert (as_bytes id = bytes) as Hb.
  { revert Hid. unfold download_id_from_slice, DownloadId_try_from_bytes. repeat case_bool; try done.
    all: by intros [= <-]. }
  split; [done|]. unfold id_ok. by rewrite Hb.
Qed.

Lemma try_from_url_Ok u t : try_from_url u = Ok t →
  t = url_str u ∧ http_scheme u = true ∧ has_private_component u = false ∧
  str_len t ≤ MAX_URL_BYTES.
Proof.
  unfold try_from_url, check_len. destruct (http_scheme u); [|done]. cbn [negb].
  destruct (has_private_component u); [done|].
  destruct (Z.ltb_spec MAX_URL_BYTES (str_len (url_str u))); [done|]. by intros [= <-].
Qed.

Lemma PublicUrl_parse_ok `{!UrlLaws Url} raw t : PublicUrl_parse raw = Ok t → public_ok t.
Proof.
  unfold public_ok, PublicUrl_parse. destruct (Url_parse raw) as [u|]; [|done]. cbn. intros Ht.
  destruct (try_from_url_Ok _ _ Ht) as (-> & _). by rewrite url_reparse.
Qed.

Lemma reference_from_parts_id r : reference_ok r →
  url_reference_from_parts (public_url r) (optional_secret_text (secret_ref r)) = Ok r.
Proof.
  intros [Hp Hs]. unfold url_reference_from_parts. rewrite Hp. unfold optional_secret_text.
  rewrite transpose_map_id by done. by destruct r.
Qed.
Lemma optional_reference_from_parts_id o : on_some reference_ok o →
  optional_url_reference_from_parts (fst (optional_url_parts o)) (snd (optional_url_parts o)) = Ok o.
Proof. destruct o as [r|]; cbn; [|done]. intros Hr. by rewrite reference_from_parts_id. Qed.
Lemma reference_wire_id r : reference_ok r → into_reference (from_reference r) = Ok r.
Proof. apply reference_from_parts_id. Qed.
End representable.

(** ** Range evidence *)

Lemma proven_back `{CborObservationLaws} p bs :
  range_ok (Proven p) → encode_range_observation (observation p) = Ok bs →
  decode_range_observation bs = Ok (observation p) ∧
  from_observed_response (o_requested (observation p)) (o_status (observation p))
    (o_content_range (observation p)) (o_content_encoding (observation p))
    (o_body_len (observation p)) = Ok p.
Proof.
  intros (rq & st & cr & ce & bl & Hwf & Hp) Ee. split; [by apply decode_encode_observation|].
  pose proof (proj1 (from_observed_response_spec _ _ _ _ _ _ Hwf) Hp)
    as (_ & _ & h & f & l & t & _ & _ & _ & _ & ->). exact Hp.
Qed.

Lemma range_wire_back `{CborObservationLaws} r state encoded :
  range_ok r → range_support_to_wire r = Ok (state, encoded) →
  range_support_from_wire state encoded = Ok r.
Proof.
  intros Hr. destruct r as [p| |]; cbn [range_support_to_wire]; [|by intros [= <- <-]..].
  destruct (encode_range_observation (observation p)) as [bs|] eqn:Ee; [|done]. intros [= <- <-].
  destruct (proven_back _ _ Hr Ee) as [Hd Hp]. unfold range_support_from_wire. by rewrite Hd, Hp.
Qed.
Lemma range_parts_back `{CborObservationLaws} r state encoded :
  range_ok r → range_support_parts r = Ok (state, encoded) →
  range_support_from_parts state encoded = Ok r.
Proof.
  intros Hr. destruct r as [p| |]; cbn [range_support_parts]; [|by intros [= <- <-]..].
  destruct (encode_range_observation (observation p)) as [bs|] eqn:Ee; [|done]. intros [= <- <-].
  destruct (proven_back _ _ Hr Ee) as [Hd Hp]. unfold range_support_from_parts.
  rewrite bool_decide_eq_true_2 by done. by rewrite Hd, Hp.
Qed.

(** ** Snapshots *)

Lemma check_some_Ok {A} (f : A → result unit MetadataError) o :
  check_some f o = Ok tt → on_some (λ x, f x = Ok tt) o.
Proof. by destruct o. Qed.

(** What validation says of a record, as far as reading it back needs it. *)
Lemma validate_identity_digest `{Cbor RangeObservationWireV1} i :
  validate_identity i = Ok tt → on_some (λ d, encoded d ≠ []) (server_digest i).
Proof.
  unfold validate_identity. intros Hv. inv_ok Hv.
  destruct (server_digest i) as [d|]; [|done]. cbn [check_some on_some] in *.
  destruct (check_len "server_digest" _ _); [|done]. by case_bool_decide.
Qed.
Lemma validate_metadata_Ok `{Cbor RangeObservationWireV1} m : validate_metadata m = Ok tt →
  zlen (redirect_chain (md_identity m)) ≤ MAX_REDIRECTS ∧
  zlen (md_url_history m) ≤ MAX_HISTORY_ENTRIES ∧
  on_some (λ d, encoded d ≠ []) (server_digest (md_identity m)).
Proof.
  unfold validate_metadata. intros Hv. inv_ok Hv.
  split; [by apply Z.ltb_ge|]. split; [by apply Z.ltb_ge|]. apply validate_identity_digest.
  by repeat match goal with u : unit |- _ => destruct u end.
Qed.

Section snapshot_back.
Context {Url : Type} `{UrlLaws Url} `{CborObservationLaws} `{Cbor IdentitySnapshotWireV1}.
Context `{!CborReads IdentitySnapshotWireV1 snapshot_bounded}.
Context `{!CborVersioned IdentitySnapshotWireV1 15 sw_version}.

Lemma identity_wire_back i range_state range_observation :
  identity_ok i → on_some (λ d, encoded d ≠ []) (server_digest i) →
  identity_from_wire
    (MkIdentityWire (from_reference (current_url i)) (option_map from_reference (final_url i))
      (map from_reference (redirect_chain i)) (option_map from_reference (page_url i)) (origin i)
      (from_validator (validator i)) (option_map from_digest (server_digest i)) (content_type i)
      (suggested_filename i) (option_map secret_text (request_context_ref i)) (probed_at_ms i)
      (protocol_code (protocol i)) range_state range_observation) (range_support i) = Ok i.
Proof.
  intros [Hc Hf Hr Hp Ho Hx _ _] Hd. unfold identity_from_wire. cbn [iw_current_url iw_final_url
    iw_redirect_chain iw_page_url iw_origin iw_validator iw_digest iw_request_context_ref iw_protocol].
  rewrite (reference_wire_id _ Hc).
  rewrite transpose_map_id by (destruct (final_url i); [by apply reference_wire_id|done]).
  rewrite collect_map_id by (eapply Forall_impl; [exact Hr|]; intros; by apply reference_wire_id).
  rewrite transpose_map_id by (destruct (page_url i); [by apply reference_wire_id|done]).
  rewrite Ho. rewrite (proj2 (into_validator_spec _ _) eq_refl).
  rewrite transpose_map_id by (destruct (server_digest i); [by apply into_digest_spec|done]).
  rewrite transpose_map_id by done. rewrite (proj2 (protocol_from_code_spec _ _) eq_refl).
  by destruct i.
Qed.

Lemma into_from_metadata m w :
  representable m → on_some (λ d, encoded d ≠ []) (server_digest (md_identity m)) →
  from_metadata m = Ok w → into_metadata w = Ok m.
Proof.
  intros Hm Hd. unfold from_metadata.
  destruct (range_support_to_wire _) as [[state obs]|] eqn:Er; [|done].
  destruct (path_to_wire (md_target_path m)) as [t|] eqn:Et; [|done].
  destruct (path_to_wire (md_part_path m)) as [p|] eqn:Ep; [|done]. intros [= <-].
  unfold into_metadata. cbn -[identity_from_wire state_code protocol_code from_validator].
  destruct Hm as [Hid _ _ _ _ _ _ Hk Hi Hh].
  rewrite (range_wire_back _ _ _ (ok_range _ Hi) Er). red in Hid. rewrite Hid.
  rewrite (proj2 (state_from_code_spec _ _) eq_refl).
  rewrite (path_from_to_wire _ _ Et), (path_from_to_wire _ _ Ep), transpose_map_id by done.
  rewrite identity_wire_back by done.
  rewrite collect_map_id; [by destruct m|].
  eapply Forall_impl; [exact Hh|]. intros e [He _]. unfold history_from_wire. cbn [fst snd].
  rewrite (reference_wire_id _ He). by destruct e.
Qed.

Lemma from_metadata_bounded m w : from_metadata m = Ok w →
  sw_version w = 1 ∧ zlen (iw_redirect_chain (sw_identity w)) = zlen (redirect_chain (md_identity m)) ∧
  zlen (sw_url_history w) = zlen (md_url_history m).
Proof.
  unfold from_metadata. destruct (range_support_to_wire _) as [[state obs]|]; [|done].
  destruct (path_to_wire (md_target_path m)); [|done].
  destruct (path_to_wire (md_part_path m)); [|done]. intros [= <-].
  cbn. unfold zlen. by rewrite !length_map.
Qed.

Lemma decode_encode_snapshot m bs :
  representable m → encode_identity_snapshot m = Ok bs → decode_identity_snapshot bs = Ok m.
Proof.
  intros Hm. unfold encode_identity_snapshot.
  destruct (validate_metadata m) as [[]|] eqn:Hv; [|done].
  destruct (from_metadata m) as [w|] eqn:Ew; [|done].
  destruct (encode_wire w FIdentitySnapshot) as [enc|] eqn:Ee; [|done].
  unfold check_payload_len. destruct (Z.ltb_spec Format.MAX_PAYLOAD_LEN (zlen enc)); [done|].
  intros [= <-]. destruct (validate_metadata_Ok _ Hv) as (Hr & Hh & Hd).
  destruct (from_metadata_bounded _ _ Ew) as (Hver & Hrl & Hhl).
  assert (Hb : snapshot_bounded w) by (split; lia).
  unfold decode_identity_snapshot.
  rewrite (peek_encoded (fields := 15) (version := sw_version) w) by (done || ulia).
  destruct (decode_encode_wire _ _ _ Ee Hb) as [-> ->].
  rewrite (into_from_metadata _ _ Hm Hd Ew). by rewrite Hv.
Qed.
End snapshot_back.

(** ** What decoding lets in *)

(** The integers a decoder returns are of their field's type. *)
Class CborRanges (W : Type) `{Cbor W} (ok : W → Prop) :=
  cbor_ranges bs w n : from_reader bs = Ok (w, n) → ok w.
Definition observation_ranges (w : RangeObservationWireV1) : Prop :=
  u64 (w_first w) ∧ on_some u64 (w_second w).
Definition snapshot_ranges (w : IdentitySnapshotWireV1) : Prop :=
  u64 (sw_created_at_ms w) ∧ u64 (sw_updated_at_ms w) ∧ on_some u64 (sw_total_length w) ∧
  u64 (sw_covered_bytes w) ∧ on_some u64 (sw_queue_position w) ∧ i32 (sw_priority w) ∧
  u64 (iw_probed_at_ms (sw_identity w)) ∧ Forall (λ e, u64 (snd e)) (sw_url_history w).

Lemma transpose_map_Ok {A B E} (f : A → result B E) (P : B → Prop) o o' :
  transpose_map f o = Ok o' → (∀ a b, f a = Ok b → P b) → on_some P o'.
Proof.
  destruct o as [a|]; cbn; [|by intros [= <-]]. destruct (f a) as [b|] eqn:E0; [|done].
  intros [= <-] HP. cbn. by eapply HP.
Qed.
Lemma collect_map_Ok {A B E} (f : A → result B E) (P : A → Prop) (Q : B → Prop) l l' :
  collect_map f l = Ok l' → Forall P l → (∀ a b, P a → f a = Ok b → Q b) → Forall Q l'.
Proof.
  intros Hl HP Hf. revert l' Hl. induction HP as [|a l Ha _ IH]; cbn; intros l'; [by intros [= <-]|].
  destruct (f a) as [b|] eqn:E0; [|done]. destruct (collect_map f l) as [bs|]; [|done].
  intros [= <-]. constructor; [by eapply Hf|by apply IH].
Qed.

Section decoded.
Context {Url : Type} `{UrlLaws Url} `{Cbor RangeObservationWireV1, Cbor IdentitySnapshotWireV1}.
Context `{!CborRanges RangeObservationWireV1 observation_ranges}.
Context `{!CborRanges IdentitySnapshotWireV1 snapshot_ranges}.

Lemma reference_from_parts_ok public reference r :
  url_reference_from_parts public reference = Ok r → reference_ok r.
Proof.
  unfold url_reference_from_parts. destruct (PublicUrl_parse public) as [p|] eqn:Ep; [|done].
  destruct (transpose_map _ _) as [o|] eqn:Eo; [|done]. intros [= <-]. split; cbn.
  - by eapply PublicUrl_parse_ok.
  - eapply transpose_map_Ok; [exact Eo|]. intros raw s Hs. by apply SecretRef_new_ok in Hs as [_ ?].
Qed.

Lemma decode_range_observation_wf bs o :
  decode_range_observation bs = Ok o → wf_request (o_requested o).
Proof.
  unfold decode_range_observation, decode_wire, into_observation.
  destruct (peek_version _ _ _); [|done]. destruct (from_reader bs) as [[w n]|] eqn:Ew; [|done].
  cbn [map_err]. destruct (negb _); [done|]. destruct (require_canonical _ _ _); [|done].
  pose proof (cbor_ranges _ _ _ Ew) as [Hf Hs].
  destruct (w_kind w) as [|k|]; [|repeat (destruct k as [k|k|]; try done)|done];
    destruct (w_second w) as [l|]; try done;
    destruct (check_optional_len _ (w_content_range w)); try done;
    destruct (check_optional_len _ (w_content_encoding w)); try done;
    intros [= <-]; cbn in *; auto.
Qed.

Lemma range_from_wire_ok state encoded r : range_support_from_wire state encoded = Ok r → range_ok r.
Proof.
  unfold range_support_from_wire. intros Hr.
  destruct state as [|k|]; [|repeat (destruct k as [k|k|]; try done)|done];
    destruct encoded as [bs|]; try done; try (injection Hr as <-; exact I).
  destruct (decode_range_observation bs) as [o|] eqn:Eo; [|done].
  destruct (from_observed_response _ _ _ _ _) as [p|] eqn:Ep; [|done]. injection Hr as <-.
  do 5 eexists. split; [by eapply decode_range_observation_wf|exact Ep].
Qed.

Lemma identity_from_wire_ok w r i :
  identity_from_wire w r = Ok i → range_ok r → u64 (iw_probed_at_ms w) → identity_ok i.
Proof.
  unfold identity_from_wire, into_reference. intros Hi Hr Hp.
  repeat (match type of Hi with (match ?m with Ok _ => _ | Err _ => _ end) = _ =>
    destruct m eqn:?; [|discriminate Hi] end).
  injection Hi as <-. split; cbn; try done; try (by eapply reference_from_parts_ok).
  - eapply transpose_map_Ok; [eassumption|]. intros ? ? Hx. by apply reference_from_parts_ok in Hx.
  - eapply (collect_map_Ok _ (λ _, True)); [eassumption|by apply Forall_forall|].
    intros ? ? _ Hx. by apply reference_from_parts_ok in Hx.
  - eapply transpose_map_Ok; [eassumption|]. intros ? ? Hx. by apply reference_from_parts_ok in Hx.
  - by eapply PublicUrl_parse_ok.
  - eapply transpose_map_Ok; [eassumption|]. intros ? ? Hs. by apply SecretRef_new_ok in Hs as [_ ?].
  - by destruct Hp.
Qed.

Lemma into_metadata_ok w m : into_metadata w = Ok m → snapshot_ranges w → representable m.
Proof.
  unfold into_metadata. intros Hm (Hc & Hu & Ht & Hcov & Hq & Hpr & Hpb & Hh).
  repeat (match type of Hm with (match ?m with Ok _ => _ | Err _ => _ end) = _ =>
    destruct m eqn:?; [|discriminate Hm] end).
  injection Hm as <-. split; cbn; try (ulia || done).
  - eapply download_id_from_slice_ok. eassumption.
  - destruct (sw_total_length w); [cbn in *; ulia|done].
  - destruct (sw_queue_position w); [cbn in *; ulia|done].
  - eapply transpose_map_Ok; [eassumption|]. intros ? ? Hs. by eapply DownloadErrorKind_new_ok.
  - eapply identity_from_wire_ok; [eassumption| |done]. by eapply range_from_wire_ok.
  - eapply collect_map_Ok; [eassumption|exact Hh|]. intros [r s] e Hs. unfold history_from_wire, into_reference.
    destruct (url_reference_from_parts _ _) as [u|] eqn:Eu; [|done]. intros [= <-]. cbn in *.
    split; [by eapply reference_from_parts_ok|ulia].
Qed.

Lemma decode_snapshot_ok bs m :
  decode_identity_snapshot bs = Ok m → representable m ∧ validate_metadata m = Ok tt.
Proof.
  unfold decode_identity_snapshot, decode_wire. destruct (peek_version _ _ _); [|done].
  destruct (from_reader bs) as [[w n]|] eqn:Ew; [|done]. cbn [map_err].
  destruct (negb _); [done|]. destruct (require_canonical _ _ _); [|done].
  destruct (into_metadata w) as [m'|] eqn:Em; [|done].
  destruct (validate_metadata m') as [[]|] eqn:Hv; [|done]. intros [= <-].
  split; [|done]. eapply into_metadata_ok; [exact Em|by eapply cbor_ranges].
Qed.
End decoded.

(** ** Properties *)

(** The text of an HTTP(S) URL without userinfo, query or fragment, within the bound. *)
Definition public_only {Url} `{UrlCrate Url} (t : str) : Prop :=
  ∃ u, Url_parse t = Some u ∧ http_scheme u = true ∧ username u = [] ∧ password u = None ∧
    query u = None ∧ fragment u = None ∧ str_len t ≤ MAX_URL_BYTES.

Lemma public_ok_only {Url} `{UrlCrate Url} t : public_ok t → public_only t.
Proof.
  unfold public_ok, PublicUrl_parse. destruct (Url_parse t) as [u|] eqn:Eu; [|done]. cbn. intros Ht.
  destruct (try_from_url_Ok _ _ Ht) as (_ & Hs & Hp & Hl). exists u. unfold has_private_component in Hp.
  apply orb_false_elim in Hp as [Hp Hf]. apply orb_false_elim in Hp as [Hp Hq].
  apply orb_false_elim in Hp as [Hu Hw].
  apply negb_false_iff, bool_decide_eq_true in Hu. apply bool_decide_eq_false in Hf, Hq, Hw.
  rewrite <- eq_None_not_Some in Hf, Hq, Hw. done.
Qed.

(** C32: Secrets stay out of what is stored.  However a URL reference comes to be, from a working
    URL, from a snapshot or from a row, its text is an HTTP(S) URL without userinfo, query or
    fragment, and reading that text again gives it back.  A working URL with such a component is
    refused unless a keyring locator is given for it, and the locator is kept. *)
Theorem secrets_stay_out {Url} `{UrlLaws Url} :
  (∀ raw secret r, UrlReference_parse raw secret = Ok r →
     secret_ref r = secret ∧ public_ok (public_url r) ∧ public_only (public_url r) ∧
     ∀ u, Url_parse raw = Some u → has_private_component u = true → secret ≠ None) ∧
  (∀ raw u, Url_parse raw = Some u → http_scheme u = true → has_private_component u = true →
     UrlReference_parse raw None = Err SecretReferenceRequired) ∧
  (∀ public reference r, url_reference_from_parts public reference = Ok r →
     reference_ok r ∧ public_only (public_url r)) ∧
  (∀ w r, into_reference w = Ok r → reference_ok r ∧ public_only (public_url r)).
Proof.
  assert (Hparts : ∀ public reference r, url_reference_from_parts public reference = Ok r →
    reference_ok r ∧ public_only (public_url r)).
  { intros public reference r Hr. apply reference_from_parts_ok in Hr. split; [done|].
    by apply public_ok_only, Hr. }
  split; [|split; [|split]].
  - intros raw secret r. unfold UrlReference_parse. destruct (Url_parse raw) as [u|]; [|done]. cbn [ok_or].
    destruct (http_scheme u); [|done]. cbn [negb].
    destruct (has_private_component u && bool_decide (secret = None)) eqn:Eh; [done|].
    destruct (if has_private_component u then _ else _) as [u'|]; [|done].
    destruct (try_from_url u') as [t|] eqn:Et; [|done]. intros [= <-]. cbn.
    assert (Hok : public_ok t).
    { destruct (try_from_url_Ok _ _ Et) as (-> & _). unfold public_ok, PublicUrl_parse.
      by rewrite url_reparse. }
    split; [done|]. split; [done|]. split; [by apply public_ok_only|].
    intros u0 [= <-] Hpriv ->. by rewrite Hpriv in Eh.
  - intros raw u Hu Hs Hp. unfold UrlReference_parse. rewrite Hu. cbn [ok_or]. by rewrite Hs, Hp.
  - exact Hparts.
  - intros w r. apply Hparts.
Qed.

(** C33: A snapshot is the record.  The identity snapshot of any record the program can hold, once
    encoded, decodes to that record and fits a journal record; and whatever bytes decode, what they
    decode to is a record the program could hold, whose every stored rule holds again. *)
Theorem snapshot_is_the_record {Url} `{UrlLaws Url} `{CborObservationLaws}
    `{Cbor IdentitySnapshotWireV1} `{!CborReads IdentitySnapshotWireV1 snapshot_bounded}
    `{!CborVersioned IdentitySnapshotWireV1 15 sw_version}
    `{!CborRanges RangeObservationWireV1 observation_ranges}
    `{!CborRanges IdentitySnapshotWireV1 snapshot_ranges} m bs :
  (representable m → encode_identity_snapshot m = Ok bs →
   decode_identity_snapshot bs = Ok m ∧ zlen bs ≤ Format.MAX_PAYLOAD_LEN) ∧
  (decode_identity_snapshot bs = Ok m → representable m ∧ validate_metadata m = Ok tt).
Proof.
  split; [|by apply decode_snapshot_ok]. intros Hm He. split; [by apply decode_encode_snapshot|].
  revert He. unfold encode_identity_snapshot, check_payload_len.
  destruct (validate_metadata m); [|done]. destruct (from_metadata m); [|done].
  destruct (encode_wire _ _) as [enc|]; [|done].
  destruct (Z.ltb_spec Format.MAX_PAYLOAD_LEN (zlen enc)); [done|]. by intros [= <-].
Qed.

End Identity.
