(* ===== verification/Schema.v ===== *)
(** * [downpour-storage/src/metadata.rs]: opening the metadata store

    The schema version, the comparison of the schema with the reference built in memory, the
    connection policy, and [MetadataStore::open_database], over SQLite as a parameter that may fail
    at any call. *)

From S2P Require Import Prelude PartFile Str Metadata.
From Stdlib Require Import String.
From stdpp Require Import list strings.
#[local] Open Scope Z_scope.

Module Schema.
Import PartFile.PartFile Str.Str Metadata.Metadata.


Definition SCHEMA_VERSION : Z := 1.
Definition BUSY_TIMEOUT_MS : Z := 5000.

(** Type, name, table and SQL of an object of [sqlite_schema]. *)
Definition SchemaObject : Type := string * string * string * option string.

(** What SQLite reports of a connection's pragmas. *)
Record Pragmas := MkPragmas {
  pr_journal_mode : str;
  pr_synchronous : Z;
  pr_foreign_keys : Z;
  pr_busy_timeout : Z;
  pr_trusted_schema : Z;
}.
Record ConnectionSettings := MkSettings {
  cs_journal_mode : str;
  cs_synchronous : Z;
  cs_foreign_keys : bool;
  cs_busy_timeout_ms : Z;
  cs_trusted_schema : bool;
}.

(** A database: [PRAGMA user_version], the objects that are not SQLite's own, by type and name,
    the pages of the file, and the connection's pragmas. *)
Record DbFile := MkDbFile {
  df_user_version : Z;
  df_objects : list SchemaObject;
  df_pages : Z;
  df_pragmas : Pragmas;
}.

Inductive OpenCall :=
| Connect | ReadVersion | CountObjects | CountPages | BeginSchema | RunSchema | CommitSchema
| OpenReference | RunReference | Describe | DescribeReference
| SetJournalMode | SetSynchronous | SetForeignKeys | SetBusyTimeout | SetTrustedSchema
| GetJournalMode | GetSynchronous | GetForeignKeys | GetBusyTimeout | GetTrustedSchema.

(** SQLite at the [n]-th call of an opening; the objects and pages that running [SCHEMA_SQL] on an
    empty database gives; and what a pragma update makes of the pragmas. *)
Class SqliteOpening := {
  open_fault : nat → OpenCall → option string;
  schema_v1 : list SchemaObject;
  schema_pages : Z;
  set_pragma : OpenCall → Pragmas → Pragmas;
  version_out_of_range : Z → string;
  older_version : Z → string;
}.

Record Opening := MkOpening { op_file : DbFile; op_calls : nat }.
Definition OpenM (A : Type) : Type := Opening → result A MetadataError * Opening.
Definition bind_open {A B} (m : OpenM A) (k : A → OpenM B) : OpenM B := λ o,
  let '(r, o) := m o in
  match r with Ok a => k a o | Err e => (Err e, o) end.
#[local] Notation "'open!' x := m 'in' k" := (bind_open m (λ x, k))
  (at level 200, x pattern, m at level 100, k at level 200).

Section opening.
Context `{SqliteOpening}.

Definition give {A} (r : result A MetadataError) : OpenM A := λ o, (r, o).
(** One call: its answer from the database, and what it makes of it. *)
Definition call {A} (c : OpenCall) (answer : DbFile → A) (effect : DbFile → DbFile) : OpenM A := λ o,
  match open_fault (op_calls o) c with
  | Some detail => (Err (Sqlite detail), MkOpening (op_file o) (S (op_calls o)))
  | None => (Ok (answer (op_file o)), MkOpening (effect (op_file o)) (S (op_calls o)))
  end.
Definition ask {A} (c : OpenCall) (answer : DbFile → A) : OpenM A := call c answer (λ f, f).

(** [PRAGMA user_version] read as a [u32]. *)
Definition schema_version : OpenM Z :=
  open! version := ask ReadVersion df_user_version in
  give (if version <? 0 then Err (Sqlite (version_out_of_range version)) else Ok version).
Definition schema_object_count : OpenM Z :=
  open! count := ask CountObjects (λ f, zlen (df_objects f)) in
  give (rust_u64 "sqlite_schema.count" count).
Definition physical_page_count : OpenM Z :=
  open! count := ask CountPages df_pages in give (rust_u64 "page_count" count).

#[export] Instance SchemaObject_eq_dec : EqDecision SchemaObject := _.
Definition validate_schema : OpenM unit :=
  open! _ := ask OpenReference (λ _, tt) in
  open! _ := ask RunReference (λ _, tt) in
  open! found := ask Describe df_objects in
  open! reference := ask DescribeReference (λ _, schema_v1) in
  give (if bool_decide (found = reference) then Ok tt
        else Err (InvalidSchema "tables, constraints, or indexes differ from schema v1")).

(** The schema's own transaction. *)
Definition create_schema : OpenM unit := λ o,
  let '(r, after) :=
    bind_open (ask BeginSchema (λ _, tt)) (λ _,
    bind_open (call RunSchema (λ _, tt)
      (λ f, MkDbFile SCHEMA_VERSION (df_objects f ++ schema_v1) schema_pages (df_pragmas f)))
      (λ _, ask CommitSchema (λ _, tt))) o in
  match r with
  | Ok _ => (Ok tt, after)
  | Err e => (Err e, MkOpening (op_file o) (op_calls after))
  end.

Definition with_pragmas (g : Pragmas → Pragmas) (f : DbFile) : DbFile :=
  MkDbFile (df_user_version f) (df_objects f) (df_pages f) (g (df_pragmas f)).
Definition pragma_update (c : OpenCall) : OpenM unit :=
  call c (λ _, tt) (with_pragmas (set_pragma c)).
Definition apply_connection_policy : OpenM unit :=
  open! _ := pragma_update SetJournalMode in
  open! _ := pragma_update SetSynchronous in
  open! _ := pragma_update SetForeignKeys in
  open! _ := pragma_update SetBusyTimeout in
  pragma_update SetTrustedSchema.

Definition connection_settings : OpenM ConnectionSettings :=
  open! journal_mode := ask GetJournalMode (λ f, pr_journal_mode (df_pragmas f)) in
  open! synchronous := ask GetSynchronous (λ f, pr_synchronous (df_pragmas f)) in
  open! foreign_keys := ask GetForeignKeys (λ f, pr_foreign_keys (df_pragmas f)) in
  open! busy_timeout_ms := ask GetBusyTimeout (λ f, pr_busy_timeout (df_pragmas f)) in
  open! trusted_schema := ask GetTrustedSchema (λ f, pr_trusted_schema (df_pragmas f)) in
  give (Ok (MkSettings journal_mode synchronous (foreign_keys =? 1) busy_timeout_ms
              (trusted_schema =? 1))).

Definition policy (s : ConnectionSettings) : result unit MetadataError :=
  if negb (eq_ignore_ascii_case (cs_journal_mode s) (lit "wal"))
  then Err (InvalidConnectionPolicy "journal_mode is not WAL")
  else if negb (cs_synchronous s =? 1)
  then Err (InvalidConnectionPolicy "synchronous is not NORMAL")
  else if negb (cs_foreign_keys s) then Err (InvalidConnectionPolicy "foreign_keys is disabled")
  else
    let? timeout :=
      ok_or (i64_try_from BUSY_TIMEOUT_MS)
        (InvalidConnectionPolicy "busy-timeout constant does not fit SQLite") in
    if negb (cs_busy_timeout_ms s =? timeout)
    then Err (InvalidConnectionPolicy "busy_timeout is not 5000 ms")
    else if cs_trusted_schema s
    then Err (InvalidConnectionPolicy "trusted_schema is enabled")
    else Ok tt.
Definition verify_connection_policy : OpenM unit :=
  open! settings := connection_settings in give (policy settings).

Definition open_store : OpenM unit :=
  open! _ := ask Connect (λ _, tt) in
  open! version := schema_version in
  open! _ :=
    (if version =? 0 then
       open! objects := schema_object_count in
       open! pages := (if negb (objects =? 0) then give (Ok 1) else physical_page_count) in
       if negb (objects =? 0) || negb (pages =? 0) then give (Err UnversionedNonemptyDatabase)
       else create_schema
     else if version =? SCHEMA_VERSION then validate_schema
     else if SCHEMA_VERSION <? version
     then give (Err (NewerSchemaVersion version SCHEMA_VERSION))
     else give (Err (InvalidSchema (older_version version)))) in
  open! _ := validate_schema in
  open! _ := apply_connection_policy in
  verify_connection_policy.
End opening.

(** ** How an opening runs *)

Section opening_facts.
Context `{SqliteOpening}.

Definition open_faulted (e : MetadataError) : Prop :=
  ∃ n c detail, open_fault n c = Some detail ∧ e = Sqlite detail.

(** From [f], [m] ends with [Q], or in an error with [R]. *)
Definition wpo {A} (m : OpenM A) (Q : A → DbFile → Prop) (R : MetadataError → DbFile → Prop)
    (f : DbFile) : Prop :=
  ∀ n, match m (MkOpening f n) with
       | (Ok a, o) => Q a (op_file o)
       | (Err e, o) => R e (op_file o)
       end.

Lemma wpo_bind {A B} (m : OpenM A) (k : A → OpenM B) Q R f :
  wpo m (λ a, wpo (k a) Q R) R f → wpo (bind_open m k) Q R f.
Proof.
  intros Hm n. specialize (Hm n). unfold bind_open. destruct (m (MkOpening f n)) as [[a|e] [f' n']]; [|done].
  apply Hm.
Qed.
Lemma wpo_give {A} (r : result A MetadataError) (Q : A → DbFile → Prop) (R : MetadataError → DbFile → Prop) f :
  match r with Ok a => Q a f | Err e => R e f end → wpo (give r) Q R f.
Proof. intros Hr n. unfold give. destruct r; done. Qed.
Lemma wpo_call {A} c (answer : DbFile → A) effect (Q : A → DbFile → Prop) (R : MetadataError → DbFile → Prop) f :
  (∀ e, open_faulted e → R e f) → Q (answer f) (effect f) → wpo (call c answer effect) Q R f.
Proof.
  intros Hf Hq n. unfold call. cbn. destruct (open_fault n c) as [d|] eqn:Ed; [|done].
  apply Hf. by exists n, c, d.
Qed.
Lemma wpo_ask {A} c (answer : DbFile → A) (Q : A → DbFile → Prop) (R : MetadataError → DbFile → Prop) f :
  (∀ e, open_faulted e → R e f) → Q (answer f) f → wpo (ask c answer) Q R f.
Proof. intros Hf Hq. by apply wpo_call. Qed.
Lemma wpo_ask_bind {A B} c (answer : DbFile → A) (k : A → OpenM B) Q R f :
  (∀ e, open_faulted e → R e f) → wpo (k (answer f)) Q R f → wpo (bind_open (ask c answer) k) Q R f.
Proof. intros Hf Hk. apply wpo_bind. by apply wpo_ask. Qed.
Lemma wpo_mono {A} (m : OpenM A) (Q Q' : A → DbFile → Prop) (R R' : MetadataError → DbFile → Prop) f :
  wpo m Q R f → (∀ a f', Q a f' → Q' a f') → (∀ e f', R e f' → R' e f') → wpo m Q' R' f.
Proof.
  intros Hm HQ HR n. specialize (Hm n). destruct (m _) as [[a|e] o]; [by apply HQ|by apply HR].
Qed.

(** A database this program may write: of its schema, or empty. *)
Definition of_schema (f : DbFile) : Prop :=
  df_user_version f = SCHEMA_VERSION ∧ df_objects f = schema_v1.
Definition empty_database (f : DbFile) : Prop :=
  df_user_version f = 0 ∧ df_objects f = [] ∧ df_pages f = 0.

(** The settings a connection with these pragmas reports. *)
Definition settings_of (p : Pragmas) : ConnectionSettings :=
  MkSettings (pr_journal_mode p) (pr_synchronous p) (pr_foreign_keys p =? 1) (pr_busy_timeout p)
    (pr_trusted_schema p =? 1).

Lemma wpo_validate_schema (Q : unit → DbFile → Prop) (R : MetadataError → DbFile → Prop) f :
  (∀ e, open_faulted e → R e f) →
  (df_objects f = schema_v1 → Q tt f) →
  (df_objects f ≠ schema_v1 →
   R (InvalidSchema "tables, constraints, or indexes differ from schema v1") f) →
  wpo validate_schema Q R f.
Proof.
  intros Hf Hq Hr. unfold validate_schema. do 4 (apply wpo_ask_bind; [done|]). apply wpo_give.
  case_bool_decide; auto.
Qed.

(** The settings the connection reads back are not the required ones, for this reason. *)
Definition policy_broken (e : MetadataError) (f : DbFile) : Prop :=
  policy (settings_of (df_pragmas f)) = Err e ∧ ∃ reason, e = InvalidConnectionPolicy reason.

Lemma wpo_policy (Q : unit → DbFile → Prop) (R : MetadataError → DbFile → Prop) f :
  of_schema f →
  (∀ e f', of_schema f' → open_faulted e ∨ policy_broken e f' → R e f') →
  (∀ f', of_schema f' → policy (settings_of (df_pragmas f')) = Ok tt → Q tt f') →
  wpo (bind_open apply_connection_policy (λ _, verify_connection_policy)) Q R f.
Proof.
  intros Hs Hr Hq. unfold apply_connection_policy.
  assert (Hw : ∀ g f', of_schema f' → of_schema (with_pragmas g f')) by (by intros ? ? [? ?]).
  assert (Hf : ∀ f', of_schema f' → ∀ e, open_faulted e → R e f') by auto.
  apply wpo_bind. unfold pragma_update. do 4 (apply wpo_bind; apply wpo_call; [by auto 10|]).
  apply wpo_call; [by auto 10|].
  assert (Hs' : of_schema (with_pragmas (set_pragma SetTrustedSchema) (with_pragmas (set_pragma SetBusyTimeout)
    (with_pragmas (set_pragma SetForeignKeys) (with_pragmas (set_pragma SetSynchronous)
    (with_pragmas (set_pragma SetJournalMode) f)))))) by auto 10.
  revert Hs'. generalize (with_pragmas (set_pragma SetTrustedSchema) (with_pragmas (set_pragma SetBusyTimeout)
    (with_pragmas (set_pragma SetForeignKeys) (with_pragmas (set_pragma SetSynchronous)
    (with_pragmas (set_pragma SetJournalMode) f))))). intros f' Hs'.
  unfold verify_connection_policy. apply wpo_bind. unfold connection_settings.
  do 5 (apply wpo_ask_bind; [by auto|]). apply wpo_give. apply wpo_give.
  change (MkSettings _ _ _ _ _) with (settings_of (df_pragmas f')).
  destruct (policy (settings_of (df_pragmas f'))) as [[]|e] eqn:Ep; [by apply Hq|].
  apply Hr; [done|]. right. split; [done|]. unfold policy in Ep.
  repeat (case_bool; [injection Ep as <-; by eexists|]). cbn in Ep.
  repeat (case_bool; [injection Ep as <-; by eexists|]). done.
Qed.

Lemma create_schema_spec f n :
  match create_schema (MkOpening f n) with
  | (Ok _, o) => op_file o = MkDbFile SCHEMA_VERSION (df_objects f ++ schema_v1) schema_pages (df_pragmas f)
  | (Err e, o) => op_file o = f ∧ open_faulted e
  end.
Proof.
  assert (Hwp : wpo (bind_open (ask BeginSchema (λ _, tt)) (λ _,
    bind_open (call RunSchema (λ _, tt)
      (λ f, MkDbFile SCHEMA_VERSION (df_objects f ++ schema_v1) schema_pages (df_pragmas f)))
      (λ _, ask CommitSchema (λ _, tt))))
    (λ _ f', f' = MkDbFile SCHEMA_VERSION (df_objects f ++ schema_v1) schema_pages (df_pragmas f))
    (λ e _, open_faulted e) f).
  { apply wpo_ask_bind; [done|]. apply wpo_bind. apply wpo_call; [done|]. by apply wpo_ask. }
  specialize (Hwp n). unfold create_schema. destruct (bind_open _ _ _) as [[[]|e] after]; done.
Qed.

(** How an opening fails. *)
Definition refusal (f f' : DbFile) (e : MetadataError) : Prop :=
  open_faulted e ∨
  df_user_version f < 0 ∧ e = Sqlite (version_out_of_range (df_user_version f)) ∨
  df_user_version f = 0 ∧ ¬ empty_database f ∧ e = UnversionedNonemptyDatabase ∨
  1 < df_user_version f ∧ e = NewerSchemaVersion (df_user_version f) SCHEMA_VERSION ∨
  df_user_version f = 1 ∧ df_objects f ≠ schema_v1 ∧
    e = InvalidSchema "tables, constraints, or indexes differ from schema v1" ∨
  (of_schema f ∨ empty_database f) ∧ policy_broken e f'.

Lemma open_store_spec f : 0 ≤ df_pages f →
  wpo open_store
    (λ _ f', of_schema f' ∧ policy (settings_of (df_pragmas f')) = Ok tt ∧
       (of_schema f ∨ empty_database f))
    (λ e f', refusal f f' e ∧ (f' = f ∨ of_schema f' ∧ (of_schema f ∨ empty_database f))) f.
Proof.
  intros Hp. set (R := λ e f', refusal f f' e ∧ (f' = f ∨ of_schema f' ∧ (of_schema f ∨ empty_database f))).
  assert (Hf : ∀ e, open_faulted e → R e f) by (intros e He; split; [by left|by left]).
  assert (Hrest : ∀ f', of_schema f' → of_schema f ∨ empty_database f →
    wpo (bind_open validate_schema (λ _, bind_open apply_connection_policy (λ _, verify_connection_policy)))
      (λ _ f', of_schema f' ∧ policy (settings_of (df_pragmas f')) = Ok tt ∧
        (of_schema f ∨ empty_database f)) R f').
  { intros f' Hs Hk. apply wpo_bind. apply wpo_validate_schema.
    - intros e He. split; [by left|by right].
    - intros _. apply wpo_policy; [done| |done]. intros e f'' Hs' He. split; [|by right].
      destruct He as [He|He]; [by left|]. by do 5 right.
    - intros Hne. by destruct Hs. }
  unfold open_store. apply wpo_ask_bind; [done|]. apply wpo_bind. unfold schema_version.
  apply wpo_ask_bind; [done|]. apply wpo_give.
  destruct (Z.ltb_spec (df_user_version f) 0).
  { split; [|by left]. right; left. done. }
  destruct (Z.eqb_spec (df_user_version f) 0) as [Hz|Hz].
  - apply wpo_bind. apply wpo_bind. unfold schema_object_count. apply wpo_ask_bind; [done|].
    apply wpo_give. rewrite rust_u64_Ok by apply zlen_nonneg.
    destruct (Z.eqb_spec (zlen (df_objects f)) 0) as [Ho|Ho]; cbn [negb].
    2: { apply wpo_bind, wpo_give. cbn. apply wpo_give. split; [|by left]. right; right; left.
         split; [done|]. split; [|done]. intros (_ & Hn & _). by rewrite Hn in Ho. }
    apply wpo_bind. unfold physical_page_count. apply wpo_ask_bind; [done|]. apply wpo_give.
    rewrite rust_u64_Ok by done. cbn [orb].
    destruct (Z.eqb_spec (df_pages f) 0) as [Hpg|Hpg]; cbn [negb].
    2: { apply wpo_give. split; [|by left]. right; right; left. split; [done|]. split; [|done].
         by intros (_ & _ & ?). }
    assert (Hnil : df_objects f = []) by (destruct (df_objects f); [done|rewrite zlen_cons in Ho; pose proof (zlen_nonneg l); lia]).
    assert (He : empty_database f) by done.
    intros n. pose proof (create_schema_spec f n) as Hc.
    destruct (create_schema _) as [[u|e] o]; [|by destruct Hc as [-> ?]; apply Hf].
    rewrite Hc. apply Hrest; [|by right]. split; [done|]. cbn. by rewrite Hnil.
  - apply wpo_bind. destruct (Z.eqb_spec (df_user_version f) SCHEMA_VERSION) as [Hv|Hv].
    { apply wpo_validate_schema; [done| |].
      - intros Hs. apply Hrest; [done|by left].
      - intros Hne. split; [|by left]. right; right; right; right; left. done. }
    unfold SCHEMA_VERSION in *. rewrite (proj2 (Z.ltb_lt _ _)) by lia. apply wpo_give.
    split; [|by left]. right; right; right; left. split; [lia|done].
Qed.
End opening_facts.

(** C36: An unknown database is refused untouched.  Opening succeeds only on a database of exactly
    schema version 1, or on an empty one, which it becomes; the connection then reads back
    write-ahead logging, normal synchronisation, enforced foreign keys, a five-second busy timeout
    and an untrusted schema.  Every failure has one of the stated reasons, a newer version being
    told apart from an unversioned database and from a foreign shape, and a broken connection policy
    naming the setting that was read back wrong; and unless the database was
    of this schema or empty it is left exactly as it was. *)
Theorem unknown_databases_are_refused `{SqliteOpening} f n : 0 ≤ df_pages f →
  match open_store (MkOpening f n) with
  | (Ok _, o) => of_schema (op_file o) ∧ (of_schema f ∨ empty_database f) ∧
      let p := df_pragmas (op_file o) in
      eq_ignore_ascii_case (pr_journal_mode p) (lit "wal") = true ∧ pr_synchronous p = 1 ∧
      pr_foreign_keys p = 1 ∧ pr_busy_timeout p = 5000 ∧ pr_trusted_schema p ≠ 1
  | (Err e, o) => refusal f (op_file o) e ∧
      (op_file o = f ∨ of_schema (op_file o) ∧ (of_schema f ∨ empty_database f))
  end.
Proof.
  intros Hp. pose proof (open_store_spec f Hp n) as Ho.
  destruct (open_store _) as [[u|e] o]; [|done]. destruct Ho as (Hs & Hpol & Hk).
  split; [done|]. split; [done|]. cbv zeta. unfold policy in Hpol. cbn in Hpol.
  unfold BUSY_TIMEOUT_MS in Hpol.
  destruct (eq_ignore_ascii_case _ _); [|done]. cbn [negb] in Hpol.
  destruct (Z.eqb_spec (pr_synchronous (df_pragmas (op_file o))) 1); [|done].
  destruct (Z.eqb_spec (pr_foreign_keys (df_pragmas (op_file o))) 1); [|done].
  destruct (Z.eqb_spec (pr_busy_timeout (df_pragmas (op_file o))) 5000); [|done].
  destruct (Z.eqb_spec (pr_trusted_schema (df_pragmas (op_file o))) 1); [done|]. done.
Qed.

End Schema.
