(* ===== verification/Store.v ===== *)
(** * [downpour-storage/src/metadata.rs]: the SQLite metadata store

    The tables of schema version 1 with their constraints, the statements of the store over them,
    its transactions, and the store's operations: saving and loading downloads and checkpoints
    (opening it is [Schema]).  SQLite itself is a parameter: which statement fails when, and what
    it reports. *)

From S2P Require Import Prelude Format PartFile Str ContentRange Remote Metadata Identity Recovery.
From S2P Require Import Intervals Io JournalState Replay Startup.
From Stdlib Require Import String.
From Stdlib Require Import Sorting.Sorted.
From stdpp Require Import list gmap.
#[local] Open Scope Z_scope.

Module Store.
Import PartFile.PartFile Str.Str ContentRange.ContentRange Remote.Remote Metadata.Metadata.
Import Identity.Identity.

(** ** Rows

    A column declared [INTEGER] holds an [i64], [TEXT] a string, [BLOB] bytes; a nullable column is
    an option. *)

Record DownloadRow := MkDownloadRow {
  dr_state : str;
  dr_created_at : Z;
  dr_updated_at : Z;
  dr_target_path : list byte;
  dr_part_path : list byte;
  dr_total_length : option Z;
  dr_covered_bytes : Z;
  dr_queue_position : option Z;
  dr_priority : Z;
  dr_error_kind : option str;
  dr_space_reserved : Z;
}.

Record IdentityRow := MkIdentityRow {
  ir_current_url : str;
  ir_current_url_ref : option str;
  ir_final_url : option str;
  ir_final_url_ref : option str;
  ir_page_url : option str;
  ir_page_url_ref : option str;
  ir_origin : str;
  ir_validator_kind : str;
  ir_validator_value : option str;
  ir_server_digest : option str;
  ir_content_type : option str;
  ir_suggested_name : option str;
  ir_request_context_ref : option str;
  ir_probed_at : Z;
  ir_protocol : str;
  ir_range_state : str;
  ir_range_observation : option (list byte);
}.

Record RedirectRow := MkRedirectRow { rr_hop : Z; rr_public_url : str; rr_secret_ref : option str }.
Record HistoryRow := MkHistoryRow {
  hr_entry : Z;
  hr_public_url : str;
  hr_secret_ref : option str;
  hr_seen_at : Z;
}.
Record CheckpointRow := MkCheckpointRow {
  cr_journal_seq : Z;
  cr_covered_bytes : Z;
  cr_interval_map : list byte;
  cr_written_at : Z;
}.

#[export] Program Instance byte_countable : Countable byte :=
  inj_countable' Byte.to_N (λ n, default x00 (Byte.of_N n)) _.
Next Obligation. intros b. cbn. by rewrite Byte.of_to_N. Qed.

(** Tables are keyed by the identifier's bytes; a download's redirects and history are its rows in
    order of insertion. *)
Notation table V := (gmap (list byte) V).
Record Tables := MkTables {
  tb_downloads : table DownloadRow;
  tb_identities : table IdentityRow;
  tb_redirects : table (list RedirectRow);
  tb_history : table (list HistoryRow);
  tb_checkpoints : table CheckpointRow;
}.

Inductive Constraint :=
| CheckIdLength | CheckSpaceReserved | CheckRangeState | CheckRangeObservation | CheckHop | CheckEntry
| ForeignKey | PrimaryKey.
#[export] Instance Constraint_eq_dec : EqDecision Constraint.
Proof. solve_decision. Defined.

(** ** Statements on the tables: [SCHEMA_SQL]'s constraints and the writes *)

(** [INSERT INTO downloads ... ON CONFLICT(id) DO UPDATE]. *)
Definition upsert_download (id : list byte) (row : DownloadRow) (t : Tables)
    : result Tables Constraint :=
  if negb (zlen id =? 16) then Err CheckIdLength
  else if negb ((dr_space_reserved row =? 0) || (dr_space_reserved row =? 1))
  then Err CheckSpaceReserved
  else Ok (MkTables (<[id := row]> (tb_downloads t)) (tb_identities t) (tb_redirects t)
             (tb_history t) (tb_checkpoints t)).

Definition is_proven_state (s : str) : bool := bool_decide (s = lit "proven").
Definition upsert_identity (id : list byte) (row : IdentityRow) (t : Tables)
    : result Tables Constraint :=
  if negb (is_proven_state (ir_range_state row)
           || bool_decide (ir_range_state row = lit "absent")
           || bool_decide (ir_range_state row = lit "unknown"))
  then Err CheckRangeState
  else if negb (eqb (is_proven_state (ir_range_state row))
                  (bool_decide (is_Some (ir_range_observation row))))
  then Err CheckRangeObservation
  else if bool_decide (tb_downloads t !! id = None) then Err ForeignKey
  else Ok (MkTables (tb_downloads t) (<[id := row]> (tb_identities t)) (tb_redirects t)
             (tb_history t) (tb_checkpoints t)).

Definition delete_redirects (id : list byte) (t : Tables) : result Tables Constraint :=
  Ok (MkTables (tb_downloads t) (tb_identities t) (delete id (tb_redirects t)) (tb_history t)
        (tb_checkpoints t)).
Definition rows_of {V} (id : list byte) (rows : table (list V)) : list V := default [] (rows !! id).
Definition insert_redirect (id : list byte) (row : RedirectRow) (t : Tables)
    : result Tables Constraint :=
  if rr_hop row <? 0 then Err CheckHop
  else if bool_decide (tb_downloads t !! id = None) then Err ForeignKey
  else if existsb (λ r, rr_hop r =? rr_hop row) (rows_of id (tb_redirects t)) then Err PrimaryKey
  else Ok (MkTables (tb_downloads t) (tb_identities t)
             (<[id := rows_of id (tb_redirects t) ++ [row]]> (tb_redirects t)) (tb_history t)
             (tb_checkpoints t)).
Definition delete_history (id : list byte) (t : Tables) : result Tables Constraint :=
  Ok (MkTables (tb_downloads t) (tb_identities t) (tb_redirects t) (delete id (tb_history t))
        (tb_checkpoints t)).
Definition insert_history (id : list byte) (row : HistoryRow) (t : Tables)
    : result Tables Constraint :=
  if hr_entry row <? 0 then Err CheckEntry
  else if bool_decide (tb_downloads t !! id = None) then Err ForeignKey
  else if existsb (λ r, hr_entry r =? hr_entry row) (rows_of id (tb_history t)) then Err PrimaryKey
  else Ok (MkTables (tb_downloads t) (tb_identities t) (tb_redirects t)
             (<[id := rows_of id (tb_history t) ++ [row]]> (tb_history t)) (tb_checkpoints t)).
Definition upsert_checkpoint (id : list byte) (row : CheckpointRow) (t : Tables)
    : result Tables Constraint :=
  if bool_decide (tb_downloads t !! id = None) then Err ForeignKey
  else Ok (MkTables (tb_downloads t) (tb_identities t) (tb_redirects t) (tb_history t)
             (<[id := row]> (tb_checkpoints t))).

(** [ORDER BY]: insertion into an ordered list, after the rows not above it. *)
Section order.
Context {A : Type} (leb : A → A → bool).
Fixpoint insert_ordered (x : A) (l : list A) : list A :=
  match l with
  | [] => [x]
  | y :: l => if leb x y then x :: y :: l else y :: insert_ordered x l
  end.
Definition order_by (l : list A) : list A := fold_right insert_ordered [] l.
End order.

(** [memcmp], then the length. *)
Fixpoint bytes_leb (a b : list byte) : bool :=
  match a, b with
  | [], _ => true
  | _ :: _, [] => false
  | x :: a, y :: b =>
      if byte_val x <? byte_val y then true
      else if byte_val y <? byte_val x then false
      else bytes_leb a b
  end.

(** ** SQLite *)

Inductive Statement :=
| Begin | UpsertDownload | UpsertIdentity | DeleteRedirects | InsertRedirect | DeleteHistory
| InsertHistory | UpsertCheckpoint | Commit
| SelectIds | SelectDownload | SelectIdentity | SelectRedirects | SelectHistory | SelectTotal
| SelectCheckpoint.
Definition is_query (s : Statement) : bool :=
  match s with
  | SelectIds | SelectDownload | SelectIdentity | SelectRedirects | SelectHistory | SelectTotal
  | SelectCheckpoint => true
  | _ => false
  end.

(** The connection at its [n]-th write: what it reports of a statement it cannot run; and the text
    of its other errors: a violated constraint, no row, a value that does not convert. *)
Class SqliteEnv := {
  sql_fault : nat → Statement → option string;
  constraint_failed : Constraint → string;
  no_rows : string;
  integral_out_of_range : Z → string;
  conversion_failure : MetadataError → string;
}.

Record Db := MkDb { db_tables : Tables; db_writes : nat }.

(** Computations that may fail and leave the connection in a state. *)
Definition Sql (A : Type) : Type := Db → result A MetadataError * Db.
Definition pure {A} (a : A) : Sql A := λ db, (Ok a, db).
Definition lift {A} (r : result A MetadataError) : Sql A := λ db, (r, db).
Definition and_then {A B} (m : Sql A) (k : A → Sql B) : Sql B := λ db,
  let '(r, db) := m db in
  match r with Ok a => k a db | Err e => (Err e, db) end.
#[local] Notation "'sql!' x := m 'in' k" := (and_then m (λ x, k))
  (at level 200, x pattern, m at level 100, k at level 200).

Section sqlite.
Context {Url : Type} `{UrlCrate Url, Cbor RangeObservationWireV1, Cbor IdentitySnapshotWireV1}.
Context `{Cbor PathWire, Cbor CheckpointWireV1, SqliteEnv}.

(** [execute]: a write. *)
Definition execute (s : Statement) (effect : Tables → result Tables Constraint) : Sql unit := λ db,
  let after t := MkDb t (S (db_writes db)) in
  match sql_fault (db_writes db) s with
  | Some detail => (Err (Sqlite detail), after (db_tables db))
  | None =>
      match effect (db_tables db) with
      | Ok t => (Ok tt, after t)
      | Err c => (Err (Sqlite (constraint_failed c)), after (db_tables db))
      end
  end.

(** A read. *)
Definition select {A} (s : Statement) (f : Tables → A) (db : Db) : result A MetadataError :=
  match sql_fault (db_writes db) s with
  | Some detail => Err (Sqlite detail)
  | None => Ok (f (db_tables db))
  end.

(** A transaction: whatever fails, its drop rolls the tables back. *)
Definition transaction (body : Sql unit) : Sql unit := λ db,
  let '(r, after) :=
    and_then (execute Begin Ok) (λ _, and_then body (λ _, execute Commit Ok)) db in
  match r with
  | Ok _ => (Ok tt, after)
  | Err e => (Err e, MkDb (db_tables db) (db_writes after))
  end.

(** ** Saving *)

Record PreparedDownload := MkPrepared {
  pd_metadata : DownloadMetadata;
  pd_target_path : list byte;
  pd_part_path : list byte;
  pd_range_state : str;
  pd_range_observation : option (list byte);
  pd_validator_kind : str;
  pd_validator_value : option str;
  pd_digest : option str;
  pd_state : str;
  pd_protocol : str;
}.

Definition PreparedDownload_new (m : DownloadMetadata) : result PreparedDownload MetadataError :=
  let i := md_identity m in
  let? _ := encode_identity_snapshot m in
  let? target_path := encode_path (md_target_path m) in
  let? part_path := encode_path (md_part_path m) in
  let? '(range_state, range_observation) := range_support_parts (range_support i) in
  let '(validator_kind, validator_value) := validator_parts (validator i) in
  Ok (MkPrepared m target_path part_path range_state range_observation validator_kind
        validator_value (option_map digest_text (server_digest i)) (state_name (md_state m))
        (protocol_name (protocol i))).

(** [enumerate] as [i64], and one statement per element. *)
Fixpoint for_each {A} (k : Z) (f : Z → A → Sql unit) (l : list A) : Sql unit :=
  match l with
  | [] => pure tt
  | x :: l => sql! _ := f k x in for_each (k + 1) f l
  end.
Definition i64_index (field : string) (k : Z) : result Z MetadataError :=
  ok_or (i64_try_from k) (IntegerOutOfRange field k).

Definition download_row (p : PreparedDownload) : result DownloadRow MetadataError :=
  let m := pd_metadata p in
  let? created_at := sqlite_u64 "created_at" (md_created_at_ms m) in
  let? updated_at := sqlite_u64 "updated_at" (md_updated_at_ms m) in
  let? total_length := optional_sqlite_u64 "total_length" (md_total_length m) in
  let? covered_bytes := sqlite_u64 "covered_bytes" (md_covered_bytes m) in
  let? queue_position := optional_sqlite_u64 "queue_position" (md_queue_position m) in
  Ok (MkDownloadRow (pd_state p) created_at updated_at (pd_target_path p) (pd_part_path p)
        total_length covered_bytes queue_position (md_priority m)
        (option_map kind_text (md_error_kind m)) (if md_space_reserved m then 1 else 0)).

Definition identity_row (p : PreparedDownload) : result IdentityRow MetadataError :=
  let i := md_identity (pd_metadata p) in
  let final_parts := optional_url_parts (final_url i) in
  let page_parts := optional_url_parts (page_url i) in
  let? probed_at := sqlite_u64 "probed_at" (probed_at_ms i) in
  Ok (MkIdentityRow (public_url (current_url i)) (optional_secret_text (secret_ref (current_url i)))
        (fst final_parts) (snd final_parts) (fst page_parts) (snd page_parts) (origin i)
        (pd_validator_kind p) (pd_validator_value p) (pd_digest p) (content_type i)
        (suggested_filename i) (optional_secret_text (request_context_ref i)) probed_at
        (pd_protocol p) (pd_range_state p) (pd_range_observation p)).

Definition write (p : PreparedDownload) : Sql unit :=
  let m := pd_metadata p in
  let id := as_bytes (md_id m) in
  sql! row := lift (download_row p) in
  sql! _ := execute UpsertDownload (upsert_download id row) in
  sql! row := lift (identity_row p) in
  sql! _ := execute UpsertIdentity (upsert_identity id row) in
  sql! _ := execute DeleteRedirects (delete_redirects id) in
  sql! _ :=
    for_each 0 (λ hop url,
      sql! hop := lift (i64_index "redirect_chain.hop" hop) in
      execute InsertRedirect (insert_redirect id
        (MkRedirectRow hop (public_url url) (optional_secret_text (secret_ref url)))))
      (redirect_chain (md_identity m)) in
  sql! _ := execute DeleteHistory (delete_history id) in
  for_each 0 (λ entry e,
    sql! entry := lift (i64_index "url_history.entry" entry) in
    sql! seen_at := lift (sqlite_u64 "url_history.seen_at" (h_seen_at_ms e)) in
    execute InsertHistory (insert_history id
      (MkHistoryRow entry (public_url (h_url e)) (optional_secret_text (secret_ref (h_url e)))
         seen_at)))
    (md_url_history m).

Definition save_download (m : DownloadMetadata) : Sql unit :=
  sql! prepared := lift (PreparedDownload_new m) in
  transaction (write prepared).

(** ** Loading *)

(** [DownloadRow::from_row]: the typed columns, and [from_raw]. *)
Record LoadedRow := MkLoadedRow {
  lr_id : DownloadId;
  lr_state : DownloadState;
  lr_created_at_ms : Z;
  lr_updated_at_ms : Z;
  lr_target_path : path;
  lr_part_path : path;
  lr_total_length : option Z;
  lr_covered_bytes : Z;
  lr_queue_position : option Z;
  lr_priority : Z;
  lr_error_kind : option DownloadErrorKind;
  lr_space_reserved : bool;
}.

Definition from_raw (id : list byte) (r : DownloadRow) : result LoadedRow MetadataError :=
  let? id := download_id_from_slice id in
  let? state := parse_state (dr_state r) in
  let? created_at_ms := rust_u64 "created_at" (dr_created_at r) in
  let? updated_at_ms := rust_u64 "updated_at" (dr_updated_at r) in
  let? target_path := decode_path (dr_target_path r) in
  let? part_path := decode_path (dr_part_path r) in
  let? total_length := optional_rust_u64 "total_length" (dr_total_length r) in
  let? covered_bytes := rust_u64 "covered_bytes" (dr_covered_bytes r) in
  let? queue_position := optional_rust_u64 "queue_position" (dr_queue_position r) in
  let? error_kind := transpose_map DownloadErrorKind_new (dr_error_kind r) in
  let? space_reserved := parse_sql_bool "space_reserved" (dr_space_reserved r) in
  Ok (MkLoadedRow id state created_at_ms updated_at_ms target_path part_path total_length
        covered_bytes queue_position (dr_priority r) error_kind space_reserved).

(** [row.get::<_, i32>]. *)
Definition fits_i32 (v : Z) : bool := (-2147483648 <=? v) && (v <=? 2147483647).
Definition from_row (id : list byte) (r : DownloadRow) : result LoadedRow MetadataError :=
  if negb (fits_i32 (dr_priority r)) then Err (Sqlite (integral_out_of_range (dr_priority r)))
  else map_err (λ e, Sqlite (conversion_failure e)) (from_raw id r).

Definition into_identity (r : IdentityRow) (redirect_chain : list UrlReference)
    : result IdentityMetadata MetadataError :=
  let? range_support := range_support_from_parts (ir_range_state r) (ir_range_observation r) in
  let? current_url := url_reference_from_parts (ir_current_url r) (ir_current_url_ref r) in
  let? final_url := optional_url_reference_from_parts (ir_final_url r) (ir_final_url_ref r) in
  let? page_url := optional_url_reference_from_parts (ir_page_url r) (ir_page_url_ref r) in
  let? origin := PublicUrl_parse (ir_origin r) in
  let? validator := validator_from_parts (ir_validator_kind r) (ir_validator_value r) in
  let? server_digest := digest_from_text (ir_server_digest r) in
  let? request_context_ref := transpose_map SecretRef_new (ir_request_context_ref r) in
  let? probed_at_ms := rust_u64 "probed_at" (ir_probed_at r) in
  let? protocol := parse_protocol (ir_protocol r) in
  Ok (MkIdentity current_url final_url redirect_chain page_url origin validator server_digest
        (ir_content_type r) (ir_suggested_name r) request_context_ref probed_at_ms protocol
        range_support).

Definition load_redirects (id : list byte) (db : Db) : result (list UrlReference) MetadataError :=
  let? rows :=
    select SelectRedirects (λ t,
      order_by (λ a b, rr_hop a <=? rr_hop b) (rows_of id (tb_redirects t))) db in
  if MAX_REDIRECTS <? zlen rows
  then Err (CollectionLimitExceeded FIdentitySnapshot (zlen rows) MAX_REDIRECTS)
  else collect_map (λ r, url_reference_from_parts (rr_public_url r) (rr_secret_ref r)) rows.

Definition load_history (id : list byte) (db : Db) : result (list UrlHistoryEntry) MetadataError :=
  let? rows :=
    select SelectHistory (λ t,
      order_by (λ a b, hr_entry a <=? hr_entry b) (rows_of id (tb_history t))) db in
  if MAX_HISTORY_ENTRIES <? zlen rows
  then Err (CollectionLimitExceeded FIdentitySnapshot (zlen rows) MAX_HISTORY_ENTRIES)
  else
    collect_map (λ r,
      let? url := url_reference_from_parts (hr_public_url r) (hr_secret_ref r) in
      let? seen_at_ms := rust_u64 "url_history.seen_at" (hr_seen_at r) in
      Ok (MkHistory url seen_at_ms)) rows.

Definition load_identity (id : list byte) (db : Db) : result IdentityMetadata MetadataError :=
  let? found := select SelectIdentity (λ t, tb_identities t !! id) db in
  let? row := ok_or found (Sqlite no_rows) in
  let? redirect_chain := load_redirects id db in
  into_identity row redirect_chain.

Definition finish_download (row : LoadedRow) (db : Db) : result DownloadMetadata MetadataError :=
  let? identity := load_identity (as_bytes (lr_id row)) db in
  let? url_history := load_history (as_bytes (lr_id row)) db in
  let m :=
    MkMetadata (lr_id row) (lr_state row) (lr_created_at_ms row) (lr_updated_at_ms row)
      (lr_target_path row) (lr_part_path row) (lr_total_length row) (lr_covered_bytes row)
      (lr_queue_position row) (lr_priority row) (lr_error_kind row) (lr_space_reserved row)
      identity url_history in
  let? _ := validate_metadata m in
  Ok m.

Definition load_download (id : DownloadId) (db : Db)
    : result (option DownloadMetadata) MetadataError :=
  let? found := select SelectDownload (λ t, tb_downloads t !! as_bytes id) db in
  let? row := transpose_map (from_row (as_bytes id)) found in
  transpose_map (λ row, finish_download row db) row.

Definition load_ids (db : Db) : result (list (list byte)) MetadataError :=
  select SelectIds (λ t, order_by bytes_leb (map fst (map_to_list (tb_downloads t)))) db.

(** ** Checkpoints *)

Definition download_total_length (id : DownloadId) (db : Db) : result Z MetadataError :=
  let? found := select SelectTotal (λ t, dr_total_length <$> tb_downloads t !! as_bytes id) db in
  let? total := ok_or found (InvalidCheckpoint "owning download does not exist") in
  let? total := optional_rust_u64 "downloads.total_length" total in
  ok_or total (InvalidCheckpoint "owning download has no immutable total").

Definition is_too_large (e : MetadataError) : bool :=
  match e with PayloadTooLarge FCheckpoint _ _ => true | _ => false end.

Definition save_checkpoint (id : DownloadId) (journal_sequence written_at_ms : Z)
    (checkpoint : Checkpoint) : Sql bool := λ db,
  and_then (lift (download_total_length id db)) (λ owning_total,
  if negb (cp_total_length checkpoint =? owning_total)
  then lift (Err (InvalidCheckpoint "checkpoint total differs from owning download"))
  else
    match encode_cbor checkpoint with
    | Err e => lift (if is_too_large e then Ok false else Err e)
    | Ok encoded =>
        sql! journal_sequence := lift (sqlite_u64 "journal_seq" journal_sequence) in
        sql! covered_bytes := lift (sqlite_u64 "covered_bytes" (cp_covered_bytes checkpoint)) in
        sql! written_at := lift (sqlite_u64 "written_at" written_at_ms) in
        sql! _ :=
          execute UpsertCheckpoint (upsert_checkpoint (as_bytes id)
            (MkCheckpointRow journal_sequence covered_bytes encoded written_at)) in
        pure true
    end) db.

Definition load_checkpoint (id : DownloadId) (db : Db)
    : result (option PersistedCheckpoint) MetadataError :=
  let? found :=
    select SelectCheckpoint (λ t,
      match tb_checkpoints t !! as_bytes id, tb_downloads t !! as_bytes id with
      | Some c, Some d => Some (c, dr_total_length d)
      | _, _ => None
      end) db in
  transpose_map (λ '(c, owning_total),
    let? journal_sequence := rust_u64 "journal_seq" (cr_journal_seq c) in
    let? covered_bytes := rust_u64 "covered_bytes" (cr_covered_bytes c) in
    let? written_at_ms := rust_u64 "written_at" (cr_written_at c) in
    let? checkpoint := decode_cbor (cr_interval_map c) covered_bytes in
    let? owning_total := optional_rust_u64 "downloads.total_length" owning_total in
    let? owning_total :=
      ok_or owning_total (InvalidCheckpoint "owning download has no immutable total") in
    if negb (cp_total_length checkpoint =? owning_total)
    then Err (InvalidCheckpoint "checkpoint total differs from owning download")
    else Ok (MkPersisted journal_sequence written_at_ms checkpoint)) found.
End sqlite.

(** ** Order *)

Lemma insert_ordered_perm {A} (leb : A → A → bool) x l : insert_ordered leb x l ≡ₚ x :: l.
Proof.
  induction l as [|y l IH]; cbn; [done|]. destruct (leb x y); [done|]. rewrite IH. apply Permutation_swap.
Qed.
Lemma insert_ordered_hd {A} (leb : A → A → bool) x y l :
  HdRel (λ a b, leb a b = true) y l → leb y x = true →
  HdRel (λ a b, leb a b = true) y (insert_ordered leb x l).
Proof. intros Hh Hx. destruct Hh as [|z l Hz]; cbn; [by constructor|]. destruct (leb x z); by constructor. Qed.
Lemma order_by_sorted {A} (leb : A → A → bool) l :
  (∀ a b, leb a b = false → leb b a = true) → Sorted (λ a b, leb a b = true) (order_by leb l).
Proof.
  intros Htot. induction l as [|x l IH]; [constructor|]. cbn [order_by fold_right].
  fold (order_by leb l). revert IH. generalize (order_by leb l) as k.
  induction k as [|y k IHk]; cbn; [by intros; repeat constructor|]. intros Hs.
  destruct (leb x y) eqn:E0; [constructor; [done|by constructor]|]. apply Sorted_inv in Hs as [Hs Hh].
  constructor; [by apply IHk|]. by apply insert_ordered_hd; [|apply Htot].
Qed.
Lemma bytes_leb_total a b : bytes_leb a b = false → bytes_leb b a = true.
Proof.
  revert b. induction a as [|x a IH]; intros [|y b]; cbn; try done.
  destruct (Z.ltb_spec (byte_val x) (byte_val y)), (Z.ltb_spec (byte_val y) (byte_val x)); (done || lia || apply IH).
Qed.
Lemma order_by_perm {A} (leb : A → A → bool) l : order_by leb l ≡ₚ l.
Proof. induction l as [|x l IH]; cbn; [done|]. by rewrite insert_ordered_perm, IH. Qed.

(** Rows numbered from [k]. *)
Fixpoint numbered {A B} (f : Z → A → B) (k : Z) (l : list A) : list B :=
  match l with [] => [] | x :: l => f k x :: numbered f (k + 1) l end.

Lemma numbered_ordered {A B} (f : Z → A → B) (key : B → Z) k l :
  (∀ k x, key (f k x) = k) →
  order_by (λ a b, key a <=? key b) (numbered f k l) = numbered f k l.
Proof.
  intros Hk. revert k. induction l as [|x l IH]; intros k; [done|].
  cbn [numbered order_by fold_right]. unfold order_by in IH. rewrite IH.
  destruct l as [|y l]; cbn; [done|]. rewrite !Hk, (proj2 (Z.leb_le _ _)) by lia. done.
Qed.
Lemma zlen_numbered {A B} (f : Z → A → B) k l : zlen (numbered f k l) = zlen l.
Proof. revert k. induction l as [|x l IH]; intros k; [done|]. cbn. by rewrite !zlen_cons, IH. Qed.
Lemma collect_numbered {A B E} (g : B → result A E) (f : Z → A → B) k l :
  Forall (λ x, ∀ k, g (f k x) = Ok x) l → collect_map g (numbered f k l) = Ok l.
Proof.
  intros Hl. revert k. induction Hl as [|x l Hx _ IH]; intros k; cbn; [done|]. by rewrite Hx, IH.
Qed.

(** ** Integers *)

Definition i64_max : Z := 9223372036854775807.
Lemma sqlite_u64_Ok field v v' : sqlite_u64 field v = Ok v' ↔ v' = v ∧ v ≤ i64_max.
Proof.
  unfold sqlite_u64, i64_try_from, i64_max. destruct (Z.leb_spec v 9223372036854775807); cbn.
  - split; [by intros [= <-]|by intros [-> _]].
  - split; [done|lia].
Qed.
Lemma optional_sqlite_u64_Ok field o o' :
  optional_sqlite_u64 field o = Ok o' ↔ o' = o ∧ on_some (λ v, v ≤ i64_max) o.
Proof.
  destruct o as [v|]; cbn.
  - destruct (sqlite_u64 field v) as [v'|] eqn:E0.
    + apply sqlite_u64_Ok in E0 as [-> ?]. split; [by intros [= <-]|by intros [-> _]].
    + split; [done|]. intros [-> Hv]. by rewrite (proj2 (sqlite_u64_Ok _ _ _) (conj eq_refl Hv)) in E0.
  - split; [by intros [= <-]|by intros [-> _]].
Qed.
Lemma optional_rust_u64_Ok field o : on_some (λ v, 0 ≤ v) o → optional_rust_u64 field o = Ok o.
Proof. destruct o; cbn; [|done]. intros. by rewrite rust_u64_Ok. Qed.

(** ** Statements *)

Section wp.
Context `{SqliteEnv}.

(** Only SQLite itself failed. *)
Definition faulted (e : MetadataError) : Prop :=
  ∃ n s detail, sql_fault n s = Some detail ∧ is_query s = false ∧ e = Sqlite detail.

(** From tables [t], [m] ends in a state with [Q], or SQLite failed. *)
Definition wp {A} (m : Sql A) (Q : A → Tables → Prop) (t : Tables) : Prop :=
  ∀ n, match m (MkDb t n) with
       | (Ok a, db) => Q a (db_tables db)
       | (Err e, _) => faulted e
       end.

Lemma wp_pure {A} (a : A) (Q : A → Tables → Prop) t : Q a t → wp (pure a) Q t.
Proof. intros Hq n. exact Hq. Qed.
Lemma wp_lift {A} (r : result A MetadataError) a (Q : A → Tables → Prop) t :
  r = Ok a → Q a t → wp (lift r) Q t.
Proof. intros -> Hq n. exact Hq. Qed.
Lemma wp_sql_bind {A B} (m : Sql A) (k : A → Sql B) Q t :
  wp m (λ a, wp (k a) Q) t → wp (and_then m k) Q t.
Proof.
  intros Hm n. specialize (Hm n). unfold and_then. destruct (m (MkDb t n)) as [[a|e] [t' n']]; [|done].
  apply Hm.
Qed.
Lemma wp_lift_bind {A B} (r : result A MetadataError) a (k : A → Sql B) Q t :
  r = Ok a → wp (k a) Q t → wp (and_then (lift r) k) Q t.
Proof. intros Hr Hk. apply wp_sql_bind. by eapply wp_lift. Qed.
Lemma wp_execute s effect t t' (Q : unit → Tables → Prop) :
  is_query s = false → effect t = Ok t' → Q tt t' → wp (execute s effect) Q t.
Proof.
  intros Hs He Hq n. unfold execute. cbn. destruct (sql_fault n s) as [d|] eqn:Ed; [by exists n, s, d|].
  by rewrite He.
Qed.
Lemma wp_sql_mono {A} (m : Sql A) (Q Q' : A → Tables → Prop) t :
  wp m Q t → (∀ a t', Q a t' → Q' a t') → wp m Q' t.
Proof. intros Hm HQ n. specialize (Hm n). destruct (m _) as [[a|e] db]; [by apply HQ|done]. Qed.

(** A statement per element, each adding its row. *)
Lemma wp_for_each {A B} (f : Z → A → Sql unit) (row : Z → A → B) (I : list B → Tables → Prop) k l t rows :
  I rows t →
  (∀ k' x rows' t', k ≤ k' < k + zlen l → x ∈ l → rows' = rows ++ numbered row k (take (Z.to_nat (k' - k)) l) →
     I rows' t' → wp (f k' x) (λ _, I (rows' ++ [row k' x])) t') →
  wp (for_each k f l) (λ _, I (rows ++ numbered row k l)) t.
Proof.
  revert k t rows. induction l as [|x l IH]; intros k t rows Hi Hf.
  { cbn [for_each numbered]. apply wp_pure. by rewrite app_nil_r. }
  pose proof (zlen_nonneg l). cbn [for_each numbered]. apply wp_sql_bind.
  eapply wp_sql_mono.
  { apply (Hf k x rows); [rewrite zlen_cons; lia|left| |exact Hi].
    by rewrite Z.sub_diag, app_nil_r. }
  intros u t1 H1. cbn. change (row k x :: numbered row (k + 1) l)
    with ([row k x] ++ numbered row (k + 1) l). rewrite app_assoc. apply IH; [exact H1|].
  intros k' y rows' t' Hk Hy Hrows. apply Hf; [rewrite zlen_cons; lia|by right|].
  rewrite Hrows, <- app_assoc. f_equal.
  by replace (Z.to_nat (k' - k)) with (S (Z.to_nat (k' - (k + 1)))) by lia.
Qed.
End wp.

(** ** Saving *)

Lemma numbered_fresh {A B} (f : Z → A → B) (key : B → Z) k l j :
  (∀ k x, key (f k x) = k) → k + zlen l ≤ j →
  existsb (λ r, key r =? j) (numbered f k l) = false.
Proof.
  intros Hk. revert k. induction l as [|x l IH]; intros k Hj; [done|].
  rewrite zlen_cons in Hj. pose proof (zlen_nonneg l). cbn. rewrite Hk.
  rewrite (proj2 (Z.eqb_neq _ _)) by lia. apply IH. lia.
Qed.
Lemma rows_of_delete {V} (id : list byte) (m : table (list V)) : rows_of id (delete id m) = [].
Proof. unfold rows_of. by rewrite lookup_delete_eq. Qed.
Lemma rows_of_insert {V} (id : list byte) (rows : list V) (m : table (list V)) : rows_of id (<[id := rows]> m) = rows.
Proof. unfold rows_of. by rewrite lookup_insert_eq. Qed.

(** The tables after a save, given the rows written. *)
Record saved (id : list byte) (dr : DownloadRow) (ir : IdentityRow) (rs : list RedirectRow)
    (hs : list HistoryRow) (t t' : Tables) : Prop := {
  sv_downloads : tb_downloads t' = <[id := dr]> (tb_downloads t);
  sv_identities : tb_identities t' = <[id := ir]> (tb_identities t);
  sv_redirects : rows_of id (tb_redirects t') = rs;
  sv_history : rows_of id (tb_history t') = hs;
  sv_redirects_other : ∀ id', id' ≠ id → tb_redirects t' !! id' = tb_redirects t !! id';
  sv_history_other : ∀ id', id' ≠ id → tb_history t' !! id' = tb_history t !! id';
  sv_checkpoints : tb_checkpoints t' = tb_checkpoints t;
}.

Definition redirect_row (hop : Z) (url : UrlReference) : RedirectRow :=
  MkRedirectRow hop (public_url url) (optional_secret_text (secret_ref url)).
Definition history_row (entry : Z) (e : UrlHistoryEntry) : HistoryRow :=
  MkHistoryRow entry (public_url (h_url e)) (optional_secret_text (secret_ref (h_url e)))
    (h_seen_at_ms e).

(** What the decoder promises of a checkpoint's encoding, which is read head by head first. *)
Definition checkpoint_bounded (w : CheckpointWireV1) : Prop :=
  let '(_, _, _, l) := w in zlen l ≤ MAX_CHECKPOINT_INTERVALS.
Class CheckpointHeads `{Cbor CheckpointWireV1} :=
  checkpoint_heads version total covered l bs :
    into_writer (version, total, covered, l) = Ok bs →
    ∃ rest, bs = cbor_head 4 4 ++ cbor_head 0 version ++ cbor_head 0 total ++ cbor_head 0 covered ++
      cbor_head 4 (zlen l) ++ rest.

Lemma cbor_head_size major n : 1 ≤ zlen (cbor_head major n) ≤ 9.
Proof.
  unfold cbor_head, to_be_bytes. unfold zlen.
  repeat case_bool; cbn [length]; rewrite ?length_reverse, ?length_to_le_bytes; lia.
Qed.

Lemma preflight_encoded version total covered n rest :
  u64 version → u64 total → u64 covered → u64 n →
  preflight_checkpoint_count (cbor_head 4 4 ++ cbor_head 0 version ++ cbor_head 0 total ++
    cbor_head 0 covered ++ cbor_head 4 n ++ rest) =
  if MAX_CHECKPOINT_INTERVALS <? n
  then Err (CollectionLimitExceeded FCheckpoint n MAX_CHECKPOINT_INTERVALS) else Ok tt.
Proof.
  intros Hv Ht Hc Hn. unfold preflight_checkpoint_count. cbv zeta.
  pose proof (cbor_head_size 4 4) as S1. pose proof (cbor_head_size 0 version) as S2.
  pose proof (cbor_head_size 0 total) as S3. pose proof (cbor_head_size 0 covered) as S4.
  set (h1 := cbor_head 4 4) in *. set (h2 := cbor_head 0 version) in *.
  set (h3 := cbor_head 0 total) in *. set (h4 := cbor_head 0 covered) in *.
  set (h5 := cbor_head 4 n).
  set (bs := h1 ++ h2 ++ h3 ++ h4 ++ h5 ++ rest).
  assert (Hat : ∀ pre major v post, bs = pre ++ cbor_head major v ++ post → 0 ≤ major < 8 → u64 v →
    zlen pre ≤ 36 → parse_cbor_head bs (zlen pre) FCheckpoint =
      Ok (major, v, zlen pre + zlen (cbor_head major v))).
  { intros pre major v post -> Hm Hu Hp. apply parse_cbor_head_write; [done|done|ulia]. }
  pose proof (Hat [] 4 4 _ eq_refl ltac:(lia) ltac:(ulia) ltac:(rewrite zlen_nil; lia)) as P1.
  rewrite zlen_nil in P1. rewrite P1. fold h1. rewrite Z.add_0_l.
  pose proof (Hat h1 0 version _ eq_refl ltac:(lia) Hv ltac:(lia)) as P2. rewrite P2. fold h2.
  pose proof (Hat (h1 ++ h2) 0 total (h4 ++ h5 ++ rest) ltac:(by rewrite <- app_assoc) ltac:(lia) Ht
    ltac:(rewrite zlen_app; lia)) as P3. rewrite zlen_app in P3. rewrite P3. fold h3.
  pose proof (Hat (h1 ++ h2 ++ h3) 0 covered (h5 ++ rest) ltac:(by rewrite <- !app_assoc) ltac:(lia) Hc
    ltac:(rewrite !zlen_app; lia)) as P4. rewrite !zlen_app, Z.add_assoc in P4. rewrite P4. fold h4.
  pose proof (Hat (h1 ++ h2 ++ h3 ++ h4) 4 n rest ltac:(by rewrite <- !app_assoc) ltac:(lia) Hn
    ltac:(rewrite !zlen_app; lia)) as P5. rewrite !zlen_app, !Z.add_assoc in P5. rewrite P5. done.
Qed.

(** A checkpoint as its constructor returns it. *)
Definition checkpoint_ok (c : Checkpoint) : Prop :=
  Checkpoint_try_new (cp_total_length c) (cp_intervals c) = Ok c ∧ u64 (cp_total_length c) ∧
  Forall (λ i, u64 (ci_start i) ∧ u64 (ci_end i)) (cp_intervals c).

Lemma checkpoint_ok_facts c : checkpoint_ok c →
  zlen (cp_intervals c) ≤ MAX_CHECKPOINT_INTERVALS ∧
  laid_out (cp_total_length c) 0 (cp_intervals c) ∧
  cp_covered_bytes c = covered_from 0 (cp_total_length c) (cp_intervals c) ∧
  validate_intervals (cp_total_length c) (cp_intervals c)
    (Some (cp_covered_bytes c, cp_covered_bytes c)) = Ok c.
Proof.
  intros (Hc & Hu & Hl). unfold Checkpoint_try_new, validate_intervals in *.
  destruct (Z.ltb_spec MAX_CHECKPOINT_INTERVALS (zlen (cp_intervals c))); [done|].
  pose proof (interval_fold (cp_total_length c) (cp_intervals c) None 0 Hu Hl ltac:(cbn; lia)
    ltac:(destruct Hu; cbn; lia)) as Hf.
  destruct (fold_left _ _ _) as [[p v]|]; [|done]. destruct Hf as [Hlay ->]. cbn [default] in *.
  assert (Hcov : cp_covered_bytes c = 0 + covered_from 0 (cp_total_length c) (cp_intervals c))
    by (injection Hc as Hc; by rewrite <- Hc).
  split; [done|]. split; [done|]. split; [by rewrite Hcov|].
  rewrite <- Hcov, Z.eqb_refl. cbn [negb orb]. by destruct c.
Qed.

Lemma collect_intervals_id total p l : laid_out total p l →
  collect_intervals (map (λ i, (ci_start i, ci_end i)) l) = Ok l.
Proof.
  revert p. induction l as [|i l IH]; intros p; cbn; [done|]. intros (_ & Hne & _ & Hl).
  unfold CompleteInterval_try_new. rewrite (proj2 (Z.leb_gt _ _)) by done. rewrite (IH _ Hl).
  by destruct i.
Qed.

Lemma covered_from_bound total l : 0 ≤ total → 0 ≤ covered_from 0 total l ≤ total.
Proof.
  intros. unfold covered_from. pose proof (length_filter (λ b, Exists (ci_contains b) l) (seqZ 0 (total - 0))) as Hl.
  rewrite length_seqZ in Hl. unfold zlen. lia.
Qed.

Lemma decode_encode_checkpoint
    `{Cbor CheckpointWireV1, !CborReads CheckpointWireV1 checkpoint_bounded, !CheckpointHeads} c bs :
  checkpoint_ok c → encode_cbor c = Ok bs → decode_cbor bs (cp_covered_bytes c) = Ok c.
Proof.
  intros Hok. destruct (checkpoint_ok_facts _ Hok) as (Hn & Hlay & Hcov & Hval).
  destruct Hok as (_ & Hu & _). unfold encode_cbor.
  set (w := (1, cp_total_length c, cp_covered_bytes c, map (λ i, (ci_start i, ci_end i)) (cp_intervals c))).
  destruct (encode_wire w FCheckpoint) as [enc|] eqn:Ee; [|done]. unfold check_payload_len.
  destruct (Z.ltb_spec MAX_CHECKPOINT_BYTES (zlen enc)); [done|]. intros [= <-].
  assert (Hlen : zlen (map (λ i, (ci_start i, ci_end i)) (cp_intervals c)) = zlen (cp_intervals c))
    by (unfold zlen; by rewrite length_map).
  pose proof (zlen_nonneg (cp_intervals c)). assert (MAX_CHECKPOINT_INTERVALS < u64_modulus) by done.
  assert (Hw : checkpoint_bounded w) by (cbn; lia).
  assert (Hh : ∃ rest, enc = cbor_head 4 4 ++ cbor_head 0 1 ++ cbor_head 0 (cp_total_length c) ++
    cbor_head 0 (cp_covered_bytes c) ++ cbor_head 4 (zlen (cp_intervals c)) ++ rest).
  { unfold encode_wire in Ee. destruct (into_writer w) as [e0|] eqn:E0; [|done]. injection Ee as <-.
    rewrite <- Hlen. by apply checkpoint_heads. }
  destruct Hh as [rest Hh]. unfold decode_cbor.
  assert (peek_version enc FCheckpoint MAX_CHECKPOINT_BYTES = Ok tt) as ->.
  { rewrite Hh in *. rewrite peek_version_head; (done || ulia). }
  assert (preflight_checkpoint_count enc = Ok tt) as ->.
  { pose proof (covered_from_bound (cp_total_length c) (cp_intervals c) ltac:(by destruct Hu)).
    rewrite Hh, preflight_encoded by (done || ulia). by rewrite (proj2 (Z.ltb_ge _ _)). }
  destruct (decode_encode_wire _ _ _ Ee Hw) as [-> ->]. unfold w.
  by rewrite (collect_intervals_id _ _ _ Hlay).
Qed.

Lemma check_all_Ok {A} (f : A → result unit MetadataError) l u :
  check_all f l = Ok u → Forall (λ x, is_ok (f x) = true) l.
Proof.
  induction l as [|x l IH]; cbn; [by constructor|]. destruct (f x) eqn:E0; [|done].
  intros Hl. constructor; [by rewrite E0|by apply IH].
Qed.

Section saving.
Context {Url : Type} `{UrlLaws Url} `{CborObservationLaws} `{Cbor IdentitySnapshotWireV1}.
Context `{!CborReads IdentitySnapshotWireV1 snapshot_bounded}.
Context `{!CborVersioned IdentitySnapshotWireV1 15 sw_version}.
Context `{Cbor PathWire, !CborReads PathWire (λ _, True), !PathWireSize}.
Context `{Cbor CheckpointWireV1, SqliteEnv}.

(** What validation says of the integers. *)
Lemma validate_metadata_ints m : validate_metadata m = Ok tt →
  md_created_at_ms m ≤ i64_max ∧ md_updated_at_ms m ≤ i64_max ∧
  on_some (λ v, v ≤ i64_max) (md_total_length m) ∧ md_covered_bytes m ≤ i64_max ∧
  on_some (λ v, v ≤ i64_max) (md_queue_position m) ∧
  probed_at_ms (md_identity m) ≤ i64_max ∧
  Forall (λ e, h_seen_at_ms e ≤ i64_max) (md_url_history m).
Proof.
  unfold validate_metadata. intros Hv. inv_ok Hv.
  repeat match goal with
  | E : sqlite_u64 _ _ = Ok _ |- _ => apply sqlite_u64_Ok in E as [_ ?]
  | E : optional_sqlite_u64 _ _ = Ok _ |- _ => apply optional_sqlite_u64_Ok in E as [_ ?]
  end.
  split_and!; try done.
  match goal with E : check_all _ _ = Ok _ |- _ => apply check_all_Ok in E; rename E into Hall end.
  eapply Forall_impl; [exact Hall|]. intros e. cbn beta. destruct (sqlite_u64 _ _) as [v|] eqn:Ev; [|done].
  by apply sqlite_u64_Ok in Ev as [_ ?].
Qed.

(** What preparation computed. *)
Record prepared (m : DownloadMetadata) (p : PreparedDownload) : Prop := {
  pp_metadata : pd_metadata p = m;
  pp_valid : validate_metadata m = Ok tt;
  pp_target : encode_path (md_target_path m) = Ok (pd_target_path p);
  pp_part : encode_path (md_part_path m) = Ok (pd_part_path p);
  pp_range : range_support_parts (range_support (md_identity m)) =
    Ok (pd_range_state p, pd_range_observation p);
  pp_validator : (pd_validator_kind p, pd_validator_value p) = validator_parts (validator (md_identity m));
  pp_digest : pd_digest p = option_map digest_text (server_digest (md_identity m));
  pp_state : pd_state p = state_name (md_state m);
  pp_protocol : pd_protocol p = protocol_name (protocol (md_identity m));
}.

Lemma PreparedDownload_new_Ok m p : PreparedDownload_new m = Ok p → prepared m p.
Proof.
  unfold PreparedDownload_new. destruct (encode_identity_snapshot m) as [bs|] eqn:Es; [|done].
  assert (Hv : validate_metadata m = Ok tt).
  { unfold encode_identity_snapshot in Es. by destruct (validate_metadata m) as [[]|]. }
  destruct (encode_path (md_target_path m)) as [t|] eqn:Et; [|done].
  destruct (encode_path (md_part_path m)) as [q|] eqn:Eq; [|done].
  destruct (range_support_parts _) as [[st ob]|] eqn:Er; [|done].
  destruct (validator_parts _) as [vk vv] eqn:Ev. intros [= <-]. by split.
Qed.

Definition row_of (p : PreparedDownload) : DownloadRow :=
  let m := pd_metadata p in
  MkDownloadRow (pd_state p) (md_created_at_ms m) (md_updated_at_ms m) (pd_target_path p)
    (pd_part_path p) (md_total_length m) (md_covered_bytes m) (md_queue_position m) (md_priority m)
    (option_map kind_text (md_error_kind m)) (if md_space_reserved m then 1 else 0).

Lemma download_row_Ok m p : prepared m p → download_row p = Ok (row_of p).
Proof.
  intros [Hm Hv _ _ _ _ _ _ _]. destruct (validate_metadata_ints m Hv) as (Hc & Hu & Ht & Hcov & Hq & _).
  unfold download_row, row_of. rewrite Hm.
  rewrite (proj2 (sqlite_u64_Ok "created_at" _ _) (conj eq_refl Hc)).
  rewrite (proj2 (sqlite_u64_Ok "updated_at" _ _) (conj eq_refl Hu)).
  rewrite (proj2 (optional_sqlite_u64_Ok "total_length" _ _) (conj eq_refl Ht)).
  rewrite (proj2 (sqlite_u64_Ok "covered_bytes" _ _) (conj eq_refl Hcov)).
  by rewrite (proj2 (optional_sqlite_u64_Ok "queue_position" _ _) (conj eq_refl Hq)).
Qed.

Lemma identity_row_Ok m p : prepared m p →
  ∃ row, identity_row p = Ok row ∧ ir_probed_at row = probed_at_ms (md_identity m) ∧
    ir_range_state row = pd_range_state p ∧ ir_range_observation row = pd_range_observation p.
Proof.
  intros [Hm Hv _ _ _ _ _ _ _]. destruct (validate_metadata_ints m Hv) as (_ & _ & _ & _ & _ & Hp & _).
  unfold identity_row. rewrite Hm. rewrite (proj2 (sqlite_u64_Ok "probed_at" _ _) (conj eq_refl Hp)).
  by eexists.
Qed.

Lemma range_parts_check r state observation :
  range_support_parts r = Ok (state, observation) →
  is_proven_state state || bool_decide (state = lit "absent") || bool_decide (state = lit "unknown") = true ∧
  eqb (is_proven_state state) (bool_decide (is_Some observation)) = true.
Proof.
  destruct r as [q| |]; cbn [range_support_parts]; [|by intros [= <- <-]..].
  destruct (encode_range_observation _) as [bs|]; [|done]. by intros [= <- <-].
Qed.

Lemma wp_redirects id t urls :
  tb_downloads t !! id ≠ None → rows_of id (tb_redirects t) = [] → zlen urls ≤ i64_max →
  wp (for_each 0 (λ hop url,
      and_then (lift (i64_index "redirect_chain.hop" hop)) (λ hop,
      execute InsertRedirect (insert_redirect id (redirect_row hop url)))) urls)
    (λ _ t', rows_of id (tb_redirects t') = numbered redirect_row 0 urls ∧
       tb_downloads t' = tb_downloads t ∧ tb_identities t' = tb_identities t ∧
       tb_history t' = tb_history t ∧ tb_checkpoints t' = tb_checkpoints t ∧
       ∀ id', id' ≠ id → tb_redirects t' !! id' = tb_redirects t !! id') t.
Proof.
  intros Hid Hnil Hlen.
  apply (wp_for_each _ redirect_row (λ rows t', rows_of id (tb_redirects t') = rows ∧
       tb_downloads t' = tb_downloads t ∧ tb_identities t' = tb_identities t ∧
       tb_history t' = tb_history t ∧ tb_checkpoints t' = tb_checkpoints t ∧
       ∀ id', id' ≠ id → tb_redirects t' !! id' = tb_redirects t !! id') 0 urls t []); [done|].
  intros k url rows t' Hk _ Hrows (Hr & Hd & Hi & Hh & Hc & Ho). apply (wp_lift_bind _ k).
  { unfold i64_index, i64_try_from. rewrite (proj2 (Z.leb_le _ _)) by (unfold i64_max in *; lia). done. }
  eapply wp_execute; [done| |].
  { unfold insert_redirect. cbn [rr_hop redirect_row]. rewrite (proj2 (Z.ltb_ge _ _)) by lia.
    rewrite bool_decide_eq_false_2 by (by rewrite Hd). rewrite Hr, Hrows. cbn [app].
    rewrite (numbered_fresh redirect_row rr_hop) by (done || (rewrite zlen_take; lia)). reflexivity. }
  cbn. split_and!; try done; [by rewrite rows_of_insert, Hrows|].
  intros id' Hne. rewrite lookup_insert_ne by done. by apply Ho.
Qed.

Lemma wp_history id t es :
  tb_downloads t !! id ≠ None → rows_of id (tb_history t) = [] → zlen es ≤ i64_max →
  Forall (λ e, h_seen_at_ms e ≤ i64_max) es →
  wp (for_each 0 (λ entry e,
      and_then (lift (i64_index "url_history.entry" entry)) (λ entry,
      and_then (lift (sqlite_u64 "url_history.seen_at" (h_seen_at_ms e))) (λ seen_at,
      execute InsertHistory (insert_history id
        (MkHistoryRow entry (public_url (h_url e)) (optional_secret_text (secret_ref (h_url e)))
           seen_at))))) es)
    (λ _ t', rows_of id (tb_history t') = numbered history_row 0 es ∧
       tb_downloads t' = tb_downloads t ∧ tb_identities t' = tb_identities t ∧
       tb_redirects t' = tb_redirects t ∧ tb_checkpoints t' = tb_checkpoints t ∧
       ∀ id', id' ≠ id → tb_history t' !! id' = tb_history t !! id') t.
Proof.
  intros Hid Hnil Hlen Hseen. rewrite Forall_forall in Hseen.
  apply (wp_for_each _ history_row (λ rows t', rows_of id (tb_history t') = rows ∧
       tb_downloads t' = tb_downloads t ∧ tb_identities t' = tb_identities t ∧
       tb_redirects t' = tb_redirects t ∧ tb_checkpoints t' = tb_checkpoints t ∧
       ∀ id', id' ≠ id → tb_history t' !! id' = tb_history t !! id') 0 es t []); [done|].
  intros k e rows t' Hk He Hrows (Hr & Hd & Hi & Hh & Hc & Ho). apply (wp_lift_bind _ k).
  { unfold i64_index, i64_try_from. rewrite (proj2 (Z.leb_le _ _)) by (unfold i64_max in *; lia). done. }
  apply (wp_lift_bind _ (h_seen_at_ms e)); [by apply sqlite_u64_Ok; auto|].
  eapply wp_execute; [done| |].
  { unfold insert_history. cbn [hr_entry]. rewrite (proj2 (Z.ltb_ge _ _)) by lia.
    rewrite bool_decide_eq_false_2 by (by rewrite Hd). rewrite Hr, Hrows. cbn [app].
    rewrite (numbered_fresh history_row hr_entry) by (done || (rewrite zlen_take; lia)). reflexivity. }
  cbn. split_and!; try done; [by rewrite rows_of_insert, Hrows|].
  intros id' Hne. rewrite lookup_insert_ne by done. by apply Ho.
Qed.

(** Writing a prepared download: its rows, and no others; only SQLite can fail. *)
Lemma wp_write_row m p row t :
  zlen (as_bytes (md_id m)) = 16 → prepared m p → identity_row p = Ok row →
  wp (write p) (λ _, saved (as_bytes (md_id m)) (row_of p) row
    (numbered redirect_row 0 (redirect_chain (md_identity m)))
    (numbered history_row 0 (md_url_history m)) t) t.
Proof.
  intros Hid Hp Hrow. pose proof Hp as [Hm Hv _ _ Hr _ _ _ _].
  destruct (validate_metadata_Ok m Hv) as (Hrl & Hhl & _).
  destruct (validate_metadata_ints m Hv) as (_ & _ & _ & _ & _ & _ & Hseen).
  destruct (identity_row_Ok m p Hp) as (row' & Hrow' & _ & Hst & Hob).
  rewrite Hrow in Hrow'. injection Hrow' as <-. destruct (range_parts_check _ _ _ Hr) as [Hc1 Hc2].
  unfold write. rewrite Hm. apply (wp_lift_bind _ (row_of p)); [by eapply download_row_Ok|].
  apply wp_sql_bind. eapply wp_execute; [done| |].
  { unfold upsert_download. rewrite Hid. cbn [negb Z.eqb Pos.eqb].
    assert ((dr_space_reserved (row_of p) =? 0) || (dr_space_reserved (row_of p) =? 1) = true) as ->
      by (cbn; by destruct (md_space_reserved (pd_metadata p))).
    reflexivity. }
  apply (wp_lift_bind _ row); [done|]. apply wp_sql_bind. eapply wp_execute; [done| |].
  { unfold upsert_identity. rewrite Hst, Hob, Hc1, Hc2. cbn [negb].
    rewrite bool_decide_eq_false_2 by (cbn; by rewrite lookup_insert_eq). reflexivity. }
  apply wp_sql_bind. eapply wp_execute; [done|reflexivity|].
  apply wp_sql_bind. eapply wp_sql_mono.
  { apply wp_redirects; cbn; [by rewrite lookup_insert_eq|apply rows_of_delete|].
    unfold MAX_REDIRECTS, i64_max in *. lia. }
  intros u t1 (Hr1 & Hd1 & Hi1 & Hh1 & Hc3 & Ho1). cbn in *.
  apply wp_sql_bind. eapply wp_execute; [done|reflexivity|].
  eapply wp_sql_mono.
  { apply wp_history; cbn; [by rewrite Hd1, lookup_insert_eq|apply rows_of_delete| |exact Hseen].
    unfold MAX_HISTORY_ENTRIES, i64_max in *. lia. }
  intros u' t2 (Hr2 & Hd2 & Hi2 & Hh2 & Hc4 & Ho2). cbn in *. split; try congruence.
  - intros id' Hne. rewrite Hh2, Ho1 by done. by rewrite lookup_delete_ne.
  - intros id' Hne. rewrite Ho2 by done. rewrite lookup_delete_ne by done. by rewrite Hh1.
Qed.

Definition saved_metadata (m : DownloadMetadata) (t t' : Tables) : Prop :=
  ∃ p row, PreparedDownload_new m = Ok p ∧ identity_row p = Ok row ∧
    saved (as_bytes (md_id m)) (row_of p) row
      (numbered redirect_row 0 (redirect_chain (md_identity m)))
      (numbered history_row 0 (md_url_history m)) t t'.

(** A save writes the whole record or nothing, and fails only before the transaction or in
    SQLite. *)
Lemma save_download_spec m db r db' : zlen (as_bytes (md_id m)) = 16 → save_download m db = (r, db') →
  match r with
  | Ok _ => saved_metadata m (db_tables db) (db_tables db')
  | Err e => db_tables db' = db_tables db ∧ (PreparedDownload_new m = Err e ∨ faulted e)
  end.
Proof.
  intros Hid. unfold save_download, and_then at 1, lift at 1.
  destruct (PreparedDownload_new m) as [p|e] eqn:Ep; [|intros [= <- <-]; by auto].
  pose proof (PreparedDownload_new_Ok _ _ Ep) as Hp.
  destruct (identity_row_Ok _ _ Hp) as (row & Hrow & _).
  assert (Hwp : wp (and_then (execute Begin Ok) (λ _, and_then (write p) (λ _, execute Commit Ok)))
    (λ _ t', saved_metadata m (db_tables db) t') (db_tables db)).
  { apply wp_sql_bind. eapply wp_execute; [done|reflexivity|]. apply wp_sql_bind.
    eapply wp_sql_mono; [by apply wp_write_row|]. intros u t' Hs. eapply wp_execute; [done|reflexivity|].
    by exists p, row. }
  specialize (Hwp (db_writes db)). unfold transaction. destruct db as [t n]. cbn [db_tables db_writes] in *.
  destruct (and_then _ _ _) as [[[]|e] after]; intros [= <- <-]; [done|]. cbn. by auto.
Qed.

(** Whatever the record, a failed save leaves the tables. *)
Lemma save_download_atomic m db r db' : save_download m db = (r, db') →
  match r with
  | Ok _ => saved_metadata m (db_tables db) (db_tables db')
  | Err e => db_tables db' = db_tables db
  end.
Proof.
  intros Hs. destruct (decide (zlen (as_bytes (md_id m)) = 16)) as [Hid|Hid].
  { apply save_download_spec in Hs; [|done]. destruct r; [done|]. by destruct Hs. }
  revert Hs. unfold save_download, and_then at 1, lift at 1.
  destruct (PreparedDownload_new m) as [p|e] eqn:Ep; [|by intros [= <- <-]].
  pose proof (PreparedDownload_new_Ok _ _ Ep) as Hp. unfold transaction.
  destruct (and_then _ _ db) as [[u|e] after] eqn:Ea; [|by intros [= <- <-]].
  exfalso. unfold and_then at 1, execute at 1 in Ea.
  destruct (sql_fault _ Begin); [done|]. unfold and_then at 1, write, and_then at 1, lift at 1 in Ea.
  rewrite (download_row_Ok _ _ Hp), (pp_metadata _ _ Hp) in Ea.
  unfold and_then at 1, execute at 1, upsert_download in Ea.
  rewrite (proj2 (Z.eqb_neq _ _) Hid) in Ea. cbn in Ea. by destruct (sql_fault _ UpsertDownload).
Qed.

(** ** Loading what was saved *)

Class ReadsSucceed := reads_succeed n s : is_query s = true → sql_fault n s = None.
Context `{!ReadsSucceed}.

Lemma select_Ok {A} s (f : Tables → A) db : is_query s = true → select s f db = Ok (f (db_tables db)).
Proof. intros Hs. unfold select. by rewrite reads_succeed. Qed.

Lemma from_row_saved m p : representable m → prepared m p →
  from_row (as_bytes (md_id m)) (row_of p) =
    Ok (MkLoadedRow (md_id m) (md_state m) (md_created_at_ms m) (md_updated_at_ms m)
          (md_target_path m) (md_part_path m) (md_total_length m) (md_covered_bytes m)
          (md_queue_position m) (md_priority m) (md_error_kind m) (md_space_reserved m)).
Proof.
  intros [Hid Hc Hu Ht Hcov Hq Hpr Hk _ _] [Hm _ Htp Hpp _ _ _ Hs _]. unfold from_row, row_of.
  rewrite Hm. cbn [dr_priority].
  assert (fits_i32 (md_priority m) = true) as ->
    by (unfold fits_i32; apply andb_true_intro; destruct Hpr; split; by apply Z.leb_le).
  cbn [negb]. unfold from_raw. cbn -[rust_u64 optional_rust_u64 parse_state state_name]. rewrite Hid, Hs, (proj2 (parse_state_spec _ _) eq_refl).
  rewrite !rust_u64_Ok, !optional_rust_u64_Ok by done.
  rewrite (decode_encode_path _ _ Htp), (decode_encode_path _ _ Hpp), transpose_map_id by done.
  by destruct (md_space_reserved m).
Qed.

Lemma into_identity_saved m p row :
  representable m → prepared m p → identity_row p = Ok row →
  into_identity row (redirect_chain (md_identity m)) = Ok (md_identity m).
Proof.
  intros Hm Hp Hrow. pose proof Hp as [Hpm Hv _ _ Hr Hval Hd _ Hpro].
  destruct (validate_metadata_Ok m Hv) as (_ & _ & Hdig).
  destruct (validate_metadata_ints m Hv) as (_ & _ & _ & _ & _ & Hprobed & _).
  destruct (ok_identity _ Hm) as [Hc Hf _ Hpg Ho Hx Hpb Hrg].
  unfold identity_row in Hrow. rewrite Hpm in Hrow.
  rewrite (proj2 (sqlite_u64_Ok "probed_at" _ _) (conj eq_refl Hprobed)) in Hrow. injection Hrow as <-.
  unfold into_identity.
  cbn [ir_range_state ir_range_observation ir_current_url ir_current_url_ref ir_final_url
    ir_final_url_ref ir_page_url ir_page_url_ref ir_origin ir_validator_kind ir_validator_value
    ir_server_digest ir_request_context_ref ir_probed_at ir_protocol ir_content_type
    ir_suggested_name].
  rewrite (range_parts_back _ _ _ Hrg Hr), (reference_from_parts_id _ Hc).
  rewrite !optional_reference_from_parts_id by done. rewrite Ho.
  rewrite (proj2 (validator_from_parts_spec _ _ _) Hval), Hd.
  assert (digest_from_text (option_map digest_text (server_digest (md_identity m))) =
    Ok (server_digest (md_identity m))) as ->.
  { destruct (server_digest (md_identity m)) as [d|]; [|done]. by apply digest_from_text_spec. }
  unfold optional_secret_text. rewrite transpose_map_id by done.
  rewrite rust_u64_Ok, Hpro, (proj2 (parse_protocol_spec _ _) eq_refl) by done.
  by destruct (md_identity m).
Qed.

Lemma load_saved m t db :
  representable m → saved_metadata m t (db_tables db) → load_download (md_id m) db = Ok (Some m).
Proof.
  intros Hm (p & row & Ep & Hrow & [Hd Hi Hr Hh _ _ _]).
  pose proof (PreparedDownload_new_Ok _ _ Ep) as Hp. pose proof (pp_valid _ _ Hp) as Hv.
  destruct (validate_metadata_Ok m Hv) as (Hrl & Hhl & _).
  unfold load_download. rewrite select_Ok, Hd, lookup_insert_eq by done. cbn [transpose_map].
  rewrite (from_row_saved _ _ Hm Hp). unfold transpose_map, finish_download. cbn [lr_id].
  unfold load_identity. rewrite select_Ok, Hi, lookup_insert_eq by done. cbn [ok_or].
  unfold load_redirects. rewrite select_Ok, Hr by done.
  rewrite (numbered_ordered redirect_row rr_hop), zlen_numbered by done.
  rewrite (proj2 (Z.ltb_ge _ _)) by done.
  rewrite collect_numbered.
  2: { eapply Forall_impl; [exact (ok_redirects _ (ok_identity _ Hm))|]. intros r Hr' k.
       by apply reference_from_parts_id. }
  rewrite (into_identity_saved _ _ _ Hm Hp Hrow).
  unfold load_history. rewrite select_Ok, Hh by done.
  rewrite (numbered_ordered history_row hr_entry), zlen_numbered by done.
  rewrite (proj2 (Z.ltb_ge _ _)) by done.
  rewrite collect_numbered.
  2: { eapply Forall_impl; [exact (ok_history _ Hm)|]. intros e [He Hs] k. cbn.
       rewrite (reference_from_parts_id _ He), rust_u64_Ok by done. by destruct e. }
  cbn [lr_state lr_created_at_ms lr_updated_at_ms lr_target_path lr_part_path lr_total_length
    lr_covered_bytes lr_queue_position lr_priority lr_error_kind lr_space_reserved].
  assert (MkMetadata (md_id m) (md_state m) (md_created_at_ms m) (md_updated_at_ms m)
    (md_target_path m) (md_part_path m) (md_total_length m) (md_covered_bytes m)
    (md_queue_position m) (md_priority m) (md_error_kind m) (md_space_reserved m) (md_identity m)
    (md_url_history m) = m) as -> by (by destruct m).
  by rewrite Hv.
Qed.

(** A load reads the rows of its download only. *)
Lemma load_frame id db db' :
  tb_downloads (db_tables db') !! as_bytes id = tb_downloads (db_tables db) !! as_bytes id →
  tb_identities (db_tables db') !! as_bytes id = tb_identities (db_tables db) !! as_bytes id →
  tb_redirects (db_tables db') !! as_bytes id = tb_redirects (db_tables db) !! as_bytes id →
  tb_history (db_tables db') !! as_bytes id = tb_history (db_tables db) !! as_bytes id →
  load_download id db' = load_download id db.
Proof.
  intros Hd Hi Hr Hh. unfold load_download. rewrite !select_Ok, Hd by done.
  destruct (tb_downloads (db_tables db) !! as_bytes id) as [row|]; [|done]. cbn [transpose_map].
  destruct (from_row (as_bytes id) row) as [l|] eqn:El; [|done]. cbn [transpose_map].
  assert (as_bytes (lr_id l) = as_bytes id) as Hl.
  { unfold from_row in El. destruct (negb _); [done|]. destruct (from_raw _ _) as [l'|] eqn:Er; [|done].
    injection El as ->. unfold from_raw in Er.
    destruct (download_id_from_slice _) as [i|] eqn:Ei; [|done].
    apply download_id_from_slice_ok in Ei as [<- _].
    repeat (match type of Er with (match ?m with Ok _ => _ | Err _ => _ end) = _ =>
      destruct m eqn:?; [|discriminate Er] end). by injection Er as <-. }
  unfold finish_download, load_identity, load_redirects, load_history, rows_of.
  by rewrite !select_Ok, Hl, Hi, Hr, Hh.
Qed.

(** ** What a load lets in *)

Context `{!CborRanges RangeObservationWireV1 observation_ranges}.

Lemma rust_u64_inv field v v' : rust_u64 field v = Ok v' → v' = v ∧ 0 ≤ v.
Proof. unfold rust_u64. destruct (Z.leb_spec 0 v); [by intros [= <-]|done]. Qed.
Lemma optional_rust_u64_inv field o o' :
  optional_rust_u64 field o = Ok o' → o' = o ∧ on_some (λ v, 0 ≤ v) o.
Proof.
  destruct o as [v|]; cbn; [|by intros [= <-]]. destruct (rust_u64 field v) as [v'|] eqn:E0; [|done].
  apply rust_u64_inv in E0 as [-> ?]. by intros [= <-].
Qed.

Lemma from_row_ok id r l : from_row (as_bytes id) r = Ok l →
  lr_id l = id ∧ id_ok id ∧ 0 ≤ lr_created_at_ms l ∧ 0 ≤ lr_updated_at_ms l ∧
  on_some (λ t, 0 ≤ t) (lr_total_length l) ∧ 0 ≤ lr_covered_bytes l ∧
  on_some (λ q, 0 ≤ q) (lr_queue_position l) ∧ i32 (lr_priority l) ∧ on_some kind_ok (lr_error_kind l).
Proof.
  unfold from_row. destruct (fits_i32 (dr_priority r)) eqn:Ef; [|done]. cbn [negb].
  destruct (from_raw _ _) as [l'|] eqn:Er; [|done]. intros [= ->]. unfold from_raw in Er.
  destruct (download_id_from_slice _) as [d|] eqn:Ed; [|done].
  apply download_id_from_slice_ok in Ed as [? ?].
  repeat (match type of Er with (match ?m with Ok _ => _ | Err _ => _ end) = _ =>
    destruct m eqn:?; [|discriminate Er] end).
  injection Er as <-. cbn.
  repeat match goal with
  | E : rust_u64 _ _ = Ok _ |- _ => apply rust_u64_inv in E as [-> ?]
  | E : optional_rust_u64 _ _ = Ok _ |- _ => apply optional_rust_u64_inv in E as [-> ?]
  end.
  assert (d = id) as -> by (destruct d, id; cbn in *; by subst).
  apply andb_prop in Ef as [?%Z.leb_le ?%Z.leb_le]. split_and!; try done.
  eapply transpose_map_Ok; [eassumption|]. intros ? ? Hx. by eapply DownloadErrorKind_new_ok.
Qed.

Lemma range_from_parts_ok state encoded r :
  range_support_from_parts state encoded = Ok r → range_ok r.
Proof.
  unfold range_support_from_parts. destruct encoded as [bs|]; repeat case_bool_decide; try done;
    try (by intros [= <-]).
  destruct (decode_range_observation bs) as [o|] eqn:Eo; [|done].
  destruct (from_observed_response _ _ _ _ _) as [p|] eqn:Ep; [|done]. intros [= <-].
  do 5 eexists. split; [by eapply decode_range_observation_wf|exact Ep].
Qed.

Lemma optional_reference_from_parts_ok public reference o :
  optional_url_reference_from_parts public reference = Ok o → on_some reference_ok o.
Proof.
  destruct public as [t|], reference as [s|]; cbn; try done; try (by intros [= <-]);
    (destruct (url_reference_from_parts _ _) as [r|] eqn:E0; [|done]); intros [= <-];
    by eapply reference_from_parts_ok.
Qed.

Lemma into_identity_ok row chain i :
  into_identity row chain = Ok i → Forall reference_ok chain → identity_ok i.
Proof.
  unfold into_identity. intros Hi Hc.
  repeat (match type of Hi with (match ?m with Ok _ => _ | Err _ => _ end) = _ =>
    destruct m eqn:?; [|discriminate Hi] end).
  injection Hi as <-. split; cbn; try done; try (by eapply reference_from_parts_ok);
    try (by eapply optional_reference_from_parts_ok).
  - by eapply PublicUrl_parse_ok.
  - eapply transpose_map_Ok; [eassumption|]. intros ? ? Hx. by apply SecretRef_new_ok in Hx as [_ ?].
  - match goal with E : rust_u64 _ _ = Ok _ |- _ => by apply rust_u64_inv in E as [-> ?] end.
  - by eapply range_from_parts_ok.
Qed.

Lemma load_redirects_ok id db l : load_redirects id db = Ok l → Forall reference_ok l.
Proof.
  unfold load_redirects. rewrite select_Ok by done. case_bool; [done|]. intros Hl.
  eapply (collect_map_Ok _ (λ _, True)); [exact Hl|by apply Forall_forall|].
  intros ? ? _ Hx. by apply reference_from_parts_ok in Hx.
Qed.
Lemma load_history_ok id db l :
  load_history id db = Ok l → Forall (λ e, reference_ok (h_url e) ∧ 0 ≤ h_seen_at_ms e) l.
Proof.
  unfold load_history. rewrite select_Ok by done. case_bool; [done|]. intros Hl.
  eapply (collect_map_Ok _ (λ _, True)); [exact Hl|by apply Forall_forall|].
  intros r e _ Hx. cbn beta in Hx. destruct (url_reference_from_parts _ _) as [u|] eqn:Eu; [|done].
  destruct (rust_u64 _ _) as [v|] eqn:Ev; [|done]. injection Hx as <-. cbn.
  apply rust_u64_inv in Ev as [-> ?]. split; [by eapply reference_from_parts_ok|done].
Qed.

Lemma load_download_ok id db m : load_download id db = Ok (Some m) →
  md_id m = id ∧ representable m ∧ validate_metadata m = Ok tt.
Proof.
  unfold load_download. rewrite select_Ok by done.
  destruct (tb_downloads (db_tables db) !! as_bytes id) as [row|]; [|done]. cbn [transpose_map].
  destruct (from_row (as_bytes id) row) as [l|] eqn:El; [|done]. cbn [transpose_map].
  destruct (from_row_ok _ _ _ El) as (Hid & Hok & ? & ? & ? & ? & ? & ? & ?).
  destruct (finish_download l db) as [m'|] eqn:Ef; [|done]. intros [= <-]. unfold finish_download in Ef.
  destruct (load_identity _ db) as [i|] eqn:Ei; [|done].
  destruct (load_history _ db) as [h|] eqn:Eh; [|done].
  destruct (validate_metadata _) as [[]|] eqn:Ev; [|done]. injection Ef as <-.
  split; [done|]. split; [|done]. split; cbn; try done; try (by rewrite Hid).
  - unfold load_identity in Ei. rewrite select_Ok in Ei by done.
    destruct (tb_identities _ !! _) as [ir|]; [|done]. cbn [ok_or] in Ei.
    destruct (load_redirects _ db) as [c|] eqn:Ec; [|done].
    eapply into_identity_ok; [exact Ei|by eapply load_redirects_ok].
  - by eapply load_history_ok.
Qed.

(** ** Checkpoints *)

Context `{!CborReads CheckpointWireV1 checkpoint_bounded, !CheckpointHeads}.

(** Saving a checkpoint touches its row only; what was saved is loaded; and when the encoding is
    too large for the cache, nothing is written and the caller is told so. *)
Lemma save_checkpoint_spec id seq now c db r db' : save_checkpoint id seq now c db = (r, db') →
  tb_downloads (db_tables db') = tb_downloads (db_tables db) ∧
  tb_identities (db_tables db') = tb_identities (db_tables db) ∧
  tb_redirects (db_tables db') = tb_redirects (db_tables db) ∧
  tb_history (db_tables db') = tb_history (db_tables db) ∧
  (∀ id', id' ≠ as_bytes id →
    tb_checkpoints (db_tables db') !! id' = tb_checkpoints (db_tables db) !! id') ∧
  match r with
  | Ok true => checkpoint_ok c → 0 ≤ seq → 0 ≤ now →
      load_checkpoint id db' = Ok (Some (MkPersisted seq now c))
  | Ok false => db_tables db' = db_tables db ∧
      ∃ actual, encode_cbor c = Err (PayloadTooLarge FCheckpoint actual MAX_CHECKPOINT_BYTES)
  | Err _ => db_tables db' = db_tables db
  end.
Proof.
  unfold save_checkpoint, and_then at 1, lift at 1.
  assert (Hsame : ∀ r' : result bool MetadataError, (r', db) = (r, db') →
    (∀ b, r' = Ok b → b = false ∧ ∃ actual, encode_cbor c = Err (PayloadTooLarge FCheckpoint actual MAX_CHECKPOINT_BYTES)) →
    tb_downloads (db_tables db') = tb_downloads (db_tables db) ∧
    tb_identities (db_tables db') = tb_identities (db_tables db) ∧
    tb_redirects (db_tables db') = tb_redirects (db_tables db) ∧
    tb_history (db_tables db') = tb_history (db_tables db) ∧
    (∀ id', id' ≠ as_bytes id →
      tb_checkpoints (db_tables db') !! id' = tb_checkpoints (db_tables db) !! id') ∧
    match r with
    | Ok true => checkpoint_ok c → 0 ≤ seq → 0 ≤ now →
        load_checkpoint id db' = Ok (Some (MkPersisted seq now c))
    | Ok false => db_tables db' = db_tables db ∧
        ∃ actual, encode_cbor c = Err (PayloadTooLarge FCheckpoint actual MAX_CHECKPOINT_BYTES)
    | Err _ => db_tables db' = db_tables db
    end).
  { intros r' [= <- <-] Hr. do 5 (split; [done|]). destruct r' as [b|]; [|done].
    destruct (Hr b eq_refl) as [-> Hx]. by split. }
  destruct (download_total_length id db) as [total|e] eqn:Et; [|intros Hx; by apply (Hsame _ Hx)].
  destruct (Z.eqb_spec (cp_total_length c) total) as [Heq|]; cbn [negb];
    [|intros Hx; by apply (Hsame _ Hx)].
  destruct (encode_cbor c) as [bs|e] eqn:Ee.
  2: { unfold lift. intros Hx. apply (Hsame _ Hx). intros b.
       destruct (is_too_large e) eqn:El; [|done]. intros [= <-]. split; [done|].
       unfold encode_cbor, encode_wire, check_payload_len in Ee.
       destruct (into_writer _); cbn in Ee; [|injection Ee as <-; done].
       destruct (_ <? _); [|done]. injection Ee as <-. by eexists. }
  unfold and_then at 1, lift at 1. destruct (sqlite_u64 "journal_seq" seq) as [s1|] eqn:E1;
    [|intros Hx; by apply (Hsame _ Hx)].
  unfold and_then at 1, lift at 1. destruct (sqlite_u64 "covered_bytes" _) as [s2|] eqn:E2;
    [|intros Hx; by apply (Hsame _ Hx)].
  unfold and_then at 1, lift at 1. destruct (sqlite_u64 "written_at" now) as [s3|] eqn:E3;
    [|intros Hx; by apply (Hsame _ Hx)].
  apply sqlite_u64_Ok in E1 as [-> _]. apply sqlite_u64_Ok in E2 as [-> _].
  apply sqlite_u64_Ok in E3 as [-> _]. clear Hsame.
  unfold and_then, execute, pure. destruct (sql_fault _ _); [by intros [= <- <-]|].
  unfold download_total_length in Et. rewrite select_Ok in Et by done.
  destruct (tb_downloads (db_tables db) !! as_bytes id) as [row|] eqn:Ed; [|done].
  cbn [fmap option_fmap option_map ok_or] in Et. unfold upsert_checkpoint.
  rewrite bool_decide_eq_false_2 by (by rewrite Ed). intros [= <- <-]. cbn.
  do 4 (split; [done|]). split; [intros id' Hne; by rewrite lookup_insert_ne|].
  intros Hok Hs Hn. unfold load_checkpoint. rewrite select_Ok by done. cbn.
  rewrite lookup_insert_eq, Ed. cbn [transpose_map cr_journal_seq cr_covered_bytes cr_interval_map cr_written_at].
  destruct (checkpoint_ok_facts _ Hok) as (_ & _ & Hcov & _).
  assert (0 ≤ cp_covered_bytes c).
  { rewrite Hcov. apply covered_from_bound. destruct Hok as (_ & [? ?] & _). done. }
  rewrite !rust_u64_Ok by done. rewrite (decode_encode_checkpoint _ _ Hok Ee).
  destruct (optional_rust_u64 _ _) as [o|] eqn:Eo; [|done]. rewrite Et.
  by rewrite Heq, Z.eqb_refl.
Qed.

Lemma load_checkpoint_frame id db db' :
  tb_checkpoints (db_tables db') !! as_bytes id = tb_checkpoints (db_tables db) !! as_bytes id →
  tb_downloads (db_tables db') !! as_bytes id = tb_downloads (db_tables db) !! as_bytes id →
  load_checkpoint id db' = load_checkpoint id db.
Proof. intros Hc Hd. unfold load_checkpoint. by rewrite !select_Ok, Hc, Hd. Qed.

Definition checkpoint_ranges (w : CheckpointWireV1) : Prop :=
  let '(version, total, covered, l) := w in
  u64 total ∧ Forall (λ p, u64 (fst p) ∧ u64 (snd p)) l.
Context `{!CborRanges CheckpointWireV1 checkpoint_ranges}.

Lemma collect_intervals_ok l is_ : collect_intervals l = Ok is_ →
  Forall (λ p, u64 (fst p) ∧ u64 (snd p)) l → Forall (λ i, u64 (ci_start i) ∧ u64 (ci_end i)) is_.
Proof.
  revert is_. induction l as [|[a b] l IH]; cbn; intros is_; [by intros [= <-]|].
  unfold CompleteInterval_try_new. case_bool; [done|]. destruct (collect_intervals l) as [k|]; [|done].
  intros [= <-] [Hab Hl]%Forall_cons. constructor; [done|by apply IH].
Qed.

Lemma decode_cbor_ok bs covered c :
  decode_cbor bs covered = Ok c → cp_covered_bytes c = covered ∧ checkpoint_ok c.
Proof.
  unfold decode_cbor, decode_wire. destruct (peek_version _ _ _); [|done].
  destruct (preflight_checkpoint_count bs); [|done].
  destruct (from_reader bs) as [[w n]|] eqn:Ew; [|done]. cbn [map_err]. destruct (negb _); [done|].
  destruct (require_canonical _ _ _); [|done]. pose proof (cbor_ranges _ _ _ Ew) as Hw.
  destruct w as [[[version total] cov] l]. destruct Hw as [Ht Hl].
  destruct (collect_intervals l) as [is_|] eqn:Ec; [|done].
  pose proof (collect_intervals_ok _ _ Ec Hl) as Hi. unfold validate_intervals.
  destruct (MAX_CHECKPOINT_INTERVALS <? zlen is_) eqn:En; [done|].
  destruct (fold_left _ _ _) as [[p v]|] eqn:Ef; [|done].
  destruct (Z.eqb_spec v cov) as [->|]; [|done]. destruct (Z.eqb_spec cov covered) as [->|]; [|done].
  cbn. intros [= <-]. split; [done|]. split; [|done]. cbn. unfold Checkpoint_try_new, validate_intervals.
  by rewrite En, Ef.
Qed.

Lemma load_checkpoint_ok id db pc : load_checkpoint id db = Ok (Some pc) →
  checkpoint_ok (pc_checkpoint pc) ∧
  ∃ row, tb_downloads (db_tables db) !! as_bytes id = Some row ∧
    dr_total_length row = Some (cp_total_length (pc_checkpoint pc)).
Proof.
  unfold load_checkpoint. rewrite select_Ok by done.
  destruct (tb_checkpoints _ !! _) as [c|]; [|done].
  destruct (tb_downloads _ !! _) as [row|]; [|done]. cbn [transpose_map].
  destruct (rust_u64 "journal_seq" _); [|done]. destruct (rust_u64 "covered_bytes" _) as [cov|]; [|done].
  destruct (rust_u64 "written_at" _); [|done]. destruct (decode_cbor _ cov) as [cp|] eqn:Ed; [|done].
  apply decode_cbor_ok in Ed as [_ Hok].
  destruct (optional_rust_u64 _ _) as [o|] eqn:Eo; [|done]. apply optional_rust_u64_inv in Eo as [-> _].
  destruct (dr_total_length row) as [total|] eqn:Et; [|done]. cbn [ok_or].
  destruct (Z.eqb_spec (cp_total_length cp) total) as [<-|]; [|done]. cbn. intros [= <-]. cbn.
  split; [done|]. exists row. by rewrite Et.
Qed.

(** ** The store is what recovery and start-up rely on *)

Lemma representable_revision m m' :
  representable m → Recovery.Recovery.revision m m' → representable m'.
Proof.
  intros [Hid Hc Hu Ht Hcov Hq Hpr Hk Hi Hh]
    [Rid Rc Ru Rt Rp Rtot Rcov Rq Rpr Rk Ri Rh].
  split; try congruence; try done.
  - destruct Rtot as [->|(t & -> & ?)]; done.
  - destruct (md_error_kind m') as [k|]; [|done]. destruct (Rk k eq_refl) as [raw Hraw].
    by eapply DownloadErrorKind_new_ok.
  - destruct Ri as [->| ->]; [done|]. destruct Hi. split; done.
Qed.

#[export] Instance sqlite_store : Recovery.Recovery.MetadataStore Db := {
  Recovery.Recovery.load_download := load_download;
  Recovery.Recovery.save_download := save_download;
  Recovery.Recovery.load_checkpoint := load_checkpoint;
  Recovery.Recovery.save_checkpoint := save_checkpoint;
}.
#[export] Instance sqlite_ids : Startup.Startup.DownloadIds Db := load_ids.

Lemma as_bytes_ne (a b : DownloadId) : a ≠ b → as_bytes a ≠ as_bytes b.
Proof. destruct a, b. cbn. congruence. Qed.

#[export] Instance sqlite_laws : Recovery.Recovery.MetadataStoreLaws Db.
Proof.
  split; cbn.
  - intros id db m Hl. by apply load_download_ok in Hl as (? & _).
  - intros id db0 m m' db db' Hl Hrev Hs. apply load_download_ok in Hl as (_ & Hrep & _).
    pose proof (representable_revision _ _ Hrep Hrev) as Hrep'.
    apply save_download_atomic in Hs. by eapply load_saved.
  - intros id seq now c db r db' Hs id'.
    apply save_checkpoint_spec in Hs as (Hd & Hi & Hr & Hh & _). apply load_frame; congruence.
Qed.

(** A save touches the rows of its download only. *)
Lemma save_download_frame m db r db' : save_download m db = (r, db') →
  ∀ id, id ≠ md_id m → load_download id db' = load_download id db ∧
    load_checkpoint id db' = load_checkpoint id db.
Proof.
  intros Hs id Hne%as_bytes_ne. apply save_download_atomic in Hs. destruct r as [u|e].
  - destruct Hs as (p & row & _ & _ & [Hd Hi _ _ Hr Hh Hc]).
    assert (Hd' : tb_downloads (db_tables db') !! as_bytes id = tb_downloads (db_tables db) !! as_bytes id)
      by (by rewrite Hd, lookup_insert_ne by done).
    split.
    + apply load_frame; [done| |by apply Hr|by apply Hh]. by rewrite Hi, lookup_insert_ne by done.
    + apply load_checkpoint_frame; [by rewrite Hc|done].
  - split; [apply load_frame|apply load_checkpoint_frame]; by rewrite Hs.
Qed.

Lemma load_ids_spec db ids : load_ids db = Ok ids →
  Sorted (λ a b, bytes_leb a b = true) ids ∧ NoDup ids ∧
  ∀ bytes, bytes ∈ ids ↔ is_Some (tb_downloads (db_tables db) !! bytes).
Proof.
  unfold load_ids. rewrite select_Ok by done. intros [= <-].
  split; [apply order_by_sorted, bytes_leb_total|]. split.
  - rewrite order_by_perm. apply NoDup_fst_map_to_list.
  - intros bytes. rewrite order_by_perm, list_elem_of_fmap. split.
    + intros ([k v] & -> & Hin). apply elem_of_map_to_list in Hin. by exists v.
    + intros [v Hv]. exists (bytes, v). split; [done|]. by apply elem_of_map_to_list.
Qed.

#[export] Instance sqlite_private : Startup.Startup.PrivateRows Db.
Proof.
  split; cbn.
  - intros m db r db' Hs. by eapply save_download_frame.
  - intros id seq now c db r db' Hs id' Hne%as_bytes_ne.
    apply save_checkpoint_spec in Hs as (Hd & _ & _ & _ & Hc & _).
    apply load_checkpoint_frame; [by apply Hc|by rewrite Hd].
  - intros db ids Hl. by apply load_ids_spec in Hl as (_ & ? & _).
Qed.

(** ** Start-up over this store *)

Section composed.
Import Io.Io Recovery.Recovery Startup.Startup.
Context `{Checksum, Os}.

(** The same downloads have a row. *)
Definition same_keys (db db' : Db) : Prop :=
  ∀ bytes, is_Some (tb_downloads (db_tables db') !! bytes) ↔ is_Some (tb_downloads (db_tables db) !! bytes).
Lemma same_keys_trans a b c : same_keys a b → same_keys b c → same_keys a c.
Proof. intros Ha Hb bytes. by rewrite (Hb bytes). Qed.

Lemma save_keys m db r db' :
  Store.save_download m db = (r, db') → is_Some (tb_downloads (db_tables db) !! as_bytes (md_id m)) →
  same_keys db db'.
Proof.
  intros Hs Hin bytes. apply save_download_atomic in Hs. destruct r as [u|e]; [|by rewrite Hs].
  destruct Hs as (p & row & _ & _ & [-> _ _ _ _ _ _]).
  destruct (decide (bytes = as_bytes (md_id m))) as [->|Hne].
  - rewrite lookup_insert_eq. split; [done|by eexists].
  - by rewrite lookup_insert_ne.
Qed.
Lemma checkpoint_keys id seq now c db r db' :
  Store.save_checkpoint id seq now c db = (r, db') → same_keys db db'.
Proof. intros Hs bytes. apply save_checkpoint_spec in Hs as (-> & _). done. Qed.

Lemma loaded_row id db m : Store.load_download id db = Ok (Some m) →
  is_Some (tb_downloads (db_tables db) !! as_bytes (md_id m)).
Proof.
  intros Hl. pose proof (load_download_ok _ _ _ Hl) as (-> & _). revert Hl.
  unfold Store.load_download. rewrite select_Ok by done.
  destruct (tb_downloads (db_tables db) !! as_bytes id); [by eexists|done].
Qed.

Lemma fail_keys (db : Db) m kind now r db' :
  is_Some (tb_downloads (db_tables db) !! as_bytes (md_id m)) → fail db m kind now = (r, db') →
  same_keys db db'.
Proof.
  intros Hin. unfold fail. destruct (DownloadErrorKind_new _); [|by intros [= _ <-]].
  destruct (save_download _ db) as [saved s'] eqn:Es.
  pose proof (save_keys _ _ _ _ Es Hin) as Hk. destruct saved; by intros [= _ <-].
Qed.
Lemma persist_keys (db : Db) m rec eff now r db' :
  is_Some (tb_downloads (db_tables db) !! as_bytes (md_id m)) →
  persist db m rec eff now = (r, db') → same_keys db db'.
Proof.
  intros Hin. unfold persist. destruct (save_download _ db) as [saved s1] eqn:Es.
  pose proof (save_keys _ _ _ _ Es Hin) as Hk. destruct saved; [|by intros [= _ <-]].
  destruct (let? cs := _ in _) as [cp|e]; [|by intros [= _ <-]].
  destruct (save_checkpoint _ _ _ _ s1) as [saved s2] eqn:Ec.
  pose proof (checkpoint_keys _ _ _ _ _ _ _ Ec) as Hk2.
  destruct saved; intros [= _ <-]; by eapply same_keys_trans.
Qed.

Lemma reconcile_keys (db : Db) id calls bytes now fuel r after :
  reconcile_download db id calls bytes now fuel = Some (r, after) → same_keys db (af_store after).
Proof.
  unfold reconcile_download. cbn -[fail persist].
  destruct (Store.load_download id db) as [[m|]|e] eqn:Hl; [|by intros [= _ <-]..].
  pose proof (loaded_row _ _ _ Hl) as Hin. case_bool_decide; [by intros [= _ <-]|].
  assert (Hfail : ∀ kind p j,
    (let '(r, s) := fail db m kind now in Some (r, MkAfter s p j)) = Some (r, after) →
    same_keys db (af_store after)).
  { intros kind p j. destruct (fail db m kind now) as [r' s'] eqn:Ef. intros [= -> <-].
    by eapply fail_keys. }
  assert (Hpersist : ∀ rec eff p j,
    (let '(r, s) := persist db m rec eff now in Some (r, MkAfter s p j)) = Some (r, after) →
    same_keys db (af_store after)).
  { intros rec eff p j. destruct (persist db m rec eff now) as [r' s'] eqn:Ef. intros [= -> <-].
    by eapply persist_keys. }
  destruct (call_exists calls); cbn [negb]; [|by apply Hfail].
  destruct (md_total_length m) as [total|]; [|by apply Hfail].
  destruct (open_existing _ _ _) as [[rp|pe] part]; [|by intros [= _ <-]].
  destruct (Replay.Replay.recover_journal _ _ _ _ _) as [[replayed j]|]; [|done].
  unfold reconcile_journal. destruct replayed as [out|[fe|io]]; [|by apply Hfail|].
  - case_bool; [by apply Hfail|].
    destruct (JournalState.JournalState.effective_state _ _) as [st|]; [|by apply Hfail].
    destruct (let? merged := _ in _) as [[merged [mp c]]|e]; [|by intros [= _ <-]]. by apply Hpersist.
  - case_bool_decide; [by apply Hpersist|by intros [= _ <-]].
Qed.

Lemma recover_each_keys files fuel dir now (pass pass' : Pass Db) all :
  recover_each files fuel dir now pass all = Some pass' → same_keys (ps_store pass) (ps_store pass').
Proof.
  revert pass. induction all as [|m all IH]; intros pass; cbn [recover_each]; [by intros [= ->]|].
  destruct (recover_one files fuel dir now pass m) as [pass1|] eqn:E1; [|done]. intros Hr.
  apply IH in Hr. eapply same_keys_trans; [|exact Hr]. unfold recover_one in E1.
  destruct (terminal m); [by injection E1 as <-|]. destruct (files _ _) as [calls journal].
  destruct (reconcile_download _ _ _ _ _ _) as [[o after]|] eqn:Er; [|done]. injection E1 as <-.
  by apply reconcile_keys in Er.
Qed.
End composed.


(** ** Properties *)

(** C34: The store keeps what it is given.  Saving any record the program can hold either succeeds,
    and loading then gives exactly that record, or fails and leaves every table as it was; it fails
    only for what preparing the record reports or because SQLite itself failed, so no constraint of
    the schema is ever what stops it.  Either way every other download, and every cached
    checkpoint, reads as before. *)
Theorem store_keeps_records m db r db' : representable m → save_download m db = (r, db') →
  match r with
  | Ok _ => load_download (md_id m) db' = Ok (Some m)
  | Err e => db_tables db' = db_tables db ∧ (PreparedDownload_new m = Err e ∨ faulted e)
  end ∧
  tb_checkpoints (db_tables db') = tb_checkpoints (db_tables db) ∧
  ∀ id, id ≠ md_id m →
    load_download id db' = load_download id db ∧ load_checkpoint id db' = load_checkpoint id db.
Proof.
  intros Hm Hs. pose proof (save_download_frame _ _ _ _ Hs) as Hframe.
  pose proof (save_download_spec _ _ _ _ (id_ok_length _ (ok_id _ Hm)) Hs) as Hspec.
  split; [|split; [|done]].
  - destruct r as [u|e]; [|done]. by eapply load_saved.
  - destruct r as [u|e]; [|by destruct Hspec as [-> _]].
    by destruct Hspec as (p & row & _ & _ & [_ _ _ _ _ _ Hc]).
Qed.

(** The checkpoint cache is exact and disposable.  Caching a checkpoint changes no download and
    no other checkpoint.  When it says so, loading gives back that checkpoint with its journal
    position and time; when it declines, the encoding was too large for the cache; and when it
    declines or fails, no table has changed. *)
Theorem checkpoint_cache_exact id seq now c db r db' :
  checkpoint_ok c → 0 ≤ seq → 0 ≤ now → save_checkpoint id seq now c db = (r, db') →
  match r with
  | Ok true => load_checkpoint id db' = Ok (Some (MkPersisted seq now c))
  | Ok false => db_tables db' = db_tables db ∧
      ∃ actual, encode_cbor c = Err (PayloadTooLarge FCheckpoint actual MAX_CHECKPOINT_BYTES)
  | Err _ => db_tables db' = db_tables db
  end ∧
  (∀ id', load_download id' db' = load_download id' db) ∧
  ∀ id', id' ≠ id → load_checkpoint id' db' = load_checkpoint id' db.
Proof.
  intros Hc Hs Hn Hr. apply save_checkpoint_spec in Hr as (Hd & Hi & Hre & Hh & Hcp & Hout).
  split; [|split].
  - destruct r as [[]|e]; [by apply Hout|done|done].
  - intros id'. apply load_frame; congruence.
  - intros id' Hne%as_bytes_ne. apply load_checkpoint_frame; [by apply Hcp|by rewrite Hd].
Qed.

(** C35: Nothing unchecked is loaded.  Whatever the tables hold, a download that loads is the one
    asked for and is a record the program's own constructors could have built, its range evidence
    proved anew; a checkpoint that loads has in-order, disjoint, non-empty intervals inside the
    length its download records, with the coverage they sum to. *)
Theorem loaded_values_are_checked id db :
  (∀ m, load_download id db = Ok (Some m) →
     md_id m = id ∧ representable m ∧ validate_metadata m = Ok tt) ∧
  ∀ pc, load_checkpoint id db = Ok (Some pc) →
    let c := pc_checkpoint pc in
    laid_out (cp_total_length c) 0 (cp_intervals c) ∧
    cp_covered_bytes c = covered_from 0 (cp_total_length c) (cp_intervals c) ∧
    ∃ row, tb_downloads (db_tables db) !! as_bytes id = Some row ∧
      dr_total_length row = Some (cp_total_length c).
Proof.
  split; [apply load_download_ok|]. intros pc Hpc. apply load_checkpoint_ok in Hpc as [Hok Hrow].
  destruct (checkpoint_ok_facts _ Hok) as (_ & Hlay & Hcov & _). done.
Qed.

(** Start-up recovery over this store.  The store satisfies what recovery assumes of it, so the
    pass ends with a summary whenever the rows load; it lists every row exactly once, in the order
    of the identifiers' bytes; every download is accounted for; a terminal one reads as before; and
    no row appears or disappears. *)
Theorem startup_over_sqlite `{Checksum} `{Io.Io.OsLaws} files fuel dir now_ms db : 0 ≤ now_ms →
  match Startup.Startup.load_downloads db with
  | Err e =>
      Startup.Startup.recover_all files fuel dir now_ms db =
        Some (Err e, Startup.Startup.MkPass [] 0 db [])
  | Ok all =>
      (let keys := (λ m, as_bytes (md_id m)) <$> all in
       Sorted (λ a b, bytes_leb a b = true) keys ∧ NoDup keys ∧
       ∀ bytes, bytes ∈ keys ↔ is_Some (tb_downloads (db_tables db) !! bytes)) ∧
      (Forall (Startup.Startup.ready files fuel dir) (Startup.Startup.pending all) →
       ∃ summary pass,
         Startup.Startup.recover_all files fuel dir now_ms db = Some (Ok summary, pass) ∧
         zlen (Startup.Startup.sm_downloads summary) + Startup.Startup.sm_skipped summary = zlen all ∧
         same_keys db (Startup.Startup.ps_store pass) ∧
         ∀ m, m ∈ all → Startup.Startup.terminal m = true →
           load_download (md_id m) (Startup.Startup.ps_store pass) = Ok (Some m))
  end.
Proof.
  intros Hnow. pose proof (Startup.Startup.recover_all_spec files fuel dir now_ms db) as Hall.
  destruct (Startup.Startup.load_downloads db) as [all|e] eqn:El; [|done]. split.
  - unfold Startup.Startup.load_downloads in El.
    destruct (Startup.Startup.load_ids db) as [ids|e] eqn:Ei; [|done].
    destruct (load_ids_spec _ _ Ei) as (Hsort & Hnd & Hin).
    apply Startup.Startup.load_each_spec in El as [<- _]. done.
  - intros Hready. destruct (Hall Hready Hnow) as (summary & pass & Hr & Hf2 & Hsk & _ & Hterm).
    exists summary, pass. split; [done|]. split.
    { apply Forall2_length in Hf2. rewrite Hsk. unfold zlen. rewrite Hf2. lia. }
    split; [|exact Hterm]. revert Hr. unfold Startup.Startup.recover_all. rewrite El.
    destruct (Startup.Startup.recover_each _ _ _ _ _ _) as [pass'|] eqn:Er; [|done].
    intros [= _ <-]. by apply recover_each_keys in Er.
Qed.
End saving.

End Store.
