(* ===== verification/Sample.v ===== *)
(** * Concrete libraries for the metadata store, and runs of it

    A URL reader, a codec and a SQLite that satisfy what [Identity] and [Store] ask of the [url]
    crate, of [ciborium] and of SQLite, and the store's theorems applied to concrete records. *)

From S2P Require Import Prelude Intervals Io Format JournalState Replay PartFile Str ContentRange.
From S2P Require Import Remote Metadata Completion Recovery Startup Identity Schema Store Token.
From Stdlib Require Import String Sorting.Sorted.
From stdpp Require Import list gmap.
#[local] Open Scope Z_scope.

Module Sample.
Import PartFile.PartFile Str.Str ContentRange.ContentRange Remote.Remote Metadata.Metadata.
Import Identity.Identity Schema.Schema Store.Store Token.Token.

(** ** Tokens *)

#[export] Instance tok_path_wire : Tok PathWire :=
  tok_via (λ w, (pw_kind w, pw_bytes w)) (λ '(k, b), Some (MkPathWire k b)) ltac:(by intros []).
#[export] Instance tok_identity : Tok IdentityWire :=
  tok_via (λ w, (iw_current_url w, (iw_final_url w, iw_redirect_chain w, iw_page_url w),
                 (iw_origin w, iw_validator w, iw_digest w),
                 (iw_content_type w, iw_suggested_filename w, iw_request_context_ref w),
                 (iw_probed_at_ms w, iw_protocol w, iw_range_state w, iw_range_observation w)))
    (λ '(a, (b, c, d), (e, f, g), (h, i, j), (k, l, m, n)),
       Some (MkIdentityWire a b c d e f g h i j k l m n)) ltac:(by intros []).
#[export] Instance tok_snapshot : Tok IdentitySnapshotWireV1 :=
  tok_via (λ w, (sw_version w, sw_id w, sw_state w, (sw_created_at_ms w, sw_updated_at_ms w),
                 (sw_target_path w, sw_part_path w, sw_total_length w, sw_covered_bytes w),
                 (sw_queue_position w, sw_priority w, sw_error_kind w, sw_space_reserved w),
                 (sw_identity w, sw_url_history w)))
    (λ '(a, b, c, (d, e), (f, g, h, i), (j, k, l, m), (n, o)),
       Some (MkSnapshotWire a b c d e f g h i j k l m n o)) ltac:(by intros []).
#[export] Instance tok_observation : Tok RangeObservationWireV1 :=
  tok_via (λ w, (w_version w, w_kind w, (w_first w, w_second w), w_status w,
                 (w_content_range w, w_content_encoding w), w_body_len w))
    (λ '(a, b, (c, d), e, (f, g), h), Some (MkObservationWire a b c d e f g h)) ltac:(by intros []).

(** ** A codec: the heads a reader looks at first, then the tokens *)

Section codec.
Context {W : Type} `{Tok W} (heads : W → list (Z * Z)) (count : nat) (ranges : W → bool).
Context (heads_count : ∀ w, length (heads w) = count).

Definition head_fits (h : Z * Z) : bool :=
  (0 <=? fst h) && (fst h <? 8) && (0 <=? snd h) && (snd h <? u64_modulus).
Definition head_bytes (h : Z * Z) : list byte := cbor_head (fst h) (snd h).

Fixpoint skip_heads (n : nat) (bs : list byte) : option (list byte) :=
  match n with
  | O => Some bs
  | S n =>
      match parse_cbor_head bs 0 FCheckpoint with
      | Ok (_, _, next) => skip_heads n (drop (Z.to_nat next) bs)
      | Err _ => None
      end
  end.

Definition write_value (w : W) : result (list byte) string :=
  if ranges w && forallb head_fits (heads w) && forallb tok_fits (put w)
  then Ok (flat_map head_bytes (heads w) ++ flat_map tok_bytes (put w))
  else Err "value"%string.
Definition read_value (bs : list byte) : result (W * Z) string :=
  match skip_heads count bs with
  | None => Err "head"%string
  | Some rest =>
      match get (toks_of rest) with
      | Some (w, _) => if ranges w then Ok (w, zlen bs) else Err "range"%string
      | None => Err "tokens"%string
      end
  end.

Lemma skip_written hs rest : forallb head_fits hs = true →
  skip_heads (length hs) (flat_map head_bytes hs ++ rest) = Some rest.
Proof.
  induction hs as [|h hs IH]; [done|]. cbn [forallb flat_map length skip_heads].
  intros [Hh Hhs]%andb_prop. unfold head_fits in Hh. bool_to_prop.
  rewrite <- app_assoc.
  pose proof (parse_cbor_head_write [] (flat_map head_bytes hs ++ rest) (fst h) (snd h) FCheckpoint
    ltac:(lia) ltac:(done) ltac:(rewrite zlen_nil; ulia)) as Hp.
  rewrite app_nil_l, zlen_nil, Z.add_0_l in Hp. unfold head_bytes at 1. rewrite Hp.
  unfold head_bytes at 2. unfold zlen. rewrite Nat2Z.id, drop_app_length. by apply IH.
Qed.

Lemma read_written w bs : write_value w = Ok bs → read_value bs = Ok (w, zlen bs).
Proof using heads_count.
  unfold write_value, read_value. destruct (ranges w) eqn:Er; [|done].
  destruct (forallb head_fits (heads w)) eqn:Eh; [|done].
  destruct (forallb tok_fits (put w)) eqn:Et; [|done]. cbn [andb]. intros [= <-].
  rewrite <- (heads_count w), skip_written by done.
  rewrite toks_of_bytes by done. pose proof (get_put w []) as Hg. rewrite app_nil_r in Hg.
  by rewrite Hg, Er.
Qed.
Lemma read_ranges bs w n : read_value bs = Ok (w, n) → ranges w = true.
Proof.
  unfold read_value. destruct (skip_heads _ _); [|done]. destruct (get _) as [[w' tl]|]; [|done].
  destruct (ranges w') eqn:Er; [|done]. by intros [= <- _].
Qed.
Lemma written_heads w bs : write_value w = Ok bs →
  ∃ rest, bs = flat_map head_bytes (heads w) ++ rest.
Proof. unfold write_value. destruct (_ && _ && _); [|done]. intros [= <-]. by eexists. Qed.
End codec.

(** ** The formats *)

Lemma heads_cons h hs (rest : list byte) :
  flat_map head_bytes (h :: hs) ++ rest = cbor_head (fst h) (snd h) ++ (flat_map head_bytes hs ++ rest).
Proof. cbn [flat_map]. by rewrite <- app_assoc. Qed.

Definition u64b (z : Z) : bool := (0 <=? z) && (z <? u64_modulus).
Lemma u64b_spec z : u64b z = true → u64 z.
Proof. unfold u64b, u64. intros. bool_to_prop. lia. Qed.
Definition someb {A} (p : A → bool) (o : option A) : bool :=
  match o with Some a => p a | None => true end.
Lemma someb_u64 o : someb u64b o = true → on_some u64 o.
Proof. destruct o; cbn; [apply u64b_spec|done]. Qed.
Lemma forallb_u64 {A} (key : A → Z) l :
  forallb (λ x, u64b (key x)) l = true → Forall (λ x, u64 (key x)) l.
Proof.
  induction l as [|x l IH]; cbn; [constructor|]. intros [Hx Hl]%andb_prop.
  constructor; [by apply u64b_spec|by apply IH].
Qed.

Definition observation_heads (w : RangeObservationWireV1) : list (Z * Z) := [(4, 8); (0, w_version w)].
Definition observation_ok (w : RangeObservationWireV1) : bool :=
  u64b (w_first w) && someb u64b (w_second w).
#[export] Instance cbor_observation : Cbor RangeObservationWireV1 := {
  into_writer := write_value observation_heads observation_ok;
  from_reader := read_value 2 observation_ok;
}.
#[export] Instance observation_laws : CborObservationLaws.
Proof.
  split; cbn.
  - intros w bs. by apply read_written.
  - intros w bs Hw Hv. apply written_heads in Hw as [rest ->]. exists rest.
    unfold observation_heads. by rewrite !heads_cons, Hv.
Qed.
#[export] Instance observation_in_range : CborRanges RangeObservationWireV1 observation_ranges.
Proof.
  intros bs w n Hr. apply read_ranges in Hr. unfold observation_ok in Hr.
  apply andb_prop in Hr as [Hf Hs]. split; [by apply u64b_spec|by apply someb_u64].
Qed.

Definition snapshot_heads (w : IdentitySnapshotWireV1) : list (Z * Z) := [(4, 15); (0, sw_version w)].
Definition snapshot_ok (w : IdentitySnapshotWireV1) : bool :=
  u64b (sw_created_at_ms w) && u64b (sw_updated_at_ms w) && someb u64b (sw_total_length w) &&
  u64b (sw_covered_bytes w) && someb u64b (sw_queue_position w) && fits_i32 (sw_priority w) &&
  u64b (iw_probed_at_ms (sw_identity w)) && forallb (λ e, u64b (snd e)) (sw_url_history w).
#[export] Instance cbor_snapshot : Cbor IdentitySnapshotWireV1 := {
  into_writer := write_value snapshot_heads snapshot_ok;
  from_reader := read_value 2 snapshot_ok;
}.
#[export] Instance snapshot_reads : CborReads IdentitySnapshotWireV1 snapshot_bounded.
Proof. intros w bs Hw _. by apply (read_written _ 2) in Hw. Qed.
#[export] Instance snapshot_versioned : CborVersioned IdentitySnapshotWireV1 15 sw_version.
Proof.
  intros w bs Hw. apply written_heads in Hw as [rest ->]. exists rest.
  unfold snapshot_heads. by rewrite !heads_cons.
Qed.
#[export] Instance snapshot_in_range : CborRanges IdentitySnapshotWireV1 snapshot_ranges.
Proof.
  intros bs w n Hr. apply read_ranges in Hr. unfold snapshot_ok in Hr.
  repeat match goal with H : _ && _ = true |- _ => apply andb_prop in H as [? ?] end.
  split_and!; try (by apply u64b_spec); try (by apply someb_u64); [|by apply forallb_u64].
  unfold fits_i32, i32 in *. bool_to_prop. lia.
Qed.

Definition checkpoint_heads_of (w : CheckpointWireV1) : list (Z * Z) :=
  let '(version, total, covered, l) := w in
  [(4, 4); (0, version); (0, total); (0, covered); (4, zlen l)].
Definition checkpoint_wire_ok (w : CheckpointWireV1) : bool :=
  let '(_, total, _, l) := w in u64b total && forallb (λ p, u64b (fst p) && u64b (snd p)) l.
#[export] Instance cbor_checkpoint : Cbor CheckpointWireV1 := {
  into_writer := write_value checkpoint_heads_of checkpoint_wire_ok;
  from_reader := read_value 5 checkpoint_wire_ok;
}.
Lemma checkpoint_heads_length w : length (checkpoint_heads_of w) = 5%nat.
Proof. by destruct w as [[[? ?] ?] ?]. Qed.
#[export] Instance checkpoint_reads : CborReads CheckpointWireV1 checkpoint_bounded.
Proof. intros w bs Hw _. by apply (read_written _ 5 _ checkpoint_heads_length) in Hw. Qed.
#[export] Instance checkpoint_heads_law : CheckpointHeads.
Proof.
  intros version total covered l bs Hw. apply written_heads in Hw as [rest ->]. exists rest.
  unfold checkpoint_heads_of. by rewrite !heads_cons.
Qed.
#[export] Instance checkpoint_in_range : CborRanges CheckpointWireV1 checkpoint_ranges.
Proof.
  intros bs w n Hr. apply read_ranges in Hr. destruct w as [[[version total] covered] l]. cbn in *.
  apply andb_prop in Hr as [Ht Hl]. split; [by apply u64b_spec|].
  induction l as [|p l IH]; [constructor|]. cbn in Hl. apply andb_prop in Hl as [Hp Hl].
  apply andb_prop in Hp as [? ?]. constructor; [split; by apply u64b_spec|by apply IH].
Qed.

(** A path is its kind and its bytes. *)
#[export] Instance cbor_path : Cbor PathWire := {
  into_writer w :=
    if (0 <=? pw_kind w) && (pw_kind w <? 256) then Ok (byte_of (pw_kind w) :: pw_bytes w)
    else Err "kind"%string;
  from_reader bs :=
    match bs with
    | [] => Err "empty"%string
    | b :: rest => Ok (MkPathWire (byte_val b) rest, zlen bs)
    end;
}.
#[export] Instance path_reads : CborReads PathWire (λ _, True).
Proof.
  intros [k b] bs. cbn. destruct (0 <=? k) eqn:E1, (k <? 256) eqn:E2; try done. cbn. intros [= <-] _.
  bool_to_prop. by rewrite byte_val_of by lia.
Qed.
#[export] Instance path_size : PathWireSize.
Proof. intros [k b] bs. cbn. destruct (_ && _); [|done]. intros [= <-]. zlen. Qed.

(** ** URLs: their own text *)

Definition before (c : Z) (t : str) : str := match split_once c t with Some (a, _) => a | None => t end.
Definition after (c : Z) (t : str) : option str := option_map snd (split_once c t).
#[export] Instance plain_urls : UrlCrate str := {
  Url_parse t := Some t;
  url_str t := t;
  scheme := before 58;
  username t := match split_once 64 t with Some (a, _) => a | None => [] end;
  password _ := None;
  query := after 63;
  fragment := after 35;
  clear_username t := Some (default t (after 64 t));
  clear_password t := Some t;
  clear_query := before 63;
  clear_fragment := before 35;
}.
#[export] Instance plain_laws : UrlLaws str.
Proof. intros u. done. Qed.

(** ** SQLite that does not fail, or fails at one write *)

Definition sqlite_with (fault : nat → Statement → option string) : SqliteEnv := {|
  sql_fault := fault;
  constraint_failed _ := "constraint failed"%string;
  no_rows := "no rows"%string;
  integral_out_of_range _ := "out of range"%string;
  conversion_failure _ := "conversion"%string;
|}.
#[export] Instance working : SqliteEnv := sqlite_with (λ _ _, None).
#[export] Instance working_reads : ReadsSucceed.
Proof. done. Qed.

(** ** Runs *)

Lemma fst_is {A B} (p : A * B) a : fst p = a → ∃ b, p = (a, b).
Proof. destruct p as [x b]. cbn. intros <-. by exists b. Qed.

Definition uuid : list byte := replicate 6 x01 ++ [x71; x01; x81] ++ replicate 7 x01.
Definition home : UrlReference := MkUrlReference (lit "https://a.example/f") None.
Definition keyed : UrlReference :=
  MkUrlReference (lit "https://b.example/f") (Some (MkSecretRef (lit "keyring:downpour/k1"))).
Definition proof9 : RangeProof :=
  MkProof 9 (Bytes 0 0 (Some 9)) (FromTo 0 0)
    (RangeObservation_new (FromTo 0 0) 206 (Some (lit "bytes 0-0/9")) None 1).
Definition sample_identity : IdentityMetadata :=
  MkIdentity home (Some keyed) [home; keyed] None (lit "https://a.example") (StrongETag (lit "e1"))
    (Some (Remote.MkDigest Sha256 (lit "QUJD"))) (Some (lit "text/plain")) None None 7 Http2 (Proven proof9).
Definition sample : DownloadMetadata :=
  MkMetadata (MkDownloadId uuid) Paused 1 2 "dir/f"%string "dir/f.dppart"%string (Some 9) 4 None (-3)
    (Some (MkErrorKind (lit "network.timeout"))) true sample_identity [MkHistory home 5; MkHistory keyed 6].
Definition empty_db : Db := MkDb (MkTables ∅ ∅ ∅ ∅ ∅) 0.

Lemma sample_representable : representable sample.
Proof.
  assert (Hh : reference_ok home) by (split; [vm_compute; reflexivity|exact I]).
  assert (Hk : reference_ok keyed) by (split; vm_compute; reflexivity).
  assert (Hi : identity_ok sample_identity).
  { split; [exact Hh|exact Hk| |exact I|vm_compute; reflexivity|exact I|done|].
    - apply Forall_cons. split; [exact Hh|]. apply Forall_cons. split; [exact Hk|by apply Forall_nil].
    - exists (FromTo 0 0), 206, (Some (lit "bytes 0-0/9")), None, 1.
      split; [split; by apply u64b_spec|vm_compute; reflexivity]. }
  split; [vm_compute; reflexivity|done|done|done|done|exact I|by split|vm_compute; reflexivity|exact Hi|].
  apply Forall_cons. split; [by split|]. apply Forall_cons. split; [by split|by apply Forall_nil].
Qed.

Example secrets_stay_out_witness :
  UrlReference_parse (lit "https://u@a.example/f?k=v") None = Err SecretReferenceRequired ∧
  ∃ r, UrlReference_parse (lit "https://a.example/f?k=v") (secret_ref keyed) = Ok r ∧
    public_url r = lit "https://a.example/f" ∧ public_only (public_url r).
Proof.
  destruct (secrets_stay_out (Url := str)) as (Hparse & Hrefuse & _). split.
  - by apply (Hrefuse _ (lit "https://u@a.example/f?k=v")).
  - eexists. split; [vm_compute; reflexivity|]. split; [vm_compute; reflexivity|].
    refine (proj1 (proj2 (proj2 (Hparse (lit "https://a.example/f?k=v") (secret_ref keyed) _ _)))).
    vm_compute. reflexivity.
Defined.

Example snapshot_is_the_record_witness :
  ∃ bs, encode_identity_snapshot sample = Ok bs ∧ decode_identity_snapshot bs = Ok sample.
Proof.
  assert (Hr : is_ok (encode_identity_snapshot sample) = true) by (vm_compute; reflexivity).
  destruct (encode_identity_snapshot sample) as [bs|e] eqn:He; [|discriminate Hr].
  exists bs. split; [reflexivity|].
  exact (proj1 (proj1 (snapshot_is_the_record sample bs) sample_representable He)).
Defined.

(** The disk is full at the fourth write of a save. *)
Definition full_disk : SqliteEnv :=
  sqlite_with (λ n s, if is_query s then None else if Nat.eqb n 3 then Some "disk full"%string else None).
Lemma full_disk_reads : @ReadsSucceed full_disk.
Proof. intros n s Hs. cbn. by rewrite Hs. Qed.

Example store_keeps_records_witness :
  (∃ db, save_download sample empty_db = (Ok tt, db) ∧ load_download (md_id sample) db = Ok (Some sample)) ∧
  ∃ db, @save_download _ _ _ full_disk sample empty_db = (Err (Sqlite "disk full"), db) ∧
    db_tables db = db_tables empty_db.
Proof.
  split.
  - assert (Hr : fst (save_download sample empty_db) = Ok tt) by (vm_compute; reflexivity).
    destruct (fst_is _ _ Hr) as [db Hs]. exists db. split; [exact Hs|].
    exact (proj1 (store_keeps_records sample empty_db (Ok tt) db sample_representable Hs)).
  - assert (Hr : fst (@save_download _ _ _ full_disk sample empty_db) = Err (Sqlite "disk full"))
      by (vm_compute; reflexivity).
    destruct (fst_is _ _ Hr) as [db Hs]. exists db. split; [exact Hs|].
    exact (proj1 (proj1 (@store_keeps_records str _ _ _ _ _ _ _ _ full_disk full_disk_reads
      sample empty_db (Err (Sqlite "disk full")) db sample_representable Hs))).
Defined.

Definition one_row : Db := snd (save_download sample empty_db).
Definition cached : Checkpoint := MkCheckpoint 9 4 [MkComplete 0 3; MkComplete 8 9].

Example checkpoint_cache_exact_witness :
  ∃ db, save_checkpoint (md_id sample) 12 34 cached one_row = (Ok true, db) ∧
    load_checkpoint (md_id sample) db = Ok (Some (MkPersisted 12 34 cached)).
Proof.
  assert (Hr : fst (save_checkpoint (md_id sample) 12 34 cached one_row) = Ok true)
    by (vm_compute; reflexivity).
  destruct (fst_is _ _ Hr) as [db Hs]. exists db. split; [exact Hs|].
  assert (Hok : checkpoint_ok cached).
  { split; [vm_compute; reflexivity|]. split; [by apply u64b_spec|].
    apply Forall_cons. split; [split; by apply u64b_spec|].
    apply Forall_cons. split; [split; by apply u64b_spec|]. by apply Forall_nil. }
  exact (proj1 (checkpoint_cache_exact (md_id sample) 12 34 cached one_row (Ok true) db Hok
    ltac:(discriminate) ltac:(discriminate) Hs)).
Defined.

Example loaded_values_are_checked_witness :
  load_download (md_id sample) one_row = Ok (Some sample) ∧ representable sample.
Proof.
  assert (Hl : load_download (md_id sample) one_row = Ok (Some sample)) by (vm_compute; reflexivity).
  split; [exact Hl|].
  exact (proj1 (proj2 (proj1 (loaded_values_are_checked (md_id sample) one_row) sample Hl))).
Defined.

(** A store that holds an interrupted download and a completed one, found by the daemon at start. *)
Section start.
Import Concrete Io.MemoryOs Recovery.Recovery.Example_recovery.

Definition finished : DownloadMetadata :=
  MkMetadata (MkDownloadId uuid) Completed 1 2 "dir/f"%string "dir/f.dppart"%string (Some 9) 9 None 0
    None true sample_identity [].
Definition two_rows : Db := snd (save_download ex_metadata (snd (save_download finished empty_db))).

Example startup_over_sqlite_witness :
  Startup.Startup.load_downloads two_rows = Ok [finished; ex_metadata] ∧
  ∃ summary pass,
    Startup.Startup.recover_all Startup.Startup.Example_startup.on_disk 400 EmptyString 10 two_rows
      = Some (Ok summary, pass) ∧
    same_keys two_rows (Startup.Startup.ps_store pass).
Proof.
  assert (Hl : Startup.Startup.load_downloads two_rows = Ok [finished; ex_metadata])
    by (vm_compute; reflexivity).
  split; [exact Hl|].
  pose proof (startup_over_sqlite Startup.Startup.Example_startup.on_disk 400 EmptyString 10 two_rows
    ltac:(discriminate)) as Hall.
  rewrite Hl in Hall. destruct Hall as [_ Hall].
  destruct Hall as (summary & pass & Hr & _ & Hk & _).
  - apply Forall_cons. split; [|apply Forall_nil; exact I].
    split; [apply ex_sound; vm_compute; discriminate|].
    intros total Ht. injection Ht as <-. split; [discriminate|reflexivity].
  - exists summary, pass. split; [exact Hr|exact Hk].
Defined.
End start.

(** Openings. *)
Definition object (name : string) : SchemaObject := ("table"%string, name, name, None).
#[export] Instance sample_opening : SqliteOpening := {|
  open_fault _ _ := None;
  schema_v1 := [object "downloads"; object "identities"];
  schema_pages := 9;
  set_pragma c p :=
    match c with
    | SetJournalMode => MkPragmas (lit "wal") (pr_synchronous p) (pr_foreign_keys p) (pr_busy_timeout p) (pr_trusted_schema p)
    | SetSynchronous => MkPragmas (pr_journal_mode p) 1 (pr_foreign_keys p) (pr_busy_timeout p) (pr_trusted_schema p)
    | SetForeignKeys => MkPragmas (pr_journal_mode p) (pr_synchronous p) 1 (pr_busy_timeout p) (pr_trusted_schema p)
    | SetBusyTimeout => MkPragmas (pr_journal_mode p) (pr_synchronous p) (pr_foreign_keys p) 5000 (pr_trusted_schema p)
    | SetTrustedSchema => MkPragmas (pr_journal_mode p) (pr_synchronous p) (pr_foreign_keys p) (pr_busy_timeout p) 0
    | _ => p
    end;
  version_out_of_range _ := "out of range"%string;
  older_version _ := "older"%string;
|}.
Definition default_pragmas : Pragmas := MkPragmas (lit "delete") 2 0 0 1.
Definition new_file : DbFile := MkDbFile 0 [] 0 default_pragmas.
Definition future_file : DbFile := MkDbFile 2 [object "downloads"] 5 default_pragmas.

Example unknown_databases_are_refused_witness :
  fst (open_store (MkOpening new_file 0)) = Ok tt ∧
  of_schema (op_file (snd (open_store (MkOpening new_file 0)))) ∧
  fst (open_store (MkOpening future_file 0)) = Err (NewerSchemaVersion 2 1) ∧
  op_file (snd (open_store (MkOpening future_file 0))) = future_file.
Proof.
  pose proof (unknown_databases_are_refused new_file 0 ltac:(discriminate)) as Hn.
  pose proof (unknown_databases_are_refused future_file 0 ltac:(discriminate)) as Hf.
  assert (En : fst (open_store (MkOpening new_file 0)) = Ok tt) by (vm_compute; reflexivity).
  assert (Ef : fst (open_store (MkOpening future_file 0)) = Err (NewerSchemaVersion 2 1))
    by (vm_compute; reflexivity).
  destruct (open_store (MkOpening new_file 0)) as [r o]. cbn [fst snd] in *. rewrite En in *.
  destruct (open_store (MkOpening future_file 0)) as [r' o']. cbn [fst snd] in *. rewrite Ef in *.
  split; [reflexivity|]. split; [exact (proj1 Hn)|]. split; [reflexivity|].
  destruct Hf as [_ [Hf|[_ [[Hv _]|[Hv _]]]]]; [exact Hf|discriminate Hv|discriminate Hv].
Defined.
End Sample.
